(* ===== verification/_CoqProject ===== *)
-Q . S2P
Prelude.v
RustStd.v
Cbor.v
Wire.v
Types.v
Frame.v
Message.v
Session.v
Events.v
Browser.v
Operations.v
Pipeline.v
VaultFormat.v
VaultRecords.v
Aad.v
VaultKeys.v
VaultStore.v
VaultCore.v
VaultRefine.v
Storage.v
Agent.v
AgentRefine.v
Outcome.v
Idempotency.v
Ownership.v
Threads.v
Runtime.v
Fill.v
Passkeys.v
Unlocking.v
WindowsHello.v
Protection.v
Dispatch.v
Rely.v
RuntimeRefine.v
ReadRefine.v
FillRefine.v
PasskeyRefine.v
RollbackRefine.v
LockRefine.v
UnlockRefine.v
HelloRefine.v
DispatchRefine.v
