(* ===== verification/Prelude.v ===== *)
(** * Librarian: a verification library for the credential manager

    Librarian keeps website accounts and passkeys in one encrypted vault file.
    A trusted agent process owns the vault; a desktop application, a browser host
    and a passkey provider talk to it over named pipes.  The Rust crates modelled
    here are [agent-protocol] (the wire protocol and the state machine of one
    connection), [vault-format] (the canonical file format), [vault-core] (keys and
    the record store) and [vault-agent] (the process that owns the vault).

    ** Files and sources

    - [Prelude]: results with panics kept apart, the state-and-error monad [stm],
      machine integers, bytes, automation.  [RustStd]: UTF-8 and the order of bytes,
      sorting and searching as the Rust library does.
    - [Cbor]: the minicbor crate as a class [Minicbor] with its RFC 8949 laws and an
      instance.  [Wire]: the helpers of [cbor.rs] and canonical decoding.
    - [Types] ([lib.rs], [types.rs]), [Frame] ([frame.rs]), [Message]
      ([message.rs]), [Session] ([session.rs]), [Events] ([events.rs]), [Browser]
      ([browser.rs]), [Operations] ([operations.rs]) of [crates/agent-protocol/src];
      [Pipeline] composes them.
    - [VaultFormat] ([lib.rs]) and [VaultRecords] ([records.rs]) of
      [crates/vault-format/src]; [Aad]: what the associated data bind.
    - [VaultKeys] and [VaultCore] ([lib.rs]), [VaultStore] ([records.rs],
      [browser_origin.rs]) of [crates/vault-core/src]; [VaultRefine]: the map from
      identifiers to records that the store implements.
    - [Storage] ([sqlite.rs] and the guards of [filesystem.rs]): the vault file,
      read and changed through SQLite; [Agent] ([lifecycle.rs], [records.rs]): the
      agent's session, permits and calls, on the store and the file; [AgentRefine]:
      the agent and its file as one map of records.  All of [crates/vault-agent/src].
    - The runtime ([runtime.rs] of [crates/vault-agent/src]): [Outcome] (outcomes of
      operations), [Idempotency] (the cache of results), [Ownership] (which runtime
      owns which files), [Threads] (the state that request threads share: mutexes,
      permits, cancellation flags, the epoch), [Runtime] (the operations on website
      accounts, and locking), [Fill] (filling a login into a page), [Passkeys],
      [Unlocking], [WindowsHello] ([windows_hello.rs]: the protected state of Windows
      Hello) and [Protection] (enrolling, unlocking with and removing a credential),
      [Dispatch] (from the admission of a request to its response);
      [Rely]: what a thread may rely on; [RuntimeRefine] and [ReadRefine]: what the
      operations on accounts that write and those that read promise; [FillRefine]: what a
      fill discloses; [PasskeyRefine] and [RollbackRefine]: the operations on passkeys,
      and the rollback of creations that ended connections left behind; [LockRefine],
      [UnlockRefine]: locking and unlocking; [HelloRefine]: what becomes of credentials of
      Windows Hello; [DispatchRefine]: which responses are written.

    A definition has the name of the function it translates; a method
    [Type::method] is [Type_method] where the bare name would clash.  A Rust
    [Result] is a [result], whose [Panic] is an [expect] or an index that fails;
    [&mut self] is the state of [stm], and an early return keeps the changes made
    before it.

    ** What the theorems show

    - Protocol: every decoder accepts exactly the encodings of valid values and
      never panics; admission, cancellation, completion and closing of requests under
      every interleaving of calls; a request crosses all layers unchanged.
    - Format: header, manifest, envelopes, plaintexts and the Windows Hello
      protector are canonical; generations advance one by one; associated data of
      different slots never coincide.
    - Store: unlock returns exactly the sessions a secret opens; reads are
      queries, and prepared mutations updates, of a finite map; nothing is reported
      about a snapshot that is not authentic; when mutations succeed.
    - Agent: an unlock ends with a session that the file authenticates or a locked
      agent; a permit once revoked stays revoked; a mutation of the file is atomic;
      calls refine updates and queries of one map on which session and file agree,
      or lock the agent.
    - Runtime: a request commits only when authorised, under the gate that keeps it
      so; its operations update the map or decline without data, and never lock a
      mutex twice, whatever the other threads do; reads answer from that map or withhold;
      a response with data is written only for a request still authorised or already
      committed; the rollback of passkeys left behind terminates; a lock revokes what was
      under way, and an unlock publishes only what the password opens; each credential that
      the platform holds stays recorded, so that it can be removed; results are replayed, not computed again; a page of accounts is the longest that
      fits; no two runtimes own the same file.

    ** Interfaces

    Cryptography ([Crypto]), URLs ([UrlCrate]), CBOR ([Minicbor]), randomness and
    cancellation ([Env]), the clock ([Host]), and SQLite with file handles that deny
    writing ([Sqlite]) are classes with their documented laws; each has an instance,
    on which the examples evaluate.  The steps of the other threads of the runtime are
    a class, too ([Threads]); its laws ([ThreadsLaws]) say what they leave alone, and
    which code sees to that; [Connections] says whether connections end meanwhile.  The
    inspection of paths ([PathInspection], [InspectionLaws]), the verifier of passkey requests ([PasskeyRequestVerifier], [VerifierLaws]) and the
    connection that a thread serves ([Serving], [ServingLaws]) are such classes as well, and so are the
    platform's Windows Hello, the file of the protected state and how often a ceremony is
    watched ([WindowsHelloProvider], [WindowsHelloStateRepository], [Ceremonies], [HelloLaws]).  No law states secrecy or unforgeability.

    ** Bounds

    Decoders read a byte list once and need no fuel.  The only bounded retries are
    those of the source (128 attempts for a fresh identifier or key), and the binary
    search of [encode_summary_page], whose fuel is the number of accounts.  Integers are
    [Z] in the range of their width, and [usize] has 64 bits.

    ** Not modelled

    Zeroization, [Debug] and [Display] text; the creation of a vault file ([create_vault]
    of [Dispatch] is a parameter); the start of the agent, named pipes and the Windows
    bindings, among them the file that holds the protected state of Windows Hello; C++,
    TypeScript and packaging. *)

From Stdlib Require Export ZArith Lia.
From Stdlib Require Export Strings.Byte.
From stdpp Require Export base list gmap sorting.

#[global] Open Scope Z_scope.
#[global] Set Default Goal Selector "!".

(** ** Rust results

    A call of a Rust function that returns [Result<A, E>] ends in [Ok], in
    [Err], or in a panic ([expect] on a failure, an index out of range).  The
    three outcomes are kept apart so that the absence of panics is a theorem
    and not an assumption. *)

Inductive result (E A : Type) : Type :=
  | Ok (a : A)
  | Err (e : E)
  | Panic.
Arguments Ok {_ _} _.
Arguments Err {_ _} _.
Arguments Panic {_ _}.

#[global] Instance result_eq_dec {E A} `{EqDecision E, EqDecision A} : EqDecision (result E A).
Proof. solve_decision. Defined.

(** The [?] operator. *)
#[global] Instance result_bind {E} : MBind (result E) := λ A B f r,
  match r with
  | Ok a => f a
  | Err e => Err e
  | Panic => Panic
  end.
#[global] Instance result_ret {E} : MRet (result E) := λ A, Ok.

(** [if c { return Err(e) }]. *)
Definition fail_if {E} (c : bool) (e : E) : result E unit :=
  if c then Err e else Ok tt.

(** [Option::ok_or]. *)
Definition ok_or {E A} (o : option A) (e : E) : result E A :=
  match o with Some a => Ok a | None => Err e end.

(** [Result::map_err]. *)
Definition map_err {E F A} (f : E → F) (r : result E A) : result F A :=
  match r with Ok a => Ok a | Err e => Err (f e) | Panic => Panic end.

Definition is_ok {E A} (r : result E A) : bool :=
  match r with Ok _ => true | _ => false end.

Section result_facts.
Context {E A B : Type}.
Implicit Types (r : result E A) (f : A → result E B).

Lemma Ok_inj (a b : A) : Ok (E:=E) a = Ok b → a = b.
Proof. by intros [= ->]. Qed.

Lemma bind_Ok r f b : (r ≫= f) = Ok b ↔ ∃ a, r = Ok a ∧ f a = Ok b.
Proof. destruct r; simpl; naive_solver. Qed.

Lemma bind_Panic r f : (r ≫= f) = Panic ↔ r = Panic ∨ ∃ a, r = Ok a ∧ f a = Panic.
Proof. destruct r; simpl; naive_solver. Qed.

Lemma bind_not_Panic r f :
  r ≠ Panic → (∀ a, r = Ok a → f a ≠ Panic) → (r ≫= f) ≠ Panic.
Proof. destruct r; naive_solver. Qed.

Lemma fail_if_Ok c (e : E) u : fail_if c e = Ok u ↔ c = false.
Proof. destruct c, u; simpl; naive_solver. Qed.

Lemma fail_if_not_Panic c (e : E) : fail_if c e ≠ Panic.
Proof. by destruct c. Qed.

Lemma ok_or_not_Panic (o : option A) (e : E) : ok_or o e ≠ Panic.
Proof. by destruct o. Qed.

Lemma map_err_not_Panic {F} (g : E → F) r : r ≠ Panic → map_err g r ≠ Panic.
Proof. by destruct r. Qed.

Lemma ok_or_Ok (o : option A) (e : E) a : ok_or o e = Ok a ↔ o = Some a.
Proof. destruct o; simpl; naive_solver. Qed.

Lemma map_err_Ok {F} (g : E → F) r a : map_err g r = Ok a ↔ r = Ok a.
Proof. destruct r; simpl; naive_solver. Qed.
End result_facts.

(** [inv_ok H] takes a hypothesis [H : m = Ok b] apart into the successes of
    the steps of [m]. *)
Ltac inv_ok H :=
  lazymatch type of H with
  | (_ ≫= _) = Ok _ =>
      let x := fresh "x" in let H1 := fresh "Hok" in let H2 := fresh "Hok" in
      apply bind_Ok in H as (x & H1 & H2); cbn beta in H2; inv_ok H1; inv_ok H2
  | fail_if _ _ = Ok _ => apply fail_if_Ok in H
  | ok_or _ _ = Ok _ => apply ok_or_Ok in H
  | map_err _ _ = Ok _ => apply map_err_Ok in H; inv_ok H
  | Ok _ = Ok _ => apply Ok_inj in H; subst
  | mret _ = Ok _ => apply Ok_inj in H; subst
  | Err _ = Ok _ => discriminate H
  | Panic = Ok _ => discriminate H
  | _ => idtac
  end.

(** [no_panic] walks a computation and shows that no step of it panics. *)
Create HintDb panic.
Ltac no_panic :=
  repeat first
    [ solve [eauto 2 with panic nocore]
    | apply bind_not_Panic; [|intros ? ?]
    | apply fail_if_not_Panic
    | apply ok_or_not_Panic
    | apply map_err_not_Panic
    | discriminate
    | solve [eauto with panic]
    | progress case_match ].

(** ** Stateful calls

    A call on a [&mut S] that may fail: an early return keeps the changes made
    before it. *)

Definition stm (S E A : Type) : Type := S → result E A * S.

#[global] Instance stm_bind {S E} : MBind (stm S E) := λ A B f m s,
  match m s with
  | (Ok a, s) => f a s
  | (Err e, s) => (Err e, s)
  | (Panic, s) => (Panic, s)
  end.
#[global] Instance stm_ret {S E} : MRet (stm S E) := λ A a s, (Ok a, s).

Section stm.
Context {S E : Type}.

Definition get : stm S E S := λ s, (Ok s, s).
Definition modify (f : S → S) : stm S E unit := λ s, (Ok tt, f s).
Definition throw {A} (e : E) : stm S E A := λ s, (Err e, s).

(** [if c { state = f(state); return Err(e) }]. *)
Definition fail_after (c : bool) (f : S → S) (e : E) : stm S E unit := λ s,
  if c then (Err e, f s) else (Ok tt, s).
Definition guard_st (c : bool) (e : E) : stm S E unit := fail_after c id e.

(** [call?] where [From] converts the error. *)
Definition map_err_st {F A} (g : E → F) (m : stm S E A) : stm S F A := λ s,
  let '(r, s) := m s in (map_err g r, s).

(** A pure call in a stateful body. *)
Definition of_result {A} (r : result E A) : stm S E A := λ s, (r, s).

Lemma of_result_Ok {A} (r : result E A) s a s' : of_result r s = (Ok a, s') ↔ r = Ok a ∧ s' = s.
Proof. unfold of_result. naive_solver. Qed.
Lemma map_err_st_Ok {F A} (g : E → F) (m : stm S E A) s a s' :
  map_err_st g m s = (Ok a, s') ↔ m s = (Ok a, s').
Proof. unfold map_err_st. destruct (m s) as [[b|e|] s1]; naive_solver. Qed.
Lemma stm_ret_Ok {A} (a b : A) (s s' : S) : (mret a : stm S E A) s = (Ok b, s') ↔ b = a ∧ s' = s.
Proof. unfold mret, stm_ret. naive_solver. Qed.

Lemma stm_bind_Ok {A B} (m : stm S E A) (f : A → stm S E B) s b s' :
  (m ≫= f) s = (Ok b, s') ↔ ∃ a s1, m s = (Ok a, s1) ∧ f a s1 = (Ok b, s').
Proof. unfold mbind, stm_bind. destruct (m s) as [[a|e|] s1]; naive_solver. Qed.

Lemma stm_bind_assoc {A B C} (m : stm S E A) (f : A → stm S E B) (g : B → stm S E C) s :
  (m ≫= λ a, f a ≫= g) s = ((m ≫= f) ≫= g) s.
Proof. unfold mbind, stm_bind. by destruct (m s) as [[a|e|] s1]. Qed.

Lemma fail_after_Ok c f (e : E) s u s' : fail_after c f e s = (Ok u, s') ↔ c = false ∧ s' = s.
Proof. unfold fail_after. destruct c, u; naive_solver. Qed.
End stm.

(** ** Outcomes of stateful calls

    [triple P m Q R]: from a state with [P], [m] ends in a value with [Q] or in an
    error with [R], and does not panic. *)

Section triple.
Context {S : Type}.

Definition triple {E A} (P : S → Prop) (m : stm S E A) (Q : A → S → Prop) (R : E → S → Prop) : Prop :=
  ∀ s, P s → match m s with (Ok a, s') => Q a s' | (Err e, s') => R e s' | (Panic, _) => False end.

Lemma triple_bind {E A B} P (m : stm S E A) (k : A → stm S E B) Q Q' R :
  triple P m Q R → (∀ a, triple (Q a) (k a) Q' R) → triple P (m ≫= k) Q' R.
Proof.
  intros Hm Hk s Hs. unfold mbind, stm_bind. specialize (Hm s Hs).
  destruct (m s) as [[a|e|] s']; [by apply Hk|done|done].
Qed.
Lemma triple_weaken {E A} (P P' : S → Prop) (m : stm S E A) (Q Q' : A → S → Prop) (R R' : E → S → Prop) :
  triple P m Q R → (∀ s, P' s → P s) → (∀ a s, Q a s → Q' a s) → (∀ e s, R e s → R' e s) →
  triple P' m Q' R'.
Proof.
  intros Hm HP HQ HR s Hs. specialize (Hm s (HP s Hs)). destruct (m s) as [[a|e|] s']; auto.
Qed.
Lemma triple_from {E A} (P P' : S → Prop) (m : stm S E A) Q R :
  (∀ s, P' s → P s) → triple P m Q R → triple P' m Q R.
Proof. intros HP Hm. by eapply triple_weaken. Qed.
Lemma triple_ret {E A} P (a : A) (Q : A → S → Prop) (R : E → S → Prop) :
  (∀ s, P s → Q a s) → triple P (mret a) Q R.
Proof. by intros HQ s Hs; apply HQ. Qed.
Lemma triple_modify {E} P f (Q : unit → S → Prop) (R : E → S → Prop) :
  (∀ s, P s → Q tt (f s)) → triple P (modify f) Q R.
Proof. by intros HQ s Hs; apply HQ. Qed.
Lemma triple_of_result {E A} P (r : result E A) (Q : A → S → Prop) (R : E → S → Prop) :
  r ≠ Panic → (∀ a s, r = Ok a → P s → Q a s) → (∀ e s, r = Err e → P s → R e s) →
  triple P (of_result r) Q R.
Proof. intros Hp HQ HR s Hs. unfold of_result. destruct r; auto. Qed.
Lemma triple_guard {E} P (c : bool) (e : E) (Q : unit → S → Prop) (R : E → S → Prop) :
  (∀ s, c = false → P s → Q tt s) → (∀ s, c = true → P s → R e s) → triple P (guard_st c e) Q R.
Proof. intros HQ HR s Hs. unfold guard_st, fail_after. destruct c; simpl; auto. Qed.
Lemma triple_map_err {E F A} P (g : E → F) (m : stm S E A) Q (R : F → S → Prop) :
  triple P m Q (λ e, R (g e)) → triple P (map_err_st g m) Q R.
Proof.
  intros Hm s Hs. specialize (Hm s Hs). unfold map_err_st. by destruct (m s) as [[a|e|] s'].
Qed.
(** A fact about the initial state is kept in view. *)
Lemma triple_pre {E A} (P : S → Prop) (m : stm S E A) Q R :
  (∀ s, P s → triple (λ s', s' = s) m Q R) → triple P m Q R.
Proof. intros Hm s Hs. by apply (Hm s Hs). Qed.
End triple.

(** ** Machine integers

    A Rust [u8] ... [u64] is a [Z] in the range of its width; [usize] is 64
    bits wide (the agent is built for Windows on x86-64). *)

Definition uint (w z : Z) : Prop := 0 ≤ z < 2 ^ w.
Abbreviation u8 := (uint 8).
Abbreviation u16 := (uint 16).
Abbreviation u32 := (uint 32).
Abbreviation u64 := (uint 64).

#[global] Instance uint_dec w z : Decision (uint w z).
Proof. unfold uint. apply _. Defined.

Definition max_of (w : Z) : Z := 2 ^ w - 1.

(** [uN::checked_add]. *)
Definition checked_add (w a b : Z) : option Z :=
  if a + b <=? max_of w then Some (a + b) else None.

(** [uN::saturating_add]. *)
Definition saturating_add (w a b : Z) : Z := Z.min (a + b) (max_of w).

(** [uN::try_from]. *)
Definition try_from (w z : Z) : option Z :=
  if (0 <=? z) && (z <=? max_of w) then Some z else None.

Lemma checked_add_Some w a b c :
  checked_add w a b = Some c ↔ c = a + b ∧ a + b < 2 ^ w.
Proof.
  unfold checked_add, max_of. destruct (Z.leb_spec (a + b) (2 ^ w - 1)); naive_solver lia.
Qed.

Lemma try_from_Some w z c : try_from w z = Some c ↔ c = z ∧ uint w z.
Proof.
  unfold try_from, max_of, uint.
  destruct (Z.leb_spec 0 z), (Z.leb_spec z (2 ^ w - 1)); simpl; naive_solver lia.
Qed.

Lemma try_from_uint w z : uint w z → try_from w z = Some z.
Proof. intros. by apply try_from_Some. Qed.

Lemma uint_le w w' z : 0 ≤ w → w ≤ w' → uint w z → uint w' z.
Proof.
  unfold uint. intros ??[??]. split; [done|].
  pose proof (Z.pow_le_mono_r 2 w w'). lia.
Qed.

(** [simp_guards] turns the boolean guards and the checked conversions of the
    context into propositions. *)
Ltac simp_guards :=
  repeat match goal with
  | u : unit |- _ => destruct u
  | H : (_ || _)%bool = false |- _ => apply orb_false_iff in H as [? ?]
  | H : (_ && _)%bool = true |- _ => apply andb_true_iff in H as [? ?]
  | H : negb _ = false |- _ => apply negb_false_iff in H
  | H : negb _ = true |- _ => apply negb_true_iff in H
  | H : bool_decide _ = false |- _ => apply bool_decide_eq_false in H
  | H : bool_decide _ = true |- _ => apply bool_decide_eq_true in H
  | H : ¬ _ ≠ _ |- _ => apply dec_stable in H
  | H : (_ >? _) = false |- _ => rewrite Z.gtb_ltb in H; apply Z.ltb_ge in H
  | H : (_ >? _) = true |- _ => rewrite Z.gtb_ltb in H; apply Z.ltb_lt in H
  | H : (_ <? _) = false |- _ => apply Z.ltb_ge in H
  | H : (_ <? _) = true |- _ => apply Z.ltb_lt in H
  | H : (_ <=? _) = false |- _ => apply Z.leb_gt in H
  | H : (_ <=? _) = true |- _ => apply Z.leb_le in H
  | H : (_ =? _) = false |- _ => apply Z.eqb_neq in H
  | H : (_ =? _) = true |- _ => apply Z.eqb_eq in H
  | H : (_ =? _)%nat = true |- _ => apply Nat.eqb_eq in H
  | H : try_from _ _ = Some _ |- _ => apply try_from_Some in H as [? ?]
  | H : checked_add _ _ _ = Some _ |- _ => apply checked_add_Some in H as [? ?]
  end.

Lemma fail_if_small {E} n m (e : E) : n ≤ m → fail_if (n >? m) e = Ok tt.
Proof. intros. apply fail_if_Ok. rewrite Z.gtb_ltb. by apply Z.ltb_ge. Qed.

(** ** Byte strings *)

#[global] Instance byte_eq_decision : EqDecision byte := byte_eq_dec.
#[global] Instance byte_countable : Countable byte.
Proof. apply (inj_countable Byte.to_N Byte.of_N). apply Byte.of_to_N. Defined.

Abbreviation bytes := (list byte).

(** [slice::len] as a machine integer. *)
Definition len {A} (l : list A) : Z := Z.of_nat (length l).

Lemma len_nil {A} : len (A:=A) [] = 0.
Proof. done. Qed.
Lemma len_cons {A} (x : A) l : len (x :: l) = 1 + len l.
Proof. unfold len. simpl. lia. Qed.
Lemma len_app {A} (k l : list A) : len (k ++ l) = len k + len l.
Proof. unfold len. rewrite length_app. lia. Qed.
Lemma len_nonneg {A} (l : list A) : 0 ≤ len l.
Proof. unfold len. lia. Qed.
Lemma to_nat_len {A} (l : list A) : Z.to_nat (len l) = length l.
Proof. unfold len. lia. Qed.
Lemma len_length {A} (l : list A) n : length l = n → len l = Z.of_nat n.
Proof. unfold len. lia. Qed.

(** [value.is_empty()]. *)
Definition is_empty {A} (l : list A) : bool := match l with [] => true | _ => false end.

Lemma is_empty_false {A} (l : list A) : is_empty l = false ↔ l ≠ [].
Proof. by destruct l. Qed.

(** The array [[0; n]]. *)
Definition zeros (n : nat) : bytes := replicate n x00.

(** [value.iter().all(|byte| *byte == 0)]. *)
Definition all_zero (l : bytes) : bool := forallb (λ b, bool_decide (b = x00)) l.

Lemma all_zero_zeros l n : length l = n → all_zero l = bool_decide (l = zeros n).
Proof.
  intros <-. unfold all_zero, zeros. induction l as [|b l IH]; [done|].
  simpl. rewrite IH.
  destruct (decide (b = x00)), (decide (l = replicate (length l) x00));
    rewrite ?bool_decide_true, ?bool_decide_false by congruence; simpl;
    rewrite ?bool_decide_true, ?bool_decide_false by congruence; done.
Qed.

(** [guard_step] reduces the goal that a guard does not hold. *)
Ltac guard_step :=
  match goal with
  | |- (_ || _)%bool = false => apply orb_false_iff; split
  | |- (_ && _)%bool = false => apply andb_false_iff
  | |- negb _ = false => apply negb_false_iff
  | |- bool_decide _ = false => apply bool_decide_eq_false
  | |- (_ =? _) = false => apply Z.eqb_neq
  | |- (_ >? _) = false => rewrite Z.gtb_ltb; apply Z.ltb_ge
  | |- is_empty _ = false => apply is_empty_false
  end.

Definition Z_of_byte (b : byte) : Z := Z.of_N (Byte.to_N b).
Definition byte_of_Z (z : Z) : byte := default x00 (Byte.of_N (Z.to_N (z mod 256))).

Lemma Z_of_byte_u8 b : u8 (Z_of_byte b).
Proof. unfold uint, Z_of_byte. pose proof (Byte.to_N_bounded b). lia. Qed.

Lemma Z_of_byte_of_Z z : Z_of_byte (byte_of_Z z) = z mod 256.
Proof.
  unfold Z_of_byte, byte_of_Z. pose proof (Z.mod_pos_bound z 256 eq_refl).
  destruct (Byte.of_N (Z.to_N (z mod 256))) as [b|] eqn:Hb; simpl.
  - apply Byte.to_of_N in Hb. rewrite Hb. lia.
  - apply Byte.of_N_None_iff in Hb. lia.
Qed.

Lemma byte_of_Z_of_byte b : byte_of_Z (Z_of_byte b) = b.
Proof.
  unfold byte_of_Z. rewrite Z.mod_small by (pose proof (Z_of_byte_u8 b); unfold uint in *; lia).
  unfold Z_of_byte. by rewrite N2Z.id, Byte.of_to_N.
Qed.

#[global] Instance Z_of_byte_inj : Inj (=) (=) Z_of_byte.
Proof. intros a b H. by rewrite <-(byte_of_Z_of_byte a), H, byte_of_Z_of_byte. Qed.

(** [uN::to_be_bytes] on [n] bytes and [uN::from_be_bytes]. *)
Fixpoint to_be_bytes (n : nat) (z : Z) : bytes :=
  match n with
  | O => []
  | S m => byte_of_Z (z / 256 ^ Z.of_nat m) :: to_be_bytes m z
  end.

Fixpoint be_acc (acc : Z) (l : bytes) : Z :=
  match l with
  | [] => acc
  | b :: l => be_acc (acc * 256 + Z_of_byte b) l
  end.
Definition from_be_bytes (l : bytes) : Z := be_acc 0 l.

Lemma length_to_be_bytes n z : length (to_be_bytes n z) = n.
Proof. induction n; simpl; congruence. Qed.

Lemma be_acc_split acc l : be_acc acc l = acc * 256 ^ len l + be_acc 0 l.
Proof.
  revert acc. induction l as [|b l IH]; intros acc; simpl.
  - rewrite len_nil. lia.
  - pose proof (len_nonneg l). rewrite (IH (acc * 256 + _)), (IH (0 * 256 + _)) at 1.
    rewrite len_cons, Z.pow_add_r by lia. lia.
Qed.

Lemma from_be_bytes_cons b l : from_be_bytes (b :: l) = Z_of_byte b * 256 ^ len l + from_be_bytes l.
Proof. unfold from_be_bytes. simpl. by rewrite be_acc_split. Qed.

Lemma from_be_bytes_range l : 0 ≤ from_be_bytes l < 256 ^ len l.
Proof.
  induction l as [|b l IH]; [done|].
  rewrite from_be_bytes_cons, len_cons, Z.pow_add_r by (pose proof (len_nonneg l); lia).
  pose proof (Z_of_byte_u8 b). unfold uint in *. nia.
Qed.

Lemma from_to_be_bytes_mod n z : from_be_bytes (to_be_bytes n z) = z mod 256 ^ Z.of_nat n.
Proof.
  induction n as [|n IH]; [by rewrite Z.mod_1_r|].
  simpl to_be_bytes. rewrite from_be_bytes_cons, Z_of_byte_of_Z, IH.
  rewrite (len_length _ _ (length_to_be_bytes n z)), Nat2Z.inj_succ, Z.pow_succ_r by lia.
  rewrite (Z.mul_comm 256), Z.rem_mul_r by lia. lia.
Qed.

Lemma from_to_be_bytes n z : 0 ≤ z < 256 ^ Z.of_nat n → from_be_bytes (to_be_bytes n z) = z.
Proof. intros. rewrite from_to_be_bytes_mod. by apply Z.mod_small. Qed.

Lemma to_be_bytes_high m n c z :
  (m ≤ n)%nat → to_be_bytes m (c * 256 ^ Z.of_nat n + z) = to_be_bytes m z.
Proof.
  induction m as [|m IH]; intros Hm; [done|]. simpl. rewrite IH by lia. f_equal.
  unfold byte_of_Z.
  replace (Z.of_nat n) with (Z.of_nat m + (1 + (Z.of_nat n - Z.of_nat m - 1))) by lia.
  rewrite !Z.pow_add_r by lia.
  replace (c * _ + z) with (c * 256 ^ (Z.of_nat n - Z.of_nat m - 1) * 256 * 256 ^ Z.of_nat m + z) by lia.
  rewrite Z.div_add_l by lia. do 3 f_equal. rewrite Z.add_comm. by rewrite Z.mod_add by lia.
Qed.

Lemma to_from_be_bytes l : to_be_bytes (length l) (from_be_bytes l) = l.
Proof.
  induction l as [|b l IH]; [done|].
  pose proof (from_be_bytes_range l). rewrite from_be_bytes_cons. unfold len in *. simpl. f_equal.
  - rewrite Z.div_add_l, Z.div_small, Z.add_0_r by lia. apply byte_of_Z_of_byte.
  - by rewrite to_be_bytes_high.
Qed.

Lemma to_from_be_bytes' n l : length l = n → to_be_bytes n (from_be_bytes l) = l.
Proof. intros <-. apply to_from_be_bytes. Qed.

Lemma from_be_bytes_inj k l : length k = length l → from_be_bytes k = from_be_bytes l → k = l.
Proof. intros Hlen Heq. rewrite <-(to_from_be_bytes k), Heq, Hlen. apply to_from_be_bytes. Qed.

Arguments to_be_bytes : simpl never.
Arguments from_be_bytes : simpl never.
