(* ===== verification/RustStd.v ===== *)
(** * The standard-library routines the crates rely on

    UTF-8 validation and [char::is_control], lexicographic comparison of byte
    arrays, [slice::windows(2).any(..)] and [slice::binary_search].  The last
    one is the bisection of the Rust standard library, proved to decide
    membership on strictly increasing slices, which is how every call site
    uses it. *)

From Stdlib Require Strings.String.
Export String.StringSyntax.
From S2P Require Import Prelude.

(** ** UTF-8 ([core::str::from_utf8], Unicode table 3-7) *)

Definition utf8_cont (c : Z) : bool := (0x80 <=? c) && (c <=? 0xBF).

(** The second byte of a three-byte sequence excludes overlong forms and
    surrogates. *)
Definition utf8_second3 (c0 c1 : Z) : bool :=
  if c0 =? 0xE0 then (0xA0 <=? c1) && (c1 <=? 0xBF)
  else if c0 =? 0xED then (0x80 <=? c1) && (c1 <=? 0x9F)
  else utf8_cont c1.

(** The second byte of a four-byte sequence excludes overlong forms and
    scalars above U+10FFFF. *)
Definition utf8_second4 (c0 c1 : Z) : bool :=
  if c0 =? 0xF0 then (0x90 <=? c1) && (c1 <=? 0xBF)
  else if c0 =? 0xF4 then (0x80 <=? c1) && (c1 <=? 0x8F)
  else utf8_cont c1.

(** [utf8_chars l] is the scalar values of [l], when [l] is valid UTF-8. *)
Fixpoint utf8_chars (l : bytes) : option (list Z) :=
  match l with
  | [] => Some []
  | b0 :: l1 =>
      let c0 := Z_of_byte b0 in
      if c0 <? 0x80 then cons c0 <$> utf8_chars l1
      else
        match l1 with
        | [] => None
        | b1 :: l2 =>
            let c1 := Z_of_byte b1 in
            if (0xC2 <=? c0) && (c0 <=? 0xDF) then
              if utf8_cont c1
              then cons ((c0 - 0xC0) * 64 + (c1 - 0x80)) <$> utf8_chars l2
              else None
            else
              match l2 with
              | [] => None
              | b2 :: l3 =>
                  let c2 := Z_of_byte b2 in
                  if (0xE0 <=? c0) && (c0 <=? 0xEF) then
                    if utf8_second3 c0 c1 && utf8_cont c2
                    then cons ((c0 - 0xE0) * 4096 + (c1 - 0x80) * 64 + (c2 - 0x80))
                           <$> utf8_chars l3
                    else None
                  else
                    match l3 with
                    | [] => None
                    | b3 :: l4 =>
                        let c3 := Z_of_byte b3 in
                        if (0xF0 <=? c0) && (c0 <=? 0xF4)
                           && utf8_second4 c0 c1 && utf8_cont c2 && utf8_cont c3
                        then cons ((c0 - 0xF0) * 262144 + (c1 - 0x80) * 4096
                                   + (c2 - 0x80) * 64 + (c3 - 0x80)) <$> utf8_chars l4
                        else None
                    end
              end
        end
  end.

(** A Rust [str]: bytes that are valid UTF-8. *)
Definition utf8_valid (l : bytes) : bool :=
  match utf8_chars l with Some _ => true | None => false end.
Definition text (l : bytes) : Prop := utf8_valid l = true.

#[global] Instance text_dec l : Decision (text l).
Proof. unfold text. apply _. Defined.

(** [char::is_control]: general category Cc. *)
Definition is_control (c : Z) : bool := (c <=? 0x1F) || ((0x7F <=? c) && (c <=? 0x9F)).

(** [value.chars().any(char::is_control)]. *)
Definition has_control (l : bytes) : bool :=
  match utf8_chars l with Some cs => existsb is_control cs | None => false end.

(** A string literal as its bytes. *)
Definition str (s : String.string) : bytes := String.list_byte_of_string s.
Arguments str s%_string_scope.

Lemma text_nil : text [].
Proof. done. Qed.

(** ** Lexicographic order on byte arrays ([Ord for [u8]], [Ord for str]) *)

Fixpoint bytes_cmp (k l : bytes) : comparison :=
  match k, l with
  | [], [] => Eq
  | [], _ :: _ => Lt
  | _ :: _, [] => Gt
  | a :: k, b :: l =>
      match Z_of_byte a ?= Z_of_byte b with
      | Eq => bytes_cmp k l
      | c => c
      end
  end.

Definition bytes_lt (k l : bytes) : Prop := bytes_cmp k l = Lt.
(** [a >= b]. *)
Definition bytes_geb (k l : bytes) : bool :=
  match bytes_cmp k l with Lt => false | _ => true end.

Lemma bytes_cmp_eq k l : bytes_cmp k l = Eq ↔ k = l.
Proof.
  revert l. induction k as [|a k IH]; intros [|b l]; simpl; try naive_solver.
  destruct (Z.compare_spec (Z_of_byte a) (Z_of_byte b)) as [Hab|Hab|Hab].
  - apply (inj Z_of_byte) in Hab as ->. rewrite IH. naive_solver.
  - split; [done|]. intros [= -> _]. lia.
  - split; [done|]. intros [= -> _]. lia.
Qed.

Lemma bytes_geb_false k l : bytes_geb k l = false ↔ bytes_lt k l.
Proof. unfold bytes_geb, bytes_lt. destruct (bytes_cmp k l); naive_solver. Qed.

Lemma bytes_cmp_antisym k l : bytes_cmp k l = CompOpp (bytes_cmp l k).
Proof.
  revert l. induction k as [|a k IH]; intros [|b l]; simpl; try done.
  rewrite (Z.compare_antisym (Z_of_byte b) (Z_of_byte a)).
  destruct (Z_of_byte b ?= Z_of_byte a); simpl; done.
Qed.

#[global] Instance bytes_lt_irrefl : Irreflexive bytes_lt.
Proof. intros k Hk. unfold bytes_lt in Hk. by rewrite (proj2 (bytes_cmp_eq k k) eq_refl) in Hk. Qed.

#[global] Instance bytes_lt_trans : Transitive bytes_lt.
Proof.
  unfold bytes_lt. intros x. induction x as [|a x IH]; intros [|b y] [|c z]; simpl; try done.
  destruct (Z.compare_spec (Z_of_byte a) (Z_of_byte b)) as [Hab|Hab|Hab]; intros H1 H2; try done.
  - rewrite Hab. destruct (Z_of_byte b ?= Z_of_byte c); naive_solver.
  - destruct (Z.compare_spec (Z_of_byte b) (Z_of_byte c)) as [Hbc|Hbc|Hbc]; try done;
      destruct (Z.compare_spec (Z_of_byte a) (Z_of_byte c)); try done; lia.
Qed.

(** ** [slice::windows(2).any(|pair| f(pair[0], pair[1]))] *)

Fixpoint adjacent_any {A} (f : A → A → bool) (l : list A) : bool :=
  match l with
  | a :: (b :: _) as l' => f a b || adjacent_any f l'
  | _ => false
  end.

Section adjacent.
Context {A : Type} (f : A → A → bool) (R : relation A).
Hypothesis f_spec : ∀ a b, f a b = false ↔ R a b.

Lemma adjacent_any_false l : adjacent_any f l = false ↔ Sorted R l.
Proof using f_spec.
  induction l as [|a [|b l] IH].
  - split; [constructor|done].
  - split; [|done]. intros _. repeat constructor.
  - simpl in *. rewrite orb_false_iff, f_spec, IH. split.
    + intros [??]. constructor; [done|by constructor].
    + intros [? ?%HdRel_inv]%Sorted_inv. done.
Qed.

Lemma adjacent_any_strongly l `{!Transitive R} :
  adjacent_any f l = false ↔ StronglySorted R l.
Proof using f_spec.
  rewrite adjacent_any_false. split; [by apply Sorted_StronglySorted|apply StronglySorted_Sorted].
Qed.
End adjacent.

(** Strictly increasing slices of unsigned integers. *)
Abbreviation increasing := (StronglySorted Z.lt).

Lemma adjacent_geb_false l : adjacent_any Z.geb l = false ↔ increasing l.
Proof.
  apply adjacent_any_strongly; [|apply _]. intros a b.
  destruct (Z.geb_spec a b); split; intros; lia || done.
Qed.

(** ** [slice::binary_search(..).is_ok()] *)

Fixpoint bisect (fuel : nat) (l : list Z) (x : Z) (base size : nat) : nat :=
  match fuel with
  | O => base
  | S fuel =>
      if (size <=? 1)%nat then base
      else
        let half := (size / 2)%nat in
        let mid := (base + half)%nat in
        bisect fuel l x (if x <? nth mid l 0 then base else mid) (size - half)
  end.

Definition binary_search (l : list Z) (x : Z) : bool :=
  match l with
  | [] => false
  | _ => nth (bisect (length l) l x 0 (length l)) l 0 =? x
  end.

Lemma half_bounds size : (1 < size)%nat → (0 < size / 2 < size)%nat.
Proof. split; [apply Nat.div_str_pos; lia|apply Nat.div_lt; lia]. Qed.

Lemma increasing_nth l i j :
  increasing l → (i < j < length l)%nat → nth i l 0 < nth j l 0.
Proof.
  intros Hs. revert i j. induction Hs as [|a l Hs IH Ha]; intros i j Hij; simpl in *; [lia|].
  destruct i as [|i], j as [|j]; try lia.
  - rewrite Forall_forall in Ha. apply Ha, list_elem_of_In, nth_In. lia.
  - apply IH. lia.
Qed.

Lemma bisect_spec l x fuel : ∀ base size i,
  increasing l → (size ≤ fuel)%nat → (1 ≤ size)%nat → (base + size ≤ length l)%nat →
  (base ≤ i < base + size)%nat → nth i l 0 = x → bisect fuel l x base size = i.
Proof.
  induction fuel as [|fuel IH]; intros base size i Hs Hf Hsz Hb Hi Hx; [lia|].
  cbn [bisect]. destruct (Nat.leb_spec size 1); [lia|].
  pose proof (half_bounds size ltac:(lia)).
  destruct (Z.ltb_spec x (nth (base + size / 2) l 0)) as [Hlt|Hge].
  - assert (¬ (base + size / 2 ≤ i)%nat).
    { intros Hc. destruct (decide (i = base + size / 2)%nat) as [->|]; [lia|].
      pose proof (increasing_nth l (base + size / 2) i Hs ltac:(lia)). lia. }
    pose proof (Nat.Div0.mul_div_le size 2). apply IH; solve [done|lia].
  - assert (base + size / 2 ≤ i)%nat.
    { destruct (decide (base + size / 2 ≤ i)%nat); [done|].
      pose proof (increasing_nth l i (base + size / 2) Hs ltac:(lia)). lia. }
    apply IH; solve [done|lia].
Qed.

Lemma binary_search_spec l x : increasing l → binary_search l x = true ↔ x ∈ l.
Proof.
  intros Hs. unfold binary_search. destruct l as [|a l0] eqn:Hl.
  { split; [done|]. by intros ?%not_elem_of_nil. }
  rewrite <-Hl in *. split.
  - intros Hx%Z.eqb_eq. rewrite <-Hx. apply list_elem_of_In, nth_In.
    assert (∀ fuel base size, (base + size ≤ length l)%nat → (1 ≤ size)%nat →
      (bisect fuel l x base size < length l)%nat) as Hbound.
    { induction fuel as [|fuel IH]; intros base size ??; cbn [bisect]; [lia|].
      destruct (Nat.leb_spec size 1); [lia|].
      pose proof (half_bounds size ltac:(lia)).
      destruct (_ <? _); apply IH; lia. }
    apply Hbound; rewrite ?Hl; simpl; lia.
  - intros (i & Hi & Hx)%list_elem_of_In%(In_nth _ _ 0).
    apply Z.eqb_eq. rewrite <-Hx at 2. f_equal.
    apply bisect_spec; try done; rewrite ?Hl; simpl; rewrite ?Hl in Hi; simpl in *; lia.
Qed.

(** ** [slice::sort_by_key] with a byte-array key *)

Section sort_by.
Context {A : Type} (key : A → bytes).

Definition key_le (a b : A) : Prop := bytes_cmp (key a) (key b) ≠ Gt.
#[global] Instance key_le_dec a b : Decision (key_le a b).
Proof. unfold key_le. apply _. Defined.
Definition sort_by (l : list A) : list A := merge_sort key_le l.

Definition key_lt (a b : A) : Prop := bytes_lt (key a) (key b).

Lemma key_lt_le a b : key_lt a b → key_le a b.
Proof. unfold key_lt, key_le, bytes_lt. by intros ->. Qed.

Lemma key_le_lt a b : key_le a b → key a ≠ key b → key_lt a b.
Proof.
  unfold key_lt, key_le, bytes_lt. intros Hle Hne. destruct (bytes_cmp _ _) eqn:Hc; try done.
  by apply bytes_cmp_eq in Hc.
Qed.

#[global] Instance key_lt_trans : Transitive key_lt.
Proof. intros a b c. unfold key_lt. apply transitivity. Qed.

#[global] Instance key_le_total : Total key_le.
Proof.
  intros a b. unfold key_le. rewrite (bytes_cmp_antisym (key b) (key a)).
  destruct (bytes_cmp (key a) (key b)); simpl; [left|left|right]; done.
Qed.
#[global] Instance key_le_trans : Transitive key_le.
Proof.
  intros a b c Hab Hbc. destruct (decide (key a = key b)) as [He|He].
  { unfold key_le in *. by rewrite He. }
  destruct (decide (key b = key c)) as [He'|He'].
  { unfold key_le in *. by rewrite <-He'. }
  apply key_lt_le. trans b; by apply key_le_lt.
Qed.

Lemma sort_by_perm l : sort_by l ≡ₚ l.
Proof. apply merge_sort_Permutation. Qed.

Lemma sorted_NoDup l : StronglySorted key_lt l → NoDup (key <$> l).
Proof.
  induction 1 as [|a l Hs IH Ha]; [constructor|]. constructor; [|done].
  intros (b & Hb & Hin)%list_elem_of_fmap. rewrite Forall_forall in Ha.
  specialize (Ha b Hin). unfold key_lt in Ha. rewrite Hb in Ha. by apply (irreflexivity bytes_lt) in Ha.
Qed.

Lemma sort_by_sorted l : NoDup (key <$> l) → StronglySorted key_lt (sort_by l).
Proof.
  intros Hnd. rewrite <-(sort_by_perm l) in Hnd.
  pose proof (StronglySorted_merge_sort key_le l) as Hs. fold (sort_by l) in Hs.
  induction Hs as [|a k Hs IH Ha]; [constructor|].
  cbn in Hnd. apply NoDup_cons in Hnd as [Hin Hnd]. constructor; [by apply IH|].
  rewrite Forall_forall in Ha |- *. intros b Hb. apply key_le_lt; [by apply Ha|].
  intros He. apply Hin. rewrite He. by apply list_elem_of_fmap_2.
Qed.

Lemma sorted_unique k l : StronglySorted key_lt k → StronglySorted key_lt l → k ≡ₚ l → k = l.
Proof.
  intros Hk. revert l. induction Hk as [|a k Hk IH Ha]; intros l Hl Hp.
  { by apply Permutation_nil_l in Hp. }
  destruct Hl as [|b l Hl Hb]; [by apply Permutation_nil_r in Hp|].
  rewrite Forall_forall in Ha, Hb.
  assert (a = b) as ->.
  { assert (a ∈ b :: l) as Hin by (rewrite <-Hp; by left).
    assert (b ∈ a :: k) as Hin' by (rewrite Hp; by left).
    apply elem_of_cons in Hin as [|Hin]; [done|]. apply elem_of_cons in Hin' as [|Hin']; [done|].
    pose proof (Ha _ Hin'). pose proof (Hb _ Hin). unfold key_lt in *.
    by destruct (irreflexivity bytes_lt (key a)); etrans. }
  f_equal. apply IH; [done|]. by apply Permutation_cons_inv in Hp.
Qed.

Lemma sort_by_eq k l : StronglySorted key_lt k → k ≡ₚ l → sort_by l = k.
Proof.
  intros Hs Hp. apply sorted_unique; [|done|by rewrite sort_by_perm].
  apply sort_by_sorted. rewrite <-Hp. by apply sorted_NoDup.
Qed.
Lemma sort_by_id l : StronglySorted key_lt l → sort_by l = l.
Proof. intros. by apply sort_by_eq. Qed.
End sort_by.

(** ** [iter_mut().find(..)] and an assignment to what it finds *)

Fixpoint replace_first {A} (f : A → bool) (x : A) (l : list A) : option (list A) :=
  match l with
  | [] => None
  | a :: l => if f a then Some (x :: l) else cons a <$> replace_first f x l
  end.

Lemma replace_first_Some {A} (f : A → bool) x l l' :
  replace_first f x l = Some l' ↔
    ∃ k a r, l = k ++ a :: r ∧ l' = k ++ x :: r ∧ f a = true ∧ Forall (λ b, f b = false) k.
Proof.
  revert l'. induction l as [|a l IH]; intros l'; simpl.
  { split; [done|]. by intros ([|??]&?&?&?&?). }
  destruct (f a) eqn:Hf.
  - split.
    + intros [= <-]. by exists [], a, l.
    + intros ([|b k]&a'&r&[= -> ->]&->&Ha&Hk); [done|]. apply Forall_cons in Hk as [Hk _]. congruence.
  - rewrite fmap_Some. setoid_rewrite IH. split.
    + intros (m&(k&b&r&->&->&Hb&Hk)&->). exists (a :: k), b, r. by rewrite Forall_cons.
    + intros ([|b k]&a'&r&[= -> ->]&->&Ha&Hk); [congruence|].
      apply Forall_cons in Hk as [_ Hk]. eexists. split; [by exists k, a', r|done].
Qed.
