(* ===== verification/Cbor.v ===== *)
(** * CBOR items: the interface to the [minicbor] crate and the bounded helpers

    [minicbor] is a third-party crate.  What the sources use of it is the
    class [Minicbor] of its encoder and decoder calls, and what they rely on is
    the class [MinicborLaws]: the encoder writes the preferred serialization
    of RFC 8949 and the decoder reads it back, with values of the Rust types.
    [rfc8949] is a concrete codec that satisfies the laws (it accepts
    non-preferred heads and indefinite arrays, as the crate does). *)

From S2P Require Import Prelude RustStd.

(** ** The head of a data item (RFC 8949, section 3, preferred serialization) *)

Definition cbor_head (major n : Z) : bytes :=
  if n <? 24 then [byte_of_Z (major * 32 + n)]
  else if n <? 256 then byte_of_Z (major * 32 + 24) :: to_be_bytes 1 n
  else if n <? 65536 then byte_of_Z (major * 32 + 25) :: to_be_bytes 2 n
  else if n <? 4294967296 then byte_of_Z (major * 32 + 26) :: to_be_bytes 4 n
  else byte_of_Z (major * 32 + 27) :: to_be_bytes 8 n.

(** The number of bytes of a head. *)
Definition head_len (n : Z) : Z :=
  if n <? 24 then 1 else if n <? 256 then 2 else if n <? 65536 then 3
  else if n <? 4294967296 then 5 else 9.

Lemma len_cbor_head m n : len (cbor_head m n) = head_len n.
Proof. unfold cbor_head, head_len, len. by repeat case_match. Qed.

Lemma head_len_bounds n : 1 ≤ head_len n ≤ 9.
Proof. unfold head_len. repeat case_match; lia. Qed.

(** ** The encoder and decoder calls of [minicbor]

    An encoder call is the sequence of [write_all] calls it makes on its
    writer; a decoder call maps the unread input to a value and the input left,
    or fails. *)

Class Minicbor := {
  mc_array : Z → list bytes;
  mc_u8 : Z → list bytes;
  mc_u16 : Z → list bytes;
  mc_u32 : Z → list bytes;
  mc_u64 : Z → list bytes;
  mc_bytes : bytes → list bytes;
  mc_str : bytes → list bytes;
  mc_null : list bytes;
  md_array : bytes → option (option Z * bytes);
  md_u8 : bytes → option (Z * bytes);
  md_u16 : bytes → option (Z * bytes);
  md_u32 : bytes → option (Z * bytes);
  md_u64 : bytes → option (Z * bytes);
  md_bytes : bytes → option (bytes * bytes);
  md_str : bytes → option (bytes * bytes);
  md_null : bytes → option bytes;
  (** [decoder.datatype()? == Type::Null] *)
  md_is_null : bytes → option bool;
}.

Class MinicborLaws `{Minicbor} : Prop := {
  enc_array n : u64 n → concat (mc_array n) = cbor_head 4 n;
  enc_u8 n : u8 n → concat (mc_u8 n) = cbor_head 0 n;
  enc_u16 n : u16 n → concat (mc_u16 n) = cbor_head 0 n;
  enc_u32 n : u32 n → concat (mc_u32 n) = cbor_head 0 n;
  enc_u64 n : u64 n → concat (mc_u64 n) = cbor_head 0 n;
  enc_bytes b : u64 (len b) → concat (mc_bytes b) = cbor_head 2 (len b) ++ b;
  enc_str s : u64 (len s) → text s → concat (mc_str s) = cbor_head 3 (len s) ++ s;
  enc_null : concat mc_null = [xf6];

  dec_array n r : u64 n → md_array (cbor_head 4 n ++ r) = Some (Some n, r);
  dec_u8 n r : u8 n → md_u8 (cbor_head 0 n ++ r) = Some (n, r);
  dec_u16 n r : u16 n → md_u16 (cbor_head 0 n ++ r) = Some (n, r);
  dec_u32 n r : u32 n → md_u32 (cbor_head 0 n ++ r) = Some (n, r);
  dec_u64 n r : u64 n → md_u64 (cbor_head 0 n ++ r) = Some (n, r);
  dec_bytes b r : u64 (len b) → md_bytes (cbor_head 2 (len b) ++ b ++ r) = Some (b, r);
  dec_str s r : u64 (len s) → text s → md_str (cbor_head 3 (len s) ++ s ++ r) = Some (s, r);
  dec_null r : md_null ([xf6] ++ r) = Some r;
  dec_is_null r : md_is_null ([xf6] ++ r) = Some true;
  dec_is_not_null n r : u64 n → md_is_null (cbor_head 2 n ++ r) = Some false;

  typ_array bs n r : md_array bs = Some (Some n, r) → u64 n;
  typ_u8 bs n r : md_u8 bs = Some (n, r) → u8 n;
  typ_u16 bs n r : md_u16 bs = Some (n, r) → u16 n;
  typ_u32 bs n r : md_u32 bs = Some (n, r) → u32 n;
  typ_u64 bs n r : md_u64 bs = Some (n, r) → u64 n;
  typ_str bs s r : md_str bs = Some (s, r) → text s;
}.

(** ** A concrete codec *)

Module Rfc8949.

(** A head, in preferred or longer form: the major type, the additional
    information, the argument, and the rest of the input. *)
Definition take_arg (n : nat) (rest : bytes) : option (Z * bytes) :=
  if (n <=? length rest)%nat then Some (from_be_bytes (take n rest), drop n rest) else None.

Definition read_head (bs : bytes) : option (Z * Z * bytes) :=
  match bs with
  | [] => None
  | b :: rest =>
      let major := Z_of_byte b / 32 in
      let info := Z_of_byte b mod 32 in
      let arg :=
        if info <? 24 then Some (info, rest)
        else if info =? 24 then take_arg 1 rest
        else if info =? 25 then take_arg 2 rest
        else if info =? 26 then take_arg 4 rest
        else if info =? 27 then take_arg 8 rest
        else None in
      '(n, rest) ← arg; Some (major, n, rest)
  end.

Definition read_uint (w : Z) (bs : bytes) : option (Z * bytes) :=
  '(major, n, rest) ← read_head bs;
  if (major =? 0) && bool_decide (uint w n) then Some (n, rest) else None.

Definition read_string (m : Z) (bs : bytes) : option (bytes * bytes) :=
  '(major, n, rest) ← read_head bs;
  if (major =? m) && (n <=? len rest)
  then Some (take (Z.to_nat n) rest, drop (Z.to_nat n) rest) else None.

#[export] Instance rfc8949 : Minicbor := {|
  mc_array n := [cbor_head 4 n];
  mc_u8 n := [cbor_head 0 n];
  mc_u16 n := [cbor_head 0 n];
  mc_u32 n := [cbor_head 0 n];
  mc_u64 n := [cbor_head 0 n];
  mc_bytes b := [cbor_head 2 (len b); b];
  mc_str s := [cbor_head 3 (len s); s];
  mc_null := [[xf6]];
  md_array bs :=
    if bool_decide (head bs = Some x9f) then Some (None, tail bs)
    else
      '(major, n, rest) ← read_head bs;
      if (major =? 4) && bool_decide (u64 n) then Some (Some n, rest) else None;
  md_u8 := read_uint 8;
  md_u16 := read_uint 16;
  md_u32 := read_uint 32;
  md_u64 := read_uint 64;
  md_bytes := read_string 2;
  md_str bs := '(s, rest) ← read_string 3 bs; if utf8_valid s then Some (s, rest) else None;
  md_null bs := if bool_decide (head bs = Some xf6) then Some (tail bs) else None;
  md_is_null bs := match bs with [] => None | b :: _ => Some (bool_decide (b = xf6)) end;
|}.

Lemma head_byte m i : 0 ≤ m < 8 → 0 ≤ i < 32 →
  Z_of_byte (byte_of_Z (m * 32 + i)) / 32 = m ∧ Z_of_byte (byte_of_Z (m * 32 + i)) mod 32 = i.
Proof.
  intros. rewrite Z_of_byte_of_Z, (Z.mod_small _ 256) by lia.
  rewrite Z.div_add_l, Z.div_small by lia. split; [lia|].
  rewrite Z.add_comm, Z.mod_add by lia. by apply Z.mod_small.
Qed.

Lemma take_arg_be k n r :
  0 ≤ n < 256 ^ Z.of_nat k → take_arg k (to_be_bytes k n ++ r) = Some (n, r).
Proof.
  intros. unfold take_arg.
  rewrite (proj2 (Nat.leb_le _ _)) by (rewrite length_app, length_to_be_bytes; lia).
  rewrite take_app_length', drop_app_length' by (by rewrite length_to_be_bytes).
  by rewrite from_to_be_bytes.
Qed.

Lemma read_head_small m n r :
  0 ≤ m < 8 → 0 ≤ n < 24 → read_head (byte_of_Z (m * 32 + n) :: r) = Some (m, n, r).
Proof.
  intros Hm Hn. unfold read_head. destruct (head_byte m n Hm) as [-> ->]; [lia|].
  by rewrite (proj2 (Z.ltb_lt n 24)) by lia.
Qed.

Lemma read_head_long m i k n r :
  0 ≤ m < 8 → (i, k) ∈ [(24, 1%nat); (25, 2%nat); (26, 4%nat); (27, 8%nat)] →
  0 ≤ n < 256 ^ Z.of_nat k →
  read_head (byte_of_Z (m * 32 + i) :: to_be_bytes k n ++ r) = Some (m, n, r).
Proof.
  intros Hm Hi Hn. pose proof (take_arg_be k n r Hn) as Harg.
  unfold read_head. destruct (head_byte m i Hm) as [-> ->]; [set_solver by lia|].
  set_unfold in Hi. destruct_or! Hi; simplify_eq; cbn -[take_arg to_be_bytes]; by rewrite Harg.
Qed.

Lemma read_head_cbor_head m n r :
  0 ≤ m < 8 → u64 n → read_head (cbor_head m n ++ r) = Some (m, n, r).
Proof.
  intros Hm Hn. unfold uint in Hn. unfold cbor_head.
  destruct (Z.ltb_spec n 24); [by apply read_head_small; lia|].
  destruct (Z.ltb_spec n 256); [apply read_head_long; [done|set_solver|simpl; lia]|].
  destruct (Z.ltb_spec n 65536); [apply read_head_long; [done|set_solver|simpl; lia]|].
  destruct (Z.ltb_spec n 4294967296); apply read_head_long; (done || set_solver || simpl; lia).
Qed.

Lemma read_uint_head w n r :
  w ≤ 64 → 0 ≤ w → uint w n → read_uint w (cbor_head 0 n ++ r) = Some (n, r).
Proof.
  intros ?? Hn. unfold read_uint.
  rewrite read_head_cbor_head by (lia || by eapply uint_le).
  simpl. by rewrite bool_decide_true.
Qed.

Lemma read_uint_typ w bs n r : read_uint w bs = Some (n, r) → uint w n.
Proof.
  unfold read_uint. intros (((m & n') & r') & _ & H)%bind_Some.
  case_match eqn:E; simplify_eq. by apply andb_true_iff in E as [_ ?%bool_decide_eq_true].
Qed.

Lemma read_string_head m b r :
  0 ≤ m < 8 → u64 (len b) → read_string m (cbor_head m (len b) ++ b ++ r) = Some (b, r).
Proof.
  intros ? Hb. unfold read_string. rewrite read_head_cbor_head by done. simpl.
  rewrite Z.eqb_refl, (proj2 (Z.leb_le _ _)) by (rewrite len_app; pose proof (len_nonneg r); lia).
  unfold len. simpl. by rewrite Nat2Z.id, take_app_length, drop_app_length.
Qed.

Lemma cbor_head_first m n r b :
  0 ≤ m < 8 → u64 n → head (cbor_head m n ++ r) = Some b → Z_of_byte b < m * 32 + 28.
Proof.
  intros Hm Hn. unfold uint in Hn.
  assert (∀ i, 0 ≤ i < 28 → Z_of_byte (byte_of_Z (m * 32 + i)) < m * 32 + 28).
  { intros i Hi. rewrite Z_of_byte_of_Z, Z.mod_small by lia. lia. }
  unfold cbor_head. destruct (Z.ltb_spec n 24); [intros [= <-]; auto with lia|].
  repeat case_match; intros [= <-]; auto with lia.
Qed.

Lemma cbor_head_not_first m n r b :
  0 ≤ m < 8 → u64 n → m * 32 + 28 ≤ Z_of_byte b → head (cbor_head m n ++ r) ≠ Some b.
Proof. intros ??? Hc%cbor_head_first; [lia|done|done]. Qed.

#[export] Instance rfc8949_laws : MinicborLaws.
Proof.
  split; intros; cbn [mc_array mc_u8 mc_u16 mc_u32 mc_u64 mc_bytes mc_str mc_null
    md_array md_u8 md_u16 md_u32 md_u64 md_bytes md_str md_null md_is_null rfc8949] in *;
    simpl concat; rewrite ?app_nil_r; eauto using read_uint_typ;
    try (by apply read_uint_head; (done || lia)); try (by apply read_string_head).
  - rewrite bool_decide_false by (by apply cbor_head_not_first).
    rewrite read_head_cbor_head by done. simpl. by rewrite bool_decide_true.
  - rewrite read_string_head by done. simpl. unfold text in *. by case_match.
  - pose proof (cbor_head_not_first 2 n r xf6 ltac:(lia) ltac:(done) ltac:(done)) as Hf.
    destruct (cbor_head 2 n ++ r) as [|b l] eqn:E.
    + apply (f_equal len) in E. rewrite len_app, len_cbor_head in E.
      pose proof (head_len_bounds n). pose proof (len_nonneg r). change (len (A:=byte) []) with 0 in E. lia.
    + by rewrite bool_decide_false by (intros ->; done).
  - case_bool_decide; simplify_eq. apply bind_Some in H as (((m & n') & r') & _ & H).
    case_match eqn:E; simplify_eq. by apply andb_true_iff in E as [_ ?%bool_decide_eq_true].
  - apply bind_Some in H as ((s' & r') & _ & H). unfold text. by case_match; simplify_eq.
Qed.
End Rfc8949.
