(* ===== verification/Wire.v ===== *)
(** * Writers, decoding functions and the bounded CBOR helpers

    The writers ([Write] for [Vec<u8>] and for [SecretWriter]), the state and
    error monad of the functions that take [&mut Decoder], and the helpers of
    [crates/agent-protocol/src/cbor.rs], which the two files of
    [crates/vault-format] repeat with another error type: the helpers are
    generic in the error type, through [WireError].

    [parses], [yields] and [panic_free] are the three judgements the message
    files use: what a decoder reads back, what it can return, and that it does
    not panic.  The databases [parse] and [yield] close them for the helpers. *)

From S2P Require Import Prelude RustStd Cbor.

(** ** Writers ([minicbor::encode::Write]) *)

(** One [write_all] call: the writer afterwards, or the writer's error. *)
Class Write (W Err : Type) := write_all : W → bytes → W + Err.

(** The [write_all] calls of an encoder, in order. *)
Fixpoint write_chunks {W Err} `{Write W Err} (w : W) (chunks : list bytes) : W + Err :=
  match chunks with
  | [] => inl w
  | c :: chunks =>
      match write_all w c with
      | inl w => write_chunks w chunks
      | inr e => inr e
      end
  end.

(** [Vec<u8>]: the error type is [Infallible]. *)
#[export] Instance vec_write : Write bytes Empty_set := λ w c, inl (w ++ c).

(** [Encoder::new(Vec::new())], the calls, [into_writer()]. *)
Definition vec_encode (chunks : list bytes) : bytes :=
  match write_chunks (W:=bytes) [] chunks with
  | inl w => w
  | inr e => match e : Empty_set with end
  end.

(** The zeroizing buffer that never reallocates. [sw_capacity] is the capacity
    requested at allocation, the least one [Vec::with_capacity] may give. *)
Record SecretWriter := { sw_bytes : bytes; sw_capacity : Z }.

Definition with_capacity (capacity : Z) : SecretWriter :=
  {| sw_bytes := []; sw_capacity := capacity |}.

Inductive SecretWriterOverflow := secret_writer_overflow.

Definition secret_write_all (w : SecretWriter) (c : bytes) : SecretWriter + SecretWriterOverflow :=
  match checked_add 64 (len (sw_bytes w)) (len c) with
  | None => inr secret_writer_overflow
  | Some required =>
      if required >? sw_capacity w then inr secret_writer_overflow
      else inl {| sw_bytes := sw_bytes w ++ c; sw_capacity := sw_capacity w |}
  end.

#[export] Instance secret_write : Write SecretWriter SecretWriterOverflow := secret_write_all.

(** [Encoder::new(SecretWriter::with_capacity(capacity))], the calls, each with
    [expect], then [into_writer().into_bytes()]: an overflow is a panic. *)
Definition secret_encode {E} (capacity : Z) (chunks : list bytes) : result E bytes :=
  match write_chunks (with_capacity capacity) chunks with
  | inl w => Ok (sw_bytes w)
  | inr _ => Panic
  end.

(** Encoder calls with [expect] on a writer that is already in use. *)
Definition secret_put {E} (w : SecretWriter) (chunks : list bytes) : result E SecretWriter :=
  match write_chunks w chunks with
  | inl w => Ok w
  | inr _ => Panic
  end.

Lemma write_chunks_vec w chunks :
  write_chunks (W:=bytes) (Err:=Empty_set) w chunks = inl (w ++ concat chunks).
Proof.
  revert w. induction chunks as [|c cs IH]; intros w; simpl; [by rewrite app_nil_r|].
  by rewrite IH, app_assoc.
Qed.

Lemma vec_encode_concat chunks : vec_encode chunks = concat chunks.
Proof. unfold vec_encode. by rewrite write_chunks_vec. Qed.

Lemma write_chunks_secret w chunks :
  sw_capacity w ≤ max_of 64 → len (sw_bytes w) ≤ sw_capacity w →
  write_chunks w chunks =
    if len (sw_bytes w) + len (concat chunks) >? sw_capacity w then inr secret_writer_overflow
    else inl {| sw_bytes := sw_bytes w ++ concat chunks; sw_capacity := sw_capacity w |}.
Proof.
  revert w. induction chunks as [|c cs IH]; intros w Hcap Hlen; simpl.
  { rewrite len_nil, app_nil_r, Z.add_0_r. destruct (Z.gtb_spec (len (sw_bytes w)) (sw_capacity w)); [lia|].
    by destruct w. }
  rewrite len_app. pose proof (len_nonneg (concat cs)).
  unfold write_all, secret_write, secret_write_all, checked_add.
  destruct (Z.leb_spec (len (sw_bytes w) + len c) (max_of 64)).
  - destruct (Z.gtb_spec (len (sw_bytes w) + len c) (sw_capacity w)) as [|Hc].
    + destruct (Z.gtb_spec (len (sw_bytes w) + (len c + len (concat cs))) (sw_capacity w)); [done|lia].
    + rewrite IH by (simpl; rewrite ?len_app; lia). simpl.
      by rewrite len_app, <-Z.add_assoc, app_assoc.
  - destruct (Z.gtb_spec (len (sw_bytes w) + (len c + len (concat cs))) (sw_capacity w)); [done|lia].
Qed.

(** The buffer accepts exactly the encodings that fit its capacity. *)
Lemma secret_encode_spec {E} capacity chunks :
  0 ≤ capacity ≤ max_of 64 →
  secret_encode (E:=E) capacity chunks =
    if len (concat chunks) >? capacity then Panic else Ok (concat chunks).
Proof.
  intros ?. unfold secret_encode. rewrite write_chunks_secret by (simpl; rewrite ?len_nil; lia).
  simpl. rewrite len_nil, Z.add_0_l. by destruct (_ >? _).
Qed.

Lemma secret_encode_fits {E} capacity chunks :
  0 ≤ capacity ≤ max_of 64 → len (concat chunks) ≤ capacity →
  secret_encode (E:=E) capacity chunks = Ok (concat chunks).
Proof.
  intros. rewrite secret_encode_spec by done.
  by destruct (Z.gtb_spec (len (concat chunks)) capacity); [lia|].
Qed.

Lemma secret_put_fits {E} w chunks :
  sw_capacity w ≤ max_of 64 → len (sw_bytes w) + len (concat chunks) ≤ sw_capacity w →
  secret_put (E:=E) w chunks =
    Ok {| sw_bytes := sw_bytes w ++ concat chunks; sw_capacity := sw_capacity w |}.
Proof.
  intros. unfold secret_put. pose proof (len_nonneg (concat chunks)).
  rewrite write_chunks_secret by lia. by destruct (Z.gtb_spec (len (sw_bytes w) + len (concat chunks)) (sw_capacity w)); [lia|].
Qed.

(** ** Decoding functions

    A function that takes [&mut Decoder] maps the unread input to its result
    and the input left. *)

Definition dec (E A : Type) : Type := bytes → result E (A * bytes).

#[export] Instance dec_bind {E} : MBind (dec E) := λ A B f d bs,
  match d bs with
  | Ok (a, r) => f a r
  | Err e => Err e
  | Panic => Panic
  end.
#[export] Instance dec_ret {E} : MRet (dec E) := λ A a bs, Ok (a, bs).

(** A computation that does not touch the decoder. *)
Definition lift {E A} (r : result E A) : dec E A := λ bs,
  match r with Ok a => Ok (a, bs) | Err e => Err e | Panic => Panic end.

(** [for _ in 0..n { items.push(d(decoder)?) }] *)
Fixpoint decode_times {E A} (n : nat) (d : dec E A) : dec E (list A) :=
  match n with
  | O => mret []
  | S n => a ← d; l ← decode_times n d; mret (a :: l)
  end.

(** [parses d bs a]: the decoder [d] reads exactly [bs], whatever follows, and
    returns [a]. *)
Definition parses {E A} (d : dec E A) (bs : bytes) (a : A) : Prop :=
  ∀ rest, d (bs ++ rest) = Ok (a, rest).

(** [yields d P]: every value [d] returns satisfies [P]. *)
Definition yields {E A} (d : dec E A) (P : A → Prop) : Prop :=
  ∀ bs a rest, d bs = Ok (a, rest) → P a.

(** [panic_free d]: [d] does not panic. *)
Definition panic_free {E A} (d : dec E A) : Prop := ∀ bs, d bs ≠ Panic.

Section dec_facts.
Context {E : Type}.

Lemma parses_ret {A} (a : A) : parses (E:=E) (mret a) [] a.
Proof. by intros rest. Qed.

Lemma parses_bind {A B} (d : dec E A) (f : A → dec E B) b1 b2 a b :
  parses d b1 a → parses (f a) b2 b → parses (d ≫= f) (b1 ++ b2) b.
Proof.
  intros H1 H2 rest. unfold mbind, dec_bind. by rewrite <-app_assoc, H1, H2.
Qed.

Lemma parses_bind_last {A B} (d : dec E A) (f : A → dec E B) b1 a b :
  parses d b1 a → parses (f a) [] b → parses (d ≫= f) b1 b.
Proof. intros. rewrite <-(app_nil_r b1). by eapply parses_bind. Qed.

Lemma parses_lift {A} (r : result E A) a : r = Ok a → parses (lift r) [] a.
Proof. by intros -> rest. Qed.

Lemma parses_lift_bind {A B} (r : result E A) (f : A → dec E B) bs a b :
  r = Ok a → parses (f a) bs b → parses (lift r ≫= f) bs b.
Proof. intros. change bs with ([] ++ bs). eapply parses_bind; [by apply parses_lift|done]. Qed.

Lemma parses_nil {A} (d : dec E A) bs a : parses d bs a → d bs = Ok (a, []).
Proof. intros H. rewrite <-(app_nil_r bs) at 1. apply H. Qed.

Lemma parses_times {A} (d : dec E A) (enc : A → bytes) l :
  (∀ a, a ∈ l → parses d (enc a) a) → parses (decode_times (length l) d) (concat (enc <$> l)) l.
Proof.
  induction l as [|a l IH]; intros Hd; simpl; [apply parses_ret|].
  eapply parses_bind; [by apply Hd; left|].
  eapply parses_bind_last; [apply IH; intros; apply Hd; by right|apply parses_ret].
Qed.

Lemma dec_bind_Ok {A B} (d : dec E A) (f : A → dec E B) bs b r :
  (d ≫= f) bs = Ok (b, r) ↔ ∃ a r', d bs = Ok (a, r') ∧ f a r' = Ok (b, r).
Proof.
  unfold mbind, dec_bind. destruct (d bs) as [[a r']| |]; naive_solver.
Qed.

Lemma yields_ret {A} (a : A) (P : A → Prop) : P a → yields (E:=E) (mret a) P.
Proof. by intros ? bs a' rest [= <- <-]. Qed.

Lemma yields_lift {A} (r : result E A) (P : A → Prop) :
  (∀ a, r = Ok a → P a) → yields (lift r) P.
Proof. intros HP bs a rest. unfold lift. destruct r; naive_solver. Qed.

Lemma yields_bind {A B} (d : dec E A) (f : A → dec E B) P Q :
  yields d P → (∀ a, P a → yields (f a) Q) → yields (d ≫= f) Q.
Proof. intros Hd Hf bs b r (a & r' & Ha & Hb)%dec_bind_Ok. eapply Hf; eauto. Qed.

Lemma yields_mono {A} (d : dec E A) (P Q : A → Prop) :
  (∀ a, P a → Q a) → yields d P → yields d Q.
Proof. intros HPQ Hd bs a r Ha. eauto. Qed.

Lemma yields_times {A} (d : dec E A) P n :
  yields d P → yields (decode_times n d) (λ l, length l = n ∧ Forall P l).
Proof.
  intros Hd. induction n as [|n IH]; simpl; [apply yields_ret; auto|].
  eapply yields_bind; [apply Hd|]. intros a Ha.
  eapply yields_bind; [apply IH|]. intros l [<- Hl]. apply yields_ret. auto.
Qed.

Lemma dec_bind_Panic {A B} (d : dec E A) (f : A → dec E B) bs :
  (d ≫= f) bs = Panic ↔ d bs = Panic ∨ ∃ a r, d bs = Ok (a, r) ∧ f a r = Panic.
Proof. unfold mbind, dec_bind. destruct (d bs) as [[a r]| |]; naive_solver. Qed.

Lemma panic_free_ret {A} (a : A) : panic_free (E:=E) (mret a).
Proof. by intros bs. Qed.

Lemma panic_free_lift {A} (r : result E A) : r ≠ Panic → panic_free (lift r).
Proof. intros ? bs. by destruct r. Qed.

Lemma panic_free_bind {A B} (d : dec E A) (f : A → dec E B) :
  panic_free d → (∀ a, panic_free (f a)) → panic_free (d ≫= f).
Proof. intros Hd Hf bs [?|(a & r & _ & ?)]%dec_bind_Panic; [by eapply Hd|by eapply Hf]. Qed.

Lemma panic_free_times {A} (d : dec E A) n : panic_free d → panic_free (decode_times n d).
Proof.
  intros Hd. induction n as [|n IH]; simpl; [apply panic_free_ret|].
  apply panic_free_bind; [done|]. intros a. apply panic_free_bind; [done|].
  intros l. apply panic_free_ret.
Qed.
End dec_facts.

(** ** The helpers of [cbor.rs] *)

(** The categories the helpers and the canonicity checks return. *)
Class WireError (E : Type) := { e_malformed : E; e_too_large : E; e_non_canonical : E }.

(** [if value.encode()?.as_slice() != bytes { return Err(NonCanonical) }] *)
Definition canonical {E} `{WireError E} (image bytes : bytes) : result E unit :=
  fail_if (bool_decide (image ≠ bytes)) e_non_canonical.

Section helpers.
Context `{Minicbor}.

Definition encode_array (length : Z) : list bytes := mc_array length.
Definition encode_u8 (value : Z) : list bytes := mc_u8 value.
Definition encode_u16 (value : Z) : list bytes := mc_u16 value.
Definition encode_u32 (value : Z) : list bytes := mc_u32 value.
Definition encode_u64 (value : Z) : list bytes := mc_u64 value.
Definition encode_bytes (value : bytes) : list bytes := mc_bytes value.
Definition encode_text (value : bytes) : list bytes := mc_str value.
Definition encode_null : list bytes := mc_null.

Context {E : Type} `{WireError E}.

(** A [minicbor] call with [map_err(|_| Malformed)?]. *)
Definition decode_item {A} (d : bytes → option (A * bytes)) : dec E A := λ bs,
  ok_or (d bs) e_malformed.

Definition expect_array (expected : Z) : dec E unit :=
  length ← decode_item md_array;
  length ← lift (ok_or length e_malformed);
  lift (fail_if (negb (length =? expected)) e_malformed).

Definition decode_array_length (maximum : Z) : dec E Z :=
  length ← decode_item md_array;
  length ← lift (ok_or length e_malformed);
  length ← lift (ok_or (try_from 64 length) e_too_large);
  lift (fail_if (length >? maximum) e_too_large);;
  mret length.

Definition decode_u8 : dec E Z := decode_item md_u8.
Definition decode_u16 : dec E Z := decode_item md_u16.
Definition decode_u32 : dec E Z := decode_item md_u32.
Definition decode_u64 : dec E Z := decode_item md_u64.

Definition decode_fixed_bytes (SIZE : nat) : dec E bytes :=
  value ← decode_item md_bytes;
  lift (fail_if (negb (length value =? SIZE)%nat) e_malformed);;
  mret value.

Definition decode_bounded_bytes (maximum : Z) : dec E bytes :=
  value ← decode_item md_bytes;
  lift (fail_if (len value >? maximum) e_too_large);;
  mret value.

Definition decode_bounded_text (maximum : Z) : dec E bytes :=
  value ← decode_item md_str;
  lift (fail_if (len value >? maximum) e_too_large);;
  mret value.

Definition decode_optional_fixed_bytes (SIZE : nat) : dec E (option bytes) := λ bs,
  match md_is_null bs with
  | None => Err e_malformed
  | Some true =>
      match md_null bs with
      | None => Err e_malformed
      | Some rest => Ok (None, rest)
      end
  | Some false => (value ← decode_fixed_bytes SIZE; mret (Some value)) bs
  end.

(** [decoder.position() != original.len()], with [decoder] its unread input. *)
Definition require_end (rest original : bytes) : result E unit :=
  fail_if (negb (len original - len rest =? len original)) e_malformed.
End helpers.

Create HintDb parse.
Create HintDb yield.

(** The limits of the sources unfold in arithmetic side conditions. *)
Create HintDb limits.
#[export] Hint Unfold max_of : limits.
Ltac solve_size := autounfold with limits in *; unfold uint, len in *; lia.

#[export] Hint Extern 1 (uint _ _) => first [assumption | solve_size] : parse.
#[export] Hint Extern 1 (_ ≤ _) => first [assumption | solve_size] : parse.
#[export] Hint Extern 1 (_ = _) => first [assumption | reflexivity | lia] : parse.
#[export] Hint Resolve to_nat_len : parse.
#[export] Hint Extern 1 (text _) => first [assumption | reflexivity] : parse.

(** The wire image of an encoder program. *)
Abbreviation wire e := (concat e) (only parsing).

Section helper_facts.
Context `{MinicborLaws} {E : Type} `{WireError E}.

Lemma decode_item_parses {A} (d : bytes → option (A * bytes)) bs a :
  (∀ rest, d (bs ++ rest) = Some (a, rest)) → parses (E:=E) (decode_item d) bs a.
Proof. intros Hd rest. unfold decode_item. by rewrite Hd. Qed.

Lemma parses_expect_array n : u64 n → parses (E:=E) (expect_array n) (wire (encode_array n)) tt.
Proof.
  intros Hn rest. unfold encode_array, expect_array, decode_item, mbind, dec_bind.
  rewrite enc_array, dec_array by done. simpl. by rewrite Z.eqb_refl.
Qed.

Lemma parses_decode_array_length n m :
  u64 n → n ≤ m → parses (E:=E) (decode_array_length m) (wire (encode_array n)) n.
Proof.
  intros Hn Hm rest. unfold encode_array, decode_array_length, decode_item, mbind, dec_bind.
  rewrite enc_array, dec_array by done. simpl. rewrite try_from_uint by done. simpl.
  by destruct (Z.gtb_spec n m); [lia|].
Qed.

Lemma parses_decode_u8 n : u8 n → parses (E:=E) decode_u8 (wire (encode_u8 n)) n.
Proof. intros. apply decode_item_parses. intros. unfold encode_u8. by rewrite enc_u8, dec_u8. Qed.
Lemma parses_decode_u16 n : u16 n → parses (E:=E) decode_u16 (wire (encode_u16 n)) n.
Proof. intros. apply decode_item_parses. intros. unfold encode_u16. by rewrite enc_u16, dec_u16. Qed.
Lemma parses_decode_u32 n : u32 n → parses (E:=E) decode_u32 (wire (encode_u32 n)) n.
Proof. intros. apply decode_item_parses. intros. unfold encode_u32. by rewrite enc_u32, dec_u32. Qed.
Lemma parses_decode_u64 n : u64 n → parses (E:=E) decode_u64 (wire (encode_u64 n)) n.
Proof. intros. apply decode_item_parses. intros. unfold encode_u64. by rewrite enc_u64, dec_u64. Qed.

Lemma md_bytes_wire b : u64 (len b) → ∀ rest, md_bytes (wire (encode_bytes b) ++ rest) = Some (b, rest).
Proof. intros. unfold encode_bytes. by rewrite enc_bytes, <-app_assoc, dec_bytes. Qed.
Lemma md_str_wire s : u64 (len s) → text s → ∀ rest, md_str (wire (encode_text s) ++ rest) = Some (s, rest).
Proof. intros. unfold encode_text. by rewrite enc_str, <-app_assoc, dec_str. Qed.

Lemma parses_decode_fixed_bytes n b :
  length b = n → u64 (Z.of_nat n) → parses (E:=E) (decode_fixed_bytes n) (wire (encode_bytes b)) b.
Proof.
  intros Hn Hu rest. unfold decode_fixed_bytes, decode_item, mbind, dec_bind.
  rewrite md_bytes_wire by (unfold len; by rewrite Hn). simpl. by rewrite Hn, Nat.eqb_refl.
Qed.

Lemma parses_decode_bounded_bytes m b :
  len b ≤ m → u64 m → parses (E:=E) (decode_bounded_bytes m) (wire (encode_bytes b)) b.
Proof.
  intros Hn Hu rest. unfold decode_bounded_bytes, decode_item, mbind, dec_bind.
  rewrite md_bytes_wire by (unfold uint in *; pose proof (len_nonneg b); lia). simpl.
  by destruct (Z.gtb_spec (len b) m); [lia|].
Qed.

Lemma parses_decode_bounded_text m s :
  len s ≤ m → u64 m → text s → parses (E:=E) (decode_bounded_text m) (wire (encode_text s)) s.
Proof.
  intros Hn Hu Ht rest. unfold decode_bounded_text, decode_item, mbind, dec_bind.
  rewrite md_str_wire by (done || unfold uint in *; pose proof (len_nonneg s); lia). simpl.
  by destruct (Z.gtb_spec (len s) m); [lia|].
Qed.

(** An optional fixed array is written as its bytes or as null. *)
Lemma parses_decode_optional_Some n b :
  length b = n → u64 (Z.of_nat n) →
  parses (E:=E) (decode_optional_fixed_bytes n) (wire (encode_bytes b)) (Some b).
Proof.
  intros Hn Hu rest. unfold decode_optional_fixed_bytes.
  assert (md_is_null (wire (encode_bytes b) ++ rest) = Some false) as ->.
  { unfold encode_bytes. rewrite enc_bytes by (unfold len; by rewrite Hn).
    rewrite <-app_assoc. apply dec_is_not_null. unfold len. by rewrite Hn. }
  unfold mbind, dec_bind. by rewrite parses_decode_fixed_bytes.
Qed.

Lemma parses_decode_optional_None n :
  parses (E:=E) (decode_optional_fixed_bytes n) (wire encode_null) None.
Proof.
  intros rest. unfold decode_optional_fixed_bytes, encode_null.
  by rewrite enc_null, dec_is_null, dec_null.
Qed.

Lemma require_end_Ok rest original : require_end (E:=E) rest original = Ok tt ↔ rest = [].
Proof.
  unfold require_end. rewrite fail_if_Ok, negb_false_iff, Z.eqb_eq.
  unfold len. destruct rest; simpl; split; (lia || done).
Qed.

(** A loop that writes one item per element, and the loop that reads them. *)
Lemma wire_each {A} (f : A → list bytes) l :
  wire (concat (f <$> l)) = concat ((λ a, wire (f a)) <$> l).
Proof.
  induction l as [|a l IH]; [done|]. rewrite !fmap_cons. cbn [concat]. by rewrite concat_app, IH.
Qed.

Lemma parses_decode_each {A} (d : dec E A) (f : A → list bytes) n l :
  n = length l → (∀ a, a ∈ l → parses d (wire (f a)) a) →
  parses (decode_times n d) (wire (concat (f <$> l))) l.
Proof. intros -> Hd. rewrite wire_each. by apply (parses_times d (λ a, wire (f a))). Qed.

(** *** Sizes *)

Lemma len_encode_array n : u64 n → len (wire (encode_array n)) = head_len n.
Proof. intros. unfold encode_array. by rewrite enc_array, len_cbor_head. Qed.
Lemma len_encode_u8 n : u8 n → len (wire (encode_u8 n)) = head_len n.
Proof. intros. unfold encode_u8. by rewrite enc_u8, len_cbor_head. Qed.
Lemma len_encode_u16 n : u16 n → len (wire (encode_u16 n)) = head_len n.
Proof. intros. unfold encode_u16. by rewrite enc_u16, len_cbor_head. Qed.
Lemma len_encode_u32 n : u32 n → len (wire (encode_u32 n)) = head_len n.
Proof. intros. unfold encode_u32. by rewrite enc_u32, len_cbor_head. Qed.
Lemma len_encode_u64 n : u64 n → len (wire (encode_u64 n)) = head_len n.
Proof. intros. unfold encode_u64. by rewrite enc_u64, len_cbor_head. Qed.
Lemma len_encode_bytes b : u64 (len b) → len (wire (encode_bytes b)) = head_len (len b) + len b.
Proof. intros. unfold encode_bytes. by rewrite enc_bytes, len_app, len_cbor_head. Qed.
Lemma len_encode_text s :
  u64 (len s) → text s → len (wire (encode_text s)) = head_len (len s) + len s.
Proof. intros. unfold encode_text. by rewrite enc_str, len_app, len_cbor_head. Qed.
Lemma len_encode_null : len (wire encode_null) = 1.
Proof. unfold encode_null. by rewrite enc_null. Qed.

Lemma len_each_le {A} (f : A → list bytes) k l :
  (∀ a, a ∈ l → len (wire (f a)) ≤ k) → len (wire (concat (f <$> l))) ≤ k * len l.
Proof.
  rewrite wire_each. induction l as [|a l IH]; intros Hf; [by rewrite Z.mul_0_r|].
  rewrite fmap_cons. cbn [concat]. rewrite len_app, len_cons. pose proof (Hf a ltac:(left)).
  pose proof (IH ltac:(intros; apply Hf; by right)). lia.
Qed.

(** *** What the helpers return *)

Lemma yields_item {A} (d : bytes → option (A * bytes)) (P : A → Prop) :
  (∀ bs a r, d bs = Some (a, r) → P a) → yields (E:=E) (decode_item d) P.
Proof. intros Hd bs a r Ha%ok_or_Ok. eauto. Qed.

Lemma yields_u8 : yields (E:=E) decode_u8 u8.
Proof. apply yields_item, typ_u8. Qed.
Lemma yields_u16 : yields (E:=E) decode_u16 u16.
Proof. apply yields_item, typ_u16. Qed.
Lemma yields_u32 : yields (E:=E) decode_u32 u32.
Proof. apply yields_item, typ_u32. Qed.
Lemma yields_u64 : yields (E:=E) decode_u64 u64.
Proof. apply yields_item, typ_u64. Qed.

Lemma yields_any {A} (d : dec E A) : yields d (λ _, True).
Proof. done. Qed.

Lemma yields_guard c (e : E) : yields (lift (fail_if c e)) (λ _, c = false).
Proof. apply yields_lift. intros u. by rewrite fail_if_Ok. Qed.

Lemma yields_fixed_bytes n : yields (E:=E) (decode_fixed_bytes n) (λ b, length b = n).
Proof.
  eapply yields_bind; [apply yields_any|]. intros b _.
  eapply yields_bind; [apply yields_guard|]. intros [] Hb. apply yields_ret.
  by apply negb_false_iff, Nat.eqb_eq in Hb.
Qed.

Lemma yields_bounded_bytes m : yields (E:=E) (decode_bounded_bytes m) (λ b, len b ≤ m).
Proof.
  eapply yields_bind; [apply yields_any|]. intros b _.
  eapply yields_bind; [apply yields_guard|]. intros [] Hb. apply yields_ret.
  by destruct (Z.gtb_spec (len b) m).
Qed.

Lemma yields_bounded_text m : yields (E:=E) (decode_bounded_text m) (λ s, len s ≤ m ∧ text s).
Proof.
  eapply yields_bind; [apply yields_item, typ_str|]. intros s Hs.
  eapply yields_bind; [apply yields_guard|]. intros [] Hb. apply yields_ret.
  split; [by destruct (Z.gtb_spec (len s) m)|done].
Qed.

Lemma yields_array_length m : yields (E:=E) (decode_array_length m) (λ n, u64 n ∧ n ≤ m).
Proof.
  eapply yields_bind; [apply yields_any|]. intros o _.
  eapply yields_bind; [apply yields_any|]. intros n _.
  eapply yields_bind; [apply yields_lift; intros k [-> Hk]%ok_or_Ok%try_from_Some; exact Hk|].
  intros k Hk. eapply yields_bind; [apply yields_guard|]. intros [] Hb. apply yields_ret.
  split; [done|]. by destruct (Z.gtb_spec k m).
Qed.

Lemma yields_optional_fixed_bytes n :
  yields (E:=E) (decode_optional_fixed_bytes n) (λ o, ∀ b, o = Some b → length b = n).
Proof.
  intros bs o r. unfold decode_optional_fixed_bytes. repeat case_match; try done.
  - by intros [= <- <-].
  - intros (x & r' & Hx%yields_fixed_bytes & [= <- <-])%dec_bind_Ok. by intros ? [= ->].
Qed.

(** *** The helpers do not panic *)

Lemma panic_free_item {A} (d : bytes → option (A * bytes)) : panic_free (E:=E) (decode_item d).
Proof. intros bs. unfold decode_item. by destruct (d bs). Qed.

Lemma panic_free_guard c (e : E) : panic_free (lift (fail_if c e)).
Proof. apply panic_free_lift, fail_if_not_Panic. Qed.
Lemma panic_free_ok_or {A} (o : option A) (e : E) : panic_free (lift (ok_or o e)).
Proof. apply panic_free_lift, ok_or_not_Panic. Qed.

Lemma panic_free_optional n : panic_free (E:=E) (decode_optional_fixed_bytes n).
Proof.
  intros bs. unfold decode_optional_fixed_bytes. repeat case_match; try done.
  intros [Hp|(a & r & _ & ?)]%dec_bind_Panic; [|done].
  revert Hp. unfold decode_fixed_bytes. apply panic_free_bind; [apply panic_free_item|].
  intros v. apply panic_free_bind; [apply panic_free_guard|]. intros []. apply panic_free_ret.
Qed.

Lemma panic_free_end original : panic_free (E:=E) (λ rest, lift (require_end rest original) rest).
Proof. intros rest. apply panic_free_lift, fail_if_not_Panic. Qed.
End helper_facts.

Create HintDb panic_free.
#[export] Hint Resolve panic_free_ret panic_free_bind panic_free_times panic_free_item
  panic_free_guard panic_free_ok_or panic_free_optional panic_free_end : panic_free.
#[export] Hint Unfold decode_u8 decode_u16 decode_u32 decode_u64 expect_array decode_array_length
  decode_fixed_bytes decode_bounded_bytes decode_bounded_text : panic_free.

#[export] Hint Resolve parses_ret parses_expect_array parses_decode_array_length parses_decode_u8
  parses_decode_u16 parses_decode_u32 parses_decode_u64 parses_decode_fixed_bytes
  parses_decode_bounded_bytes parses_decode_bounded_text parses_decode_optional_Some
  parses_decode_optional_None parses_decode_each : parse.
#[export] Hint Resolve yields_u8 yields_u16 yields_u32 yields_u64 yields_guard yields_fixed_bytes
  yields_bounded_bytes yields_bounded_text yields_array_length yields_optional_fixed_bytes
  | 1 : yield.
#[export] Hint Resolve yields_any | 9 : yield.

(** [parse] reads an encoder program item by item. *)
Ltac parse_step :=
  first
    [ eapply parses_lift_bind; [solve [eauto with parse] |]
    | eapply parses_bind; [solve [eauto with parse] |]
    | eapply parses_bind_last; [solve [eauto with parse] |] ].
Ltac parse := rewrite ?concat_app; repeat parse_step; try solve [eauto with parse].

(** [yield] collects what the items of a decoder return. *)
Ltac yield_step :=
  eapply yields_bind; [solve [eauto with yield] | intros ? ?].

(** [head_bounds] bounds the heads that occur in the goal; [head_bounds_tight]
    also by the widths of their arguments. *)
Lemma head_len_cases n :
  0 ≤ n →
  (n < 24 → head_len n = 1) ∧ (n < 256 → head_len n ≤ 2) ∧ (n < 65536 → head_len n ≤ 3)
  ∧ (n < 4294967296 → head_len n ≤ 5) ∧ 1 ≤ head_len n ≤ 9.
Proof.
  intros. pose proof (head_len_bounds n). unfold head_len in *.
  destruct (Z.ltb_spec n 24), (Z.ltb_spec n 256), (Z.ltb_spec n 65536), (Z.ltb_spec n 4294967296); lia.
Qed.
Lemma head_len_le3 n : 0 ≤ n < 65536 → head_len n ≤ 3.
Proof. intros. apply head_len_cases; lia. Qed.
Ltac head_bounds :=
  repeat match goal with
  | |- context [head_len ?n] =>
      let h := fresh "h" in let Hh := fresh "Hh" in
      pose proof (head_len_bounds n) as Hh; set (h := head_len n) in *; clearbody h
  end.
Ltac head_bounds_tight :=
  repeat match goal with
  | |- context [head_len ?n] =>
      let h := fresh "h" in let Hh := fresh "Hh" in
      pose proof (head_len_cases n ltac:(first [apply len_nonneg | unfold uint in *; lia])) as Hh;
      set (h := head_len n) in *; clearbody h
  end.

(** [wire_size] computes the size of an encoder program. *)
Ltac wire_size :=
  rewrite ?concat_app, ?len_app;
  rewrite ?len_encode_array, ?len_encode_u8, ?len_encode_u16, ?len_encode_u32, ?len_encode_u64,
    ?len_encode_bytes, ?len_encode_text, ?len_encode_null by eauto with parse.

(** ** Complete decoders: a decoding function run on a whole input *)

Section complete.
Context {E : Type} `{WireError E}.

(** [let mut decoder = Decoder::new(bytes);], then the function. *)
Definition run_decoder {A} (d : dec E A) (bs : bytes) : result E A :=
  match d bs with
  | Ok (a, _) => Ok a
  | Err e => Err e
  | Panic => Panic
  end.

(** [require_end(&decoder, original)?]. *)
Definition at_end (original : bytes) : dec E unit := λ rest,
  lift (require_end rest original) rest.

Lemma run_decoder_Ok {A} (d : dec E A) bs a :
  run_decoder d bs = Ok a ↔ ∃ rest, d bs = Ok (a, rest).
Proof. unfold run_decoder. destruct (d bs) as [[]| |]; naive_solver. Qed.

Lemma run_decoder_Panic {A} (d : dec E A) bs : run_decoder d bs = Panic ↔ d bs = Panic.
Proof. unfold run_decoder. destruct (d bs) as [[]| |]; naive_solver. Qed.

Lemma at_end_Ok original rest u r : at_end original rest = Ok (u, r) ↔ rest = [] ∧ r = [].
Proof.
  unfold at_end, lift. destruct (require_end rest original) as [[]| |] eqn:Hr.
  - apply require_end_Ok in Hr as ->. destruct u. naive_solver.
  - split; [done|]. intros [-> _]. unfold require_end, len in Hr. simpl in Hr.
    by rewrite Z.sub_0_r, Z.eqb_refl in Hr.
  - by apply fail_if_not_Panic in Hr.
Qed.

Lemma run_step {A B} (d : dec E A) (f : A → dec E B) b1 b2 a res :
  parses d b1 a → f a b2 = res → (d ≫= f) (b1 ++ b2) = res.
Proof. intros Hd <-. unfold mbind, dec_bind. by rewrite Hd. Qed.

Lemma run_step_last {A B} (d : dec E A) (f : A → dec E B) b1 a res :
  parses d b1 a → f a [] = res → (d ≫= f) b1 = res.
Proof. intros. rewrite <-(app_nil_r b1). by eapply run_step. Qed.

Lemma run_lift {A B} (r : result E A) (f : A → dec E B) bs a res :
  r = Ok a → f a bs = res → (lift r ≫= f) bs = res.
Proof. by intros -> <-. Qed.

Lemma run_at_end {B} original (f : unit → dec E B) res :
  f tt [] = res → (at_end original ≫= f) [] = res.
Proof.
  intros <-. unfold mbind, dec_bind, at_end. by rewrite (proj2 (require_end_Ok [] original)).
Qed.
End complete.

(** [inv_dec H] takes a successful decoder run apart. *)
Ltac inv_dec H :=
  lazymatch type of H with
  | run_decoder _ _ = Ok _ => apply run_decoder_Ok in H as [? H]; inv_dec H
  | (_ ≫= _) _ = Ok _ =>
      let x := fresh "x" in let r := fresh "r" in
      let H1 := fresh "Hd" in let H2 := fresh "Hd" in
      apply dec_bind_Ok in H as (x & r & H1 & H2); cbn beta in H2; inv_dec H1; inv_dec H2
  | at_end _ _ = Ok _ => apply at_end_Ok in H as [? ?]; subst
  | (if ?b then _ else _) _ = Ok _ => destruct b eqn:?; inv_dec H
  | lift ?r _ = Ok _ =>
      let E := fresh "Hl" in unfold lift in H;
      first [discriminate H | destruct r eqn:E; [|discriminate H|discriminate H];
        apply Ok_inj in H; injection H as ? ?; subst; inv_ok E]
  | mret _ _ = Ok _ => apply Ok_inj in H; injection H as ? ?; subst
  | _ => idtac
  end.

(** [inv_dec_panic H] follows a decoder run that panics to the step that does:
    the items cannot. *)
Ltac inv_dec_panic H :=
  lazymatch type of H with
  | run_decoder _ _ = Panic => apply run_decoder_Panic in H; inv_dec_panic H
  | (_ ≫= _) _ = Panic =>
      let x := fresh "x" in let r := fresh "r" in
      let H1 := fresh "Hd" in let H2 := fresh "Hp" in
      apply dec_bind_Panic in H as [H | (x & r & H1 & H2)];
      [ inv_dec_panic H | cbn beta in H2; inv_dec H1; inv_dec_panic H2 ]
  | lift ?r _ = Panic =>
      let E := fresh "Hp" in unfold lift in H; destruct r eqn:E; [discriminate H|discriminate H|];
      clear H; try solve [exfalso; refine ((_ : r ≠ Panic) E); clear E; no_panic]
  | (if ?b then _ else _) _ = Panic => destruct b eqn:?; inv_dec_panic H
  | ?d ?bs = Panic =>
      exfalso; refine ((_ : panic_free d) bs H); clear H;
      solve [apply panic_free_end | eauto 20 with panic_free]
  end.

(** [decode_panic] follows a decoder with a size check to the step that panics. *)
Ltac decode_panic :=
  let Hp := fresh "Hp" in
  intros [[]%fail_if_not_Panic|(_ & _ & Hp)]%bind_Panic; inv_dec_panic Hp.

Section canonical_facts.
Context {E : Type} `{WireError E}.
Lemma canonical_Ok image bytes u : canonical (E:=E) image bytes = Ok u ↔ image = bytes.
Proof.
  unfold canonical. rewrite fail_if_Ok, bool_decide_eq_false. split; [apply dec_stable|congruence].
Qed.
Lemma canonical_refl bytes : canonical (E:=E) bytes bytes = Ok tt.
Proof. by apply canonical_Ok. Qed.
Lemma canonical_not_Panic image bs : canonical (E:=E) image bs ≠ Panic.
Proof. apply fail_if_not_Panic. Qed.
End canonical_facts.
#[export] Hint Extern 1 (canonical _ _ = Ok _) => apply canonical_refl : parse.
#[export] Hint Resolve canonical_not_Panic : panic.

(** [canonicalized] uses the canonicity checks of the context. *)
Ltac canonicalized :=
  repeat match goal with H : canonical _ _ = Ok _ |- _ => apply canonical_Ok in H end.

(** [yielded] replaces the item runs of the context by what they returned. *)
Ltac yielded :=
  repeat match goal with
  | H : decode_u8 _ = Ok (_, _) |- _ => apply yields_u8 in H
  | H : decode_u16 _ = Ok (_, _) |- _ => apply yields_u16 in H
  | H : decode_u32 _ = Ok (_, _) |- _ => apply yields_u32 in H
  | H : decode_u64 _ = Ok (_, _) |- _ => apply yields_u64 in H
  | H : decode_fixed_bytes _ _ = Ok (_, _) |- _ => apply yields_fixed_bytes in H
  | H : decode_bounded_bytes _ _ = Ok (_, _) |- _ => apply yields_bounded_bytes in H
  | H : decode_bounded_text _ _ = Ok (_, _) |- _ => apply yields_bounded_text in H as [? ?]
  | H : decode_array_length _ _ = Ok (_, _) |- _ => apply yields_array_length in H as [? ?]
  | H : decode_optional_fixed_bytes _ _ = Ok (_, _) |- _ => apply yields_optional_fixed_bytes in H
  | H : decode_times _ decode_u16 _ = Ok (_, _) |- _ =>
      apply (yields_times _ _ _ yields_u16) in H as [? ?]
  | H : expect_array _ _ = Ok (_, _) |- _ => clear H
  end.

(** [run_parse] runs a decoder on the image of its encoder, item by item. *)
Ltac run_parse_step :=
  first
    [ eapply run_at_end
    | eapply run_lift; [solve [eauto with parse] |]
    | eapply run_step; [solve [eauto with parse] |]
    | eapply run_step_last; [solve [eauto with parse] |] ];
  cbn beta.
Ltac run_parse := rewrite ?concat_app; repeat run_parse_step.

(** [run_image H] starts a run on an image, for [H : image = wire program]. *)
Ltac run_image H :=
  apply run_decoder_Ok; exists [];
  lazymatch goal with |- ?f _ = _ => refine (eq_trans (f_equal f H) _) end.

(** ** Codecs

    What a message type promises to its users: the decoder accepts exactly the
    encodings of valid values, the encoder is defined on them, and no input
    makes the decoder panic. *)
Class Codec (E T : Type) := {
  codec_valid : T → Prop;
  codec_encode : T → result E bytes;
  codec_decode : bytes → result E T;
}.
Class CodecLaws (E T : Type) `{Codec E T} : Prop := {
  codec_exact bs v : codec_decode bs = Ok v ↔ codec_valid v ∧ codec_encode v = Ok bs;
  codec_total v : codec_valid v → is_ok (codec_encode v) = true;
  codec_safe bs : codec_decode bs ≠ Panic;
}.

Section codec_facts.
Context `{CodecLaws E T}.

Lemma codec_roundtrip (v : T) :
  codec_valid v → ∃ bs, codec_encode v = Ok bs ∧ codec_decode bs = Ok v.
Proof.
  intros Hv. pose proof (codec_total v Hv) as Ht.
  destruct (codec_encode v) as [bs| |] eqn:Hbs; [|done|done].
  exists bs. split; [done|]. by apply codec_exact.
Qed.

Lemma codec_encode_inj (v w : T) bs :
  codec_valid v → codec_valid w → codec_encode v = Ok bs → codec_encode w = Ok bs → v = w.
Proof.
  intros Hv Hw Ev Ew. apply (Ok_inj (E:=E)).
  by rewrite <-(proj2 (codec_exact bs v) (conj Hv Ev)), (proj2 (codec_exact bs w) (conj Hw Ew)).
Qed.

Lemma codec_decode_inj bs bs' (v : T) :
  codec_decode bs = Ok v → codec_decode bs' = Ok v → bs = bs'.
Proof.
  intros [_ E1]%codec_exact [_ E2]%codec_exact. rewrite E1 in E2. by apply Ok_inj in E2.
Qed.
End codec_facts.
