(* ===== verification/Types.v ===== *)
(** * Closed enumerations and limits of the trusted protocol

    [crates/agent-protocol/src/types.rs] and the constants of
    [crates/agent-protocol/src/lib.rs]: versions, roles, agent states,
    operation codes with their authorization tables, public error and retry
    categories. *)

From S2P Require Import Prelude RustStd Cbor Wire.

(** ** Versions *)

Record Version := { major : Z; minor : Z }.
#[export] Instance Version_eq_dec : EqDecision Version.
Proof. solve_decision. Defined.

Definition Version_new (major minor : Z) : Version := {| major := major; minor := minor |}.

(** The derived [Ord]: lexicographic. *)
Definition Version_cmp (a b : Version) : comparison :=
  match major a ?= major b with Eq => minor a ?= minor b | c => c end.
Definition Version_ltb (a b : Version) : bool :=
  match Version_cmp a b with Lt => true | _ => false end.
(** [Ord::min]. *)
Definition Version_min (a b : Version) : Version :=
  match Version_cmp a b with Gt => b | _ => a end.

Definition Version_typed (v : Version) : Prop := u16 (major v) ∧ u16 (minor v).
Definition Version_lt (a b : Version) : Prop :=
  major a < major b ∨ (major a = major b ∧ minor a < minor b).

Lemma Version_ltb_lt a b : Version_ltb a b = true ↔ Version_lt a b.
Proof.
  unfold Version_ltb, Version_cmp, Version_lt.
  destruct (Z.compare_spec (major a) (major b)) as [Hm|Hm|Hm];
    [destruct (Z.compare_spec (minor a) (minor b)) | |]; split; try done; lia.
Qed.

Lemma Version_ltb_ge a b : Version_ltb a b = false ↔ ¬ Version_lt a b.
Proof. rewrite <-Version_ltb_lt. by destruct (Version_ltb a b). Qed.

Lemma Version_min_spec a b :
  (Version_min a b = a ∧ ¬ Version_lt b a) ∨ (Version_min a b = b ∧ Version_lt b a).
Proof.
  unfold Version_min, Version_cmp, Version_lt.
  destruct (Z.compare_spec (major a) (major b)) as [Hm|Hm|Hm];
    [destruct (Z.compare_spec (minor a) (minor b)) | |]; (left; split; [done|lia]) || (right; split; [done|lia]).
Qed.

(** ** Limits ([lib.rs]) *)

Definition HEADER_BYTES : Z := 40.
Definition MAX_PAYLOAD_BYTES : Z := 65536.
Definition MIN_NEGOTIATED_PAYLOAD_BYTES : Z := 21.
Definition MAX_ENDPOINT_DESCRIPTOR_BYTES : Z := 4096.
Definition MAX_IN_FLIGHT_PER_CONNECTION : Z := 4.
Definition MAX_IN_FLIGHT_GLOBAL : Z := 32.
Definition MAX_CONNECTIONS : Z := 8.
Definition MAX_EVENT_QUEUE : Z := 8.
Definition HANDSHAKE_TIMEOUT_MS : Z := 2000.
Definition ORDINARY_TIMEOUT_MS : Z := 5000.
Definition UNLOCK_TIMEOUT_MS : Z := 30000.
Definition PASSKEY_TIMEOUT_MS : Z := 120000.
Definition MINIMUM_VERSION : Version := Version_new 1 0.
Definition CURRENT_VERSION : Version := Version_new 1 3.
Definition WINDOWS_HELLO_VERSION : Version := Version_new 1 1.
Definition FEATURE_WINDOWS_HELLO : Z := 1.
Definition FEATURE_PASSKEY_PROVIDER : Z := 2.
Definition PASSKEY_PROVIDER_VERSION : Version := Version_new 1 2.
Definition BROWSER_FILL_VERSION : Version := Version_new 1 3.
Definition FEATURE_BROWSER_FILL : Z := 3.

#[export] Hint Unfold HEADER_BYTES MAX_PAYLOAD_BYTES MIN_NEGOTIATED_PAYLOAD_BYTES
  MAX_ENDPOINT_DESCRIPTOR_BYTES MAX_IN_FLIGHT_PER_CONNECTION : limits.

(** ** Roles *)

Inductive ClientRole := Desktop | NativeHost | PasskeyProvider.
#[export] Instance ClientRole_eq_dec : EqDecision ClientRole.
Proof. solve_decision. Defined.

(** [role as u8]. *)
Definition ClientRole_code (r : ClientRole) : Z :=
  match r with Desktop => 1 | NativeHost => 2 | PasskeyProvider => 3 end.
Definition ClientRole_from_u64 (value : Z) : option ClientRole :=
  match value with
  | 1 => Some Desktop
  | 2 => Some NativeHost
  | 3 => Some PasskeyProvider
  | _ => None
  end.

(** ** Agent states *)

Inductive AgentState :=
  Starting | NoVault | Locked | Unlocking | Unlocked | Updating | ShuttingDown.
#[export] Instance AgentState_eq_dec : EqDecision AgentState.
Proof. solve_decision. Defined.

Definition AgentState_code (s : AgentState) : Z :=
  match s with
  | Starting => 1 | NoVault => 2 | Locked => 3 | Unlocking => 4
  | Unlocked => 5 | Updating => 6 | ShuttingDown => 7
  end.
Definition AgentState_from_u64 (value : Z) : option AgentState :=
  match value with
  | 1 => Some Starting
  | 2 => Some NoVault
  | 3 => Some Locked
  | 4 => Some Unlocking
  | 5 => Some Unlocked
  | 6 => Some Updating
  | 7 => Some ShuttingDown
  | _ => None
  end.

(** ** Operations *)

Module OperationCode.
Inductive t :=
  | Status | CreateVault | UnlockMasterPassword | Lock | ListAccountSummaries | GetAccount
  | AddAccount | UpdateAccount | DeleteAccount | EnrollWindowsHello | RemoveWindowsHello
  | UnlockWindowsHello | ExactOriginMatches | GetSelectedCredential | CaptureCredential
  | UpdateCredential | MakePasskey | GetPasskeyAssertion | DeletePasskey
  | ListPasskeysForAssertion | ListPasskeys | RollbackPasskeyCreation | ConfirmPasskeyCreation.

#[global] Instance t_eq_dec : EqDecision t.
Proof. solve_decision. Defined.

(** [operation as u16]. *)
Definition code (o : t) : Z :=
  match o with
  | Status => 1 | CreateVault => 2 | UnlockMasterPassword => 3 | Lock => 4
  | ListAccountSummaries => 5 | GetAccount => 6 | AddAccount => 7 | UpdateAccount => 8
  | DeleteAccount => 9 | EnrollWindowsHello => 10 | RemoveWindowsHello => 11
  | UnlockWindowsHello => 12 | ExactOriginMatches => 20 | GetSelectedCredential => 21
  | CaptureCredential => 22 | UpdateCredential => 23 | MakePasskey => 30
  | GetPasskeyAssertion => 31 | DeletePasskey => 32 | ListPasskeysForAssertion => 33
  | ListPasskeys => 34 | RollbackPasskeyCreation => 35 | ConfirmPasskeyCreation => 36
  end.

Definition ALL : list t :=
  [Status; CreateVault; UnlockMasterPassword; Lock; ListAccountSummaries; GetAccount;
   AddAccount; UpdateAccount; DeleteAccount; EnrollWindowsHello; RemoveWindowsHello;
   UnlockWindowsHello; ExactOriginMatches; GetSelectedCredential; CaptureCredential;
   UpdateCredential; MakePasskey; GetPasskeyAssertion; DeletePasskey;
   ListPasskeysForAssertion; ListPasskeys; RollbackPasskeyCreation; ConfirmPasskeyCreation].

Definition is_authorized_for (o : t) (role : ClientRole) : bool :=
  match role with
  | Desktop =>
      match o with
      | Status | CreateVault | UnlockMasterPassword | Lock | ListAccountSummaries | GetAccount
      | AddAccount | UpdateAccount | DeleteAccount | EnrollWindowsHello | RemoveWindowsHello
      | UnlockWindowsHello | DeletePasskey | ListPasskeys => true
      | _ => false
      end
  | NativeHost =>
      match o with
      | Status | ExactOriginMatches | GetSelectedCredential | CaptureCredential
      | UpdateCredential => true
      | _ => false
      end
  | PasskeyProvider =>
      match o with
      | Status | MakePasskey | GetPasskeyAssertion | ListPasskeysForAssertion
      | RollbackPasskeyCreation | ConfirmPasskeyCreation => true
      | _ => false
      end
  end.

Definition requires_idempotency_key (o : t) : bool :=
  match o with
  | CreateVault | AddAccount | UpdateAccount | DeleteAccount | EnrollWindowsHello
  | RemoveWindowsHello | CaptureCredential | UpdateCredential | MakePasskey
  | GetPasskeyAssertion | DeletePasskey | RollbackPasskeyCreation
  | ConfirmPasskeyCreation => true
  | _ => false
  end.

Definition requires_unlocked_epoch (o : t) : bool :=
  match o with
  | ListAccountSummaries | GetAccount | AddAccount | UpdateAccount | DeleteAccount
  | EnrollWindowsHello | RemoveWindowsHello | ExactOriginMatches | GetSelectedCredential
  | CaptureCredential | UpdateCredential | MakePasskey | GetPasskeyAssertion | DeletePasskey
  | ListPasskeysForAssertion | ListPasskeys | RollbackPasskeyCreation
  | ConfirmPasskeyCreation => true
  | _ => false
  end.

Definition required_feature (o : t) : option Z :=
  match o with
  | ExactOriginMatches | GetSelectedCredential => Some FEATURE_BROWSER_FILL
  | EnrollWindowsHello | RemoveWindowsHello | UnlockWindowsHello => Some FEATURE_WINDOWS_HELLO
  | MakePasskey | GetPasskeyAssertion | DeletePasskey | ListPasskeysForAssertion
  | ListPasskeys | RollbackPasskeyCreation | ConfirmPasskeyCreation =>
      Some FEATURE_PASSKEY_PROVIDER
  | _ => None
  end.

Definition from_u64 (value : Z) : option t :=
  match value with
  | 1 => Some Status
  | 2 => Some CreateVault
  | 3 => Some UnlockMasterPassword
  | 4 => Some Lock
  | 5 => Some ListAccountSummaries
  | 6 => Some GetAccount
  | 7 => Some AddAccount
  | 8 => Some UpdateAccount
  | 9 => Some DeleteAccount
  | 10 => Some EnrollWindowsHello
  | 11 => Some RemoveWindowsHello
  | 12 => Some UnlockWindowsHello
  | 20 => Some ExactOriginMatches
  | 21 => Some GetSelectedCredential
  | 22 => Some CaptureCredential
  | 23 => Some UpdateCredential
  | 30 => Some MakePasskey
  | 31 => Some GetPasskeyAssertion
  | 32 => Some DeletePasskey
  | 33 => Some ListPasskeysForAssertion
  | 34 => Some ListPasskeys
  | 35 => Some RollbackPasskeyCreation
  | 36 => Some ConfirmPasskeyCreation
  | _ => None
  end.
End OperationCode.
Abbreviation OperationCode := OperationCode.t.

(** ** Public errors and retries *)

Module PublicErrorCode.
Inductive t :=
  | InvalidRequest | UnauthorizedOperation | Locked | NotFound | Conflict | Busy | Cancelled
  | DeadlineExceeded | AgentUnavailable | Incompatible | OperationFailed.
#[global] Instance t_eq_dec : EqDecision t.
Proof. solve_decision. Defined.

Definition code (e : t) : Z :=
  match e with
  | InvalidRequest => 1 | UnauthorizedOperation => 2 | Locked => 3 | NotFound => 4
  | Conflict => 5 | Busy => 6 | Cancelled => 7 | DeadlineExceeded => 8
  | AgentUnavailable => 9 | Incompatible => 10 | OperationFailed => 11
  end.
Definition from_u64 (value : Z) : option t :=
  match value with
  | 1 => Some InvalidRequest
  | 2 => Some UnauthorizedOperation
  | 3 => Some Locked
  | 4 => Some NotFound
  | 5 => Some Conflict
  | 6 => Some Busy
  | 7 => Some Cancelled
  | 8 => Some DeadlineExceeded
  | 9 => Some AgentUnavailable
  | 10 => Some Incompatible
  | 11 => Some OperationFailed
  | _ => None
  end.
End PublicErrorCode.
Abbreviation PublicErrorCode := PublicErrorCode.t.

Inductive RetryCategory := Never | Reconnect | AfterUnlock | Backoff.
#[export] Instance RetryCategory_eq_dec : EqDecision RetryCategory.
Proof. solve_decision. Defined.

Definition RetryCategory_code (r : RetryCategory) : Z :=
  match r with Never => 1 | Reconnect => 2 | AfterUnlock => 3 | Backoff => 4 end.
Definition RetryCategory_from_u64 (value : Z) : option RetryCategory :=
  match value with
  | 1 => Some Never
  | 2 => Some Reconnect
  | 3 => Some AfterUnlock
  | 4 => Some Backoff
  | _ => None
  end.

(** ** Codes and their readers *)

(** A closed enumeration on the wire: the reader inverts the discriminant. *)
Class WireEnum (T : Type) := {
  enum_code : T → Z;
  enum_from : Z → option T;
}.
Class WireEnumLaws (T : Type) `{WireEnum T} (w : Z) : Prop := {
  enum_from_code x : enum_from (enum_code x) = Some x;
  enum_code_from v x : enum_from v = Some x → enum_code x = v;
  enum_code_range x : uint w (enum_code x);
}.

#[export] Instance ClientRole_enum : WireEnum ClientRole :=
  {| enum_code := ClientRole_code; enum_from := ClientRole_from_u64 |}.
#[export] Instance AgentState_enum : WireEnum AgentState :=
  {| enum_code := AgentState_code; enum_from := AgentState_from_u64 |}.
#[export] Instance OperationCode_enum : WireEnum OperationCode :=
  {| enum_code := OperationCode.code; enum_from := OperationCode.from_u64 |}.
#[export] Instance PublicErrorCode_enum : WireEnum PublicErrorCode :=
  {| enum_code := PublicErrorCode.code; enum_from := PublicErrorCode.from_u64 |}.
#[export] Instance RetryCategory_enum : WireEnum RetryCategory :=
  {| enum_code := RetryCategory_code; enum_from := RetryCategory_from_u64 |}.

(** The reader is a match on small literals: its graph by cases on [Z]. *)
Ltac solve_enum :=
  split;
  [ by intros []
  | intros v x Hv; cbv in Hv;
    repeat (case_match; try discriminate); simplify_eq; reflexivity
  | intros []; unfold uint; cbn; lia ].

#[export] Instance ClientRole_laws : WireEnumLaws ClientRole 8.
Proof. solve_enum. Qed.
#[export] Instance AgentState_laws : WireEnumLaws AgentState 8.
Proof. solve_enum. Qed.
#[export] Instance OperationCode_laws : WireEnumLaws OperationCode 16.
Proof. solve_enum. Qed.
#[export] Instance PublicErrorCode_laws : WireEnumLaws PublicErrorCode 8.
Proof. solve_enum. Qed.
#[export] Instance RetryCategory_laws : WireEnumLaws RetryCategory 8.
Proof. solve_enum. Qed.

#[export] Instance enum_code_inj (T : Type) (w : Z) `{WireEnumLaws T w} : Inj (=) (=) (enum_code (T:=T)).
Proof. intros x y Hxy. apply (inj Some). by rewrite <-(enum_from_code x), Hxy, enum_from_code. Qed.

(** ** Authorization table facts *)

Lemma ALL_complete o : o ∈ OperationCode.ALL.
Proof. destruct o; vm_compute; repeat constructor. Qed.

(** The operation tables: the code of every operation is read back and
    [ALL] lists each operation once; every operation has a role, and two different
    roles have only [Status] in common; an operation that takes an idempotency key,
    except the creation of the vault, is bound to the unlock epoch; and every
    operation of the native host and of the passkey provider but [Status] is bound
    to the unlock epoch. *)
Theorem operation_tables :
  (∀ o, OperationCode.from_u64 (OperationCode.code o) = Some o)
  ∧ (∀ v o, OperationCode.from_u64 v = Some o → OperationCode.code o = v)
  ∧ NoDup OperationCode.ALL ∧ (∀ o, o ∈ OperationCode.ALL)
  ∧ (∀ o, ∃ r, OperationCode.is_authorized_for o r = true)
  ∧ (∀ o r1 r2, r1 ≠ r2 → OperationCode.is_authorized_for o r1 = true →
      OperationCode.is_authorized_for o r2 = true → o = OperationCode.Status)
  ∧ (∀ o, OperationCode.requires_idempotency_key o = true → o ≠ OperationCode.CreateVault →
      OperationCode.requires_unlocked_epoch o = true)
  ∧ (∀ o r, r ≠ Desktop → OperationCode.is_authorized_for o r = true →
      o = OperationCode.Status ∨ OperationCode.requires_unlocked_epoch o = true).
Proof.
  split_and!.
  - intros o. exact (enum_from_code (w:=16) o).
  - intros v o. exact (enum_code_from (w:=16) v o).
  - apply (bool_decide_unpack _). vm_compute. exact I.
  - apply ALL_complete.
  - intros []; (by exists Desktop) || (by exists NativeHost) || (by exists PasskeyProvider).
  - by intros [] [] [].
  - by intros [].
  - intros [] []; try done; auto.
Qed.
