(* ===== verification/Frame.v ===== *)
(** * The fixed frame header and complete frames
    ([crates/agent-protocol/src/frame.rs])

    The header is 40 bytes, read and written at fixed offsets.  No re-encoding
    check is made on it, so that its decoder accepts one byte string per header
    is a theorem about the offsets. *)

From S2P Require Import Prelude RustStd Types.

Definition MAGIC : bytes := str "LBIP".
Definition HEADER_VERSION : byte := x01.

Module MessageKind.
Inductive t := ClientHello | ServerHello | Request | Response | Cancel | Event.
#[global] Instance t_eq_dec : EqDecision t.
Proof. solve_decision. Defined.

(** [kind as u8]. *)
Definition code (k : t) : Z :=
  match k with
  | ClientHello => 1 | ServerHello => 2 | Request => 3
  | Response => 4 | Cancel => 5 | Event => 6
  end.
Definition from_u8 (value : Z) : option t :=
  match value with
  | 1 => Some ClientHello
  | 2 => Some ServerHello
  | 3 => Some Request
  | 4 => Some Response
  | 5 => Some Cancel
  | 6 => Some Event
  | _ => None
  end.
End MessageKind.
Abbreviation MessageKind := MessageKind.t.
#[export] Instance MessageKind_enum : WireEnum MessageKind :=
  {| enum_code := MessageKind.code; enum_from := MessageKind.from_u8 |}.
#[export] Instance MessageKind_laws : WireEnumLaws MessageKind 8.
Proof. solve_enum. Qed.

Module FrameError.
Inductive t := TooLarge | Malformed | InvalidHeader.
#[global] Instance t_eq_dec : EqDecision t.
Proof. solve_decision. Defined.
End FrameError.
Abbreviation FrameError := FrameError.t.
Import MessageKind FrameError.

Record FrameHeader := {
  kind : MessageKind;
  version : Version;
  payload_length : Z;
  connection_id : bytes;
  request_id : Z;
}.
#[export] Instance FrameHeader_eq_dec : EqDecision FrameHeader.
Proof. solve_decision. Defined.

Definition validate_kind_fields (h : FrameHeader) : result FrameError unit :=
  let zero_version := bool_decide (version h = Version_new 0 0) in
  let zero_connection := bool_decide (connection_id h = zeros 16) in
  let zero_request := request_id h =? 0 in
  let valid :=
    match kind h with
    | ClientHello => zero_version && zero_connection && zero_request
    | ServerHello | Event => negb zero_version && negb zero_connection && zero_request
    | Request | Response => negb zero_version && negb zero_connection && negb zero_request
    | Cancel =>
        negb zero_version && negb zero_connection && negb zero_request
        && (payload_length h =? 0)
    end in
  fail_if (negb valid) InvalidHeader.

Definition FrameHeader_new (k : MessageKind) (v : Version) (n : Z) (c : bytes) (r : Z) :
    result FrameError FrameHeader :=
  fail_if (n >? MAX_PAYLOAD_BYTES) TooLarge;;
  n ← ok_or (try_from 32 n) TooLarge;
  let header :=
    {| kind := k; version := v; payload_length := n; connection_id := c; request_id := r |} in
  validate_kind_fields header;;
  mret header.

(** [bytes[from..to]] and [bytes[from..to].copy_from_slice(src)], in range. *)
Definition slice (from to : nat) (l : bytes) : bytes := take (to - from) (drop from l).
Definition copy_at (from : nat) (src l : bytes) : bytes :=
  take from l ++ src ++ drop (from + length src) l.

Definition FrameHeader_encode (h : FrameHeader) : bytes :=
  let bytes := zeros 40 in
  let bytes := copy_at 0 MAGIC bytes in
  let bytes := copy_at 4 [HEADER_VERSION] bytes in
  let bytes := copy_at 5 [byte_of_Z (MessageKind.code (kind h))] bytes in
  let bytes := copy_at 6 (to_be_bytes 2 0) bytes in
  let bytes := copy_at 8 (to_be_bytes 2 (major (version h))) bytes in
  let bytes := copy_at 10 (to_be_bytes 2 (minor (version h))) bytes in
  let bytes := copy_at 12 (to_be_bytes 4 (payload_length h)) bytes in
  let bytes := copy_at 16 (connection_id h) bytes in
  copy_at 32 (to_be_bytes 8 (request_id h)) bytes.

Definition FrameHeader_decode (bytes : bytes) : result FrameError FrameHeader :=
  fail_if (negb (len bytes =? HEADER_BYTES)) Malformed;;
  fail_if (bool_decide (slice 0 4 bytes ≠ MAGIC)
           || bool_decide (slice 4 5 bytes ≠ [HEADER_VERSION])
           || bool_decide (slice 6 8 bytes ≠ [x00; x00])) InvalidHeader;;
  kind ← ok_or (MessageKind.from_u8 (from_be_bytes (slice 5 6 bytes))) InvalidHeader;
  let version := Version_new (from_be_bytes (slice 8 10 bytes)) (from_be_bytes (slice 10 12 bytes)) in
  let payload_length := from_be_bytes (slice 12 16 bytes) in
  let connection_id := slice 16 32 bytes in
  let request_id := from_be_bytes (slice 32 40 bytes) in
  payload_length ← ok_or (try_from 64 payload_length) TooLarge;
  FrameHeader_new kind version payload_length connection_id request_id.

Record Frame := { header : FrameHeader; payload : bytes }.
#[export] Instance Frame_eq_dec : EqDecision Frame.
Proof. solve_decision. Defined.

Definition Frame_new (h : FrameHeader) (p : bytes) : result FrameError Frame :=
  n ← ok_or (try_from 64 (payload_length h)) TooLarge;
  fail_if (negb (n =? len p)) Malformed;;
  mret {| header := h; payload := p |}.

Definition Frame_decode (bytes : bytes) : result FrameError Frame :=
  fail_if (len bytes <? HEADER_BYTES) Malformed;;
  h ← FrameHeader_decode (slice 0 40 bytes);
  n ← ok_or (try_from 64 (payload_length h)) TooLarge;
  total ← ok_or (checked_add 64 HEADER_BYTES n) TooLarge;
  fail_if (negb (len bytes =? total)) Malformed;;
  Frame_new h (drop 40 bytes).

Definition Frame_encode (f : Frame) : result FrameError bytes :=
  _ ← ok_or (checked_add 64 HEADER_BYTES (len (payload f))) TooLarge;
  mret (FrameHeader_encode (header f) ++ payload f).

(** ** Well-formed headers and frames *)

(** The per-kind sentinel rules of the protocol. *)
Definition kind_rule (h : FrameHeader) : Prop :=
  let anonymous := version h = Version_new 0 0 ∧ connection_id h = zeros 16 ∧ request_id h = 0 in
  let negotiated := version h ≠ Version_new 0 0 ∧ connection_id h ≠ zeros 16 in
  match kind h with
  | ClientHello => anonymous
  | ServerHello | Event => negotiated ∧ request_id h = 0
  | Request | Response => negotiated ∧ request_id h ≠ 0
  | Cancel => negotiated ∧ request_id h ≠ 0 ∧ payload_length h = 0
  end.

Record FrameHeader_wf (h : FrameHeader) : Prop := {
  fh_version : Version_typed (version h);
  fh_payload : 0 ≤ payload_length h ≤ MAX_PAYLOAD_BYTES;
  fh_connection : length (connection_id h) = 16%nat;
  fh_request : u64 (request_id h);
  fh_rule : kind_rule h;
}.

Record Frame_wf (f : Frame) : Prop := {
  fr_header : FrameHeader_wf (header f);
  fr_payload : payload_length (header f) = len (payload f);
}.

Lemma validate_kind_fields_Ok h : validate_kind_fields h = Ok tt ↔ kind_rule h.
Proof.
  unfold validate_kind_fields, kind_rule. rewrite fail_if_Ok, negb_false_iff.
  destruct (Z.eqb_spec (request_id h) 0), (Z.eqb_spec (payload_length h) 0);
    case_bool_decide; case_bool_decide; destruct (kind h); simpl; naive_solver.
Qed.

Lemma FrameHeader_new_Ok k v n c r h :
  Version_typed v → 0 ≤ n → length c = 16%nat → u64 r →
  FrameHeader_new k v n c r = Ok h ↔
    h = {| kind := k; version := v; payload_length := n; connection_id := c; request_id := r |}
    ∧ FrameHeader_wf h.
Proof.
  intros Hv Hn Hc Hr. unfold FrameHeader_new. split.
  - intros Hh. inv_ok Hh. simp_guards. subst.
    split; [done|]. split; simpl; try done. by apply validate_kind_fields_Ok.
  - intros [-> [? Hp ?? Hrule]]. simpl in *. unfold MAX_PAYLOAD_BYTES in *.
    destruct (Z.gtb_spec n 65536); [lia|]. simpl.
    rewrite try_from_uint by (unfold uint; lia). simpl.
    by rewrite (proj2 (validate_kind_fields_Ok _) Hrule).
Qed.

(** ** Header images *)

Lemma copy_at_app a old c src n :
  length a = n → length old = length src → copy_at n src (a ++ old ++ c) = a ++ src ++ c.
Proof.
  intros <- Hl. unfold copy_at. rewrite take_app_length. do 2 f_equal.
  rewrite (app_assoc a old), drop_app_length'; [done|]. rewrite length_app. lia.
Qed.

(** The header as the concatenation of its fields. *)
Definition header_image (k v0 v1 n c r : bytes) : bytes :=
  MAGIC ++ [HEADER_VERSION] ++ k ++ [x00; x00] ++ v0 ++ v1 ++ n ++ c ++ r.

Lemma FrameHeader_encode_image h :
  length (connection_id h) = 16%nat →
  FrameHeader_encode h =
    header_image [byte_of_Z (MessageKind.code (kind h))] (to_be_bytes 2 (major (version h)))
      (to_be_bytes 2 (minor (version h))) (to_be_bytes 4 (payload_length h)) (connection_id h)
      (to_be_bytes 8 (request_id h)).
Proof.
  intros Hc. unfold FrameHeader_encode, header_image. cbv zeta.
  change (zeros 40) with ([] ++ zeros 4 ++ zeros 36).
  rewrite copy_at_app by done. rewrite app_nil_l.
  change (zeros 36) with (zeros 1 ++ zeros 35). rewrite copy_at_app by done.
  change (zeros 35) with (zeros 1 ++ zeros 34). rewrite (app_assoc MAGIC), copy_at_app by done.
  change (zeros 34) with (zeros 2 ++ zeros 32).
  rewrite (app_assoc (MAGIC ++ _)), copy_at_app by done.
  change (zeros 32) with (zeros 2 ++ zeros 30). rewrite app_assoc, copy_at_app by done.
  change (zeros 30) with (zeros 2 ++ zeros 28). rewrite app_assoc, copy_at_app by done.
  change (zeros 28) with (zeros 4 ++ zeros 24). rewrite app_assoc, copy_at_app by done.
  change (zeros 24) with (zeros 16 ++ zeros 8). rewrite app_assoc, copy_at_app by (by rewrite ?Hc).
  change (zeros 8) with (zeros 8 ++ []). rewrite app_assoc, copy_at_app; [|by rewrite !length_app, Hc|done].
  rewrite !app_nil_r, <-!app_assoc. done.
Qed.

(** The fields of a 40-byte string. *)
Lemma split_slices l :
  length l = 40%nat →
  l = slice 0 4 l ++ slice 4 5 l ++ slice 5 6 l ++ slice 6 8 l ++ slice 8 10 l ++ slice 10 12 l
      ++ slice 12 16 l ++ slice 16 32 l ++ slice 32 40 l.
Proof. intros Hl. do 40 (destruct l as [|? l]; [done|]). by destruct l. Qed.

Lemma length_slice a b l : (b ≤ length l)%nat → length (slice a b l) = (b - a)%nat.
Proof. intros. unfold slice. rewrite length_take, length_drop. lia. Qed.

Lemma slice_image k v0 v1 n c r :
  length k = 1%nat → length v0 = 2%nat → length v1 = 2%nat → length n = 4%nat →
  length c = 16%nat → length r = 8%nat →
  let l := header_image k v0 v1 n c r in
  length l = 40%nat ∧ slice 0 4 l = MAGIC ∧ slice 4 5 l = [HEADER_VERSION] ∧ slice 5 6 l = k
  ∧ slice 6 8 l = [x00; x00] ∧ slice 8 10 l = v0 ∧ slice 10 12 l = v1 ∧ slice 12 16 l = n
  ∧ slice 16 32 l = c ∧ slice 32 40 l = r.
Proof.
  intros. unfold header_image.
  repeat match goal with
  | H : length ?x = S _ |- _ => destruct x as [|? x]; [done|]; injection H as H
  | H : length ?x = 0%nat |- _ => apply nil_length_inv in H as ->
  end. repeat split.
Qed.

Lemma from_be_one b : from_be_bytes [b] = Z_of_byte b.
Proof. done. Qed.

Lemma byte_of_from_be l : length l = 1%nat → [byte_of_Z (from_be_bytes l)] = l.
Proof. destruct l as [|b [|]]; try done. intros _. by rewrite from_be_one, byte_of_Z_of_byte. Qed.

Lemma FrameHeader_decode_encode h :
  FrameHeader_wf h → FrameHeader_decode (FrameHeader_encode h) = Ok h.
Proof.
  intros Hwf. pose proof Hwf as [[Hv0 Hv1] Hp Hc Hr _]. unfold uint, MAX_PAYLOAD_BYTES in *.
  rewrite FrameHeader_encode_image by done.
  destruct (slice_image [byte_of_Z (MessageKind.code (kind h))] (to_be_bytes 2 (major (version h)))
    (to_be_bytes 2 (minor (version h))) (to_be_bytes 4 (payload_length h)) (connection_id h)
    (to_be_bytes 8 (request_id h))) as (Hl & E1 & E2 & E3 & E4 & E5 & E6 & E7 & E8 & E9);
    try done.
  unfold FrameHeader_decode, len. rewrite Hl, E1, E2, E3, E4, E5, E6, E7, E8, E9.
  rewrite !from_to_be_bytes by (simpl; lia). rewrite from_be_one, Z_of_byte_of_Z.
  assert (MessageKind.code (kind h) mod 256 = MessageKind.code (kind h)) as ->
    by (by destruct (kind h)).
  change (MessageKind.from_u8 (MessageKind.code (kind h))) with (enum_from (enum_code (kind h))).
  rewrite (enum_from_code (w:=8)). rewrite !bool_decide_false by (intros Hne; by apply Hne). simpl.
  rewrite try_from_uint by (unfold uint; lia). simpl.
  apply FrameHeader_new_Ok; try done; [lia|]. split; [|done]. by destruct h as [? [] ? ? ?].
Qed.

Lemma uint_slice a n l :
  (a + n ≤ length l)%nat → uint (8 * Z.of_nat n) (from_be_bytes (slice a (a + n) l)).
Proof.
  intros. pose proof (from_be_bytes_range (slice a (a + n) l)) as Hr.
  rewrite (len_length _ n) in Hr by (rewrite length_slice; lia).
  change 256 with (2 ^ 8) in Hr. rewrite <-Z.pow_mul_r in Hr by lia. done.
Qed.

Lemma FrameHeader_decode_sound bs h :
  FrameHeader_decode bs = Ok h → FrameHeader_wf h ∧ FrameHeader_encode h = bs.
Proof.
  unfold FrameHeader_decode. intros Hh. inv_ok Hh. simp_guards. subst.
  assert (length bs = 40%nat) as Hl by (unfold len, HEADER_BYTES in *; lia).
  pose proof (uint_slice 12 4 bs) as Hn. pose proof (uint_slice 32 8 bs) as Hr.
  match goal with H : FrameHeader_new _ _ _ _ _ = Ok _ |- _ => apply FrameHeader_new_Ok in H as [-> Hwf] end.
  - split; [done|]. rewrite FrameHeader_encode_image by apply Hwf. simpl.
    match goal with H : MessageKind.from_u8 _ = Some ?k |- _ =>
      pose proof (enum_code_from (T:=MessageKind) (w:=8) _ _ H : MessageKind.code k = _) as Hk end.
    rewrite Hk, (to_from_be_bytes' 2), (to_from_be_bytes' 2), (to_from_be_bytes' 4), (to_from_be_bytes' 8)
      by (rewrite length_slice; lia).
    rewrite byte_of_from_be by (rewrite length_slice; lia).
    unfold header_image. rewrite (split_slices bs) at 7 by done. congruence.
  - split; [apply (uint_slice 8 2)|apply (uint_slice 10 2)]; lia.
  - apply Hn. lia.
  - rewrite length_slice; lia.
  - apply Hr. lia.
Qed.

Lemma FrameHeader_decode_iff bs h :
  FrameHeader_decode bs = Ok h ↔ FrameHeader_wf h ∧ FrameHeader_encode h = bs.
Proof.
  split; [apply FrameHeader_decode_sound|]. intros [Hwf <-]. by apply FrameHeader_decode_encode.
Qed.

Lemma length_FrameHeader_encode h : FrameHeader_wf h → length (FrameHeader_encode h) = 40%nat.
Proof.
  intros Hwf%FrameHeader_decode_encode. unfold FrameHeader_decode in Hwf. inv_ok Hwf. simp_guards.
  unfold len, HEADER_BYTES in *. lia.
Qed.

(** ** Frames *)

Lemma Frame_encode_wf f :
  Frame_wf f → Frame_encode f = Ok (FrameHeader_encode (header f) ++ payload f).
Proof.
  intros [[? [? ?] ? ? ?] Hp]. unfold Frame_encode, checked_add, max_of, HEADER_BYTES, MAX_PAYLOAD_BYTES in *.
  rewrite <-Hp. by destruct (Z.leb_spec (40 + payload_length (header f)) (2 ^ 64 - 1)); [|lia].
Qed.

Lemma Frame_new_Ok h p f :
  FrameHeader_wf h → Frame_new h p = Ok f ↔ f = {| header := h; payload := p |} ∧ Frame_wf f.
Proof.
  intros Hwf. pose proof (fh_payload h Hwf). unfold MAX_PAYLOAD_BYTES in *.
  unfold Frame_new. rewrite try_from_uint by (unfold uint; lia). simpl. split.
  - intros Hf. inv_ok Hf. simp_guards. by split.
  - intros [-> [_ Hp]]. simpl in Hp. by rewrite Hp, Z.eqb_refl.
Qed.

Lemma Frame_decode_iff bs f :
  Frame_decode bs = Ok f ↔ Frame_wf f ∧ Frame_encode f = Ok bs.
Proof.
  unfold Frame_decode. split.
  - intros Hf. inv_ok Hf. simp_guards. subst.
    match goal with H : FrameHeader_decode _ = Ok _ |- _ => apply FrameHeader_decode_iff in H as [Hwf Henc] end.
    match goal with H : Frame_new _ _ = Ok _ |- _ => apply Frame_new_Ok in H as [-> Hf]; [|done] end.
    split; [done|]. rewrite Frame_encode_wf by done. cbn [header payload].
    rewrite Henc. f_equal. apply take_drop.
  - intros [Hwf Henc]. rewrite Frame_encode_wf in Henc by done. apply Ok_inj in Henc as <-.
    pose proof (length_FrameHeader_encode _ (fr_header f Hwf)) as Hl.
    assert (slice 0 40 (FrameHeader_encode (header f) ++ payload f) = FrameHeader_encode (header f)) as ->.
    { unfold slice. by rewrite drop_0, take_app_length' by (by rewrite Hl). }
    rewrite drop_app_length' by (by rewrite Hl).
    rewrite FrameHeader_decode_encode by apply Hwf.
    destruct Hwf as [Hwf Hp]. pose proof (fh_payload _ Hwf). unfold MAX_PAYLOAD_BYTES, HEADER_BYTES in *.
    rewrite len_app, (len_length _ _ Hl).
    rewrite (proj2 (Z.ltb_ge _ _)) by (pose proof (len_nonneg (payload f)); lia). cbn [fail_if mbind result_bind].
    rewrite try_from_uint by (unfold uint; lia). cbn [ok_or mbind result_bind].
    unfold checked_add, max_of. rewrite (proj2 (Z.leb_le _ _)) by lia. cbn [ok_or mbind result_bind].
    change (Z.of_nat 40) with 40. rewrite Hp, Z.eqb_refl. cbn [negb fail_if mbind result_bind].
    apply Frame_new_Ok; [done|]. split; [by destruct f|done].
Qed.

Lemma FrameHeader_new_not_Panic k v n c r : FrameHeader_new k v n c r ≠ Panic.
Proof. unfold FrameHeader_new, validate_kind_fields. no_panic. Qed.
#[export] Hint Resolve FrameHeader_new_not_Panic : panic.

Lemma Frame_decode_not_Panic bs : Frame_decode bs ≠ Panic.
Proof. unfold Frame_decode, FrameHeader_decode, Frame_new. no_panic. Qed.

(** Truncation and trailing bytes *)

Lemma Frame_wf_total f bs :
  Frame_wf f → Frame_encode f = Ok bs →
  ∃ h, length h = 40%nat ∧ bs = h ++ payload f ∧ FrameHeader_decode h = Ok (header f)
  ∧ len bs = 40 + payload_length (header f).
Proof.
  intros Hwf Henc. rewrite Frame_encode_wf in Henc by done. apply Ok_inj in Henc as <-.
  exists (FrameHeader_encode (header f)).
  pose proof (length_FrameHeader_encode _ (fr_header f Hwf)) as Hl. split_and!; try done.
  - apply FrameHeader_decode_encode, Hwf.
  - rewrite len_app, (len_length _ _ Hl), (fr_payload f Hwf). done.
Qed.

(** Input that starts with a whole header is accepted only at its exact length. *)
Lemma Frame_decode_length h rest fh :
  length h = 40%nat → FrameHeader_decode h = Ok fh → len rest ≠ payload_length fh →
  Frame_decode (h ++ rest) = Err Malformed.
Proof.
  intros Hl Hh Hne. pose proof (proj1 (proj1 (FrameHeader_decode_iff _ _) Hh)) as Hwf.
  pose proof (fh_payload _ Hwf). unfold Frame_decode, HEADER_BYTES, MAX_PAYLOAD_BYTES in *.
  rewrite len_app, (len_length _ _ Hl).
  rewrite (proj2 (Z.ltb_ge _ _)) by (pose proof (len_nonneg rest); lia). cbn [fail_if mbind result_bind].
  unfold slice. rewrite drop_0, take_app_length' by (by rewrite Hl).
  rewrite Hh. cbn [mbind result_bind]. rewrite try_from_uint by (unfold uint; lia).
  cbn [ok_or mbind result_bind]. unfold checked_add, max_of. rewrite (proj2 (Z.leb_le _ _)) by lia.
  cbn [ok_or mbind result_bind]. by rewrite (proj2 (Z.eqb_neq _ _)) by lia.
Qed.

Lemma Frame_decode_short bs : len bs < HEADER_BYTES → Frame_decode bs = Err Malformed.
Proof. intros. unfold Frame_decode. by rewrite (proj2 (Z.ltb_lt _ _)). Qed.

(** The frame decoder accepts exactly the encodings of well-formed frames,
    each for one frame: an accepted input satisfies the size bound, the per-kind
    sentinel rules and the payload length, and is byte for byte what the encoder
    writes for the frame it returns; and every well-formed frame survives the
    trip. *)
Theorem frame_wire_exact bs f :
  Frame_decode bs = Ok f ↔ Frame_wf f ∧ Frame_encode f = Ok bs.
Proof. apply Frame_decode_iff. Qed.

(** Frames are not resynchronized: of a frame's encoding, every proper
    prefix and every extension by trailing bytes is refused as malformed. *)
Theorem frame_no_resync f bs :
  Frame_wf f → Frame_encode f = Ok bs →
  (∀ extra, extra ≠ [] → Frame_decode (bs ++ extra) = Err Malformed) ∧
  (∀ n, (n < length bs)%nat → Frame_decode (take n bs) = Err Malformed).
Proof.
  intros Hwf Henc. destruct (Frame_wf_total f bs Hwf Henc) as (h & Hl & -> & Hh & Hlen).
  pose proof (fr_payload f Hwf) as Hp. split.
  - intros [|b extra] Hne; [done|]. rewrite <-app_assoc. apply (Frame_decode_length _ _ _ Hl Hh).
    rewrite len_app, len_cons. pose proof (len_nonneg extra). lia.
  - intros n Hn. destruct (decide (n < 40)%nat).
    + apply Frame_decode_short. unfold len, HEADER_BYTES. rewrite length_take. lia.
    + rewrite take_app_ge, Hl by lia. apply (Frame_decode_length _ _ _ Hl Hh).
      rewrite length_app in Hn. unfold len in *. rewrite length_take. lia.
Qed.

(** ** Examples *)

Definition example_frame : Frame :=
  {| header := {| kind := Event; version := Version_new 1 3; payload_length := 2;
                  connection_id := replicate 16 x05; request_id := 0 |};
     payload := [x01; x02] |}.

Lemma example_frame_wf : Frame_wf example_frame.
Proof.
  split; [|done]. split; simpl; unfold Version_typed, uint, MAX_PAYLOAD_BYTES; simpl; try (split; done || lia); try lia; try done.
Qed.

Lemma frame_no_resync_witness :
  ∃ bs, Frame_encode example_frame = Ok bs ∧ Frame_decode (bs ++ [x00]) = Err Malformed.
Proof.
  eexists. split; [reflexivity|].
  apply (frame_no_resync example_frame _ example_frame_wf eq_refl). discriminate.
Defined.
