(* ===== verification/Message.v ===== *)
(** * Handshake, discovery and envelope payloads
    ([crates/agent-protocol/src/message.rs])

    Five payload types.  Each has its constructor with the checks of the
    source, its encoder as a program of CBOR items, and its decoder, which
    reads the items, checks the end of the input, calls the constructor and
    compares the re-encoding with the input. *)

From S2P Require Import Prelude RustStd Cbor Wire Types.

Definition MAX_FEATURES : Z := 16.
Definition MAX_PIPE_NAME_BYTES : Z := 512.
Definition MAX_PACKAGE_NAME_BYTES : Z := 256.
Definition MAX_REQUEST_BODY_BYTES : Z := MAX_PAYLOAD_BYTES - 128.
Definition MAX_RESPONSE_BODY_BYTES : Z := MAX_PAYLOAD_BYTES - 96.
Definition ENDPOINT_SCHEMA : Z := 1.
#[export] Hint Unfold MAX_FEATURES MAX_PIPE_NAME_BYTES MAX_PACKAGE_NAME_BYTES
  MAX_REQUEST_BODY_BYTES MAX_RESPONSE_BODY_BYTES ENDPOINT_SCHEMA : limits.

Module ProtocolError.
Inductive t := TooLarge | Malformed | NonCanonical | Unsupported | InvariantViolation.
#[global] Instance t_eq_dec : EqDecision t.
Proof. solve_decision. Defined.
End ProtocolError.
Abbreviation ProtocolError := ProtocolError.t.
Import ProtocolError.

#[export] Instance ProtocolError_wire : WireError ProtocolError :=
  {| e_malformed := Malformed; e_too_large := TooLarge; e_non_canonical := NonCanonical |}.

(** [u64::try_from(n).unwrap_or(u64::MAX)] *)
Definition saturating_u64 (n : Z) : Z := default (max_of 64) (try_from 64 n).

(** [T::from_u64(u64::from(value)).ok_or(Unsupported)] *)
Definition decode_enum {T} `{WireEnum T} (value : Z) : result ProtocolError T :=
  ok_or (enum_from value) Unsupported.

(** [!(MIN_NEGOTIATED_PAYLOAD_BYTES..=MAX_PAYLOAD_BYTES).contains(&maximum)],
    with the conversion to [usize] before it. *)
Definition payload_limit_invalid (maximum : Z) : bool :=
  match try_from 64 maximum with
  | None => true
  | Some maximum =>
      negb ((MIN_NEGOTIATED_PAYLOAD_BYTES <=? maximum) && (maximum <=? MAX_PAYLOAD_BYTES))
  end.

(** ** Client hello *)

Record ClientHello := {
  client_nonce : bytes;
  minimum : Version;
  maximum : Version;
  claimed_role : ClientRole;
  component_build_id : bytes;
  required_features : list Z;
}.
#[export] Instance ClientHello_eq_dec : EqDecision ClientHello.
Proof. solve_decision. Defined.

Definition ClientHello_new (nonce : bytes) (min max : Version) (role : ClientRole)
    (build : bytes) (features : list Z) : result ProtocolError ClientHello :=
  fail_if (bool_decide (nonce = zeros 32)
    || bool_decide (build = zeros 32)
    || (major min =? 0)
    || (major max =? 0)
    || Version_ltb max min
    || (len features >? MAX_FEATURES)
    || adjacent_any Z.geb features) InvariantViolation;;
  mret {| client_nonce := nonce; minimum := min; maximum := max; claimed_role := role;
          component_build_id := build; required_features := features |}.

(** ** Server hello *)

Record ServerHello := {
  server_nonce : bytes;
  selected_version : Version;
  derived_role : ClientRole;
  granted_features : list Z;
  maximum_payload_bytes : Z;
  maximum_in_flight : Z;
  agent_state : AgentState;
  unlock_epoch : Z;
}.
#[export] Instance ServerHello_eq_dec : EqDecision ServerHello.
Proof. solve_decision. Defined.

Definition ServerHello_new (nonce : bytes) (version : Version) (role : ClientRole)
    (features : list Z) (payload in_flight : Z) (state : AgentState) (epoch : Z) :
    result ProtocolError ServerHello :=
  fail_if (bool_decide (nonce = zeros 32)
    || (major version =? 0)
    || (len features >? MAX_FEATURES)
    || adjacent_any Z.geb features
    || (payload =? 0)
    || payload_limit_invalid payload
    || (in_flight =? 0)
    || (in_flight >? MAX_IN_FLIGHT_PER_CONNECTION)) InvariantViolation;;
  mret {| server_nonce := nonce; selected_version := version; derived_role := role;
          granted_features := features; maximum_payload_bytes := payload;
          maximum_in_flight := in_flight; agent_state := state; unlock_epoch := epoch |}.

(** ** Endpoint descriptor *)

Record EndpointDescriptor := {
  pipe_name : bytes;
  agent_process_id : Z;
  agent_process_creation_time : Z;
  package_full_name : bytes;
  minimum_major : Z;
  maximum_major : Z;
  startup_nonce : bytes;
}.
#[export] Instance EndpointDescriptor_eq_dec : EqDecision EndpointDescriptor.
Proof. solve_decision. Defined.

(** ** Request envelope *)

Record RequestEnvelope := {
  re_operation : OperationCode;
  re_unlock_epoch : Z;
  re_timeout_ms : Z;
  re_idempotency_key : option bytes;
  re_body : bytes;
}.
#[export] Instance RequestEnvelope_eq_dec : EqDecision RequestEnvelope.
Proof. solve_decision. Defined.

Definition RequestEnvelope_new (operation : OperationCode) (unlock_epoch timeout_ms : Z)
    (idempotency_key : option bytes) (body : bytes) : result ProtocolError RequestEnvelope :=
  fail_if ((timeout_ms =? 0)
    || (len body >? MAX_REQUEST_BODY_BYTES)
    || (bool_decide (is_Some idempotency_key)
        && negb (OperationCode.requires_idempotency_key operation))) InvariantViolation;;
  mret {| re_operation := operation; re_unlock_epoch := unlock_epoch; re_timeout_ms := timeout_ms;
          re_idempotency_key := idempotency_key; re_body := body |}.

(** ** Response envelope *)

Record ResponseEnvelope := {
  rs_error : option PublicErrorCode;
  rs_retry : RetryCategory;
  rs_correlation_id : bytes;
  rs_body : bytes;
}.
#[export] Instance ResponseEnvelope_eq_dec : EqDecision ResponseEnvelope.
Proof. solve_decision. Defined.

Definition ResponseEnvelope_new (error : option PublicErrorCode) (retry : RetryCategory)
    (correlation_id body : bytes) : result ProtocolError ResponseEnvelope :=
  fail_if ((len body >? MAX_RESPONSE_BODY_BYTES)
    || (bool_decide (is_Some error) && negb (is_empty body))
    || (bool_decide (error = None) && bool_decide (retry ≠ Never))
    || bool_decide (correlation_id = zeros 16)) InvariantViolation;;
  mret {| rs_error := error; rs_retry := retry; rs_correlation_id := correlation_id;
          rs_body := body |}.

Definition ResponseEnvelope_success (correlation_id body : bytes) :
    result ProtocolError ResponseEnvelope :=
  ResponseEnvelope_new None Never correlation_id body.

Definition ResponseEnvelope_failure (error : PublicErrorCode) (retry : RetryCategory)
    (correlation_id : bytes) : result ProtocolError ResponseEnvelope :=
  ResponseEnvelope_new (Some error) retry correlation_id [].

Definition encoded_byte_string_len (length : Z) : Z :=
  let header :=
    if length <? 24 then 1
    else if bool_decide (is_Some (try_from 8 length)) then 2
    else if bool_decide (is_Some (try_from 16 length)) then 3
    else if bool_decide (is_Some (try_from 32 length)) then 5
    else 9 in
  header + length.

Definition ResponseEnvelope_encoded_len (r : ResponseEnvelope) : Z :=
  let FIXED_BYTES := 20 in
  FIXED_BYTES + encoded_byte_string_len (len (rs_body r)).

Section codecs.
Context `{Minicbor}.

Definition ClientHello_encode (h : ClientHello) : bytes :=
  vec_encode (
    encode_array 8 ++
    encode_bytes (client_nonce h) ++
    encode_u16 (major (minimum h)) ++
    encode_u16 (major (maximum h)) ++
    encode_u16 (minor (minimum h)) ++
    encode_u16 (minor (maximum h)) ++
    encode_u8 (ClientRole_code (claimed_role h)) ++
    encode_bytes (component_build_id h) ++
    encode_array (saturating_u64 (len (required_features h))) ++
    concat (encode_u16 <$> required_features h)).

Definition ClientHello_decode (bytes : bytes) : result ProtocolError ClientHello :=
  fail_if (len bytes >? MAX_PAYLOAD_BYTES) TooLarge;;
  run_decoder (
    expect_array 8;;
    client_nonce ← decode_fixed_bytes 32;
    minimum_major ← decode_u16;
    maximum_major ← decode_u16;
    minimum_minor ← decode_u16;
    maximum_minor ← decode_u16;
    role ← decode_u8;
    claimed_role ← lift (decode_enum role);
    component_build_id ← decode_fixed_bytes 32;
    feature_count ← decode_array_length MAX_FEATURES;
    features ← decode_times (Z.to_nat feature_count) decode_u16;
    at_end bytes;;
    hello ← lift (ClientHello_new client_nonce (Version_new minimum_major minimum_minor)
      (Version_new maximum_major maximum_minor) claimed_role component_build_id features);
    lift (canonical (ClientHello_encode hello) bytes);;
    mret hello) bytes.

Definition ServerHello_encode (h : ServerHello) : bytes :=
  vec_encode (
    encode_array 9 ++
    encode_bytes (server_nonce h) ++
    encode_u16 (major (selected_version h)) ++
    encode_u16 (minor (selected_version h)) ++
    encode_u8 (ClientRole_code (derived_role h)) ++
    encode_array (saturating_u64 (len (granted_features h))) ++
    concat (encode_u16 <$> granted_features h) ++
    encode_u32 (maximum_payload_bytes h) ++
    encode_u8 (maximum_in_flight h) ++
    encode_u8 (AgentState_code (agent_state h)) ++
    encode_u64 (unlock_epoch h)).

Definition ServerHello_decode (bytes : bytes) : result ProtocolError ServerHello :=
  fail_if (len bytes >? MAX_PAYLOAD_BYTES) TooLarge;;
  run_decoder (
    expect_array 9;;
    server_nonce ← decode_fixed_bytes 32;
    version_major ← decode_u16;
    version_minor ← decode_u16;
    role ← decode_u8;
    role ← lift (decode_enum role);
    feature_count ← decode_array_length MAX_FEATURES;
    features ← decode_times (Z.to_nat feature_count) decode_u16;
    maximum_payload_bytes ← decode_u32;
    maximum_in_flight ← decode_u8;
    agent_state ← decode_u8;
    agent_state ← lift (decode_enum agent_state);
    unlock_epoch ← decode_u64;
    at_end bytes;;
    hello ← lift (ServerHello_new server_nonce (Version_new version_major version_minor) role
      features maximum_payload_bytes maximum_in_flight agent_state unlock_epoch);
    lift (canonical (ServerHello_encode hello) bytes);;
    mret hello) bytes.

Definition EndpointDescriptor_encode (d : EndpointDescriptor) : bytes :=
  vec_encode (
    encode_array 8 ++
    encode_u8 ENDPOINT_SCHEMA ++
    encode_text (pipe_name d) ++
    encode_u32 (agent_process_id d) ++
    encode_u64 (agent_process_creation_time d) ++
    encode_text (package_full_name d) ++
    encode_u16 (minimum_major d) ++
    encode_u16 (maximum_major d) ++
    encode_bytes (startup_nonce d)).

Definition EndpointDescriptor_new (pipe : bytes) (process_id creation_time : Z)
    (package : bytes) (min max : Z) (nonce : bytes) : result ProtocolError EndpointDescriptor :=
  fail_if (is_empty pipe
    || (len pipe >? MAX_PIPE_NAME_BYTES)
    || is_empty package
    || (len package >? MAX_PACKAGE_NAME_BYTES)
    || (process_id =? 0)
    || (creation_time =? 0)
    || (min =? 0)
    || (min >? max)
    || bool_decide (nonce = zeros 32)) InvariantViolation;;
  let descriptor :=
    {| pipe_name := pipe; agent_process_id := process_id;
       agent_process_creation_time := creation_time; package_full_name := package;
       minimum_major := min; maximum_major := max; startup_nonce := nonce |} in
  fail_if (len (EndpointDescriptor_encode descriptor) >? MAX_ENDPOINT_DESCRIPTOR_BYTES) TooLarge;;
  mret descriptor.

Definition EndpointDescriptor_decode (bytes : bytes) : result ProtocolError EndpointDescriptor :=
  fail_if (len bytes >? MAX_ENDPOINT_DESCRIPTOR_BYTES) TooLarge;;
  run_decoder (
    expect_array 8;;
    schema ← decode_u8;
    lift (fail_if (negb (schema =? ENDPOINT_SCHEMA)) Unsupported);;
    pipe_name ← decode_bounded_text MAX_PIPE_NAME_BYTES;
    process_id ← decode_u32;
    creation_time ← decode_u64;
    package ← decode_bounded_text MAX_PACKAGE_NAME_BYTES;
    minimum ← decode_u16;
    maximum ← decode_u16;
    nonce ← decode_fixed_bytes 32;
    at_end bytes;;
    descriptor ← lift (EndpointDescriptor_new pipe_name process_id creation_time package
      minimum maximum nonce);
    lift (canonical (EndpointDescriptor_encode descriptor) bytes);;
    mret descriptor) bytes.

Definition RequestEnvelope_encode (r : RequestEnvelope) : result ProtocolError bytes :=
  bytes ← secret_encode MAX_PAYLOAD_BYTES (
    encode_array 5 ++
    encode_u16 (OperationCode.code (re_operation r)) ++
    encode_u64 (re_unlock_epoch r) ++
    encode_u32 (re_timeout_ms r) ++
    match re_idempotency_key r with
    | Some key => encode_bytes key
    | None => encode_null
    end ++
    encode_bytes (re_body r));
  fail_if (len bytes >? MAX_PAYLOAD_BYTES) TooLarge;;
  mret bytes.

Definition RequestEnvelope_decode (bytes : bytes) : result ProtocolError RequestEnvelope :=
  fail_if (len bytes >? MAX_PAYLOAD_BYTES) TooLarge;;
  run_decoder (
    expect_array 5;;
    operation ← decode_u16;
    operation ← lift (decode_enum operation);
    unlock_epoch ← decode_u64;
    timeout_ms ← decode_u32;
    idempotency_key ← decode_optional_fixed_bytes 16;
    body ← decode_bounded_bytes MAX_REQUEST_BODY_BYTES;
    at_end bytes;;
    request ← lift (RequestEnvelope_new operation unlock_epoch timeout_ms idempotency_key body);
    image ← lift (RequestEnvelope_encode request);
    lift (canonical image bytes);;
    mret request) bytes.

Definition RequestEnvelope_peek_operation (bytes : bytes) : result ProtocolError OperationCode :=
  fail_if (len bytes >? MAX_PAYLOAD_BYTES) TooLarge;;
  run_decoder (
    expect_array 5;;
    operation ← decode_u16;
    lift (decode_enum operation)) bytes.

Definition ResponseEnvelope_encode (r : ResponseEnvelope) : result ProtocolError bytes :=
  bytes ← secret_encode MAX_PAYLOAD_BYTES (
    encode_array 4 ++
    encode_u8 (from_option PublicErrorCode.code 0 (rs_error r)) ++
    encode_u8 (RetryCategory_code (rs_retry r)) ++
    encode_bytes (rs_correlation_id r) ++
    encode_bytes (rs_body r));
  fail_if (len bytes >? MAX_PAYLOAD_BYTES) TooLarge;;
  mret bytes.

Definition ResponseEnvelope_decode (bytes : bytes) : result ProtocolError ResponseEnvelope :=
  fail_if (len bytes >? MAX_PAYLOAD_BYTES) TooLarge;;
  run_decoder (
    expect_array 4;;
    raw_error ← decode_u8;
    error ← lift (if raw_error =? 0 then Ok None
                  else error ← decode_enum raw_error; mret (Some error));
    retry ← decode_u8;
    retry ← lift (decode_enum retry);
    correlation_id ← decode_fixed_bytes 16;
    body ← decode_bounded_bytes MAX_RESPONSE_BODY_BYTES;
    at_end bytes;;
    response ← lift (ResponseEnvelope_new error retry correlation_id body);
    image ← lift (ResponseEnvelope_encode response);
    lift (canonical image bytes);;
    mret response) bytes.
End codecs.

(** ** Valid values

    The fields have their Rust types, and the constructor accepts them. *)

(** A feature list: [u16] codes, strictly increasing, at most sixteen. *)
Record features_wf (l : list Z) : Prop := {
  fw_typed : Forall u16 l;
  fw_increasing : increasing l;
  fw_count : len l ≤ MAX_FEATURES;
}.

Record ClientHello_wf (h : ClientHello) : Prop := {
  ch_nonce : length (client_nonce h) = 32%nat ∧ client_nonce h ≠ zeros 32;
  ch_build : length (component_build_id h) = 32%nat ∧ component_build_id h ≠ zeros 32;
  ch_typed : Version_typed (minimum h) ∧ Version_typed (maximum h);
  ch_majors : major (minimum h) ≠ 0 ∧ major (maximum h) ≠ 0;
  ch_range : ¬ Version_lt (maximum h) (minimum h);
  ch_features : features_wf (required_features h);
}.

Record ServerHello_wf (h : ServerHello) : Prop := {
  sh_nonce : length (server_nonce h) = 32%nat ∧ server_nonce h ≠ zeros 32;
  sh_version : Version_typed (selected_version h) ∧ major (selected_version h) ≠ 0;
  sh_features : features_wf (granted_features h);
  sh_payload : MIN_NEGOTIATED_PAYLOAD_BYTES ≤ maximum_payload_bytes h ≤ MAX_PAYLOAD_BYTES;
  sh_in_flight : 1 ≤ maximum_in_flight h ≤ MAX_IN_FLIGHT_PER_CONNECTION;
  sh_epoch : u64 (unlock_epoch h);
}.

Record EndpointDescriptor_wf (d : EndpointDescriptor) : Prop := {
  ed_pipe : pipe_name d ≠ [] ∧ len (pipe_name d) ≤ MAX_PIPE_NAME_BYTES ∧ text (pipe_name d);
  ed_package : package_full_name d ≠ [] ∧ len (package_full_name d) ≤ MAX_PACKAGE_NAME_BYTES
    ∧ text (package_full_name d);
  ed_process : u32 (agent_process_id d) ∧ agent_process_id d ≠ 0;
  ed_creation : u64 (agent_process_creation_time d) ∧ agent_process_creation_time d ≠ 0;
  ed_majors : u16 (maximum_major d) ∧ 1 ≤ minimum_major d ≤ maximum_major d;
  ed_nonce : length (startup_nonce d) = 32%nat ∧ startup_nonce d ≠ zeros 32;
}.

Record RequestEnvelope_wf (r : RequestEnvelope) : Prop := {
  rq_epoch : u64 (re_unlock_epoch r);
  rq_timeout : u32 (re_timeout_ms r) ∧ re_timeout_ms r ≠ 0;
  rq_key : ∀ key, re_idempotency_key r = Some key →
    length key = 16%nat ∧ OperationCode.requires_idempotency_key (re_operation r) = true;
  rq_body : len (re_body r) ≤ MAX_REQUEST_BODY_BYTES;
}.

Record ResponseEnvelope_wf (r : ResponseEnvelope) : Prop := {
  rp_body : len (rs_body r) ≤ MAX_RESPONSE_BODY_BYTES;
  rp_error : ∀ e, rs_error r = Some e → rs_body r = [];
  rp_success : rs_error r = None → rs_retry r = Never;
  rp_correlation : length (rs_correlation_id r) = 16%nat ∧ rs_correlation_id r ≠ zeros 16;
}.

(** ** Constructors *)

(** [guard_false] proves that a guard of a constructor does not fire. *)
Ltac guard_false :=
  repeat first
    [ guard_step
    | match goal with
      | |- adjacent_any Z.geb _ = false => apply adjacent_geb_false
      | |- Version_ltb _ _ = false => apply Version_ltb_ge
      end ].

Lemma ClientHello_new_Ok nonce min max role build features h :
  length nonce = 32%nat → length build = 32%nat → Version_typed min → Version_typed max →
  Forall u16 features →
  ClientHello_new nonce min max role build features = Ok h ↔
    h = {| client_nonce := nonce; minimum := min; maximum := max; claimed_role := role;
           component_build_id := build; required_features := features |} ∧ ClientHello_wf h.
Proof.
  intros. unfold ClientHello_new. rewrite bind_Ok. split.
  - intros (u & Hg & Hh). inv_ok Hg. inv_ok Hh. simp_guards. split; [done|].
    split; simpl; try done.
    + by apply Version_ltb_ge.
    + split; [done| by apply adjacent_geb_false|done].
  - intros [-> [[] [] ? [] ? []]]. simpl in *. exists tt. split; [|done].
    apply fail_if_Ok. guard_false; done.
Qed.

Lemma payload_limit_invalid_false n :
  payload_limit_invalid n = false ↔ MIN_NEGOTIATED_PAYLOAD_BYTES ≤ n ≤ MAX_PAYLOAD_BYTES.
Proof.
  unfold payload_limit_invalid, MIN_NEGOTIATED_PAYLOAD_BYTES, MAX_PAYLOAD_BYTES. split.
  - destruct (try_from 64 n) eqn:?; [|done]. intros. simp_guards. by subst.
  - intros. rewrite try_from_uint by (unfold uint; lia).
    by rewrite (proj2 (Z.leb_le _ _)), (proj2 (Z.leb_le _ _)) by lia.
Qed.

Lemma ServerHello_new_Ok nonce version role features payload in_flight state epoch h :
  length nonce = 32%nat → Version_typed version → Forall u16 features → u8 in_flight → u64 epoch →
  ServerHello_new nonce version role features payload in_flight state epoch = Ok h ↔
    h = {| server_nonce := nonce; selected_version := version; derived_role := role;
           granted_features := features; maximum_payload_bytes := payload;
           maximum_in_flight := in_flight; agent_state := state; unlock_epoch := epoch |}
    ∧ ServerHello_wf h.
Proof.
  intros ??? Hfl ?. unfold ServerHello_new. rewrite bind_Ok. split.
  - intros (u & Hg & Hh). inv_ok Hg. inv_ok Hh. simp_guards. split; [done|].
    split; simpl; try done.
    + split; [done| by apply adjacent_geb_false|done].
    + by apply payload_limit_invalid_false.
    + unfold uint in Hfl. lia.
  - intros [-> [[] [] [] ? ? ?]]. simpl in *. exists tt. split; [|done].
    unfold MIN_NEGOTIATED_PAYLOAD_BYTES in *.
    apply fail_if_Ok. guard_false; try done; try lia. by apply payload_limit_invalid_false.
Qed.

Lemma RequestEnvelope_new_Ok operation epoch timeout key body r :
  u64 epoch → u32 timeout → (∀ k, key = Some k → length k = 16%nat) →
  RequestEnvelope_new operation epoch timeout key body = Ok r ↔
    r = {| re_operation := operation; re_unlock_epoch := epoch; re_timeout_ms := timeout;
           re_idempotency_key := key; re_body := body |} ∧ RequestEnvelope_wf r.
Proof.
  intros ?? Hkey. unfold RequestEnvelope_new. rewrite bind_Ok. split.
  - intros (u & Hg & Hr). inv_ok Hg. inv_ok Hr. simp_guards. split; [done|].
    split; simpl; try done. intros k ->. split; [by apply Hkey|].
    rewrite bool_decide_true in * by eauto. by apply negb_false_iff.
  - intros [-> [? [] Hk ?]]. simpl in *. exists tt. split; [|done].
    apply fail_if_Ok. guard_false; try done.
    destruct key as [k|]; [right; apply negb_false_iff; by eapply Hk|].
    left. apply bool_decide_eq_false. by intros [].
Qed.

Lemma ResponseEnvelope_new_Ok error retry correlation body r :
  length correlation = 16%nat →
  ResponseEnvelope_new error retry correlation body = Ok r ↔
    r = {| rs_error := error; rs_retry := retry; rs_correlation_id := correlation;
           rs_body := body |} ∧ ResponseEnvelope_wf r.
Proof.
  intros ?. unfold ResponseEnvelope_new. rewrite bind_Ok. split.
  - intros (u & Hg & Hr). inv_ok Hg. inv_ok Hr. simp_guards. split; [done|].
    split; simpl; try done.
    + intros e ->. rewrite bool_decide_true in * by eauto. by destruct body.
    + intros ->. rewrite bool_decide_true in * by done. simpl in *. simp_guards. done.
  - intros [-> [? He Hs []]]. simpl in *. exists tt. split; [|done].
    apply fail_if_Ok. destruct error as [e|]; guard_false; try done.
    + right. by rewrite (He e).
    + by left.
    + by left.
    + right. rewrite (Hs eq_refl). reflexivity.
Qed.

Lemma decode_enum_code {T} `{WireEnumLaws T w} (x : T) : decode_enum (enum_code x) = Ok x.
Proof. unfold decode_enum. by rewrite enum_from_code. Qed.

Lemma decode_enum_not_Panic {T} `{WireEnum T} v : decode_enum (T:=T) v ≠ Panic.
Proof. apply ok_or_not_Panic. Qed.
#[export] Hint Resolve decode_enum_not_Panic : panic.

Lemma saturating_u64_id n : u64 n → saturating_u64 n = n.
Proof. intros. unfold saturating_u64. by rewrite try_from_uint. Qed.

Lemma u16_each f : Forall u16 f → ∀ a, a ∈ f → u16 a.
Proof. intros Hf. by apply Forall_forall. Qed.

#[export] Hint Resolve parses_decode_u16 u16_each : parse.
#[export] Hint Extern 2 (decode_enum (ClientRole_code _) = Ok _) =>
  exact (decode_enum_code (w:=8) (T:=ClientRole) _) : parse.
#[export] Hint Extern 2 (decode_enum (AgentState_code _) = Ok _) =>
  exact (decode_enum_code (w:=8) (T:=AgentState) _) : parse.
#[export] Hint Extern 2 (decode_enum (OperationCode.code _) = Ok _) =>
  exact (decode_enum_code (w:=16) (T:=OperationCode) _) : parse.
#[export] Hint Extern 2 (decode_enum (RetryCategory_code _) = Ok _) =>
  exact (decode_enum_code (w:=8) (T:=RetryCategory) _) : parse.
#[export] Hint Extern 2 (uint 8 (ClientRole_code ?x)) =>
  exact (enum_code_range (w:=8) (T:=ClientRole) x) : parse.
#[export] Hint Extern 2 (uint 8 (AgentState_code ?x)) =>
  exact (enum_code_range (w:=8) (T:=AgentState) x) : parse.
#[export] Hint Extern 2 (uint 16 (OperationCode.code ?x)) =>
  exact (enum_code_range (w:=16) (T:=OperationCode) x) : parse.
#[export] Hint Extern 2 (uint 8 (RetryCategory_code ?x)) =>
  exact (enum_code_range (w:=8) (T:=RetryCategory) x) : parse.

Section codec_facts.
Context `{MinicborLaws}.

Lemma ClientHello_image h :
  ClientHello_wf h →
  ClientHello_encode h = wire (
    encode_array 8 ++ encode_bytes (client_nonce h) ++ encode_u16 (major (minimum h)) ++
    encode_u16 (major (maximum h)) ++ encode_u16 (minor (minimum h)) ++
    encode_u16 (minor (maximum h)) ++ encode_u8 (ClientRole_code (claimed_role h)) ++
    encode_bytes (component_build_id h) ++ encode_array (len (required_features h)) ++
    concat (encode_u16 <$> required_features h)).
Proof.
  intros Hwf. pose proof (fw_count _ (ch_features h Hwf)). unfold MAX_FEATURES in *.
  unfold ClientHello_encode. rewrite vec_encode_concat, saturating_u64_id; [done|].
  unfold uint. pose proof (len_nonneg (required_features h)). lia.
Qed.

Lemma len_features f : features_wf f → len (wire (concat (encode_u16 <$> f))) ≤ 48.
Proof.
  intros [Hf _ Hc]. unfold MAX_FEATURES in *.
  pose proof (len_each_le encode_u16 3 f) as Hl. etrans; [apply Hl|lia].
  intros a Ha. apply (u16_each _ Hf) in Ha. wire_size. head_bounds_tight. solve_size.
Qed.

Lemma len_ClientHello h : ClientHello_wf h → len (ClientHello_encode h) ≤ MAX_PAYLOAD_BYTES.
Proof.
  intros Hwf. rewrite ClientHello_image by done. pose proof Hwf as [[] [] [[] []] _ _ Hf].
  pose proof (len_features _ Hf). destruct Hf as [_ _ Hc].
  wire_size. head_bounds. solve_size.
Qed.

Lemma ClientHello_decode_encode h :
  ClientHello_wf h → ClientHello_decode (ClientHello_encode h) = Ok h.
Proof.
  intros Hwf. pose proof (len_ClientHello h Hwf). unfold ClientHello_decode.
  rewrite fail_if_small by done. cbn [mbind result_bind].
  pose proof Hwf as [[] [] [[] []] _ _ [? _ Hc]].
  assert (ClientHello_new (client_nonce h) (Version_new (major (minimum h)) (minor (minimum h)))
    (Version_new (major (maximum h)) (minor (maximum h))) (claimed_role h) (component_build_id h)
    (required_features h) = Ok h) as Hnew.
  { apply ClientHello_new_Ok; try done. split; [|done]. by destruct h as [? [] [] ? ? ?]. }
  run_image (ClientHello_image h Hwf). run_parse. done.
Qed.

Lemma ClientHello_decode_sound bs h :
  ClientHello_decode bs = Ok h → ClientHello_wf h ∧ ClientHello_encode h = bs.
Proof.
  unfold ClientHello_decode. intros Hh. inv_ok Hh. inv_dec Hok0. yielded. canonicalized.
  match goal with H : ClientHello_new _ _ _ _ _ _ = Ok _ |- _ =>
    apply ClientHello_new_Ok in H as [_ ?]; done end.
Qed.

Lemma ServerHello_image h :
  ServerHello_wf h →
  ServerHello_encode h = wire (
    encode_array 9 ++ encode_bytes (server_nonce h) ++ encode_u16 (major (selected_version h)) ++
    encode_u16 (minor (selected_version h)) ++ encode_u8 (ClientRole_code (derived_role h)) ++
    encode_array (len (granted_features h)) ++ concat (encode_u16 <$> granted_features h) ++
    encode_u32 (maximum_payload_bytes h) ++ encode_u8 (maximum_in_flight h) ++
    encode_u8 (AgentState_code (agent_state h)) ++ encode_u64 (unlock_epoch h)).
Proof.
  intros Hwf. pose proof (fw_count _ (sh_features h Hwf)).
  unfold ServerHello_encode. rewrite vec_encode_concat, saturating_u64_id; [done|]. solve_size.
Qed.

Lemma len_ServerHello h : ServerHello_wf h → len (ServerHello_encode h) ≤ MAX_PAYLOAD_BYTES.
Proof.
  intros Hwf. rewrite ServerHello_image by done. pose proof Hwf as [[] [[] _] Hf ? ? ?].
  pose proof (len_features _ Hf). destruct Hf as [_ _ Hc]. wire_size. head_bounds. solve_size.
Qed.

Lemma ServerHello_decode_encode h :
  ServerHello_wf h → ServerHello_decode (ServerHello_encode h) = Ok h.
Proof.
  intros Hwf. pose proof (len_ServerHello h Hwf). unfold ServerHello_decode.
  rewrite fail_if_small by done. cbn [mbind result_bind].
  pose proof Hwf as [[] [[] _] [? _ Hc] ? ? ?].
  assert (ServerHello_new (server_nonce h)
    (Version_new (major (selected_version h)) (minor (selected_version h))) (derived_role h)
    (granted_features h) (maximum_payload_bytes h) (maximum_in_flight h) (agent_state h)
    (unlock_epoch h) = Ok h) as Hnew.
  { apply ServerHello_new_Ok; try done; [solve_size|]. split; [|done]. by destruct h as [? [] ? ? ? ? ? ?]. }
  run_image (ServerHello_image h Hwf). run_parse. done.
Qed.

Lemma ServerHello_decode_sound bs h :
  ServerHello_decode bs = Ok h → ServerHello_wf h ∧ ServerHello_encode h = bs.
Proof.
  unfold ServerHello_decode. intros Hh. inv_ok Hh. inv_dec Hok0. yielded. canonicalized.
  match goal with H : ServerHello_new _ _ _ _ _ _ _ _ = Ok _ |- _ =>
    apply ServerHello_new_Ok in H as [_ ?]; done end.
Qed.

Lemma EndpointDescriptor_image d :
  EndpointDescriptor_encode d = wire (
    encode_array 8 ++ encode_u8 ENDPOINT_SCHEMA ++ encode_text (pipe_name d) ++
    encode_u32 (agent_process_id d) ++ encode_u64 (agent_process_creation_time d) ++
    encode_text (package_full_name d) ++ encode_u16 (minimum_major d) ++
    encode_u16 (maximum_major d) ++ encode_bytes (startup_nonce d)).
Proof. apply vec_encode_concat. Qed.

Lemma len_EndpointDescriptor d :
  EndpointDescriptor_wf d → len (EndpointDescriptor_encode d) ≤ MAX_ENDPOINT_DESCRIPTOR_BYTES.
Proof.
  intros Hwf. rewrite EndpointDescriptor_image. pose proof Hwf as [(?&?&?) (?&?&?) [] [] [] []].
  wire_size. head_bounds. solve_size.
Qed.

(** The size check of the constructor never fires. *)
Lemma EndpointDescriptor_new_Ok pipe process creation package min max nonce d :
  text pipe → text package → u32 process → u64 creation → u16 min → u16 max →
  length nonce = 32%nat →
  EndpointDescriptor_new pipe process creation package min max nonce = Ok d ↔
    d = {| pipe_name := pipe; agent_process_id := process; agent_process_creation_time := creation;
           package_full_name := package; minimum_major := min; maximum_major := max;
           startup_nonce := nonce |} ∧ EndpointDescriptor_wf d.
Proof.
  intros ???? [??] ??. unfold EndpointDescriptor_new. split.
  - intros Hd. inv_ok Hd. simp_guards. split; [done|].
    split; simpl; split_and!; try done; try (by apply is_empty_false); lia.
  - intros [-> Hwf]. pose proof (len_EndpointDescriptor _ Hwf).
    destruct Hwf as [(?&?&?) (?&?&?) [] [] [] []]. simpl in *.
    rewrite bind_Ok. exists tt. split; [apply fail_if_Ok; guard_false; try done; lia|].
    rewrite fail_if_small by done. done.
Qed.

Lemma EndpointDescriptor_decode_encode d :
  EndpointDescriptor_wf d → EndpointDescriptor_decode (EndpointDescriptor_encode d) = Ok d.
Proof.
  intros Hwf. pose proof (len_EndpointDescriptor d Hwf). unfold EndpointDescriptor_decode.
  rewrite fail_if_small by done. cbn [mbind result_bind].
  pose proof Hwf as [(?&?&?) (?&?&?) [] [] [? [??]] []].
  assert (u16 (minimum_major d)) by solve_size.
  assert (EndpointDescriptor_new (pipe_name d) (agent_process_id d) (agent_process_creation_time d)
    (package_full_name d) (minimum_major d) (maximum_major d) (startup_nonce d) = Ok d) as Hnew.
  { apply EndpointDescriptor_new_Ok; try done. split; [|done]. by destruct d. }
  run_image (EndpointDescriptor_image d). run_parse. done.
Qed.

Lemma EndpointDescriptor_decode_sound bs d :
  EndpointDescriptor_decode bs = Ok d → EndpointDescriptor_wf d ∧ EndpointDescriptor_encode d = bs.
Proof.
  unfold EndpointDescriptor_decode. intros Hd. inv_ok Hd. inv_dec Hok0. yielded. canonicalized.
  match goal with H : EndpointDescriptor_new _ _ _ _ _ _ _ = Ok _ |- _ =>
    apply EndpointDescriptor_new_Ok in H as [_ ?]; done end.
Qed.

(** The idempotency key as an item. *)
Definition key_item (key : option bytes) : list bytes :=
  match key with Some key => encode_bytes key | None => encode_null end.

Lemma key_item_facts key :
  (∀ k, key = Some k → length k = 16%nat) →
  parses (E:=ProtocolError) (decode_optional_fixed_bytes 16) (wire (key_item key)) key
  ∧ len (wire (key_item key)) ≤ 17.
Proof.
  intros Hk. destruct key as [k|]; simpl.
  - specialize (Hk k eq_refl). split; [eauto with parse|].
    rewrite len_encode_bytes by solve_size. head_bounds_tight. solve_size.
  - split; [eauto with parse|]. by rewrite len_encode_null.
Qed.

Definition RequestEnvelope_items (r : RequestEnvelope) : list bytes :=
  encode_array 5 ++ encode_u16 (OperationCode.code (re_operation r)) ++
  encode_u64 (re_unlock_epoch r) ++ encode_u32 (re_timeout_ms r) ++
  key_item (re_idempotency_key r) ++ encode_bytes (re_body r).

Lemma RequestEnvelope_image r :
  RequestEnvelope_wf r →
  RequestEnvelope_encode r = Ok (wire (RequestEnvelope_items r))
  ∧ len (wire (RequestEnvelope_items r)) ≤ MAX_PAYLOAD_BYTES.
Proof.
  intros Hwf. pose proof Hwf as [? [] Hk ?].
  destruct (key_item_facts (re_idempotency_key r)) as [_ ?]; [naive_solver|].
  assert (len (wire (RequestEnvelope_items r)) ≤ MAX_PAYLOAD_BYTES).
  { unfold RequestEnvelope_items. wire_size. head_bounds. solve_size. }
  split; [|done]. unfold RequestEnvelope_encode.
  change (encode_array 5 ++ _) with (RequestEnvelope_items r).
  rewrite secret_encode_fits by (done || solve_size). cbn [mbind result_bind].
  by rewrite fail_if_small.
Qed.

Lemma RequestEnvelope_decode_encode r bs :
  RequestEnvelope_wf r → RequestEnvelope_encode r = Ok bs → RequestEnvelope_decode bs = Ok r.
Proof.
  intros Hwf Henc. destruct (RequestEnvelope_image r Hwf) as [Himg Hlen].
  rewrite Himg in Henc. apply Ok_inj in Henc as Hbs. rewrite Hbs in Himg, Hlen.
  unfold RequestEnvelope_decode. rewrite fail_if_small by done. cbn [mbind result_bind].
  pose proof Hwf as [? [] Hk ?].
  destruct (key_item_facts (re_idempotency_key r)) as [Hkey _]; [naive_solver|].
  assert (RequestEnvelope_new (re_operation r) (re_unlock_epoch r) (re_timeout_ms r)
    (re_idempotency_key r) (re_body r) = Ok r) as Hnew.
  { apply RequestEnvelope_new_Ok; try done; [naive_solver|]. split; [|done]. by destruct r. }
  run_image (eq_sym Hbs). unfold RequestEnvelope_items. run_parse. done.
Qed.

Lemma RequestEnvelope_decode_sound bs r :
  RequestEnvelope_decode bs = Ok r → RequestEnvelope_wf r ∧ RequestEnvelope_encode r = Ok bs.
Proof.
  unfold RequestEnvelope_decode. intros Hr. inv_ok Hr. inv_dec Hok0. yielded. canonicalized.
  match goal with H : RequestEnvelope_new _ _ _ _ _ = Ok _ |- _ =>
    apply RequestEnvelope_new_Ok in H as [_ ?]; try done end.
  by subst.
Qed.

Definition ResponseEnvelope_items (r : ResponseEnvelope) : list bytes :=
  encode_array 4 ++ encode_u8 (from_option PublicErrorCode.code 0 (rs_error r)) ++
  encode_u8 (RetryCategory_code (rs_retry r)) ++ encode_bytes (rs_correlation_id r) ++
  encode_bytes (rs_body r).

(** The error byte: zero for a success. *)
Lemma error_byte (error : option PublicErrorCode) :
  let raw := from_option PublicErrorCode.code 0 error in
  0 ≤ raw < 24 ∧
  (if raw =? 0 then Ok None else error ← decode_enum raw; mret (Some error)) = Ok (E:=ProtocolError) error.
Proof. by destruct error as [[]|]. Qed.

Lemma len_ResponseEnvelope_items r :
  ResponseEnvelope_wf r →
  len (wire (ResponseEnvelope_items r)) = 20 + head_len (len (rs_body r)) + len (rs_body r).
Proof.
  intros Hwf. pose proof Hwf as [? _ _ [Hc _]]. pose proof (error_byte (rs_error r)) as [? _].
  unfold ResponseEnvelope_items. wire_size. rewrite (len_length _ _ Hc).
  assert (head_len (from_option PublicErrorCode.code 0 (rs_error r)) = 1) as ->.
  { apply head_len_cases; cbv zeta in *; lia. }
  assert (head_len (RetryCategory_code (rs_retry r)) = 1) as -> by (by destruct (rs_retry r)).
  change (head_len 4) with 1. change (head_len (Z.of_nat 16)) with 1. lia.
Qed.

Lemma ResponseEnvelope_image r :
  ResponseEnvelope_wf r →
  ResponseEnvelope_encode r = Ok (wire (ResponseEnvelope_items r))
  ∧ len (wire (ResponseEnvelope_items r)) ≤ MAX_PAYLOAD_BYTES.
Proof.
  intros Hwf. pose proof (len_ResponseEnvelope_items r Hwf). pose proof Hwf as [? _ _ _].
  pose proof (head_len_bounds (len (rs_body r))).
  assert (len (wire (ResponseEnvelope_items r)) ≤ MAX_PAYLOAD_BYTES) by solve_size.
  split; [|done]. unfold ResponseEnvelope_encode.
  change (encode_array 4 ++ _) with (ResponseEnvelope_items r).
  rewrite secret_encode_fits by (done || solve_size). cbn [mbind result_bind].
  by rewrite fail_if_small.
Qed.

Lemma ResponseEnvelope_decode_encode r bs :
  ResponseEnvelope_wf r → ResponseEnvelope_encode r = Ok bs → ResponseEnvelope_decode bs = Ok r.
Proof.
  intros Hwf Henc. destruct (ResponseEnvelope_image r Hwf) as [Himg Hlen].
  rewrite Himg in Henc. apply Ok_inj in Henc as Hbs. rewrite Hbs in Himg, Hlen.
  unfold ResponseEnvelope_decode. rewrite fail_if_small by done. cbn [mbind result_bind].
  pose proof Hwf as [? _ _ [Hc _]]. pose proof (error_byte (rs_error r)) as [? Herr].
  assert (ResponseEnvelope_new (rs_error r) (rs_retry r) (rs_correlation_id r) (rs_body r) = Ok r)
    as Hnew.
  { apply ResponseEnvelope_new_Ok; try done. split; [|done]. by destruct r. }
  run_image (eq_sym Hbs). unfold ResponseEnvelope_items. run_parse. done.
Qed.

Lemma ResponseEnvelope_decode_sound bs r :
  ResponseEnvelope_decode bs = Ok r → ResponseEnvelope_wf r ∧ ResponseEnvelope_encode r = Ok bs.
Proof.
  unfold ResponseEnvelope_decode. intros Hr. inv_ok Hr. inv_dec Hok0. yielded. canonicalized.
  match goal with H : ResponseEnvelope_new _ _ _ _ = Ok _ |- _ =>
    apply ResponseEnvelope_new_Ok in H as [_ ?]; try done end.
  by subst.
Qed.

Lemma encoded_byte_string_len_head n : 0 ≤ n → encoded_byte_string_len n = head_len n + n.
Proof.
  intros. unfold encoded_byte_string_len, head_len.
  assert (∀ w, 0 ≤ w → bool_decide (is_Some (try_from w n)) = (n <? 2 ^ w)) as Ht.
  { intros w Hw. destruct (Z.ltb_spec n (2 ^ w)).
    - apply bool_decide_true. by rewrite try_from_uint.
    - apply bool_decide_false. intros [c [_ Hc]%try_from_Some]. unfold uint in Hc. lia. }
  rewrite !Ht by lia. reflexivity.
Qed.

Lemma ClientHello_decode_not_Panic bs : ClientHello_decode bs ≠ Panic.
Proof. unfold ClientHello_decode. decode_panic. Qed.
Lemma ServerHello_decode_not_Panic bs : ServerHello_decode bs ≠ Panic.
Proof. unfold ServerHello_decode. decode_panic. Qed.
Lemma EndpointDescriptor_decode_not_Panic bs : EndpointDescriptor_decode bs ≠ Panic.
Proof. unfold EndpointDescriptor_decode. decode_panic. Qed.

Lemma RequestEnvelope_decode_not_Panic bs : RequestEnvelope_decode bs ≠ Panic.
Proof.
  unfold RequestEnvelope_decode. decode_panic. yielded.
  apply RequestEnvelope_new_Ok in Hl0 as [_ Hwf]; try done.
  by rewrite (proj1 (RequestEnvelope_image _ Hwf)) in Hp.
Qed.

Lemma ResponseEnvelope_decode_not_Panic bs : ResponseEnvelope_decode bs ≠ Panic.
Proof.
  unfold ResponseEnvelope_decode. decode_panic. yielded.
  apply ResponseEnvelope_new_Ok in Hl1 as [_ Hwf]; try done.
  by rewrite (proj1 (ResponseEnvelope_image _ Hwf)) in Hp.
Qed.

(** What the dispatcher peeks is what the decoder returns. *)
Lemma peek_decode bs r :
  RequestEnvelope_decode bs = Ok r → RequestEnvelope_peek_operation bs = Ok (re_operation r).
Proof.
  intros Hr. pose proof Hr as [Hwf Henc]%RequestEnvelope_decode_sound.
  destruct (RequestEnvelope_image r Hwf) as [Himg Hlen].
  rewrite Himg in Henc. apply Ok_inj in Henc as Hbs. rewrite Hbs in Hlen.
  unfold RequestEnvelope_peek_operation. rewrite fail_if_small by done. cbn [mbind result_bind].
  apply run_decoder_Ok. rewrite <-Hbs. unfold RequestEnvelope_items. eexists.
  run_parse. unfold lift. 
  pose proof (decode_enum_code (w:=16) (re_operation r)) as He. simpl in He. by rewrite He.
Qed.
End codec_facts.

(** ** The payload types as codecs *)

Section codec_instances.
Context `{MinicborLaws}.

#[global] Instance ClientHello_codec : Codec ProtocolError ClientHello :=
  {| codec_valid := ClientHello_wf; codec_encode h := Ok (ClientHello_encode h);
     codec_decode := ClientHello_decode |}.
#[global] Instance ClientHello_laws : CodecLaws ProtocolError ClientHello.
Proof.
  split; [|done|apply ClientHello_decode_not_Panic]. intros bs v. simpl. split.
  - by intros [? ->]%ClientHello_decode_sound.
  - intros [? <-%Ok_inj]. by apply ClientHello_decode_encode.
Qed.

#[global] Instance ServerHello_codec : Codec ProtocolError ServerHello :=
  {| codec_valid := ServerHello_wf; codec_encode h := Ok (ServerHello_encode h);
     codec_decode := ServerHello_decode |}.
#[global] Instance ServerHello_laws : CodecLaws ProtocolError ServerHello.
Proof.
  split; [|done|apply ServerHello_decode_not_Panic]. intros bs v. simpl. split.
  - by intros [? ->]%ServerHello_decode_sound.
  - intros [? <-%Ok_inj]. by apply ServerHello_decode_encode.
Qed.

#[global] Instance EndpointDescriptor_codec : Codec ProtocolError EndpointDescriptor :=
  {| codec_valid := EndpointDescriptor_wf; codec_encode d := Ok (EndpointDescriptor_encode d);
     codec_decode := EndpointDescriptor_decode |}.
#[global] Instance EndpointDescriptor_laws : CodecLaws ProtocolError EndpointDescriptor.
Proof.
  split; [|done|apply EndpointDescriptor_decode_not_Panic]. intros bs v. simpl. split.
  - by intros [? ->]%EndpointDescriptor_decode_sound.
  - intros [? <-%Ok_inj]. by apply EndpointDescriptor_decode_encode.
Qed.

#[global] Instance RequestEnvelope_codec : Codec ProtocolError RequestEnvelope :=
  {| codec_valid := RequestEnvelope_wf; codec_encode := RequestEnvelope_encode;
     codec_decode := RequestEnvelope_decode |}.
#[global] Instance RequestEnvelope_laws : CodecLaws ProtocolError RequestEnvelope.
Proof.
  split.
  - intros bs v. split; [apply RequestEnvelope_decode_sound|].
    intros []. by apply RequestEnvelope_decode_encode.
  - intros v Hv. simpl. by rewrite (proj1 (RequestEnvelope_image v Hv)).
  - apply RequestEnvelope_decode_not_Panic.
Qed.

#[global] Instance ResponseEnvelope_codec : Codec ProtocolError ResponseEnvelope :=
  {| codec_valid := ResponseEnvelope_wf; codec_encode := ResponseEnvelope_encode;
     codec_decode := ResponseEnvelope_decode |}.
#[global] Instance ResponseEnvelope_laws : CodecLaws ProtocolError ResponseEnvelope.
Proof.
  split.
  - intros bs v. split; [apply ResponseEnvelope_decode_sound|].
    intros []. by apply ResponseEnvelope_decode_encode.
  - intros v Hv. simpl. by rewrite (proj1 (ResponseEnvelope_image v Hv)).
  - apply ResponseEnvelope_decode_not_Panic.
Qed.
End codec_instances.

(** ** Properties *)

Section properties.
Context `{MinicborLaws}.

(** The handshake payloads are canonical: [ClientHello::decode] and
    [ServerHello::decode] accept exactly the encodings of valid hellos, each for
    one value (nonzero nonces, an ordered version range, at most sixteen strictly
    increasing features, a negotiable payload limit, one to four requests in
    flight), and no input makes them panic. *)
Theorem hello_wire_exact bs (c : ClientHello) (h : ServerHello) :
  (ClientHello_decode bs = Ok c ↔ ClientHello_wf c ∧ ClientHello_encode c = bs) ∧
  (ServerHello_decode bs = Ok h ↔ ServerHello_wf h ∧ ServerHello_encode h = bs) ∧
  ClientHello_decode bs ≠ Panic ∧ ServerHello_decode bs ≠ Panic.
Proof.
  split_and!; [split; [apply ClientHello_decode_sound|]|split; [apply ServerHello_decode_sound|]
    |apply ClientHello_decode_not_Panic|apply ServerHello_decode_not_Panic].
  - intros [? <-]. by apply ClientHello_decode_encode.
  - intros [? <-]. by apply ServerHello_decode_encode.
Qed.

(** The discovery descriptor: its decoder accepts exactly the encodings of
    valid descriptors and never panics, and the constructor's size check is
    redundant: on well-typed arguments it accepts exactly those that satisfy the
    field checks. *)
Theorem endpoint_descriptor_exact bs d :
  (EndpointDescriptor_decode bs = Ok d ↔
    EndpointDescriptor_wf d ∧ EndpointDescriptor_encode d = bs) ∧
  EndpointDescriptor_decode bs ≠ Panic ∧
  (EndpointDescriptor_wf d →
    EndpointDescriptor_new (pipe_name d) (agent_process_id d) (agent_process_creation_time d)
      (package_full_name d) (minimum_major d) (maximum_major d) (startup_nonce d) = Ok d).
Proof.
  split_and!; [split; [apply EndpointDescriptor_decode_sound|]
    |apply EndpointDescriptor_decode_not_Panic|].
  - intros [? <-]. by apply EndpointDescriptor_decode_encode.
  - intros Hwf. pose proof Hwf as [(?&?&?) (?&?&?) [] [] [? []] []].
    apply EndpointDescriptor_new_Ok; try done; [solve_size|]. split; [by destruct d|done].
Qed.

(** The request envelope is canonical: its decoder accepts exactly the
    encodings of valid envelopes (a nonzero timeout, a bounded body, an
    idempotency key only for an operation that takes one); the encoder's fixed
    secret buffer is large enough for every valid envelope, so that neither the
    encoder nor the decoder can panic; and what [peek_operation] reads from an
    accepted request is the operation the decoder returns. *)
Theorem request_envelope_exact bs r :
  (RequestEnvelope_decode bs = Ok r ↔
    RequestEnvelope_wf r ∧ RequestEnvelope_encode r = Ok bs) ∧
  (RequestEnvelope_wf r → is_ok (RequestEnvelope_encode r) = true) ∧
  RequestEnvelope_decode bs ≠ Panic ∧
  (RequestEnvelope_decode bs = Ok r → RequestEnvelope_peek_operation bs = Ok (re_operation r)).
Proof.
  split_and!; [exact (codec_exact (T:=RequestEnvelope) bs r)|exact (codec_total (T:=RequestEnvelope) r)
    |exact (codec_safe (T:=RequestEnvelope) bs)|apply peek_decode].
Qed.

(** The response envelope is canonical, its encoder and decoder never
    panic, and [encoded_len] is the exact length of the encoding, which stays
    within the frame payload limit. *)
Theorem response_envelope_exact bs r :
  (ResponseEnvelope_decode bs = Ok r ↔
    ResponseEnvelope_wf r ∧ ResponseEnvelope_encode r = Ok bs) ∧
  ResponseEnvelope_decode bs ≠ Panic ∧
  (ResponseEnvelope_wf r → ∃ image, ResponseEnvelope_encode r = Ok image
    ∧ len image = ResponseEnvelope_encoded_len r ∧ len image ≤ MAX_PAYLOAD_BYTES).
Proof.
  split_and!; [exact (codec_exact (T:=ResponseEnvelope) bs r)|exact (codec_safe (T:=ResponseEnvelope) bs)|].
  intros Hwf. destruct (ResponseEnvelope_image r Hwf) as [Himg Hlen].
  eexists. split_and!; [done| |done]. unfold ResponseEnvelope_encoded_len. cbv zeta.
  rewrite len_ResponseEnvelope_items, encoded_byte_string_len_head by (done || apply len_nonneg). lia.
Qed.
End properties.

(** ** Examples *)

Module Examples.
Import Rfc8949.

Definition client_hello : ClientHello :=
  {| client_nonce := replicate 32 x01; minimum := Version_new 1 0; maximum := Version_new 1 3;
     claimed_role := Desktop; component_build_id := replicate 32 x02; required_features := [1; 3] |}.
Definition server_hello : ServerHello :=
  {| server_nonce := replicate 32 x03; selected_version := Version_new 1 3; derived_role := Desktop;
     granted_features := [1; 3]; maximum_payload_bytes := 65536; maximum_in_flight := 4;
     agent_state := Locked; unlock_epoch := 0 |}.
Definition descriptor : EndpointDescriptor :=
  {| pipe_name := str "librarian"; agent_process_id := 7; agent_process_creation_time := 9;
     package_full_name := str "package"; minimum_major := 1; maximum_major := 1;
     startup_nonce := replicate 32 x04 |}.
Definition request : RequestEnvelope :=
  {| re_operation := OperationCode.AddAccount; re_unlock_epoch := 2; re_timeout_ms := 5000;
     re_idempotency_key := Some (replicate 16 x06); re_body := [x80] |}.
Definition response : ResponseEnvelope :=
  {| rs_error := Some PublicErrorCode.Locked; rs_retry := AfterUnlock;
     rs_correlation_id := replicate 16 x07; rs_body := [] |}.

Lemma features_ok : features_wf [1; 3].
Proof. split; [by repeat constructor|by apply adjacent_geb_false|done]. Qed.
Lemma client_hello_wf : ClientHello_wf client_hello.
Proof. split; simpl; unfold Version_lt; simpl; try done; [lia|apply features_ok]. Qed.
Lemma server_hello_wf : ServerHello_wf server_hello.
Proof. split; simpl; try done. apply features_ok. Qed.
Lemma descriptor_wf : EndpointDescriptor_wf descriptor.
Proof. split; simpl; try done. Qed.
Lemma request_wf : RequestEnvelope_wf request.
Proof. split; simpl; try done. by intros k [= <-]. Qed.
Lemma response_wf : ResponseEnvelope_wf response.
Proof. by split. Qed.

Lemma hello_wire_exact_witness :
  ClientHello_decode (ClientHello_encode client_hello) = Ok client_hello.
Proof.
  exact (proj2 (proj1 (hello_wire_exact (ClientHello_encode client_hello) client_hello server_hello))
    (conj client_hello_wf eq_refl)).
Defined.

Lemma endpoint_descriptor_exact_witness :
  EndpointDescriptor_decode (EndpointDescriptor_encode descriptor) = Ok descriptor.
Proof.
  exact (proj2 (proj1 (endpoint_descriptor_exact (EndpointDescriptor_encode descriptor) descriptor))
    (conj descriptor_wf eq_refl)).
Defined.

Lemma request_envelope_exact_witness : is_ok (RequestEnvelope_encode request) = true.
Proof. apply (request_envelope_exact [] request), request_wf. Defined.

Lemma response_envelope_exact_witness :
  ∃ image, ResponseEnvelope_encode response = Ok image ∧ len image = ResponseEnvelope_encoded_len response
    ∧ len image ≤ MAX_PAYLOAD_BYTES.
Proof. apply (response_envelope_exact [] response), response_wf. Defined.
End Examples.
