(* ===== verification/Session.v ===== *)
(** * Connections: negotiation, admission, cancellation and completion
    ([crates/agent-protocol/src/session.rs])

    A connection is its negotiated parameters and a mutex around its mutable
    state.  The methods take [&self], lock the mutex and run to the release of
    the guard: each is one atomic step on the state, so that threads interleave
    as sequences of calls.  A panic of a holder poisons the mutex, which every
    method observes. *)

From S2P Require Import Prelude RustStd Cbor Wire Types Frame Message.

Definition MAX_REQUESTS_PER_CONNECTION : Z := 65536.

(** ** Limits and outcomes *)

Record ConnectionLimits := { lim_payload_bytes : Z; lim_in_flight : Z }.
#[export] Instance ConnectionLimits_eq_dec : EqDecision ConnectionLimits.
Proof. solve_decision. Defined.

Module ConnectionError.
Inductive t :=
  | InvalidLimit | IdentityClaimMismatch | BuildMismatch | IncompatibleVersion
  | UnsupportedFeature | InvalidRandomValue | InvalidFrame | WrongDirection | ConnectionClosed
  | RequestLimit | InvalidCancel.
#[global] Instance t_eq_dec : EqDecision t.
Proof. solve_decision. Defined.
End ConnectionError.
Abbreviation ConnectionError := ConnectionError.t.
Import ConnectionError.

Inductive BeginRequestError :=
  | BeginConnection (e : ConnectionError)
  | Unauthorized
  | Busy (effective_timeout_ms : Z)
  | StaleEpoch
  | MissingIdempotencyKey.
#[export] Instance BeginRequestError_eq_dec : EqDecision BeginRequestError.
Proof. solve_decision. Defined.

Inductive RequestCompletion := CompletedActive | CompletedCancelled.
#[export] Instance RequestCompletion_eq_dec : EqDecision RequestCompletion.
Proof. solve_decision. Defined.

Definition ConnectionLimits_new (payload in_flight : Z) : result ConnectionError ConnectionLimits :=
  fail_if (payload_limit_invalid payload
    || (in_flight =? 0)
    || (in_flight >? MAX_IN_FLIGHT_PER_CONNECTION)) InvalidLimit;;
  mret {| lim_payload_bytes := payload; lim_in_flight := in_flight |}.

Definition ConnectionLimits_default : ConnectionLimits :=
  {| lim_payload_bytes := default (max_of 32) (try_from 32 MAX_PAYLOAD_BYTES);
     lim_in_flight := default (max_of 8) (try_from 8 MAX_IN_FLIGHT_PER_CONNECTION) |}.

(** ** State *)

Record RequestPermit := {
  permit_request_id : Z;
  permit_operation : OperationCode;
  permit_unlock_epoch : Z;
  permit_effective_timeout_ms : Z;
}.
#[export] Instance RequestPermit_eq_dec : EqDecision RequestPermit.
Proof. solve_decision. Defined.

Inductive RequestState := Active | Cancelled.
#[export] Instance RequestState_eq_dec : EqDecision RequestState.
Proof. solve_decision. Defined.

Record ConnectionState := {
  last_request_id : Z;
  issued_request_ids : gset Z;
  in_flight : gmap Z RequestState;
  closed : bool;
}.

(** [Mutex<T>]: the data, and whether a holder of the guard panicked. *)
Record Mutex (T : Type) := { poisoned : bool; inner : T }.
Arguments poisoned {_} _.
Arguments inner {_} _.
Arguments Build_Mutex {_} _ _.

Record Connection := {
  cn_role : ClientRole;
  cn_version : Version;
  cn_process_id : Z;
  cn_granted_features : list Z;
  cn_connection_id : bytes;
  cn_limits : ConnectionLimits;
  cn_state : Mutex ConnectionState;
}.

Definition set_state (c : Connection) (s : ConnectionState) : Connection :=
  {| cn_role := cn_role c; cn_version := cn_version c; cn_process_id := cn_process_id c;
     cn_granted_features := cn_granted_features c; cn_connection_id := cn_connection_id c;
     cn_limits := cn_limits c; cn_state := Build_Mutex (poisoned (cn_state c)) s |}.

(** [self.state.lock().ok()]. *)
Definition lock (c : Connection) : option ConnectionState :=
  if poisoned (cn_state c) then None else Some (inner (cn_state c)).

Definition set_closed (s : ConnectionState) : ConnectionState :=
  {| last_request_id := last_request_id s; issued_request_ids := issued_request_ids s;
     in_flight := in_flight s; closed := true |}.
Definition set_in_flight (m : gmap Z RequestState) (s : ConnectionState) : ConnectionState :=
  {| last_request_id := last_request_id s; issued_request_ids := issued_request_ids s;
     in_flight := m; closed := closed s |}.

(** [let mut state = self.lock_state()?;] and the body that uses the guard. *)
Definition lock_state {E A} (e : ConnectionError → E) (body : stm ConnectionState E A)
    (c : Connection) : result E A * Connection :=
  match lock c with
  | None => (Err (e ConnectionClosed), c)
  | Some s => let '(r, s) := body s in (r, set_state c s)
  end.

(** ** Negotiation *)

(** [features.binary_search(&feature).is_ok() && version < introduced]. *)
Definition feature_too_new (features : list Z) (feature : Z) (v introduced : Version) : bool :=
  binary_search features feature && Version_ltb v introduced.

Definition Connection_negotiate (derived : ClientRole) (process_id : Z) (expected_build_id : bytes)
    (hello : ClientHello) (supported_features : list Z) (server_nonce connection_id : bytes)
    (agent_state : AgentState) (unlock_epoch : Z) (limits : ConnectionLimits) :
    result ConnectionError (Connection * ServerHello) :=
  fail_if (bool_decide (claimed_role hello ≠ derived)) IdentityClaimMismatch;;
  fail_if (bool_decide (component_build_id hello ≠ expected_build_id)) BuildMismatch;;
  let selected := Version_min (maximum hello) CURRENT_VERSION in
  fail_if (Version_ltb selected (minimum hello)
    || Version_ltb selected MINIMUM_VERSION
    || negb (major selected =? major CURRENT_VERSION)) IncompatibleVersion;;
  fail_if (adjacent_any Z.geb supported_features) UnsupportedFeature;;
  fail_if (existsb (λ required, negb (binary_search supported_features required))
    (required_features hello)) UnsupportedFeature;;
  fail_if (feature_too_new (required_features hello) FEATURE_WINDOWS_HELLO selected
    WINDOWS_HELLO_VERSION) UnsupportedFeature;;
  fail_if (feature_too_new (required_features hello) FEATURE_PASSKEY_PROVIDER selected
    PASSKEY_PROVIDER_VERSION) UnsupportedFeature;;
  fail_if (feature_too_new (required_features hello) FEATURE_BROWSER_FILL selected
    BROWSER_FILL_VERSION) UnsupportedFeature;;
  fail_if ((process_id =? 0) || bool_decide (server_nonce = zeros 32)
    || bool_decide (connection_id = zeros 16)) InvalidRandomValue;;
  let granted := required_features hello in
  response ← map_err (λ _, InvalidLimit)
    (ServerHello_new server_nonce selected derived granted (lim_payload_bytes limits)
      (lim_in_flight limits) agent_state unlock_epoch);
  mret ({| cn_role := derived; cn_version := selected; cn_process_id := process_id;
           cn_granted_features := granted; cn_connection_id := connection_id;
           cn_limits := limits;
           cn_state := Build_Mutex false
             {| last_request_id := 0; issued_request_ids := ∅; in_flight := ∅; closed := false |} |},
        response).

(** ** Observers *)

Definition is_closed (c : Connection) : bool := from_option closed true (lock c).

Definition in_flight_count (c : Connection) : Z :=
  from_option (λ s, Z.of_nat (size (in_flight s))) MAX_IN_FLIGHT_PER_CONNECTION (lock c).

Definition response_fits (c : Connection) (r : ResponseEnvelope) : bool :=
  ResponseEnvelope_encoded_len r <=? lim_payload_bytes (cn_limits c).

Definition is_cancelled (c : Connection) (permit : RequestPermit) : bool :=
  from_option (λ s, bool_decide (in_flight s !! permit_request_id permit = Some Cancelled)) true
    (lock c).

(** ** Validation helpers *)

Definition validate_common_header (c : Connection) (h : FrameHeader) (expected_kind : MessageKind) :
    stm ConnectionState ConnectionError unit :=
  state ← get;
  guard_st (closed state) ConnectionClosed;;
  fail_after (bool_decide (kind h ≠ expected_kind)) set_closed WrongDirection;;
  fail_after (bool_decide (version h ≠ cn_version c)
    || bool_decide (connection_id h ≠ cn_connection_id c)) set_closed InvalidFrame.

Definition validate_request_header (c : Connection) (h : FrameHeader) :
    stm ConnectionState ConnectionError unit :=
  validate_common_header c h MessageKind.Request;;
  fail_after (match try_from 64 (payload_length h) with
              | None => true
              | Some length => length >? lim_payload_bytes (cn_limits c)
              end) set_closed InvalidFrame.

Definition record_request_id (request_id : Z) : stm ConnectionState ConnectionError unit :=
  state ← get;
  fail_after (((last_request_id state =? 0) && negb (request_id =? 1))
    || (negb (last_request_id state =? 0) && (request_id <=? last_request_id state)))
    set_closed InvalidFrame;;
  fail_after (MAX_REQUESTS_PER_CONNECTION <=? Z.of_nat (size (issued_request_ids state)))
    set_closed RequestLimit;;
  modify (λ s, {| last_request_id := request_id;
                  issued_request_ids := {[request_id]} ∪ issued_request_ids s;
                  in_flight := in_flight s; closed := closed s |}).

Definition effective_timeout (operation : OperationCode) (requested : Z) : Z :=
  let maximum :=
    match operation with
    | OperationCode.CreateVault | OperationCode.UnlockMasterPassword | OperationCode.Lock =>
        UNLOCK_TIMEOUT_MS
    | OperationCode.MakePasskey | OperationCode.GetPasskeyAssertion
    | OperationCode.DeletePasskey | OperationCode.RollbackPasskeyCreation
    | OperationCode.ConfirmPasskeyCreation | OperationCode.ListPasskeysForAssertion
    | OperationCode.EnrollWindowsHello | OperationCode.UnlockWindowsHello
    | OperationCode.RemoveWindowsHello => PASSKEY_TIMEOUT_MS
    | _ => ORDINARY_TIMEOUT_MS
    end in
  Z.min requested maximum.

(** ** Requests *)

Definition begin_request (h : FrameHeader) (request : RequestEnvelope) (current_unlock_epoch : Z)
    (c : Connection) : result BeginRequestError RequestPermit * Connection :=
  lock_state BeginConnection (
    map_err_st BeginConnection (validate_request_header c h);;
    map_err_st BeginConnection (record_request_id (request_id h));;
    let operation := re_operation request in
    guard_st (negb (OperationCode.is_authorized_for operation (cn_role c))) Unauthorized;;
    guard_st (match OperationCode.required_feature operation with
              | None => false
              | Some feature => negb (binary_search (cn_granted_features c) feature)
              end) Unauthorized;;
    guard_st (OperationCode.requires_idempotency_key operation
      && bool_decide (re_idempotency_key request = None)) MissingIdempotencyKey;;
    guard_st (OperationCode.requires_unlocked_epoch operation
      && negb (re_unlock_epoch request =? current_unlock_epoch)) StaleEpoch;;
    let effective_timeout_ms := effective_timeout operation (re_timeout_ms request) in
    state ← get;
    guard_st (lim_in_flight (cn_limits c) <=? Z.of_nat (size (in_flight state)))
      (Busy effective_timeout_ms);;
    let permit :=
      {| permit_request_id := request_id h; permit_operation := operation;
         permit_unlock_epoch := re_unlock_epoch request;
         permit_effective_timeout_ms := effective_timeout_ms |} in
    modify (λ s, set_in_flight (<[request_id h := Active]> (in_flight s)) s);;
    mret permit) c.

Definition cancel (h : FrameHeader) (c : Connection) : result ConnectionError unit * Connection :=
  lock_state id (
    validate_common_header c h MessageKind.Cancel;;
    state ← get;
    fail_after (bool_decide (request_id h ∉ issued_request_ids state)) set_closed InvalidCancel;;
    modify (λ s, set_in_flight (alter (λ _, Cancelled) (request_id h) (in_flight s)) s)) c.

Definition finish (permit : RequestPermit) (c : Connection) :
    result ConnectionError RequestCompletion * Connection :=
  lock_state id (
    state ← get;
    match in_flight state !! permit_request_id permit with
    | None => modify set_closed;; throw InvalidFrame
    | Some request_state =>
        modify (λ s, set_in_flight (delete (permit_request_id permit) (in_flight s)) s);;
        mret (match request_state with
              | Active => CompletedActive
              | Cancelled => CompletedCancelled
              end)
    end) c.

Definition close (c : Connection) : Connection :=
  match lock c with
  | None => c
  | Some s => set_state c (set_in_flight ((λ _, Cancelled) <$> in_flight s) (set_closed s))
  end.

(** ** Specification of admission *)

(** The frame belongs to this connection and its identifier is fresh. *)
Record header_ok (c : Connection) (s : ConnectionState) (h : FrameHeader) : Prop := {
  ho_open : closed s = false;
  ho_kind : kind h = MessageKind.Request;
  ho_version : version h = cn_version c;
  ho_connection : connection_id h = cn_connection_id c;
  ho_payload : payload_length h ≤ lim_payload_bytes (cn_limits c);
  ho_fresh : (last_request_id s = 0 ∧ request_id h = 1)
    ∨ (last_request_id s ≠ 0 ∧ last_request_id s < request_id h);
  ho_budget : Z.of_nat (size (issued_request_ids s)) < MAX_REQUESTS_PER_CONNECTION;
}.

(** The request is allowed for the role, the features and the epoch. *)
Record request_ok (c : Connection) (request : RequestEnvelope) (epoch : Z) : Prop := {
  ro_role : OperationCode.is_authorized_for (re_operation request) (cn_role c) = true;
  ro_feature f : OperationCode.required_feature (re_operation request) = Some f →
    f ∈ cn_granted_features c;
  ro_key : OperationCode.requires_idempotency_key (re_operation request) = true →
    is_Some (re_idempotency_key request);
  ro_epoch : OperationCode.requires_unlocked_epoch (re_operation request) = true →
    re_unlock_epoch request = epoch;
}.

(** The limits a server offers. *)
Record limits_wf (l : ConnectionLimits) : Prop := {
  lw_payload : MIN_NEGOTIATED_PAYLOAD_BYTES ≤ lim_payload_bytes l ≤ MAX_PAYLOAD_BYTES;
  lw_in_flight : 1 ≤ lim_in_flight l ≤ MAX_IN_FLIGHT_PER_CONNECTION;
}.

(** The identifier is consumed, whatever becomes of the request. *)
Definition consume (id : Z) (s : ConnectionState) : ConnectionState :=
  {| last_request_id := id; issued_request_ids := {[id]} ∪ issued_request_ids s;
     in_flight := in_flight s; closed := closed s |}.

Definition permit_of (h : FrameHeader) (request : RequestEnvelope) : RequestPermit :=
  {| permit_request_id := request_id h; permit_operation := re_operation request;
     permit_unlock_epoch := re_unlock_epoch request;
     permit_effective_timeout_ms := effective_timeout (re_operation request) (re_timeout_ms request) |}.

Definition has_room (c : Connection) (s : ConnectionState) : Prop :=
  Z.of_nat (size (in_flight s)) < lim_in_flight (cn_limits c).

(** The outcomes of [begin_request], as a relation. *)
Inductive begins (h : FrameHeader) (request : RequestEnvelope) (epoch : Z) (c : Connection) :
    result BeginRequestError RequestPermit → Connection → Prop :=
  | begins_poisoned :
      lock c = None →
      begins h request epoch c (Err (BeginConnection ConnectionClosed)) c
  | begins_closed s :
      lock c = Some s → closed s = true →
      begins h request epoch c (Err (BeginConnection ConnectionClosed)) c
  | begins_fatal s e :
      lock c = Some s → closed s = false → ¬ header_ok c s h →
      begins h request epoch c (Err (BeginConnection e)) (set_state c (set_closed s))
  | begins_refused s e :
      lock c = Some s → header_ok c s h → ¬ request_ok c request epoch →
      e = Unauthorized ∨ e = MissingIdempotencyKey ∨ e = StaleEpoch →
      begins h request epoch c (Err e) (set_state c (consume (request_id h) s))
  | begins_busy s :
      lock c = Some s → header_ok c s h → request_ok c request epoch → ¬ has_room c s →
      begins h request epoch c
        (Err (Busy (effective_timeout (re_operation request) (re_timeout_ms request))))
        (set_state c (consume (request_id h) s))
  | begins_admitted s :
      lock c = Some s → header_ok c s h → request_ok c request epoch → has_room c s →
      begins h request epoch c (Ok (permit_of h request))
        (set_state c (set_in_flight (<[request_id h := Active]> (in_flight s))
          (consume (request_id h) s))).

Lemma set_state_lock c s : lock c = Some s → set_state c s = c.
Proof. unfold lock, set_state. destruct c as [? ? ? ? ? ? [[] i]]; naive_solver. Qed.

Lemma lock_set_state c s s' : lock c = Some s → lock (set_state c s') = Some s'.
Proof. unfold lock, set_state. simpl. by destruct (poisoned _). Qed.

Lemma validate_common_header_spec c h k s :
  validate_common_header c h k s =
    if closed s then (Err ConnectionClosed, s)
    else if bool_decide (kind h ≠ k) then (Err WrongDirection, set_closed s)
    else if bool_decide (version h ≠ cn_version c)
            || bool_decide (connection_id h ≠ cn_connection_id c)
         then (Err InvalidFrame, set_closed s)
    else (Ok tt, s).
Proof.
  unfold validate_common_header, guard_st, fail_after, get, mbind, stm_bind.
  destruct (closed s); [done|]. destruct (bool_decide (kind h ≠ k)); [done|].
  by destruct (_ || _).
Qed.

(** The header checks and the recording of the identifier, as one step. *)
Lemma header_steps c h s :
  0 ≤ payload_length h < 2 ^ 64 →
  let m := map_err_st BeginConnection (validate_request_header c h);;
           map_err_st BeginConnection (record_request_id (request_id h)) in
  (closed s = true ∧ m s = (Err (BeginConnection ConnectionClosed), s)) ∨
  (closed s = false ∧ ¬ header_ok c s h ∧ ∃ e, m s = (Err (BeginConnection e), set_closed s)) ∨
  (header_ok c s h ∧ m s = (Ok tt, consume (request_id h) s)).
Proof.
  intros Hp m. subst m. unfold map_err_st, validate_request_header, record_request_id.
  unfold mbind, stm_bind. rewrite validate_common_header_spec.
  destruct (closed s) eqn:Hc; [by left|right].
  case_bool_decide as Hk; [left; split_and!; [done|by intros []|by eexists]|].
  destruct (bool_decide _ || bool_decide _) eqn:Hv; simpl.
  { left; split_and!; [done| |by eexists]. intros []. apply orb_true_iff in Hv as [|]; simp_guards; done. }
  rewrite try_from_uint by done. simp_guards. unfold fail_after.
  destruct (Z.gtb_spec (payload_length h) (lim_payload_bytes (cn_limits c))); simpl.
  { left; split_and!; [done| |by eexists]. intros []. lia. }
  destruct (_ || _) eqn:Hf; simpl.
  { left; split_and!; [done| |by eexists]. intros []. apply orb_true_iff in Hf as [|]; simp_guards; lia. }
  destruct (Z.leb_spec MAX_REQUESTS_PER_CONNECTION (Z.of_nat (size (issued_request_ids s)))); simpl.
  { left; split_and!; [done| |by eexists]. intros []. lia. }
  right. split; [|done]. split; try done.
  apply orb_false_iff in Hf as [[?|?]%andb_false_iff [?|?]%andb_false_iff]; simp_guards; lia.
Qed.

Lemma begin_request_begins h request epoch c :
  FrameHeader_wf h → increasing (cn_granted_features c) →
  let '(r, c') := begin_request h request epoch c in begins h request epoch c r c'.
Proof.
  intros [_ Hp _ _ _] Hf. unfold begin_request, lock_state. destruct (lock c) as [s|] eqn:Hl;
    [|by apply begins_poisoned].
  rewrite stm_bind_assoc. unfold mbind at 1, stm_bind at 1.
  destruct (header_steps c h s) as [[Hc ->]|[(Hc & Hh & e & ->)|[Hh ->]]].
  - unfold MAX_PAYLOAD_BYTES in Hp. lia.
  - rewrite (set_state_lock _ _ Hl). by eapply begins_closed.
  - by apply begins_fatal.
  - unfold guard_st, fail_after, get, modify, mbind, stm_bind, mret, stm_ret, id.
    destruct (OperationCode.is_authorized_for (re_operation request) (cn_role c)) eqn:Hrole; simpl;
      [|apply begins_refused; try done; [intros []; congruence|auto]].
    match goal with |- context [if ?b then _ else _] => destruct b eqn:Hfeat end; simpl.
    { apply begins_refused; try done; [intros [_ Hro _ _]|auto].
      destruct (OperationCode.required_feature _) as [f|]; [|done].
      apply negb_true_iff, not_true_iff_false in Hfeat. apply Hfeat, binary_search_spec; auto. }
    destruct (_ && bool_decide _) eqn:Hkey; simpl.
    { apply begins_refused; try done; [intros [_ _ Hro _]|auto]. simp_guards.
      destruct Hro; [done|congruence]. }
    destruct (_ && negb _) eqn:Hep; simpl.
    { apply begins_refused; try done; [intros [_ _ _ Hro]|auto]. simp_guards. auto. }
    assert (request_ok c request epoch).
    { split; [done| | |].
      - intros f Hreq. rewrite Hreq in Hfeat. apply binary_search_spec; [done|]. by apply negb_false_iff.
      - intros Hreq. rewrite Hreq in Hkey. simpl in Hkey. simp_guards. by apply not_eq_None_Some.
      - intros Hreq. rewrite Hreq in Hep. simpl in Hep. by simp_guards. }
    destruct (Z.leb_spec (lim_in_flight (cn_limits c)) (Z.of_nat (size (in_flight s)))); simpl.
    + apply begins_busy; try done. unfold has_room. lia.
    + by apply begins_admitted.
Qed.

(** ** Interleavings of calls *)

(** A call of some thread on a shared connection, or the panic of a thread that
    holds the guard. *)
Inductive Call :=
  | CBegin (h : FrameHeader) (request : RequestEnvelope) (epoch : Z)
  | CCancel (h : FrameHeader)
  | CFinish (permit : RequestPermit)
  | CClose
  | CPoison.

Inductive Reply :=
  | RBegin (r : result BeginRequestError RequestPermit)
  | RCancel (r : result ConnectionError unit)
  | RFinish (r : result ConnectionError RequestCompletion)
  | RUnit.

Definition poison (c : Connection) : Connection :=
  {| cn_role := cn_role c; cn_version := cn_version c; cn_process_id := cn_process_id c;
     cn_granted_features := cn_granted_features c; cn_connection_id := cn_connection_id c;
     cn_limits := cn_limits c; cn_state := Build_Mutex true (inner (cn_state c)) |}.

Definition run_call (call : Call) (c : Connection) : Reply * Connection :=
  match call with
  | CBegin h request epoch => let '(r, c) := begin_request h request epoch c in (RBegin r, c)
  | CCancel h => let '(r, c) := cancel h c in (RCancel r, c)
  | CFinish permit => let '(r, c) := finish permit c in (RFinish r, c)
  | CClose => (RUnit, close c)
  | CPoison => (RUnit, poison c)
  end.

Fixpoint run (calls : list Call) (c : Connection) : list (Call * Reply) * Connection :=
  match calls with
  | [] => ([], c)
  | call :: calls =>
      let '(reply, c) := run_call call c in
      let '(log, c) := run calls c in
      ((call, reply) :: log, c)
  end.

(** The frames of a call passed the frame decoder. *)
Definition call_wf (call : Call) : Prop :=
  match call with
  | CBegin h _ _ | CCancel h => FrameHeader_wf h
  | _ => True
  end.

(** The identifiers admitted and completed in a log. *)
Definition admitted (log : list (Call * Reply)) : list Z :=
  omap (λ e, match e with
             | (_, RBegin (Ok permit)) => Some (permit_request_id permit)
             | _ => None
             end) log.
Definition completed (log : list (Call * Reply)) : list Z :=
  omap (λ e, match e with
             | (CFinish permit, RFinish (Ok _)) => Some (permit_request_id permit)
             | _ => None
             end) log.

(** ** The invariant *)

Record state_wf (limit : Z) (s : ConnectionState) : Prop := {
  st_last : 0 ≤ last_request_id s;
  st_issued id : id ∈ issued_request_ids s → 1 ≤ id ≤ last_request_id s;
  st_last_issued : last_request_id s ≠ 0 → last_request_id s ∈ issued_request_ids s;
  st_in_flight : dom (in_flight s) ⊆ issued_request_ids s;
  st_budget : Z.of_nat (size (issued_request_ids s)) ≤ MAX_REQUESTS_PER_CONNECTION;
  st_room : Z.of_nat (size (in_flight s)) ≤ limit;
}.

Record Connection_wf (c : Connection) : Prop := {
  cw_version : ¬ Version_lt (cn_version c) MINIMUM_VERSION
    ∧ ¬ Version_lt CURRENT_VERSION (cn_version c);
  cw_features : features_wf (cn_granted_features c);
  cw_connection : cn_connection_id c ≠ zeros 16;
  cw_limits : limits_wf (cn_limits c);
  cw_state : state_wf (lim_in_flight (cn_limits c)) (inner (cn_state c));
}.

(** What no call undoes. *)
Record evolves (s s' : ConnectionState) : Prop := {
  ev_last : last_request_id s ≤ last_request_id s';
  ev_issued : issued_request_ids s ⊆ issued_request_ids s';
  ev_closed : closed s = true → closed s' = true;
  ev_in_flight id : id ∈ dom (in_flight s') → id ∈ dom (in_flight s) ∨ last_request_id s < id;
}.

#[export] Instance evolves_preorder : PreOrder evolves.
Proof.
  split.
  - intros s. split; auto; lia.
  - intros s1 s2 s3 [H1 H2 H3 H4] [H5 H6 H7 H8]. split; [lia|set_solver|auto|].
    intros id [?%H4|?]%H8; [auto|right; lia].
Qed.

Lemma evolves_closed s : evolves s (set_closed s).
Proof. split; simpl; auto; lia. Qed.

Lemma evolves_consume s c h : header_ok c s h → evolves s (consume (request_id h) s).
Proof. intros [? _ _ _ _ Hf _]. split; simpl; [lia|set_solver|auto|auto]. Qed.

Lemma state_wf_closed l s : state_wf l s → state_wf l (set_closed s).
Proof. by intros []. Qed.

Lemma state_wf_consume l s c h :
  header_ok c s h → state_wf l s → state_wf l (consume (request_id h) s).
Proof.
  intros Hh Hs. pose proof (ho_fresh c s h Hh). pose proof (ho_budget c s h Hh).
  destruct Hs as [Hl Hi _ Hf ? ?].
  assert (request_id h ∉ issued_request_ids s) by (intros ?%Hi; lia).
  split; simpl; try done.
  - lia.
  - intros id [->%elem_of_singleton|?%Hi]%elem_of_union; lia.
  - set_solver.
  - set_solver.
  - rewrite size_union, size_singleton by set_solver. lia.
Qed.

Lemma size_alter_state (f : RequestState → RequestState) i (m : gmap Z RequestState) :
  size (alter f i m) = size m.
Proof. by rewrite <-!size_dom, dom_alter_L. Qed.

(** Every call preserves the invariant of the state and only moves forward. *)
Definition good_step (c c' : Connection) : Prop :=
  ∃ s', c' = set_state c s' ∧ evolves (inner (cn_state c)) s'
    ∧ (state_wf (lim_in_flight (cn_limits c)) (inner (cn_state c)) →
       state_wf (lim_in_flight (cn_limits c)) s').

Lemma set_state_inner c : set_state c (inner (cn_state c)) = c.
Proof. by destruct c as [? ? ? ? ? ? []]. Qed.

Lemma lock_inner c s : lock c = Some s → inner (cn_state c) = s.
Proof. unfold lock. destruct (poisoned _); naive_solver. Qed.

Lemma good_step_refl c : good_step c c.
Proof. exists (inner (cn_state c)). split_and!; [by rewrite set_state_inner|reflexivity|done]. Qed.

Lemma good_step_intro c s s' :
  lock c = Some s → evolves s s' →
  (state_wf (lim_in_flight (cn_limits c)) s → state_wf (lim_in_flight (cn_limits c)) s') →
  good_step c (set_state c s').
Proof. intros <-%lock_inner ??. by exists s'. Qed.

Lemma begin_good h request epoch c r c' : begins h request epoch c r c' → good_step c c'.
Proof.
  destruct 1 as [| |s e Hl Hc _|s e Hl Hh _ _|s Hl Hh _ _|s Hl Hh _ Hroom]; try apply good_step_refl;
    (eapply good_step_intro; [done| |]).
  - apply evolves_closed.
  - apply state_wf_closed.
  - by eapply evolves_consume.
  - by apply state_wf_consume with (c := c).
  - by eapply evolves_consume.
  - by apply state_wf_consume with (c := c).
  - pose proof (evolves_consume _ _ _ Hh) as [? ? ? Hd]. destruct Hh as [? _ _ _ _ Hf _].
    split; try done; simpl. intros id. rewrite dom_insert. intros [->%elem_of_singleton|?]%elem_of_union; [right; lia|auto].
  - intros Hs. destruct (state_wf_consume _ _ _ _ Hh Hs) as [? ? ? Hd ? ?].
    split; try done; simpl in *.
    + rewrite dom_insert. set_solver.
    + unfold has_room in Hroom. rewrite map_size_insert. case_match; simpl; lia.
Qed.

Lemma cancel_good h c r c' : cancel h c = (r, c') → good_step c c'.
Proof.
  unfold cancel, lock_state. destruct (lock c) as [s|] eqn:Hl; [|intros [= <- <-]; apply good_step_refl].
  unfold mbind, stm_bind. rewrite validate_common_header_spec.
  destruct (closed s); [|destruct (bool_decide (kind h ≠ _)); [|destruct (_ || _)]];
    [intros [= <- <-]; rewrite (set_state_lock _ _ Hl); apply good_step_refl
    |intros [= <- <-]; eapply good_step_intro; [done|apply evolves_closed|apply state_wf_closed]..|].
  unfold get, fail_after, modify. case_bool_decide as Hi; intros [= <- <-];
    (eapply good_step_intro; [done| |]).
  - apply evolves_closed.
  - apply state_wf_closed.
  - split; simpl; auto; [lia|]. intros id. rewrite dom_alter. auto.
  - intros []. split; simpl; auto; [by rewrite dom_alter|by rewrite size_alter_state].
Qed.

Lemma finish_good permit c r c' : finish permit c = (r, c') → good_step c c'.
Proof.
  unfold finish, lock_state. destruct (lock c) as [s|] eqn:Hl; [|intros [= <- <-]; apply good_step_refl].
  unfold mbind, stm_bind, get, modify, throw, mret, stm_ret.
  destruct (in_flight s !! permit_request_id permit) eqn:Hi; intros [= <- <-];
    (eapply good_step_intro; [done| |]).
  - split; simpl; auto; [lia|]. intros id. rewrite dom_delete. set_solver.
  - intros []. split; simpl; auto; [rewrite dom_delete; set_solver|].
    rewrite map_size_delete. case_match; unfold Datatypes.id; lia.
  - apply evolves_closed.
  - apply state_wf_closed.
Qed.

Lemma close_good c : good_step c (close c).
Proof.
  unfold close. destruct (lock c) as [s|] eqn:Hl; [|apply good_step_refl].
  eapply good_step_intro; [done| |].
  - split; simpl; auto; [lia|]. intros id. rewrite dom_fmap. auto.
  - intros []. split; simpl; auto; [by rewrite dom_fmap|by rewrite map_size_fmap].
Qed.

(** A call keeps the negotiated parameters and makes a good step; a poisoned
    mutex stays as it is. *)
Definition params (c : Connection) :=
  (cn_role c, cn_version c, cn_process_id c, cn_granted_features c, cn_connection_id c, cn_limits c).

Record call_facts (c c' : Connection) : Prop := {
  cf_params : params c' = params c;
  cf_evolves : evolves (inner (cn_state c)) (inner (cn_state c'));
  cf_poison : poisoned (cn_state c) = true → poisoned (cn_state c') = true;
  cf_wf : Connection_wf c → Connection_wf c';
}.

Lemma good_step_facts c c' : good_step c c' → call_facts c c'.
Proof.
  intros (s' & -> & He & Hs). split; [done|done|done|]. intros []. split; try done. by apply Hs.
Qed.

Lemma run_call_facts call c :
  call_wf call → Connection_wf c → call_facts c (run_call call c).2.
Proof.
  intros Hc Hwf. pose proof (fw_increasing _ (cw_features c Hwf)) as Hf.
  destruct call as [h request epoch|h|permit| |]; simpl in *.
  - pose proof (begin_request_begins h request epoch c Hc Hf) as Hb.
    destruct (begin_request _ _ _ c) as [r c']. by eapply good_step_facts, begin_good.
  - destruct (cancel h c) as [r c'] eqn:Hr. by eapply good_step_facts, cancel_good.
  - destruct (finish permit c) as [r c'] eqn:Hr. by eapply good_step_facts, finish_good.
  - apply good_step_facts, close_good.
  - split; [done|reflexivity|done|]. by intros [].
Qed.

#[export] Instance call_facts_preorder : PreOrder call_facts.
Proof.
  split; [intros c; split; done|].
  intros c1 c2 c3 [] []. split; [congruence|by etrans|auto|auto].
Qed.

Lemma run_cons call calls c :
  run (call :: calls) c =
    ((call, (run_call call c).1) :: (run calls (run_call call c).2).1, (run calls (run_call call c).2).2).
Proof. simpl. destruct (run_call call c). simpl. by destruct (run calls _). Qed.

Lemma run_facts calls c : Forall call_wf calls → Connection_wf c → call_facts c (run calls c).2.
Proof.
  revert c. induction calls as [|call calls IH]; intros c Hc Hwf; [reflexivity|].
  apply Forall_cons in Hc as [Hc Hcs]. rewrite run_cons. simpl.
  pose proof (run_call_facts call c Hc Hwf) as Hf. etrans; [exact Hf|].
  apply IH; [done|]. by apply (cf_wf _ _ Hf).
Qed.

(** The identifier a call admits is new, and is the last one afterwards. *)
Lemma begin_request_Ok h request epoch c permit c' :
  FrameHeader_wf h → increasing (cn_granted_features c) →
  begin_request h request epoch c = (Ok permit, c') →
  ∃ s, lock c = Some s ∧ header_ok c s h ∧ request_ok c request epoch ∧ has_room c s
  ∧ permit = permit_of h request
  ∧ c' = set_state c (set_in_flight (<[request_id h := Active]> (in_flight s)) (consume (request_id h) s)).
Proof.
  intros Hh Hf Hb. pose proof (begin_request_begins h request epoch c Hh Hf) as Hr. rewrite Hb in Hr.
  inversion Hr; subst. eauto 10.
Qed.

Lemma header_ok_fresh c s h :
  header_ok c s h → state_wf (lim_in_flight (cn_limits c)) s → last_request_id s < request_id h.
Proof. intros [] []. lia. Qed.

Lemma run_call_admitted call c i :
  call_wf call → Connection_wf c → i ∈ admitted [(call, (run_call call c).1)] →
  last_request_id (inner (cn_state c)) < i
  ∧ last_request_id (inner (cn_state (run_call call c).2)) = i.
Proof.
  intros Hc Hwf. unfold admitted. destruct call as [h request epoch|h|p| |]; simpl.
  2-5: repeat case_match; simpl in *; simplify_eq; by intros ?%not_elem_of_nil.
  destruct (begin_request h request epoch c) as [[permit|e|] c'] eqn:Hb; simpl;
    try by intros ?%not_elem_of_nil.
  intros ->%list_elem_of_singleton.
  apply begin_request_Ok in Hb as (s & Hl & Hh & _ & _ & -> & ->);
    [|done|apply (fw_increasing _ (cw_features c Hwf))].
  apply lock_inner in Hl as <-. simpl. split; [|done].
  eapply header_ok_fresh; [done|apply Hwf].
Qed.

Lemma admitted_cons e log : admitted (e :: log) = admitted [e] ++ admitted log.
Proof. unfold admitted. simpl. by case_match. Qed.
Lemma completed_cons e log : completed (e :: log) = completed [e] ++ completed log.
Proof. unfold completed. simpl. by case_match. Qed.

Lemma admitted_one e : admitted [e] = [] ∨ ∃ i, admitted [e] = [i].
Proof. unfold admitted. simpl. case_match; eauto. Qed.
Lemma completed_one e : completed [e] = [] ∨ ∃ i, completed [e] = [i].
Proof. unfold completed. simpl. case_match; eauto. Qed.

Lemma run_admitted calls c :
  Forall call_wf calls → Connection_wf c →
  increasing (admitted (run calls c).1)
  ∧ Forall (λ i, last_request_id (inner (cn_state c)) < i) (admitted (run calls c).1).
Proof.
  revert c. induction calls as [|call calls IH]; intros c Hc Hwf; [by repeat constructor|].
  apply Forall_cons in Hc as [Hc Hcs]. rewrite run_cons. cbn [fst]. rewrite admitted_cons.
  pose proof (run_call_facts call c Hc Hwf) as Hf.
  destruct (IH _ Hcs (cf_wf _ _ Hf Hwf)) as [Hi Hlt].
  pose proof (ev_last _ _ (cf_evolves _ _ Hf)) as Hle.
  destruct (admitted_one (call, (run_call call c).1)) as [Ha|[i Ha]]; rewrite Ha.
  - split; [done|]. eapply Forall_impl; [done|]. simpl. lia.
  - destruct (run_call_admitted call c i Hc Hwf) as [Hi1 Hi2]; [rewrite Ha; by left|].
    rewrite Hi2 in Hlt. split.
    + by constructor.
    + constructor; [done|]. eapply Forall_impl; [done|]. simpl. lia.
Qed.

Lemma finish_Ok permit c o c' :
  finish permit c = (Ok o, c') →
  ∃ s x, lock c = Some s ∧ in_flight s !! permit_request_id permit = Some x
  ∧ o = match x with Active => CompletedActive | Cancelled => CompletedCancelled end
  ∧ c' = set_state c (set_in_flight (delete (permit_request_id permit) (in_flight s)) s).
Proof.
  unfold finish, lock_state. destruct (lock c) as [s|] eqn:Hl; [|done].
  unfold mbind, stm_bind, get, modify, throw, mret, stm_ret.
  destruct (in_flight s !! permit_request_id permit) as [x|] eqn:Hi; [|done].
  intros [= <- <-]. eauto 10.
Qed.

(** A call puts in flight only what it admits. *)
Lemma run_call_in_flight call c i :
  call_wf call → Connection_wf c → i ∈ dom (in_flight (inner (cn_state (run_call call c).2))) →
  i ∈ dom (in_flight (inner (cn_state c))) ∨ i ∈ admitted [(call, (run_call call c).1)].
Proof.
  intros Hc Hwf Hi.
  destruct (decide (i ∈ dom (in_flight (inner (cn_state c))))) as [|Hni]; [by left|right].
  pose proof (ev_in_flight _ _ (cf_evolves _ _ (run_call_facts call c Hc Hwf)) i Hi) as [?|Hlt]; [done|].
  pose proof (cf_wf _ _ (run_call_facts call c Hc Hwf) Hwf) as Hwf'.
  pose proof (st_issued _ _ (cw_state _ Hwf') i
    (st_in_flight _ _ (cw_state _ Hwf') i Hi)) as [_ Hle].
  destruct call as [h request epoch|h|p| |]; simpl in *.
  - pose proof (begin_request_begins h request epoch c Hc (fw_increasing _ (cw_features c Hwf))) as Hb.
    destruct (begin_request h request epoch c) as [r c']. simpl in *.
    destruct Hb as [| |s e Hl|s e Hl|s Hl|s Hl]; try done; apply lock_inner in Hl as <-; simpl in *; try done.
    rewrite dom_insert in Hi. unfold admitted. simpl. set_solver.
  - exfalso. destruct (cancel h c) as [r c'] eqn:Hr. simpl in *. revert Hr Hi. unfold cancel, lock_state.
    destruct (lock c) as [s|] eqn:Hl; [|by intros [= <- <-]]. apply lock_inner in Hl as <-.
    unfold mbind, stm_bind. rewrite validate_common_header_spec. unfold get, fail_after, modify.
    repeat case_match; simplify_eq; simpl; try done. all: intros [= <- <-]; simpl; try done.
    by rewrite dom_alter.
  - exfalso. destruct (finish p c) as [r c'] eqn:Hr. simpl in *. revert Hr Hi. unfold finish, lock_state.
    destruct (lock c) as [s|] eqn:Hl; [|by intros [= <- <-]]. apply lock_inner in Hl as <-.
    unfold mbind, stm_bind, get, modify, throw, mret, stm_ret.
    destruct (in_flight _ !! _); intros [= <- <-]; simpl; [|done]. rewrite dom_delete. set_solver.
  - exfalso. revert Hi. unfold close. destruct (lock c) as [s|] eqn:Hl; [|done].
    apply lock_inner in Hl as <-. simpl. by rewrite dom_fmap.
  - done.
Qed.

Lemma run_call_completed call c i :
  call_wf call → Connection_wf c → i ∈ completed [(call, (run_call call c).1)] →
  i ∈ dom (in_flight (inner (cn_state c)))
  ∧ i ∉ dom (in_flight (inner (cn_state (run_call call c).2)))
  ∧ i ≤ last_request_id (inner (cn_state (run_call call c).2)).
Proof.
  intros Hc Hwf Hi. pose proof (cw_state _ Hwf) as [_ His _ Hd _ _].
  destruct call as [h request epoch|h|p| |]; unfold completed in Hi; simpl in *.
  1,2,4,5: repeat case_match; simplify_eq; by apply not_elem_of_nil in Hi.
  destruct (finish p c) as [[o|e|] c'] eqn:Hr; simpl in *; try by apply not_elem_of_nil in Hi.
  apply list_elem_of_singleton in Hi as ->.
  apply finish_Ok in Hr as (s & x & Hl & Hx & _ & ->). apply lock_inner in Hl as <-. simpl.
  assert (permit_request_id p ∈ dom (in_flight (inner (cn_state c)))) by (by eapply elem_of_dom_2).
  split_and!; [done|rewrite dom_delete; set_solver|]. apply His. by apply Hd.
Qed.

(** What a run completes was in flight before it or admitted by it. *)
Lemma run_completed calls c :
  Forall call_wf calls → Connection_wf c →
  NoDup (completed (run calls c).1)
  ∧ ∀ i, i ∈ completed (run calls c).1 →
      i ∈ dom (in_flight (inner (cn_state c))) ∨ i ∈ admitted (run calls c).1.
Proof.
  revert c. induction calls as [|call calls IH]; intros c Hc Hwf.
  { split; [constructor|]. by intros i ?%not_elem_of_nil. }
  apply Forall_cons in Hc as [Hc Hcs]. rewrite run_cons. cbn [fst].
  rewrite completed_cons, admitted_cons.
  pose proof (run_call_facts call c Hc Hwf) as Hf. pose proof (cf_wf _ _ Hf Hwf) as Hwf'.
  destruct (IH _ Hcs Hwf') as [Hn Hin].
  destruct (run_admitted calls _ Hcs Hwf') as [_ Hlt]. rewrite Forall_forall in Hlt. split.
  - apply NoDup_app. split_and!; [|intros i Hi1 Hi2|done].
    + destruct (completed_one (call, (run_call call c).1)) as [->|[i ->]]; [constructor|apply NoDup_singleton].
    + destruct (run_call_completed _ _ _ Hc Hwf Hi1) as (_ & Hnd & Hle).
      apply Hin in Hi2 as [?|?%Hlt]; [done|lia].
  - intros i [Hi|Hi]%elem_of_app.
    + left. by apply (run_call_completed _ _ _ Hc Hwf Hi).
    + setoid_rewrite elem_of_app. apply Hin in Hi as [?%(run_call_in_flight _ _ _ Hc Hwf)|?]; tauto.
Qed.

(** ** Closing and cancelling *)

Lemma run_call_closed call c :
  call_wf call → Connection_wf c → closed (inner (cn_state c)) = true →
  (∀ p, (run_call call c).1 ≠ RBegin (Ok p)) ∧ (run_call call c).1 ≠ RCancel (Ok tt).
Proof.
  intros Hc Hwf Hcl. destruct call as [h request epoch|h|p| |]; simpl.
  - destruct (begin_request h request epoch c) as [r c'] eqn:Hb. split; [|done]. intros p [= ->].
    apply begin_request_Ok in Hb as (s & <-%lock_inner & [Ho] & _); [|done|apply (fw_increasing _ (cw_features c Hwf))].
    congruence.
  - destruct (cancel h c) as [r c'] eqn:Hr. split; [done|]. intros [= ->]. revert Hr.
    unfold cancel, lock_state. destruct (lock c) as [s|] eqn:Hl; [|done]. apply lock_inner in Hl as <-.
    unfold mbind, stm_bind. by rewrite validate_common_header_spec, Hcl.
  - by destruct (finish p c).
  - done.
  - done.
Qed.

(** [i] is in flight and cancelled. *)
Definition cancelled_in (i : Z) (c : Connection) : Prop :=
  in_flight (inner (cn_state c)) !! i = Some Cancelled.

Lemma run_call_cancelled call c i :
  call_wf call → Connection_wf c → cancelled_in i c →
  (∀ p, call = CFinish p → permit_request_id p ≠ i) →
  cancelled_in i (run_call call c).2.
Proof.
  unfold cancelled_in. intros Hc Hwf Hi Hp.
  pose proof (st_issued _ _ (cw_state _ Hwf) i
    (st_in_flight _ _ (cw_state _ Hwf) i (elem_of_dom_2 _ _ _ Hi))) as [_ Hle].
  destruct call as [h request epoch|h|p| |]; simpl.
  - pose proof (begin_request_begins h request epoch c Hc (fw_increasing _ (cw_features c Hwf))) as Hb.
    destruct (begin_request h request epoch c) as [r c'].
    destruct Hb as [| |s e Hl|s e Hl|s Hl|s Hl Hh]; try done; apply lock_inner in Hl as <-; simpl; try done.
    apply header_ok_fresh in Hh; [|apply Hwf]. rewrite lookup_insert_ne by lia. done.
  - destruct (cancel h c) as [r c'] eqn:Hr. revert Hr. unfold cancel, lock_state.
    destruct (lock c) as [s|] eqn:Hl; [|by intros [= <- <-]]. apply lock_inner in Hl as <-.
    unfold mbind, stm_bind. rewrite validate_common_header_spec. unfold get, fail_after, modify.
    repeat case_match; simplify_eq; simpl; intros [= <- <-]; simpl; try done.
    destruct (decide (request_id h = i)) as [->|]; [|by rewrite lookup_alter_ne].
    by rewrite lookup_alter_eq, Hi.
  - destruct (finish p c) as [r c'] eqn:Hr. revert Hr. unfold finish, lock_state.
    destruct (lock c) as [s|] eqn:Hl; [|by intros [= <- <-]]. apply lock_inner in Hl as <-.
    unfold mbind, stm_bind, get, modify, throw, mret, stm_ret. specialize (Hp p eq_refl).
    destruct (in_flight _ !! permit_request_id p); intros [= <- <-]; simpl; [|done].
    by rewrite lookup_delete_ne.
  - unfold close. destruct (lock c) as [s|] eqn:Hl; [|done]. apply lock_inner in Hl as <-. simpl.
    by rewrite lookup_fmap, Hi.
  - done.
Qed.

Lemma run_cancelled calls c i :
  Forall call_wf calls → Connection_wf c → cancelled_in i c →
  (∀ p, CFinish p ∈ calls → permit_request_id p ≠ i) →
  cancelled_in i (run calls c).2.
Proof.
  revert c. induction calls as [|call calls IH]; intros c Hc Hwf Hi Hp; [done|].
  apply Forall_cons in Hc as [Hc Hcs]. rewrite run_cons. cbn [snd].
  apply IH; [done|by apply (cf_wf _ _ (run_call_facts call c Hc Hwf))| |].
  - apply run_call_cancelled; try done. intros p ->. apply Hp. by left.
  - intros p ?. apply Hp. by right.
Qed.

Lemma lock_state_poison {E A} e (body : stm ConnectionState E A) c :
  poisoned (cn_state (lock_state e body c).2) = poisoned (cn_state c).
Proof. unfold lock_state. destruct (lock c) as [s|]; [|done]. by destruct (body s). Qed.

Lemma run_call_poison call c :
  call ≠ CPoison → poisoned (cn_state (run_call call c).2) = poisoned (cn_state c).
Proof.
  intros Hne. destruct call as [h request epoch|h|p| |]; simpl; try done.
  - rewrite <-(lock_state_poison BeginConnection _ c : poisoned (cn_state (begin_request h request epoch c).2) = _).
    by destruct (begin_request _ _ _ _).
  - rewrite <-(lock_state_poison id _ c : poisoned (cn_state (cancel h c).2) = _). by destruct (cancel _ _).
  - rewrite <-(lock_state_poison id _ c : poisoned (cn_state (finish p c).2) = _). by destruct (finish _ _).
  - unfold close. by destruct (lock c).
Qed.

Lemma run_poison calls c :
  CPoison ∉ calls → poisoned (cn_state (run calls c).2) = poisoned (cn_state c).
Proof.
  revert c. induction calls as [|call calls IH]; intros c Hn; [done|].
  rewrite run_cons. cbn [snd]. rewrite IH by set_solver. apply run_call_poison. set_solver.
Qed.

Lemma finish_cancelled c p :
  poisoned (cn_state c) = false → cancelled_in (permit_request_id p) c →
  (finish p c).1 = Ok CompletedCancelled.
Proof.
  unfold cancelled_in, finish, lock_state, lock. intros -> Hi.
  unfold mbind, stm_bind, get, modify, throw, mret, stm_ret. by rewrite Hi.
Qed.

(** ** Negotiation *)

Record negotiable (derived : ClientRole) (process_id : Z) (build : bytes) (hello : ClientHello)
    (supported : list Z) (nonce cid : bytes) (v : Version) : Prop := {
  ng_role : claimed_role hello = derived;
  ng_build : component_build_id hello = build;
  ng_client : ¬ Version_lt v (minimum hello) ∧ ¬ Version_lt (maximum hello) v;
  ng_server : ¬ Version_lt v MINIMUM_VERSION ∧ ¬ Version_lt CURRENT_VERSION v;
  ng_greatest w : ¬ Version_lt w (minimum hello) → ¬ Version_lt (maximum hello) w →
    ¬ Version_lt CURRENT_VERSION w → ¬ Version_lt v w;
  ng_supported : increasing supported ∧ required_features hello ⊆ supported;
  ng_hello : FEATURE_WINDOWS_HELLO ∈ required_features hello → ¬ Version_lt v WINDOWS_HELLO_VERSION;
  ng_passkey : FEATURE_PASSKEY_PROVIDER ∈ required_features hello →
    ¬ Version_lt v PASSKEY_PROVIDER_VERSION;
  ng_browser : FEATURE_BROWSER_FILL ∈ required_features hello → ¬ Version_lt v BROWSER_FILL_VERSION;
  ng_random : process_id ≠ 0 ∧ nonce ≠ zeros 32 ∧ cid ≠ zeros 16;
}.

Lemma feature_too_new_false f x v w :
  increasing f → feature_too_new f x v w = false ↔ (x ∈ f → ¬ Version_lt v w).
Proof.
  intros Hf. unfold feature_too_new. rewrite andb_false_iff, Version_ltb_ge.
  destruct (binary_search f x) eqn:Hb.
  - apply binary_search_spec in Hb; [|done]. naive_solver.
  - split; [|by left]. intros _ Hx. apply binary_search_spec in Hx; [congruence|done].
Qed.

Lemma existsb_unsupported supported required :
  increasing supported →
  existsb (λ r, negb (binary_search supported r)) required = false ↔ required ⊆ supported.
Proof.
  intros Hs. rewrite <-not_true_iff_false, existsb_exists. split.
  - intros Hn x Hx. apply binary_search_spec; [done|].
    destruct (binary_search supported x) eqn:Hb; [done|]. destruct Hn. exists x.
    rewrite Hb. split; [by apply list_elem_of_In|done].
  - intros Hsub (x & Hx & Hb). apply negb_true_iff, not_true_iff_false in Hb.
    apply Hb, binary_search_spec; [done|]. by apply Hsub, list_elem_of_In.
Qed.

Lemma Version_min_greatest a b :
  ¬ Version_lt a (Version_min a b) ∧ ¬ Version_lt b (Version_min a b)
  ∧ ∀ w, ¬ Version_lt a w → ¬ Version_lt b w → ¬ Version_lt (Version_min a b) w.
Proof.
  destruct (Version_min_spec a b) as [[-> ?]|[-> ?]]; unfold Version_lt in *; split_and!; try done; lia.
Qed.

Lemma Version_lt_asym v w : Version_lt v w → ¬ Version_lt w v.
Proof. unfold Version_lt. lia. Qed.

Lemma Version_antisym v w : ¬ Version_lt v w → ¬ Version_lt w v → v = w.
Proof. destruct v, w. unfold Version_lt. simpl. intros. f_equal; lia. Qed.

(** The greatest common version, if there is one, is the one selected. *)
Lemma negotiable_version derived process build hello supported nonce cid v :
  negotiable derived process build hello supported nonce cid v →
  v = Version_min (maximum hello) CURRENT_VERSION.
Proof.
  intros [_ _ [] [] Hg _ _ _ _ _].
  destruct (Version_min_greatest (maximum hello) CURRENT_VERSION) as (? & ? & Hm).
  assert (¬ Version_lt (Version_min (maximum hello) CURRENT_VERSION) v) by (by apply Hm).
  apply Version_antisym; [|done]. apply Hg; try done. unfold Version_lt in *; lia.
Qed.

Definition fresh_state : ConnectionState :=
  {| last_request_id := 0; issued_request_ids := ∅; in_flight := ∅; closed := false |}.

(** The connection and the reply a negotiation returns. *)
Definition negotiated (derived : ClientRole) (process_id : Z) (hello : ClientHello)
    (nonce cid : bytes) (state : AgentState) (epoch : Z) (limits : ConnectionLimits) (v : Version) :
    Connection * ServerHello :=
  ({| cn_role := derived; cn_version := v; cn_process_id := process_id;
      cn_granted_features := required_features hello; cn_connection_id := cid;
      cn_limits := limits; cn_state := Build_Mutex false fresh_state |},
   {| server_nonce := nonce; selected_version := v; derived_role := derived;
      granted_features := required_features hello;
      maximum_payload_bytes := lim_payload_bytes limits;
      maximum_in_flight := lim_in_flight limits; agent_state := state; unlock_epoch := epoch |}).

Lemma negotiate_sound derived process build hello supported nonce cid state epoch limits res :
  ClientHello_wf hello → length nonce = 32%nat → u64 epoch → limits_wf limits →
  Connection_negotiate derived process build hello supported nonce cid state epoch limits = Ok res →
  ∃ v, negotiable derived process build hello supported nonce cid v
    ∧ res = negotiated derived process hello nonce cid state epoch limits v
    ∧ ServerHello_wf res.2.
Proof.
  intros Hh Hn He Hl Hr. pose proof Hh as [_ _ [_ [? ?]] _ _ [Hty Hf _]]. destruct Hl as [_ Hl].
  unfold Connection_negotiate in Hr. inv_ok Hr. simp_guards.
  destruct (Version_min_greatest (maximum hello) CURRENT_VERSION) as (? & ? & Hm).
  set (v := Version_min _ _) in *.
  match goal with H : ServerHello_new _ _ _ _ _ _ _ _ = Ok _ |- _ => apply ServerHello_new_Ok in H as [-> Hw] end;
    try done.
  - exists v. split_and!; [|done|done].
    match goal with H : adjacent_any _ _ = false |- _ => apply adjacent_geb_false in H end.
    repeat match goal with
    | H : Version_ltb _ _ = false |- _ => apply Version_ltb_ge in H
    | H : feature_too_new _ _ _ _ = false |- _ => rewrite (feature_too_new_false _ _ _ _ Hf) in H
    | Hs : increasing supported, H : existsb _ _ = false |- _ =>
        rewrite (existsb_unsupported _ _ Hs) in H
    end.
    split; split_and?; try done. intros w ? ? ?. by apply Hm.
  - unfold v, Version_min. by destruct (Version_cmp _ _).
  - solve_size.
Qed.

Lemma negotiate_complete derived process build hello supported nonce cid state epoch limits v :
  ClientHello_wf hello → length nonce = 32%nat → u64 epoch → limits_wf limits →
  negotiable derived process build hello supported nonce cid v →
  Connection_negotiate derived process build hello supported nonce cid state epoch limits =
    Ok (negotiated derived process hello nonce cid state epoch limits v).
Proof.
  intros Hh Hn He Hl Hng. pose proof (negotiable_version _ _ _ _ _ _ _ _ Hng) as Hv.
  pose proof Hh as [_ _ [_ [? ?]] _ _ [Hty Hf Hc]]. destruct Hl as [Hlp Hli].
  destruct Hng as [Hr Hb [Hc1 Hc2] [Hs1 Hs2] _ [Hsi Hss] Hf1 Hf2 Hf3 (Hp & Hno & Hci)].
  unfold Connection_negotiate. rewrite <-Hv, (bool_decide_false (claimed_role hello ≠ derived)),
    (bool_decide_false (component_build_id hello ≠ build)) by (intros Hx; by apply Hx).
  rewrite (proj2 (Version_ltb_ge _ _) Hc1), (proj2 (Version_ltb_ge _ _) Hs1).
  assert (major v = 1) as Hmaj.
  { unfold Version_lt, MINIMUM_VERSION, CURRENT_VERSION in *. simpl in *. lia. }
  rewrite Hmaj. cbn [orb negb Z.eqb Pos.eqb major CURRENT_VERSION Version_new fail_if mbind result_bind].
  rewrite (proj2 (adjacent_geb_false _) Hsi), (proj2 (existsb_unsupported _ _ Hsi) Hss).
  cbn [fail_if mbind result_bind].
  rewrite !(proj2 (feature_too_new_false _ _ _ _ Hf)) by done. cbn [fail_if mbind result_bind].
  rewrite (proj2 (Z.eqb_neq _ _) Hp), !bool_decide_false by done.
  cbn [orb fail_if mbind result_bind].
  assert (ServerHello_new nonce v derived (required_features hello) (lim_payload_bytes limits)
    (lim_in_flight limits) state epoch =
    Ok (negotiated derived process hello nonce cid state epoch limits v).2) as ->; [|done].
  assert (Version_typed v) by (rewrite Hv; unfold Version_min; by destruct (Version_cmp _ _)).
  apply ServerHello_new_Ok; try done; [solve_size|].
  split; [done|]. split; try done; simpl; try lia. by rewrite Hmaj.
Qed.

Lemma state_wf_fresh l : 0 ≤ l → state_wf l fresh_state.
Proof.
  intros. split; simpl; try done; try set_solver; rewrite ?size_empty, ?map_size_empty;
    unfold MAX_REQUESTS_PER_CONNECTION; lia.
Qed.

Lemma negotiated_wf derived process build hello supported nonce cid state epoch limits v :
  ClientHello_wf hello → limits_wf limits →
  negotiable derived process build hello supported nonce cid v →
  Connection_wf (negotiated derived process hello nonce cid state epoch limits v).1.
Proof.
  intros Hh Hl []. split; simpl; try done; [apply Hh|tauto|].
  apply state_wf_fresh. destruct Hl. lia.
Qed.

Lemma effective_timeout_bounds operation requested :
  1 ≤ requested →
  1 ≤ effective_timeout operation requested ≤ requested
  ∧ effective_timeout operation requested ≤ PASSKEY_TIMEOUT_MS.
Proof.
  intros. unfold effective_timeout, PASSKEY_TIMEOUT_MS, UNLOCK_TIMEOUT_MS, ORDINARY_TIMEOUT_MS.
  destruct operation; lia.
Qed.

(** What a run admits is issued at its end. *)
Lemma run_admitted_issued calls c i :
  Forall call_wf calls → Connection_wf c → i ∈ admitted (run calls c).1 →
  i ∈ issued_request_ids (inner (cn_state (run calls c).2)).
Proof.
  revert c. induction calls as [|call calls IH]; intros c Hc Hwf; [by intros ?%not_elem_of_nil|].
  apply Forall_cons in Hc as [Hc Hcs]. rewrite run_cons. cbn [fst snd]. rewrite admitted_cons.
  pose proof (run_call_facts call c Hc Hwf) as Hf. pose proof (cf_wf _ _ Hf Hwf) as Hwf'.
  intros [Hi|Hi]%elem_of_app; [|by apply IH].
  apply (ev_issued _ _ (cf_evolves _ _ (run_facts calls _ Hcs Hwf'))).
  destruct (run_call_admitted call c i Hc Hwf Hi) as [Hlt <-].
  apply (st_last_issued _ _ (cw_state _ Hwf')). pose proof (st_last _ _ (cw_state _ Hwf)). lia.
Qed.

Lemma increasing_NoDup (l : list Z) : increasing l → NoDup l.
Proof.
  induction 1 as [|a l Hs IH Ha]; constructor; [|done].
  rewrite Forall_forall in Ha. intros Hin%Ha. lia.
Qed.

Lemma is_closed_set_state c s : lock c = Some s → ∀ s', is_closed (set_state c s') = closed s'.
Proof. intros Hl s'. unfold is_closed. by rewrite (lock_set_state c s). Qed.

(** A consumed identifier is refused. *)
Lemma begin_request_again c s h request epoch :
  lock c = Some s → header_ok c s h → 0 ≤ payload_length h < 2 ^ 64 → 0 ≤ last_request_id s →
  (begin_request h request epoch (set_state c (consume (request_id h) s))).1 =
    Err (BeginConnection InvalidFrame).
Proof.
  intros Hl [Ho Hk Hv Hc Hp Hf _] Hpl Hlast. unfold begin_request, lock_state.
  rewrite (lock_set_state c s) by done. unfold map_err_st, validate_request_header.
  unfold mbind, stm_bind. rewrite validate_common_header_spec. simpl closed. rewrite Ho.
  rewrite Hk, Hv, Hc, !bool_decide_false by (intros Hx; by apply Hx). cbn [orb].
  unfold fail_after at 1. rewrite try_from_uint by done.
  change (cn_limits (set_state c _)) with (cn_limits c).
  destruct (Z.gtb_spec (payload_length h) (lim_payload_bytes (cn_limits c))); [lia|]. cbn [map_err].
  unfold record_request_id, mbind, stm_bind, get, fail_after at 1. simpl last_request_id.
  destruct (Z.eqb_spec (request_id h) 0); [lia|]. by rewrite Z.leb_refl.
Qed.

(** ** Properties *)

(** C32: negotiation succeeds exactly when the claimed role and build match the
    derived ones, the two version ranges meet, every required feature is
    supported and introduced by the selected version, and the identifiers are
    nonzero; it then selects the greatest common version, takes the role from the
    derived identity, grants exactly the required features, and returns a fresh
    well-formed connection with a reply that the hello decoder accepts. *)
Theorem negotiation_exact derived process build hello supported nonce cid state epoch limits :
  ClientHello_wf hello → length nonce = 32%nat → u64 epoch → limits_wf limits →
  ∀ res,
    Connection_negotiate derived process build hello supported nonce cid state epoch limits = Ok res ↔
    ∃ v, negotiable derived process build hello supported nonce cid v
      ∧ res = negotiated derived process hello nonce cid state epoch limits v
      ∧ Connection_wf res.1 ∧ ServerHello_wf res.2.
Proof.
  intros Hh Hn He Hl res. split.
  - intros Hr. destruct (negotiate_sound _ _ _ _ _ _ _ _ _ _ _ Hh Hn He Hl Hr) as (v & Hv & -> & Hw).
    exists v. split_and!; [done|done|by eapply negotiated_wf|done].
  - intros (v & Hv & -> & _). by apply negotiate_complete.
Qed.

(** C24: the connection invariant holds after every interleaving of calls,
    thread panics included: identifiers issued lie between one and the last one,
    what is in flight was issued, at most 65536 identifiers are issued, at most
    the negotiated limit (and so at most four) of requests are in flight, and the
    negotiated parameters never change. *)
Theorem connection_invariant c calls :
  Connection_wf c → Forall call_wf calls →
  Connection_wf (run calls c).2 ∧ params (run calls c).2 = params c
  ∧ in_flight_count (run calls c).2 ≤ MAX_IN_FLIGHT_PER_CONNECTION.
Proof.
  intros Hwf Hc. pose proof (run_facts calls c Hc Hwf) as Hf.
  pose proof (cf_wf _ _ Hf Hwf) as Hw. split_and!; [done|apply Hf|].
  unfold in_flight_count. destruct (lock (run calls c).2) as [s|] eqn:Hl; simpl; [|done].
  apply lock_inner in Hl as <-. destruct Hw as [_ _ _ [_ ?] [_ _ _ _ _ ?]]. lia.
Qed.

(** C2: [begin_request] admits a request exactly when the connection is open
    and not poisoned, the frame is a request of this connection with a fresh
    identifier and a payload within the limit, the operation is allowed for the
    role and granted by feature, carries an idempotency key and the current epoch
    when it needs them, and there is room; the permit and the new state are
    determined, and the permit's timeout is positive and at most both the
    requested one and 120 seconds. *)
Theorem begin_request_admits_iff c h request epoch permit c' :
  Connection_wf c → FrameHeader_wf h → RequestEnvelope_wf request →
  begin_request h request epoch c = (Ok permit, c') ↔
  ∃ s, lock c = Some s ∧ header_ok c s h ∧ request_ok c request epoch ∧ has_room c s
    ∧ permit = permit_of h request
    ∧ 1 ≤ permit_effective_timeout_ms permit ≤ Z.min (re_timeout_ms request) PASSKEY_TIMEOUT_MS
    ∧ c' = set_state c (set_in_flight (<[request_id h := Active]> (in_flight s))
             (consume (request_id h) s)).
Proof.
  intros Hwf Hh Hr. pose proof (fw_increasing _ (cw_features c Hwf)) as Hf. split.
  - intros (s & ? & ? & ? & ? & -> & ->)%begin_request_Ok; try done. exists s. split_and!; try done; simpl;
      destruct (effective_timeout_bounds (re_operation request) (re_timeout_ms request)) as [[? ?] ?];
      destruct Hr as [_ [? ?] _ _]; unfold uint in *; lia.
  - intros (s & Hl & Hho & Hro & Hroom & -> & _ & ->).
    pose proof (begin_request_begins h request epoch c Hh Hf) as Hb.
    destruct (begin_request h request epoch c) as [r c1].
    destruct Hb; simplify_eq; try done. by destruct Hho; congruence.
Qed.

(** C40: a refused request: a connection error leaves the connection closed (or
    it is poisoned); every other refusal (role or feature, missing key, stale
    epoch, no room) keeps the connection open and the requests in flight, and
    only consumes the identifier, which is refused from then on. *)
Theorem begin_request_refusals c h request epoch e c' :
  Connection_wf c → FrameHeader_wf h →
  begin_request h request epoch c = (Err e, c') →
  match e with
  | BeginConnection _ => is_closed c' = true
  | _ =>
      ∃ s, lock c = Some s ∧ header_ok c s h ∧ c' = set_state c (consume (request_id h) s)
        ∧ is_closed c' = false ∧ in_flight_count c' = in_flight_count c
        ∧ (begin_request h request epoch c').1 = Err (BeginConnection InvalidFrame)
  end.
Proof.
  intros Hwf Hh He. pose proof (fw_increasing _ (cw_features c Hwf)) as Hf.
  pose proof (begin_request_begins h request epoch c Hh Hf) as Hb. rewrite He in Hb.
  pose proof (fh_payload h Hh) as Hp. unfold MAX_PAYLOAD_BYTES in Hp.
  pose proof (st_last _ _ (cw_state c Hwf)) as Hlast.
  assert (∀ s, lock c = Some s → header_ok c s h →
    ∃ s0, lock c = Some s0 ∧ header_ok c s0 h
      ∧ set_state c (consume (request_id h) s) = set_state c (consume (request_id h) s0)
      ∧ is_closed (set_state c (consume (request_id h) s)) = false
      ∧ in_flight_count (set_state c (consume (request_id h) s)) = in_flight_count c
      ∧ (begin_request h request epoch (set_state c (consume (request_id h) s))).1
        = Err (BeginConnection InvalidFrame)) as Hnonfatal.
  { intros s Hl Hho. exists s. split_and!; try done.
    - rewrite (is_closed_set_state c s) by done. apply Hho.
    - unfold in_flight_count. by rewrite (lock_set_state c s), Hl.
    - apply begin_request_again; try done; [lia|]. by apply lock_inner in Hl as <-. }
  inversion Hb as [Hl|s Hl Hcl|s er Hl Hcl Hno|s er Hl Hho Hro Her|s Hl Hho Hro Hroom|]; subst.
  - unfold is_closed. by rewrite Hl.
  - unfold is_closed. by rewrite Hl.
  - by rewrite (is_closed_set_state c s).
  - destruct Her as [->|[->| ->]]; by apply Hnonfatal.
  - by apply Hnonfatal.
Qed.

(** C1: request identifiers are single use in every interleaving: on a fresh
    connection the admitted identifiers are strictly increasing, at most 65536 of
    them, every completed request was admitted, and none completes twice. *)
Theorem requests_single_use c calls :
  Connection_wf c → inner (cn_state c) = fresh_state → Forall call_wf calls →
  let log := (run calls c).1 in
  increasing (admitted log) ∧ NoDup (completed log) ∧ completed log ⊆ admitted log
  ∧ len (admitted log) ≤ MAX_REQUESTS_PER_CONNECTION.
Proof.
  intros Hwf Hs Hc log. destruct (run_admitted calls c Hc Hwf) as [Hi _].
  destruct (run_completed calls c Hc Hwf) as [Hn Hin]. subst log. split_and!; try done.
  - intros i Hi'%Hin. rewrite Hs in Hi'. simpl in Hi'. set_solver.
  - pose proof (cf_wf _ _ (run_facts calls c Hc Hwf) Hwf) as Hw.
    pose proof (st_budget _ _ (cw_state _ Hw)). unfold len.
    rewrite <-(size_list_to_set (C:=gset Z)) by (by apply increasing_NoDup).
    etrans; [|done]. apply inj_le, subseteq_size. intros i Hi'%elem_of_list_to_set.
    by apply run_admitted_issued.
Qed.

(** Closing is final: on a closed connection no interleaving of calls
    admits a request or accepts a cancellation, and it stays closed. *)
Theorem closed_is_final c calls :
  Connection_wf c → closed (inner (cn_state c)) = true → Forall call_wf calls →
  is_closed (run calls c).2 = true ∧ admitted (run calls c).1 = []
  ∧ ∀ call, (call, RCancel (Ok tt)) ∉ (run calls c).1.
Proof.
  intros Hwf Hcl Hc. split.
  { pose proof (ev_closed _ _ (cf_evolves _ _ (run_facts calls c Hc Hwf)) Hcl) as Hf.
    unfold is_closed. destruct (lock (run calls c).2) as [s|] eqn:Hl; [|done].
    by apply lock_inner in Hl as <-. }
  revert c Hwf Hcl. induction calls as [|call calls IH]; intros c Hwf Hcl.
  { split; [done|]. intros call. apply not_elem_of_nil. }
  apply Forall_cons in Hc as [Hc Hcs]. rewrite run_cons. cbn [fst]. rewrite admitted_cons.
  pose proof (run_call_facts call c Hc Hwf) as Hf.
  destruct (IH Hcs _ (cf_wf _ _ Hf Hwf) (ev_closed _ _ (cf_evolves _ _ Hf) Hcl)) as [-> Hno].
  destruct (run_call_closed call c Hc Hwf Hcl) as [Hb Hcan]. split.
  - unfold admitted. simpl. repeat case_match; naive_solver.
  - intros call' [Heq|Hin]%elem_of_cons; [naive_solver|]. by eapply Hno.
Qed.

(** C25: cancellation sticks: once a request in flight is cancelled, by its own
    cancel frame or by closing the connection, every interleaving of other calls
    leaves it cancelled, and its completion reports the cancellation. *)
Theorem cancellation_sticks c calls permit h :
  Connection_wf c → Forall call_wf calls → FrameHeader_wf h → poisoned (cn_state c) = false →
  permit_request_id permit ∈ dom (in_flight (inner (cn_state c))) →
  (∀ p, CFinish p ∈ calls → permit_request_id p ≠ permit_request_id permit) → CPoison ∉ calls →
  (finish permit (run calls (close c)).2).1 = Ok CompletedCancelled
  ∧ (request_id h = permit_request_id permit → (cancel h c).1 = Ok tt →
     (finish permit (run calls (cancel h c).2).2).1 = Ok CompletedCancelled).
Proof.
  intros Hwf Hc Hh Hp [x Hx]%elem_of_dom Hnf Hnp.
  assert (∀ c', call_facts c c' → poisoned (cn_state c') = false →
    cancelled_in (permit_request_id permit) c' →
    (finish permit (run calls c').2).1 = Ok CompletedCancelled) as Hrun.
  { intros c' Hf Hp' Hi. apply finish_cancelled; [by rewrite run_poison|].
    apply run_cancelled; try done. by apply (cf_wf _ _ Hf). }
  assert (lock c = Some (inner (cn_state c))) as Hl by (unfold lock; by rewrite Hp).
  split.
  - apply Hrun; [apply good_step_facts, close_good|unfold close; by rewrite Hl|].
    unfold cancelled_in, close. rewrite Hl. simpl. by rewrite lookup_fmap, Hx.
  - intros Hid Hok. destruct (cancel h c) as [r c'] eqn:Hr. simpl in Hok. subst r. cbn [snd].
    apply Hrun; [by eapply good_step_facts, cancel_good| |].
    + pose proof (run_call_poison (CCancel h) c ltac:(done)) as Hpp. simpl in Hpp.
      by rewrite Hr, Hp in Hpp.
    + revert Hr. unfold cancel, lock_state, cancelled_in. rewrite Hl.
      unfold mbind, stm_bind. rewrite validate_common_header_spec. unfold get, fail_after, modify.
      repeat case_match; simplify_eq; simpl; intros [= <-]. simpl.
      by rewrite Hid, lookup_alter_eq, Hx.
Qed.

(** ** Examples *)

Definition example_hello : ClientHello :=
  {| client_nonce := replicate 32 x01; minimum := Version_new 1 0; maximum := Version_new 1 9;
     claimed_role := Desktop; component_build_id := replicate 32 x02; required_features := [1] |}.
Definition example_limits : ConnectionLimits := {| lim_payload_bytes := 65536; lim_in_flight := 1 |}.
Definition example_negotiated : Connection * ServerHello :=
  negotiated Desktop 7 example_hello (replicate 32 x03) (replicate 16 x04) Unlocked 5 example_limits
    CURRENT_VERSION.
Definition example_connection : Connection := example_negotiated.1.
Definition example_header (k : MessageKind) (id : Z) : FrameHeader :=
  {| kind := k; version := CURRENT_VERSION; payload_length := if decide (k = MessageKind.Cancel) then 0 else 9;
     connection_id := replicate 16 x04; request_id := id |}.
Definition example_request : RequestEnvelope :=
  {| re_operation := OperationCode.GetAccount; re_unlock_epoch := 5; re_timeout_ms := 9000;
     re_idempotency_key := None; re_body := [] |}.

Lemma example_hello_wf : ClientHello_wf example_hello.
Proof.
  split; simpl; unfold Version_typed, Version_lt, uint; simpl; try (split_and?; done || lia); try lia.
  split; [repeat constructor; unfold uint; lia|repeat constructor|vm_compute; congruence].
Qed.
Lemma example_limits_wf : limits_wf example_limits.
Proof. split; split; done. Qed.
Lemma example_negotiable :
  negotiable Desktop 7 (replicate 32 x02) example_hello [1; 2; 3] (replicate 32 x03)
    (replicate 16 x04) CURRENT_VERSION.
Proof.
  split; try done; unfold Version_lt; simpl; try (split; lia); try lia.
  split; [by apply adjacent_geb_false|set_solver].
Qed.
Lemma example_connection_wf : Connection_wf example_connection.
Proof. by eapply (negotiated_wf _ _ _ _ _ _ _ _ _ _ _ example_hello_wf example_limits_wf), example_negotiable. Qed.
Lemma example_header_wf k id :
  k = MessageKind.Request ∨ k = MessageKind.Cancel → 1 ≤ id < 2 ^ 64 → FrameHeader_wf (example_header k id).
Proof.
  intros [->| ->] ?; split; simpl; try done; try (unfold Version_typed, uint; simpl; lia);
    unfold kind_rule; simpl; split_and!; done || lia.
Qed.
Lemma example_request_wf : RequestEnvelope_wf example_request.
Proof. split; simpl; unfold uint; try done; vm_compute; congruence. Qed.

(** A request, its cancellation and its completion. *)
Definition example_calls : list Call :=
  [CBegin (example_header MessageKind.Request 1) example_request 5;
   CBegin (example_header MessageKind.Request 2) example_request 5;
   CCancel (example_header MessageKind.Cancel 1);
   CFinish (permit_of (example_header MessageKind.Request 1) example_request)].
Lemma example_calls_wf : Forall call_wf example_calls.
Proof.
  unfold example_calls. rewrite !Forall_cons. simpl.
  split_and!; try apply example_header_wf; auto; try lia; try constructor.
Qed.

Lemma negotiation_exact_witness :
  Connection_negotiate Desktop 7 (replicate 32 x02) example_hello [1; 2; 3] (replicate 32 x03)
    (replicate 16 x04) Unlocked 5 example_limits = Ok example_negotiated.
Proof.
  apply (negotiation_exact Desktop 7 (replicate 32 x02) example_hello [1; 2; 3] (replicate 32 x03)
    (replicate 16 x04) Unlocked 5 example_limits example_hello_wf eq_refl
    (conj (Zle_bool_imp_le 0 5 eq_refl) (eq_refl : 5 < 2 ^ 64)) example_limits_wf).
  exists CURRENT_VERSION. split_and!; [apply example_negotiable|done|apply example_connection_wf|].
  split; simpl; unfold Version_typed, uint; simpl; try (split_and?; done || lia); try lia.
  apply example_hello_wf.
Defined.

Lemma connection_invariant_witness :
  Connection_wf (run example_calls example_connection).2.
Proof.
  apply (connection_invariant example_connection example_calls
    example_connection_wf example_calls_wf).
Defined.

Lemma begin_request_admits_iff_witness :
  is_Some (lock example_connection) ∧
  permit_effective_timeout_ms (permit_of (example_header MessageKind.Request 1) example_request) = 5000.
Proof.
  destruct (proj1 (begin_request_admits_iff example_connection (example_header MessageKind.Request 1)
    example_request 5 _ _ example_connection_wf
    (example_header_wf MessageKind.Request 1 (or_introl eq_refl) ltac:(lia)) example_request_wf) eq_refl)
    as (s & Hl & _). split; [by exists s|reflexivity].
Defined.

Lemma begin_request_refusals_witness :
  is_closed (begin_request (example_header MessageKind.Request 2) example_request 5 example_connection).2 = true.
Proof.
  apply (begin_request_refusals example_connection (example_header MessageKind.Request 2) example_request 5
    (BeginConnection InvalidFrame) _ example_connection_wf
    (example_header_wf MessageKind.Request 2 (or_introl eq_refl) ltac:(lia)) eq_refl).
Defined.

Lemma requests_single_use_witness :
  admitted (run example_calls example_connection).1 = [1] ∧ NoDup (completed (run example_calls example_connection).1).
Proof.
  split; [vm_compute; reflexivity|].
  apply (requests_single_use example_connection example_calls example_connection_wf eq_refl example_calls_wf).
Defined.

Lemma closed_is_final_witness :
  is_closed (run example_calls (close example_connection)).2 = true.
Proof.
  apply (closed_is_final (close example_connection) example_calls); [|reflexivity|apply example_calls_wf].
  apply (cf_wf _ _ (good_step_facts _ _ (close_good example_connection))), example_connection_wf.
Defined.

Lemma cancellation_sticks_witness :
  let c := (begin_request (example_header MessageKind.Request 1) example_request 5 example_connection).2 in
  let permit := permit_of (example_header MessageKind.Request 1) example_request in
  (finish permit (run [CClose] (cancel (example_header MessageKind.Cancel 1) c).2).2).1 = Ok CompletedCancelled.
Proof.
  intros c permit.
  assert (Connection_wf c) as Hwf.
  { apply (cf_wf _ _ (run_call_facts (CBegin (example_header MessageKind.Request 1) example_request 5)
      example_connection (example_header_wf MessageKind.Request 1 (or_introl eq_refl) ltac:(lia))
      example_connection_wf) example_connection_wf). }
  apply (cancellation_sticks c [CClose] permit (example_header MessageKind.Cancel 1) Hwf).
  - by repeat constructor.
  - apply example_header_wf; [by right|lia].
  - reflexivity.
  - apply elem_of_dom. eexists. vm_compute. reflexivity.
  - intros p Hp. set_solver.
  - set_solver.
  - reflexivity.
  - reflexivity.
Defined.
