(* ===== verification/Events.v ===== *)
(** * Agent events and the bounded event queue
    ([crates/agent-protocol/src/events.rs]) *)

From S2P Require Import Prelude RustStd Cbor Wire Types Message.
Import ProtocolError Rfc8949.

Record AgentEvent := { ev_state : AgentState; ev_unlock_epoch : Z }.
#[export] Instance AgentEvent_eq_dec : EqDecision AgentEvent.
Proof. solve_decision. Defined.

Definition AgentEvent_new (state : AgentState) (epoch : Z) : AgentEvent :=
  {| ev_state := state; ev_unlock_epoch := epoch |}.

(** Neither [state()] nor [unlock_epoch()] fails. *)
Definition AgentEvent_wf (e : AgentEvent) : Prop := u64 (ev_unlock_epoch e).

Section codec.
Context `{Minicbor}.

Definition AgentEvent_encode (e : AgentEvent) : bytes :=
  vec_encode (encode_array 2 ++ encode_u8 (AgentState_code (ev_state e)) ++ encode_u64 (ev_unlock_epoch e)).

Definition AgentEvent_decode (bytes : bytes) : result ProtocolError AgentEvent :=
  run_decoder (
    expect_array 2;;
    state ← decode_u8;
    state ← lift (decode_enum state);
    epoch ← decode_u64;
    let event := AgentEvent_new state epoch in
    at_end bytes;;
    lift (canonical (AgentEvent_encode event) bytes);;
    mret event) bytes.
End codec.

(** ** The queue *)

Record EventQueue := { eq_events : list AgentEvent }.
Inductive EventQueueOverflow := event_queue_overflow.

Definition EventQueue_new : EventQueue := {| eq_events := [] |}.

Definition EventQueue_push (e : AgentEvent) : stm EventQueue EventQueueOverflow unit :=
  q ← get;
  guard_st (MAX_EVENT_QUEUE <=? len (eq_events q)) event_queue_overflow;;
  modify (λ q, {| eq_events := eq_events q ++ [e] |}).

Definition EventQueue_pop (q : EventQueue) : option AgentEvent * EventQueue :=
  match eq_events q with
  | [] => (None, q)
  | e :: es => (Some e, {| eq_events := es |})
  end.

Definition EventQueue_len (q : EventQueue) : Z := len (eq_events q).
Definition EventQueue_is_empty (q : EventQueue) : bool := is_empty (eq_events q).

(** ** The codec *)

Section codec_facts.
Context `{MinicborLaws}.

Lemma AgentEvent_decode_encode e :
  AgentEvent_wf e → AgentEvent_decode (AgentEvent_encode e) = Ok e.
Proof.
  intros He. unfold AgentEvent_wf in *. unfold AgentEvent_decode.
  run_image (vec_encode_concat (encode_array 2 ++ encode_u8 (AgentState_code (ev_state e))
    ++ encode_u64 (ev_unlock_epoch e))).
  run_parse. by destruct e.
Qed.

Lemma AgentEvent_decode_sound bs e :
  AgentEvent_decode bs = Ok e → AgentEvent_wf e ∧ AgentEvent_encode e = bs.
Proof. unfold AgentEvent_decode. intros He. inv_dec He. yielded. by canonicalized. Qed.

Lemma AgentEvent_decode_not_Panic bs : AgentEvent_decode bs ≠ Panic.
Proof. unfold AgentEvent_decode. intros Hp. inv_dec_panic Hp. Qed.

#[global] Instance AgentEvent_codec : Codec ProtocolError AgentEvent :=
  {| codec_valid := AgentEvent_wf; codec_encode e := Ok (AgentEvent_encode e);
     codec_decode := AgentEvent_decode |}.
#[global] Instance AgentEvent_laws : CodecLaws ProtocolError AgentEvent.
Proof.
  split; [|done|apply AgentEvent_decode_not_Panic]. intros bs v. simpl. split.
  - by intros [? ->]%AgentEvent_decode_sound.
  - intros [? <-%Ok_inj]. by apply AgentEvent_decode_encode.
Qed.
End codec_facts.

(** ** Runs of the queue *)

Inductive QueueCall := QPush (e : AgentEvent) | QPop.

(** The events accepted and the events delivered by a sequence of calls. *)
Fixpoint queue_run (calls : list QueueCall) (q : EventQueue) :
    list AgentEvent * list AgentEvent * EventQueue :=
  match calls with
  | [] => ([], [], q)
  | QPush e :: calls =>
      let '(r, q) := EventQueue_push e q in
      let '(pushed, popped, q) := queue_run calls q in
      (if is_ok r then e :: pushed else pushed, popped, q)
  | QPop :: calls =>
      let '(o, q) := EventQueue_pop q in
      let '(pushed, popped, q) := queue_run calls q in
      (pushed, option_list o ++ popped, q)
  end.

Lemma EventQueue_push_spec e q :
  EventQueue_push e q =
    if MAX_EVENT_QUEUE <=? len (eq_events q) then (Err event_queue_overflow, q)
    else (Ok tt, {| eq_events := eq_events q ++ [e] |}).
Proof.
  unfold EventQueue_push, guard_st, fail_after, get, modify, mbind, stm_bind. by destruct (_ <=? _).
Qed.

(** The event queue is a bounded first-in first-out queue: from an empty
    queue, after every sequence of pushes and pops, the events delivered followed
    by the events still queued are the events accepted, in order, and never more
    than eight are queued; an event is refused exactly when eight are. *)
Theorem event_queue_fifo calls e :
  let '(pushed, popped, q) := queue_run calls EventQueue_new in
  pushed = popped ++ eq_events q
  ∧ EventQueue_len q ≤ MAX_EVENT_QUEUE
  ∧ ((EventQueue_push e q).1 = Err event_queue_overflow ↔ EventQueue_len q = MAX_EVENT_QUEUE)
  ∧ (EventQueue_is_empty q = true ↔ pushed = popped).
Proof.
  assert (∀ q0, len (eq_events q0) ≤ MAX_EVENT_QUEUE →
    let '(pushed, popped, q) := queue_run calls q0 in
    eq_events q0 ++ pushed = popped ++ eq_events q ∧ EventQueue_len q ≤ MAX_EVENT_QUEUE) as Hgen.
  { induction calls as [|[e'|] calls IH]; intros q0 Hq; simpl.
    - by rewrite app_nil_r.
    - rewrite EventQueue_push_spec. destruct (Z.leb_spec MAX_EVENT_QUEUE (len (eq_events q0))).
      + specialize (IH q0 Hq). by destruct (queue_run calls q0) as [[]].
      + specialize (IH {| eq_events := eq_events q0 ++ [e'] |}).
        destruct (queue_run calls _) as [[pushed popped] q]. simpl in *.
        rewrite len_app, <-app_assoc in IH. apply IH. unfold len in *. simpl. lia.
    - unfold EventQueue_pop. destruct (eq_events q0) as [|e' es] eqn:He.
      + specialize (IH q0). rewrite He in IH. by destruct (queue_run calls q0) as [[]]; apply IH.
      + specialize (IH {| eq_events := es |}). destruct (queue_run calls _) as [[pushed popped] q].
        simpl in *. rewrite len_cons in Hq. destruct IH as [IH ?]; [lia|]. by rewrite IH. }
  specialize (Hgen EventQueue_new ltac:(done)). destruct (queue_run calls EventQueue_new) as [[pushed popped] q].
  simpl in Hgen. destruct Hgen as [-> Hlen]. split_and!; [done|done| |].
  - rewrite EventQueue_push_spec. unfold EventQueue_len in *.
    destruct (Z.leb_spec MAX_EVENT_QUEUE (len (eq_events q))); simpl; split; try done; lia.
  - unfold EventQueue_is_empty. split.
    + intros He. destruct (eq_events q); [by rewrite app_nil_r|done].
    + intros He. rewrite <-(app_nil_r popped) in He at 2. by apply app_inv_head in He as ->.
Qed.

(** The event payload is canonical: [AgentEvent::decode] accepts exactly
    the encodings of events and never panics. *)
Theorem event_wire_exact `{MinicborLaws} bs e :
  (AgentEvent_decode bs = Ok e ↔ AgentEvent_wf e ∧ AgentEvent_encode e = bs)
  ∧ AgentEvent_decode bs ≠ Panic.
Proof.
  split; [|apply AgentEvent_decode_not_Panic]. split; [apply AgentEvent_decode_sound|].
  intros [? <-]. by apply AgentEvent_decode_encode.
Qed.

Lemma event_wire_exact_witness :
  AgentEvent_decode (AgentEvent_encode (AgentEvent_new Unlocked 3)) = Ok (AgentEvent_new Unlocked 3).
Proof.
  exact (proj2 (proj1 (event_wire_exact (AgentEvent_encode (AgentEvent_new Unlocked 3))
    (AgentEvent_new Unlocked 3))) (conj (conj (Zle_bool_imp_le 0 3 eq_refl) eq_refl) eq_refl)).
Defined.
