(* ===== verification/Browser.v ===== *)
(** * Browser-fill payloads ([crates/agent-protocol/src/browser.rs])

    A context as the browser observed it, a single-use selection, and the
    credential returned for a selection. *)

From S2P Require Import Prelude RustStd Cbor Wire Types Message.
Import ProtocolError.

(** [i32::MAX as u32]. *)
Definition MAX_TAB_ID : Z := 2147483647.
#[export] Hint Unfold MAX_TAB_ID : limits.

Record BrowserContext := {
  bc_request_id : bytes;
  bc_tab_id : Z;
  bc_document_id : bytes;
  bc_top_origin : bytes;
  bc_frame_origin : bytes;
}.
#[export] Instance BrowserContext_eq_dec : EqDecision BrowserContext.
Proof. solve_decision. Defined.

Definition BrowserContext_new (request_id : bytes) (tab_id frame_id : Z)
    (document_id top_origin frame_origin : bytes) : result ProtocolError BrowserContext :=
  fail_if (bool_decide (request_id = zeros 16)
    || bool_decide (document_id = zeros 16)
    || (tab_id >? MAX_TAB_ID)
    || negb (frame_id =? 0)
    || is_empty top_origin
    || bool_decide (top_origin ≠ frame_origin)) InvariantViolation;;
  fail_if ((len top_origin >? 2048) || (len frame_origin >? 2048)) TooLarge;;
  mret {| bc_request_id := request_id; bc_tab_id := tab_id; bc_document_id := document_id;
          bc_top_origin := top_origin; bc_frame_origin := frame_origin |}.

Definition BrowserContext_matches (a b : BrowserContext) : bool :=
  bool_decide (bc_request_id a = bc_request_id b)
  && (bc_tab_id a =? bc_tab_id b)
  && bool_decide (bc_document_id a = bc_document_id b)
  && bool_decide (bc_top_origin a = bc_top_origin b)
  && bool_decide (bc_frame_origin a = bc_frame_origin b).

Record BrowserSelection := { bs_token : bytes; bs_record_id : bytes; bs_revision : Z }.
#[export] Instance BrowserSelection_eq_dec : EqDecision BrowserSelection.
Proof. solve_decision. Defined.

Definition BrowserSelection_new (token record_id : bytes) (revision : Z) :
    result ProtocolError BrowserSelection :=
  fail_if (bool_decide (token = zeros 16) || bool_decide (record_id = zeros 16)
    || (revision =? 0)) InvariantViolation;;
  mret {| bs_token := token; bs_record_id := record_id; bs_revision := revision |}.

Definition BrowserSelection_matches (a b : BrowserSelection) : bool :=
  bool_decide (bs_token a = bs_token b)
  && bool_decide (bs_record_id a = bs_record_id b)
  && (bs_revision a =? bs_revision b).

Record BrowserCredential := { cred_username : bytes; cred_password : bytes }.
#[export] Instance BrowserCredential_eq_dec : EqDecision BrowserCredential.
Proof. solve_decision. Defined.

Definition BrowserCredential_new (username password : bytes) : result ProtocolError BrowserCredential :=
  fail_if ((len username >? 1024) || (len password >? 16384)) TooLarge;;
  mret {| cred_username := username; cred_password := password |}.

Section codecs.
Context `{Minicbor}.

Definition BrowserContext_encode_into (c : BrowserContext) : list bytes :=
  encode_array 6 ++
  encode_bytes (bc_request_id c) ++
  encode_u32 (bc_tab_id c) ++
  encode_u32 0 ++
  encode_bytes (bc_document_id c) ++
  encode_text (bc_top_origin c) ++
  encode_text (bc_frame_origin c).

Definition BrowserContext_decode_from : dec ProtocolError BrowserContext :=
  expect_array 6;;
  request_id ← decode_fixed_bytes 16;
  tab_id ← decode_u32;
  frame_id ← decode_u32;
  document_id ← decode_fixed_bytes 16;
  top_origin ← decode_bounded_text 2048;
  frame_origin ← decode_bounded_text 2048;
  lift (BrowserContext_new request_id tab_id frame_id document_id top_origin frame_origin).

Definition BrowserSelection_encode_into (s : BrowserSelection) : list bytes :=
  encode_array 3 ++ encode_bytes (bs_token s) ++ encode_bytes (bs_record_id s) ++
  encode_u64 (bs_revision s).

Definition BrowserSelection_decode_from : dec ProtocolError BrowserSelection :=
  expect_array 3;;
  token ← decode_fixed_bytes 16;
  record_id ← decode_fixed_bytes 16;
  revision ← decode_u64;
  lift (BrowserSelection_new token record_id revision).

Definition BrowserSelection_encode_optional (value : option BrowserSelection) :
    result ProtocolError bytes :=
  secret_encode 64 (match value with
                    | Some value => BrowserSelection_encode_into value
                    | None => encode_array 0
                    end).

Definition BrowserSelection_decode_optional (bytes : bytes) :
    result ProtocolError (option BrowserSelection) :=
  fail_if (len bytes >? 64) TooLarge;;
  run_decoder (
    count ← decode_array_length 3;
    result ←
      (if count =? 0 then mret None
       else if count =? 3 then
         token ← decode_fixed_bytes 16;
         record_id ← decode_fixed_bytes 16;
         revision ← decode_u64;
         selection ← lift (BrowserSelection_new token record_id revision);
         mret (Some selection)
       else lift (Err Malformed));
    at_end bytes;;
    image ← lift (BrowserSelection_encode_optional result);
    lift (canonical image bytes);;
    mret result) bytes.

Definition BrowserCredential_encode (c : BrowserCredential) : result ProtocolError bytes :=
  secret_encode 17500 (encode_array 2 ++ encode_text (cred_username c) ++ encode_text (cred_password c)).

Definition BrowserCredential_decode (bytes : bytes) : result ProtocolError BrowserCredential :=
  fail_if (len bytes >? 17500) TooLarge;;
  run_decoder (
    expect_array 2;;
    username ← decode_bounded_text 1024;
    password ← decode_bounded_text 16384;
    let result := {| cred_username := username; cred_password := password |} in
    at_end bytes;;
    image ← lift (BrowserCredential_encode result);
    lift (canonical image bytes);;
    mret result) bytes.
End codecs.

(** ** Valid values *)

Record BrowserContext_wf (c : BrowserContext) : Prop := {
  bc_request : length (bc_request_id c) = 16%nat ∧ bc_request_id c ≠ zeros 16;
  bc_document : length (bc_document_id c) = 16%nat ∧ bc_document_id c ≠ zeros 16;
  bc_tab : 0 ≤ bc_tab_id c ≤ MAX_TAB_ID;
  bc_origin : bc_top_origin c ≠ [] ∧ len (bc_top_origin c) ≤ 2048 ∧ text (bc_top_origin c);
  bc_same : bc_frame_origin c = bc_top_origin c;
}.

Record BrowserSelection_wf (s : BrowserSelection) : Prop := {
  bs_token_ok : length (bs_token s) = 16%nat ∧ bs_token s ≠ zeros 16;
  bs_record_ok : length (bs_record_id s) = 16%nat ∧ bs_record_id s ≠ zeros 16;
  bs_revision_ok : u64 (bs_revision s) ∧ bs_revision s ≠ 0;
}.

Record BrowserCredential_wf (c : BrowserCredential) : Prop := {
  cr_username : len (cred_username c) ≤ 1024 ∧ text (cred_username c);
  cr_password : len (cred_password c) ≤ 16384 ∧ text (cred_password c);
}.

Lemma BrowserContext_new_Ok request_id tab_id frame_id document_id top frame c :
  length request_id = 16%nat → length document_id = 16%nat → u32 tab_id → text top →
  BrowserContext_new request_id tab_id frame_id document_id top frame = Ok c ↔
    frame_id = 0 ∧
    c = {| bc_request_id := request_id; bc_tab_id := tab_id; bc_document_id := document_id;
           bc_top_origin := top; bc_frame_origin := frame |} ∧ BrowserContext_wf c.
Proof.
  intros ?? Ht ?. unfold BrowserContext_new. split.
  - intros Hc. inv_ok Hc. simp_guards. split_and!; [done|done|].
    split; simpl; split_and?; try done; [solve_size|by apply is_empty_false].
  - intros (-> & -> & [[] [] [] (?&?&?) Hs]). simpl in *. subst.
    rewrite bind_Ok. exists tt. split; [apply fail_if_Ok; guard_false; try done; by intros []|].
    rewrite bind_Ok. exists tt. split; [apply fail_if_Ok; by guard_false|done].
Qed.

Lemma BrowserSelection_new_Ok token record_id revision s :
  length token = 16%nat → length record_id = 16%nat → u64 revision →
  BrowserSelection_new token record_id revision = Ok s ↔
    s = {| bs_token := token; bs_record_id := record_id; bs_revision := revision |}
    ∧ BrowserSelection_wf s.
Proof.
  intros ???. unfold BrowserSelection_new. split.
  - intros Hs. inv_ok Hs. simp_guards. done.
  - intros (-> & [[] [] []]). simpl in *. rewrite bind_Ok. exists tt.
    split; [apply fail_if_Ok; by guard_false|done].
Qed.

Lemma BrowserContext_new_not_Panic a b c d e f : BrowserContext_new a b c d e f ≠ Panic.
Proof. unfold BrowserContext_new. no_panic. Qed.
Lemma BrowserSelection_new_not_Panic a b c : BrowserSelection_new a b c ≠ Panic.
Proof. unfold BrowserSelection_new. no_panic. Qed.
#[export] Hint Resolve BrowserContext_new_not_Panic BrowserSelection_new_not_Panic : panic.

Section codec_facts.
Context `{MinicborLaws}.

Lemma parses_BrowserContext c :
  BrowserContext_wf c →
  parses BrowserContext_decode_from (wire (BrowserContext_encode_into c)) c
  ∧ len (wire (BrowserContext_encode_into c)) ≤ 4200.
Proof.
  intros Hwf. pose proof Hwf as [[] [] [] (?&?&?) Hs].
  assert (len (bc_frame_origin c) ≤ 2048 ∧ text (bc_frame_origin c)) as [? ?] by (by rewrite Hs).
  assert (BrowserContext_new (bc_request_id c) (bc_tab_id c) 0 (bc_document_id c) (bc_top_origin c)
    (bc_frame_origin c) = Ok c) as Hnew.
  { apply BrowserContext_new_Ok; try done; [solve_size|]. split_and!; [done|by destruct c|done]. }
  unfold BrowserContext_encode_into. split.
  - unfold BrowserContext_decode_from. parse. by apply parses_lift.
  - wire_size. head_bounds. solve_size.
Qed.

Lemma yields_BrowserContext : yields BrowserContext_decode_from BrowserContext_wf.
Proof.
  intros bs c r Hc. unfold BrowserContext_decode_from in Hc. inv_dec Hc. yielded.
  match goal with H : BrowserContext_new _ _ _ _ _ _ = Ok _ |- _ =>
    apply BrowserContext_new_Ok in H as (_ & _ & ?); done end.
Qed.

Lemma parses_BrowserSelection s :
  BrowserSelection_wf s →
  parses BrowserSelection_decode_from (wire (BrowserSelection_encode_into s)) s
  ∧ len (wire (BrowserSelection_encode_into s)) ≤ 64.
Proof.
  intros Hwf. pose proof Hwf as [[] [] []].
  assert (BrowserSelection_new (bs_token s) (bs_record_id s) (bs_revision s) = Ok s) as Hnew.
  { apply BrowserSelection_new_Ok; try done. split; [by destruct s|done]. }
  unfold BrowserSelection_encode_into. split.
  - unfold BrowserSelection_decode_from. parse. by apply parses_lift.
  - wire_size. head_bounds_tight. solve_size.
Qed.

Lemma yields_BrowserSelection : yields BrowserSelection_decode_from BrowserSelection_wf.
Proof.
  intros bs s r Hs. unfold BrowserSelection_decode_from in Hs. inv_dec Hs. yielded.
  match goal with H : BrowserSelection_new _ _ _ = Ok _ |- _ =>
    apply BrowserSelection_new_Ok in H as [_ ?]; done end.
Qed.

Definition selection_items (o : option BrowserSelection) : list bytes :=
  match o with Some s => BrowserSelection_encode_into s | None => encode_array 0 end.

Definition selection_wf (o : option BrowserSelection) : Prop :=
  ∀ s, o = Some s → BrowserSelection_wf s.

Lemma selection_image o :
  selection_wf o →
  BrowserSelection_encode_optional o = Ok (wire (selection_items o))
  ∧ len (wire (selection_items o)) ≤ 64.
Proof.
  intros Ho. assert (len (wire (selection_items o)) ≤ 64).
  { destruct o as [s|]; simpl; [by apply parses_BrowserSelection, Ho|].
    by rewrite len_encode_array by solve_size. }
  split; [|done]. by apply (secret_encode_fits 64 (selection_items o)); [solve_size|].
Qed.

(** The branch of [decode_optional] for an array of three. *)
Lemma parses_selection_fields s :
  BrowserSelection_wf s →
  parses (token ← decode_fixed_bytes 16;
          record_id ← decode_fixed_bytes 16;
          revision ← decode_u64;
          selection ← lift (BrowserSelection_new token record_id revision);
          mret (Some selection))
    (wire (encode_bytes (bs_token s) ++ encode_bytes (bs_record_id s) ++ encode_u64 (bs_revision s)))
    (Some s).
Proof.
  intros Hwf. pose proof Hwf as [[] [] []].
  assert (BrowserSelection_new (bs_token s) (bs_record_id s) (bs_revision s) = Ok s) as Hnew.
  { apply BrowserSelection_new_Ok; try done. split; [by destruct s|done]. }
  parse.
Qed.

Lemma selection_decode_encode o bs :
  selection_wf o → BrowserSelection_encode_optional o = Ok bs →
  BrowserSelection_decode_optional bs = Ok o.
Proof.
  intros Ho Henc. destruct (selection_image o Ho) as [Himg Hlen].
  rewrite Himg in Henc. apply Ok_inj in Henc as Hbs. rewrite Hbs in Himg, Hlen.
  unfold BrowserSelection_decode_optional. rewrite fail_if_small by done. cbn [mbind result_bind].
  run_image (eq_sym Hbs). destruct o as [s|]; cbn [selection_items].
  - unfold BrowserSelection_encode_into. rewrite concat_app. run_parse_step. cbn [Z.eqb Pos.eqb].
    eapply run_step_last; [apply parses_selection_fields, Ho; done|]. run_parse. done.
  - run_parse_step. eapply run_step_last; [apply parses_ret|]. run_parse. done.
Qed.

Lemma selection_decode_sound bs o :
  BrowserSelection_decode_optional bs = Ok o →
  selection_wf o ∧ BrowserSelection_encode_optional o = Ok bs.
Proof.
  unfold BrowserSelection_decode_optional. intros Hr. inv_ok Hr. inv_dec Hok0; canonicalized; subst; (split; [|done]); intros s Hs;
    [done|]. yielded. simplify_eq.
  match goal with H : BrowserSelection_new _ _ _ = Ok _ |- _ =>
    apply BrowserSelection_new_Ok in H as [_ ?]; done end.
Qed.

Lemma BrowserCredential_image c :
  BrowserCredential_wf c →
  let items := encode_array 2 ++ encode_text (cred_username c) ++ encode_text (cred_password c) in
  BrowserCredential_encode c = Ok (wire items) ∧ len (wire items) ≤ 17500.
Proof.
  intros [[? ?] [? ?]] items.
  assert (len (wire items) ≤ 17500) by (subst items; wire_size; head_bounds; solve_size).
  split; [|done]. by apply (secret_encode_fits 17500 items); [solve_size|].
Qed.

Lemma BrowserCredential_decode_encode c bs :
  BrowserCredential_wf c → BrowserCredential_encode c = Ok bs → BrowserCredential_decode bs = Ok c.
Proof.
  intros Hwf Henc. destruct (BrowserCredential_image c Hwf) as [Himg Hlen].
  rewrite Himg in Henc. apply Ok_inj in Henc as Hbs. rewrite Hbs in Himg, Hlen.
  unfold BrowserCredential_decode. rewrite fail_if_small by done. cbn [mbind result_bind].
  pose proof Hwf as [[] []]. run_image (eq_sym Hbs). run_parse.
  by destruct c.
Qed.

Lemma BrowserCredential_decode_sound bs c :
  BrowserCredential_decode bs = Ok c → BrowserCredential_wf c ∧ BrowserCredential_encode c = Ok bs.
Proof.
  unfold BrowserCredential_decode. intros Hr. inv_ok Hr. inv_dec Hok0. yielded. canonicalized. by subst.
Qed.

Lemma BrowserCredential_decode_not_Panic bs : BrowserCredential_decode bs ≠ Panic.
Proof.
  unfold BrowserCredential_decode. decode_panic. yielded.
  match goal with H : BrowserCredential_encode ?c = Panic |- _ =>
    by rewrite (proj1 (BrowserCredential_image c ltac:(done))) in H end.
Qed.

Lemma BrowserSelection_decode_optional_not_Panic bs : BrowserSelection_decode_optional bs ≠ Panic.
Proof.
  unfold BrowserSelection_decode_optional. decode_panic.
  - by rewrite (proj1 (selection_image None ltac:(done))) in Hp.
  - yielded. match goal with H : BrowserSelection_new _ _ _ = Ok _ |- _ =>
      apply BrowserSelection_new_Ok in H as [_ Hwf]; try done end.
    rewrite (proj1 (selection_image (Some _) ltac:(by intros ? [= <-]))) in Hp. done.
Qed.

#[global] Instance BrowserCredential_codec : Codec ProtocolError BrowserCredential :=
  {| codec_valid := BrowserCredential_wf; codec_encode := BrowserCredential_encode;
     codec_decode := BrowserCredential_decode |}.
#[global] Instance BrowserCredential_laws : CodecLaws ProtocolError BrowserCredential.
Proof.
  split; [|intros v Hv; simpl; by rewrite (proj1 (BrowserCredential_image v Hv))
    |apply BrowserCredential_decode_not_Panic].
  intros bs v. split; [apply BrowserCredential_decode_sound|].
  intros []. by apply BrowserCredential_decode_encode.
Qed.
End codec_facts.

(** ** Properties *)

Section properties.
Context `{MinicborLaws}.

(** The browser responses are canonical: the decoders of the optional
    selection and of the credential accept exactly the encodings of valid values,
    and the fixed secret buffers of 64 and 17500 bytes are large enough for all of
    them: neither encoder nor decoder panics. *)
Theorem browser_responses_exact bs o c :
  (BrowserSelection_decode_optional bs = Ok o ↔
    selection_wf o ∧ BrowserSelection_encode_optional o = Ok bs)
  ∧ (BrowserCredential_decode bs = Ok c ↔ BrowserCredential_wf c ∧ BrowserCredential_encode c = Ok bs)
  ∧ (selection_wf o → BrowserSelection_encode_optional o ≠ Panic)
  ∧ (BrowserCredential_wf c → BrowserCredential_encode c ≠ Panic)
  ∧ BrowserSelection_decode_optional bs ≠ Panic ∧ BrowserCredential_decode bs ≠ Panic.
Proof.
  split_and!.
  - split; [apply selection_decode_sound|]. intros []. by apply selection_decode_encode.
  - split; [apply BrowserCredential_decode_sound|]. intros []. by apply BrowserCredential_decode_encode.
  - intros Ho. by rewrite (proj1 (selection_image o Ho)).
  - intros Hc. by rewrite (proj1 (BrowserCredential_image c Hc)).
  - apply BrowserSelection_decode_optional_not_Panic.
  - apply BrowserCredential_decode_not_Panic.
Qed.

Lemma BrowserContext_matches_spec a b : BrowserContext_matches a b = true ↔ a = b.
Proof.
  unfold BrowserContext_matches. rewrite !andb_true_iff, !bool_decide_eq_true, Z.eqb_eq.
  destruct a, b; simpl. naive_solver.
Qed.
Lemma BrowserSelection_matches_spec a b : BrowserSelection_matches a b = true ↔ a = b.
Proof.
  unfold BrowserSelection_matches. rewrite !andb_true_iff, !bool_decide_eq_true, Z.eqb_eq.
  destruct a, b; simpl. naive_solver.
Qed.
End properties.

Module Examples.
Import Rfc8949.

Definition credential : BrowserCredential :=
  {| cred_username := str "person"; cred_password := str "secret" |}.
Lemma credential_wf : BrowserCredential_wf credential.
Proof. by split. Qed.

Lemma browser_responses_exact_witness : BrowserCredential_encode credential ≠ Panic.
Proof. apply (browser_responses_exact [] None credential), credential_wf. Defined.
End Examples.
