(* ===== verification/Operations.v ===== *)
(** * Operation bodies ([crates/agent-protocol/src/operations.rs])

    The request body of each operation with its decoder and encoder, and the
    encoders of the response bodies. *)

From S2P Require Import Prelude RustStd Cbor Wire Types Message Browser.
Import ProtocolError.

Definition MAX_MASTER_PASSWORD_BYTES : Z := 1024.
Definition MAX_SERVICE_NAME_BYTES : Z := 256.
Definition MAX_ORIGIN_BYTES : Z := 2048.
Definition MAX_USERNAME_BYTES : Z := 1024.
Definition MAX_PASSWORD_BYTES : Z := 16 * 1024.
Definition MAX_PASSKEY_ENCODED_REQUEST_BYTES : Z := 48 * 1024.
Definition MAX_PASSKEY_SIGNATURE_BYTES : Z := 2 * 1024.
Definition MAX_PASSKEY_USER_HANDLE_BYTES : Z := 64.
Definition MAX_PASSKEY_RP_ID_BYTES : Z := 253.
Definition MAX_PASSKEY_USER_NAME_BYTES : Z := 256.
Definition MAX_PASSKEY_CREDENTIALS : Z := 64.
Definition PASSKEY_CREDENTIAL_ID_BYTES : nat := 32.
Definition PASSKEY_PUBLIC_KEY_BYTES : nat := 65.
Definition PASSKEY_AUTHENTICATOR_DATA_BYTES : nat := 37.
Definition MAX_PASSKEY_ASSERTION_SIGNATURE_BYTES : Z := 80.
Definition CTAP2_CBOR_REQUEST_TYPE : Z := 1.
Definition MAX_LIST_PAGE_SIZE : Z := 100.
#[export] Hint Unfold MAX_MASTER_PASSWORD_BYTES MAX_SERVICE_NAME_BYTES MAX_ORIGIN_BYTES
  MAX_USERNAME_BYTES MAX_PASSWORD_BYTES MAX_PASSKEY_ENCODED_REQUEST_BYTES
  MAX_PASSKEY_SIGNATURE_BYTES MAX_PASSKEY_USER_HANDLE_BYTES MAX_PASSKEY_RP_ID_BYTES
  MAX_PASSKEY_USER_NAME_BYTES MAX_PASSKEY_CREDENTIALS PASSKEY_CREDENTIAL_ID_BYTES
  PASSKEY_PUBLIC_KEY_BYTES PASSKEY_AUTHENTICATOR_DATA_BYTES MAX_PASSKEY_ASSERTION_SIGNATURE_BYTES
  CTAP2_CBOR_REQUEST_TYPE MAX_LIST_PAGE_SIZE : limits.

(** ** Components of requests *)

Record AccountFields := {
  af_service_name : bytes;
  af_permitted_origin : bytes;
  af_username : bytes;
  af_password : bytes;
}.

Definition AccountFields_new (service_name permitted_origin username password : bytes) :
    result ProtocolError AccountFields :=
  fail_if ((len service_name >? MAX_SERVICE_NAME_BYTES)
    || (len permitted_origin >? MAX_ORIGIN_BYTES)
    || (len username >? MAX_USERNAME_BYTES)
    || (len password >? MAX_PASSWORD_BYTES)) TooLarge;;
  mret {| af_service_name := service_name; af_permitted_origin := permitted_origin;
          af_username := username; af_password := password |}.

Record PasskeyRequestProof := {
  pr_transaction_id : bytes;
  pr_request_type : Z;
  pr_request_signature : bytes;
  pr_encoded_request : bytes;
}.

Definition PasskeyRequestProof_new (transaction_id : bytes) (request_type : Z)
    (request_signature encoded_request : bytes) : result ProtocolError PasskeyRequestProof :=
  fail_if (bool_decide (transaction_id = zeros 16)
    || negb (request_type =? CTAP2_CBOR_REQUEST_TYPE)
    || is_empty request_signature
    || is_empty encoded_request) InvariantViolation;;
  fail_if ((len request_signature >? MAX_PASSKEY_SIGNATURE_BYTES)
    || (len encoded_request >? MAX_PASSKEY_ENCODED_REQUEST_BYTES)) TooLarge;;
  mret {| pr_transaction_id := transaction_id; pr_request_type := request_type;
          pr_request_signature := request_signature; pr_encoded_request := encoded_request |}.

Record PasskeyTransactionProof := {
  pt_request : PasskeyRequestProof;
  pt_agent_challenge : bytes;
  pt_user_verification_signature : bytes;
}.

Definition PasskeyTransactionProof_new (transaction_id : bytes) (request_type : Z)
    (request_signature encoded_request agent_challenge user_verification_signature : bytes) :
    result ProtocolError PasskeyTransactionProof :=
  fail_if (bool_decide (agent_challenge = zeros 16) || is_empty user_verification_signature)
    InvariantViolation;;
  fail_if (len user_verification_signature >? MAX_PASSKEY_SIGNATURE_BYTES) TooLarge;;
  request ← PasskeyRequestProof_new transaction_id request_type request_signature encoded_request;
  mret {| pt_request := request; pt_agent_challenge := agent_challenge;
          pt_user_verification_signature := user_verification_signature |}.

(** ** Requests *)

Module OperationRequest.
Inductive t :=
  | Status
  | ExactOriginMatches (context : BrowserContext)
  | GetSelectedCredential (context : BrowserContext) (selection : BrowserSelection)
  | CreateVault (master_password : bytes)
  | UnlockMasterPassword (master_password : bytes)
  | Lock
  | ListAccountSummaries (offset limit : Z)
  | GetAccount (id : bytes)
  | AddAccount (fields : AccountFields)
  | UpdateAccount (id : bytes) (fields : AccountFields)
  | DeleteAccount (id : bytes)
  | EnrollWindowsHello (parent_window : Z)
  | UnlockWindowsHello (parent_window : Z)
  | RemoveWindowsHello
  | MakePasskey (proof : PasskeyTransactionProof)
  | GetPasskeyAssertion (proof : PasskeyTransactionProof) (credential_id : bytes)
  | DeletePasskey (credential_id : bytes)
  | ListPasskeysForAssertion (proof : PasskeyRequestProof)
  | ListPasskeys
  | ConfirmPasskeyCreation (proof : PasskeyTransactionProof) (credential_id : bytes)
  | RollbackPasskeyCreation (proof : PasskeyTransactionProof) (credential_id : bytes).
End OperationRequest.
Abbreviation OperationRequest := OperationRequest.t.
Import OperationRequest.

Definition OperationRequest_operation (r : OperationRequest) : OperationCode :=
  match r with
  | Status => OperationCode.Status
  | ExactOriginMatches _ => OperationCode.ExactOriginMatches
  | GetSelectedCredential _ _ => OperationCode.GetSelectedCredential
  | CreateVault _ => OperationCode.CreateVault
  | UnlockMasterPassword _ => OperationCode.UnlockMasterPassword
  | Lock => OperationCode.Lock
  | ListAccountSummaries _ _ => OperationCode.ListAccountSummaries
  | GetAccount _ => OperationCode.GetAccount
  | AddAccount _ => OperationCode.AddAccount
  | UpdateAccount _ _ => OperationCode.UpdateAccount
  | DeleteAccount _ => OperationCode.DeleteAccount
  | EnrollWindowsHello _ => OperationCode.EnrollWindowsHello
  | UnlockWindowsHello _ => OperationCode.UnlockWindowsHello
  | RemoveWindowsHello => OperationCode.RemoveWindowsHello
  | MakePasskey _ => OperationCode.MakePasskey
  | GetPasskeyAssertion _ _ => OperationCode.GetPasskeyAssertion
  | DeletePasskey _ => OperationCode.DeletePasskey
  | ListPasskeysForAssertion _ => OperationCode.ListPasskeysForAssertion
  | ListPasskeys => OperationCode.ListPasskeys
  | ConfirmPasskeyCreation _ _ => OperationCode.ConfirmPasskeyCreation
  | RollbackPasskeyCreation _ _ => OperationCode.RollbackPasskeyCreation
  end.

Definition OperationRequest_master_password (r : OperationRequest) : option bytes :=
  match r with
  | CreateVault master_password | UnlockMasterPassword master_password => Some master_password
  | _ => None
  end.

Definition OperationRequest_list_window (r : OperationRequest) : option (Z * Z) :=
  match r with ListAccountSummaries offset limit => Some (offset, limit) | _ => None end.

Definition OperationRequest_account_id (r : OperationRequest) : option bytes :=
  match r with
  | GetAccount id | UpdateAccount id _ | DeleteAccount id => Some id
  | _ => None
  end.

Definition OperationRequest_account_fields (r : OperationRequest) : option AccountFields :=
  match r with AddAccount fields | UpdateAccount _ fields => Some fields | _ => None end.

Definition OperationRequest_parent_window (r : OperationRequest) : option Z :=
  match r with
  | EnrollWindowsHello parent_window | UnlockWindowsHello parent_window => Some parent_window
  | _ => None
  end.

Definition OperationRequest_passkey_proof (r : OperationRequest) : option PasskeyTransactionProof :=
  match r with
  | MakePasskey proof | GetPasskeyAssertion proof _ | ConfirmPasskeyCreation proof _
  | RollbackPasskeyCreation proof _ => Some proof
  | _ => None
  end.

Definition OperationRequest_passkey_request_proof (r : OperationRequest) : option PasskeyRequestProof :=
  match r with
  | MakePasskey proof | GetPasskeyAssertion proof _ | ConfirmPasskeyCreation proof _
  | RollbackPasskeyCreation proof _ => Some (pt_request proof)
  | ListPasskeysForAssertion proof => Some proof
  | _ => None
  end.

Definition OperationRequest_passkey_credential_id (r : OperationRequest) : option bytes :=
  match r with
  | GetPasskeyAssertion _ credential_id | DeletePasskey credential_id
  | ConfirmPasskeyCreation _ credential_id | RollbackPasskeyCreation _ credential_id =>
      Some credential_id
  | _ => None
  end.

Definition checked_request_body (body : bytes) : result ProtocolError bytes :=
  fail_if (len body >? MAX_REQUEST_BODY_BYTES) TooLarge;;
  mret body.

Definition checked_response_body (body : bytes) : result ProtocolError bytes :=
  fail_if (len body >? MAX_RESPONSE_BODY_BYTES) TooLarge;;
  mret body.

Section requests.
Context `{Minicbor}.

Definition decode_secret_text (maximum : Z) : dec ProtocolError bytes := decode_bounded_text maximum.

Definition decode_account_fields : dec ProtocolError AccountFields :=
  service_name ← decode_secret_text MAX_SERVICE_NAME_BYTES;
  permitted_origin ← decode_secret_text MAX_ORIGIN_BYTES;
  username ← decode_secret_text MAX_USERNAME_BYTES;
  password ← decode_secret_text MAX_PASSWORD_BYTES;
  mret {| af_service_name := service_name; af_permitted_origin := permitted_origin;
          af_username := username; af_password := password |}.

Definition encode_account_fields (fields : AccountFields) : list bytes :=
  encode_text (af_service_name fields) ++
  encode_text (af_permitted_origin fields) ++
  encode_text (af_username fields) ++
  encode_text (af_password fields).

Definition decode_parent_window : dec ProtocolError Z :=
  expect_array 1;;
  parent_window ← decode_u64;
  lift (ok_or (if negb (parent_window =? 0) then Some parent_window else None) InvariantViolation).

Definition decode_browser_request (operation : OperationCode) : dec ProtocolError OperationRequest :=
  if bool_decide (operation = OperationCode.ExactOriginMatches) then
    expect_array 1;;
    context ← BrowserContext_decode_from;
    mret (ExactOriginMatches context)
  else
    expect_array 2;;
    context ← BrowserContext_decode_from;
    selection ← BrowserSelection_decode_from;
    mret (GetSelectedCredential context selection).

Definition decode_passkey_request_proof : dec ProtocolError PasskeyRequestProof :=
  transaction_id ← decode_fixed_bytes 16;
  request_type ← decode_u8;
  request_signature ← decode_bounded_bytes MAX_PASSKEY_SIGNATURE_BYTES;
  encoded_request ← decode_bounded_bytes MAX_PASSKEY_ENCODED_REQUEST_BYTES;
  lift (PasskeyRequestProof_new transaction_id request_type request_signature encoded_request).

Definition decode_passkey_proof : dec ProtocolError PasskeyTransactionProof :=
  request ← decode_passkey_request_proof;
  agent_challenge ← decode_fixed_bytes 16;
  user_verification_signature ← decode_bounded_bytes MAX_PASSKEY_SIGNATURE_BYTES;
  lift (PasskeyTransactionProof_new (pr_transaction_id request) (pr_request_type request)
    (pr_request_signature request) (pr_encoded_request request) agent_challenge
    user_verification_signature).

Definition decode_passkey_request (operation : OperationCode) : dec ProtocolError OperationRequest :=
  match operation with
  | OperationCode.MakePasskey =>
      expect_array 6;;
      proof ← decode_passkey_proof;
      mret (MakePasskey proof)
  | OperationCode.GetPasskeyAssertion =>
      expect_array 7;;
      proof ← decode_passkey_proof;
      credential_id ← decode_fixed_bytes PASSKEY_CREDENTIAL_ID_BYTES;
      mret (GetPasskeyAssertion proof credential_id)
  | OperationCode.DeletePasskey =>
      expect_array 1;;
      credential_id ← decode_fixed_bytes PASSKEY_CREDENTIAL_ID_BYTES;
      mret (DeletePasskey credential_id)
  | OperationCode.ListPasskeysForAssertion =>
      expect_array 4;;
      proof ← decode_passkey_request_proof;
      mret (ListPasskeysForAssertion proof)
  | OperationCode.RollbackPasskeyCreation =>
      expect_array 7;;
      proof ← decode_passkey_proof;
      credential_id ← decode_fixed_bytes PASSKEY_CREDENTIAL_ID_BYTES;
      mret (RollbackPasskeyCreation proof credential_id)
  | OperationCode.ConfirmPasskeyCreation =>
      expect_array 7;;
      proof ← decode_passkey_proof;
      credential_id ← decode_fixed_bytes PASSKEY_CREDENTIAL_ID_BYTES;
      mret (ConfirmPasskeyCreation proof credential_id)
  | _ => lift (Err Unsupported)
  end.

Definition encode_passkey_request_proof (proof : PasskeyRequestProof) : list bytes :=
  encode_bytes (pr_transaction_id proof) ++
  encode_u8 (pr_request_type proof) ++
  encode_bytes (pr_request_signature proof) ++
  encode_bytes (pr_encoded_request proof).

Definition encode_passkey_proof (proof : PasskeyTransactionProof) : list bytes :=
  encode_passkey_request_proof (pt_request proof) ++
  encode_bytes (pt_agent_challenge proof) ++
  encode_bytes (pt_user_verification_signature proof).

(** The match of [encode] on the variant: the items written, or the early
    return of a null parent window. *)
Definition OperationRequest_items (r : OperationRequest) : result ProtocolError (list bytes) :=
  match r with
  | ExactOriginMatches context => Ok (encode_array 1 ++ BrowserContext_encode_into context)
  | GetSelectedCredential context selection =>
      Ok (encode_array 2 ++ BrowserContext_encode_into context ++
          BrowserSelection_encode_into selection)
  | Status | Lock | RemoveWindowsHello | ListPasskeys => Ok (encode_array 0)
  | CreateVault master_password | UnlockMasterPassword master_password =>
      Ok (encode_array 1 ++ encode_text master_password)
  | ListAccountSummaries offset limit => Ok (encode_array 2 ++ encode_u32 offset ++ encode_u16 limit)
  | GetAccount id | DeleteAccount id => Ok (encode_array 1 ++ encode_bytes id)
  | AddAccount fields => Ok (encode_array 4 ++ encode_account_fields fields)
  | UpdateAccount id fields => Ok (encode_array 5 ++ encode_bytes id ++ encode_account_fields fields)
  | EnrollWindowsHello parent_window | UnlockWindowsHello parent_window =>
      fail_if (parent_window =? 0) InvariantViolation;;
      mret (encode_array 1 ++ encode_u64 parent_window)
  | MakePasskey proof => Ok (encode_array 6 ++ encode_passkey_proof proof)
  | GetPasskeyAssertion proof credential_id
  | ConfirmPasskeyCreation proof credential_id
  | RollbackPasskeyCreation proof credential_id =>
      Ok (encode_array 7 ++ encode_passkey_proof proof ++ encode_bytes credential_id)
  | DeletePasskey credential_id => Ok (encode_array 1 ++ encode_bytes credential_id)
  | ListPasskeysForAssertion proof => Ok (encode_array 4 ++ encode_passkey_request_proof proof)
  end.

Definition OperationRequest_encode (r : OperationRequest) : result ProtocolError bytes :=
  fail_if (from_option (λ password, len password >? MAX_MASTER_PASSWORD_BYTES) false
    (OperationRequest_master_password r)) TooLarge;;
  fail_if (from_option (λ '(_, limit), (limit =? 0) || (limit >? MAX_LIST_PAGE_SIZE)) false
    (OperationRequest_list_window r)) InvariantViolation;;
  items ← OperationRequest_items r;
  bytes ← secret_encode MAX_PAYLOAD_BYTES items;
  checked_request_body bytes.

(** The match of [decode] on the operation. *)
Definition OperationRequest_decode_body (operation : OperationCode) : dec ProtocolError OperationRequest :=
  match operation with
  | OperationCode.Status => expect_array 0;; mret Status
  | OperationCode.CreateVault =>
      expect_array 1;;
      master_password ← decode_secret_text MAX_MASTER_PASSWORD_BYTES;
      mret (CreateVault master_password)
  | OperationCode.UnlockMasterPassword =>
      expect_array 1;;
      master_password ← decode_secret_text MAX_MASTER_PASSWORD_BYTES;
      mret (UnlockMasterPassword master_password)
  | OperationCode.Lock => expect_array 0;; mret Lock
  | OperationCode.ListAccountSummaries =>
      expect_array 2;;
      offset ← decode_u32;
      limit ← decode_u16;
      lift (fail_if ((limit =? 0) || (limit >? MAX_LIST_PAGE_SIZE)) InvariantViolation);;
      mret (ListAccountSummaries offset limit)
  | OperationCode.GetAccount =>
      expect_array 1;; id ← decode_fixed_bytes 16; mret (GetAccount id)
  | OperationCode.AddAccount =>
      expect_array 4;; fields ← decode_account_fields; mret (AddAccount fields)
  | OperationCode.UpdateAccount =>
      expect_array 5;;
      id ← decode_fixed_bytes 16;
      fields ← decode_account_fields;
      mret (UpdateAccount id fields)
  | OperationCode.DeleteAccount =>
      expect_array 1;; id ← decode_fixed_bytes 16; mret (DeleteAccount id)
  | OperationCode.EnrollWindowsHello =>
      parent_window ← decode_parent_window; mret (EnrollWindowsHello parent_window)
  | OperationCode.UnlockWindowsHello =>
      parent_window ← decode_parent_window; mret (UnlockWindowsHello parent_window)
  | OperationCode.RemoveWindowsHello => expect_array 0;; mret RemoveWindowsHello
  | OperationCode.ListPasskeys => expect_array 0;; mret ListPasskeys
  | OperationCode.MakePasskey | OperationCode.GetPasskeyAssertion | OperationCode.DeletePasskey
  | OperationCode.ListPasskeysForAssertion | OperationCode.ConfirmPasskeyCreation
  | OperationCode.RollbackPasskeyCreation => decode_passkey_request operation
  | OperationCode.ExactOriginMatches | OperationCode.GetSelectedCredential =>
      decode_browser_request operation
  | OperationCode.CaptureCredential | OperationCode.UpdateCredential => lift (Err Unsupported)
  end.

Definition OperationRequest_decode (operation : OperationCode) (bytes : bytes) :
    result ProtocolError OperationRequest :=
  fail_if (len bytes >? MAX_PAYLOAD_BYTES) TooLarge;;
  run_decoder (
    request ← OperationRequest_decode_body operation;
    at_end bytes;;
    image ← lift (OperationRequest_encode request);
    lift (canonical image bytes);;
    mret request) bytes.
End requests.

(** ** Valid values *)

Record AccountFields_wf (f : AccountFields) : Prop := {
  fw_service_name : len (af_service_name f) ≤ MAX_SERVICE_NAME_BYTES ∧ text (af_service_name f);
  fw_permitted_origin : len (af_permitted_origin f) ≤ MAX_ORIGIN_BYTES ∧ text (af_permitted_origin f);
  fw_username : len (af_username f) ≤ MAX_USERNAME_BYTES ∧ text (af_username f);
  fw_password : len (af_password f) ≤ MAX_PASSWORD_BYTES ∧ text (af_password f);
}.

Record PasskeyRequestProof_wf (p : PasskeyRequestProof) : Prop := {
  pw_transaction : length (pr_transaction_id p) = 16%nat ∧ pr_transaction_id p ≠ zeros 16;
  pw_type : pr_request_type p = CTAP2_CBOR_REQUEST_TYPE;
  pw_signature : pr_request_signature p ≠ [] ∧ len (pr_request_signature p) ≤ MAX_PASSKEY_SIGNATURE_BYTES;
  pw_request : pr_encoded_request p ≠ []
    ∧ len (pr_encoded_request p) ≤ MAX_PASSKEY_ENCODED_REQUEST_BYTES;
}.

Record PasskeyTransactionProof_wf (p : PasskeyTransactionProof) : Prop := {
  tw_request : PasskeyRequestProof_wf (pt_request p);
  tw_challenge : length (pt_agent_challenge p) = 16%nat ∧ pt_agent_challenge p ≠ zeros 16;
  tw_signature : pt_user_verification_signature p ≠ []
    ∧ len (pt_user_verification_signature p) ≤ MAX_PASSKEY_SIGNATURE_BYTES;
}.

(** What the Rust types guarantee: the fields of the public variants have their
    types, and the private ones passed their constructors. *)
Definition OperationRequest_typed (r : OperationRequest) : Prop :=
  match r with
  | Status | Lock | RemoveWindowsHello | ListPasskeys => True
  | ExactOriginMatches context => BrowserContext_wf context
  | GetSelectedCredential context selection => BrowserContext_wf context ∧ BrowserSelection_wf selection
  | CreateVault password | UnlockMasterPassword password => u64 (len password) ∧ text password
  | ListAccountSummaries offset limit => u32 offset ∧ u16 limit
  | GetAccount id | DeleteAccount id => length id = 16%nat
  | AddAccount fields => AccountFields_wf fields
  | UpdateAccount id fields => length id = 16%nat ∧ AccountFields_wf fields
  | EnrollWindowsHello window | UnlockWindowsHello window => u64 window
  | MakePasskey proof => PasskeyTransactionProof_wf proof
  | GetPasskeyAssertion proof id | ConfirmPasskeyCreation proof id | RollbackPasskeyCreation proof id =>
      PasskeyTransactionProof_wf proof ∧ length id = PASSKEY_CREDENTIAL_ID_BYTES
  | DeletePasskey id => length id = PASSKEY_CREDENTIAL_ID_BYTES
  | ListPasskeysForAssertion proof => PasskeyRequestProof_wf proof
  end.

Record OperationRequest_wf (r : OperationRequest) : Prop := {
  or_typed : OperationRequest_typed r;
  or_password p : OperationRequest_master_password r = Some p → len p ≤ MAX_MASTER_PASSWORD_BYTES;
  or_window o l : OperationRequest_list_window r = Some (o, l) → 1 ≤ l ≤ MAX_LIST_PAGE_SIZE;
  or_parent w : OperationRequest_parent_window r = Some w → w ≠ 0;
}.

(** ** Constructors *)

Lemma AccountFields_new_Ok a b c d f :
  text a → text b → text c → text d →
  AccountFields_new a b c d = Ok f ↔
    f = {| af_service_name := a; af_permitted_origin := b; af_username := c; af_password := d |}
    ∧ AccountFields_wf f.
Proof.
  intros. unfold AccountFields_new. split.
  - intros Hf. inv_ok Hf. by simp_guards.
  - intros (-> & [[] [] [] []]). simpl in *. rewrite bind_Ok. exists tt.
    split; [apply fail_if_Ok; by guard_false|done].
Qed.

Lemma PasskeyRequestProof_new_Ok t ty s e p :
  length t = 16%nat →
  PasskeyRequestProof_new t ty s e = Ok p ↔
    p = {| pr_transaction_id := t; pr_request_type := ty; pr_request_signature := s;
           pr_encoded_request := e |} ∧ PasskeyRequestProof_wf p.
Proof.
  intros. unfold PasskeyRequestProof_new. split.
  - intros Hp. inv_ok Hp. simp_guards. split; [done|]. split; simpl; split_and?; try done; by apply is_empty_false.
  - intros (-> & [[] Hty [] []]). simpl in *. subst ty. rewrite bind_Ok. exists tt.
    split; [apply fail_if_Ok; by guard_false|]. rewrite bind_Ok. exists tt.
    split; [apply fail_if_Ok; by guard_false|done].
Qed.

Lemma PasskeyTransactionProof_new_Ok t ty s e c u p :
  length t = 16%nat → length c = 16%nat →
  PasskeyTransactionProof_new t ty s e c u = Ok p ↔
    p = {| pt_request := {| pr_transaction_id := t; pr_request_type := ty; pr_request_signature := s;
                            pr_encoded_request := e |};
           pt_agent_challenge := c; pt_user_verification_signature := u |}
    ∧ PasskeyTransactionProof_wf p.
Proof.
  intros. unfold PasskeyTransactionProof_new. split.
  - intros Hp. inv_ok Hp. simp_guards.
    match goal with H : PasskeyRequestProof_new _ _ _ _ = Ok _ |- _ =>
      apply PasskeyRequestProof_new_Ok in H as [-> ?]; [|done] end.
    split; [done|]. split; simpl; split_and?; try done; by apply is_empty_false.
  - intros (-> & [Hr [] []]). simpl in *. rewrite bind_Ok. exists tt.
    split; [apply fail_if_Ok; by guard_false|]. rewrite bind_Ok. exists tt.
    split; [apply fail_if_Ok; by guard_false|].
    rewrite bind_Ok. eexists. split; [by apply PasskeyRequestProof_new_Ok|done].
Qed.

Lemma PasskeyRequestProof_new_not_Panic a b c d : PasskeyRequestProof_new a b c d ≠ Panic.
Proof. unfold PasskeyRequestProof_new. no_panic. Qed.
#[export] Hint Resolve PasskeyRequestProof_new_not_Panic : panic.
Lemma PasskeyTransactionProof_new_not_Panic a b c d e f : PasskeyTransactionProof_new a b c d e f ≠ Panic.
Proof. unfold PasskeyTransactionProof_new. no_panic. Qed.
#[export] Hint Resolve PasskeyTransactionProof_new_not_Panic : panic.

(** ** Components: what is read back, and sizes *)

Section component_facts.
Context `{MinicborLaws}.

Lemma parses_account_fields f :
  AccountFields_wf f →
  parses decode_account_fields (wire (encode_account_fields f)) f
  ∧ len (wire (encode_account_fields f)) ≤ 19800.
Proof.
  intros Hf. pose proof Hf as [[] [] [] []]. unfold encode_account_fields. split.
  - unfold decode_account_fields, decode_secret_text. destruct f. parse.
  - wire_size. head_bounds. solve_size.
Qed.

Lemma parses_request_proof p :
  PasskeyRequestProof_wf p →
  parses decode_passkey_request_proof (wire (encode_passkey_request_proof p)) p
  ∧ len (wire (encode_passkey_request_proof p)) ≤ 51300.
Proof.
  intros Hp. pose proof Hp as [[] Ht [] []]. unfold encode_passkey_request_proof. split.
  - unfold decode_passkey_request_proof.
    assert (PasskeyRequestProof_new (pr_transaction_id p) (pr_request_type p) (pr_request_signature p)
      (pr_encoded_request p) = Ok p) as Hnew by (apply PasskeyRequestProof_new_Ok; [done|by destruct p]).
    assert (u8 (pr_request_type p)) by (rewrite Ht; solve_size). parse. by apply parses_lift.
  - assert (u8 (pr_request_type p)) by (rewrite Ht; solve_size). wire_size. head_bounds. solve_size.
Qed.
#[local] Hint Extern 2 (parses decode_passkey_request_proof _ _) =>
  eapply proj1; apply parses_request_proof; assumption : parse.

Lemma parses_passkey_proof p :
  PasskeyTransactionProof_wf p →
  parses decode_passkey_proof (wire (encode_passkey_proof p)) p
  ∧ len (wire (encode_passkey_proof p)) ≤ 53400.
Proof.
  intros Hp. pose proof Hp as [Hr [] []].
  assert (length (pr_transaction_id (pt_request p)) = 16%nat) by apply Hr.
  unfold encode_passkey_proof. split.
  - unfold decode_passkey_proof.
    assert (PasskeyTransactionProof_new (pr_transaction_id (pt_request p)) (pr_request_type (pt_request p))
      (pr_request_signature (pt_request p)) (pr_encoded_request (pt_request p)) (pt_agent_challenge p)
      (pt_user_verification_signature p) = Ok p) as Hnew.
    { apply PasskeyTransactionProof_new_Ok; [done|done|]. split; [|done]. by destruct p as [[] ? ?]. }
    parse. by apply parses_lift.
  - pose proof (proj2 (parses_request_proof _ Hr)). wire_size. head_bounds. solve_size.
Qed.

Lemma yields_account_fields : yields decode_account_fields AccountFields_wf.
Proof.
  intros bs f r Hf. unfold decode_account_fields, decode_secret_text in Hf. inv_dec Hf. by yielded.
Qed.
Lemma yields_request_proof : yields decode_passkey_request_proof PasskeyRequestProof_wf.
Proof.
  intros bs p r Hp. unfold decode_passkey_request_proof in Hp. inv_dec Hp. yielded.
  match goal with H : PasskeyRequestProof_new _ _ _ _ = Ok _ |- _ =>
    apply PasskeyRequestProof_new_Ok in H as [_ ?]; done end.
Qed.
Lemma yields_passkey_proof : yields decode_passkey_proof PasskeyTransactionProof_wf.
Proof.
  intros bs p r Hp. unfold decode_passkey_proof in Hp. inv_dec Hp. yielded.
  match goal with H : decode_passkey_request_proof _ = Ok _ |- _ => apply yields_request_proof in H as [[]] end.
  match goal with H : PasskeyTransactionProof_new _ _ _ _ _ _ = Ok _ |- _ =>
    apply PasskeyTransactionProof_new_Ok in H as [_ ?]; done end.
Qed.
Lemma yields_parent_window : yields decode_parent_window (λ w, u64 w ∧ w ≠ 0).
Proof.
  intros bs w r Hw. unfold decode_parent_window in Hw. inv_dec Hw. yielded.
  case_match; simplify_eq. by simp_guards.
Qed.
Lemma parses_parent_window w :
  u64 w → w ≠ 0 → parses decode_parent_window (wire (encode_array 1 ++ encode_u64 w)) w.
Proof.
  intros Hu Hw. unfold decode_parent_window. parse. apply parses_lift.
  by rewrite (proj2 (Z.eqb_neq _ _) Hw).
Qed.

Lemma panic_free_BrowserContext : panic_free BrowserContext_decode_from.
Proof. intros bs Hp. unfold BrowserContext_decode_from in Hp. inv_dec_panic Hp. Qed.
Lemma panic_free_BrowserSelection : panic_free BrowserSelection_decode_from.
Proof. intros bs Hp. unfold BrowserSelection_decode_from in Hp. inv_dec_panic Hp. Qed.
Lemma panic_free_account_fields : panic_free decode_account_fields.
Proof. intros bs Hp. unfold decode_account_fields, decode_secret_text in Hp. inv_dec_panic Hp. Qed.
Lemma panic_free_request_proof : panic_free decode_passkey_request_proof.
Proof. intros bs Hp. unfold decode_passkey_request_proof in Hp. inv_dec_panic Hp. Qed.
Lemma panic_free_parent_window : panic_free decode_parent_window.
Proof. intros bs Hp. unfold decode_parent_window in Hp. inv_dec_panic Hp. Qed.
#[local] Hint Resolve panic_free_request_proof : panic_free.
Lemma panic_free_passkey_proof : panic_free decode_passkey_proof.
Proof. intros bs Hp. unfold decode_passkey_proof in Hp. inv_dec_panic Hp. Qed.
End component_facts.
#[export] Hint Resolve panic_free_BrowserContext panic_free_BrowserSelection panic_free_account_fields
  panic_free_request_proof panic_free_parent_window panic_free_passkey_proof : panic_free.

(** [yields_of l H] replaces the run [H] by what the lemma [l] says of it. *)
Ltac body_yielded :=
  yielded;
  repeat match goal with
  | H : BrowserContext_decode_from _ = Ok _ |- _ => apply yields_BrowserContext in H
  | H : BrowserSelection_decode_from _ = Ok _ |- _ => apply yields_BrowserSelection in H
  | H : decode_account_fields _ = Ok _ |- _ => apply yields_account_fields in H
  | H : decode_passkey_request_proof _ = Ok _ |- _ => apply yields_request_proof in H
  | H : decode_passkey_proof _ = Ok _ |- _ => apply yields_passkey_proof in H
  | H : decode_parent_window _ = Ok _ |- _ => apply yields_parent_window in H as [? ?]
  end.

Create HintDb component.
#[export] Hint Resolve parses_BrowserContext parses_BrowserSelection parses_account_fields
  parses_request_proof parses_passkey_proof : component.
#[export] Hint Extern 2 (parses ?d _ _) =>
  lazymatch d with
  | BrowserContext_decode_from => idtac
  | BrowserSelection_decode_from => idtac
  | decode_account_fields => idtac
  | decode_passkey_request_proof => idtac
  | decode_passkey_proof => idtac
  end; eapply proj1; eauto with component : parse.
#[export] Hint Resolve parses_parent_window : parse.
#[export] Hint Unfold OperationRequest_encode : panic_free.

Section body_facts.
Context `{MinicborLaws}.

(** The items of a typed request fit the request body. *)
Lemma len_OperationRequest_items r items :
  OperationRequest_typed r →
  (∀ p, OperationRequest_master_password r = Some p → len p ≤ MAX_MASTER_PASSWORD_BYTES) →
  OperationRequest_items r = Ok items → len (wire items) ≤ MAX_REQUEST_BODY_BYTES.
Proof.
  intros Ht Hp Hi.
  destruct r; cbn [OperationRequest_items OperationRequest_typed OperationRequest_master_password] in *;
    inv_ok Hi; simp_guards; destruct_and?;
    try (specialize (Hp _ eq_refl));
    rewrite ?concat_app, ?len_app;
    try (pose proof (proj2 (parses_BrowserContext _ ltac:(eassumption))));
    try (pose proof (proj2 (parses_BrowserSelection _ ltac:(eassumption))));
    try (pose proof (proj2 (parses_account_fields _ ltac:(eassumption))));
    try (pose proof (proj2 (parses_request_proof _ ltac:(eassumption))));
    try (pose proof (proj2 (parses_passkey_proof _ ltac:(eassumption))));
    wire_size; head_bounds; solve_size.
Qed.

Lemma OperationRequest_items_Ok r :
  OperationRequest_wf r → is_ok (OperationRequest_items r) = true.
Proof.
  intros [_ _ _ Hw]. destruct r; try done; simpl;
    by rewrite (proj2 (Z.eqb_neq _ _) (Hw _ eq_refl)).
Qed.

(** Each operation's decoder reads back the items of its requests. *)
Lemma parses_body r items :
  OperationRequest_wf r → OperationRequest_items r = Ok items →
  parses (OperationRequest_decode_body (OperationRequest_operation r)) (wire items) r.
Proof.
  intros [Ht Hp Hw Hpw] Hi. 
  destruct r; cbn [OperationRequest_items OperationRequest_typed OperationRequest_master_password
    OperationRequest_list_window OperationRequest_parent_window OperationRequest_operation] in *;
    try (specialize (Hp _ eq_refl)); try (specialize (Hw _ _ eq_refl)); try (specialize (Hpw _ eq_refl));
    inv_ok Hi; simp_guards; destruct_and?;
    unfold OperationRequest_decode_body, decode_browser_request, decode_passkey_request,
      decode_secret_text;
    try (rewrite bool_decide_true by done); try (rewrite bool_decide_false by done).
  all: try solve [parse].
  - assert (fail_if ((limit =? 0) || (limit >? MAX_LIST_PAGE_SIZE)) InvariantViolation = Ok tt).
    { apply fail_if_Ok. guard_false; lia. }
    parse.
  - by eapply parses_bind_last; [apply parses_parent_window|apply parses_ret].
  - by eapply parses_bind_last; [apply parses_parent_window|apply parses_ret].
Qed.

(** What an operation's decoder returns is a valid request of the operation. *)
Lemma yields_body operation :
  yields (OperationRequest_decode_body operation)
    (λ r, OperationRequest_wf r ∧ OperationRequest_operation r = operation).
Proof.
  intros bs r rest Hr.
  destruct operation;
    unfold OperationRequest_decode_body, decode_browser_request, decode_passkey_request,
      decode_secret_text in Hr;
    try (rewrite bool_decide_true in Hr by done); try (rewrite bool_decide_false in Hr by done);
    inv_dec Hr; body_yielded; simp_guards;
    (split; [|done]); split; simpl; try done; naive_solver solve_size.
Qed.

Lemma panic_free_body operation : panic_free (OperationRequest_decode_body operation).
Proof.
  intros bs Hp.
  destruct operation;
    unfold OperationRequest_decode_body, decode_browser_request, decode_passkey_request,
      decode_secret_text in Hp;
    try (rewrite bool_decide_true in Hp by done); try (rewrite bool_decide_false in Hp by done);
    inv_dec_panic Hp.
Qed.

(** The encoder as a function of the validity of the request. *)
Lemma OperationRequest_encode_wf r :
  OperationRequest_wf r →
  ∃ items, OperationRequest_items r = Ok items ∧ len (wire items) ≤ MAX_REQUEST_BODY_BYTES
    ∧ OperationRequest_encode r = Ok (wire items).
Proof.
  intros Hr. pose proof (OperationRequest_items_Ok r Hr) as Hok. destruct Hr as [Ht Hp Hw _].
  destruct (OperationRequest_items r) as [items| |] eqn:Hi; [|done|done].
  pose proof (len_OperationRequest_items r items Ht Hp Hi) as Hlen.
  exists items. split_and!; [done|done|]. unfold OperationRequest_encode.
  assert (from_option (λ password, len password >? MAX_MASTER_PASSWORD_BYTES) false
    (OperationRequest_master_password r) = false) as ->.
  { destruct (OperationRequest_master_password r) as [p|]; [|done]. specialize (Hp _ eq_refl). simpl. by guard_false. }
  assert (from_option (λ '(_, limit), (limit =? 0) || (limit >? MAX_LIST_PAGE_SIZE)) false
    (OperationRequest_list_window r) = false) as ->.
  { destruct (OperationRequest_list_window r) as [[o l]|]; [|done]. specialize (Hw _ _ eq_refl).
    simpl. guard_false; lia. }
  cbn [fail_if mbind result_bind]. rewrite Hi. cbn [mbind result_bind].
  rewrite secret_encode_fits by solve_size. cbn [mbind result_bind].
  unfold checked_request_body. by rewrite fail_if_small.
Qed.

(** The early returns of the encoder. *)
Lemma OperationRequest_encode_typed r :
  OperationRequest_typed r →
  match OperationRequest_encode r with
  | Ok bs => OperationRequest_wf r ∧ len bs ≤ MAX_REQUEST_BODY_BYTES
  | Err TooLarge =>
      ∃ p, OperationRequest_master_password r = Some p ∧ MAX_MASTER_PASSWORD_BYTES < len p
  | Err InvariantViolation =>
      (∃ o l, OperationRequest_list_window r = Some (o, l) ∧ (l = 0 ∨ MAX_LIST_PAGE_SIZE < l))
      ∨ OperationRequest_parent_window r = Some 0
  | _ => False
  end.
Proof.
  intros Ht.
  destruct (from_option (λ p, len p >? MAX_MASTER_PASSWORD_BYTES) false
    (OperationRequest_master_password r)) eqn:G1.
  { unfold OperationRequest_encode. rewrite G1. simpl.
    destruct (OperationRequest_master_password r) as [p|]; [|done]. simpl in G1. simp_guards. eauto. }
  destruct (from_option (λ '(_, l), (l =? 0) || (l >? MAX_LIST_PAGE_SIZE)) false
    (OperationRequest_list_window r)) eqn:G2.
  { unfold OperationRequest_encode. rewrite G1, G2. simpl. left.
    destruct (OperationRequest_list_window r) as [[o l]|]; [|done]. simpl in G2. exists o, l.
    apply orb_true_iff in G2 as [|]; simp_guards; auto. }
  destruct (decide (OperationRequest_parent_window r = Some 0)) as [Hz|Hz].
  { unfold OperationRequest_encode. rewrite G1, G2. cbn [fail_if mbind result_bind].
    destruct r; simpl in Hz; simplify_eq; simpl; by right. }
  assert (OperationRequest_wf r) as Hr.
  { split; [done| | |congruence].
    - intros p Hp. rewrite Hp in G1. simpl in G1. by simp_guards.
    - intros o l Hl. rewrite Hl in G2. simpl in G2. simp_guards.
      destruct r; simpl in *; simplify_eq. destruct Ht. solve_size. }
  destruct (OperationRequest_encode_wf r Hr) as (items & _ & Hlen & ->). done.
Qed.

Lemma OperationRequest_decode_encode r bs :
  OperationRequest_wf r → OperationRequest_encode r = Ok bs →
  OperationRequest_decode (OperationRequest_operation r) bs = Ok r.
Proof.
  intros Hr Henc. destruct (OperationRequest_encode_wf r Hr) as (items & Hi & Hlen & Himg).
  rewrite Himg in Henc. apply Ok_inj in Henc as Hbs. rewrite Hbs in Himg, Hlen.
  unfold OperationRequest_decode. rewrite fail_if_small by solve_size. cbn [mbind result_bind].
  run_image (eq_sym Hbs). eapply run_step_last; [by apply parses_body|]. run_parse. done.
Qed.

Lemma OperationRequest_decode_sound operation bs r :
  OperationRequest_decode operation bs = Ok r →
  OperationRequest_wf r ∧ OperationRequest_operation r = operation ∧ OperationRequest_encode r = Ok bs.
Proof.
  unfold OperationRequest_decode. intros Hr. inv_ok Hr. inv_dec Hok0. canonicalized. subst.
  match goal with H : OperationRequest_decode_body _ _ = Ok _ |- _ => apply yields_body in H as [? ?] end.
  done.
Qed.

Lemma OperationRequest_decode_not_Panic operation bs : OperationRequest_decode operation bs ≠ Panic.
Proof.
  unfold OperationRequest_decode. intros [[]%fail_if_not_Panic|(_ & _ & Hp)]%bind_Panic.
  apply run_decoder_Panic, dec_bind_Panic in Hp as [Hp|(r & rest & Hr & Hp)]; [by apply panic_free_body in Hp|].
  cbn beta in Hp. inv_dec_panic Hp. apply yields_body in Hr as [Hr _].
  destruct (OperationRequest_encode_wf r Hr) as (items & _ & _ & Henc). congruence.
Qed.
End body_facts.

(** ** Response bodies *)

Record AccountView := {
  av_id : bytes;
  av_revision : Z;
  av_created_at_ms : Z;
  av_modified_at_ms : Z;
  av_service_name : bytes;
  av_permitted_origin : bytes;
  av_username : bytes;
  av_password : bytes;
}.

Record PasskeyCredentialView := { cv_credential_id : bytes; cv_user_handle : bytes; cv_public_key : bytes }.

Record PasskeyAssertionView := {
  as_credential_id : bytes;
  as_user_handle : bytes;
  as_authenticator_data : bytes;
  as_signature_der : bytes;
}.

Record PasskeySummaryView := {
  sv_credential_id : bytes;
  sv_user_handle : bytes;
  sv_user_name : bytes;
  sv_user_display_name : bytes;
}.

Record PasskeyManagementSummaryView := {
  mv_credential_id : bytes;
  mv_rp_id : bytes;
  mv_user_name : bytes;
  mv_user_display_name : bytes;
}.

Definition validate_view_fields (account : AccountView) (include_password : bool) :
    result ProtocolError unit :=
  fail_if ((len (av_service_name account) >? MAX_SERVICE_NAME_BYTES)
    || (len (av_permitted_origin account) >? MAX_ORIGIN_BYTES)
    || (len (av_username account) >? MAX_USERNAME_BYTES)
    || (include_password && (len (av_password account) >? MAX_PASSWORD_BYTES))) TooLarge.

(** [value[0]] on an array. *)
Definition array_first (l : bytes) : result ProtocolError byte :=
  match l with [] => Panic | b :: _ => Ok b end.

(** The loop that bounds the size of a page before encoding it. *)
Fixpoint maximum_encoded (acc : Z) (accounts : list AccountView) : result ProtocolError Z :=
  match accounts with
  | [] => Ok acc
  | account :: accounts =>
      validate_view_fields account false;;
      acc ← ok_or (l ← checked_add 64 acc 54;
                   l ← checked_add 64 l (len (av_service_name account));
                   l ← checked_add 64 l (len (av_permitted_origin account));
                   checked_add 64 l (len (av_username account))) TooLarge;
      maximum_encoded acc accounts
  end.

(** A loop that validates each element and writes its items. *)
Fixpoint put_each {A} (invalid : A → bool) (items : A → list bytes) (w : SecretWriter) (l : list A) :
    result ProtocolError SecretWriter :=
  match l with
  | [] => Ok w
  | a :: l =>
      fail_if (invalid a) InvariantViolation;;
      w ← secret_put w (items a);
      put_each invalid items w l
  end.

Definition summary_invalid (p : PasskeySummaryView) : bool :=
  bool_decide (sv_credential_id p = zeros PASSKEY_CREDENTIAL_ID_BYTES)
  || is_empty (sv_user_handle p)
  || (len (sv_user_handle p) >? MAX_PASSKEY_USER_HANDLE_BYTES)
  || is_empty (sv_user_name p)
  || (len (sv_user_name p) >? MAX_PASSKEY_USER_NAME_BYTES)
  || is_empty (sv_user_display_name p)
  || (len (sv_user_display_name p) >? MAX_PASSKEY_USER_NAME_BYTES).

Definition management_summary_invalid (p : PasskeyManagementSummaryView) : bool :=
  bool_decide (mv_credential_id p = zeros PASSKEY_CREDENTIAL_ID_BYTES)
  || is_empty (mv_rp_id p)
  || (len (mv_rp_id p) >? MAX_PASSKEY_RP_ID_BYTES)
  || is_empty (mv_user_name p)
  || (len (mv_user_name p) >? MAX_PASSKEY_USER_NAME_BYTES)
  || is_empty (mv_user_display_name p)
  || (len (mv_user_display_name p) >? MAX_PASSKEY_USER_NAME_BYTES).

Section responses.
Context `{Minicbor}.

(** A body built in one zeroizing buffer, then checked. *)
Definition response_body (items : list bytes) : result ProtocolError bytes :=
  body ← secret_encode MAX_PAYLOAD_BYTES items;
  checked_response_body body.

Definition encode_empty_result : result ProtocolError bytes := response_body (encode_array 0).

Definition encode_status (state : AgentState) (unlock_epoch : Z) : result ProtocolError bytes :=
  response_body (encode_array 2 ++ encode_u8 (AgentState_code state) ++ encode_u64 unlock_epoch).

Definition encode_account_id (id : bytes) : result ProtocolError bytes :=
  response_body (encode_array 1 ++ encode_bytes id).

Definition encode_passkey_credential (c : PasskeyCredentialView) : result ProtocolError bytes :=
  first ← (if bool_decide (cv_credential_id c = zeros PASSKEY_CREDENTIAL_ID_BYTES)
              || is_empty (cv_user_handle c)
              || (len (cv_user_handle c) >? MAX_PASSKEY_USER_HANDLE_BYTES)
           then Err InvariantViolation else array_first (cv_public_key c));
  fail_if (bool_decide (first ≠ x04)) InvariantViolation;;
  response_body (encode_array 3 ++ encode_bytes (cv_credential_id c) ++
    encode_bytes (cv_user_handle c) ++ encode_bytes (cv_public_key c)).

Definition encode_passkey_assertion (a : PasskeyAssertionView) : result ProtocolError bytes :=
  fail_if (bool_decide (as_credential_id a = zeros PASSKEY_CREDENTIAL_ID_BYTES)
    || is_empty (as_user_handle a)
    || (len (as_user_handle a) >? MAX_PASSKEY_USER_HANDLE_BYTES)
    || is_empty (as_signature_der a)
    || (len (as_signature_der a) >? MAX_PASSKEY_ASSERTION_SIGNATURE_BYTES)) InvariantViolation;;
  response_body (encode_array 4 ++ encode_bytes (as_credential_id a) ++
    encode_bytes (as_user_handle a) ++ encode_bytes (as_authenticator_data a) ++
    encode_bytes (as_signature_der a)).

Definition summary_items (p : PasskeySummaryView) : list bytes :=
  encode_array 4 ++ encode_bytes (sv_credential_id p) ++ encode_bytes (sv_user_handle p) ++
  encode_text (sv_user_name p) ++ encode_text (sv_user_display_name p).

Definition encode_passkey_summaries (passkeys : list PasskeySummaryView) :
    result ProtocolError bytes :=
  fail_if (len passkeys >? MAX_PASSKEY_CREDENTIALS) TooLarge;;
  n ← ok_or (try_from 64 (len passkeys)) TooLarge;
  w ← secret_put (with_capacity MAX_PAYLOAD_BYTES) (encode_array n);
  w ← put_each summary_invalid summary_items w passkeys;
  checked_response_body (sw_bytes w).

Definition management_summary_items (p : PasskeyManagementSummaryView) : list bytes :=
  encode_array 4 ++ encode_bytes (mv_credential_id p) ++ encode_text (mv_rp_id p) ++
  encode_text (mv_user_name p) ++ encode_text (mv_user_display_name p).

Definition encode_passkey_management_summaries (passkeys : list PasskeyManagementSummaryView) :
    result ProtocolError bytes :=
  fail_if (len passkeys >? MAX_PASSKEY_CREDENTIALS) TooLarge;;
  n ← ok_or (try_from 64 (len passkeys)) TooLarge;
  w ← secret_put (with_capacity MAX_PAYLOAD_BYTES) (encode_array n);
  w ← put_each management_summary_invalid management_summary_items w passkeys;
  checked_response_body (sw_bytes w).

Definition encode_account (account : AccountView) : result ProtocolError bytes :=
  validate_view_fields account true;;
  response_body (encode_array 8 ++ encode_bytes (av_id account) ++ encode_u64 (av_revision account) ++
    encode_u64 (av_created_at_ms account) ++ encode_u64 (av_modified_at_ms account) ++
    encode_text (av_service_name account) ++ encode_text (av_permitted_origin account) ++
    encode_text (av_username account) ++ encode_text (av_password account)).

Definition account_summary_items (account : AccountView) : list bytes :=
  encode_array 7 ++ encode_bytes (av_id account) ++ encode_u64 (av_revision account) ++
  encode_u64 (av_created_at_ms account) ++ encode_u64 (av_modified_at_ms account) ++
  encode_text (av_service_name account) ++ encode_text (av_permitted_origin account) ++
  encode_text (av_username account).

Definition encode_account_summaries (accounts : list AccountView) (next_offset : option Z) :
    result ProtocolError bytes :=
  fail_if (len accounts >? MAX_LIST_PAGE_SIZE) TooLarge;;
  maximum ← maximum_encoded 8 accounts;
  fail_if (maximum >? MAX_RESPONSE_BODY_BYTES) TooLarge;;
  n ← ok_or (try_from 64 (len accounts)) TooLarge;
  response_body (encode_array 2 ++
    match next_offset with Some offset => encode_u32 offset | None => encode_null end ++
    encode_array n ++ concat (account_summary_items <$> accounts)).
End responses.

Record AccountView_typed (a : AccountView) : Prop := {
  at_id : length (av_id a) = 16%nat;
  at_revision : u64 (av_revision a);
  at_created : u64 (av_created_at_ms a);
  at_modified : u64 (av_modified_at_ms a);
  at_service_name : u64 (len (av_service_name a)) ∧ text (av_service_name a);
  at_permitted_origin : u64 (len (av_permitted_origin a)) ∧ text (av_permitted_origin a);
  at_username : u64 (len (av_username a)) ∧ text (av_username a);
  at_password : u64 (len (av_password a)) ∧ text (av_password a);
}.

Record PasskeySummaryView_typed (p : PasskeySummaryView) : Prop := {
  svt_id : length (sv_credential_id p) = PASSKEY_CREDENTIAL_ID_BYTES;
  svt_name : text (sv_user_name p);
  svt_display : text (sv_user_display_name p);
}.
Record PasskeyManagementSummaryView_typed (p : PasskeyManagementSummaryView) : Prop := {
  mvt_id : length (mv_credential_id p) = PASSKEY_CREDENTIAL_ID_BYTES;
  mvt_rp : text (mv_rp_id p);
  mvt_name : text (mv_user_name p);
  mvt_display : text (mv_user_display_name p);
}.

(** The estimate of the size of a page. *)
Definition view_bound (a : AccountView) : Z :=
  54 + len (av_service_name a) + len (av_permitted_origin a) + len (av_username a).
Fixpoint page_bound (accounts : list AccountView) : Z :=
  match accounts with [] => 0 | a :: accounts => view_bound a + page_bound accounts end.

Definition view_ok (include_password : bool) (a : AccountView) : Prop :=
  len (av_service_name a) ≤ MAX_SERVICE_NAME_BYTES ∧ len (av_permitted_origin a) ≤ MAX_ORIGIN_BYTES
  ∧ len (av_username a) ≤ MAX_USERNAME_BYTES
  ∧ (include_password = true → len (av_password a) ≤ MAX_PASSWORD_BYTES).
#[export] Instance view_ok_dec b a : Decision (view_ok b a).
Proof. unfold view_ok. apply _. Defined.

Lemma validate_view_fields_spec a b :
  validate_view_fields a b = if decide (view_ok b a) then Ok tt else Err TooLarge.
Proof.
  unfold validate_view_fields. case_decide as Hv.
  - destruct Hv as (?&?&?&Hp). apply fail_if_Ok. guard_false; try done.
    destruct b; [right; guard_false; auto|by left].
  - unfold fail_if. destruct (_ || _) eqn:Hg; [done|]. destruct Hv. simp_guards. unfold view_ok.
    split_and!; try done. intros ->. simpl in *. by simp_guards.
Qed.

Lemma maximum_encoded_spec accounts acc :
  0 ≤ acc → acc + 4000 * len accounts ≤ max_of 64 →
  maximum_encoded acc accounts =
    if decide (Forall (view_ok false) accounts) then Ok (acc + page_bound accounts) else Err TooLarge.
Proof.
  revert acc. induction accounts as [|a accounts IH]; intros acc Hacc Hmax; cbn [maximum_encoded page_bound].
  { by rewrite decide_True, Z.add_0_r by constructor. }
  rewrite validate_view_fields_spec. rewrite len_cons in Hmax.
  destruct (decide (view_ok false a)) as [Hv|Hv]; cbn [mbind result_bind].
  - pose proof Hv as (?&?&?&_). pose proof (len_nonneg accounts).
    pose proof (len_nonneg (av_service_name a)). pose proof (len_nonneg (av_permitted_origin a)).
    pose proof (len_nonneg (av_username a)).
    autounfold with limits in *. unfold checked_add, max_of in *.
    rewrite !(proj2 (Z.leb_le _ _)) by lia. cbn [mbind option_bind]. rewrite !(proj2 (Z.leb_le _ _)) by lia.
    cbn [ok_or mbind result_bind option_bind]. rewrite !(proj2 (Z.leb_le _ _)) by lia.
    cbn [ok_or mbind result_bind option_bind]. rewrite !(proj2 (Z.leb_le _ _)) by lia.
    cbn [ok_or mbind result_bind option_bind]. rewrite IH by lia. unfold view_bound.
    destruct (decide (Forall (view_ok false) accounts)).
    + rewrite decide_True by (by constructor). f_equal. lia.
    + rewrite decide_False; [done|]. by intros [? ?]%Forall_cons.
  - rewrite decide_False; [done|]. by intros [? ?]%Forall_cons.
Qed.

Lemma page_bound_nonneg accounts : 0 ≤ page_bound accounts.
Proof. induction accounts; simpl; [done|]. unfold view_bound, len in *. lia. Qed.

Section response_facts.
Context `{MinicborLaws}.

Lemma response_body_fits items :
  len (wire items) ≤ MAX_RESPONSE_BODY_BYTES → response_body items = Ok (wire items).
Proof.
  intros. unfold response_body. rewrite secret_encode_fits by solve_size. cbn [mbind result_bind].
  unfold checked_response_body. by rewrite fail_if_small.
Qed.

Lemma put_each_spec {A} (invalid : A → bool) (items : A → list bytes) k w l :
  sw_capacity w ≤ max_of 64 → 0 ≤ k → len (sw_bytes w) + k * len l ≤ sw_capacity w →
  (∀ a, a ∈ l → invalid a = false → len (wire (items a)) ≤ k) →
  put_each invalid items w l =
    if existsb invalid l then Err InvariantViolation
    else Ok {| sw_bytes := sw_bytes w ++ wire (concat (items <$> l)); sw_capacity := sw_capacity w |}.
Proof.
  intros Hcap Hk. revert w Hcap. induction l as [|a l IH]; intros w Hcap Hfit Hi; cbn [put_each existsb].
  { simpl. rewrite app_nil_r. by destruct w. }
  rewrite len_cons in Hfit. pose proof (len_nonneg l).
  destruct (invalid a) eqn:Ha; [done|]. cbn [fail_if mbind result_bind orb].
  pose proof (Hi a ltac:(left) Ha). rewrite secret_put_fits by (done || nia). cbn [mbind result_bind].
  rewrite IH; cbn [sw_bytes sw_capacity]; [|done|rewrite len_app; nia|intros; apply Hi; [by right|done]].
  rewrite fmap_cons. cbn [concat]. by rewrite concat_app, app_assoc.
Qed.

Lemma len_summary_items p :
  PasskeySummaryView_typed p → summary_invalid p = false → len (wire (summary_items p)) ≤ 654.
Proof.
  intros [] Hi. unfold summary_invalid in Hi. simp_guards. unfold summary_items.
  wire_size. head_bounds. solve_size.
Qed.
Lemma len_management_summary_items p :
  PasskeyManagementSummaryView_typed p → management_summary_invalid p = false →
  len (wire (management_summary_items p)) ≤ 850.
Proof.
  intros [] Hi. unfold management_summary_invalid in Hi. simp_guards. unfold management_summary_items.
  wire_size. head_bounds. solve_size.
Qed.

(** A list response: header, validated elements, final check. *)
Lemma put_list_response {A} (invalid : A → bool) (items : A → list bytes) k l :
  len l ≤ 64 → 0 ≤ k ≤ 1000 → (∀ a, a ∈ l → invalid a = false → len (wire (items a)) ≤ k) →
  (w ← secret_put (with_capacity MAX_PAYLOAD_BYTES) (encode_array (len l));
   w ← put_each invalid items w l;
   checked_response_body (sw_bytes w)) =
  if existsb invalid l then Err InvariantViolation
  else Ok (wire (encode_array (len l) ++ concat (items <$> l))).
Proof.
  intros Hl Hk Hi. pose proof (len_nonneg l).
  assert (len (wire (encode_array (len l))) ≤ 9).
  { rewrite len_encode_array by solve_size. head_bounds. lia. }
  rewrite secret_put_fits by (simpl; rewrite ?len_nil; solve_size). cbn [mbind result_bind].
  rewrite (put_each_spec _ _ k) by (done || lia || cbn [sw_bytes sw_capacity with_capacity app];
    autounfold with limits; nia).
  cbn [sw_bytes sw_capacity with_capacity app].
  destruct (existsb invalid l) eqn:He; [done|]. cbn [mbind result_bind sw_bytes].
  unfold checked_response_body. rewrite fail_if_small; [by rewrite concat_app|].
  rewrite len_app. pose proof (len_each_le items k l) as Hle.
  assert (len (wire (concat (items <$> l))) ≤ k * len l).
  { apply Hle. intros a Ha. apply Hi; [done|]. destruct (invalid a) eqn:Hia; [|done].
    rewrite <-not_true_iff_false, existsb_exists in He. destruct He. exists a. by rewrite <-list_elem_of_In. }
  autounfold with limits. nia.
Qed.
End response_facts.

(** ** Single-record responses *)

Definition handle_ok (h : bytes) (max : Z) : Prop := 1 ≤ len h ≤ max.

Lemma handle_invalid h max : is_empty h || (len h >? max) = false ↔ handle_ok h max.
Proof.
  unfold handle_ok. rewrite orb_false_iff, is_empty_false, Z.gtb_ltb, Z.ltb_ge.
  destruct h; rewrite ?len_nil, ?len_cons; [|pose proof (len_nonneg h)]; naive_solver lia.
Qed.

Definition account_items `{Minicbor} (a : AccountView) : list bytes :=
  encode_array 8 ++ encode_bytes (av_id a) ++ encode_u64 (av_revision a) ++
  encode_u64 (av_created_at_ms a) ++ encode_u64 (av_modified_at_ms a) ++
  encode_text (av_service_name a) ++ encode_text (av_permitted_origin a) ++
  encode_text (av_username a) ++ encode_text (av_password a).
Definition credential_items `{Minicbor} (c : PasskeyCredentialView) : list bytes :=
  encode_array 3 ++ encode_bytes (cv_credential_id c) ++ encode_bytes (cv_user_handle c) ++
  encode_bytes (cv_public_key c).
Definition assertion_items `{Minicbor} (a : PasskeyAssertionView) : list bytes :=
  encode_array 4 ++ encode_bytes (as_credential_id a) ++ encode_bytes (as_user_handle a) ++
  encode_bytes (as_authenticator_data a) ++ encode_bytes (as_signature_der a).

Definition credential_ok (c : PasskeyCredentialView) : Prop :=
  cv_credential_id c ≠ zeros 32 ∧ 1 ≤ len (cv_user_handle c) ≤ MAX_PASSKEY_USER_HANDLE_BYTES
  ∧ head (cv_public_key c) = Some x04.
#[export] Instance credential_ok_dec c : Decision (credential_ok c).
Proof. unfold credential_ok. apply _. Defined.
Definition assertion_ok (a : PasskeyAssertionView) : Prop :=
  as_credential_id a ≠ zeros 32 ∧ 1 ≤ len (as_user_handle a) ≤ MAX_PASSKEY_USER_HANDLE_BYTES
  ∧ 1 ≤ len (as_signature_der a) ≤ MAX_PASSKEY_ASSERTION_SIGNATURE_BYTES.
#[export] Instance assertion_ok_dec a : Decision (assertion_ok a).
Proof. unfold assertion_ok. apply _. Defined.

Section single_responses.
Context `{MinicborLaws}.

Lemma encode_account_spec a :
  AccountView_typed a →
  encode_account a = if decide (view_ok true a) then Ok (wire (account_items a)) else Err TooLarge.
Proof.
  intros [Hid ? ? ? [] [] [] []]. unfold encode_account. rewrite validate_view_fields_spec.
  case_decide as Hv; [|done]. cbn [mbind result_bind]. apply response_body_fits.
  destruct Hv as (?&?&?&Hp). specialize (Hp eq_refl). unfold account_items. wire_size. head_bounds. solve_size.
Qed.

Lemma encode_passkey_credential_spec c :
  length (cv_credential_id c) = PASSKEY_CREDENTIAL_ID_BYTES →
  length (cv_public_key c) = PASSKEY_PUBLIC_KEY_BYTES →
  encode_passkey_credential c =
    if decide (credential_ok c) then Ok (wire (credential_items c)) else Err InvariantViolation.
Proof.
  intros Hci Hpk. unfold encode_passkey_credential. rewrite <-orb_assoc.
  destruct (is_empty (cv_user_handle c) || _) eqn:Hh.
  { rewrite orb_true_r, decide_False; [done|]. intros (_&Hk&_).
    apply handle_invalid in Hk. congruence. }
  apply handle_invalid in Hh. rewrite orb_false_r. case_bool_decide as Hz.
  { rewrite decide_False; [done|]. by intros []. }
  destruct (cv_public_key c) as [|b k] eqn:Hk; [done|]. cbn [array_first mbind result_bind].
  case_bool_decide as Hb.
  { rewrite decide_False; [done|]. unfold credential_ok. rewrite Hk. intros (_&_&[= ->]). done. }
  subst b. cbn [fail_if mbind result_bind].
  rewrite decide_True by (unfold credential_ok; by rewrite Hk). rewrite <-Hk. apply response_body_fits.
  assert (length (cv_public_key c) = PASSKEY_PUBLIC_KEY_BYTES) by (by rewrite Hk).
  unfold handle_ok in Hh. unfold credential_items. wire_size. head_bounds. solve_size.
Qed.

Lemma encode_passkey_assertion_spec a :
  length (as_credential_id a) = PASSKEY_CREDENTIAL_ID_BYTES →
  length (as_authenticator_data a) = PASSKEY_AUTHENTICATOR_DATA_BYTES →
  encode_passkey_assertion a =
    if decide (assertion_ok a) then Ok (wire (assertion_items a)) else Err InvariantViolation.
Proof.
  intros Hai Hauth. unfold encode_passkey_assertion.
  destruct (_ || _) eqn:Hg.
  - cbn [fail_if mbind result_bind]. rewrite decide_False; [done|].
    intros (Hz & Hu%handle_invalid & Hs%handle_invalid). rewrite bool_decide_false in Hg by done.
    apply orb_false_iff in Hu as [Hu1 Hu2]. apply orb_false_iff in Hs as [Hs1 Hs2].
    by rewrite Hu1, Hu2, Hs1, Hs2 in Hg.
  - repeat (apply orb_false_iff in Hg as [Hg ?]).
    assert (assertion_ok a) as Hok.
    { split; [by apply bool_decide_eq_false in Hg|].
      split; apply handle_invalid, orb_false_iff; done. }
    rewrite decide_True by done. cbn [fail_if mbind result_bind]. destruct Hok as (_&?&?).
    apply response_body_fits. unfold assertion_items. wire_size. head_bounds. solve_size.
Qed.
Lemma encode_account_summaries_spec accounts next_offset :
  Forall AccountView_typed accounts → (∀ o, next_offset = Some o → u32 o) →
  encode_account_summaries accounts next_offset =
    (if bool_decide (len accounts ≤ MAX_LIST_PAGE_SIZE ∧ Forall (view_ok false) accounts
                     ∧ 8 + page_bound accounts ≤ MAX_RESPONSE_BODY_BYTES)
     then Ok (wire (encode_array 2 ++
       match next_offset with Some offset => encode_u32 offset | None => encode_null end ++
       encode_array (len accounts) ++ concat (account_summary_items <$> accounts)))
     else Err TooLarge).
Proof.
  intros Ht Ho. unfold encode_account_summaries.
  destruct (Z.gtb_spec (len accounts) MAX_LIST_PAGE_SIZE); cbn [fail_if mbind result_bind].
  { rewrite bool_decide_false; [done|]. lia. }
  pose proof (len_nonneg accounts).
  rewrite maximum_encoded_spec by (autounfold with limits in *; lia).
  destruct (decide (Forall (view_ok false) accounts)) as [Hv|Hv]; cbn [mbind result_bind];
    [|by rewrite bool_decide_false by tauto].
  destruct (Z.gtb_spec (8 + page_bound accounts) MAX_RESPONSE_BODY_BYTES); cbn [fail_if mbind result_bind].
  { rewrite bool_decide_false; [done|]. lia. }
  rewrite bool_decide_true by done. rewrite try_from_uint by solve_size. cbn [ok_or mbind result_bind].
  apply response_body_fits. etrans; [|eassumption]. rewrite !concat_app, !len_app.
  assert (len (wire (concat (account_summary_items <$> accounts))) ≤ page_bound accounts) as Hpage.
  { clear -Ht Hv H0. induction accounts as [|a accounts IH]; [done|].
    apply Forall_cons in Ht as [Ha Ht]. apply Forall_cons in Hv as [(?&?&?&_) Hv].
    rewrite fmap_cons. cbn [concat page_bound]. rewrite concat_app, len_app. specialize (IH Ht Hv).
    assert (len (wire (account_summary_items a)) ≤ view_bound a); [|lia].
    destruct Ha as [Hid ? ? ? [] [] [] _]. unfold account_summary_items, view_bound. wire_size.
    autounfold with limits in *.
    pose proof (len_nonneg (av_service_name a)). pose proof (len_nonneg (av_permitted_origin a)).
    pose proof (len_nonneg (av_username a)).
    pose proof (head_len_le3 (len (av_service_name a)) ltac:(lia)).
    pose proof (head_len_le3 (len (av_permitted_origin a)) ltac:(lia)).
    pose proof (head_len_le3 (len (av_username a)) ltac:(lia)).
    rewrite (len_length _ _ Hid). change (head_len (Z.of_nat 16)) with 1. change (head_len 7) with 1.
    pose proof (head_len_bounds (av_revision a)). pose proof (head_len_bounds (av_created_at_ms a)).
    pose proof (head_len_bounds (av_modified_at_ms a)). lia. }
  assert (len (wire (match next_offset with Some o => encode_u32 o | None => encode_null end)) ≤ 5).
  { destruct next_offset as [o|]; [|by rewrite len_encode_null]. specialize (Ho _ eq_refl).
    rewrite len_encode_u32 by done. apply head_len_cases; solve_size. }
  rewrite !len_encode_array by solve_size. change (head_len 2) with 1.
  assert (head_len (len accounts) ≤ 2) by (apply head_len_cases; solve_size). lia.
Qed.
End single_responses.

(** ** Properties *)

Section properties.
Context `{MinicborLaws}.

(** C33: for every operation, [OperationRequest::decode] accepts exactly the
    encodings of valid requests of that operation (bounded secrets, proofs that
    passed their constructors, a page limit between one and one hundred, a nonnull
    window), each for one request, and no input makes it panic; the two reserved
    capture operations accept nothing. *)
Theorem operation_body_exact operation bs r :
  (OperationRequest_decode operation bs = Ok r ↔
    OperationRequest_wf r ∧ OperationRequest_operation r = operation ∧ OperationRequest_encode r = Ok bs)
  ∧ OperationRequest_decode operation bs ≠ Panic
  ∧ (operation = OperationCode.CaptureCredential ∨ operation = OperationCode.UpdateCredential →
     is_ok (OperationRequest_decode operation bs) = false).
Proof.
  split_and!.
  - split; [apply OperationRequest_decode_sound|].
    intros (? & <- & ?). by apply OperationRequest_decode_encode.
  - apply OperationRequest_decode_not_Panic.
  - intros Ho. destruct (OperationRequest_decode operation bs) as [r'| |] eqn:Hr; [|done|done].
    apply OperationRequest_decode_sound in Hr as (_ & Hr & _). destruct Ho; subst; by destruct r'.
Qed.

(** The outcome of [OperationRequest::encode] on every value of the Rust
    type: a body that fits a request envelope for a valid request; [TooLarge] only
    for a master password over 1024 bytes; [InvariantViolation] only for a bad
    page limit or a null window; never a panic, since the fixed 65536-byte buffer
    holds every request that passes the checks. *)
Theorem operation_encode_outcomes r :
  OperationRequest_typed r →
  match OperationRequest_encode r with
  | Ok bs => OperationRequest_wf r ∧ len bs ≤ MAX_REQUEST_BODY_BYTES
  | Err TooLarge =>
      ∃ p, OperationRequest_master_password r = Some p ∧ MAX_MASTER_PASSWORD_BYTES < len p
  | Err InvariantViolation =>
      (∃ o l, OperationRequest_list_window r = Some (o, l) ∧ (l = 0 ∨ MAX_LIST_PAGE_SIZE < l))
      ∨ OperationRequest_parent_window r = Some 0
  | _ => False
  end.
Proof. apply OperationRequest_encode_typed. Qed.

(** An account page is encoded exactly when it has at most one hundred
    accounts, every field is within its limit, and the estimate of 8 bytes plus 54
    bytes and the text lengths per account fits the response; the estimate covers
    the encoding, so that the buffer never overflows and the last check never
    fires; passwords do not influence the page. *)
Theorem account_page_exact accounts next_offset :
  Forall AccountView_typed accounts → (∀ o, next_offset = Some o → u32 o) →
  encode_account_summaries accounts next_offset =
    (if bool_decide (len accounts ≤ MAX_LIST_PAGE_SIZE ∧ Forall (view_ok false) accounts
                     ∧ 8 + page_bound accounts ≤ MAX_RESPONSE_BODY_BYTES)
     then Ok (wire (encode_array 2 ++
       match next_offset with Some offset => encode_u32 offset | None => encode_null end ++
       encode_array (len accounts) ++ concat (account_summary_items <$> accounts)))
     else Err TooLarge).
Proof. apply encode_account_summaries_spec. Qed.

(** The response encoders for passkey lists refuse more than 64 entries as
    too large and a malformed entry as an invariant violation; every other list of
    typed views is encoded, within the response limit and without a panic. *)
Theorem passkey_lists_exact l m :
  Forall PasskeySummaryView_typed l → Forall PasskeyManagementSummaryView_typed m →
  encode_passkey_summaries l =
    (if len l >? MAX_PASSKEY_CREDENTIALS then Err TooLarge
     else if existsb summary_invalid l then Err InvariantViolation
     else Ok (wire (encode_array (len l) ++ concat (summary_items <$> l)))) ∧
  encode_passkey_management_summaries m =
    (if len m >? MAX_PASSKEY_CREDENTIALS then Err TooLarge
     else if existsb management_summary_invalid m then Err InvariantViolation
     else Ok (wire (encode_array (len m) ++ concat (management_summary_items <$> m)))).
Proof.
  intros Hl Hm. rewrite Forall_forall in Hl. rewrite Forall_forall in Hm. pose proof (len_nonneg l). pose proof (len_nonneg m). split.
  - unfold encode_passkey_summaries.
    destruct (Z.gtb_spec (len l) MAX_PASSKEY_CREDENTIALS); cbn [fail_if mbind result_bind]; [done|].
    rewrite try_from_uint by solve_size. cbn [ok_or mbind result_bind].
    apply (put_list_response _ _ 654); [done|lia|]. intros a Ha. by apply len_summary_items, Hl.
  - unfold encode_passkey_management_summaries.
    destruct (Z.gtb_spec (len m) MAX_PASSKEY_CREDENTIALS); cbn [fail_if mbind result_bind]; [done|].
    rewrite try_from_uint by solve_size. cbn [ok_or mbind result_bind].
    apply (put_list_response _ _ 850); [done|lia|]. intros a Ha. by apply len_management_summary_items, Hm.
Qed.

(** The single-record responses: status, identifier and empty result are
    always encoded; a complete account exactly when its four fields are within
    their limits; a new credential exactly with a nonzero identifier, a user handle
    of 1 to 64 bytes and an uncompressed public key; an assertion exactly with a
    DER signature of 1 to 80 bytes besides.  None of them panics. *)
Theorem single_responses_exact state epoch id account (c : PasskeyCredentialView) (a : PasskeyAssertionView) :
  u64 epoch → length id = 16%nat → AccountView_typed account →
  length (cv_credential_id c) = PASSKEY_CREDENTIAL_ID_BYTES →
  length (cv_public_key c) = PASSKEY_PUBLIC_KEY_BYTES →
  length (as_credential_id a) = PASSKEY_CREDENTIAL_ID_BYTES →
  length (as_authenticator_data a) = PASSKEY_AUTHENTICATOR_DATA_BYTES →
  is_ok encode_empty_result = true ∧ is_ok (encode_status state epoch) = true
  ∧ is_ok (encode_account_id id) = true
  ∧ (is_ok (encode_account account) = true ↔ view_ok true account)
  ∧ (is_ok (encode_passkey_credential c) = true ↔
      cv_credential_id c ≠ zeros 32 ∧ 1 ≤ len (cv_user_handle c) ≤ MAX_PASSKEY_USER_HANDLE_BYTES
      ∧ head (cv_public_key c) = Some x04)
  ∧ (is_ok (encode_passkey_assertion a) = true ↔
      as_credential_id a ≠ zeros 32 ∧ 1 ≤ len (as_user_handle a) ≤ MAX_PASSKEY_USER_HANDLE_BYTES
      ∧ 1 ≤ len (as_signature_der a) ≤ MAX_PASSKEY_ASSERTION_SIGNATURE_BYTES)
  ∧ encode_account account ≠ Panic ∧ encode_passkey_credential c ≠ Panic ∧ encode_passkey_assertion a ≠ Panic.
Proof.
  intros He Hid Ha Hci Hpk Hai Hauth.
  rewrite (encode_account_spec account Ha), (encode_passkey_credential_spec c Hci Hpk),
    (encode_passkey_assertion_spec a Hai Hauth).
  assert (∀ (P : Prop) `{Decision P} (x : bytes), is_ok (if decide P then Ok x else Err TooLarge) = true ↔ P) as Hd1
    by (intros; case_decide; done).
  assert (∀ (P : Prop) `{Decision P} (x : bytes), is_ok (if decide P then Ok x else Err InvariantViolation) = true ↔ P) as Hd2
    by (intros; case_decide; done).
  split_and!; try apply Hd1; try apply Hd2; try (by case_decide).
  - unfold encode_empty_result. rewrite response_body_fits; [done|]. wire_size. head_bounds. solve_size.
  - unfold encode_status. rewrite response_body_fits; [done|]. wire_size. head_bounds. solve_size.
  - unfold encode_account_id. rewrite response_body_fits; [done|]. wire_size. head_bounds. solve_size.
Qed.
End properties.

Module Examples.
Import Rfc8949.

Definition window : OperationRequest := ListAccountSummaries 0 100.
Lemma window_wf : OperationRequest_wf window.
Proof. split; simpl; try done. by intros o l [= <- <-]. Qed.

Lemma operation_body_exact_witness :
  OperationRequest_decode OperationCode.ListAccountSummaries
    (wire (encode_array 2 ++ encode_u32 0 ++ encode_u16 100)) = Ok window.
Proof.
  apply (operation_body_exact OperationCode.ListAccountSummaries _ window).
  split_and!; [apply window_wf|reflexivity|vm_compute; reflexivity].
Defined.

Lemma operation_encode_outcomes_witness :
  OperationRequest_encode (EnrollWindowsHello 0) = Err InvariantViolation
  ∧ OperationRequest_parent_window (EnrollWindowsHello 0) = Some 0.
Proof.
  split; [reflexivity|].
  destruct (operation_encode_outcomes (EnrollWindowsHello 0)) as [(o & l & Hl & _)|Hw];
    [by split|discriminate Hl|exact Hw].
Defined.

Definition account (password : bytes) : AccountView :=
  {| av_id := replicate 16 x01; av_revision := 1; av_created_at_ms := 2; av_modified_at_ms := 3;
     av_service_name := str "Example"; av_permitted_origin := str "https://example.com";
     av_username := str "person"; av_password := password |}.
Lemma account_typed p : u64 (len p) → text p → AccountView_typed (account p).
Proof. intros. split; simpl; done. Qed.

(** Two pages that differ in a password are the same bytes. *)
Lemma account_page_exact_witness :
  encode_account_summaries [account (str "a")] None = encode_account_summaries [account (str "b")] (None : option Z).
Proof.
  rewrite (account_page_exact [account (str "a")] None), (account_page_exact [account (str "b")] None);
    [reflexivity|..]; try (by intros ? [=]); repeat constructor; simpl; done.
Defined.

Definition summary : PasskeySummaryView :=
  {| sv_credential_id := replicate 32 x01; sv_user_handle := []; sv_user_name := str "n";
     sv_user_display_name := str "d" |}.
Lemma passkey_lists_exact_witness : encode_passkey_summaries [summary] = Err InvariantViolation.
Proof. apply (passkey_lists_exact [summary] []); [by repeat constructor|constructor]. Defined.

Definition new_credential : PasskeyCredentialView :=
  {| cv_credential_id := replicate 32 x01; cv_user_handle := [x01]; cv_public_key := replicate 65 x04 |}.
Definition assertion : PasskeyAssertionView :=
  {| as_credential_id := replicate 32 x01; as_user_handle := [x01];
     as_authenticator_data := replicate 37 x02; as_signature_der := [x30] |}.
Lemma single_responses_exact_witness : is_ok (encode_passkey_credential new_credential) = true.
Proof.
  apply (single_responses_exact Locked 0 (replicate 16 x01) (account []) new_credential assertion);
    try done.
Defined.
End Examples.
