(* ===== verification/Pipeline.v ===== *)
(** * A request from the client to the dispatcher

    The layers of the protocol composed: operation body, request envelope,
    frame.  The files [frame.rs], [message.rs] and [operations.rs] are proved
    separately; here a request goes through all three. *)

From S2P Require Import Prelude RustStd Cbor Wire Types Frame Message Operations.

Section pipeline.
Context `{MinicborLaws}.

(** What a client calls to send a request. *)
Definition send_request (v : Version) (cid : bytes) (id : Z) (epoch timeout : Z) (key : option bytes)
    (r : OperationRequest) : option bytes :=
  match OperationRequest_encode r with
  | Ok body =>
      match RequestEnvelope_new (OperationRequest_operation r) epoch timeout key body with
      | Ok envelope =>
          match RequestEnvelope_encode envelope with
          | Ok p =>
              match FrameHeader_new MessageKind.Request v (len p) cid id with
              | Ok h =>
                  match Frame_new h p with
                  | Ok f => match Frame_encode f with Ok bs => Some bs | _ => None end
                  | _ => None
                  end
              | _ => None
              end
          | _ => None
          end
      | _ => None
      end
  | _ => None
  end.

(** The parameters the constructors accept. *)
Record send_wf (v : Version) (cid : bytes) (id epoch timeout : Z) (key : option bytes)
    (r : OperationRequest) : Prop := {
  sw_version : Version_typed v ∧ v ≠ Version_new 0 0;
  sw_connection : length cid = 16%nat ∧ cid ≠ zeros 16;
  sw_id : u64 id ∧ id ≠ 0;
  sw_epoch : u64 epoch;
  sw_timeout : u32 timeout ∧ timeout ≠ 0;
  sw_key : ∀ k, key = Some k → length k = 16%nat
    ∧ OperationCode.requires_idempotency_key (OperationRequest_operation r) = true;
  sw_request : OperationRequest_wf r;
}.

Lemma send_request_spec v cid id epoch timeout key r :
  send_wf v cid id epoch timeout key r →
  ∃ bs f e,
    send_request v cid id epoch timeout key r = Some bs
    ∧ Frame_decode bs = Ok f ∧ kind (header f) = MessageKind.Request ∧ version (header f) = v
    ∧ connection_id (header f) = cid ∧ request_id (header f) = id
    ∧ RequestEnvelope_peek_operation (payload f) = Ok (OperationRequest_operation r)
    ∧ RequestEnvelope_decode (payload f) = Ok e
    ∧ re_operation e = OperationRequest_operation r ∧ re_unlock_epoch e = epoch
    ∧ re_timeout_ms e = timeout ∧ re_idempotency_key e = key
    ∧ OperationRequest_decode (re_operation e) (re_body e) = Ok r
    ∧ len bs ≤ HEADER_BYTES + MAX_PAYLOAD_BYTES.
Proof.
  intros [[Hv Hv0] [Hc Hc0] [Hid Hid0] Hep [Ht Ht0] Hkey Hr]. unfold send_request.
  destruct (OperationRequest_encode_wf r Hr) as (items & _ & Hlen & Henc). rewrite Henc.
  set (body := concat items) in *.
  set (e := {| re_operation := OperationRequest_operation r; re_unlock_epoch := epoch;
    re_timeout_ms := timeout; re_idempotency_key := key; re_body := body |}).
  assert (RequestEnvelope_wf e) as He by (split; done).
  assert (RequestEnvelope_new (OperationRequest_operation r) epoch timeout key body = Ok e) as ->.
  { apply RequestEnvelope_new_Ok; naive_solver. }
  destruct (RequestEnvelope_image e He) as [Hee Hel]. rewrite Hee.
  set (p := concat (RequestEnvelope_items e)) in *. pose proof (len_nonneg p).
  set (h := {| kind := MessageKind.Request; version := v; payload_length := len p;
    connection_id := cid; request_id := id |}).
  assert (FrameHeader_wf h) as Hh by (split; simpl; try done; split; done).
  assert (FrameHeader_new MessageKind.Request v (len p) cid id = Ok h) as -> by (by apply FrameHeader_new_Ok).
  assert (Frame_wf {| header := h; payload := p |}) as Hf by (by split).
  assert (Frame_new h p = Ok {| header := h; payload := p |}) as -> by (by apply Frame_new_Ok).
  pose proof (Frame_encode_wf _ Hf) as Hfe. rewrite Hfe. cbn [header payload] in *.
  assert (RequestEnvelope_decode p = Ok e) as Hd by (by apply RequestEnvelope_decode_encode).
  eexists _, {| header := h; payload := p |}, e. cbn [header payload].
  split_and!; try done.
  - by apply Frame_decode_iff.
  - exact (peek_decode p e Hd).
  - apply OperationRequest_decode_encode; [done|]. by rewrite Henc.
  - rewrite len_app. pose proof (length_FrameHeader_encode h Hh) as Hl.
    rewrite (len_length _ _ Hl). unfold HEADER_BYTES. lia.
Qed.

(** C34: a valid request survives the three layers: every constructor and
    encoder on the way succeeds, and from the bytes on the pipe the receiver's
    decoders, each applied to what the previous one returned, recover the frame
    header, the operation code before the body is decoded, the envelope and the
    request itself. *)
Theorem request_end_to_end v cid id epoch timeout key r :
  send_wf v cid id epoch timeout key r →
  ∃ bs f e,
    send_request v cid id epoch timeout key r = Some bs
    ∧ Frame_decode bs = Ok f ∧ kind (header f) = MessageKind.Request ∧ version (header f) = v
    ∧ connection_id (header f) = cid ∧ request_id (header f) = id
    ∧ RequestEnvelope_peek_operation (payload f) = Ok (OperationRequest_operation r)
    ∧ RequestEnvelope_decode (payload f) = Ok e
    ∧ re_operation e = OperationRequest_operation r ∧ re_unlock_epoch e = epoch
    ∧ re_timeout_ms e = timeout ∧ re_idempotency_key e = key
    ∧ OperationRequest_decode (re_operation e) (re_body e) = Ok r
    ∧ len bs ≤ HEADER_BYTES + MAX_PAYLOAD_BYTES.
Proof. apply send_request_spec. Qed.
End pipeline.

Import OperationRequest.
Import Rfc8949.

Lemma request_end_to_end_witness :
  is_Some (send_request (Version_new 1 3) (replicate 16 x01) 1 7 5000 None (GetAccount (replicate 16 x02))).
Proof.
  destruct (request_end_to_end (Version_new 1 3) (replicate 16 x01) 1 7 5000 None
    (GetAccount (replicate 16 x02))) as (bs & _ & _ & Hs & _); [|by exists bs].
  split; unfold Version_typed, uint; simpl; split_and?; try done; lia.
Defined.
