(* ===== verification/VaultFormat.v ===== *)
(** * The vault container: header, manifest and Hello protector
    ([crates/vault-format/src/lib.rs])

    The clear singleton header, the manifest of active records with its
    encrypted envelope, the device-local Windows Hello protector, and the
    associated data that bind the key wrappers and the manifest.  The CBOR
    helpers of the file are those of [Wire] with the error type below. *)

From S2P Require Import Prelude RustStd Cbor Wire.

Definition CONTAINER_VERSION : Z := 1.
Definition MINIMUM_READER_VERSION : Z := 1.
Definition KEY_SCHEDULE : Z := 1.
Definition AEAD_SUITE : Z := 1.
Definition ENCODING : Z := 1.
Definition DIGEST_SUITE : Z := 1.
Definition KDF_SUITE : Z := 1.
Definition ARGON2_VERSION : Z := 0x13.
Definition ARGON2_MEMORY_KIB : Z := 65536.
Definition ARGON2_TIME_COST : Z := 3.
Definition ARGON2_PARALLELISM : Z := 4.
Definition RECOVERY_WRAPPER_VERSION : Z := 1.
Definition WINDOWS_HELLO_PROTECTOR_VERSION : Z := 1.
Definition MANIFEST_ENVELOPE_VERSION : Z := 1.
Definition MANIFEST_SCHEMA : Z := 1.
Definition VAULT_SCHEMA : Z := 1.
Definition MAX_HEADER_BYTES : Z := 64 * 1024.
Definition MAX_MANIFEST_ENVELOPE_BYTES : Z := 8 * 1024 * 1024.
Definition MAX_RECORDS : Z := 100000.
Definition MAX_RECORD_ENVELOPE_BYTES : Z := 1024 * 1024.
Definition MAX_WINDOWS_HELLO_CREDENTIAL_ID_BYTES : Z := 1024.
Definition MAX_WINDOWS_HELLO_PROTECTOR_BYTES : Z := 2 * 1024.
Definition VAULT_MAGIC : bytes := str "LBR-VLT".
Definition WINDOWS_HELLO_MAGIC : bytes := str "LBR-HLO".
Definition MASTER_WRAPPER_TYPE : Z := 1.
Definition RECOVERY_WRAPPER_TYPE : Z := 2.
Definition TAG_BYTES : Z := 16.
#[export] Hint Unfold CONTAINER_VERSION MINIMUM_READER_VERSION KEY_SCHEDULE AEAD_SUITE ENCODING
  DIGEST_SUITE KDF_SUITE ARGON2_VERSION ARGON2_MEMORY_KIB ARGON2_TIME_COST ARGON2_PARALLELISM
  RECOVERY_WRAPPER_VERSION WINDOWS_HELLO_PROTECTOR_VERSION MANIFEST_ENVELOPE_VERSION
  MANIFEST_SCHEMA VAULT_SCHEMA MAX_HEADER_BYTES MAX_MANIFEST_ENVELOPE_BYTES MAX_RECORDS
  MAX_RECORD_ENVELOPE_BYTES MAX_WINDOWS_HELLO_CREDENTIAL_ID_BYTES
  MAX_WINDOWS_HELLO_PROTECTOR_BYTES MASTER_WRAPPER_TYPE RECOVERY_WRAPPER_TYPE TAG_BYTES : limits.

Inductive FormatReadiness := ScaffoldOnly.
Definition readiness : FormatReadiness := ScaffoldOnly.

Module FormatError.
Inductive t := TooLarge | Malformed | Unsupported | NonCanonical | InvariantViolation.
#[global] Instance t_eq_dec : EqDecision t.
Proof. solve_decision. Defined.
End FormatError.
Abbreviation FormatError := FormatError.t.
Import FormatError.

#[export] Instance FormatError_wire : WireError FormatError :=
  {| e_malformed := Malformed; e_too_large := TooLarge; e_non_canonical := NonCanonical |}.

(** ** Data *)

Record MasterWrapper := { mw_password_salt : bytes; mw_nonce : bytes; mw_wrapped_vrk : bytes }.
#[export] Instance MasterWrapper_eq_dec : EqDecision MasterWrapper.
Proof. solve_decision. Defined.

Record RecoveryWrapper := { rw_nonce : bytes; rw_wrapped_vrk : bytes }.
#[export] Instance RecoveryWrapper_eq_dec : EqDecision RecoveryWrapper.
Proof. solve_decision. Defined.

Record WindowsHelloProtector := {
  hp_vault_id : bytes;
  hp_key_epoch : Z;
  hp_installation_id : bytes;
  hp_credential_id : bytes;
  hp_prf_salt : bytes;
  hp_nonce : bytes;
  hp_wrapped_vrk : bytes;
}.
#[export] Instance WindowsHelloProtector_eq_dec : EqDecision WindowsHelloProtector.
Proof. solve_decision. Defined.

Definition WindowsHelloProtector_new (vault_id : bytes) (key_epoch : Z)
    (installation_id credential_id prf_salt nonce wrapped_vrk : bytes) :
    result FormatError WindowsHelloProtector :=
  fail_if ((key_epoch =? 0) || all_zero installation_id || is_empty credential_id)
    InvariantViolation;;
  fail_if (len credential_id >? MAX_WINDOWS_HELLO_CREDENTIAL_ID_BYTES) TooLarge;;
  mret {| hp_vault_id := vault_id; hp_key_epoch := key_epoch;
          hp_installation_id := installation_id; hp_credential_id := credential_id;
          hp_prf_salt := prf_salt; hp_nonce := nonce; hp_wrapped_vrk := wrapped_vrk |}.

Record VaultHeader := {
  vh_vault_id : bytes;
  vh_key_epoch : Z;
  vh_master_wrapper : MasterWrapper;
  vh_recovery_wrapper : RecoveryWrapper;
}.
#[export] Instance VaultHeader_eq_dec : EqDecision VaultHeader.
Proof. solve_decision. Defined.

Record ManifestEntry := { me_record_id : bytes; me_envelope_digest : bytes }.
#[export] Instance ManifestEntry_eq_dec : EqDecision ManifestEntry.
Proof. solve_decision. Defined.

Record Manifest := {
  mf_generation : Z;
  mf_key_epoch : Z;
  mf_vault_schema : Z;
  mf_created_at_ms : Z;
  mf_committed_at_ms : Z;
  mf_entries : list ManifestEntry;
}.
#[export] Instance Manifest_eq_dec : EqDecision Manifest.
Proof. solve_decision. Defined.

Definition Manifest_empty (created_at_ms key_epoch : Z) : Manifest :=
  {| mf_generation := 0; mf_key_epoch := key_epoch; mf_vault_schema := VAULT_SCHEMA;
     mf_created_at_ms := created_at_ms; mf_committed_at_ms := created_at_ms; mf_entries := [] |}.

Definition validate_manifest (m : Manifest) : result FormatError unit :=
  fail_if ((mf_key_epoch m =? 0) || negb (mf_vault_schema m =? VAULT_SCHEMA)) Unsupported;;
  fail_if (mf_committed_at_ms m <? mf_created_at_ms m) InvariantViolation;;
  fail_if (len (mf_entries m) >? MAX_RECORDS) TooLarge;;
  fail_if (adjacent_any (λ a b, bytes_geb (me_record_id a) (me_record_id b)) (mf_entries m))
    InvariantViolation.

Definition Manifest_next_generation (m : Manifest) (committed_at_ms : Z)
    (entries : list ManifestEntry) : result FormatError Manifest :=
  fail_if (committed_at_ms <? mf_committed_at_ms m) InvariantViolation;;
  generation ← ok_or (checked_add 64 (mf_generation m) 1) InvariantViolation;
  let next :=
    {| mf_generation := generation; mf_key_epoch := mf_key_epoch m;
       mf_vault_schema := mf_vault_schema m; mf_created_at_ms := mf_created_at_ms m;
       mf_committed_at_ms := committed_at_ms; mf_entries := entries |} in
  validate_manifest next;;
  mret next.

Record ManifestEnvelope := { en_nonce : bytes; en_ciphertext : bytes }.
#[export] Instance ManifestEnvelope_eq_dec : EqDecision ManifestEnvelope.
Proof. solve_decision. Defined.

(** [bytes.len().checked_add(TAG_BYTES).ok_or(TooLarge)? > maximum]. *)
Definition check_sealed_len (length maximum : Z) : result FormatError unit :=
  total ← ok_or (checked_add 64 length TAG_BYTES) TooLarge;
  fail_if (total >? maximum) TooLarge.

(** ** Encoders and decoders *)

Section codecs.
Context `{Minicbor}.

Definition expect_u32 (expected : Z) : dec FormatError unit :=
  actual ← decode_u32;
  lift (fail_if (negb (actual =? expected)) Unsupported).

Definition decode_str : dec FormatError bytes := decode_item md_str.

(** [if decode_str(decoder)? != magic { return Err(Malformed) }] *)
Definition expect_str (magic : bytes) : dec FormatError unit :=
  actual ← decode_str;
  lift (fail_if (bool_decide (actual ≠ magic)) Malformed).

Definition decode_array_len : dec FormatError Z :=
  length ← decode_item md_array;
  length ← lift (ok_or length Malformed);
  lift (ok_or (try_from 64 length) TooLarge).

Definition encode_header_into (h : VaultHeader) : list bytes :=
  encode_array 11 ++
  encode_text VAULT_MAGIC ++
  encode_u32 CONTAINER_VERSION ++
  encode_u32 MINIMUM_READER_VERSION ++
  encode_u32 KEY_SCHEDULE ++
  encode_u32 AEAD_SUITE ++
  encode_u32 ENCODING ++
  encode_u32 DIGEST_SUITE ++
  encode_bytes (vh_vault_id h) ++
  encode_u32 (vh_key_epoch h) ++
  encode_array 8 ++
  encode_u32 KDF_SUITE ++
  encode_u32 ARGON2_VERSION ++
  encode_u32 ARGON2_MEMORY_KIB ++
  encode_u32 ARGON2_TIME_COST ++
  encode_u32 ARGON2_PARALLELISM ++
  encode_bytes (mw_password_salt (vh_master_wrapper h)) ++
  encode_bytes (mw_nonce (vh_master_wrapper h)) ++
  encode_bytes (mw_wrapped_vrk (vh_master_wrapper h)) ++
  encode_array 3 ++
  encode_u32 RECOVERY_WRAPPER_VERSION ++
  encode_bytes (rw_nonce (vh_recovery_wrapper h)) ++
  encode_bytes (rw_wrapped_vrk (vh_recovery_wrapper h)).

Definition decode_header_from : dec FormatError VaultHeader :=
  expect_array 11;;
  expect_str VAULT_MAGIC;;
  expect_u32 CONTAINER_VERSION;;
  expect_u32 MINIMUM_READER_VERSION;;
  expect_u32 KEY_SCHEDULE;;
  expect_u32 AEAD_SUITE;;
  expect_u32 ENCODING;;
  expect_u32 DIGEST_SUITE;;
  vault_id ← decode_fixed_bytes 16;
  key_epoch ← decode_u32;
  lift (fail_if (key_epoch =? 0) Malformed);;
  expect_array 8;;
  expect_u32 KDF_SUITE;;
  expect_u32 ARGON2_VERSION;;
  expect_u32 ARGON2_MEMORY_KIB;;
  expect_u32 ARGON2_TIME_COST;;
  expect_u32 ARGON2_PARALLELISM;;
  password_salt ← decode_fixed_bytes 16;
  master_nonce ← decode_fixed_bytes 24;
  master_wrapped_vrk ← decode_fixed_bytes 48;
  expect_array 3;;
  expect_u32 RECOVERY_WRAPPER_VERSION;;
  recovery_nonce ← decode_fixed_bytes 24;
  recovery_wrapped_vrk ← decode_fixed_bytes 48;
  mret {| vh_vault_id := vault_id; vh_key_epoch := key_epoch;
          vh_master_wrapper := {| mw_password_salt := password_salt; mw_nonce := master_nonce;
                                  mw_wrapped_vrk := master_wrapped_vrk |};
          vh_recovery_wrapper := {| rw_nonce := recovery_nonce;
                                    rw_wrapped_vrk := recovery_wrapped_vrk |} |}.

Definition VaultHeader_encode (h : VaultHeader) : result FormatError bytes :=
  fail_if (vh_key_epoch h =? 0) InvariantViolation;;
  let bytes := vec_encode (encode_header_into h) in
  fail_if (len bytes >? MAX_HEADER_BYTES) TooLarge;;
  mret bytes.

Definition VaultHeader_decode (bytes : bytes) : result FormatError VaultHeader :=
  fail_if (len bytes >? MAX_HEADER_BYTES) TooLarge;;
  run_decoder (
    header ← decode_header_from;
    at_end bytes;;
    image ← lift (VaultHeader_encode header);
    lift (canonical image bytes);;
    mret header) bytes.

Definition encode_windows_hello_binding_into (p : WindowsHelloProtector) : list bytes :=
  encode_text WINDOWS_HELLO_MAGIC ++
  encode_u32 WINDOWS_HELLO_PROTECTOR_VERSION ++
  encode_u32 CONTAINER_VERSION ++
  encode_u32 MINIMUM_READER_VERSION ++
  encode_u32 KEY_SCHEDULE ++
  encode_u32 AEAD_SUITE ++
  encode_u32 ENCODING ++
  encode_u32 DIGEST_SUITE ++
  encode_bytes (hp_vault_id p) ++
  encode_u32 (hp_key_epoch p) ++
  encode_bytes (hp_installation_id p) ++
  encode_bytes (hp_credential_id p) ++
  encode_bytes (hp_prf_salt p).

Definition encode_windows_hello_protector_into (p : WindowsHelloProtector) : list bytes :=
  encode_array 15 ++
  encode_windows_hello_binding_into p ++
  encode_bytes (hp_nonce p) ++
  encode_bytes (hp_wrapped_vrk p).

Definition WindowsHelloProtector_encode (p : WindowsHelloProtector) : result FormatError bytes :=
  WindowsHelloProtector_new (hp_vault_id p) (hp_key_epoch p) (hp_installation_id p)
    (hp_credential_id p) (hp_prf_salt p) (hp_nonce p) (hp_wrapped_vrk p);;
  let bytes := vec_encode (encode_windows_hello_protector_into p) in
  fail_if (len bytes >? MAX_WINDOWS_HELLO_PROTECTOR_BYTES) TooLarge;;
  mret bytes.

Definition WindowsHelloProtector_decode (bytes : bytes) : result FormatError WindowsHelloProtector :=
  fail_if (len bytes >? MAX_WINDOWS_HELLO_PROTECTOR_BYTES) TooLarge;;
  run_decoder (
    expect_array 15;;
    expect_str WINDOWS_HELLO_MAGIC;;
    expect_u32 WINDOWS_HELLO_PROTECTOR_VERSION;;
    expect_u32 CONTAINER_VERSION;;
    expect_u32 MINIMUM_READER_VERSION;;
    expect_u32 KEY_SCHEDULE;;
    expect_u32 AEAD_SUITE;;
    expect_u32 ENCODING;;
    expect_u32 DIGEST_SUITE;;
    vault_id ← decode_fixed_bytes 16;
    key_epoch ← decode_u32;
    installation_id ← decode_fixed_bytes 32;
    credential_id ← decode_bounded_bytes MAX_WINDOWS_HELLO_CREDENTIAL_ID_BYTES;
    prf_salt ← decode_fixed_bytes 32;
    nonce ← decode_fixed_bytes 24;
    wrapped_vrk ← decode_fixed_bytes 48;
    at_end bytes;;
    protector ← lift (WindowsHelloProtector_new vault_id key_epoch installation_id credential_id
      prf_salt nonce wrapped_vrk);
    image ← lift (WindowsHelloProtector_encode protector);
    lift (canonical image bytes);;
    mret protector) bytes.

Definition encode_entry (e : ManifestEntry) : list bytes :=
  encode_array 2 ++ encode_bytes (me_record_id e) ++ encode_bytes (me_envelope_digest e).

Definition decode_entry : dec FormatError ManifestEntry :=
  expect_array 2;;
  record_id ← decode_fixed_bytes 16;
  envelope_digest ← decode_fixed_bytes 32;
  mret {| me_record_id := record_id; me_envelope_digest := envelope_digest |}.

Definition Manifest_encode (m : Manifest) : result FormatError bytes :=
  validate_manifest m;;
  count ← ok_or (try_from 64 (len (mf_entries m))) TooLarge;
  let bytes := vec_encode (
    encode_array 7 ++
    encode_u32 MANIFEST_SCHEMA ++
    encode_u64 (mf_generation m) ++
    encode_u32 (mf_key_epoch m) ++
    encode_u32 (mf_vault_schema m) ++
    encode_u64 (mf_created_at_ms m) ++
    encode_u64 (mf_committed_at_ms m) ++
    encode_array count ++
    concat (encode_entry <$> mf_entries m)) in
  check_sealed_len (len bytes) MAX_MANIFEST_ENVELOPE_BYTES;;
  mret bytes.

Definition Manifest_decode (bytes : bytes) : result FormatError Manifest :=
  check_sealed_len (len bytes) MAX_MANIFEST_ENVELOPE_BYTES;;
  run_decoder (
    expect_array 7;;
    expect_u32 MANIFEST_SCHEMA;;
    generation ← decode_u64;
    key_epoch ← decode_u32;
    vault_schema ← decode_u32;
    created_at_ms ← decode_u64;
    committed_at_ms ← decode_u64;
    entry_count ← decode_array_len;
    lift (fail_if (entry_count >? MAX_RECORDS) TooLarge);;
    entries ← decode_times (Z.to_nat entry_count) decode_entry;
    at_end bytes;;
    let manifest :=
      {| mf_generation := generation; mf_key_epoch := key_epoch; mf_vault_schema := vault_schema;
         mf_created_at_ms := created_at_ms; mf_committed_at_ms := committed_at_ms;
         mf_entries := entries |} in
    lift (validate_manifest manifest);;
    image ← lift (Manifest_encode manifest);
    lift (canonical image bytes);;
    mret manifest) bytes.

Definition ManifestEnvelope_encode (e : ManifestEnvelope) : result FormatError bytes :=
  fail_if (len (en_ciphertext e) <? TAG_BYTES) Malformed;;
  let bytes := vec_encode (
    encode_array 3 ++
    encode_u32 MANIFEST_ENVELOPE_VERSION ++
    encode_bytes (en_nonce e) ++
    encode_bytes (en_ciphertext e)) in
  fail_if (len bytes >? MAX_MANIFEST_ENVELOPE_BYTES) TooLarge;;
  mret bytes.

Definition ManifestEnvelope_new (nonce ciphertext : bytes) : result FormatError ManifestEnvelope :=
  fail_if (len ciphertext <? TAG_BYTES) Malformed;;
  let envelope := {| en_nonce := nonce; en_ciphertext := ciphertext |} in
  image ← ManifestEnvelope_encode envelope;
  fail_if (len image >? MAX_MANIFEST_ENVELOPE_BYTES) TooLarge;;
  mret envelope.

Definition ManifestEnvelope_decode (bytes : bytes) : result FormatError ManifestEnvelope :=
  fail_if (len bytes >? MAX_MANIFEST_ENVELOPE_BYTES) TooLarge;;
  run_decoder (
    expect_array 3;;
    expect_u32 MANIFEST_ENVELOPE_VERSION;;
    nonce ← decode_fixed_bytes 24;
    ciphertext ← decode_bounded_bytes MAX_MANIFEST_ENVELOPE_BYTES;
    at_end bytes;;
    envelope ← lift (ManifestEnvelope_new nonce ciphertext);
    image ← lift (ManifestEnvelope_encode envelope);
    lift (canonical image bytes);;
    mret envelope) bytes.

(** ** Associated data *)

Definition master_aad_items (vault_id : bytes) (key_epoch : Z) (salt : bytes) : list bytes :=
  encode_array 17 ++
  encode_text VAULT_MAGIC ++
  encode_u32 CONTAINER_VERSION ++
  encode_u32 MINIMUM_READER_VERSION ++
  encode_u32 KEY_SCHEDULE ++
  encode_u32 AEAD_SUITE ++
  encode_u32 ENCODING ++
  encode_u32 DIGEST_SUITE ++
  encode_bytes vault_id ++
  encode_u32 key_epoch ++
  encode_u32 MASTER_WRAPPER_TYPE ++
  encode_u32 1 ++
  encode_u32 KDF_SUITE ++
  encode_u32 ARGON2_VERSION ++
  encode_u32 ARGON2_MEMORY_KIB ++
  encode_u32 ARGON2_TIME_COST ++
  encode_u32 ARGON2_PARALLELISM ++
  encode_bytes salt.

Definition encode_master_wrapper_aad (vault_id : bytes) (key_epoch : Z) (salt : bytes) : bytes :=
  vec_encode (master_aad_items vault_id key_epoch salt).

Definition recovery_aad_items (vault_id : bytes) (key_epoch : Z) : list bytes :=
  encode_array 11 ++
  encode_text VAULT_MAGIC ++
  encode_u32 CONTAINER_VERSION ++
  encode_u32 MINIMUM_READER_VERSION ++
  encode_u32 KEY_SCHEDULE ++
  encode_u32 AEAD_SUITE ++
  encode_u32 ENCODING ++
  encode_u32 DIGEST_SUITE ++
  encode_bytes vault_id ++
  encode_u32 key_epoch ++
  encode_u32 RECOVERY_WRAPPER_TYPE ++
  encode_u32 RECOVERY_WRAPPER_VERSION.

Definition encode_recovery_wrapper_aad (vault_id : bytes) (key_epoch : Z) : bytes :=
  vec_encode (recovery_aad_items vault_id key_epoch).

Definition hello_aad_items (p : WindowsHelloProtector) : list bytes :=
  encode_array 14 ++ encode_windows_hello_binding_into p ++ encode_bytes (hp_nonce p).

Definition encode_windows_hello_wrapper_aad (p : WindowsHelloProtector) : bytes :=
  vec_encode (hello_aad_items p).

Definition manifest_aad_items (h : VaultHeader) (nonce : bytes) : list bytes :=
  encode_array 3 ++ encode_header_into h ++ encode_u32 MANIFEST_ENVELOPE_VERSION ++
  encode_bytes nonce.

Definition encode_manifest_aad (h : VaultHeader) (nonce : bytes) : bytes :=
  vec_encode (manifest_aad_items h nonce).
End codecs.

(** ** Valid values *)

Record MasterWrapper_typed (w : MasterWrapper) : Prop := {
  mt_salt : length (mw_password_salt w) = 16%nat;
  mt_nonce : length (mw_nonce w) = 24%nat;
  mt_vrk : length (mw_wrapped_vrk w) = 48%nat;
}.
Record RecoveryWrapper_typed (w : RecoveryWrapper) : Prop := {
  rt_nonce : length (rw_nonce w) = 24%nat;
  rt_vrk : length (rw_wrapped_vrk w) = 48%nat;
}.
Record VaultHeader_wf (h : VaultHeader) : Prop := {
  vw_vault_id : length (vh_vault_id h) = 16%nat;
  vw_epoch : u32 (vh_key_epoch h) ∧ vh_key_epoch h ≠ 0;
  vw_master : MasterWrapper_typed (vh_master_wrapper h);
  vw_recovery : RecoveryWrapper_typed (vh_recovery_wrapper h);
}.
Record WindowsHelloProtector_wf (p : WindowsHelloProtector) : Prop := {
  hw_vault_id : length (hp_vault_id p) = 16%nat;
  hw_epoch : u32 (hp_key_epoch p) ∧ hp_key_epoch p ≠ 0;
  hw_installation : length (hp_installation_id p) = 32%nat ∧ hp_installation_id p ≠ zeros 32;
  hw_credential : hp_credential_id p ≠ [] ∧ len (hp_credential_id p) ≤ MAX_WINDOWS_HELLO_CREDENTIAL_ID_BYTES;
  hw_salt : length (hp_prf_salt p) = 32%nat;
  hw_nonce : length (hp_nonce p) = 24%nat;
  hw_vrk : length (hp_wrapped_vrk p) = 48%nat;
}.
Record ManifestEntry_typed (e : ManifestEntry) : Prop := {
  mt_record : length (me_record_id e) = 16%nat;
  mt_digest : length (me_envelope_digest e) = 32%nat;
}.
Abbreviation sorted_entries := (StronglySorted (λ a b, bytes_lt (me_record_id a) (me_record_id b))).
Record Manifest_wf (m : Manifest) : Prop := {
  mn_generation : u64 (mf_generation m);
  mn_epoch : u32 (mf_key_epoch m) ∧ mf_key_epoch m ≠ 0;
  mn_schema : mf_vault_schema m = VAULT_SCHEMA;
  mn_created : 0 ≤ mf_created_at_ms m;
  mn_committed : mf_created_at_ms m ≤ mf_committed_at_ms m < 2 ^ 64;
  mn_typed : Forall ManifestEntry_typed (mf_entries m);
  mn_sorted : sorted_entries (mf_entries m);
  mn_count : len (mf_entries m) ≤ MAX_RECORDS;
}.
Record ManifestEnvelope_wf (e : ManifestEnvelope) : Prop := {
  ew_nonce : length (en_nonce e) = 24%nat;
  ew_tag : TAG_BYTES ≤ len (en_ciphertext e);
  ew_fits : 1 + 1 + 26 + head_len (len (en_ciphertext e)) + len (en_ciphertext e)
    ≤ MAX_MANIFEST_ENVELOPE_BYTES;
}.

(** ** Facts about the guards *)

Lemma u64_len_VAULT_MAGIC : u64 (len VAULT_MAGIC).
Proof. by split. Qed.
Lemma u64_len_WINDOWS_HELLO_MAGIC : u64 (len WINDOWS_HELLO_MAGIC).
Proof. by split. Qed.
#[export] Hint Resolve u64_len_VAULT_MAGIC u64_len_WINDOWS_HELLO_MAGIC : parse.

Lemma check_sealed_len_Ok n m u :
  0 ≤ n → m < 2 ^ 64 → check_sealed_len n m = Ok u ↔ n + TAG_BYTES ≤ m.
Proof.
  intros Hn Hm. unfold check_sealed_len. split.
  - intros Hc. inv_ok Hc. simp_guards. by subst.
  - intros Hle. rewrite bind_Ok. exists (n + TAG_BYTES).
    split; [apply ok_or_Ok, checked_add_Some; lia|]. destruct u. by apply fail_if_small.
Qed.
Lemma check_sealed_len_fits n m :
  0 ≤ n → m < 2 ^ 64 → n + TAG_BYTES ≤ m → check_sealed_len n m = Ok tt.
Proof. intros. by apply check_sealed_len_Ok. Qed.
Lemma check_sealed_len_not_Panic n m : check_sealed_len n m ≠ Panic.
Proof. unfold check_sealed_len. no_panic. Qed.
#[export] Hint Resolve check_sealed_len_not_Panic : panic.

Lemma sorted_entries_spec l :
  adjacent_any (λ a b, bytes_geb (me_record_id a) (me_record_id b)) l = false ↔ sorted_entries l.
Proof.
  apply adjacent_any_strongly; [intros; apply bytes_geb_false|]. intros a b c ??. by etrans.
Qed.

Lemma validate_manifest_Ok m u :
  validate_manifest m = Ok u ↔
    mf_key_epoch m ≠ 0 ∧ mf_vault_schema m = VAULT_SCHEMA ∧ mf_created_at_ms m ≤ mf_committed_at_ms m
    ∧ len (mf_entries m) ≤ MAX_RECORDS ∧ sorted_entries (mf_entries m).
Proof.
  unfold validate_manifest. rewrite <-sorted_entries_spec. split.
  - intros Hv. inv_ok Hv. by simp_guards.
  - intros (He & Hs & Ht & Hc & Hso). destruct u.
    rewrite (proj2 (Z.eqb_neq _ _) He), Hs, Z.eqb_refl. cbn [orb negb fail_if mbind result_bind].
    rewrite (proj2 (Z.ltb_ge _ _) Ht). cbn [fail_if mbind result_bind].
    rewrite fail_if_small by done. cbn [mbind result_bind]. by rewrite Hso.
Qed.
Lemma validate_manifest_not_Panic m : validate_manifest m ≠ Panic.
Proof. unfold validate_manifest. no_panic. Qed.
#[export] Hint Resolve validate_manifest_not_Panic : panic.

Lemma WindowsHelloProtector_new_Ok v k i c s n w p :
  length v = 16%nat → u32 k → length i = 32%nat → length s = 32%nat → length n = 24%nat →
  length w = 48%nat →
  WindowsHelloProtector_new v k i c s n w = Ok p ↔
    p = {| hp_vault_id := v; hp_key_epoch := k; hp_installation_id := i; hp_credential_id := c;
           hp_prf_salt := s; hp_nonce := n; hp_wrapped_vrk := w |} ∧ WindowsHelloProtector_wf p.
Proof.
  intros ?? Hi ???. unfold WindowsHelloProtector_new. rewrite (all_zero_zeros i 32) by done. split.
  - intros Hp. inv_ok Hp. simp_guards. split; [done|].
    split; simpl; split_and?; try done. by apply is_empty_false.
  - intros (-> & [_ [_ He] [_ Hz] [Hc Hl] _ _ _]). simpl in *.
    rewrite (proj2 (Z.eqb_neq _ _) He), bool_decide_false by done.
    rewrite (proj2 (is_empty_false c)) by done. cbn [orb fail_if mbind result_bind].
    by rewrite fail_if_small.
Qed.
Lemma WindowsHelloProtector_new_not_Panic v k i c s n w : WindowsHelloProtector_new v k i c s n w ≠ Panic.
Proof. unfold WindowsHelloProtector_new. no_panic. Qed.
#[export] Hint Resolve WindowsHelloProtector_new_not_Panic : panic.

Lemma VaultHeader_encode_not_Panic `{Minicbor} h : VaultHeader_encode h ≠ Panic.
Proof. unfold VaultHeader_encode. no_panic. Qed.
Lemma WindowsHelloProtector_encode_not_Panic `{Minicbor} p : WindowsHelloProtector_encode p ≠ Panic.
Proof. unfold WindowsHelloProtector_encode. no_panic. Qed.
Lemma Manifest_encode_not_Panic `{Minicbor} m : Manifest_encode m ≠ Panic.
Proof. unfold Manifest_encode. no_panic. Qed.
Lemma ManifestEnvelope_encode_not_Panic `{Minicbor} e : ManifestEnvelope_encode e ≠ Panic.
Proof. unfold ManifestEnvelope_encode. no_panic. Qed.
#[export] Hint Resolve VaultHeader_encode_not_Panic WindowsHelloProtector_encode_not_Panic
  Manifest_encode_not_Panic ManifestEnvelope_encode_not_Panic : panic.
Lemma ManifestEnvelope_new_not_Panic `{Minicbor} n c : ManifestEnvelope_new n c ≠ Panic.
Proof. unfold ManifestEnvelope_new. no_panic. Qed.
#[export] Hint Resolve ManifestEnvelope_new_not_Panic : panic.

(** ** Items *)

Section item_facts.
Context `{MinicborLaws}.

Lemma parses_expect_u32 v : u32 v → parses (expect_u32 v) (wire (encode_u32 v)) tt.
Proof.
  intros Hv. unfold expect_u32. assert (fail_if (negb (v =? v)) Unsupported = Ok tt) by (by rewrite Z.eqb_refl).
  parse. by apply parses_lift.
Qed.

Lemma parses_expect_str s :
  u64 (len s) → text s → parses (expect_str s) (wire (encode_text s)) tt.
Proof.
  intros Hl Ht. unfold expect_str, decode_str.
  eapply parses_bind_last; [apply decode_item_parses, md_str_wire; done|].
  apply parses_lift, fail_if_Ok, bool_decide_eq_false. by intros [].
Qed.

Lemma parses_decode_array_len n : u64 n → parses decode_array_len (wire (encode_array n)) n.
Proof.
  intros Hn rest. unfold encode_array, decode_array_len, decode_item, mbind, dec_bind.
  rewrite enc_array, dec_array by done. simpl. by rewrite try_from_uint.
Qed.

Lemma parses_decode_entry e : ManifestEntry_typed e → parses decode_entry (wire (encode_entry e)) e.
Proof. intros []. unfold decode_entry, encode_entry. destruct e. parse. Qed.

Lemma len_encode_entry e : ManifestEntry_typed e → len (wire (encode_entry e)) ≤ 80.
Proof. intros []. unfold encode_entry. wire_size. head_bounds. solve_size. Qed.

Lemma yields_decode_entry : yields decode_entry ManifestEntry_typed.
Proof. intros bs e r He. unfold decode_entry in He. inv_dec He. by yielded. Qed.

Lemma yields_decode_array_len : yields decode_array_len u64.
Proof.
  intros bs n r Hn. unfold decode_array_len in Hn. inv_dec Hn. by simp_guards; subst.
Qed.

Lemma panic_free_expect_u32 v : panic_free (expect_u32 v).
Proof. intros bs Hp. unfold expect_u32 in Hp. inv_dec_panic Hp. Qed.
Lemma panic_free_expect_str s : panic_free (expect_str s).
Proof. intros bs Hp. unfold expect_str, decode_str in Hp. inv_dec_panic Hp. Qed.
Lemma panic_free_decode_array_len : panic_free decode_array_len.
Proof. intros bs Hp. unfold decode_array_len in Hp. inv_dec_panic Hp. Qed.
Lemma panic_free_decode_entry : panic_free decode_entry.
Proof. intros bs Hp. unfold decode_entry in Hp. inv_dec_panic Hp. Qed.
End item_facts.
#[export] Hint Resolve parses_expect_u32 parses_expect_str parses_decode_array_len : parse.
#[export] Hint Resolve panic_free_expect_u32 panic_free_expect_str panic_free_decode_array_len
  panic_free_decode_entry : panic_free.

(** [format_yielded] replaces the runs of the items of this file. *)
Ltac format_yielded :=
  repeat match goal with
  | H : expect_u32 _ _ = Ok _ |- _ => clear H
  | H : expect_str _ _ = Ok _ |- _ => clear H
  | H : decode_array_len _ = Ok _ |- _ => apply yields_decode_array_len in H
  | H : decode_times _ decode_entry _ = Ok _ |- _ =>
      apply (yields_times _ _ _ yields_decode_entry) in H as [? ?]
  end; yielded; canonicalized.

Section codec_facts.
Context `{MinicborLaws}.

Lemma parses_header h :
  VaultHeader_wf h →
  parses decode_header_from (wire (encode_header_into h)) h
  ∧ len (wire (encode_header_into h)) ≤ 400.
Proof.
  intros [? [? He] [] []]. split.
  - unfold decode_header_from, encode_header_into.
    assert (fail_if (vh_key_epoch h =? 0) Malformed = Ok tt) by (by rewrite (proj2 (Z.eqb_neq _ _) He)).
    destruct h as [? ? [] []]. parse.
  - unfold encode_header_into. wire_size. head_bounds. change (len VAULT_MAGIC) with 7. solve_size.
Qed.

Lemma yields_header : yields decode_header_from VaultHeader_wf.
Proof.
  intros bs h r Hh. unfold decode_header_from in Hh. inv_dec Hh. format_yielded. simp_guards.
  split; simpl; try done; by split.
Qed.

Lemma panic_free_header : panic_free decode_header_from.
Proof. intros bs Hp. unfold decode_header_from in Hp. inv_dec_panic Hp. Qed.
#[local] Hint Resolve panic_free_header : panic_free.

Lemma VaultHeader_encode_wf h :
  VaultHeader_wf h → VaultHeader_encode h = Ok (wire (encode_header_into h)).
Proof.
  intros Hh. pose proof (proj2 (parses_header h Hh)). destruct Hh as [_ [_ He] _ _].
  unfold VaultHeader_encode. rewrite (proj2 (Z.eqb_neq _ _) He), vec_encode_concat.
  cbn [fail_if mbind result_bind]. by rewrite fail_if_small by solve_size.
Qed.

Lemma VaultHeader_decode_iff bs h :
  VaultHeader_decode bs = Ok h ↔ VaultHeader_wf h ∧ VaultHeader_encode h = Ok bs.
Proof.
  unfold VaultHeader_decode. split.
  - intros Hr. inv_ok Hr. inv_dec Hok0. format_yielded. subst.
    split; [|done]. by eapply yields_header.
  - intros [Hh Henc]. pose proof (VaultHeader_encode_wf h Hh) as Himg. rewrite Himg in Henc.
    apply Ok_inj in Henc as Hbs. destruct (parses_header h Hh) as [Hparse Hlen].
    rewrite Hbs in Himg, Hlen. rewrite fail_if_small by solve_size. cbn [mbind result_bind].
    run_image (eq_sym Hbs). eapply run_step_last; [exact Hparse|]. run_parse. done.
Qed.

Lemma VaultHeader_decode_not_Panic bs : VaultHeader_decode bs ≠ Panic.
Proof. unfold VaultHeader_decode. decode_panic. Qed.

Lemma len_hello_binding p :
  WindowsHelloProtector_wf p → len (wire (encode_windows_hello_binding_into p)) ≤ 1300.
Proof.
  intros [? [] [] [] ? ? ?]. unfold encode_windows_hello_binding_into. wire_size. head_bounds.
  change (len WINDOWS_HELLO_MAGIC) with 7. solve_size.
Qed.

Lemma WindowsHelloProtector_encode_wf p :
  WindowsHelloProtector_wf p →
  WindowsHelloProtector_encode p = Ok (wire (encode_windows_hello_protector_into p))
  ∧ len (wire (encode_windows_hello_protector_into p)) ≤ MAX_WINDOWS_HELLO_PROTECTOR_BYTES.
Proof.
  intros Hp. pose proof (len_hello_binding p Hp). pose proof Hp as [? [] [] [] ? ? ?].
  assert (len (wire (encode_windows_hello_protector_into p)) ≤ MAX_WINDOWS_HELLO_PROTECTOR_BYTES).
  { unfold encode_windows_hello_protector_into. wire_size. head_bounds. solve_size. }
  split; [|done]. unfold WindowsHelloProtector_encode.
  assert (WindowsHelloProtector_new (hp_vault_id p) (hp_key_epoch p) (hp_installation_id p)
    (hp_credential_id p) (hp_prf_salt p) (hp_nonce p) (hp_wrapped_vrk p) = Ok p) as ->.
  { apply WindowsHelloProtector_new_Ok; try done. split; [by destruct p|done]. }
  cbn [mbind result_bind]. rewrite vec_encode_concat. by rewrite fail_if_small.
Qed.

Lemma WindowsHelloProtector_decode_iff bs p :
  WindowsHelloProtector_decode bs = Ok p ↔
    WindowsHelloProtector_wf p ∧ WindowsHelloProtector_encode p = Ok bs.
Proof.
  unfold WindowsHelloProtector_decode. split.
  - intros Hr. inv_ok Hr. inv_dec Hok0. format_yielded. subst.
    match goal with H : WindowsHelloProtector_new _ _ _ _ _ _ _ = Ok _ |- _ =>
      apply WindowsHelloProtector_new_Ok in H as [_ ?]; done end.
  - intros [Hp Henc]. destruct (WindowsHelloProtector_encode_wf p Hp) as [Himg Hlen].
    rewrite Himg in Henc. apply Ok_inj in Henc as Hbs. rewrite Hbs in Himg, Hlen.
    rewrite fail_if_small by done. cbn [mbind result_bind].
    pose proof Hp as [? [] [] [] ? ? ?].
    assert (WindowsHelloProtector_new (hp_vault_id p) (hp_key_epoch p) (hp_installation_id p)
      (hp_credential_id p) (hp_prf_salt p) (hp_nonce p) (hp_wrapped_vrk p) = Ok p) as Hnew.
    { apply WindowsHelloProtector_new_Ok; try done. split; [by destruct p|done]. }
    run_image (eq_sym Hbs).
    unfold encode_windows_hello_protector_into, encode_windows_hello_binding_into.
    rewrite ?concat_app, <-?app_assoc. run_parse. done.
Qed.

Lemma WindowsHelloProtector_decode_not_Panic bs : WindowsHelloProtector_decode bs ≠ Panic.
Proof. unfold WindowsHelloProtector_decode. decode_panic. Qed.

Definition manifest_items (m : Manifest) : list bytes :=
  encode_array 7 ++ encode_u32 MANIFEST_SCHEMA ++ encode_u64 (mf_generation m) ++
  encode_u32 (mf_key_epoch m) ++ encode_u32 (mf_vault_schema m) ++
  encode_u64 (mf_created_at_ms m) ++ encode_u64 (mf_committed_at_ms m) ++
  encode_array (len (mf_entries m)) ++ concat (encode_entry <$> mf_entries m).

(** Neither size check of the encoder can fail on a valid manifest, and the
    sealed manifest leaves room for its envelope. *)
Lemma Manifest_encode_wf m :
  Manifest_wf m →
  Manifest_encode m = Ok (wire (manifest_items m)) ∧ len (wire (manifest_items m)) ≤ 8000100.
Proof.
  intros Hm. pose proof Hm as [? [? He] Hs ? [? ?] Ht Hso Hc].
  assert (mf_created_at_ms m < 2 ^ 64) by lia.
  pose proof (len_each_le encode_entry 80 (mf_entries m)) as Hle.
  assert (len (wire (concat (encode_entry <$> mf_entries m))) ≤ 80 * len (mf_entries m)).
  { apply Hle. rewrite Forall_forall in Ht. intros e He'. by apply len_encode_entry, Ht. }
  assert (u32 (mf_vault_schema m)) by (rewrite Hs; solve_size).
  assert (len (wire (manifest_items m)) ≤ 8000100).
  { unfold manifest_items. wire_size. head_bounds. solve_size. }
  split; [|done]. unfold Manifest_encode.
  rewrite (proj2 (validate_manifest_Ok m tt)) by done. cbn [mbind result_bind].
  rewrite try_from_uint by solve_size. cbn [ok_or mbind result_bind].
  rewrite vec_encode_concat. change (encode_array 7 ++ _) with (manifest_items m).
  rewrite check_sealed_len_fits; [done|apply len_nonneg|done|solve_size].
Qed.

Lemma Manifest_decode_iff bs m :
  Manifest_decode bs = Ok m ↔ Manifest_wf m ∧ Manifest_encode m = Ok bs.
Proof.
  unfold Manifest_decode. split.
  - intros Hr. inv_ok Hr. inv_dec Hok0. format_yielded. subst. split; [|done].
    match goal with H : validate_manifest _ = Ok _ |- _ =>
      apply validate_manifest_Ok in H as (?&?&?&?&?); simpl in * end.
    unfold uint in *. split; simpl; try done; lia.
  - intros [Hm Henc]. destruct (Manifest_encode_wf m Hm) as [Himg Hlen].
    rewrite Himg in Henc. apply Ok_inj in Henc as Hbs. rewrite Hbs in Himg, Hlen.
    rewrite check_sealed_len_fits by (apply len_nonneg || done || solve_size).
    cbn [mbind result_bind]. pose proof Hm as [? [? He] Hs ? [? ?] Ht Hso Hc].
    assert (mf_created_at_ms m < 2 ^ 64) by lia.
    assert (u32 (mf_vault_schema m)) by (rewrite Hs; solve_size).
    rewrite Forall_forall in Ht.
    assert (validate_manifest m = Ok tt) as Hval by (by apply validate_manifest_Ok).
    assert (fail_if (len (mf_entries m) >? MAX_RECORDS) TooLarge = Ok tt) by (by apply fail_if_small).
    assert (∀ e, e ∈ mf_entries m → parses decode_entry (wire (encode_entry e)) e)
      by (intros; by apply parses_decode_entry, Ht).
    run_image (eq_sym Hbs). unfold manifest_items. destruct m as [g k sc cr co es]. simpl in *.
    run_parse. done.
Qed.

Lemma Manifest_decode_not_Panic bs : Manifest_decode bs ≠ Panic.
Proof.
  unfold Manifest_decode. intros [[]%check_sealed_len_not_Panic|(_ & _ & Hp)]%bind_Panic.
  inv_dec_panic Hp.
Qed.

Definition envelope_items (e : ManifestEnvelope) : list bytes :=
  encode_array 3 ++ encode_u32 MANIFEST_ENVELOPE_VERSION ++ encode_bytes (en_nonce e) ++
  encode_bytes (en_ciphertext e).

Lemma ManifestEnvelope_encode_spec e :
  length (en_nonce e) = 24%nat → u64 (len (en_ciphertext e)) → TAG_BYTES ≤ len (en_ciphertext e) →
  len (wire (envelope_items e)) = 28 + head_len (len (en_ciphertext e)) + len (en_ciphertext e)
  ∧ ManifestEnvelope_encode e =
      if len (wire (envelope_items e)) >? MAX_MANIFEST_ENVELOPE_BYTES then Err TooLarge
      else Ok (wire (envelope_items e)).
Proof.
  intros Hn Hc Ht. split.
  - unfold envelope_items. wire_size. rewrite (len_length _ _ Hn).
    change (head_len 3) with 1. change (head_len MANIFEST_ENVELOPE_VERSION) with 1.
    change (head_len (Z.of_nat 24)) with 2. lia.
  - unfold ManifestEnvelope_encode. rewrite (proj2 (Z.ltb_ge _ _)) by done. cbn [fail_if mbind result_bind].
    rewrite vec_encode_concat. change (encode_array 3 ++ _) with (envelope_items e). by destruct (_ >? _).
Qed.

Lemma ManifestEnvelope_encode_wf e :
  ManifestEnvelope_wf e →
  ManifestEnvelope_encode e = Ok (wire (envelope_items e))
  ∧ len (wire (envelope_items e)) ≤ MAX_MANIFEST_ENVELOPE_BYTES
  ∧ ManifestEnvelope_new (en_nonce e) (en_ciphertext e) = Ok e.
Proof.
  intros [Hn Ht Hf]. pose proof (head_len_bounds (len (en_ciphertext e))).
  destruct (ManifestEnvelope_encode_spec e Hn ltac:(solve_size) Ht) as [Hl He].
  assert (len (wire (envelope_items e)) ≤ MAX_MANIFEST_ENVELOPE_BYTES) by lia.
  assert (ManifestEnvelope_encode e = Ok (wire (envelope_items e))) as Himg.
  { rewrite He. by destruct (Z.gtb_spec (len (wire (envelope_items e))) MAX_MANIFEST_ENVELOPE_BYTES); [lia|]. }
  split_and!; [done|done|]. unfold ManifestEnvelope_new. rewrite (proj2 (Z.ltb_ge _ _)) by done.
  cbn [fail_if mbind result_bind].
  assert ({| en_nonce := en_nonce e; en_ciphertext := en_ciphertext e |} = e) as -> by (by destruct e).
  rewrite Himg. cbn [mbind result_bind]. by rewrite fail_if_small.
Qed.

Lemma ManifestEnvelope_new_Ok n c e :
  length n = 24%nat → u64 (len c) →
  ManifestEnvelope_new n c = Ok e ↔ e = {| en_nonce := n; en_ciphertext := c |} ∧ ManifestEnvelope_wf e.
Proof.
  intros Hn Hc. split.
  - unfold ManifestEnvelope_new. intros He. inv_ok He. simp_guards. split; [done|].
    match goal with H : ManifestEnvelope_encode ?e = Ok _ |- _ =>
      pose proof (ManifestEnvelope_encode_spec e Hn Hc ltac:(done)) as [Hl Hs]; rewrite Hs in H end.
    case_match eqn:Hg; [done|]. simp_guards. simpl in *. split; simpl; try done. lia.
  - intros [-> He]. by apply (ManifestEnvelope_encode_wf {| en_nonce := n; en_ciphertext := c |}).
Qed.

Lemma ManifestEnvelope_decode_iff bs e :
  ManifestEnvelope_decode bs = Ok e ↔ ManifestEnvelope_wf e ∧ ManifestEnvelope_encode e = Ok bs.
Proof.
  unfold ManifestEnvelope_decode. split.
  - intros Hr. inv_ok Hr. inv_dec Hok0. format_yielded. subst.
    match goal with H : ManifestEnvelope_new _ _ = Ok _ |- _ =>
      apply ManifestEnvelope_new_Ok in H as [_ ?]; [done|done|solve_size] end.
  - intros [He Henc]. destruct (ManifestEnvelope_encode_wf e He) as (Himg & Hlen & Hnew).
    rewrite Himg in Henc. apply Ok_inj in Henc as Hbs. rewrite Hbs in Himg, Hlen.
    rewrite fail_if_small by done. cbn [mbind result_bind].
    pose proof He as [? ? Hf]. pose proof (head_len_bounds (len (en_ciphertext e))).
    assert (len (en_ciphertext e) ≤ MAX_MANIFEST_ENVELOPE_BYTES) by lia.
    run_image (eq_sym Hbs). unfold envelope_items. run_parse. done.
Qed.

Lemma ManifestEnvelope_decode_not_Panic bs : ManifestEnvelope_decode bs ≠ Panic.
Proof. unfold ManifestEnvelope_decode. decode_panic. Qed.
End codec_facts.

(** ** Generations *)

Lemma Manifest_next_generation_Ok m t es m' :
  Manifest_wf m → Forall ManifestEntry_typed es → u64 t →
  Manifest_next_generation m t es = Ok m' ↔
    mf_committed_at_ms m ≤ t ∧ mf_generation m + 1 < 2 ^ 64
    ∧ len es ≤ MAX_RECORDS ∧ sorted_entries es
    ∧ m' = {| mf_generation := mf_generation m + 1; mf_key_epoch := mf_key_epoch m;
              mf_vault_schema := mf_vault_schema m; mf_created_at_ms := mf_created_at_ms m;
              mf_committed_at_ms := t; mf_entries := es |}.
Proof.
  intros [? [? ?] ? ? [? ?] ? ? ?] Hes Ht. unfold Manifest_next_generation. split.
  - intros Hm. inv_ok Hm.
    match goal with H : validate_manifest _ = Ok _ |- _ => apply validate_manifest_Ok in H end.
    simp_guards. subst. simpl in *. naive_solver.
  - intros (Hle & Hg & Hc & Hs & ->). rewrite (proj2 (Z.ltb_ge _ _) Hle). cbn [fail_if mbind result_bind].
    rewrite (proj2 (checked_add_Some 64 (mf_generation m) 1 _) (conj eq_refl Hg)).
    cbn [ok_or mbind result_bind].
    match goal with |- context [validate_manifest ?n] =>
      assert (validate_manifest n = Ok tt) as -> by (apply validate_manifest_Ok; simpl; split_and!; solve [done|lia]) end.
    done.
Qed.

Lemma Manifest_empty_wf t k : u64 t → u32 k → k ≠ 0 → Manifest_wf (Manifest_empty t k).
Proof.
  intros Ht Hk Hne. unfold uint in *. split; simpl; unfold uint; try done; try lia; by constructor.
Qed.

Lemma Manifest_next_generation_wf m t es m' :
  Manifest_wf m → Forall ManifestEntry_typed es → u64 t →
  Manifest_next_generation m t es = Ok m' → Manifest_wf m'.
Proof.
  intros Hm Hes Ht Hn. apply Manifest_next_generation_Ok in Hn as (? & ? & ? & ? & ->); [|done..].
  destruct Hm as [? [? ?] ? ? [? ?] ? ? ?]. unfold uint in *. split; simpl; unfold uint; try done; lia.
Qed.

(** A sequence of commits on a manifest. *)
Fixpoint commit_all (m : Manifest) (commits : list (Z * list ManifestEntry)) : result FormatError Manifest :=
  match commits with
  | [] => Ok m
  | (t, es) :: commits => m ← Manifest_next_generation m t es; commit_all m commits
  end.
Definition commit_typed (c : Z * list ManifestEntry) : Prop := u64 c.1 ∧ Forall ManifestEntry_typed c.2.

(** ** Properties *)

Section properties.
Context `{MinicborLaws}.

(** The clear header and the Windows Hello protector are canonical: their
    decoders accept exactly the encodings of valid values (nonzero key epoch,
    fixed version and KDF parameters, field lengths; a nonzero installation and a
    bounded credential identifier), each for one value, never panic, and every
    valid value has an encoding, so that the size checks never reject one. *)
Theorem vault_header_exact bs (h : VaultHeader) (p : WindowsHelloProtector) :
  (VaultHeader_decode bs = Ok h ↔ VaultHeader_wf h ∧ VaultHeader_encode h = Ok bs)
  ∧ (WindowsHelloProtector_decode bs = Ok p ↔
      WindowsHelloProtector_wf p ∧ WindowsHelloProtector_encode p = Ok bs)
  ∧ (VaultHeader_wf h → is_ok (VaultHeader_encode h) = true)
  ∧ (WindowsHelloProtector_wf p → is_ok (WindowsHelloProtector_encode p) = true)
  ∧ VaultHeader_decode bs ≠ Panic ∧ WindowsHelloProtector_decode bs ≠ Panic.
Proof.
  split_and!; [apply VaultHeader_decode_iff|apply WindowsHelloProtector_decode_iff| |
    |apply VaultHeader_decode_not_Panic|apply WindowsHelloProtector_decode_not_Panic].
  - intros Hh. by rewrite VaultHeader_encode_wf.
  - intros Hp. by rewrite (proj1 (WindowsHelloProtector_encode_wf p Hp)).
Qed.

(** The manifest is canonical: its decoder accepts exactly the encodings of
    manifests whose entries are strictly sorted by record identifier (so that no
    identifier occurs twice), at most 100000, with ordered times and the current
    schema; every such manifest has an encoding, and after sealing, which adds a
    16-byte tag, it always fits the bounded envelope. *)
Theorem manifest_exact bs m nonce ciphertext :
  (Manifest_decode bs = Ok m ↔ Manifest_wf m ∧ Manifest_encode m = Ok bs)
  ∧ Manifest_decode bs ≠ Panic
  ∧ (Manifest_wf m → NoDup (me_record_id <$> mf_entries m))
  ∧ (Manifest_wf m → length nonce = 24%nat →
     ∃ image, Manifest_encode m = Ok image
       ∧ (len ciphertext = len image + TAG_BYTES →
          ∃ e, ManifestEnvelope_new nonce ciphertext = Ok e ∧ is_ok (ManifestEnvelope_encode e) = true)).
Proof.
  split_and!; [apply Manifest_decode_iff|apply Manifest_decode_not_Panic| |].
  - intros [_ _ _ _ _ _ Hs _]. induction Hs as [|e l Hs IH He]; rewrite ?fmap_nil, ?fmap_cons; constructor; [|done].
    intros (e' & Heq & Hin)%list_elem_of_fmap. rewrite Forall_forall in He. specialize (He e' Hin).
    rewrite Heq in He. by apply irreflexivity in He; [|apply _].
  - intros Hm Hn. destruct (Manifest_encode_wf m Hm) as [Himg Hlen]. eexists. split; [exact Himg|].
    intros Hc. pose proof (len_nonneg (concat (manifest_items m))). pose proof (head_len_bounds (len ciphertext)).
    set (e := {| en_nonce := nonce; en_ciphertext := ciphertext |}).
    assert (ManifestEnvelope_wf e) as He by (split; simpl; solve [done|solve_size]).
    destruct (ManifestEnvelope_encode_wf e He) as (Hi & _ & Hnew). exists e. split; [done|]. by rewrite Hi.
Qed.

(** The manifest envelope is canonical, its decoder never panics, and its
    constructor accepts exactly ciphertexts that hold a tag and whose envelope is
    within 8 MiB. *)
Theorem manifest_envelope_exact bs e nonce ciphertext :
  (ManifestEnvelope_decode bs = Ok e ↔ ManifestEnvelope_wf e ∧ ManifestEnvelope_encode e = Ok bs)
  ∧ ManifestEnvelope_decode bs ≠ Panic
  ∧ (length nonce = 24%nat → u64 (len ciphertext) →
     ManifestEnvelope_new nonce ciphertext = Ok e ↔
       e = {| en_nonce := nonce; en_ciphertext := ciphertext |} ∧ ManifestEnvelope_wf e).
Proof.
  split_and!; [apply ManifestEnvelope_decode_iff|apply ManifestEnvelope_decode_not_Panic|].
  apply ManifestEnvelope_new_Ok.
Qed.
End properties.

(** C35: committed generations: from a valid manifest every sequence of
    accepted commits yields valid manifests, the generation advances by exactly
    one per commit and cannot wrap, the commit time never moves backwards, and
    key epoch, schema and creation time never change; a commit that goes back in
    time, repeats a generation past the 64-bit limit or has unsorted, duplicate or
    too many entries is refused. *)
Theorem manifest_generations m commits m' :
  Manifest_wf m → Forall commit_typed commits →
  commit_all m commits = Ok m' →
  Manifest_wf m' ∧ mf_generation m' = mf_generation m + len commits
  ∧ mf_generation m' < 2 ^ 64
  ∧ mf_committed_at_ms m ≤ mf_committed_at_ms m'
  ∧ mf_key_epoch m' = mf_key_epoch m ∧ mf_created_at_ms m' = mf_created_at_ms m
  ∧ mf_vault_schema m' = mf_vault_schema m
  ∧ (∀ t es, u64 t → Forall ManifestEntry_typed es →
      is_ok (Manifest_next_generation m' t es) = true ↔
      mf_committed_at_ms m' ≤ t ∧ mf_generation m' + 1 < 2 ^ 64 ∧ len es ≤ MAX_RECORDS
      ∧ sorted_entries es).
Proof.
  revert m. induction commits as [|[t es] commits IH]; intros m Hm Hc Hr; simpl in Hr.
  - apply Ok_inj in Hr as <-. rewrite len_nil.
    split_and!; try done; [lia|destruct Hm as [[? ?] _ _ _ _ _ _ _]; done|].
    intros t es Ht Hes. split.
    + destruct (Manifest_next_generation m t es) eqn:Hn; [|done|done]. intros _.
      apply Manifest_next_generation_Ok in Hn; tauto.
    + intros (?&?&?&?). by rewrite (proj2 (Manifest_next_generation_Ok m t es _ Hm Hes Ht)) by done.
  - apply Forall_cons in Hc as [[Ht Hes] Hc]. inv_ok Hr.
    match goal with H : Manifest_next_generation _ _ _ = Ok ?x |- _ =>
      pose proof (Manifest_next_generation_wf _ _ _ _ Hm Hes Ht H) as Hwf;
      apply Manifest_next_generation_Ok in H as (? & ? & ? & ? & ->); [|done..] end.
    destruct (IH _ Hwf Hc ltac:(eassumption)) as (? & Hg & ? & ? & ? & ? & ? & ?). simpl in *.
    rewrite len_cons. split_and!; try done; lia.
Qed.

(** ** Examples *)

Module Examples.
Import Rfc8949.

Definition header : VaultHeader :=
  {| vh_vault_id := replicate 16 x11; vh_key_epoch := 1;
     vh_master_wrapper := {| mw_password_salt := replicate 16 x22; mw_nonce := replicate 24 x33;
                             mw_wrapped_vrk := replicate 48 x44 |};
     vh_recovery_wrapper := {| rw_nonce := replicate 24 x55; rw_wrapped_vrk := replicate 48 x66 |} |}.
Definition protector : WindowsHelloProtector :=
  {| hp_vault_id := replicate 16 x11; hp_key_epoch := 1; hp_installation_id := replicate 32 x12;
     hp_credential_id := [x01]; hp_prf_salt := replicate 32 x13; hp_nonce := replicate 24 x14;
     hp_wrapped_vrk := replicate 48 x15 |}.
Lemma header_wf : VaultHeader_wf header.
Proof. split; try done; by split. Qed.
Lemma protector_wf : WindowsHelloProtector_wf protector.
Proof. split; try done; by split. Qed.

Definition entry (n : byte) : ManifestEntry :=
  {| me_record_id := replicate 16 n; me_envelope_digest := replicate 32 x77 |}.
Lemma entry_typed n : ManifestEntry_typed (entry n).
Proof. by split. Qed.
Lemma empty_wf : Manifest_wf (Manifest_empty 5 1).
Proof. split; simpl; try done; by constructor. Qed.

Lemma vault_header_exact_witness : is_ok (VaultHeader_encode header) = true.
Proof. apply (vault_header_exact [] header protector), header_wf. Defined.

Lemma manifest_exact_witness :
  ∃ image, Manifest_encode (Manifest_empty 5 1) = Ok image
    ∧ (len (zeros 26) = len image + TAG_BYTES →
       ∃ e, ManifestEnvelope_new (zeros 24) (zeros 26) = Ok e ∧ is_ok (ManifestEnvelope_encode e) = true).
Proof. apply (manifest_exact [] (Manifest_empty 5 1) (zeros 24) (zeros 26)); [apply empty_wf|reflexivity]. Defined.

Definition envelope : ManifestEnvelope := {| en_nonce := zeros 24; en_ciphertext := zeros 16 |}.
Lemma envelope_wf : ManifestEnvelope_wf envelope.
Proof. by split. Qed.
Lemma manifest_envelope_exact_witness : ManifestEnvelope_new (zeros 24) (zeros 16) = Ok envelope.
Proof.
  refine (proj2 (proj2 (proj2 (manifest_envelope_exact [] envelope (zeros 24) (zeros 16))) _ _)
    (conj eq_refl envelope_wf)); by split.
Defined.

Definition commits : list (Z * list ManifestEntry) := [(5, [entry x01]); (9, [entry x01; entry x02])].
Lemma manifest_generations_witness :
  ∃ m, commit_all (Manifest_empty 5 1) commits = Ok m ∧ mf_generation m = 2
    ∧ mf_committed_at_ms (Manifest_empty 5 1) ≤ mf_committed_at_ms m.
Proof.
  eexists. split; [reflexivity|]. split; [reflexivity|].
  apply (manifest_generations (Manifest_empty 5 1) commits _ empty_wf); [|reflexivity].
  repeat (apply Forall_cons; split); try apply Forall_nil_2; (split; [by split|]);
    repeat (apply Forall_cons; split); try apply Forall_nil_2; apply entry_typed.
Defined.
End Examples.
