(* ===== verification/VaultRecords.v ===== *)
(** * Encrypted records and their plaintexts
    ([crates/vault-format/src/records.rs])

    The record envelope, the website-account and passkey plaintexts with the
    secret buffers they are written to, the discriminator of the two, and the
    associated data of a record. *)

From S2P Require Import Prelude RustStd Cbor Wire VaultFormat.
Import FormatError.

Definition RECORD_ENVELOPE_VERSION : Z := 1.
Definition RECORD_SCHEMA : Z := 1.
Definition WEBSITE_ACCOUNT_RECORD_TYPE : Z := 1.
Definition PASSKEY_RECORD_TYPE : Z := 2.
Definition MAX_SERVICE_NAME_BYTES : Z := 256.
Definition MAX_ORIGIN_BYTES : Z := 2048.
Definition MAX_USERNAME_BYTES : Z := 1024.
Definition MAX_PASSWORD_BYTES : Z := 16 * 1024.
Definition MAX_PASSKEY_RP_ID_BYTES : Z := 253.
Definition MAX_PASSKEY_USER_HANDLE_BYTES : Z := 64.
Definition MAX_PASSKEY_USER_NAME_BYTES : Z := 256.
Definition MAX_PASSKEY_USER_DISPLAY_NAME_BYTES : Z := 256.
Definition PASSKEY_CREDENTIAL_ID_BYTES : nat := 32.
Definition PASSKEY_PRIVATE_KEY_BYTES : nat := 32.
Definition RECORD_MAGIC : bytes := str "LBR-REC".
Definition WEBSITE_ACCOUNT_ENCODING_OVERHEAD_BYTES : Z := 128.
Definition PASSKEY_ENCODING_OVERHEAD_BYTES : Z := 192.
#[export] Hint Unfold RECORD_ENVELOPE_VERSION RECORD_SCHEMA WEBSITE_ACCOUNT_RECORD_TYPE
  PASSKEY_RECORD_TYPE MAX_SERVICE_NAME_BYTES MAX_ORIGIN_BYTES MAX_USERNAME_BYTES
  MAX_PASSWORD_BYTES MAX_PASSKEY_RP_ID_BYTES MAX_PASSKEY_USER_HANDLE_BYTES
  MAX_PASSKEY_USER_NAME_BYTES MAX_PASSKEY_USER_DISPLAY_NAME_BYTES PASSKEY_CREDENTIAL_ID_BYTES
  PASSKEY_PRIVATE_KEY_BYTES WEBSITE_ACCOUNT_ENCODING_OVERHEAD_BYTES
  PASSKEY_ENCODING_OVERHEAD_BYTES : limits.

Inductive RecordType := RecordWebsiteAccount | RecordPasskey.
#[export] Instance RecordType_eq_dec : EqDecision RecordType.
Proof. solve_decision. Defined.

Inductive PasskeyCreationState := Pending | Confirmed.
#[export] Instance PasskeyCreationState_eq_dec : EqDecision PasskeyCreationState.
Proof. solve_decision. Defined.

Definition PasskeyCreationState_code (s : PasskeyCreationState) : Z :=
  match s with Pending => 1 | Confirmed => 2 end.
Definition PasskeyCreationState_from_code (value : Z) : result FormatError PasskeyCreationState :=
  match value with
  | 1 => Ok Pending
  | 2 => Ok Confirmed
  | _ => Err Unsupported
  end.

(** ** Data *)

Record RecordEnvelope := { re_key_epoch : Z; re_nonce : bytes; re_ciphertext : bytes }.
#[export] Instance RecordEnvelope_eq_dec : EqDecision RecordEnvelope.
Proof. solve_decision. Defined.

Record WebsiteAccountPlaintext := {
  wa_revision : Z;
  wa_created_at_ms : Z;
  wa_modified_at_ms : Z;
  wa_service_name : bytes;
  wa_permitted_origin : bytes;
  wa_username : bytes;
  wa_password : bytes;
}.

Record PasskeyPlaintext := {
  pk_revision : Z;
  pk_created_at_ms : Z;
  pk_modified_at_ms : Z;
  pk_signature_counter : Z;
  pk_creation_state : PasskeyCreationState;
  pk_rp_id : bytes;
  pk_user_handle : bytes;
  pk_user_name : bytes;
  pk_user_display_name : bytes;
  pk_credential_id : bytes;
  pk_private_key : bytes;
}.

Definition validate_plaintext (v : WebsiteAccountPlaintext) : result FormatError unit :=
  fail_if ((wa_revision v =? 0)
    || (wa_modified_at_ms v <? wa_created_at_ms v)
    || is_empty (wa_service_name v)
    || is_empty (wa_permitted_origin v)) InvariantViolation;;
  fail_if ((len (wa_service_name v) >? MAX_SERVICE_NAME_BYTES)
    || (len (wa_permitted_origin v) >? MAX_ORIGIN_BYTES)
    || (len (wa_username v) >? MAX_USERNAME_BYTES)
    || (len (wa_password v) >? MAX_PASSWORD_BYTES)) TooLarge;;
  fail_if (has_control (wa_service_name v) || has_control (wa_permitted_origin v))
    InvariantViolation.

Definition validate_passkey_plaintext (v : PasskeyPlaintext) : result FormatError unit :=
  fail_if ((pk_revision v =? 0)
    || (pk_modified_at_ms v <? pk_created_at_ms v)
    || is_empty (pk_rp_id v)
    || is_empty (pk_user_handle v)
    || is_empty (pk_user_name v)
    || is_empty (pk_user_display_name v)
    || all_zero (pk_credential_id v)
    || all_zero (pk_private_key v)) InvariantViolation;;
  fail_if ((len (pk_rp_id v) >? MAX_PASSKEY_RP_ID_BYTES)
    || (len (pk_user_handle v) >? MAX_PASSKEY_USER_HANDLE_BYTES)
    || (len (pk_user_name v) >? MAX_PASSKEY_USER_NAME_BYTES)
    || (len (pk_user_display_name v) >? MAX_PASSKEY_USER_DISPLAY_NAME_BYTES)) TooLarge;;
  fail_if (has_control (pk_rp_id v)
    || has_control (pk_user_name v)
    || has_control (pk_user_display_name v)) InvariantViolation.

Definition WebsiteAccountPlaintext_new (revision created_at_ms modified_at_ms : Z)
    (service_name permitted_origin username password : bytes) :
    result FormatError WebsiteAccountPlaintext :=
  let value :=
    {| wa_revision := revision; wa_created_at_ms := created_at_ms;
       wa_modified_at_ms := modified_at_ms; wa_service_name := service_name;
       wa_permitted_origin := permitted_origin; wa_username := username;
       wa_password := password |} in
  validate_plaintext value;;
  mret value.

Definition PasskeyPlaintext_new (revision created_at_ms modified_at_ms signature_counter : Z)
    (creation_state : PasskeyCreationState)
    (rp_id user_handle user_name user_display_name credential_id private_key : bytes) :
    result FormatError PasskeyPlaintext :=
  let value :=
    {| pk_revision := revision; pk_created_at_ms := created_at_ms;
       pk_modified_at_ms := modified_at_ms; pk_signature_counter := signature_counter;
       pk_creation_state := creation_state; pk_rp_id := rp_id; pk_user_handle := user_handle;
       pk_user_name := user_name; pk_user_display_name := user_display_name;
       pk_credential_id := credential_id; pk_private_key := private_key |} in
  validate_passkey_plaintext value;;
  mret value.

(** [a.len().checked_add(b.len()).and_then(..)]: the lengths and the overhead. *)
Fixpoint checked_sum (acc : Z) (l : list Z) : option Z :=
  match l with
  | [] => Some acc
  | x :: l => acc ← checked_add 64 acc x; checked_sum acc l
  end.

(** ** Encoders and decoders *)

Section codecs.
Context `{Minicbor}.

Definition RecordEnvelope_encode (e : RecordEnvelope) : result FormatError bytes :=
  fail_if ((re_key_epoch e =? 0) || (len (re_ciphertext e) <? TAG_BYTES)) InvariantViolation;;
  let bytes := vec_encode (
    encode_array 4 ++
    encode_u32 RECORD_ENVELOPE_VERSION ++
    encode_u32 (re_key_epoch e) ++
    encode_bytes (re_nonce e) ++
    encode_bytes (re_ciphertext e)) in
  fail_if (len bytes >? MAX_RECORD_ENVELOPE_BYTES) TooLarge;;
  mret bytes.

Definition RecordEnvelope_new (key_epoch : Z) (nonce ciphertext : bytes) :
    result FormatError RecordEnvelope :=
  fail_if (key_epoch =? 0) InvariantViolation;;
  fail_if (len ciphertext <? TAG_BYTES) Malformed;;
  let envelope :=
    {| re_key_epoch := key_epoch; re_nonce := nonce; re_ciphertext := ciphertext |} in
  RecordEnvelope_encode envelope;;
  mret envelope.

Definition RecordEnvelope_decode (bytes : bytes) : result FormatError RecordEnvelope :=
  fail_if (len bytes >? MAX_RECORD_ENVELOPE_BYTES) TooLarge;;
  run_decoder (
    expect_array 4;;
    expect_u32 RECORD_ENVELOPE_VERSION;;
    key_epoch ← decode_u32;
    nonce ← decode_fixed_bytes 24;
    ciphertext ← decode_bounded_bytes MAX_RECORD_ENVELOPE_BYTES;
    at_end bytes;;
    envelope ← lift (RecordEnvelope_new key_epoch nonce ciphertext);
    image ← lift (RecordEnvelope_encode envelope);
    lift (canonical image bytes);;
    mret envelope) bytes.

Definition WebsiteAccountPlaintext_encode (v : WebsiteAccountPlaintext) : result FormatError bytes :=
  validate_plaintext v;;
  capacity ← ok_or (checked_sum (len (wa_service_name v))
    [len (wa_permitted_origin v); len (wa_username v); len (wa_password v);
     WEBSITE_ACCOUNT_ENCODING_OVERHEAD_BYTES]) TooLarge;
  bytes ← secret_encode capacity (
    encode_array 6 ++
    encode_u32 RECORD_SCHEMA ++
    encode_u32 WEBSITE_ACCOUNT_RECORD_TYPE ++
    encode_u64 (wa_revision v) ++
    encode_u64 (wa_created_at_ms v) ++
    encode_u64 (wa_modified_at_ms v) ++
    encode_array 4 ++
    encode_text (wa_service_name v) ++
    encode_text (wa_permitted_origin v) ++
    encode_text (wa_username v) ++
    encode_text (wa_password v));
  check_sealed_len (len bytes) MAX_RECORD_ENVELOPE_BYTES;;
  mret bytes.

Definition WebsiteAccountPlaintext_decode (bytes : bytes) : result FormatError WebsiteAccountPlaintext :=
  check_sealed_len (len bytes) MAX_RECORD_ENVELOPE_BYTES;;
  run_decoder (
    expect_array 6;;
    expect_u32 RECORD_SCHEMA;;
    expect_u32 WEBSITE_ACCOUNT_RECORD_TYPE;;
    revision ← decode_u64;
    created_at_ms ← decode_u64;
    modified_at_ms ← decode_u64;
    expect_array 4;;
    service_name ← decode_bounded_text MAX_SERVICE_NAME_BYTES;
    permitted_origin ← decode_bounded_text MAX_ORIGIN_BYTES;
    username ← decode_bounded_text MAX_USERNAME_BYTES;
    password ← decode_bounded_text MAX_PASSWORD_BYTES;
    at_end bytes;;
    value ← lift (WebsiteAccountPlaintext_new revision created_at_ms modified_at_ms service_name
      permitted_origin username password);
    image ← lift (WebsiteAccountPlaintext_encode value);
    lift (canonical image bytes);;
    mret value) bytes.

Definition PasskeyPlaintext_encode (v : PasskeyPlaintext) : result FormatError bytes :=
  validate_passkey_plaintext v;;
  capacity ← ok_or (checked_sum (len (pk_rp_id v))
    [len (pk_user_handle v); len (pk_user_name v); len (pk_user_display_name v);
     PASSKEY_ENCODING_OVERHEAD_BYTES]) TooLarge;
  bytes ← secret_encode capacity (
    encode_array 6 ++
    encode_u32 RECORD_SCHEMA ++
    encode_u32 PASSKEY_RECORD_TYPE ++
    encode_u64 (pk_revision v) ++
    encode_u64 (pk_created_at_ms v) ++
    encode_u64 (pk_modified_at_ms v) ++
    encode_array 8 ++
    encode_u32 (pk_signature_counter v) ++
    encode_u32 (PasskeyCreationState_code (pk_creation_state v)) ++
    encode_text (pk_rp_id v) ++
    encode_bytes (pk_user_handle v) ++
    encode_text (pk_user_name v) ++
    encode_text (pk_user_display_name v) ++
    encode_bytes (pk_credential_id v) ++
    encode_bytes (pk_private_key v));
  check_sealed_len (len bytes) MAX_RECORD_ENVELOPE_BYTES;;
  mret bytes.

(** [decode_zeroizing_fixed_bytes]: the copy into the zeroizing array. *)
Definition decode_zeroizing_fixed_bytes (LENGTH : nat) : dec FormatError bytes :=
  value ← decode_item md_bytes;
  lift (fail_if (negb (len value =? Z.of_nat LENGTH)) Malformed);;
  mret value.

Definition PasskeyPlaintext_decode (bytes : bytes) : result FormatError PasskeyPlaintext :=
  check_sealed_len (len bytes) MAX_RECORD_ENVELOPE_BYTES;;
  run_decoder (
    expect_array 6;;
    expect_u32 RECORD_SCHEMA;;
    expect_u32 PASSKEY_RECORD_TYPE;;
    revision ← decode_u64;
    created_at_ms ← decode_u64;
    modified_at_ms ← decode_u64;
    expect_array 8;;
    signature_counter ← decode_u32;
    creation_state ← decode_u32;
    creation_state ← lift (PasskeyCreationState_from_code creation_state);
    rp_id ← decode_bounded_text MAX_PASSKEY_RP_ID_BYTES;
    user_handle ← decode_bounded_bytes MAX_PASSKEY_USER_HANDLE_BYTES;
    user_name ← decode_bounded_text MAX_PASSKEY_USER_NAME_BYTES;
    user_display_name ← decode_bounded_text MAX_PASSKEY_USER_DISPLAY_NAME_BYTES;
    credential_id ← decode_fixed_bytes PASSKEY_CREDENTIAL_ID_BYTES;
    private_key ← decode_zeroizing_fixed_bytes PASSKEY_PRIVATE_KEY_BYTES;
    at_end bytes;;
    value ← lift (PasskeyPlaintext_new revision created_at_ms modified_at_ms signature_counter
      creation_state rp_id user_handle user_name user_display_name credential_id private_key);
    image ← lift (PasskeyPlaintext_encode value);
    lift (canonical image bytes);;
    mret value) bytes.

Definition record_type (bytes : bytes) : result FormatError RecordType :=
  check_sealed_len (len bytes) MAX_RECORD_ENVELOPE_BYTES;;
  run_decoder (
    expect_array 6;;
    expect_u32 RECORD_SCHEMA;;
    code ← decode_u32;
    lift (if code =? WEBSITE_ACCOUNT_RECORD_TYPE then Ok RecordWebsiteAccount
          else if code =? PASSKEY_RECORD_TYPE then Ok RecordPasskey
          else Err Unsupported)) bytes.

Definition record_aad_items (vault_id record_id : bytes) (key_epoch : Z) : list bytes :=
  encode_array 6 ++
  encode_text RECORD_MAGIC ++
  encode_u32 CONTAINER_VERSION ++
  encode_u32 RECORD_ENVELOPE_VERSION ++
  encode_bytes vault_id ++
  encode_bytes record_id ++
  encode_u32 key_epoch.

Definition encode_record_aad (vault_id record_id : bytes) (key_epoch : Z) : bytes :=
  vec_encode (record_aad_items vault_id record_id key_epoch).
End codecs.

(** ** Valid values *)

Record RecordEnvelope_wf (e : RecordEnvelope) : Prop := {
  rv_epoch : u32 (re_key_epoch e) ∧ re_key_epoch e ≠ 0;
  rv_nonce : length (re_nonce e) = 24%nat;
  rv_tag : TAG_BYTES ≤ len (re_ciphertext e);
  rv_fits : 28 + head_len (re_key_epoch e) + head_len (len (re_ciphertext e)) + len (re_ciphertext e)
    ≤ MAX_RECORD_ENVELOPE_BYTES;
}.

Record WebsiteAccountPlaintext_wf (v : WebsiteAccountPlaintext) : Prop := {
  ww_revision : u64 (wa_revision v) ∧ wa_revision v ≠ 0;
  ww_times : 0 ≤ wa_created_at_ms v ≤ wa_modified_at_ms v ∧ wa_modified_at_ms v < 2 ^ 64;
  ww_service_name : text (wa_service_name v) ∧ wa_service_name v ≠ []
    ∧ len (wa_service_name v) ≤ MAX_SERVICE_NAME_BYTES ∧ has_control (wa_service_name v) = false;
  ww_origin : text (wa_permitted_origin v) ∧ wa_permitted_origin v ≠ []
    ∧ len (wa_permitted_origin v) ≤ MAX_ORIGIN_BYTES ∧ has_control (wa_permitted_origin v) = false;
  ww_username : text (wa_username v) ∧ len (wa_username v) ≤ MAX_USERNAME_BYTES;
  ww_password : text (wa_password v) ∧ len (wa_password v) ≤ MAX_PASSWORD_BYTES;
}.

Record PasskeyPlaintext_wf (v : PasskeyPlaintext) : Prop := {
  kw_revision : u64 (pk_revision v) ∧ pk_revision v ≠ 0;
  kw_times : 0 ≤ pk_created_at_ms v ≤ pk_modified_at_ms v ∧ pk_modified_at_ms v < 2 ^ 64;
  kw_counter : u32 (pk_signature_counter v);
  kw_rp_id : text (pk_rp_id v) ∧ pk_rp_id v ≠ []
    ∧ len (pk_rp_id v) ≤ MAX_PASSKEY_RP_ID_BYTES ∧ has_control (pk_rp_id v) = false;
  kw_handle : pk_user_handle v ≠ [] ∧ len (pk_user_handle v) ≤ MAX_PASSKEY_USER_HANDLE_BYTES;
  kw_name : text (pk_user_name v) ∧ pk_user_name v ≠ []
    ∧ len (pk_user_name v) ≤ MAX_PASSKEY_USER_NAME_BYTES ∧ has_control (pk_user_name v) = false;
  kw_display : text (pk_user_display_name v) ∧ pk_user_display_name v ≠ []
    ∧ len (pk_user_display_name v) ≤ MAX_PASSKEY_USER_DISPLAY_NAME_BYTES
    ∧ has_control (pk_user_display_name v) = false;
  kw_id : length (pk_credential_id v) = PASSKEY_CREDENTIAL_ID_BYTES ∧ pk_credential_id v ≠ zeros 32;
  kw_key : length (pk_private_key v) = PASSKEY_PRIVATE_KEY_BYTES ∧ pk_private_key v ≠ zeros 32;
}.

(** ** Constructors *)

Lemma validate_plaintext_Ok v u :
  u64 (wa_revision v) → u64 (wa_created_at_ms v) → u64 (wa_modified_at_ms v) →
  text (wa_service_name v) → text (wa_permitted_origin v) → text (wa_username v) → text (wa_password v) →
  validate_plaintext v = Ok u ↔ WebsiteAccountPlaintext_wf v.
Proof.
  intros ? [? ?] [? ?] ????. unfold validate_plaintext. destruct u. split.
  - intros Hv. inv_ok Hv. simp_guards. split; split_and?; try done; by apply is_empty_false.
  - intros [[_ Hr] [[_ Ht] _] (_&Hs1&Hs2&Hs3) (_&Ho1&Ho2&Ho3) [_ ?] [_ ?]].
    apply is_empty_false in Hs1, Ho1.
    rewrite (proj2 (Z.eqb_neq _ _) Hr), (proj2 (Z.ltb_ge _ _) Ht), Hs1, Ho1, Hs3, Ho3.
    cbn [orb fail_if mbind result_bind].
    rewrite !Z.gtb_ltb, !(proj2 (Z.ltb_ge _ _)) by done. done.
Qed.

Lemma validate_passkey_plaintext_Ok v u :
  u64 (pk_revision v) → u64 (pk_created_at_ms v) → u64 (pk_modified_at_ms v) →
  u32 (pk_signature_counter v) → text (pk_rp_id v) → text (pk_user_name v) →
  text (pk_user_display_name v) → length (pk_credential_id v) = PASSKEY_CREDENTIAL_ID_BYTES →
  length (pk_private_key v) = PASSKEY_PRIVATE_KEY_BYTES →
  validate_passkey_plaintext v = Ok u ↔ PasskeyPlaintext_wf v.
Proof.
  intros ? [? ?] [? ?] ???? Hc Hk. unfold validate_passkey_plaintext. destruct u.
  rewrite (all_zero_zeros _ 32 Hc), (all_zero_zeros _ 32 Hk). split.
  - intros Hv. inv_ok Hv. simp_guards. split; split_and?; try done; by apply is_empty_false.
  - intros [[_ Hr] [[_ Ht] _] _ (_&Ha1&Ha2&Ha3) [Hb1 Hb2] (_&Hc1&Hc2&Hc3) (_&Hd1&Hd2&Hd3) [_ He] [_ Hf]].
    apply is_empty_false in Ha1, Hb1, Hc1, Hd1.
    rewrite (proj2 (Z.eqb_neq _ _) Hr), (proj2 (Z.ltb_ge _ _) Ht), Ha1, Hb1, Hc1, Hd1, Ha3, Hc3, Hd3.
    rewrite !bool_decide_false by done. cbn [orb fail_if mbind result_bind].
    rewrite !Z.gtb_ltb, !(proj2 (Z.ltb_ge _ _)) by done. done.
Qed.

Lemma WebsiteAccountPlaintext_new_Ok r c m s o n p v :
  u64 r → u64 c → u64 m → text s → text o → text n → text p →
  WebsiteAccountPlaintext_new r c m s o n p = Ok v ↔
    v = {| wa_revision := r; wa_created_at_ms := c; wa_modified_at_ms := m; wa_service_name := s;
           wa_permitted_origin := o; wa_username := n; wa_password := p |}
    ∧ WebsiteAccountPlaintext_wf v.
Proof.
  intros. unfold WebsiteAccountPlaintext_new. split.
  - intros Hv. inv_ok Hv. split; [done|].
    match goal with H : validate_plaintext _ = Ok _ |- _ => by apply validate_plaintext_Ok in H end.
  - intros [-> Hv]. rewrite bind_Ok. exists tt. split; [by apply validate_plaintext_Ok|done].
Qed.

Lemma PasskeyPlaintext_new_Ok r c m k st rp h n d i q v :
  u64 r → u64 c → u64 m → u32 k → text rp → text n → text d →
  length i = PASSKEY_CREDENTIAL_ID_BYTES → length q = PASSKEY_PRIVATE_KEY_BYTES →
  PasskeyPlaintext_new r c m k st rp h n d i q = Ok v ↔
    v = {| pk_revision := r; pk_created_at_ms := c; pk_modified_at_ms := m; pk_signature_counter := k;
           pk_creation_state := st; pk_rp_id := rp; pk_user_handle := h; pk_user_name := n;
           pk_user_display_name := d; pk_credential_id := i; pk_private_key := q |}
    ∧ PasskeyPlaintext_wf v.
Proof.
  intros. unfold PasskeyPlaintext_new. split.
  - intros Hv. inv_ok Hv. split; [done|].
    match goal with H : validate_passkey_plaintext _ = Ok _ |- _ =>
      by apply validate_passkey_plaintext_Ok in H end.
  - intros [-> Hv]. rewrite bind_Ok. exists tt. split; [by apply validate_passkey_plaintext_Ok|done].
Qed.

Lemma validate_plaintext_not_Panic v : validate_plaintext v ≠ Panic.
Proof. unfold validate_plaintext. no_panic. Qed.
Lemma validate_passkey_plaintext_not_Panic v : validate_passkey_plaintext v ≠ Panic.
Proof. unfold validate_passkey_plaintext. no_panic. Qed.
#[export] Hint Resolve validate_plaintext_not_Panic validate_passkey_plaintext_not_Panic : panic.
Lemma WebsiteAccountPlaintext_new_not_Panic a b c d e f g : WebsiteAccountPlaintext_new a b c d e f g ≠ Panic.
Proof. unfold WebsiteAccountPlaintext_new. no_panic. Qed.
Lemma PasskeyPlaintext_new_not_Panic a b c d e f g h i j k : PasskeyPlaintext_new a b c d e f g h i j k ≠ Panic.
Proof. unfold PasskeyPlaintext_new. no_panic. Qed.
Lemma RecordEnvelope_encode_not_Panic `{Minicbor} e : RecordEnvelope_encode e ≠ Panic.
Proof. unfold RecordEnvelope_encode. no_panic. Qed.
#[export] Hint Resolve WebsiteAccountPlaintext_new_not_Panic PasskeyPlaintext_new_not_Panic
  RecordEnvelope_encode_not_Panic : panic.
Lemma RecordEnvelope_new_not_Panic `{Minicbor} a b c : RecordEnvelope_new a b c ≠ Panic.
Proof. unfold RecordEnvelope_new. no_panic. Qed.
Lemma from_code_not_Panic v : PasskeyCreationState_from_code v ≠ Panic.
Proof. unfold PasskeyCreationState_from_code. repeat case_match; done. Qed.
#[export] Hint Resolve RecordEnvelope_new_not_Panic from_code_not_Panic : panic.

Lemma checked_sum_Some acc l :
  Forall (λ x, 0 ≤ x) l → acc + foldr Z.add 0 l < 2 ^ 64 → checked_sum acc l = Some (acc + foldr Z.add 0 l).
Proof.
  revert acc. induction l as [|x l IH]; intros acc Hl Hs; simpl in *; [by rewrite Z.add_0_r|].
  apply Forall_cons in Hl as [Hx Hl].
  assert (0 ≤ foldr Z.add 0 l) by (clear -Hl; induction Hl; simpl; lia).
  rewrite (proj2 (checked_add_Some 64 acc x _)) by (split; [done|lia]). simpl. rewrite IH by (done || lia).
  f_equal. lia.
Qed.

(** ** Codecs *)

Section codec_facts.
Context `{MinicborLaws}.

Definition record_envelope_items (e : RecordEnvelope) : list bytes :=
  encode_array 4 ++ encode_u32 RECORD_ENVELOPE_VERSION ++ encode_u32 (re_key_epoch e) ++
  encode_bytes (re_nonce e) ++ encode_bytes (re_ciphertext e).

Lemma RecordEnvelope_encode_spec e :
  length (re_nonce e) = 24%nat → u32 (re_key_epoch e) → u64 (len (re_ciphertext e)) →
  RecordEnvelope_encode e =
    if (re_key_epoch e =? 0) || (len (re_ciphertext e) <? TAG_BYTES) then Err InvariantViolation
    else if 28 + head_len (re_key_epoch e) + head_len (len (re_ciphertext e)) + len (re_ciphertext e)
            >? MAX_RECORD_ENVELOPE_BYTES then Err TooLarge
    else Ok (wire (record_envelope_items e)).
Proof.
  intros Hn Hk Hc.
  assert (len (wire (record_envelope_items e)) =
    28 + head_len (re_key_epoch e) + head_len (len (re_ciphertext e)) + len (re_ciphertext e)) as Hl.
  { unfold record_envelope_items. wire_size. rewrite (len_length _ _ Hn). change (head_len 4) with 1.
    change (head_len RECORD_ENVELOPE_VERSION) with 1. change (head_len (Z.of_nat 24)) with 2. lia. }
  unfold RecordEnvelope_encode. destruct (_ || _); [done|]. cbn [fail_if mbind result_bind].
  rewrite vec_encode_concat. change (encode_array 4 ++ _) with (record_envelope_items e). rewrite Hl.
  by destruct (_ >? _).
Qed.

Lemma RecordEnvelope_encode_wf e :
  RecordEnvelope_wf e →
  RecordEnvelope_encode e = Ok (wire (record_envelope_items e))
  ∧ len (wire (record_envelope_items e)) ≤ MAX_RECORD_ENVELOPE_BYTES
  ∧ RecordEnvelope_new (re_key_epoch e) (re_nonce e) (re_ciphertext e) = Ok e.
Proof.
  intros [[Hu He] Hn Ht Hf]. pose proof (head_len_bounds (len (re_ciphertext e))).
  pose proof (head_len_bounds (re_key_epoch e)).
  assert (RecordEnvelope_encode e = Ok (wire (record_envelope_items e))) as Himg.
  { rewrite RecordEnvelope_encode_spec by (done || solve_size).
    rewrite (proj2 (Z.eqb_neq _ _) He), (proj2 (Z.ltb_ge _ _) Ht). simpl.
    by rewrite Z.gtb_ltb, (proj2 (Z.ltb_ge _ _) Hf). }
  split_and!; [done| |].
  - unfold record_envelope_items. wire_size. rewrite (len_length _ _ Hn). change (head_len 4) with 1.
    change (head_len RECORD_ENVELOPE_VERSION) with 1. change (head_len (Z.of_nat 24)) with 2. lia.
  - unfold RecordEnvelope_new.
    rewrite (proj2 (Z.eqb_neq _ _) He), (proj2 (Z.ltb_ge _ _) Ht). cbn [fail_if mbind result_bind].
    assert ({| re_key_epoch := re_key_epoch e; re_nonce := re_nonce e; re_ciphertext := re_ciphertext e |} = e)
      as -> by (by destruct e). by rewrite Himg.
Qed.

Lemma RecordEnvelope_new_Ok k n c e :
  u32 k → length n = 24%nat → u64 (len c) →
  RecordEnvelope_new k n c = Ok e ↔
    e = {| re_key_epoch := k; re_nonce := n; re_ciphertext := c |} ∧ RecordEnvelope_wf e.
Proof.
  intros Hk Hn Hc. split.
  - unfold RecordEnvelope_new. intros He. inv_ok He. simp_guards. split; [done|].
    match goal with H : RecordEnvelope_encode _ = Ok _ |- _ =>
      rewrite RecordEnvelope_encode_spec in H by done; simpl in H;
      case_match; [done|]; case_match eqn:Hg; [done|] end.
    simp_guards. split; simpl; done.
  - intros [-> He]. by apply (RecordEnvelope_encode_wf {| re_key_epoch := k; re_nonce := n; re_ciphertext := c |}).
Qed.

Lemma RecordEnvelope_decode_iff bs e :
  RecordEnvelope_decode bs = Ok e ↔ RecordEnvelope_wf e ∧ RecordEnvelope_encode e = Ok bs.
Proof.
  unfold RecordEnvelope_decode. split.
  - intros Hr. inv_ok Hr. inv_dec Hok0. format_yielded. subst.
    match goal with H : RecordEnvelope_new _ _ _ = Ok _ |- _ =>
      apply RecordEnvelope_new_Ok in H as [_ ?]; [done|done|done|solve_size] end.
  - intros [He Henc]. destruct (RecordEnvelope_encode_wf e He) as (Himg & Hlen & Hnew).
    rewrite Himg in Henc. apply Ok_inj in Henc as Hbs. rewrite Hbs in Himg, Hlen.
    rewrite fail_if_small by done. cbn [mbind result_bind].
    pose proof He as [[? ?] ? ? Hf]. pose proof (head_len_bounds (len (re_ciphertext e))).
    pose proof (head_len_bounds (re_key_epoch e)).
    assert (len (re_ciphertext e) ≤ MAX_RECORD_ENVELOPE_BYTES) by lia.
    run_image (eq_sym Hbs). unfold record_envelope_items. run_parse. done.
Qed.

Lemma RecordEnvelope_decode_not_Panic bs : RecordEnvelope_decode bs ≠ Panic.
Proof. unfold RecordEnvelope_decode. decode_panic. Qed.

Definition website_items (v : WebsiteAccountPlaintext) : list bytes :=
  encode_array 6 ++ encode_u32 RECORD_SCHEMA ++ encode_u32 WEBSITE_ACCOUNT_RECORD_TYPE ++
  encode_u64 (wa_revision v) ++ encode_u64 (wa_created_at_ms v) ++ encode_u64 (wa_modified_at_ms v) ++
  encode_array 4 ++ encode_text (wa_service_name v) ++ encode_text (wa_permitted_origin v) ++
  encode_text (wa_username v) ++ encode_text (wa_password v).

(** The 128 bytes of overhead cover the heads, so that the buffer does not
    overflow, and the plaintext always fits a record. *)
Lemma WebsiteAccountPlaintext_encode_wf v :
  WebsiteAccountPlaintext_wf v →
  WebsiteAccountPlaintext_encode v = Ok (wire (website_items v)) ∧ len (wire (website_items v)) ≤ 20000.
Proof.
  intros Hv. pose proof Hv as [[? ?] [[? ?] ?] (?&?&?&?) (?&?&?&?) [? ?] [? ?]].
  assert (u64 (wa_created_at_ms v) ∧ u64 (wa_modified_at_ms v)) as [? ?] by (unfold uint; lia).
  assert (len (wire (website_items v)) ≤ len (wa_service_name v) + len (wa_permitted_origin v)
    + len (wa_username v) + len (wa_password v) + 128) as Hsize.
  { unfold website_items. wire_size. head_bounds. lia. }
  pose proof (len_nonneg (wa_service_name v)). pose proof (len_nonneg (wa_permitted_origin v)).
  pose proof (len_nonneg (wa_username v)). pose proof (len_nonneg (wa_password v)).
  split; [|solve_size]. unfold WebsiteAccountPlaintext_encode.
  assert (validate_plaintext v = Ok tt) as -> by (by apply validate_plaintext_Ok).
  cbn [mbind result_bind].
  rewrite checked_sum_Some by (repeat constructor; simpl; solve_size). cbn [ok_or mbind result_bind].
  change (encode_array 6 ++ _) with (website_items v).
  rewrite secret_encode_fits by (simpl; solve_size). cbn [mbind result_bind].
  by rewrite check_sealed_len_fits by (apply len_nonneg || done || solve_size).
Qed.

Lemma WebsiteAccountPlaintext_decode_iff bs v :
  WebsiteAccountPlaintext_decode bs = Ok v ↔
    WebsiteAccountPlaintext_wf v ∧ WebsiteAccountPlaintext_encode v = Ok bs.
Proof.
  unfold WebsiteAccountPlaintext_decode. split.
  - intros Hr. inv_ok Hr. inv_dec Hok0. format_yielded. subst.
    match goal with H : WebsiteAccountPlaintext_new _ _ _ _ _ _ _ = Ok _ |- _ =>
      apply WebsiteAccountPlaintext_new_Ok in H as [_ ?]; done end.
  - intros [Hv Henc]. destruct (WebsiteAccountPlaintext_encode_wf v Hv) as [Himg Hlen].
    rewrite Himg in Henc. apply Ok_inj in Henc as Hbs. rewrite Hbs in Himg, Hlen.
    rewrite check_sealed_len_fits by (apply len_nonneg || done || solve_size). cbn [mbind result_bind].
    pose proof Hv as [[? ?] [[? ?] ?] (?&?&?&?) (?&?&?&?) [? ?] [? ?]].
    assert (u64 (wa_created_at_ms v) ∧ u64 (wa_modified_at_ms v)) as [? ?] by (unfold uint; lia).
    assert (WebsiteAccountPlaintext_new (wa_revision v) (wa_created_at_ms v) (wa_modified_at_ms v)
      (wa_service_name v) (wa_permitted_origin v) (wa_username v) (wa_password v) = Ok v) as Hnew.
    { apply WebsiteAccountPlaintext_new_Ok; try done. split; [by destruct v|done]. }
    run_image (eq_sym Hbs). unfold website_items. run_parse. done.
Qed.

Lemma WebsiteAccountPlaintext_decode_not_Panic bs : WebsiteAccountPlaintext_decode bs ≠ Panic.
Proof.
  unfold WebsiteAccountPlaintext_decode. intros [[]%check_sealed_len_not_Panic|(_ & _ & Hp)]%bind_Panic.
  inv_dec_panic Hp. format_yielded.
  match goal with H : WebsiteAccountPlaintext_new _ _ _ _ _ _ _ = Ok _ |- _ =>
    apply WebsiteAccountPlaintext_new_Ok in H as [_ Hv]; try done end.
  by rewrite (proj1 (WebsiteAccountPlaintext_encode_wf _ Hv)) in Hp.
Qed.

Definition passkey_items (v : PasskeyPlaintext) : list bytes :=
  encode_array 6 ++ encode_u32 RECORD_SCHEMA ++ encode_u32 PASSKEY_RECORD_TYPE ++
  encode_u64 (pk_revision v) ++ encode_u64 (pk_created_at_ms v) ++ encode_u64 (pk_modified_at_ms v) ++
  encode_array 8 ++ encode_u32 (pk_signature_counter v) ++
  encode_u32 (PasskeyCreationState_code (pk_creation_state v)) ++ encode_text (pk_rp_id v) ++
  encode_bytes (pk_user_handle v) ++ encode_text (pk_user_name v) ++
  encode_text (pk_user_display_name v) ++ encode_bytes (pk_credential_id v) ++
  encode_bytes (pk_private_key v).

Lemma creation_state_code s :
  1 ≤ PasskeyCreationState_code s ≤ 2
  ∧ PasskeyCreationState_from_code (PasskeyCreationState_code s) = Ok s.
Proof. by destruct s. Qed.

(** The 192 bytes of overhead cover the heads, the identifier and the key. *)
Lemma len_passkey_items v :
  PasskeyPlaintext_wf v →
  len (wire (passkey_items v)) ≤ len (pk_rp_id v) + len (pk_user_handle v) + len (pk_user_name v)
    + len (pk_user_display_name v) + 192.
Proof.
  intros [[? ?] [[? ?] ?] ? (?&?&?&?) [? ?] (?&?&?&?) (?&?&?&?) [Hid ?] [Hkey ?]].
  assert (u64 (pk_created_at_ms v) ∧ u64 (pk_modified_at_ms v)) as [? ?] by (unfold uint; lia).
  pose proof (proj1 (creation_state_code (pk_creation_state v))).
  pose proof (len_nonneg (pk_rp_id v)). pose proof (len_nonneg (pk_user_handle v)).
  pose proof (len_nonneg (pk_user_name v)). pose proof (len_nonneg (pk_user_display_name v)).
  unfold passkey_items. wire_size. rewrite (len_length _ _ Hid), (len_length _ _ Hkey).
  autounfold with limits in *.
  pose proof (head_len_le3 (len (pk_rp_id v)) ltac:(lia)).
  pose proof (head_len_le3 (len (pk_user_handle v)) ltac:(lia)).
  pose proof (head_len_le3 (len (pk_user_name v)) ltac:(lia)).
  pose proof (head_len_le3 (len (pk_user_display_name v)) ltac:(lia)).
  pose proof (head_len_bounds (pk_revision v)). pose proof (head_len_bounds (pk_created_at_ms v)).
  pose proof (head_len_bounds (pk_modified_at_ms v)). pose proof (head_len_bounds (pk_signature_counter v)).
  pose proof (head_len_le3 (PasskeyCreationState_code (pk_creation_state v)) ltac:(lia)).
  change (head_len 6) with 1. change (head_len 1) with 1. change (head_len 2) with 1.
  change (head_len 8) with 1. change (head_len (Z.of_nat 32)) with 2. change (Z.of_nat 32) with 32. lia.
Qed.

Lemma PasskeyPlaintext_encode_wf v :
  PasskeyPlaintext_wf v →
  PasskeyPlaintext_encode v = Ok (wire (passkey_items v)) ∧ len (wire (passkey_items v)) ≤ 1100.
Proof.
  intros Hv. pose proof (len_passkey_items v Hv) as Hsize.
  pose proof Hv as [[? ?] [[? ?] ?] ? (?&?&?&?) [? ?] (?&?&?&?) (?&?&?&?) [? ?] [? ?]].
  assert (u64 (pk_created_at_ms v) ∧ u64 (pk_modified_at_ms v)) as [? ?] by (unfold uint; lia).
  pose proof (len_nonneg (pk_rp_id v)). pose proof (len_nonneg (pk_user_handle v)).
  pose proof (len_nonneg (pk_user_name v)). pose proof (len_nonneg (pk_user_display_name v)).
  split; [|autounfold with limits in *; lia]. unfold PasskeyPlaintext_encode.
  assert (validate_passkey_plaintext v = Ok tt) as -> by (by apply validate_passkey_plaintext_Ok).
  cbn [mbind result_bind].
  rewrite checked_sum_Some by (repeat constructor; simpl; solve_size). cbn [ok_or mbind result_bind].
  change (encode_array 6 ++ _) with (passkey_items v).
  rewrite secret_encode_fits by (simpl; solve_size). cbn [mbind result_bind].
  by rewrite check_sealed_len_fits by (apply len_nonneg || done || solve_size).
Qed.

Lemma decode_zeroizing_is_fixed n bs :
  decode_zeroizing_fixed_bytes n bs = decode_fixed_bytes (E:=FormatError) n bs.
Proof.
  unfold decode_zeroizing_fixed_bytes, decode_fixed_bytes, mbind, dec_bind.
  destruct (decode_item md_bytes bs) as [[v r]| |]; [|done|done]. unfold len.
  destruct (Nat.eqb_spec (length v) n), (Z.eqb_spec (Z.of_nat (length v)) (Z.of_nat n)); done || lia.
Qed.
Lemma parses_zeroizing n b :
  length b = n → u64 (Z.of_nat n) → parses (decode_zeroizing_fixed_bytes n) (wire (encode_bytes b)) b.
Proof. intros ?? rest. rewrite decode_zeroizing_is_fixed. by apply parses_decode_fixed_bytes. Qed.
Lemma yields_zeroizing n : yields (decode_zeroizing_fixed_bytes n) (λ b, length b = n).
Proof. intros bs b r. rewrite decode_zeroizing_is_fixed. apply yields_fixed_bytes. Qed.
Lemma panic_free_zeroizing n : panic_free (decode_zeroizing_fixed_bytes n).
Proof. intros bs Hp. unfold decode_zeroizing_fixed_bytes in Hp. inv_dec_panic Hp. Qed.
#[local] Hint Resolve parses_zeroizing : parse.
#[local] Hint Resolve panic_free_zeroizing : panic_free.

Lemma PasskeyPlaintext_decode_iff bs v :
  PasskeyPlaintext_decode bs = Ok v ↔ PasskeyPlaintext_wf v ∧ PasskeyPlaintext_encode v = Ok bs.
Proof.
  unfold PasskeyPlaintext_decode. split.
  - intros Hr. inv_ok Hr. inv_dec Hok0. format_yielded. subst.
    match goal with H : decode_zeroizing_fixed_bytes _ _ = Ok _ |- _ => apply yields_zeroizing in H end.
    match goal with H : PasskeyPlaintext_new _ _ _ _ _ _ _ _ _ _ _ = Ok _ |- _ =>
      apply PasskeyPlaintext_new_Ok in H as [_ ?]; done end.
  - intros [Hv Henc]. destruct (PasskeyPlaintext_encode_wf v Hv) as [Himg Hlen].
    rewrite Himg in Henc. apply Ok_inj in Henc as Hbs. rewrite Hbs in Himg, Hlen.
    rewrite check_sealed_len_fits by (apply len_nonneg || done || solve_size). cbn [mbind result_bind].
    pose proof Hv as [[? ?] [[? ?] ?] ? (?&?&?&?) [? ?] (?&?&?&?) (?&?&?&?) [? ?] [? ?]].
    assert (u64 (pk_created_at_ms v) ∧ u64 (pk_modified_at_ms v)) as [? ?] by (unfold uint; lia).
    destruct (creation_state_code (pk_creation_state v)) as [? Hstate].
    assert (PasskeyPlaintext_new (pk_revision v) (pk_created_at_ms v) (pk_modified_at_ms v)
      (pk_signature_counter v) (pk_creation_state v) (pk_rp_id v) (pk_user_handle v) (pk_user_name v)
      (pk_user_display_name v) (pk_credential_id v) (pk_private_key v) = Ok v) as Hnew.
    { apply PasskeyPlaintext_new_Ok; try done. split; [by destruct v|done]. }
    run_image (eq_sym Hbs). unfold passkey_items. run_parse. done.
Qed.

Lemma PasskeyPlaintext_decode_not_Panic bs : PasskeyPlaintext_decode bs ≠ Panic.
Proof.
  unfold PasskeyPlaintext_decode. intros [[]%check_sealed_len_not_Panic|(_ & _ & Hp)]%bind_Panic.
  inv_dec_panic Hp. format_yielded.
  match goal with H : decode_zeroizing_fixed_bytes _ _ = Ok _ |- _ => apply yields_zeroizing in H end.
  match goal with H : PasskeyPlaintext_new _ _ _ _ _ _ _ _ _ _ _ = Ok _ |- _ =>
    apply PasskeyPlaintext_new_Ok in H as [_ Hv]; try done end.
  match goal with H : PasskeyPlaintext_encode _ = Panic |- _ =>
    by rewrite (proj1 (PasskeyPlaintext_encode_wf _ Hv)) in H end.
Qed.

(** The discriminator on the image of each plaintext. *)
Lemma record_type_image code rest t :
  u32 code → len (wire (encode_array 6 ++ encode_u32 RECORD_SCHEMA ++ encode_u32 code ++ rest)) + TAG_BYTES
    ≤ MAX_RECORD_ENVELOPE_BYTES →
  (code = WEBSITE_ACCOUNT_RECORD_TYPE ∧ t = RecordWebsiteAccount) ∨ (code = PASSKEY_RECORD_TYPE ∧ t = RecordPasskey) →
  record_type (wire (encode_array 6 ++ encode_u32 RECORD_SCHEMA ++ encode_u32 code ++ rest)) = Ok t.
Proof.
  intros Hc Hl Ht. unfold record_type. rewrite check_sealed_len_fits by (done || apply len_nonneg).
  cbn [mbind result_bind]. apply run_decoder_Ok. eexists. run_parse.
  unfold lift. by destruct Ht as [[-> ->]|[-> ->]].
Qed.
End codec_facts.

(** ** Properties *)

Section properties.
Context `{MinicborLaws}.

(** The website-account plaintext is canonical: its decoder accepts exactly
    the encodings of valid accounts, never panics, and the encoder's secret buffer
    of the text lengths plus 128 bytes never overflows on a valid account. *)
Theorem website_plaintext_exact bs v :
  (WebsiteAccountPlaintext_decode bs = Ok v ↔
    WebsiteAccountPlaintext_wf v ∧ WebsiteAccountPlaintext_encode v = Ok bs)
  ∧ WebsiteAccountPlaintext_decode bs ≠ Panic
  ∧ (WebsiteAccountPlaintext_wf v → is_ok (WebsiteAccountPlaintext_encode v) = true).
Proof.
  split_and!; [apply WebsiteAccountPlaintext_decode_iff|apply WebsiteAccountPlaintext_decode_not_Panic|].
  intros Hv. by rewrite (proj1 (WebsiteAccountPlaintext_encode_wf v Hv)).
Qed.

(** The passkey plaintext is canonical: its decoder accepts exactly the
    encodings of valid passkeys, never panics, and the secret buffer of the text
    lengths plus 192 bytes, which also holds the identifier and the private key,
    never overflows on a valid passkey. *)
Theorem passkey_plaintext_exact bs v :
  (PasskeyPlaintext_decode bs = Ok v ↔ PasskeyPlaintext_wf v ∧ PasskeyPlaintext_encode v = Ok bs)
  ∧ PasskeyPlaintext_decode bs ≠ Panic
  ∧ (PasskeyPlaintext_wf v → is_ok (PasskeyPlaintext_encode v) = true).
Proof.
  split_and!; [apply PasskeyPlaintext_decode_iff|apply PasskeyPlaintext_decode_not_Panic|].
  intros Hv. by rewrite (proj1 (PasskeyPlaintext_encode_wf v Hv)).
Qed.

Lemma record_type_website bs v :
  WebsiteAccountPlaintext_decode bs = Ok v → record_type bs = Ok RecordWebsiteAccount.
Proof.
  intros [Hv Henc]%WebsiteAccountPlaintext_decode_iff.
  destruct (WebsiteAccountPlaintext_encode_wf v Hv) as [Himg Hlen].
  rewrite Himg in Henc. apply Ok_inj in Henc as <-.
  unfold website_items in *. apply record_type_image; [solve_size|solve_size|by left].
Qed.
Lemma record_type_passkey bs v :
  PasskeyPlaintext_decode bs = Ok v → record_type bs = Ok RecordPasskey.
Proof.
  intros [Hv Henc]%PasskeyPlaintext_decode_iff.
  destruct (PasskeyPlaintext_encode_wf v Hv) as [Himg Hlen].
  rewrite Himg in Henc. apply Ok_inj in Henc as <-.
  unfold passkey_items in *. apply record_type_image; [solve_size|solve_size|by right].
Qed.

Lemma record_type_not_Panic bs : record_type bs ≠ Panic.
Proof.
  unfold record_type. intros [[]%check_sealed_len_not_Panic|(_ & _ & Hp)]%bind_Panic. inv_dec_panic Hp.
Qed.

(** The discriminator agrees with the decoders: [record_type] names the
    family of every plaintext that a decoder accepts, so that no byte string is
    accepted by both, and dispatching on it loses no valid plaintext. *)
Theorem record_type_discriminates bs :
  (∀ v, WebsiteAccountPlaintext_decode bs = Ok v → record_type bs = Ok RecordWebsiteAccount)
  ∧ (∀ v, PasskeyPlaintext_decode bs = Ok v → record_type bs = Ok RecordPasskey)
  ∧ (∀ v w, WebsiteAccountPlaintext_decode bs = Ok v → PasskeyPlaintext_decode bs ≠ Ok w)
  ∧ record_type bs ≠ Panic.
Proof.
  split_and!; [apply record_type_website|apply record_type_passkey| |].
  - intros v w Hv%record_type_website Hw%record_type_passkey. congruence.
  - apply record_type_not_Panic.
Qed.

(** The record envelope is canonical and its decoder never panics; and the
    ciphertext of every valid plaintext, 16 bytes longer than the encoding, fits
    an envelope under every nonzero key epoch. *)
Theorem record_envelope_exact bs e epoch nonce ciphertext :
  (RecordEnvelope_decode bs = Ok e ↔ RecordEnvelope_wf e ∧ RecordEnvelope_encode e = Ok bs)
  ∧ RecordEnvelope_decode bs ≠ Panic
  ∧ (u32 epoch → epoch ≠ 0 → length nonce = 24%nat →
     (∃ v image, WebsiteAccountPlaintext_wf v ∧ WebsiteAccountPlaintext_encode v = Ok image
        ∧ len ciphertext = len image + TAG_BYTES)
     ∨ (∃ v image, PasskeyPlaintext_wf v ∧ PasskeyPlaintext_encode v = Ok image
        ∧ len ciphertext = len image + TAG_BYTES) →
     ∃ e, RecordEnvelope_new epoch nonce ciphertext = Ok e ∧ is_ok (RecordEnvelope_encode e) = true).
Proof.
  split_and!; [apply RecordEnvelope_decode_iff|apply RecordEnvelope_decode_not_Panic|].
  intros Hu He Hn Hc.
  assert (TAG_BYTES ≤ len ciphertext ≤ 30000) as [Ht Hl].
  { destruct Hc as [(v & image & Hv & Hi & ->)|(v & image & Hv & Hi & ->)]; pose proof (len_nonneg image).
    - destruct (WebsiteAccountPlaintext_encode_wf v Hv) as [Himg Hlen]. rewrite Himg in Hi.
      apply Ok_inj in Hi as <-. solve_size.
    - destruct (PasskeyPlaintext_encode_wf v Hv) as [Himg Hlen]. rewrite Himg in Hi.
      apply Ok_inj in Hi as <-. solve_size. }
  set (v := {| re_key_epoch := epoch; re_nonce := nonce; re_ciphertext := ciphertext |}).
  pose proof (head_len_bounds epoch). pose proof (head_len_bounds (len ciphertext)).
  assert (RecordEnvelope_wf v) as Hwf by (split; simpl; solve [done|solve_size]).
  destruct (RecordEnvelope_encode_wf v Hwf) as (Hi & _ & Hnew). exists v. split; [done|]. by rewrite Hi.
Qed.
End properties.

(** ** Examples *)

Module Examples.
Import Rfc8949.

Definition account : WebsiteAccountPlaintext :=
  {| wa_revision := 1; wa_created_at_ms := 2; wa_modified_at_ms := 3; wa_service_name := str "Example";
     wa_permitted_origin := str "https://example.com"; wa_username := str "person";
     wa_password := str "disposable" |}.
Lemma account_wf : WebsiteAccountPlaintext_wf account.
Proof. by split. Qed.
Definition passkey : PasskeyPlaintext :=
  {| pk_revision := 1; pk_created_at_ms := 2; pk_modified_at_ms := 3; pk_signature_counter := 0;
     pk_creation_state := Confirmed; pk_rp_id := str "example.com"; pk_user_handle := replicate 32 x21;
     pk_user_name := str "person"; pk_user_display_name := str "Person";
     pk_credential_id := replicate 32 x31; pk_private_key := replicate 32 x41 |}.
Lemma passkey_wf : PasskeyPlaintext_wf passkey.
Proof. by split. Qed.

Lemma website_plaintext_exact_witness : is_ok (WebsiteAccountPlaintext_encode account) = true.
Proof. apply (website_plaintext_exact [] account), account_wf. Defined.

Lemma passkey_plaintext_exact_witness : is_ok (PasskeyPlaintext_encode passkey) = true.
Proof. apply (passkey_plaintext_exact [] passkey), passkey_wf. Defined.

Lemma record_type_discriminates_witness :
  record_type (wire (website_items account)) = Ok RecordWebsiteAccount.
Proof. apply (proj1 (record_type_discriminates (wire (website_items account))) account). vm_compute. reflexivity. Defined.

Lemma record_envelope_exact_witness :
  ∃ e, RecordEnvelope_new 1 (zeros 24) (zeros 69) = Ok e ∧ is_ok (RecordEnvelope_encode e) = true.
Proof.
  apply (record_envelope_exact [] {| re_key_epoch := 1; re_nonce := []; re_ciphertext := [] |} 1 (zeros 24)
    (zeros 69)); [done|done|done|].
  left. exists account, (wire (website_items account)).
  split; [apply account_wf|]. split; [vm_compute; reflexivity|vm_compute; reflexivity].
Defined.
End Examples.
