(* ===== verification/Aad.v ===== *)
(** * Associated data of the five sealed structures

    The key wrappers, the Hello protector, the manifest and the records are
    sealed with associated data built by [crates/vault-format].  Here: the
    associated data determine what they bind, and no two families share a
    value. *)

From S2P Require Import Prelude RustStd Cbor Wire VaultFormat VaultRecords.

Section prefixes.
Context `{MinicborLaws}.

(** Two images of one decoder with equal concatenations are equal. *)
Lemma parses_prefix {E A} (d : dec E A) b1 b2 r1 r2 a1 a2 :
  parses d b1 a1 → parses d b2 a2 → b1 ++ r1 = b2 ++ r2 → a1 = a2 ∧ r1 = r2.
Proof. intros H1 H2 Heq. specialize (H1 r1). rewrite Heq, H2 in H1. by apply Ok_inj in H1 as [= -> ->]. Qed.

Lemma bytes_prefix a b r1 r2 :
  u64 (len a) → u64 (len b) →
  wire (encode_bytes a) ++ r1 = wire (encode_bytes b) ++ r2 → a = b ∧ r1 = r2.
Proof.
  intros Ha Hb. apply (parses_prefix (E:=FormatError) (decode_item md_bytes));
    apply decode_item_parses; by apply md_bytes_wire.
Qed.
Lemma u32_prefix a b r1 r2 :
  u32 a → u32 b → wire (encode_u32 a) ++ r1 = wire (encode_u32 b) ++ r2 → a = b ∧ r1 = r2.
Proof. intros. eapply (parses_prefix (E:=FormatError) decode_u32); eauto with parse. Qed.
Lemma array_prefix a b r1 r2 :
  u64 a → u64 b → wire (encode_array a) ++ r1 = wire (encode_array b) ++ r2 → a = b ∧ r1 = r2.
Proof. intros. eapply (parses_prefix decode_array_len); eauto with parse. Qed.
End prefixes.

(** ** The five families *)

Inductive aad_input :=
  | MasterAad (vault_id : bytes) (key_epoch : Z) (salt : bytes)
  | RecoveryAad (vault_id : bytes) (key_epoch : Z)
  | HelloAad (p : WindowsHelloProtector)
  | ManifestAad (h : VaultHeader) (nonce : bytes)
  | RecordAad (vault_id record_id : bytes) (key_epoch : Z).

Definition aad `{Minicbor} (i : aad_input) : bytes :=
  match i with
  | MasterAad vault_id key_epoch salt => encode_master_wrapper_aad vault_id key_epoch salt
  | RecoveryAad vault_id key_epoch => encode_recovery_wrapper_aad vault_id key_epoch
  | HelloAad p => encode_windows_hello_wrapper_aad p
  | ManifestAad h nonce => encode_manifest_aad h nonce
  | RecordAad vault_id record_id key_epoch => encode_record_aad vault_id record_id key_epoch
  end.

Definition aad_typed (i : aad_input) : Prop :=
  match i with
  | MasterAad v k s => length v = 16%nat ∧ u32 k ∧ length s = 16%nat
  | RecoveryAad v k => length v = 16%nat ∧ u32 k
  | HelloAad p => WindowsHelloProtector_wf p
  | ManifestAad h n => VaultHeader_wf h ∧ length n = 24%nat
  | RecordAad v r k => length v = 16%nat ∧ length r = 16%nat ∧ u32 k
  end.

(** What an associated-data value binds: everything, except that the Hello
    wrapper binds the protector without its ciphertext. *)
Definition without_ciphertext (p : WindowsHelloProtector) : WindowsHelloProtector :=
  {| hp_vault_id := hp_vault_id p; hp_key_epoch := hp_key_epoch p;
     hp_installation_id := hp_installation_id p; hp_credential_id := hp_credential_id p;
     hp_prf_salt := hp_prf_salt p; hp_nonce := hp_nonce p; hp_wrapped_vrk := [] |}.
Definition bound (i : aad_input) : aad_input :=
  match i with HelloAad p => HelloAad (without_ciphertext p) | i => i end.

(** The number of fields of a family, the first byte of its data. *)
Definition aad_fields (i : aad_input) : Z :=
  match i with
  | MasterAad _ _ _ => 17 | RecoveryAad _ _ => 11 | HelloAad _ => 14 | ManifestAad _ _ => 3
  | RecordAad _ _ _ => 6
  end.

Definition aad_items `{Minicbor} (i : aad_input) : list bytes :=
  match i with
  | MasterAad vault_id key_epoch salt => master_aad_items vault_id key_epoch salt
  | RecoveryAad vault_id key_epoch => recovery_aad_items vault_id key_epoch
  | HelloAad p => hello_aad_items p
  | ManifestAad h nonce => manifest_aad_items h nonce
  | RecordAad vault_id record_id key_epoch => record_aad_items vault_id record_id key_epoch
  end.

Section aad_facts.
Context `{MinicborLaws}.

Lemma aad_image i : aad i = wire (aad_items i).
Proof. destruct i; apply vec_encode_concat. Qed.

Lemma aad_head i : ∃ rest, wire (aad_items i) = wire (encode_array (aad_fields i)) ++ rest.
Proof.
  destruct i; cbn [aad_items]; unfold master_aad_items, recovery_aad_items, hello_aad_items,
    manifest_aad_items, record_aad_items; rewrite concat_app; by eexists.
Qed.

Lemma aad_same_family i j : wire (aad_items i) = wire (aad_items j) → aad_fields i = aad_fields j.
Proof.
  destruct (aad_head i) as [r1 ->]. destruct (aad_head j) as [r2 ->].
  intros Heq. by apply array_prefix in Heq as [? _]; [|destruct i; by split|destruct j; by split].
Qed.

(** [peel H] strips the common items and the equal fields of an equality of
    images. *)
Ltac peel_step H :=
  first
    [ apply app_inv_head in H
    | apply bytes_prefix in H as [? H]; [|solve_size..]
    | apply u32_prefix in H as [? H]; [|solve_size..] ].
Ltac peel H :=
  match type of H with ?a = ?b =>
    rewrite <-(app_nil_r a), <-(app_nil_r b) in H end;
  rewrite ?concat_app, <-?app_assoc in H; repeat peel_step H.

Lemma aad_items_injective i j :
  aad_typed i → aad_typed j → wire (aad_items i) = wire (aad_items j) → bound i = bound j.
Proof.
  intros Hi Hj Heq. pose proof (aad_same_family i j Heq) as Hf.
  destruct i, j; try done; cbn [aad_items aad_typed bound] in *; clear Hf.
  - unfold master_aad_items in Heq. destruct_and!. peel Heq. by subst.
  - unfold recovery_aad_items in Heq. destruct_and!. peel Heq. by subst.
  - unfold hello_aad_items, encode_windows_hello_binding_into in Heq.
    destruct Hi as [? [] [] [] ? ? ?], Hj as [? [] [] [] ? ? ?]. peel Heq.
    f_equal. unfold without_ciphertext. congruence.
  - unfold manifest_aad_items in Heq. destruct Hi as [Hi ?], Hj as [Hj ?].
    rewrite !concat_app in Heq. apply app_inv_head in Heq.
    apply (parses_prefix decode_header_from _ _ _ _ _ _ (proj1 (parses_header _ Hi))
      (proj1 (parses_header _ Hj))) in Heq as [-> Heq].
    apply app_inv_head in Heq. rewrite <-(app_nil_r (wire (encode_bytes nonce))) in Heq.
    rewrite <-(app_nil_r (wire (encode_bytes nonce0))) in Heq.
    apply bytes_prefix in Heq as [-> _]; [done|solve_size..].
  - unfold record_aad_items in Heq. destruct_and!. peel Heq. by subst.
Qed.

(** C39: the associated data of the five sealed structures (master and recovery
    wrappers, Hello wrapper, manifest, records) determine the family and every
    field they bind: equal associated data come from the same family with equal
    vault, epoch, identifiers, salts and nonces, so that no ciphertext of one slot
    can be replayed in another. *)
Theorem aad_binding i j :
  aad_typed i → aad_typed j → aad i = aad j → bound i = bound j.
Proof. rewrite !aad_image. apply aad_items_injective. Qed.
End aad_facts.

Import Rfc8949.

(** The associated data of the two wrappers of one vault differ. *)
Lemma aad_binding_witness :
  aad (MasterAad (zeros 16) 1 (zeros 16)) ≠ aad (RecoveryAad (zeros 16) 1).
Proof.
  intros Heq. apply (aad_binding (MasterAad (zeros 16) 1 (zeros 16)) (RecoveryAad (zeros 16) 1)) in Heq;
    [discriminate Heq|by split|by split].
Defined.
