(* ===== verification/VaultKeys.v ===== *)
(** * Keys, secrets and primitives of the vault core
    ([crates/vault-core/src/lib.rs])

    The cryptographic crates (argon2, hkdf, sha2, chacha20poly1305, p256), the
    url crate and the operating system (randomness, the cancellation flag that
    other threads set) are not code of the repository: they are the classes
    [Crypto], [UrlCrate] and [Env].  Their laws are the documented functional
    behaviour: output lengths, the domains on which a call cannot fail, and that
    decryption with the same key, nonce and associated data undoes encryption.
    No law is about secrecy or unforgeability.  The last section gives a
    concrete instance of each class. *)

From stdpp Require Import countable.
From S2P Require Import Prelude RustStd Cbor Wire VaultFormat VaultRecords.

(** ** Interfaces *)

Class Crypto := {
  (** [Argon2::new(Argon2id, V0x13, Params::new(m, t, p, Some(length)))] and
      [hash_password_into(password, salt)]. *)
  argon2id : Z → Z → Z → nat → bytes → bytes → option bytes;
  (** [Hkdf::<Sha256>::new(Some(salt), key).expand(info, [0; length])]. *)
  hkdf_expand : bytes → bytes → bytes → nat → option bytes;
  sha256 : bytes → bytes;
  (** [XChaCha20Poly1305::encrypt] and [decrypt]: key, nonce, message, associated data. *)
  aead_encrypt : bytes → bytes → bytes → bytes → option bytes;
  aead_decrypt : bytes → bytes → bytes → bytes → option bytes;
  (** [SigningKey::from_slice(..).is_ok()], the uncompressed point of the
      verifying key, and the DER signature of a message. *)
  p256_scalar : bytes → bool;
  p256_point : bytes → bytes;
  p256_sign : bytes → bytes → bytes;
}.

Class CryptoLaws `{Crypto} : Prop := {
  argon2id_total (m t p : Z) (n : nat) password salt :
    1 ≤ t → 1 ≤ p < 2 ^ 24 → 8 * p ≤ m < 2 ^ 32 → (4 ≤ n)%nat → len password < 2 ^ 32 →
    8 ≤ len salt < 2 ^ 32 → is_Some (argon2id m t p n password salt);
  argon2id_length m t p n password salt k : argon2id m t p n password salt = Some k → length k = n;
  hkdf_total salt key info n : (n ≤ 255 * 32)%nat → is_Some (hkdf_expand salt key info n);
  hkdf_length salt key info n k : hkdf_expand salt key info n = Some k → length k = n;
  sha256_length l : length (sha256 l) = 32%nat;
  aead_total key nonce msg aad :
    length key = 32%nat → length nonce = 24%nat → len msg < 2 ^ 38 - 64 → is_Some (aead_encrypt key nonce msg aad);
  aead_length key nonce msg aad c :
    aead_encrypt key nonce msg aad = Some c → len c = len msg + TAG_BYTES;
  aead_round_trip key nonce msg aad c :
    aead_encrypt key nonce msg aad = Some c → aead_decrypt key nonce c aad = Some msg;
  p256_scalar_length k : p256_scalar k = true → length k = 32%nat ∧ k ≠ zeros 32;
  p256_point_length k : p256_scalar k = true → length (p256_point k) = 65%nat;
}.

(** The [url] crate: a parsed URL and what the sources read of it. *)
Class UrlCrate := {
  Url : Type;
  url_parse : bytes → option Url;
  url_scheme : Url → bytes;
  url_host_str : Url → option bytes;
  url_username : Url → bytes;
  url_password : Url → option bytes;
  url_port : Url → option Z;
  url_query : Url → option bytes;
  url_fragment : Url → option bytes;
  url_path : Url → bytes;
  (** [url.origin().ascii_serialization()] *)
  url_origin : Url → bytes;
}.

(** The origin of an http or https URL with a host is serialized as printable
    ASCII, and its serialization is the URL of the same origin with no
    credentials, query or fragment and the path [/]. *)
Class UrlLaws `{UrlCrate} : Prop := {
  url_origin_parses s u :
    url_parse s = Some u → url_scheme u = str "http" ∨ url_scheme u = str "https" →
    is_Some (url_host_str u) →
    ∃ v, url_parse (url_origin u) = Some v ∧ url_scheme v = url_scheme u
      ∧ is_Some (url_host_str v) ∧ url_username v = [] ∧ url_password v = None
      ∧ url_query v = None ∧ url_fragment v = None ∧ url_path v = str "/"
      ∧ url_origin v = url_origin u;
  url_origin_ascii s u :
    url_parse s = Some u → url_origin u ≠ [] ∧ text (url_origin u) ∧ has_control (url_origin u) = false;
}.

(** The world a call reads: the operating system's generator, and the
    answers of the caller's cancellation check. *)
Class Env (W : Type) := {
  getrandom_fill : nat → W → option bytes * W;
  poll_cancelled : W → bool * W;
}.
Class EnvLaws (W : Type) `{Env W} : Prop := {
  getrandom_length n w b w' : getrandom_fill n w = (Some b, w') → length b = n;
}.

(** ** Constants *)

Definition KEY_BYTES : nat := 32.
Definition WRAPPED_KEY_BYTES : nat := 48.
Definition INITIAL_KEY_EPOCH : Z := 1.
Definition MAX_MASTER_PASSWORD_BYTES : Z := 1024.
Definition MASTER_WRAP_LABEL : bytes := str "librarian/vault/v1/master-wrap".
Definition RECOVERY_WRAP_LABEL : bytes := str "librarian/vault/v1/recovery-wrap".
Definition WINDOWS_HELLO_WRAP_LABEL : bytes := str "librarian/vault/v1/windows-hello-wrap".
Definition WINDOWS_HELLO_INSTALLATION_ID_LABEL : bytes :=
  str "librarian/vault/v1/windows-hello-installation-id".
Definition MANIFEST_LABEL_PREFIX : bytes := str "librarian/vault/v1/manifest/".

(** ** Secrets and errors *)

Inductive PasswordInputError := password_input_error.

(** The password is its bytes. *)
Definition MasterPassword_new (value : bytes) : result PasswordInputError bytes :=
  fail_if (len value >? MAX_MASTER_PASSWORD_BYTES) password_input_error;;
  mret value.

Inductive CreateVaultError := RandomnessUnavailable | CryptographicFailure | FormatFailure.
#[export] Instance CreateVaultError_eq_dec : EqDecision CreateVaultError.
Proof. solve_decision. Defined.

Inductive UnlockError := UnlockFailed | UnlockCancelled.
#[export] Instance UnlockError_eq_dec : EqDecision UnlockError.
Proof. solve_decision. Defined.

(** [UnlockedVault]: the only reusable root-key state. *)
Record UnlockedVault := {
  uv_vault_root_key : bytes;
  uv_header : VaultHeader;
  uv_manifest : Manifest;
}.
#[export] Instance UnlockedVault_eq_dec : EqDecision UnlockedVault.
Proof. solve_decision. Defined.

Definition vault_id (v : UnlockedVault) : bytes := vh_vault_id (uv_header v).
Definition key_epoch (v : UnlockedVault) : Z := vh_key_epoch (uv_header v).
Definition generation (v : UnlockedVault) : Z := mf_generation (uv_manifest v).

Record CreatedVault := {
  cv_header : bytes;
  cv_manifest_envelope : bytes;
  cv_recovery_key : bytes;
  cv_session : UnlockedVault;
}.

(** ** Key derivation and sealing *)

Section keys.
Context `{Crypto}.

Definition derive_password_key (password salt : bytes) : result unit bytes :=
  ok_or (argon2id ARGON2_MEMORY_KIB ARGON2_TIME_COST ARGON2_PARALLELISM KEY_BYTES password salt) tt.

Definition derive_key (input_key vault_id label : bytes) : result unit bytes :=
  ok_or (hkdf_expand vault_id input_key label KEY_BYTES) tt.

Definition windows_hello_installation_id (installation_key : bytes) : bytes :=
  sha256 (WINDOWS_HELLO_INSTALLATION_ID_LABEL ++ installation_key).

Definition derive_windows_hello_wrapping_key (prf_output installation_key vault_id : bytes) :
    result unit bytes :=
  derive_key (prf_output ++ installation_key) vault_id WINDOWS_HELLO_WRAP_LABEL.

Definition derive_manifest_key (vault_root_key vault_id : bytes) (key_epoch : Z) : result unit bytes :=
  derive_key vault_root_key vault_id (MANIFEST_LABEL_PREFIX ++ to_be_bytes 4 key_epoch).

(** [XChaCha20Poly1305::new_from_slice(key)] refuses a key of another length. *)
Definition encrypt_bytes (key nonce plaintext aad : bytes) : result CreateVaultError bytes :=
  fail_if (negb (Nat.eqb (length key) 32)) CryptographicFailure;;
  ok_or (aead_encrypt key nonce plaintext aad) CryptographicFailure.

Definition encrypt_fixed_key (key nonce plaintext aad : bytes) : result CreateVaultError bytes :=
  ciphertext ← encrypt_bytes key nonce plaintext aad;
  fail_if (negb (Nat.eqb (length ciphertext) WRAPPED_KEY_BYTES)) CryptographicFailure;;
  mret ciphertext.

Definition decrypt_bytes (key nonce ciphertext aad : bytes) : result unit bytes :=
  fail_if (negb (Nat.eqb (length key) 32)) tt;;
  ok_or (aead_decrypt key nonce ciphertext aad) tt.

Definition decrypt_fixed_key (key nonce ciphertext aad : bytes) : result unit bytes :=
  plaintext ← decrypt_bytes key nonce ciphertext aad;
  fail_if (negb (Nat.eqb (length plaintext) KEY_BYTES)) tt;;
  mret plaintext.
End keys.

(** ** Randomness and cancellation *)

(** [if should_cancel() { return Err(e) }]. *)
Definition check_cancelled {W E} (should_cancel : W → bool * W) (e : E) : stm W E unit := λ w,
  let '(cancelled, w) := should_cancel w in
  (if cancelled then Err e else Ok tt, w).

Lemma check_cancelled_Ok {W E} (should_cancel : W → bool * W) (e : E) w u w' :
  check_cancelled should_cancel e w = (Ok u, w') ↔ should_cancel w = (false, w').
Proof. unfold check_cancelled. destruct (should_cancel w) as [[] w1], u; naive_solver. Qed.

(** [inv_stm H] takes a hypothesis [H : m w = (Ok b, w')] apart into the
    successes of the steps of [m]. *)
Ltac inv_stm H :=
  lazymatch type of H with
  | (_ ≫= _) _ = (Ok _, _) =>
      let x := fresh "x" in let w := fresh "w" in
      let H1 := fresh "Hok" in let H2 := fresh "Hok" in
      apply stm_bind_Ok in H as (x & w & H1 & H2); cbn beta in H2; inv_stm H1; inv_stm H2
  | of_result _ _ = (Ok _, _) => apply of_result_Ok in H as [H ->]; inv_ok H
  | map_err_st _ _ _ = (Ok _, _) => apply map_err_st_Ok in H; inv_stm H
  | check_cancelled _ _ _ = (Ok _, _) => apply check_cancelled_Ok in H
  | mret _ _ = (Ok _, _) => apply stm_ret_Ok in H as [H ->]; simplify_eq
  | _ => idtac
  end.

(** Running the steps of a computation. *)
Lemma stm_bind_intro {W E A B} (m : stm W E A) (k : A → stm W E B) w a w' r :
  m w = (Ok a, w') → k a w' = r → (m ≫= k) w = r.
Proof. unfold mbind, stm_bind. by intros ->. Qed.
Lemma of_result_intro {W E A} (r : result E A) (w : W) a : r = Ok a → of_result r w = (Ok a, w).
Proof. unfold of_result. by intros ->. Qed.
Lemma map_err_intro {E F A} (g : E → F) (r : result E A) a : r = Ok a → map_err g r = Ok a.
Proof. by intros ->. Qed.

(** The closure [|| false]. *)
Definition never_cancelled {W} (w : W) : bool * W := (false, w).

Section env.
Context {W : Type} `{Env W}.

(** [entropy.fill(&mut [0; length])]. *)
Definition random_array (length : nat) : stm W CreateVaultError bytes := λ w,
  match getrandom_fill length w with
  | (Some value, w) => (Ok value, w)
  | (None, w) => (Err RandomnessUnavailable, w)
  end.

(** The generator delivers. *)
Definition entropic : Prop := ∀ n (w : W), is_Some (getrandom_fill n w).1.
(** Nobody cancels. *)
Definition undisturbed : Prop := ∀ w : W, (poll_cancelled w).1 = false.

Lemma random_array_total n (w : W) : entropic → ∃ b w', random_array n w = (Ok b, w').
Proof.
  intros He. unfold random_array. destruct (He n w) as [b Hb].
  destruct (getrandom_fill n w) as [[b'|] w']; [by eexists _, _|done].
Qed.

Lemma undisturbed_check {E} (e : E) (w : W) :
  undisturbed → ∃ w', check_cancelled poll_cancelled e w = (Ok tt, w').
Proof.
  intros Hu. specialize (Hu w). unfold check_cancelled.
  destruct (poll_cancelled w) as [c w']; simpl in Hu; subst c. by exists w'.
Qed.

Lemma random_array_length `{!EnvLaws W} n w b w' : random_array n w = (Ok b, w') → length b = n.
Proof.
  unfold random_array. destruct (getrandom_fill n w) as [[b'|] w1] eqn:Hf; [|done].
  intros [= -> ->]. by eapply getrandom_length.
Qed.
End env.

(** ** Facts *)

Section key_facts.
Context `{CryptoLaws}.

Lemma derive_key_Ok k v l : ∃ key, derive_key k v l = Ok key ∧ length key = 32%nat.
Proof.
  destruct (hkdf_total v k l KEY_BYTES) as [key Hk]; [unfold KEY_BYTES; lia|].
  exists key. split; [unfold derive_key; by rewrite Hk|by eapply hkdf_length].
Qed.

Lemma derive_password_key_Ok password salt :
  len password ≤ MAX_MASTER_PASSWORD_BYTES → length salt = 16%nat →
  ∃ key, derive_password_key password salt = Ok key ∧ length key = 32%nat.
Proof.
  intros Hp Hs.
  destruct (argon2id_total ARGON2_MEMORY_KIB ARGON2_TIME_COST ARGON2_PARALLELISM KEY_BYTES password salt)
    as [key Hk]; try (unfold MAX_MASTER_PASSWORD_BYTES, KEY_BYTES, len in *; autounfold with limits;
      solve [lia|vm_compute; intuition congruence]).
  exists key. split; [unfold derive_password_key; by rewrite Hk|by eapply argon2id_length].
Qed.

Lemma encrypt_bytes_Ok key nonce msg aad c :
  encrypt_bytes key nonce msg aad = Ok c →
  len c = len msg + TAG_BYTES ∧ decrypt_bytes key nonce c aad = Ok msg.
Proof.
  unfold encrypt_bytes, decrypt_bytes. intros Hc. inv_ok Hc. simp_guards.
  split; [by eapply aead_length|].
  match goal with H : length key = _ |- _ => rewrite H end. cbn.
  by rewrite (aead_round_trip key nonce msg aad c).
Qed.

Lemma encrypt_bytes_total key nonce msg aad :
  length key = 32%nat → length nonce = 24%nat → len msg < 2 ^ 38 - 64 →
  ∃ c, encrypt_bytes key nonce msg aad = Ok c.
Proof.
  intros Hk Hn Hm. destruct (aead_total key nonce msg aad Hk Hn Hm) as [c Hc].
  exists c. unfold encrypt_bytes. rewrite Hk, Hc. done.
Qed.

Lemma encrypt_fixed_key_Ok key nonce msg aad c :
  encrypt_fixed_key key nonce msg aad = Ok c → length msg = 32%nat →
  length c = 48%nat ∧ decrypt_fixed_key key nonce c aad = Ok msg.
Proof.
  unfold encrypt_fixed_key, decrypt_fixed_key. intros Hc Hm. inv_ok Hc. simp_guards.
  split; [done|]. edestruct encrypt_bytes_Ok as [_ Hd]; [done|]. rewrite Hd. cbn.
  by rewrite Hm.
Qed.

Lemma encrypt_fixed_key_total key nonce msg aad :
  length key = 32%nat → length nonce = 24%nat → length msg = 32%nat →
  ∃ c, encrypt_fixed_key key nonce msg aad = Ok c.
Proof.
  intros Hk Hn Hm. edestruct (encrypt_bytes_total key nonce msg aad) as [c Hc]; try done.
  { unfold len. rewrite Hm. lia. }
  exists c. unfold encrypt_fixed_key. rewrite Hc. cbn [mbind result_bind].
  apply encrypt_bytes_Ok in Hc as [Hl _].
  assert (length c = WRAPPED_KEY_BYTES) as ->; [|done].
  unfold len, TAG_BYTES in Hl. rewrite Hm in Hl. unfold WRAPPED_KEY_BYTES. lia.
Qed.
End key_facts.

Section key_panics.
Context `{Crypto}.
Lemma derive_key_not_Panic k v l : derive_key k v l ≠ Panic.
Proof. unfold derive_key. no_panic. Qed.
Lemma derive_password_key_not_Panic k v : derive_password_key k v ≠ Panic.
Proof. unfold derive_password_key. no_panic. Qed.
Lemma encrypt_bytes_not_Panic k n m a : encrypt_bytes k n m a ≠ Panic.
Proof. unfold encrypt_bytes. no_panic. Qed.
Lemma decrypt_bytes_not_Panic k n m a : decrypt_bytes k n m a ≠ Panic.
Proof. unfold decrypt_bytes. no_panic. Qed.
Lemma decrypt_fixed_key_not_Panic k n m a : decrypt_fixed_key k n m a ≠ Panic.
Proof. unfold decrypt_fixed_key. pose proof (decrypt_bytes_not_Panic k n m a). no_panic. Qed.
End key_panics.
#[export] Hint Resolve derive_key_not_Panic derive_password_key_not_Panic encrypt_bytes_not_Panic
  decrypt_bytes_not_Panic decrypt_fixed_key_not_Panic : panic.

(** ** Sealing and opening *)

Section sealing.
Context `{MinicborLaws, CryptoLaws}.

(** What a sealed manifest opens to. *)
Lemma sealed_manifest_opens key nonce aad m image c value bs :
  Manifest_wf m → length nonce = 24%nat → Manifest_encode m = Ok image →
  encrypt_bytes key nonce image aad = Ok c →
  ManifestEnvelope_new nonce c = Ok value → ManifestEnvelope_encode value = Ok bs →
  ManifestEnvelope_decode bs = Ok {| en_nonce := nonce; en_ciphertext := c |}
  ∧ decrypt_bytes key nonce c aad = Ok image ∧ Manifest_decode image = Ok m.
Proof.
  intros Hm Hn Hi Hc Hnew Hb. destruct (Manifest_encode_wf m Hm) as [Hi' Hlen].
  rewrite Hi' in Hi. apply Ok_inj in Hi as <-.
  apply encrypt_bytes_Ok in Hc as [Hcl Hd].
  apply ManifestEnvelope_new_Ok in Hnew as [-> ?]; [|done|].
  - split_and!; [by apply ManifestEnvelope_decode_iff|done|by apply Manifest_decode_iff].
  - rewrite Hcl. pose proof (len_nonneg (wire (manifest_items m))). solve_size.
Qed.

Lemma manifest_seals key nonce aad m :
  Manifest_wf m → length key = 32%nat → length nonce = 24%nat →
  ∃ image c bs, Manifest_encode m = Ok image ∧ encrypt_bytes key nonce image aad = Ok c
    ∧ (value ← ManifestEnvelope_new nonce c; ManifestEnvelope_encode value) = Ok bs.
Proof.
  intros Hm Hk Hn. destruct (Manifest_encode_wf m Hm) as [Hi Hlen].
  destruct (encrypt_bytes_total key nonce (wire (manifest_items m)) aad) as [c Hc]; [done..|lia|].
  pose proof (proj1 (encrypt_bytes_Ok _ _ _ _ _ Hc)) as Hcl.
  pose proof (len_nonneg (wire (manifest_items m))).
  set (e := {| en_nonce := nonce; en_ciphertext := c |}).
  assert (ManifestEnvelope_wf e) as He.
  { pose proof (head_len_bounds (len c)). split; simpl; [done|..]; solve_size. }
  destruct (ManifestEnvelope_encode_wf e He) as (Henc & _ & Hnew).
  eexists _, c, _. split_and!; [done|done|]. simpl in Hnew. rewrite Hnew. exact Henc.
Qed.

(** What a sealed record opens to. *)
Lemma sealed_record_opens epoch key nonce aad image c value bs :
  u32 epoch → length nonce = 24%nat → u64 (len image + TAG_BYTES) →
  encrypt_bytes key nonce image aad = Ok c →
  RecordEnvelope_new epoch nonce c = Ok value → RecordEnvelope_encode value = Ok bs →
  RecordEnvelope_decode bs = Ok {| re_key_epoch := epoch; re_nonce := nonce; re_ciphertext := c |}
  ∧ decrypt_bytes key nonce c aad = Ok image.
Proof.
  intros He Hn Hi Hc Hnew Hb. apply encrypt_bytes_Ok in Hc as [Hcl Hd].
  apply RecordEnvelope_new_Ok in Hnew as [-> ?]; [|done|done|by rewrite Hcl].
  split; [by apply RecordEnvelope_decode_iff|done].
Qed.

Lemma record_seals epoch key nonce aad image :
  u32 epoch → epoch ≠ 0 → length key = 32%nat → length nonce = 24%nat → len image ≤ 20000 →
  ∃ c bs, encrypt_bytes key nonce image aad = Ok c
    ∧ (value ← RecordEnvelope_new epoch nonce c; RecordEnvelope_encode value) = Ok bs.
Proof.
  intros He Hne Hk Hn Hi. destruct (encrypt_bytes_total key nonce image aad) as [c Hc]; [done..|lia|].
  pose proof (proj1 (encrypt_bytes_Ok _ _ _ _ _ Hc)) as Hcl. pose proof (len_nonneg image).
  set (e := {| re_key_epoch := epoch; re_nonce := nonce; re_ciphertext := c |}).
  assert (RecordEnvelope_wf e) as Hw.
  { pose proof (head_len_bounds (len c)). pose proof (head_len_bounds epoch).
    split; simpl; [done|done|..]; solve_size. }
  destruct (RecordEnvelope_encode_wf e Hw) as (Henc & _ & Hnew).
  eexists c, _. split; [done|]. simpl in Hnew. rewrite Hnew. exact Henc.
Qed.
End sealing.

(** ** Instances

    Simple functions that satisfy the laws, for evaluating the model: not
    cryptography.  A key, digest or tag is a list cut or filled with zeros to its
    length; the tag of a ciphertext depends on the key, the nonce and the
    associated data.  A URL is [https://] and a lower-case host with an optional
    final slash.  The world counts the calls: the generator repeats the number of
    the call, and nobody cancels. *)
Module Toy.
Definition fit (n : nat) (l : bytes) : bytes := take n (l ++ zeros n).

Lemma fit_length n l : length (fit n l) = n.
Proof. unfold fit, zeros. rewrite length_take, length_app, length_replicate. lia. Qed.

Definition tag (key nonce aad : bytes) : bytes :=
  fit 4 (rev key) ++ fit 4 nonce ++ fit 8 (rev aad).
Lemma tag_length key nonce aad : length (tag key nonce aad) = 16%nat.
Proof. unfold tag. by rewrite !length_app, !fit_length. Qed.

Definition open (key nonce sealed aad : bytes) : option bytes :=
  let n := (length sealed - 16)%nat in
  if bool_decide (drop n sealed = tag key nonce aad) then Some (take n sealed) else None.

#[export] Instance toy_crypto : Crypto := {|
  argon2id _ _ _ n password salt := Some (fit n (password ++ salt));
  hkdf_expand salt key info n := Some (fit n (rev info ++ key ++ salt));
  sha256 l := fit 32 (rev l);
  aead_encrypt key nonce message aad := Some (message ++ tag key nonce aad);
  aead_decrypt := open;
  p256_scalar k := Nat.eqb (length k) 32 && negb (all_zero k);
  p256_point k := fit 65 (x04 :: k);
  p256_sign k message := fit 8 k ++ fit 8 message;
|}.

#[export] Instance toy_crypto_laws : CryptoLaws.
Proof.
  split; simpl; intros; simplify_eq; try done; try apply fit_length.
  - unfold len. rewrite length_app, tag_length. unfold TAG_BYTES. lia.
  - unfold open. rewrite length_app, tag_length, Nat.add_sub, drop_app_length, take_app_length.
    by rewrite bool_decide_true.
  - simp_guards. split; [done|]. intros ->. done.
  - unfold zeros. rewrite length_take, length_app, length_replicate. lia.
Qed.

Definition host_char (b : byte) : bool :=
  let c := Z_of_byte b in ((0x61 <=? c) && (c <=? 0x7A)) || (c =? 0x2E).
Fixpoint strip_prefix (prefix l : bytes) : option bytes :=
  match prefix, l with
  | [], l => Some l
  | a :: prefix, b :: l => if bool_decide (a = b) then strip_prefix prefix l else None
  | _ :: _, [] => None
  end.
Definition parse (s : bytes) : option bytes :=
  rest ← strip_prefix (str "https://") s;
  let host := match rev rest with x2f :: l => rev l | _ => rest end in
  if negb (is_empty host) && forallb host_char host then Some host else None.

#[export] Instance toy_url : UrlCrate := {|
  Url := bytes;
  url_parse := parse;
  url_scheme _ := str "https";
  url_host_str u := Some u;
  url_username _ := [];
  url_password _ := None;
  url_port _ := None;
  url_query _ := None;
  url_fragment _ := None;
  url_path _ := str "/";
  url_origin u := str "https://" ++ u;
|}.

Lemma strip_prefix_app prefix l : strip_prefix prefix (prefix ++ l) = Some l.
Proof. induction prefix as [|a p IH]; [done|]. simpl. by rewrite bool_decide_true. Qed.

Lemma host_chars u :
  forallb host_char u = true → ∃ cs, utf8_chars u = Some cs ∧ existsb is_control cs = false.
Proof.
  induction u as [|b u IH]; simpl; [by exists []|]. intros [Hb (cs & -> & Hcs)%IH]%andb_true_iff.
  assert (Z_of_byte b <? 0x80 = true) as ->.
  { unfold host_char in Hb. apply orb_true_iff in Hb as [?|?]; simp_guards; apply Z.ltb_lt; lia. }
  eexists. split; [done|]. simpl. rewrite Hcs, orb_false_r. unfold is_control.
  unfold host_char in Hb. apply orb_true_iff in Hb as [?|?]; simp_guards.
  - apply orb_false_iff. split; [apply Z.leb_gt; lia|].
    apply andb_false_iff. left. apply Z.leb_gt. lia.
  - by match goal with H : Z_of_byte b = _ |- _ => rewrite H end.
Qed.

Lemma parse_host s u : parse s = Some u → u ≠ [] ∧ forallb host_char u = true.
Proof.
  unfold parse. intros (rest & _ & Hr)%bind_Some. cbv zeta in Hr.
  destruct (negb _ && _)%bool eqn:Hc; simplify_eq. simp_guards. split; [by apply is_empty_false|done].
Qed.

Lemma parse_origin u : u ≠ [] → forallb host_char u = true → parse (str "https://" ++ u) = Some u.
Proof.
  intros Hn Hu. unfold parse. rewrite strip_prefix_app. simpl.
  assert (match rev u with x2f :: l => rev l | _ => u end = u) as ->.
  { destruct (rev u) as [|b l] eqn:Hr; [done|].
    assert (b ∈ u) as Hin by (rewrite <-(rev_involutive u), Hr; simpl; set_solver).
    rewrite forallb_forall in Hu. apply list_elem_of_In, Hu in Hin. by destruct b. }
  rewrite Hu. by destruct u.
Qed.

#[export] Instance toy_url_laws : UrlLaws.
Proof.
  split; simpl.
  - intros s u [Hn Hu]%parse_host _ _. exists u. split; [by apply parse_origin|]. by split_and!.
  - intros s u [Hn Hu]%parse_host. destruct (host_chars u Hu) as (cs & Hcs & Hc). split_and!; [done| |].
    + unfold text, utf8_valid. simpl. by rewrite Hcs.
    + unfold has_control. simpl. rewrite Hcs. simpl. exact Hc.
Qed.

#[export] Instance toy_env : Env Z := {|
  getrandom_fill n w := (Some (replicate n (byte_of_Z w)), w + 1);
  poll_cancelled w := (false, w);
|}.
#[export] Instance toy_env_laws : EnvLaws Z.
Proof. split. intros n w b w' [= <- <-]. apply length_replicate. Qed.

Lemma toy_entropic : entropic (W:=Z).
Proof. intros n w. by eexists. Qed.
Lemma toy_undisturbed : undisturbed (W:=Z).
Proof. done. Qed.
End Toy.
