(* ===== verification/VaultStore.v ===== *)
(** * Records of an unlocked vault ([crates/vault-core/src/records.rs])

    Every operation authenticates the whole snapshot first: the clear header
    and the sealed manifest against the session, then every row against its
    manifest entry and its seal, in order, asking the caller's cancellation check
    before each row.  A mutation is prepared as bytes (a sealed record and the
    next sealed manifest); the session advances only when it is committed. *)

From stdpp Require Import countable.
From S2P Require Import Prelude RustStd Cbor Wire VaultFormat VaultRecords VaultKeys.

(** ** Constants *)

Definition RECORD_LABEL_PREFIX : bytes := str "librarian/vault/v1/record/".
Definition MAX_RECORD_ID_ATTEMPTS : nat := 128.
Definition MAX_WEBSITE_ACCOUNT_PAGE_SIZE : Z := 100.
Definition MAX_PASSKEY_ASSERTION_CANDIDATES : Z := 64.
Definition MAX_PASSKEY_CREDENTIALS : Z := 64.
Definition PASSKEY_PUBLIC_KEY_BYTES : nat := 65.
Definition PASSKEY_USER_PRESENT : Z := 0x01.
Definition PASSKEY_USER_VERIFIED : Z := 0x04.
Definition PASSKEY_BACKUP_ELIGIBLE : Z := 0x08.

(** ** Data *)

Record EncryptedRecord := { er_id : bytes; er_envelope : bytes }.
#[export] Instance EncryptedRecord_eq_dec : EqDecision EncryptedRecord.
Proof. solve_decision. Defined.

Inductive WebsiteAccountInputError := InvalidServiceName | InvalidOrigin | FieldTooLarge.
#[export] Instance WebsiteAccountInputError_eq_dec : EqDecision WebsiteAccountInputError.
Proof. solve_decision. Defined.

Record WebsiteAccountInput := {
  in_service_name : bytes;
  in_permitted_origin : bytes;
  in_username : bytes;
  in_password : bytes;
}.

Record WebsiteAccount := {
  ac_id : bytes;
  ac_revision : Z;
  ac_created_at_ms : Z;
  ac_modified_at_ms : Z;
  ac_service_name : bytes;
  ac_permitted_origin : bytes;
  ac_username : bytes;
  ac_password : bytes;
}.
#[export] Instance WebsiteAccount_eq_dec : EqDecision WebsiteAccount.
Proof. solve_decision. Defined.

Inductive PasskeyInputError := InvalidRpId | InvalidUser | PasskeyFieldTooLarge.
#[export] Instance PasskeyInputError_eq_dec : EqDecision PasskeyInputError.
Proof. solve_decision. Defined.

Record PasskeyInput := {
  pi_rp_id : bytes;
  pi_user_handle : bytes;
  pi_user_name : bytes;
  pi_user_display_name : bytes;
}.

Record PasskeyCredential := {
  pc_credential_id : bytes;
  pc_user_handle : bytes;
  pc_public_key : bytes;
}.

Record PasskeySummary := {
  sm_credential_id : bytes;
  sm_rp_id : bytes;
  sm_user_handle : bytes;
  sm_user_name : bytes;
  sm_user_display_name : bytes;
}.

Record PasskeyAssertion := {
  pa_credential_id : bytes;
  pa_user_handle : bytes;
  pa_authenticator_data : bytes;
  pa_signature_der : bytes;
}.

Record PasskeyRecord := {
  ps_id : bytes;
  ps_revision : Z;
  ps_created_at_ms : Z;
  ps_signature_counter : Z;
  ps_creation_state : PasskeyCreationState;
  ps_rp_id : bytes;
  ps_user_handle : bytes;
  ps_user_name : bytes;
  ps_user_display_name : bytes;
  ps_credential_id : bytes;
  ps_private_key : bytes;
}.
#[export] Instance PasskeyRecord_eq_dec : EqDecision PasskeyRecord.
Proof. solve_decision. Defined.

Inductive DecryptedRecord :=
  | DecryptedWebsiteAccount (account : WebsiteAccount)
  | DecryptedPasskey (passkey : PasskeyRecord).
#[export] Instance DecryptedRecord_eq_dec : EqDecision DecryptedRecord.
Proof. solve_decision. Defined.

Inductive RecordOperationError := RecordNotFound | RecordConflict | RecordCancelled | RecordFailed.
#[export] Instance RecordOperationError_eq_dec : EqDecision RecordOperationError.
Proof. solve_decision. Defined.

Inductive SnapshotAuthenticationError := SnapshotCancelled | SnapshotFailed.

Definition map_snapshot_operation_error (e : SnapshotAuthenticationError) : RecordOperationError :=
  match e with SnapshotCancelled => RecordCancelled | SnapshotFailed => RecordFailed end.

Inductive RecordMutationKind := MutationInsert | MutationUpdate | MutationDelete.
#[export] Instance RecordMutationKind_eq_dec : EqDecision RecordMutationKind.
Proof. solve_decision. Defined.

Record PreparedRecordMutation := {
  pm_kind : RecordMutationKind;
  pm_id : bytes;
  pm_envelope : option bytes;
  pm_manifest_envelope : bytes;
  pm_expected_generation : Z;
  pm_next_manifest : Manifest;
}.

(** ** Input validation *)

Definition validate_input_lengths (service_name permitted_origin username password : bytes) :
    result WebsiteAccountInputError unit :=
  fail_if ((len service_name >? MAX_SERVICE_NAME_BYTES)
    || (len permitted_origin >? MAX_ORIGIN_BYTES)
    || (len username >? MAX_USERNAME_BYTES)
    || (len password >? MAX_PASSWORD_BYTES)) FieldTooLarge.

(** [str::trim_end_matches('.')] and [str::to_ascii_lowercase]. *)
Fixpoint trim_start_dots (l : bytes) : bytes :=
  match l with
  | c :: rest => if bool_decide (c = x2e) then trim_start_dots rest else l
  | [] => []
  end.
Definition trim_end_dots (l : bytes) : bytes := rev (trim_start_dots (rev l)).
Definition ascii_lower (c : byte) : byte :=
  let n := Z_of_byte c in
  if (0x41 <=? n) && (n <=? 0x5A) then byte_of_Z (n + 0x20) else c.

Section validation.
Context `{UrlCrate}.

Definition normalize_origin (value : bytes) : result WebsiteAccountInputError bytes :=
  fail_if (len value >? MAX_ORIGIN_BYTES) FieldTooLarge;;
  parsed ← ok_or (url_parse value) InvalidOrigin;
  fail_if (negb (bool_decide (url_scheme parsed = str "http")
                 || bool_decide (url_scheme parsed = str "https"))
    || bool_decide (url_host_str parsed = None)
    || negb (is_empty (url_username parsed))
    || bool_decide (url_password parsed ≠ None)
    || bool_decide (url_query parsed ≠ None)
    || bool_decide (url_fragment parsed ≠ None)
    || bool_decide (url_path parsed ≠ str "/")) InvalidOrigin;;
  let normalized := url_origin parsed in
  fail_if (bool_decide (normalized = str "null") || (len normalized >? MAX_ORIGIN_BYTES)) InvalidOrigin;;
  mret normalized.

Definition normalize_rp_id (value : bytes) : result PasskeyInputError bytes :=
  fail_if (is_empty value || (len value >? MAX_PASSKEY_RP_ID_BYTES) || has_control value)
    (if len value >? MAX_PASSKEY_RP_ID_BYTES then PasskeyFieldTooLarge else InvalidRpId);;
  parsed ← ok_or (url_parse (str "https://" ++ value)) InvalidRpId;
  fail_if (bool_decide (url_host_str parsed = None)
    || negb (is_empty (url_username parsed))
    || bool_decide (url_password parsed ≠ None)
    || bool_decide (url_port parsed ≠ None)
    || bool_decide (url_query parsed ≠ None)
    || bool_decide (url_fragment parsed ≠ None)
    || bool_decide (url_path parsed ≠ str "/")) InvalidRpId;;
  host ← ok_or (url_host_str parsed) InvalidRpId;
  let host := ascii_lower <$> trim_end_dots host in
  fail_if (is_empty host || (len host >? MAX_PASSKEY_RP_ID_BYTES)
    || bool_decide (last value = Some x2e)) InvalidRpId;;
  mret host.

Definition WebsiteAccountInput_new (service_name permitted_origin username password : bytes) :
    result WebsiteAccountInputError WebsiteAccountInput :=
  validate_input_lengths service_name permitted_origin username password;;
  fail_if (is_empty service_name || has_control service_name) InvalidServiceName;;
  permitted_origin ← normalize_origin permitted_origin;
  mret {| in_service_name := service_name; in_permitted_origin := permitted_origin;
          in_username := username; in_password := password |}.

Definition PasskeyInput_new (rp_id user_handle user_name user_display_name : bytes) :
    result PasskeyInputError PasskeyInput :=
  fail_if ((len rp_id >? MAX_PASSKEY_RP_ID_BYTES)
    || (len user_handle >? MAX_PASSKEY_USER_HANDLE_BYTES)
    || (len user_name >? MAX_PASSKEY_USER_NAME_BYTES)
    || (len user_display_name >? MAX_PASSKEY_USER_DISPLAY_NAME_BYTES)) PasskeyFieldTooLarge;;
  fail_if (is_empty user_handle || is_empty user_name || is_empty user_display_name
    || has_control user_name || has_control user_display_name) InvalidUser;;
  normalized_rp_id ← normalize_rp_id rp_id;
  fail_if (bool_decide (normalized_rp_id ≠ rp_id)) InvalidRpId;;
  mret {| pi_rp_id := normalized_rp_id; pi_user_handle := user_handle; pi_user_name := user_name;
          pi_user_display_name := user_display_name |}.

(** [BrowserOrigin::parse] of [browser_origin.rs]; the value is its text. *)
Inductive BrowserOriginError := browser_origin_error.
Definition BrowserOrigin_parse (value : bytes) : result BrowserOriginError bytes :=
  fail_if (len value >? MAX_ORIGIN_BYTES) browser_origin_error;;
  parsed ← ok_or (url_parse value) browser_origin_error;
  fail_if (bool_decide (url_scheme parsed ≠ str "https") || bool_decide (url_origin parsed ≠ value))
    browser_origin_error;;
  mret value.
End validation.

(** ** Decryption of rows *)

Section store.
Context `{Minicbor, Crypto, UrlCrate}.

Definition derive_record_key (vault : UnlockedVault) (record_id : bytes) :
    result RecordOperationError bytes :=
  map_err (λ _, RecordFailed)
    (derive_key (uv_vault_root_key vault) (vault_id vault)
       (RECORD_LABEL_PREFIX ++ record_id ++ to_be_bytes 4 (key_epoch vault))).

Definition decrypt_website_account_plaintext (id plaintext : bytes) :
    result SnapshotAuthenticationError DecryptedRecord :=
  decoded ← map_err (λ _, SnapshotFailed) (WebsiteAccountPlaintext_decode plaintext);
  normalized ← map_err (λ _, SnapshotFailed) (normalize_origin (wa_permitted_origin decoded));
  fail_if (bool_decide (normalized ≠ wa_permitted_origin decoded)) SnapshotFailed;;
  mret (DecryptedWebsiteAccount
    {| ac_id := id; ac_revision := wa_revision decoded; ac_created_at_ms := wa_created_at_ms decoded;
       ac_modified_at_ms := wa_modified_at_ms decoded; ac_service_name := wa_service_name decoded;
       ac_permitted_origin := wa_permitted_origin decoded; ac_username := wa_username decoded;
       ac_password := wa_password decoded |}).

Definition decrypt_passkey_plaintext (id plaintext : bytes) :
    result SnapshotAuthenticationError DecryptedRecord :=
  decoded ← map_err (λ _, SnapshotFailed) (PasskeyPlaintext_decode plaintext);
  normalized ← map_err (λ _, SnapshotFailed) (normalize_rp_id (pk_rp_id decoded));
  fail_if (bool_decide (normalized ≠ pk_rp_id decoded)) SnapshotFailed;;
  fail_if (negb (p256_scalar (pk_private_key decoded))) SnapshotFailed;;
  mret (DecryptedPasskey
    {| ps_id := id; ps_revision := pk_revision decoded; ps_created_at_ms := pk_created_at_ms decoded;
       ps_signature_counter := pk_signature_counter decoded;
       ps_creation_state := pk_creation_state decoded; ps_rp_id := pk_rp_id decoded;
       ps_user_handle := pk_user_handle decoded; ps_user_name := pk_user_name decoded;
       ps_user_display_name := pk_user_display_name decoded;
       ps_credential_id := pk_credential_id decoded; ps_private_key := pk_private_key decoded |}).

Definition decrypt_record (vault : UnlockedVault) (record : EncryptedRecord) :
    result SnapshotAuthenticationError DecryptedRecord :=
  envelope ← map_err (λ _, SnapshotFailed) (RecordEnvelope_decode (er_envelope record));
  fail_if (negb (re_key_epoch envelope =? key_epoch vault)) SnapshotFailed;;
  record_key ← map_err (λ _, SnapshotFailed) (derive_record_key vault (er_id record));
  let aad := encode_record_aad (vault_id vault) (er_id record) (key_epoch vault) in
  plaintext ← map_err (λ _, SnapshotFailed)
    (decrypt_bytes record_key (re_nonce envelope) (re_ciphertext envelope) aad);
  type ← map_err (λ _, SnapshotFailed) (record_type plaintext);
  match type with
  | RecordWebsiteAccount => decrypt_website_account_plaintext (er_id record) plaintext
  | RecordPasskey => decrypt_passkey_plaintext (er_id record) plaintext
  end.

Definition decrypt_manifest (vault : UnlockedVault) (envelope_bytes : bytes) :
    result RecordOperationError Manifest :=
  envelope ← map_err (λ _, RecordFailed) (ManifestEnvelope_decode envelope_bytes);
  manifest_key ← map_err (λ _, RecordFailed)
    (derive_manifest_key (uv_vault_root_key vault) (vault_id vault) (key_epoch vault));
  let aad := encode_manifest_aad (uv_header vault) (en_nonce envelope) in
  plaintext ← map_err (λ _, RecordFailed)
    (decrypt_bytes manifest_key (en_nonce envelope) (en_ciphertext envelope) aad);
  map_err (λ _, RecordFailed) (Manifest_decode plaintext).

Definition authenticate_snapshot_metadata (vault : UnlockedVault)
    (header_bytes manifest_envelope_bytes : bytes) : result RecordOperationError unit :=
  header ← map_err (λ _, RecordFailed) (VaultHeader_decode header_bytes);
  fail_if (bool_decide (header ≠ uv_header vault)) RecordFailed;;
  manifest ← decrypt_manifest vault manifest_envelope_bytes;
  fail_if (bool_decide (manifest ≠ uv_manifest vault)) RecordFailed.

(** The manifest entry that commits to a row. *)
Definition commitment_of (r : EncryptedRecord) : ManifestEntry :=
  {| me_record_id := er_id r; me_envelope_digest := sha256 (er_envelope r) |}.

Section world.
Context {W : Type} `{Env W}.

(** The loop of [visit_authenticated_records]; [visit] updates the variables
    that the closure captures. *)
Fixpoint visit_pairs {A} (vault : UnlockedVault) (should_cancel : W → bool * W)
    (visit : DecryptedRecord → A → A) (pairs : list (EncryptedRecord * ManifestEntry)) (acc : A) :
    stm W SnapshotAuthenticationError A :=
  match pairs with
  | [] => mret acc
  | (record, commitment) :: pairs =>
      check_cancelled should_cancel SnapshotCancelled;;
      of_result (fail_if (bool_decide (er_id record ≠ me_record_id commitment)
        || bool_decide (sha256 (er_envelope record) ≠ me_envelope_digest commitment)) SnapshotFailed);;
      decrypted ← of_result (decrypt_record vault record);
      visit_pairs vault should_cancel visit pairs (visit decrypted acc)
  end.

Definition visit_authenticated_records {A} (vault : UnlockedVault) (records : list EncryptedRecord)
    (should_cancel : W → bool * W) (visit : DecryptedRecord → A → A) (acc : A) :
    stm W SnapshotAuthenticationError A :=
  of_result (fail_if (negb (len records =? len (mf_entries (uv_manifest vault)))
    || (len records >? MAX_RECORDS)) SnapshotFailed);;
  of_result (fail_if (adjacent_any (λ a b, bytes_geb (er_id a) (er_id b)) records) SnapshotFailed);;
  visit_pairs vault should_cancel visit (zip records (mf_entries (uv_manifest vault))) acc.

Definition authenticate_records (vault : UnlockedVault) (records : list EncryptedRecord) :
    stm W UnlockError unit :=
  map_err_st (λ e, match e with SnapshotCancelled => UnlockCancelled | SnapshotFailed => UnlockFailed end)
    (visit_authenticated_records vault records poll_cancelled (λ _ u, u) tt);;
  check_cancelled poll_cancelled UnlockCancelled.

Definition authenticate_records_only_with_check (vault : UnlockedVault)
    (records : list EncryptedRecord) (should_cancel : W → bool * W) : stm W RecordOperationError unit :=
  map_err_st map_snapshot_operation_error
    (visit_authenticated_records vault records should_cancel (λ _ u, u) tt).

(** ** Reading *)

(** [authenticate_snapshot_metadata(..)?] and a visit of the rows. *)
Definition read_snapshot {A} (vault : UnlockedVault) (header_bytes manifest_bytes : bytes)
    (records : list EncryptedRecord) (should_cancel : W → bool * W) (visit : DecryptedRecord → A → A)
    (acc : A) : stm W RecordOperationError A :=
  of_result (authenticate_snapshot_metadata vault header_bytes manifest_bytes);;
  map_err_st map_snapshot_operation_error
    (visit_authenticated_records vault records should_cancel visit acc).

Definition list_website_accounts (vault : UnlockedVault) (header_bytes manifest_bytes : bytes)
    (records : list EncryptedRecord) : stm W RecordOperationError (list WebsiteAccount) :=
  read_snapshot vault header_bytes manifest_bytes records never_cancelled
    (λ record accounts,
       match record with
       | DecryptedWebsiteAccount account => accounts ++ [account]
       | DecryptedPasskey _ => accounts
       end) [].

(** The captured variables [index], [accounts] and [has_more]. *)
Definition page_visit (offset end_ : Z) (record : DecryptedRecord)
    (acc : Z * list WebsiteAccount * bool) : Z * list WebsiteAccount * bool :=
  let '(index, accounts, has_more) := acc in
  match record with
  | DecryptedWebsiteAccount account =>
      (saturating_add 64 index 1,
       if (offset <=? index) && (index <? end_) then accounts ++ [account] else accounts,
       if (offset <=? index) && (index <? end_) then has_more
       else if end_ <=? index then true else has_more)
  | DecryptedPasskey _ => acc
  end.

Definition list_website_account_page_with_check (vault : UnlockedVault)
    (header_bytes manifest_bytes : bytes) (records : list EncryptedRecord) (offset limit : Z)
    (should_cancel : W → bool * W) : stm W RecordOperationError (list WebsiteAccount * bool) :=
  of_result (fail_if ((limit =? 0) || (limit >? MAX_WEBSITE_ACCOUNT_PAGE_SIZE)) RecordFailed);;
  of_result (authenticate_snapshot_metadata vault header_bytes manifest_bytes);;
  end_ ← of_result (ok_or (checked_add 64 offset limit) RecordFailed);
  acc ← map_err_st map_snapshot_operation_error
    (visit_authenticated_records vault records should_cancel (page_visit offset end_) (0, [], false));
  let '(_, accounts, has_more) := acc in mret (accounts, has_more).

Definition account_visit (id : bytes) (record : DecryptedRecord) (found : option WebsiteAccount) :
    option WebsiteAccount :=
  match record with
  | DecryptedWebsiteAccount account => if bool_decide (ac_id account = id) then Some account else found
  | DecryptedPasskey _ => found
  end.

Definition get_website_account_with_check (vault : UnlockedVault) (header_bytes manifest_bytes : bytes)
    (records : list EncryptedRecord) (id : bytes) (should_cancel : W → bool * W) :
    stm W RecordOperationError WebsiteAccount :=
  found ← read_snapshot vault header_bytes manifest_bytes records should_cancel (account_visit id) None;
  of_result (ok_or found RecordNotFound).

(** The captured variables [found] and [ambiguous]. *)
Definition unique_visit (origin : bytes) (record : DecryptedRecord)
    (acc : option WebsiteAccount * bool) : option WebsiteAccount * bool :=
  let '(found, ambiguous) := acc in
  match record with
  | DecryptedWebsiteAccount account =>
      if bool_decide (ac_permitted_origin account = origin) && negb ambiguous then
        match found with
        | Some _ => (None, true)
        | None => (Some account, ambiguous)
        end
      else acc
  | DecryptedPasskey _ => acc
  end.

Definition unique_browser_account_with_check (vault : UnlockedVault)
    (header_bytes manifest_bytes : bytes) (records : list EncryptedRecord) (origin : bytes)
    (should_cancel : W → bool * W) : stm W RecordOperationError (option WebsiteAccount) :=
  acc ← read_snapshot vault header_bytes manifest_bytes records should_cancel (unique_visit origin)
    (None, false);
  mret acc.1.

(** ** Preparing a mutation *)

(** [(0..attempts).find_map(|_| random_array(entropy).ok().filter(accept))]. *)
Fixpoint find_random (attempts length : nat) (accept : bytes → bool) :
    stm W RecordOperationError bytes :=
  match attempts with
  | O => of_result (Err RecordFailed)
  | S attempts => λ w,
      match random_array length w with
      | (Ok candidate, w) =>
          if accept candidate then (Ok candidate, w) else find_random attempts length accept w
      | (_, w) => find_random attempts length accept w
      end
  end.

Definition allocate_record_id (vault : UnlockedVault) : stm W RecordOperationError bytes :=
  find_random MAX_RECORD_ID_ATTEMPTS 16
    (λ candidate, negb (existsb (λ entry, bool_decide (me_record_id entry = candidate))
                          (mf_entries (uv_manifest vault)))).

Definition allocate_credential_id (existing : gset bytes) : stm W RecordOperationError bytes :=
  find_random MAX_RECORD_ID_ATTEMPTS PASSKEY_CREDENTIAL_ID_BYTES
    (λ candidate, bool_decide (candidate ≠ zeros 32) && bool_decide (candidate ∉ existing)).

Definition random_nonce : stm W RecordOperationError bytes :=
  map_err_st (λ _, RecordFailed) (random_array 24).

Definition prepare_manifest_mutation (vault : UnlockedVault) (kind : RecordMutationKind) (id : bytes)
    (envelope : option bytes) (entries : list ManifestEntry) (committed_at_ms : Z) :
    stm W RecordOperationError PreparedRecordMutation :=
  next_manifest ← of_result (map_err (λ _, RecordFailed)
    (Manifest_next_generation (uv_manifest vault) committed_at_ms entries));
  manifest_plaintext ← of_result (map_err (λ _, RecordFailed) (Manifest_encode next_manifest));
  nonce ← random_nonce;
  manifest_key ← of_result (map_err (λ _, RecordFailed)
    (derive_manifest_key (uv_vault_root_key vault) (vault_id vault) (key_epoch vault)));
  let aad := encode_manifest_aad (uv_header vault) nonce in
  ciphertext ← of_result (map_err (λ _, RecordFailed)
    (encrypt_bytes manifest_key nonce manifest_plaintext aad));
  manifest_envelope ← of_result (map_err (λ _, RecordFailed)
    (value ← ManifestEnvelope_new nonce ciphertext; ManifestEnvelope_encode value));
  mret {| pm_kind := kind; pm_id := id; pm_envelope := envelope;
          pm_manifest_envelope := manifest_envelope;
          pm_expected_generation := generation vault; pm_next_manifest := next_manifest |}.

Definition prepare_plaintext_upsert (vault : UnlockedVault) (kind : RecordMutationKind) (id : bytes)
    (plaintext_bytes : bytes) (committed_at_ms : Z) : stm W RecordOperationError PreparedRecordMutation :=
  nonce ← random_nonce;
  record_key ← of_result (derive_record_key vault id);
  let aad := encode_record_aad (vault_id vault) id (key_epoch vault) in
  ciphertext ← of_result (map_err (λ _, RecordFailed) (encrypt_bytes record_key nonce plaintext_bytes aad));
  envelope ← of_result (map_err (λ _, RecordFailed)
    (value ← RecordEnvelope_new (key_epoch vault) nonce ciphertext; RecordEnvelope_encode value));
  let entry := {| me_record_id := id; me_envelope_digest := sha256 envelope |} in
  let entries := mf_entries (uv_manifest vault) in
  entries ← of_result (match kind with
    | MutationInsert => Ok (entries ++ [entry])
    | MutationUpdate =>
        ok_or (replace_first (λ e, bool_decide (me_record_id e = id)) entry entries) RecordNotFound
    | MutationDelete => Err RecordFailed
    end);
  prepare_manifest_mutation vault kind id (Some envelope) (sort_by me_record_id entries) committed_at_ms.

Definition prepare_upsert (vault : UnlockedVault) (kind : RecordMutationKind) (id : bytes)
    (revision created_at_ms : Z) (input : WebsiteAccountInput) (committed_at_ms : Z) :
    stm W RecordOperationError PreparedRecordMutation :=
  plaintext ← of_result (map_err (λ _, RecordFailed)
    (WebsiteAccountPlaintext_new revision created_at_ms committed_at_ms (in_service_name input)
       (in_permitted_origin input) (in_username input) (in_password input)));
  plaintext_bytes ← of_result (map_err (λ _, RecordFailed) (WebsiteAccountPlaintext_encode plaintext));
  prepare_plaintext_upsert vault kind id plaintext_bytes committed_at_ms.

(** [entries.retain(|entry| entry.record_id() != id)]. *)
Definition without_entry (id : bytes) (entries : list ManifestEntry) : list ManifestEntry :=
  filter (λ e, me_record_id e ≠ id) entries.

(** *** Website accounts *)

Definition prepare_add_with_entropy (vault : UnlockedVault) (input : WebsiteAccountInput)
    (committed_at_ms : Z) : stm W RecordOperationError PreparedRecordMutation :=
  of_result (fail_if (MAX_RECORDS <=? len (mf_entries (uv_manifest vault))) RecordFailed);;
  id ← allocate_record_id vault;
  prepare_upsert vault MutationInsert id 1 committed_at_ms input committed_at_ms.

Definition prepare_add_website_account_with_check (vault : UnlockedVault)
    (header_bytes manifest_bytes : bytes) (records : list EncryptedRecord) (input : WebsiteAccountInput)
    (committed_at_ms : Z) (should_cancel : W → bool * W) :
    stm W RecordOperationError PreparedRecordMutation :=
  of_result (authenticate_snapshot_metadata vault header_bytes manifest_bytes);;
  authenticate_records_only_with_check vault records should_cancel;;
  prepare_add_with_entropy vault input committed_at_ms.

Definition prepare_update_website_account_with_check (vault : UnlockedVault)
    (header_bytes manifest_bytes : bytes) (records : list EncryptedRecord) (id : bytes)
    (input : WebsiteAccountInput) (committed_at_ms : Z) (should_cancel : W → bool * W) :
    stm W RecordOperationError PreparedRecordMutation :=
  account ← get_website_account_with_check vault header_bytes manifest_bytes records id should_cancel;
  revision ← of_result (ok_or (checked_add 64 (ac_revision account) 1) RecordFailed);
  prepare_upsert vault MutationUpdate id revision (ac_created_at_ms account) input committed_at_ms.

Definition prepare_delete_website_account_with_check (vault : UnlockedVault)
    (header_bytes manifest_bytes : bytes) (records : list EncryptedRecord) (id : bytes)
    (committed_at_ms : Z) (should_cancel : W → bool * W) :
    stm W RecordOperationError PreparedRecordMutation :=
  get_website_account_with_check vault header_bytes manifest_bytes records id should_cancel;;
  let entries := mf_entries (uv_manifest vault) in
  let retained := without_entry id entries in
  of_result (fail_if (len retained =? len entries) RecordNotFound);;
  prepare_manifest_mutation vault MutationDelete id None retained committed_at_ms.

(** *** Passkeys *)

Definition has_passkey_capacity (existing : Z) : bool := existing <? MAX_PASSKEY_CREDENTIALS.

Definition passkey_manifest_time (manifest_committed_at_ms wall_clock_ms : Z) : Z :=
  Z.max wall_clock_ms manifest_committed_at_ms.
Definition passkey_update_time (created_at_ms manifest_committed_at_ms wall_clock_ms : Z) : Z :=
  Z.max (passkey_manifest_time manifest_committed_at_ms wall_clock_ms) created_at_ms.

Fixpoint generate_signing_key (attempts : nat) : stm W RecordOperationError bytes :=
  match attempts with
  | O => of_result (Err RecordFailed)
  | S attempts =>
      candidate ← map_err_st (λ _, RecordFailed) (random_array PASSKEY_PRIVATE_KEY_BYTES);
      if p256_scalar candidate then mret candidate else generate_signing_key attempts
  end.

(** The captured variables [existing_credential_ids], [invalid] and [conflict]. *)
Definition exclusion_visit (rp_id : bytes) (excluded : list bytes) (record : DecryptedRecord)
    (acc : gset bytes * bool * bool) : gset bytes * bool * bool :=
  let '(existing, invalid, conflict) := acc in
  match record with
  | DecryptedPasskey passkey =>
      if bool_decide (ps_credential_id passkey ∈ existing) then (existing, true, conflict)
      else
        ({[ps_credential_id passkey]} ∪ existing, invalid,
         if bool_decide (ps_rp_id passkey = rp_id) && bool_decide (ps_credential_id passkey ∈ excluded)
         then true else conflict)
  | DecryptedWebsiteAccount _ => acc
  end.

Definition prepare_add_passkey_with_check (vault : UnlockedVault) (header_bytes manifest_bytes : bytes)
    (records : list EncryptedRecord) (input : PasskeyInput) (excluded_credential_ids : list bytes)
    (creation_state : PasskeyCreationState) (committed_at_ms : Z) (should_cancel : W → bool * W) :
    stm W RecordOperationError (PreparedRecordMutation * PasskeyCredential) :=
  acc ← read_snapshot vault header_bytes manifest_bytes records should_cancel
    (exclusion_visit (pi_rp_id input) excluded_credential_ids) (∅, false, false);
  let '(existing, invalid, conflict) := acc in
  of_result (fail_if (invalid || negb (has_passkey_capacity (Z.of_nat (size existing)))) RecordFailed);;
  of_result (fail_if conflict RecordConflict);;
  of_result (fail_if (MAX_RECORDS <=? len (mf_entries (uv_manifest vault))) RecordFailed);;
  let committed_at_ms := passkey_manifest_time (mf_committed_at_ms (uv_manifest vault)) committed_at_ms in
  id ← allocate_record_id vault;
  credential_id ← allocate_credential_id existing;
  private_key ← generate_signing_key MAX_RECORD_ID_ATTEMPTS;
  of_result (fail_if (negb (p256_scalar private_key)) RecordFailed);;
  let public_key := p256_point private_key in
  of_result (fail_if (negb (Nat.eqb (length public_key) PASSKEY_PUBLIC_KEY_BYTES)) RecordFailed);;
  plaintext ← of_result (map_err (λ _, RecordFailed)
    (PasskeyPlaintext_new 1 committed_at_ms committed_at_ms 0 creation_state (pi_rp_id input)
       (pi_user_handle input) (pi_user_name input) (pi_user_display_name input) credential_id private_key));
  plaintext_bytes ← of_result (map_err (λ _, RecordFailed) (PasskeyPlaintext_encode plaintext));
  mutation ← prepare_plaintext_upsert vault MutationInsert id plaintext_bytes committed_at_ms;
  mret (mutation,
        {| pc_credential_id := credential_id; pc_user_handle := pi_user_handle input;
           pc_public_key := public_key |}).

(** The captured variables [credential_ids], [pending] and [invalid]. *)
Definition pending_visit (record : DecryptedRecord) (acc : gset bytes * list bytes * bool) :
    gset bytes * list bytes * bool :=
  let '(credential_ids, pending, invalid) := acc in
  match record with
  | DecryptedPasskey passkey =>
      if bool_decide (ps_credential_id passkey ∈ credential_ids) then (credential_ids, pending, true)
      else
        let credential_ids := {[ps_credential_id passkey]} ∪ credential_ids in
        if bool_decide (ps_creation_state passkey = Pending) then
          if MAX_PASSKEY_CREDENTIALS <=? len pending then (credential_ids, pending, true)
          else (credential_ids, pending ++ [ps_credential_id passkey], invalid)
        else (credential_ids, pending, invalid)
  | DecryptedWebsiteAccount _ => acc
  end.

Definition list_pending_passkey_credential_ids_with_check (vault : UnlockedVault)
    (header_bytes manifest_bytes : bytes) (records : list EncryptedRecord)
    (should_cancel : W → bool * W) : stm W RecordOperationError (list bytes) :=
  acc ← read_snapshot vault header_bytes manifest_bytes records should_cancel pending_visit (∅, [], false);
  let '(_, pending, invalid) := acc in
  of_result (fail_if invalid RecordFailed);;
  mret (sort_by id pending).

(** The captured variables [found] and [duplicate]. *)
Definition credential_visit (credential_id : bytes) (record : DecryptedRecord)
    (acc : option PasskeyRecord * bool) : option PasskeyRecord * bool :=
  let '(found, duplicate) := acc in
  match record with
  | DecryptedPasskey passkey =>
      if bool_decide (ps_credential_id passkey = credential_id) then
        (Some passkey, match found with Some _ => true | None => duplicate end)
      else acc
  | DecryptedWebsiteAccount _ => acc
  end.

(** The visit shared by confirmation, assertion and deletion, up to
    [found.ok_or(NotFound)?]. *)
Definition find_passkey (vault : UnlockedVault) (header_bytes manifest_bytes : bytes)
    (records : list EncryptedRecord) (credential_id : bytes) (should_cancel : W → bool * W) :
    stm W RecordOperationError PasskeyRecord :=
  acc ← read_snapshot vault header_bytes manifest_bytes records should_cancel
    (credential_visit credential_id) (None, false);
  let '(found, duplicate) := acc in
  of_result (fail_if duplicate RecordFailed);;
  of_result (ok_or found RecordNotFound).

Definition prepare_confirm_passkey_creation_with_check (vault : UnlockedVault)
    (header_bytes manifest_bytes : bytes) (records : list EncryptedRecord) (credential_id : bytes)
    (committed_at_ms : Z) (should_cancel : W → bool * W) :
    stm W RecordOperationError PreparedRecordMutation :=
  passkey ← find_passkey vault header_bytes manifest_bytes records credential_id should_cancel;
  of_result (fail_if (bool_decide (ps_creation_state passkey ≠ Pending)) RecordConflict);;
  next_revision ← of_result (ok_or (checked_add 64 (ps_revision passkey) 1) RecordConflict);
  let committed_at_ms := passkey_update_time (ps_created_at_ms passkey)
    (mf_committed_at_ms (uv_manifest vault)) committed_at_ms in
  plaintext ← of_result (map_err (λ _, RecordFailed)
    (PasskeyPlaintext_new next_revision (ps_created_at_ms passkey) committed_at_ms
       (ps_signature_counter passkey) Confirmed (ps_rp_id passkey) (ps_user_handle passkey)
       (ps_user_name passkey) (ps_user_display_name passkey) (ps_credential_id passkey)
       (ps_private_key passkey)));
  plaintext_bytes ← of_result (map_err (λ _, RecordFailed) (PasskeyPlaintext_encode plaintext));
  prepare_plaintext_upsert vault MutationUpdate (ps_id passkey) plaintext_bytes committed_at_ms.

Definition summary_of (passkey : PasskeyRecord) : PasskeySummary :=
  {| sm_credential_id := ps_credential_id passkey; sm_rp_id := ps_rp_id passkey;
     sm_user_handle := ps_user_handle passkey; sm_user_name := ps_user_name passkey;
     sm_user_display_name := ps_user_display_name passkey |}.

(** The captured variables [credential_ids], [passkeys] and [invalid] of the
    two listings, which differ in the passkeys they select. *)
Definition summary_visit (selected : PasskeyRecord → bool) (record : DecryptedRecord)
    (acc : gset bytes * list PasskeySummary * bool) : gset bytes * list PasskeySummary * bool :=
  let '(credential_ids, passkeys, invalid) := acc in
  match record with
  | DecryptedPasskey passkey =>
      if bool_decide (ps_credential_id passkey ∈ credential_ids) then (credential_ids, passkeys, true)
      else
        let credential_ids := {[ps_credential_id passkey]} ∪ credential_ids in
        if selected passkey then
          if MAX_PASSKEY_ASSERTION_CANDIDATES <=? len passkeys then (credential_ids, passkeys, true)
          else (credential_ids, passkeys ++ [summary_of passkey], invalid)
        else (credential_ids, passkeys, invalid)
  | DecryptedWebsiteAccount _ => acc
  end.

Definition list_passkeys_for_assertion_with_check (vault : UnlockedVault)
    (header_bytes manifest_bytes : bytes) (records : list EncryptedRecord) (rp_id : bytes)
    (allowed_credential_ids : option (list bytes)) (should_cancel : W → bool * W) :
    stm W RecordOperationError (list PasskeySummary) :=
  let allow_list_present := bool_decide (is_Some allowed_credential_ids) in
  let allowed := default [] allowed_credential_ids in
  of_result (fail_if (len allowed >? MAX_PASSKEY_ASSERTION_CANDIDATES) RecordConflict);;
  expected_rp_id ← of_result (map_err (λ _, RecordConflict) (normalize_rp_id rp_id));
  of_result (fail_if (bool_decide (expected_rp_id ≠ rp_id)) RecordConflict);;
  let selected passkey :=
    bool_decide (ps_creation_state passkey = Confirmed)
    && bool_decide (ps_rp_id passkey = expected_rp_id)
    && (negb allow_list_present || bool_decide (ps_credential_id passkey ∈ allowed)) in
  acc ← read_snapshot vault header_bytes manifest_bytes records should_cancel (summary_visit selected)
    (∅, [], false);
  let '(_, passkeys, invalid) := acc in
  of_result (fail_if invalid RecordFailed);;
  mret passkeys.

(** [sort_by] relying party, then user name, then credential identifier. *)
Definition summary_cmp (a b : PasskeySummary) : comparison :=
  match bytes_cmp (sm_rp_id a) (sm_rp_id b) with
  | Eq => match bytes_cmp (sm_user_name a) (sm_user_name b) with
          | Eq => bytes_cmp (sm_credential_id a) (sm_credential_id b)
          | c => c
          end
  | c => c
  end.
Definition summary_le (a b : PasskeySummary) : Prop := summary_cmp a b ≠ Gt.
#[export] Instance summary_le_dec a b : Decision (summary_le a b).
Proof. unfold summary_le. apply _. Defined.

Definition list_passkeys_with_check (vault : UnlockedVault) (header_bytes manifest_bytes : bytes)
    (records : list EncryptedRecord) (should_cancel : W → bool * W) :
    stm W RecordOperationError (list PasskeySummary) :=
  acc ← read_snapshot vault header_bytes manifest_bytes records should_cancel
    (summary_visit (λ passkey, negb (bool_decide (ps_creation_state passkey = Pending)))) (∅, [], false);
  let '(_, passkeys, invalid) := acc in
  of_result (fail_if invalid RecordFailed);;
  mret (merge_sort summary_le passkeys).

Definition authenticator_data_of (rp_id : bytes) (counter : Z) : bytes :=
  sha256 rp_id
  ++ [byte_of_Z (Z.lor (Z.lor PASSKEY_USER_PRESENT PASSKEY_USER_VERIFIED) PASSKEY_BACKUP_ELIGIBLE)]
  ++ to_be_bytes 4 counter.

Definition prepare_passkey_assertion_with_check (vault : UnlockedVault)
    (header_bytes manifest_bytes : bytes) (records : list EncryptedRecord)
    (rp_id credential_id client_data_hash : bytes) (committed_at_ms : Z) (should_cancel : W → bool * W) :
    stm W RecordOperationError (PreparedRecordMutation * PasskeyAssertion) :=
  of_result (authenticate_snapshot_metadata vault header_bytes manifest_bytes);;
  expected_rp_id ← of_result (map_err (λ _, RecordConflict) (normalize_rp_id rp_id));
  acc ← map_err_st map_snapshot_operation_error
    (visit_authenticated_records vault records should_cancel (credential_visit credential_id) (None, false));
  let '(found, duplicate) := acc in
  of_result (fail_if duplicate RecordFailed);;
  passkey ← of_result (ok_or found RecordNotFound);
  of_result (fail_if (bool_decide (ps_creation_state passkey ≠ Confirmed)) RecordNotFound);;
  of_result (fail_if (bool_decide (ps_rp_id passkey ≠ expected_rp_id)) RecordConflict);;
  next_revision ← of_result (ok_or (checked_add 64 (ps_revision passkey) 1) RecordConflict);
  next_counter ← of_result (ok_or (checked_add 32 (ps_signature_counter passkey) 1) RecordConflict);
  let authenticator_data := authenticator_data_of expected_rp_id next_counter in
  let signed_bytes := authenticator_data ++ client_data_hash in
  of_result (fail_if (negb (p256_scalar (ps_private_key passkey))) RecordFailed);;
  let signature_der := p256_sign (ps_private_key passkey) signed_bytes in
  let committed_at_ms := passkey_update_time (ps_created_at_ms passkey)
    (mf_committed_at_ms (uv_manifest vault)) committed_at_ms in
  plaintext ← of_result (map_err (λ _, RecordFailed)
    (PasskeyPlaintext_new next_revision (ps_created_at_ms passkey) committed_at_ms next_counter
       Confirmed (ps_rp_id passkey) (ps_user_handle passkey) (ps_user_name passkey)
       (ps_user_display_name passkey) (ps_credential_id passkey) (ps_private_key passkey)));
  plaintext_bytes ← of_result (map_err (λ _, RecordFailed) (PasskeyPlaintext_encode plaintext));
  mutation ← prepare_plaintext_upsert vault MutationUpdate (ps_id passkey) plaintext_bytes committed_at_ms;
  mret (mutation,
        {| pa_credential_id := credential_id; pa_user_handle := ps_user_handle passkey;
           pa_authenticator_data := authenticator_data; pa_signature_der := signature_der |}).

Definition prepare_delete_passkey_with_check (vault : UnlockedVault) (header_bytes manifest_bytes : bytes)
    (records : list EncryptedRecord) (credential_id : bytes) (committed_at_ms : Z)
    (should_cancel : W → bool * W) : stm W RecordOperationError PreparedRecordMutation :=
  passkey ← find_passkey vault header_bytes manifest_bytes records credential_id should_cancel;
  let committed_at_ms := passkey_manifest_time (mf_committed_at_ms (uv_manifest vault)) committed_at_ms in
  prepare_manifest_mutation vault MutationDelete (ps_id passkey) None
    (without_entry (ps_id passkey) (mf_entries (uv_manifest vault))) committed_at_ms.
End world.

(** ** Committing *)

Definition commit_record_mutation (mutation : PreparedRecordMutation) :
    stm UnlockedVault RecordOperationError bytes :=
  vault ← get;
  next ← of_result (
    if negb (generation vault =? pm_expected_generation mutation) then Err RecordFailed
    else
      next ← ok_or (checked_add 64 (pm_expected_generation mutation) 1) RecordFailed;
      fail_if (negb (mf_generation (pm_next_manifest mutation) =? next)) RecordFailed;;
      mret next);
  modify (λ v, {| uv_vault_root_key := uv_vault_root_key v; uv_header := uv_header v;
                  uv_manifest := pm_next_manifest mutation |});;
  mret (pm_id mutation).
End store.

(** ** Rows after a committed mutation ([apply_to_expected_records] of
    [crates/vault-agent/src/sqlite.rs]) *)

Inductive StorageError :=
  | StorageFilesystem | StorageIdentity | StorageSidecar | StorageSnapshot
  | StorageInvalidDatabaseHeader | StorageSqlite | StorageIntegrity | StorageSchema
  | StorageResourceLimit | StorageRandomness | StorageClock | StorageConflict | StorageAborted.
#[export] Instance StorageError_eq_dec : EqDecision StorageError.
Proof. solve_decision. Defined.

Definition apply_to_expected_records (records : list EncryptedRecord)
    (mutation : PreparedRecordMutation) : result StorageError (list EncryptedRecord) :=
  expected ←
    match pm_kind mutation with
    | MutationInsert =>
        envelope ← ok_or (pm_envelope mutation) StorageSchema;
        mret (records ++ [{| er_id := pm_id mutation; er_envelope := envelope |}])
    | MutationUpdate =>
        fail_if (negb (existsb (λ r, bool_decide (er_id r = pm_id mutation)) records)) StorageConflict;;
        envelope ← ok_or (pm_envelope mutation) StorageSchema;
        ok_or (replace_first (λ r, bool_decide (er_id r = pm_id mutation))
                 {| er_id := pm_id mutation; er_envelope := envelope |} records) StorageConflict
    | MutationDelete =>
        let expected := filter (λ r, er_id r ≠ pm_id mutation) records in
        fail_if (len expected =? len records) StorageConflict;;
        mret expected
    end;
  mret (sort_by er_id expected).

(** ** What an authenticated snapshot holds *)

Definition record_id_of (d : DecryptedRecord) : bytes :=
  match d with DecryptedWebsiteAccount a => ac_id a | DecryptedPasskey p => ps_id p end.

Section store_facts.
Context `{MinicborLaws, CryptoLaws, UrlCrate}.

(** A session whose key and clear parts are well formed. *)
Record UnlockedVault_wf (v : UnlockedVault) : Prop := {
  uw_key : length (uv_vault_root_key v) = 32%nat;
  uw_header : VaultHeader_wf (uv_header v);
  uw_manifest : Manifest_wf (uv_manifest v);
  uw_epoch : mf_key_epoch (uv_manifest v) = vh_key_epoch (uv_header v);
}.

(** The rows, in the order of their identifiers, are those the manifest commits
    to, and they decrypt to [ds]. *)
Record rows_hold (v : UnlockedVault) (rows : list EncryptedRecord) (ds : list DecryptedRecord) : Prop := {
  rh_commitments : commitment_of <$> rows = mf_entries (uv_manifest v);
  rh_sorted : StronglySorted (key_lt er_id) rows;
  rh_count : len rows ≤ MAX_RECORDS;
  rh_decrypt : Forall2 (λ r d, decrypt_record v r = Ok d) rows ds;
}.

Section visits.
Context {W : Type} `{Env W} {A : Type}.
Implicit Types (f : DecryptedRecord → A → A) (sc : W → bool * W).

Lemma visit_pairs_Ok v sc f rows : ∀ entries acc w a w',
  length rows = length entries →
  visit_pairs v sc f (zip rows entries) acc w = (Ok a, w') →
  commitment_of <$> rows = entries ∧
  ∃ ds, Forall2 (λ r d, decrypt_record v r = Ok d) rows ds ∧ a = foldl (λ acc d, f d acc) acc ds.
Proof.
  induction rows as [|r rows IH]; intros [|[i h] entries] acc w a w' Hl Hv; try done; simpl in Hv.
  { inv_stm Hv. split; [done|]. exists []. by split. }
  inv_stm Hv. simp_guards. simpl in *. injection Hl as Hl.
  edestruct IH as (He & ds & Hds & ->); [done..|].
  split; [by unfold commitment_of; f_equal; [congruence|]|].
  eexists (_ :: ds). split; [by constructor|done].
Qed.

Lemma visit_Ok v sc f rows acc w a w' :
  visit_authenticated_records v rows sc f acc w = (Ok a, w') →
  ∃ ds, rows_hold v rows ds ∧ a = foldl (λ acc d, f d acc) acc ds.
Proof.
  unfold visit_authenticated_records. intros Hv. inv_stm Hv. simp_guards.
  edestruct visit_pairs_Ok as (He & ds & Hds & ->); [|done|].
  { unfold len in *. lia. }
  exists ds. split; [|done]. split; try done.
  eapply adjacent_any_strongly; [|apply _|done]. intros; apply bytes_geb_false.
Qed.

Lemma visit_pairs_quiet v sc f rows ds : ∀ acc w,
  (∀ w, (sc w).1 = false) → Forall2 (λ r d, decrypt_record v r = Ok d) rows ds →
  ∃ w', visit_pairs v sc f (zip rows (commitment_of <$> rows)) acc w
    = (Ok (foldl (λ acc d, f d acc) acc ds), w').
Proof.
  intros acc w Hq Hd. revert acc w. induction Hd as [|r d rows ds Hr Hd IH]; intros acc w; [by eexists|].
  cbn [fmap list_fmap zip zip_with visit_pairs].
  specialize (Hq w). unfold check_cancelled, mbind, stm_bind.
  destruct (sc w) as [c w1]; simpl in Hq; subst c.
  unfold of_result. rewrite Hr, !bool_decide_false by auto. apply IH.
Qed.

Lemma visit_quiet v sc f rows ds acc w :
  (∀ w, (sc w).1 = false) → rows_hold v rows ds →
  ∃ w', visit_authenticated_records v rows sc f acc w = (Ok (foldl (λ acc d, f d acc) acc ds), w').
Proof.
  intros Hq [He Hs Hc Hd]. unfold visit_authenticated_records. rewrite <-He.
  assert (len (commitment_of <$> rows) = len rows) as -> by (unfold len; by rewrite length_fmap).
  rewrite Z.eqb_refl.
  rewrite (proj2 (adjacent_any_strongly _ (key_lt er_id) (λ a b, bytes_geb_false _ _) rows)) by done.
  unfold mbind, stm_bind, of_result. cbn [negb orb]. rewrite fail_if_small by done. simpl.
  by apply visit_pairs_quiet.
Qed.
End visits.

Lemma decrypt_record_id v r d : decrypt_record v r = Ok d → record_id_of d = er_id r.
Proof.
  unfold decrypt_record. intros Hd. inv_ok Hd. match goal with t : RecordType |- _ => destruct t end;
    unfold decrypt_website_account_plaintext, decrypt_passkey_plaintext in *;
    match goal with H : _ ≫= _ = Ok d |- _ => inv_ok H end; done.
Qed.

Lemma rows_ids v rows ds : rows_hold v rows ds → record_id_of <$> ds = er_id <$> rows.
Proof.
  intros [_ _ _ Hd]. induction Hd as [|r d rows ds Hr Hd IH]; [done|].
  cbn. f_equal; [by eapply decrypt_record_id|done].
Qed.

Lemma rows_hold_unique v rows ds ds' : rows_hold v rows ds → rows_hold v rows ds' → ds = ds'.
Proof.
  intros [_ _ _ Hd] [_ _ _ Hd']. revert ds' Hd'.
  induction Hd as [|r d rows ds Hr Hd IH]; intros ds' Hd'; inversion Hd'; simplify_eq/=; [done|].
  f_equal; [congruence|auto].
Qed.

(** The session with another manifest: the keys of manifest and rows depend
    on the root key and the header only. *)
Definition with_manifest (v : UnlockedVault) (m : Manifest) : UnlockedVault :=
  {| uv_vault_root_key := uv_vault_root_key v; uv_header := uv_header v; uv_manifest := m |}.

Lemma metadata_Ok v hdr man u :
  authenticate_snapshot_metadata v hdr man = Ok u ↔
    VaultHeader_decode hdr = Ok (uv_header v) ∧ decrypt_manifest v man = Ok (uv_manifest v).
Proof.
  unfold authenticate_snapshot_metadata. split.
  - intros Hm. inv_ok Hm. simp_guards. by subst.
  - intros [-> ->]. cbn [map_err mbind result_bind].
    rewrite (bool_decide_false (uv_header v ≠ _)) by auto. cbn [fail_if mbind result_bind].
    rewrite bool_decide_false by auto. by destruct u.
Qed.

Section mutations.
Context {W : Type} `{Env W, !EnvLaws W}.

Lemma random_nonce_Ok (w : W) n w' : random_nonce w = (Ok n, w') → length n = 24%nat.
Proof. unfold random_nonce. intros Hn. inv_stm Hn. by eapply random_array_length. Qed.

(** A prepared manifest is the next generation, sealed for this session. *)
Lemma prepare_manifest_mutation_Ok v kind id env es t (w : W) p w' :
  UnlockedVault_wf v → Forall ManifestEntry_typed es → u64 t →
  prepare_manifest_mutation v kind id env es t w = (Ok p, w') →
  pm_kind p = kind ∧ pm_id p = id ∧ pm_envelope p = env ∧ pm_expected_generation p = generation v
  ∧ Manifest_next_generation (uv_manifest v) t es = Ok (pm_next_manifest p)
  ∧ decrypt_manifest v (pm_manifest_envelope p) = Ok (pm_next_manifest p).
Proof.
  intros Hv Hes Ht Hp. unfold prepare_manifest_mutation in Hp. inv_stm Hp. split_and!; try done.
  match goal with H : random_nonce _ = _ |- _ => apply random_nonce_Ok in H as Hn end.
  assert (Manifest_wf x) as Hx by (by eapply Manifest_next_generation_wf; [apply uw_manifest| | |]).
  edestruct sealed_manifest_opens as (Hd & Hb & Hm); [exact Hx|exact Hn|done..|].
  unfold decrypt_manifest. simpl. rewrite Hd. cbn.
  match goal with H : derive_manifest_key _ _ _ = Ok _ |- _ => rewrite H end. cbn.
  rewrite Hb. cbn. by rewrite Hm.
Qed.

(** What a row opens to once its envelope and seal are checked. *)
Definition open_plaintext (id plaintext : bytes) : result SnapshotAuthenticationError DecryptedRecord :=
  type ← map_err (λ _, SnapshotFailed) (record_type plaintext);
  match type with
  | RecordWebsiteAccount => decrypt_website_account_plaintext id plaintext
  | RecordPasskey => decrypt_passkey_plaintext id plaintext
  end.

(** The manifest entries after an upsert. *)
Definition upserted (kind : RecordMutationKind) (e : ManifestEntry) (es es' : list ManifestEntry) : Prop :=
  match kind with
  | MutationInsert => es' = es ++ [e]
  | MutationUpdate => replace_first (λ e', bool_decide (me_record_id e' = me_record_id e)) e es = Some es'
  | MutationDelete => False
  end.

Lemma prepare_plaintext_upsert_Ok v kind id pt t (w : W) p w' :
  UnlockedVault_wf v → length id = 16%nat → u64 (len pt + TAG_BYTES) → u64 t →
  prepare_plaintext_upsert v kind id pt t w = (Ok p, w') →
  ∃ env es, pm_kind p = kind ∧ pm_id p = id ∧ pm_envelope p = Some env
  ∧ decrypt_record v {| er_id := id; er_envelope := env |} = open_plaintext id pt
  ∧ upserted kind {| me_record_id := id; me_envelope_digest := sha256 env |}
      (mf_entries (uv_manifest v)) es
  ∧ pm_expected_generation p = generation v
  ∧ Manifest_next_generation (uv_manifest v) t (sort_by me_record_id es) = Ok (pm_next_manifest p)
  ∧ decrypt_manifest v (pm_manifest_envelope p) = Ok (pm_next_manifest p).
Proof.
  intros Hv Hid Hpt Ht Hp. unfold prepare_plaintext_upsert in Hp. inv_stm Hp.
  match goal with H : random_nonce _ = _ |- _ => apply random_nonce_Ok in H as Hn end.
  pose proof Hv as [_ [_ [Hep _] _ _] [_ _ _ _ _ Hty _ _] _].
  assert (upserted kind {| me_record_id := id; me_envelope_digest := sha256 x2 |}
    (mf_entries (uv_manifest v)) x4) as Hup.
  { destruct kind; simpl; [congruence| |done].
    match goal with H : ok_or _ _ = Ok _ |- _ => by apply ok_or_Ok in H end. }
  assert (Forall ManifestEntry_typed x4) as Hes.
  { assert (ManifestEntry_typed {| me_record_id := id; me_envelope_digest := sha256 x2 |})
      by (split; [done|apply sha256_length]).
    destruct kind; simpl in Hup; [subst; by apply Forall_app; auto| |done].
    apply replace_first_Some in Hup as (k & a & r & Hl & -> & _). rewrite Hl in Hty.
    rewrite Forall_app, Forall_cons in Hty |- *. naive_solver. }
  match goal with H : prepare_manifest_mutation _ _ _ _ _ _ _ = _ |- _ =>
    apply prepare_manifest_mutation_Ok in H as (-> & -> & -> & -> & ? & ?); [|done| |done] end.
  2:{ by rewrite sort_by_perm. }
  exists x2, x4. split_and!; try done.
  edestruct sealed_record_opens as [Hdec Hopen]; [exact Hep|exact Hn|exact Hpt|done..|].
  unfold decrypt_record. simpl. rewrite Hdec. cbn [map_err mbind result_bind re_key_epoch].
  unfold key_epoch in *. rewrite Z.eqb_refl. cbn [negb fail_if mbind result_bind].
  match goal with H : derive_record_key _ _ = Ok _ |- _ => rewrite H end.
  cbn [map_err mbind result_bind re_nonce re_ciphertext]. by rewrite Hopen.
Qed.


(** ** The store a snapshot represents *)

Definition contents (ds : list DecryptedRecord) : gmap bytes DecryptedRecord :=
  list_to_map ((λ d, (record_id_of d, d)) <$> ds).

Lemma contents_lookup ds i d :
  NoDup (record_id_of <$> ds) → contents ds !! i = Some d ↔ d ∈ ds ∧ record_id_of d = i.
Proof.
  intros Hnd. unfold contents.
  assert (((λ d, (record_id_of d, d)) <$> ds).*1 = record_id_of <$> ds) as Hk
    by (by rewrite <-list_fmap_compose).
  split.
  - intros (d' & [= -> ->] & Hin)%elem_of_list_to_map_2%list_elem_of_fmap. done.
  - intros [Hin <-]. apply elem_of_list_to_map_1; [by rewrite Hk|]. by apply (list_elem_of_fmap_2 (λ d, (record_id_of d, d))).
Qed.

(** A session, stored bytes and rows represent a map from identifiers to records. *)
Record represents (v : UnlockedVault) (hdr man : bytes) (rows : list EncryptedRecord)
    (m : gmap bytes DecryptedRecord) : Prop := {
  rp_vault : UnlockedVault_wf v;
  rp_header : VaultHeader_decode hdr = Ok (uv_header v);
  rp_manifest : decrypt_manifest v man = Ok (uv_manifest v);
  rp_rows : ∃ ds, rows_hold v rows ds ∧ m = contents ds;
}.

Lemma rows_NoDup v rows ds : rows_hold v rows ds → NoDup (record_id_of <$> ds).
Proof. intros Hr. rewrite (rows_ids v rows ds Hr). apply sorted_NoDup, Hr. Qed.

Lemma rows_typed v rows ds r :
  UnlockedVault_wf v → rows_hold v rows ds → r ∈ rows → length (er_id r) = 16%nat.
Proof.
  intros [_ _ [_ _ _ _ _ Ht _ _] _] [He _ _ _] Hr. rewrite <-He, Forall_fmap, Forall_forall in Ht.
  by apply Ht in Hr as [??].
Qed.

Lemma Forall2_sorted {A B} (P : A → B → Prop) (l l' : list A) k :
  l' ≡ₚ l → Forall2 P l k → ∃ k', Forall2 P l' k' ∧ k' ≡ₚ k.
Proof.
  intros Hp. revert k. induction Hp as [|a l l' Hp IH|a b l|l1 l2 l3 H12 IH12 H23 IH23]; intros k Hk.
  - by exists k.
  - inversion Hk as [|? c ? k1 Hc Hk1]; subst. destruct (IH k1 Hk1) as (k' & ? & Hp').
    exists (c :: k'). split; [by constructor|by rewrite Hp'].
  - inversion Hk as [|? c ? k1 Hc Hk1]; subst. inversion Hk1 as [|? d ? k2 Hd Hk2]; subst.
    exists (d :: c :: k2). split; [by repeat constructor|by constructor].
  - destruct (IH23 k Hk) as (k2 & Hk2 & Hp2). destruct (IH12 k2 Hk2) as (k1 & Hk1 & Hp1).
    exists k1. split; [done|by etrans].
Qed.

(** Committing a prepared mutation whose manifest commits to [rows1], which
    decrypt to [ds1]. *)
Lemma committed_represents v hdr man rows m rows1 ds1 p t :
  represents v hdr man rows m → u64 t →
  Forall ManifestEntry_typed (commitment_of <$> rows1) →
  Forall2 (λ r d, decrypt_record v r = Ok d) rows1 ds1 →
  pm_expected_generation p = generation v →
  Manifest_next_generation (uv_manifest v) t (sort_by me_record_id (commitment_of <$> rows1))
    = Ok (pm_next_manifest p) →
  decrypt_manifest v (pm_manifest_envelope p) = Ok (pm_next_manifest p) →
  commit_record_mutation p v = (Ok (pm_id p), with_manifest v (pm_next_manifest p))
  ∧ NoDup (record_id_of <$> ds1)
  ∧ represents (with_manifest v (pm_next_manifest p)) hdr (pm_manifest_envelope p)
      (sort_by er_id rows1) (contents ds1).
Proof.
  intros [Hv Hh _ _] Ht Hty Hd Hg Hn Hm.
  assert (Forall ManifestEntry_typed (sort_by me_record_id (commitment_of <$> rows1))) as Hty'
    by (by rewrite sort_by_perm).
  assert (Manifest_wf (pm_next_manifest p)) as Hw
    by (eapply Manifest_next_generation_wf; [apply uw_manifest| | |]; done).
  apply Manifest_next_generation_Ok in Hn as (Ht1 & Hgen & Hc & Hs & Hp); [|apply Hv|done..].
  assert (NoDup (er_id <$> rows1)) as Hnd.
  { apply (sorted_NoDup me_record_id) in Hs. rewrite sort_by_perm, <-list_fmap_compose in Hs. done. }
  destruct (Forall2_sorted (λ r d, decrypt_record v r = Ok d) rows1 (sort_by er_id rows1) ds1) as (ds' & Hd' & Hperm);
    [apply sort_by_perm|done|].
  assert (record_id_of <$> ds1 = er_id <$> rows1) as Hids.
  { clear -Hd. induction Hd as [|r d rows ds Hr Hd IH]; [done|]. cbn. f_equal; [|done].
    by eapply decrypt_record_id. }
  split_and!.
  - unfold commit_record_mutation, get, mbind, stm_bind, of_result. rewrite Hg, Z.eqb_refl. simpl.
    unfold generation. rewrite (proj2 (checked_add_Some 64 _ 1 _) (conj eq_refl Hgen)). simpl.
    rewrite Hp at 1. simpl. by rewrite Z.eqb_refl.
  - by rewrite Hids.
  - split; [|done|done|].
    + destruct Hv as [Hk Hh' Hm' He]. split; try done. simpl. by rewrite Hp.
    + exists ds'. split.
      * assert (StronglySorted (key_lt er_id) (sort_by er_id rows1)) as Hso by (by apply sort_by_sorted).
        split; try done.
        -- simpl. rewrite Hp. simpl. symmetry. apply sort_by_eq.
           ++ clear -Hso. induction Hso as [|r l Hl IH Hr]; [constructor|]. cbn. constructor; [done|].
              rewrite Forall_fmap. done.
           ++ by rewrite sort_by_perm.
        -- unfold len in *. rewrite sort_by_perm. rewrite sort_by_perm, length_fmap in Hc. done.
      * symmetry. apply list_to_map_proper; [|by rewrite Hperm].
        rewrite <-list_fmap_compose. rewrite <-Hids in Hnd. rewrite <-Hperm in Hnd. done.
Qed.

(** [p] is accepted by the rows and by the session, and the result represents
    the map [m']. *)
Definition commits (v : UnlockedVault) (hdr : bytes) (rows : list EncryptedRecord)
    (p : PreparedRecordMutation) (m' : gmap bytes DecryptedRecord) : Prop :=
  ∃ rows' v', apply_to_expected_records rows p = Ok rows'
    ∧ commit_record_mutation p v = (Ok (pm_id p), v')
    ∧ represents v' hdr (pm_manifest_envelope p) rows' m'
    ∧ generation v' = generation v + 1.

Lemma next_generation_generation m t es m' :
  Manifest_next_generation m t es = Ok m' →
  mf_generation m' = mf_generation m + 1 ∧ mf_committed_at_ms m' = t.
Proof. unfold Manifest_next_generation. intros Hn. inv_ok Hn. simp_guards. by subst. Qed.

Lemma open_plaintext_id id pt d : open_plaintext id pt = Ok d → record_id_of d = id.
Proof.
  unfold open_plaintext. intros Hd. inv_ok Hd. match goal with t : RecordType |- _ => destruct t end;
    unfold decrypt_website_account_plaintext, decrypt_passkey_plaintext in *;
    match goal with H : _ ≫= _ = Ok d |- _ => inv_ok H end; done.
Qed.

Lemma replace_first_commitments id env rows es' :
  replace_first (λ e, bool_decide (me_record_id e = id)) (commitment_of {| er_id := id; er_envelope := env |})
    (commitment_of <$> rows) = Some es' →
  ∃ k a l, rows = k ++ a :: l ∧ er_id a = id
    ∧ es' = commitment_of <$> (k ++ {| er_id := id; er_envelope := env |} :: l)
    ∧ replace_first (λ r, bool_decide (er_id r = id)) {| er_id := id; er_envelope := env |} rows
      = Some (k ++ {| er_id := id; er_envelope := env |} :: l)
    ∧ existsb (λ r, bool_decide (er_id r = id)) rows = true.
Proof.
  revert es'. induction rows as [|r rows IH]; intros es' Hr; [done|]. cbn in Hr |- *.
  destruct (bool_decide (er_id r = id)) eqn:Hid.
  - injection Hr as <-. simp_guards. by exists [], r, rows.
  - apply fmap_Some in Hr as (es1 & Hes & ->).
    destruct (IH es1 Hes) as (k & a & l & -> & Ha & -> & Hrep & Hex).
    exists (r :: k), a, l. rewrite Hrep, Hex. done.
Qed.

Lemma upsert_represents v hdr man rows m kind id pt t (w : W) p w' d :
  represents v hdr man rows m → length id = 16%nat → u64 (len pt + TAG_BYTES) → u64 t →
  prepare_plaintext_upsert v kind id pt t w = (Ok p, w') → open_plaintext id pt = Ok d →
  commits v hdr rows p (<[id := d]> m) ∧ pm_id p = id ∧ pm_kind p = kind
  ∧ mf_committed_at_ms (pm_next_manifest p) = t
  ∧ match kind with
    | MutationInsert => m !! id = None
    | MutationUpdate => is_Some (m !! id)
    | MutationDelete => False
    end.
Proof.
  intros Hrep Hid Hlen Ht Hp Hopen. pose proof Hrep as [Hv Hh Hm (ds & Hrows & ->)].
  pose proof (open_plaintext_id _ _ _ Hopen) as Hdid.
  apply prepare_plaintext_upsert_Ok in Hp as (env & es & Hk & Hpid & Henv & Hdec & Hup & Hg & Hn & Hman);
    [|done..].
  set (r := {| er_id := id; er_envelope := env |}) in *.
  change {| me_record_id := id; me_envelope_digest := sha256 env |} with (commitment_of r) in Hup.
  pose proof (next_generation_generation _ _ _ _ Hn) as [Hgen Hpt].
  rewrite Hopen in Hdec. pose proof (rows_NoDup _ _ _ Hrows) as Hnd.
  pose proof Hrows as [He _ _ Hd]. rewrite <-He in Hup.
  assert (ManifestEntry_typed (commitment_of r)) as Hty by (split; [done|apply sha256_length]).
  assert (Forall ManifestEntry_typed (commitment_of <$> rows)) as Htys
    by (rewrite He; apply uw_manifest, Hv).
  destruct kind; simpl in Hup; [| |done].
  - assert (es = commitment_of <$> (rows ++ [r])) as -> by (by rewrite fmap_app).
    destruct (committed_represents v hdr man rows (contents ds) (rows ++ [r]) (ds ++ [d]) p t)
      as (Hc & Hnd' & Hr'); try done.
    { rewrite fmap_app. apply Forall_app. split; [done|by apply Forall_singleton]. }
    { apply Forall2_app; [done|]. by repeat constructor. }
    assert (contents ds !! id = None) as Hfresh.
    { apply eq_None_not_Some. intros (d' & [Hin Hi]%contents_lookup); [|done].
      rewrite fmap_app in Hnd'. apply NoDup_app in Hnd' as (_ & Hx & _).
      apply (Hx id); [rewrite <-Hi; by apply list_elem_of_fmap_2|]. simpl. rewrite Hdid. by left. }
    split_and!; try done. eexists _, _. split_and!; [|exact Hc| |done].
    + unfold apply_to_expected_records. rewrite Hk, Henv, Hpid. done.
    + assert (<[id := d]> (contents ds) = contents (ds ++ [d])) as ->; [|done].
      apply map_eq. intros i. apply option_eq. intros d'.
      rewrite contents_lookup, lookup_insert_Some, contents_lookup, elem_of_app, list_elem_of_singleton by done.
      split; [naive_solver|]. intros [[Hin| ->] <-]; [|by left]. right. split; [|done].
      intros ->. apply eq_None_not_Some in Hfresh. apply Hfresh. exists d'. by apply contents_lookup.
  - destruct (replace_first_commitments _ _ _ _ Hup) as (k & a & l & -> & Ha & -> & Hrf & Hex).
    apply Forall2_app_inv_l in Hd as (dk & dl0 & Hdk & Hdl & ->).
    apply Forall2_cons_inv_l in Hdl as (da & dl & Hda & Hdl & ->).
    pose proof (decrypt_record_id _ _ _ Hda) as Hdaid.
    destruct (committed_represents v hdr man (k ++ a :: l) (contents (dk ++ da :: dl)) (k ++ r :: l)
      (dk ++ d :: dl) p t) as (Hc & Hnd' & Hr'); try done.
    { rewrite fmap_app, fmap_cons, Forall_app, Forall_cons in Htys |- *. naive_solver. }
    { apply Forall2_app; [done|]. by constructor. }
    assert (is_Some (contents (dk ++ da :: dl) !! id)).
    { exists da. apply contents_lookup; [done|]. split; [set_solver|congruence]. }
    split_and!; try done. eexists _, _. split_and!; [|exact Hc| |done].
    + unfold apply_to_expected_records. rewrite Hk, Henv, Hpid, Hex. simpl. by rewrite Hrf.
    + assert (<[id := d]> (contents (dk ++ da :: dl)) = contents (dk ++ d :: dl)) as ->; [|done].
      apply map_eq. intros i. apply option_eq. intros d'.
      rewrite contents_lookup, lookup_insert_Some, contents_lookup by done.
      rewrite !elem_of_app, !elem_of_cons.
      rewrite fmap_app, fmap_cons in Hnd, Hnd'. apply NoDup_app in Hnd as (_ & Hx & Hy).
      apply NoDup_cons in Hy as [Hy _].
      split.
      * intros [[<- <-]|[Hne [[Hin|[->|Hin]] <-]]]; [by auto|by auto|congruence|by auto].
      * intros [[Hin|[->|Hin]] <-]; [right|by left|right]; (split; [|by auto]).
        -- intros He'. apply (Hx (record_id_of d')); [by apply list_elem_of_fmap_2|].
           rewrite <-He', Hdaid, Ha. by left.
        -- intros He'. apply Hy. rewrite Hdaid, Ha, He'. by apply list_elem_of_fmap_2.
Qed.

Lemma without_entry_commitments id rows :
  without_entry id (commitment_of <$> rows) = commitment_of <$> filter (λ r, er_id r ≠ id) rows.
Proof.
  unfold without_entry. induction rows as [|r rows IH]; [done|].
  rewrite fmap_cons, !filter_cons. cbn [me_record_id commitment_of].
  destruct (decide (er_id r ≠ id)); [rewrite fmap_cons; by f_equal|done].
Qed.

Lemma delete_represents v hdr man rows m id t (w : W) p w' :
  represents v hdr man rows m → u64 t → is_Some (m !! id) →
  prepare_manifest_mutation v MutationDelete id None
    (without_entry id (mf_entries (uv_manifest v))) t w = (Ok p, w') →
  commits v hdr rows p (delete id m) ∧ pm_id p = id ∧ pm_kind p = MutationDelete
  ∧ mf_committed_at_ms (pm_next_manifest p) = t.
Proof.
  intros Hrep Ht [d0 Hd0] Hp. pose proof Hrep as [Hv Hh Hm (ds & Hrows & ->)].
  pose proof (rows_NoDup _ _ _ Hrows) as Hnd. pose proof Hrows as [He Hso _ Hd].
  assert (Forall ManifestEntry_typed (commitment_of <$> rows)) as Htys by (rewrite He; apply uw_manifest, Hv).
  rewrite <-He, without_entry_commitments in Hp.
  set (keep := filter (λ r, er_id r ≠ id) rows) in *.
  assert (Forall ManifestEntry_typed (commitment_of <$> keep)) as Hkt.
  { rewrite Forall_fmap, Forall_forall in Htys |- *. intros r [_ Hr]%list_elem_of_filter. by apply Htys. }
  assert (Forall2 (λ r d, decrypt_record v r = Ok d) keep (filter (λ d, record_id_of d ≠ id) ds)) as Hk2.
  { unfold keep. clear -Hd. induction Hd as [|r d rows ds Hr Hd IH]; [constructor|].
    rewrite !filter_cons, (decrypt_record_id _ _ _ Hr). destruct (decide (er_id r ≠ id)); [by constructor|done]. }
  apply prepare_manifest_mutation_Ok in Hp as (Hk & Hid & Henv & Hg & Hn & Hman); [|done..].
  pose proof (next_generation_generation _ _ _ _ Hn) as [Hgen Hpt].
  assert (sort_by me_record_id (commitment_of <$> keep) = commitment_of <$> keep) as Hsorted.
  { apply sort_by_id. unfold keep. clear -Hso. induction Hso as [|r l Hl IH Hr]; [constructor|].
    rewrite filter_cons. destruct (decide _); [|done]. rewrite fmap_cons. constructor; [done|].
    rewrite Forall_fmap, Forall_forall in *. intros r' [_ Hr']%list_elem_of_filter. by apply Hr. }
  rewrite <-Hsorted in Hn.
  destruct (committed_represents v hdr man rows (contents ds) keep
    (filter (λ d, record_id_of d ≠ id) ds) p t) as (Hc & Hnd' & Hr'); try done.
  split_and!; try done. eexists _, _. split_and!; [|exact Hc| |done].
  - unfold apply_to_expected_records. rewrite Hk, Hid. fold keep.
    apply contents_lookup in Hd0 as [Hin Hi]; [|done].
    apply list_elem_of_lookup in Hin as [n Hn']. destruct (Forall2_lookup_r _ _ _ _ _ Hd Hn') as (r0 & Hr0 & Hdr).
    assert (length keep < length rows)%nat as Hlt.
    { apply (length_filter_lt _ rows r0); [by eapply list_elem_of_lookup_2|].
      rewrite <-(decrypt_record_id _ _ _ Hdr). auto. }
    rewrite (proj2 (Z.eqb_neq _ _)); [done|]. unfold len. lia.
  - assert (delete id (contents ds) = contents (filter (λ d, record_id_of d ≠ id) ds)) as ->; [|done].
    apply map_eq. intros i. apply option_eq. intros d'.
    rewrite contents_lookup, lookup_delete_Some, contents_lookup, list_elem_of_filter by done. naive_solver.
Qed.
End mutations.

(** ** Reading *)

Section reads.
Context {W : Type} `{Env W, !EnvLaws W}.
Implicit Types (sc : W → bool * W).

Lemma read_snapshot_Ok {A} v hdr man rows sc (f : DecryptedRecord → A → A) acc w a w' :
  UnlockedVault_wf v → read_snapshot v hdr man rows sc f acc w = (Ok a, w') →
  ∃ ds, rows_hold v rows ds ∧ represents v hdr man rows (contents ds)
    ∧ a = foldl (λ acc d, f d acc) acc ds.
Proof.
  unfold read_snapshot. intros Hv Hr. inv_stm Hr.
  match goal with H : authenticate_snapshot_metadata _ _ _ = Ok _ |- _ => apply metadata_Ok in H as [??] end.
  match goal with H : visit_authenticated_records _ _ _ _ _ _ = _ |- _ =>
    apply visit_Ok in H as (ds & Hds & ->) end.
  exists ds. split_and!; try done. split; try done. by exists ds.
Qed.

Lemma read_snapshot_quiet {A} v hdr man rows m sc (f : DecryptedRecord → A → A) acc w :
  (∀ w, (sc w).1 = false) → represents v hdr man rows m →
  ∃ ds w', rows_hold v rows ds ∧ m = contents ds
    ∧ read_snapshot v hdr man rows sc f acc w = (Ok (foldl (λ acc d, f d acc) acc ds), w').
Proof.
  intros Hq [Hv Hh Hm (ds & Hds & ->)].
  destruct (visit_quiet v sc f rows ds acc w Hq Hds) as [w' Hw]. exists ds, w'. split_and!; try done.
  unfold read_snapshot, mbind, stm_bind, of_result.
  rewrite (proj2 (metadata_Ok v hdr man tt)) by done. unfold map_err_st. by rewrite Hw.
Qed.

(** The accounts of a store in the order of their identifiers. *)
Definition as_account (d : DecryptedRecord) : option WebsiteAccount :=
  match d with DecryptedWebsiteAccount a => Some a | DecryptedPasskey _ => None end.
Definition accounts_of (m : gmap bytes DecryptedRecord) : list WebsiteAccount :=
  sort_by ac_id (omap as_account (map_to_list m).*2).

Lemma rows_ds_sorted v rows ds : rows_hold v rows ds → StronglySorted (key_lt record_id_of) ds.
Proof.
  intros Hr. pose proof (rows_ids _ _ _ Hr) as Hids. pose proof Hr as [_ Hs _ _]. clear Hr.
  revert ds Hids. induction Hs as [|r l Hl IH Hr]; intros [|d ds] Hids; try done; [constructor|].
  cbn in Hids. injection Hids as Hd Hds. constructor; [by apply IH|].
  rewrite Forall_forall in Hr. apply Forall_forall. intros d' Hd'. unfold key_lt. rewrite Hd.
  assert (record_id_of d' ∈ er_id <$> l) as (r' & -> & Hr')%list_elem_of_fmap
    by (rewrite <-Hds; by apply list_elem_of_fmap_2). by apply Hr.
Qed.

Lemma accounts_of_contents v rows ds : rows_hold v rows ds → omap as_account ds = accounts_of (contents ds).
Proof.
  intros Hr. pose proof (rows_NoDup _ _ _ Hr) as Hnd. pose proof (rows_ds_sorted _ _ _ Hr) as Hs.
  symmetry. apply sort_by_eq.
  - clear -Hs. induction Hs as [|d ds Hs IH Hd]; [constructor|]. destruct d as [a|p]; [|done].
    cbn. constructor; [done|]. rewrite Forall_forall in Hd. apply Forall_forall.
    intros a' (d' & Hin & Ha')%list_elem_of_omap. destruct d'; simplify_eq/=. by apply (Hd _ Hin).
  - assert (((λ d, (record_id_of d, d)) <$> ds).*2 = ds) as Hds.
    { clear. induction ds as [|d ds IH]; [done|]. cbn. f_equal. exact IH. }
    rewrite <-Hds at 1. unfold contents. rewrite map_to_list_to_map; [done|].
    by rewrite <-list_fmap_compose.
Qed.

Lemma foldl_page offset end_ ds : ∀ index accs more,
  0 ≤ offset ≤ end_ → 0 ≤ index → index + len ds < 2 ^ 64 →
  foldl (λ acc d, page_visit offset end_ d acc) (index, accs, more) ds =
    (index + len (omap as_account ds),
     accs ++ take (Z.to_nat (end_ - Z.max offset index)) (drop (Z.to_nat (offset - index)) (omap as_account ds)),
     more || (end_ <? index + len (omap as_account ds)) && (0 <? len (omap as_account ds))).
Proof.
  induction ds as [|d ds IH]; intros index accs more Ho Hi Hl.
  { cbn. rewrite drop_nil, take_nil, app_nil_r. change (len (@nil WebsiteAccount)) with 0.
    rewrite andb_false_r, orb_false_r. f_equal. f_equal. lia. }
  assert (len (d :: ds) = 1 + len ds) as Hc by apply len_cons. rewrite Hc in Hl.
  pose proof (len_nonneg ds). pose proof (len_nonneg (omap as_account ds)).
  destruct d as [a|p]; [|cbn; apply IH; lia].
  change (omap as_account (DecryptedWebsiteAccount a :: ds)) with (a :: omap as_account ds).
  cbn [foldl page_visit].
  assert (saturating_add 64 index 1 = index + 1) as ->.
  { unfold saturating_add, max_of. lia. }
  rewrite IH by lia.
  rewrite len_cons. set (l := omap as_account ds) in *.
  f_equal; [f_equal; [lia|]|].
  - destruct (Z.leb_spec offset index), (Z.ltb_spec index end_); simpl.
    + rewrite <-app_assoc. f_equal. replace (Z.to_nat (offset - index)) with 0%nat by lia.
      replace (Z.to_nat (offset - (index + 1))) with 0%nat by lia.
      replace (Z.to_nat (end_ - offset `max` index)) with (S (Z.to_nat (end_ - offset `max` (index + 1)))) by lia.
      done.
    + f_equal. replace (Z.to_nat (end_ - offset `max` index)) with 0%nat by lia.
      by replace (Z.to_nat (end_ - offset `max` (index + 1))) with 0%nat by lia.
    + f_equal. replace (Z.to_nat (offset - index)) with (S (Z.to_nat (offset - (index + 1)))) by lia. simpl.
      f_equal. lia.
    + lia.
  - destruct (Z.leb_spec offset index), (Z.ltb_spec index end_), (Z.leb_spec end_ index), more; simpl; try lia;
      try done;
      destruct (Z.ltb_spec end_ (index + 1 + len l)), (Z.ltb_spec 0 (len l)),
        (Z.ltb_spec end_ (index + (1 + len l))), (Z.ltb_spec 0 (1 + len l)); simpl; try done; lia.
Qed.

Lemma foldl_account ds id acc :
  NoDup (record_id_of <$> ds) →
  foldl (λ acc d, account_visit id d acc) acc ds =
    match contents ds !! id ≫= as_account with Some a => Some a | None => acc end.
Proof.
  revert acc. induction ds as [|d ds IH]; intros acc Hnd; [done|].
  rewrite fmap_cons in Hnd. apply NoDup_cons in Hnd as [Hd Hnd]. cbn [foldl]. rewrite IH by done.
  assert (contents (d :: ds) = <[record_id_of d := d]> (contents ds)) as -> by done.
  destruct (decide (record_id_of d = id)) as [<-|Hne].
  - rewrite lookup_insert_eq.
    assert (contents ds !! record_id_of d = None) as ->.
    { apply eq_None_not_Some. intros (d' & [Hin Hi]%contents_lookup); [|done].
      apply Hd. rewrite <-Hi. by apply list_elem_of_fmap_2. }
    destruct d as [a|p]; simpl; [by rewrite bool_decide_true|done].
  - rewrite lookup_insert_ne by done.
    assert (account_visit id d acc = acc) as ->; [|done].
    destruct d as [a|p]; simpl in *; [by rewrite bool_decide_false|done].
Qed.

(** The only element of a list. *)
Definition sole {A} (l : list A) : option A := match l with [a] => Some a | _ => None end.

Definition origin_matches (origin : bytes) (l : list WebsiteAccount) : list WebsiteAccount :=
  filter (λ a, ac_permitted_origin a = origin) l.

Lemma foldl_unique ds origin :
  foldl (λ acc d, unique_visit origin d acc) (None, false) ds =
    (sole (origin_matches origin (omap as_account ds)),
     bool_decide (2 ≤ length (origin_matches origin (omap as_account ds)))%nat).
Proof.
  induction ds as [|d ds IH] using rev_ind; [done|]. rewrite foldl_app, IH, omap_app. cbn [foldl].
  unfold origin_matches. rewrite !filter_app. fold (origin_matches origin (omap as_account ds)).
  set (l := origin_matches origin (omap as_account ds)).
  destruct d as [a|p]; cbn [omap list_omap as_account unique_visit]; [|by rewrite filter_nil, app_nil_r].
  rewrite filter_cons, filter_nil. destruct (decide (ac_permitted_origin a = origin)) as [Ho|Ho].
  - rewrite bool_decide_true by done. by destruct l as [|b [|c l]].
  - by rewrite bool_decide_false, app_nil_r by done.
Qed.

Lemma foldl_accounts ds acc :
  foldl (λ acc d, match d with DecryptedWebsiteAccount a => acc ++ [a] | DecryptedPasskey _ => acc end) acc ds
  = acc ++ omap as_account ds.
Proof.
  revert acc. induction ds as [|[a|p] ds IH]; intros acc; cbn [foldl].
  - by rewrite app_nil_r.
  - rewrite IH, <-app_assoc. done.
  - rewrite IH. done.
Qed.
End reads.
End store_facts.

(** ** Valid inputs *)

Record WebsiteAccountInput_wf `{UrlCrate} (i : WebsiteAccountInput) : Prop := {
  iw_service_name : text (in_service_name i) ∧ in_service_name i ≠ []
    ∧ len (in_service_name i) ≤ MAX_SERVICE_NAME_BYTES ∧ has_control (in_service_name i) = false;
  iw_origin : text (in_permitted_origin i) ∧ in_permitted_origin i ≠ []
    ∧ len (in_permitted_origin i) ≤ MAX_ORIGIN_BYTES ∧ has_control (in_permitted_origin i) = false
    ∧ normalize_origin (in_permitted_origin i) = Ok (in_permitted_origin i);
  iw_username : text (in_username i) ∧ len (in_username i) ≤ MAX_USERNAME_BYTES;
  iw_password : text (in_password i) ∧ len (in_password i) ≤ MAX_PASSWORD_BYTES;
}.

Record PasskeyInput_wf `{UrlCrate} (i : PasskeyInput) : Prop := {
  jw_rp_id : text (pi_rp_id i) ∧ pi_rp_id i ≠ [] ∧ len (pi_rp_id i) ≤ MAX_PASSKEY_RP_ID_BYTES
    ∧ has_control (pi_rp_id i) = false ∧ normalize_rp_id (pi_rp_id i) = Ok (pi_rp_id i);
  jw_handle : pi_user_handle i ≠ [] ∧ len (pi_user_handle i) ≤ MAX_PASSKEY_USER_HANDLE_BYTES;
  jw_name : text (pi_user_name i) ∧ pi_user_name i ≠ []
    ∧ len (pi_user_name i) ≤ MAX_PASSKEY_USER_NAME_BYTES ∧ has_control (pi_user_name i) = false;
  jw_display : text (pi_user_display_name i) ∧ pi_user_display_name i ≠ []
    ∧ len (pi_user_display_name i) ≤ MAX_PASSKEY_USER_DISPLAY_NAME_BYTES
    ∧ has_control (pi_user_display_name i) = false;
}.

Section inputs.
Context `{UrlLaws}.

(** A normalized origin is its own normalization, so that a stored account
    passes the check made when its row is read. *)
Lemma normalize_origin_stable s o :
  normalize_origin s = Ok o →
  normalize_origin o = Ok o ∧ text o ∧ o ≠ [] ∧ len o ≤ MAX_ORIGIN_BYTES ∧ has_control o = false.
Proof.
  unfold normalize_origin at 1. intros Ho. inv_ok Ho. simp_guards.
  match goal with H : url_parse s = Some ?u |- _ => rename u into x, H into Hx end.
  assert (url_scheme x = str "http" ∨ url_scheme x = str "https") as Hs.
  { match goal with H : (_ || _)%bool = true |- _ => apply orb_true_iff in H as [?|?] end; simp_guards; auto. }
  destruct (url_origin_parses s x) as (u & Hp & Hsc & [h Hh] & Hu & Hpw & Hq & Hf & Hpath & Hor); try done.
  { by apply not_eq_None_Some. }
  destruct (url_origin_ascii s x) as (? & ? & ?); [done|]. split_and!; try done.
  unfold normalize_origin. rewrite fail_if_small by done. cbn [mbind result_bind].
  rewrite Hp. cbn [ok_or mbind result_bind]. rewrite Hsc, Hh, Hu, Hpw, Hq, Hf, Hpath.
  assert (bool_decide (url_scheme x = str "http") || bool_decide (url_scheme x = str "https") = true) as ->.
  { destruct Hs as [-> | ->]; done. }
  match goal with |- fail_if ?c _ ≫= _ = _ => replace c with false by done end.
  cbn [fail_if mbind result_bind]. rewrite Hor, bool_decide_false by done.
  cbn [orb]. by rewrite fail_if_small.
Qed.

Lemma WebsiteAccountInput_new_wf s o n p i :
  text s → text n → text p → WebsiteAccountInput_new s o n p = Ok i →
  WebsiteAccountInput_wf i ∧ in_service_name i = s ∧ in_username i = n ∧ in_password i = p
  ∧ normalize_origin o = Ok (in_permitted_origin i).
Proof.
  intros Hs Hn Hp Hi. unfold WebsiteAccountInput_new, validate_input_lengths in Hi. inv_ok Hi. simp_guards.
  match goal with H : normalize_origin _ = Ok _ |- _ => pose proof (normalize_origin_stable _ _ H) as (?&?&?&?&?) end.
  split; [|done]. split; simpl; split_and!; try done. by apply is_empty_false.
Qed.
End inputs.

Lemma PasskeyInput_new_wf `{UrlCrate} r h n d i :
  text r → text n → text d → PasskeyInput_new r h n d = Ok i →
  PasskeyInput_wf i ∧ i = {| pi_rp_id := r; pi_user_handle := h; pi_user_name := n; pi_user_display_name := d |}.
Proof.
  intros Hr Hn Hd Hi. unfold PasskeyInput_new in Hi. inv_ok Hi. simp_guards. subst.
  match goal with H : normalize_rp_id ?r = Ok _ |- _ =>
    pose proof H as Hk; unfold normalize_rp_id in Hk; inv_ok Hk; simp_guards end.
  split; [|done]. split; simpl; split_and!; try done; by apply is_empty_false.
Qed.
