(* ===== verification/VaultCore.v ===== *)
(** * Creation and unlock of a vault ([crates/vault-core/src/lib.rs])

    Creation draws the identifiers, keys and nonces, wraps the root key under
    the password and under the recovery key, and seals an empty manifest.  The two
    ways of unlocking recover the root key from a wrapper and then share the
    authentication of the manifest and of every row.  The cancellation flag, which
    other threads may set at any time, is read between the expensive steps. *)

From S2P Require Import Prelude RustStd Cbor Wire VaultFormat VaultRecords VaultKeys VaultStore.

(** [credential_storage_is_approved]. *)
Definition credential_storage_is_approved : bool :=
  match readiness with ScaffoldOnly => false end.

Section core.
Context `{Minicbor, Crypto, UrlCrate}.
Context {W : Type} `{Env W}.

(** [.map_err(|_| error)?] on a pure call. *)
Definition or_fail {E F A} (e : F) (r : result E A) : stm W F A := of_result (map_err (λ _, e) r).

Definition create_vault (password : bytes) (created_at_ms : Z) : stm W CreateVaultError CreatedVault :=
  vault_id ← random_array 16;
  vault_root_key ← random_array KEY_BYTES;
  recovery_key_bytes ← random_array KEY_BYTES;
  password_salt ← random_array 16;
  master_nonce ← random_array 24;
  recovery_nonce ← random_array 24;
  manifest_nonce ← random_array 24;
  password_key ← or_fail CryptographicFailure (derive_password_key password password_salt);
  master_kek ← or_fail CryptographicFailure (derive_key password_key vault_id MASTER_WRAP_LABEL);
  let master_aad := encode_master_wrapper_aad vault_id INITIAL_KEY_EPOCH password_salt in
  master_wrapped_vrk ← of_result (encrypt_fixed_key master_kek master_nonce vault_root_key master_aad);
  recovery_kek ← or_fail CryptographicFailure (derive_key recovery_key_bytes vault_id RECOVERY_WRAP_LABEL);
  let recovery_aad := encode_recovery_wrapper_aad vault_id INITIAL_KEY_EPOCH in
  recovery_wrapped_vrk ← of_result
    (encrypt_fixed_key recovery_kek recovery_nonce vault_root_key recovery_aad);
  let header :=
    {| vh_vault_id := vault_id; vh_key_epoch := INITIAL_KEY_EPOCH;
       vh_master_wrapper := {| mw_password_salt := password_salt; mw_nonce := master_nonce;
                               mw_wrapped_vrk := master_wrapped_vrk |};
       vh_recovery_wrapper := {| rw_nonce := recovery_nonce; rw_wrapped_vrk := recovery_wrapped_vrk |} |} in
  header_bytes ← or_fail FormatFailure (VaultHeader_encode header);
  let manifest := Manifest_empty created_at_ms INITIAL_KEY_EPOCH in
  manifest_plaintext ← or_fail FormatFailure (Manifest_encode manifest);
  manifest_key ← or_fail CryptographicFailure
    (derive_manifest_key vault_root_key vault_id INITIAL_KEY_EPOCH);
  let manifest_aad := encode_manifest_aad header manifest_nonce in
  manifest_ciphertext ← of_result
    (encrypt_bytes manifest_key manifest_nonce manifest_plaintext manifest_aad);
  manifest_envelope ← or_fail FormatFailure
    (value ← ManifestEnvelope_new manifest_nonce manifest_ciphertext; ManifestEnvelope_encode value);
  or_fail FormatFailure (VaultHeader_decode header_bytes);;
  or_fail FormatFailure (ManifestEnvelope_decode manifest_envelope);;
  mret {| cv_header := header_bytes; cv_manifest_envelope := manifest_envelope;
          cv_recovery_key := recovery_key_bytes;
          cv_session := {| uv_vault_root_key := vault_root_key; uv_header := header;
                           uv_manifest := manifest |} |}.

Definition authenticate_vault_root_key (vault_root_key : bytes) (header : VaultHeader)
    (envelope : ManifestEnvelope) (records : list EncryptedRecord) : stm W UnlockError UnlockedVault :=
  manifest_key ← or_fail UnlockFailed
    (derive_manifest_key vault_root_key (vh_vault_id header) (vh_key_epoch header));
  let manifest_aad := encode_manifest_aad header (en_nonce envelope) in
  manifest_plaintext ← or_fail UnlockFailed
    (decrypt_bytes manifest_key (en_nonce envelope) (en_ciphertext envelope) manifest_aad);
  manifest ← or_fail UnlockFailed (Manifest_decode manifest_plaintext);
  check_cancelled poll_cancelled UnlockCancelled;;
  of_result (fail_if (negb (mf_key_epoch manifest =? vh_key_epoch header)
    || negb (mf_vault_schema manifest =? VAULT_SCHEMA)) UnlockFailed);;
  let unlocked :=
    {| uv_vault_root_key := vault_root_key; uv_header := header; uv_manifest := manifest |} in
  authenticate_records unlocked records;;
  mret unlocked.

Definition unlock_vault (password header_bytes manifest_envelope_bytes : bytes)
    (records : list EncryptedRecord) : stm W UnlockError UnlockedVault :=
  check_cancelled poll_cancelled UnlockCancelled;;
  header ← or_fail UnlockFailed (VaultHeader_decode header_bytes);
  envelope ← or_fail UnlockFailed (ManifestEnvelope_decode manifest_envelope_bytes);
  let master := vh_master_wrapper header in
  password_key ← or_fail UnlockFailed (derive_password_key password (mw_password_salt master));
  check_cancelled poll_cancelled UnlockCancelled;;
  master_kek ← or_fail UnlockFailed (derive_key password_key (vh_vault_id header) MASTER_WRAP_LABEL);
  let master_aad :=
    encode_master_wrapper_aad (vh_vault_id header) (vh_key_epoch header) (mw_password_salt master) in
  vault_root_key ← or_fail UnlockFailed
    (decrypt_fixed_key master_kek (mw_nonce master) (mw_wrapped_vrk master) master_aad);
  authenticate_vault_root_key vault_root_key header envelope records.

Definition unlock_empty_vault (password header_bytes manifest_envelope_bytes : bytes) :
    stm W UnlockError UnlockedVault :=
  unlock_vault password header_bytes manifest_envelope_bytes [].

(** [UnlockedVault::create_windows_hello_protector]. *)
Definition create_windows_hello_protector (vault : UnlockedVault)
    (installation_key credential_id prf_salt prf_output : bytes) : stm W CreateVaultError bytes :=
  nonce ← random_array 24;
  let installation_id := windows_hello_installation_id installation_key in
  template ← or_fail FormatFailure
    (WindowsHelloProtector_new (vault_id vault) (key_epoch vault) installation_id credential_id prf_salt
       nonce (zeros WRAPPED_KEY_BYTES));
  wrapping_key ← or_fail CryptographicFailure
    (derive_windows_hello_wrapping_key prf_output installation_key (vault_id vault));
  wrapped_vrk ← of_result
    (encrypt_fixed_key wrapping_key (hp_nonce template) (uv_vault_root_key vault)
       (encode_windows_hello_wrapper_aad template));
  or_fail FormatFailure
    (protector ← WindowsHelloProtector_new (hp_vault_id template) (hp_key_epoch template)
       (hp_installation_id template) (hp_credential_id template) (hp_prf_salt template)
       (hp_nonce template) wrapped_vrk;
     WindowsHelloProtector_encode protector).

Definition unlock_vault_with_windows_hello
    (prf_output installation_key credential_id protector_bytes header_bytes manifest_envelope_bytes : bytes)
    (records : list EncryptedRecord) : stm W UnlockError UnlockedVault :=
  check_cancelled poll_cancelled UnlockCancelled;;
  header ← or_fail UnlockFailed (VaultHeader_decode header_bytes);
  envelope ← or_fail UnlockFailed (ManifestEnvelope_decode manifest_envelope_bytes);
  protector ← or_fail UnlockFailed (WindowsHelloProtector_decode protector_bytes);
  let installation_id := windows_hello_installation_id installation_key in
  of_result (fail_if (bool_decide (hp_vault_id protector ≠ vh_vault_id header)
    || negb (hp_key_epoch protector =? vh_key_epoch header)
    || bool_decide (hp_installation_id protector ≠ installation_id)
    || bool_decide (hp_credential_id protector ≠ credential_id)) UnlockFailed);;
  wrapping_key ← or_fail UnlockFailed
    (derive_windows_hello_wrapping_key prf_output installation_key (vh_vault_id header));
  check_cancelled poll_cancelled UnlockCancelled;;
  vault_root_key ← or_fail UnlockFailed
    (decrypt_fixed_key wrapping_key (hp_nonce protector) (hp_wrapped_vrk protector)
       (encode_windows_hello_wrapper_aad protector));
  authenticate_vault_root_key vault_root_key header envelope records.
End core.

(** ** Opening a wrapper *)

Section opening.
Context `{Minicbor, Crypto}.

(** The master password opens the header's wrapper to a root key. *)
Definition opens_with_password (password : bytes) (h : VaultHeader) (root : bytes) : Prop :=
  ∃ password_key kek,
    derive_password_key password (mw_password_salt (vh_master_wrapper h)) = Ok password_key
    ∧ derive_key password_key (vh_vault_id h) MASTER_WRAP_LABEL = Ok kek
    ∧ decrypt_fixed_key kek (mw_nonce (vh_master_wrapper h)) (mw_wrapped_vrk (vh_master_wrapper h))
        (encode_master_wrapper_aad (vh_vault_id h) (vh_key_epoch h)
           (mw_password_salt (vh_master_wrapper h))) = Ok root.

(** So does the recovery key. *)
Definition opens_with_recovery_key (recovery_key : bytes) (h : VaultHeader) (root : bytes) : Prop :=
  ∃ kek,
    derive_key recovery_key (vh_vault_id h) RECOVERY_WRAP_LABEL = Ok kek
    ∧ decrypt_fixed_key kek (rw_nonce (vh_recovery_wrapper h)) (rw_wrapped_vrk (vh_recovery_wrapper h))
        (encode_recovery_wrapper_aad (vh_vault_id h) (vh_key_epoch h)) = Ok root.

(** The Windows Hello result opens a protector of this vault, epoch,
    installation and credential. *)
Definition opens_with_windows_hello (prf_output installation_key credential_id protector : bytes)
    (h : VaultHeader) (root : bytes) : Prop :=
  ∃ p key,
    WindowsHelloProtector_decode protector = Ok p
    ∧ hp_vault_id p = vh_vault_id h ∧ hp_key_epoch p = vh_key_epoch h
    ∧ hp_installation_id p = windows_hello_installation_id installation_key
    ∧ hp_credential_id p = credential_id
    ∧ derive_windows_hello_wrapping_key prf_output installation_key (vh_vault_id h) = Ok key
    ∧ decrypt_fixed_key key (hp_nonce p) (hp_wrapped_vrk p) (encode_windows_hello_wrapper_aad p)
        = Ok root.
End opening.

Create HintDb ends_well.

Section core_facts.
Context `{MinicborLaws, CryptoLaws, UrlCrate}.
Context {W : Type} `{Env W}.

Lemma or_fail_Ok {E F A} (e : E) (r : result F A) (w : W) a w' :
  or_fail e r w = (Ok a, w') ↔ r = Ok a ∧ w' = w.
Proof. unfold or_fail. rewrite of_result_Ok. destruct r; simpl; naive_solver. Qed.

Lemma or_fail_intro {E F A} (e : E) (r : result F A) (w : W) a : r = Ok a → or_fail e r w = (Ok a, w).
Proof. intros. by apply or_fail_Ok. Qed.

Lemma decrypt_manifest_Ok v man mf :
  decrypt_manifest v man = Ok mf ↔ ∃ env key image,
    ManifestEnvelope_decode man = Ok env
    ∧ derive_manifest_key (uv_vault_root_key v) (vault_id v) (key_epoch v) = Ok key
    ∧ decrypt_bytes key (en_nonce env) (en_ciphertext env)
        (encode_manifest_aad (uv_header v) (en_nonce env)) = Ok image
    ∧ Manifest_decode image = Ok mf.
Proof.
  unfold decrypt_manifest. split.
  - intros Hd. inv_ok Hd. eauto 10.
  - intros (env & key & image & -> & Hk & Hb & Hm). cbn [map_err mbind result_bind].
    rewrite Hk. cbn [map_err mbind result_bind]. rewrite Hb. cbn [map_err mbind result_bind]. by rewrite Hm.
Qed.

Lemma decrypt_fixed_key_length k n c a r : decrypt_fixed_key k n c a = Ok r → length r = 32%nat.
Proof. unfold decrypt_fixed_key. intros Hd. inv_ok Hd. simp_guards. done. Qed.

(** ** The shared end of both unlocks *)

Lemma authenticate_root_key_Ok root h env hdr man rows v (w w' : W) :
  length root = 32%nat → VaultHeader_decode hdr = Ok h → ManifestEnvelope_decode man = Ok env →
  authenticate_vault_root_key root h env rows w = (Ok v, w') →
  uv_vault_root_key v = root ∧ uv_header v = h ∧ ∃ m, represents v hdr man rows m.
Proof.
  intros Hr Hh He Ha. unfold authenticate_vault_root_key, authenticate_records, or_fail in Ha.
  inv_stm Ha. simp_guards. split_and!; try done.
  match goal with H : visit_authenticated_records _ _ _ _ _ _ = _ |- _ =>
    apply visit_Ok in H as (ds & Hds & _) end.
  exists (contents ds). split; [split|..]; simpl; try done.
  - by apply VaultHeader_decode_iff in Hh as [? _].
  - by eapply Manifest_decode_iff.
  - apply decrypt_manifest_Ok. eauto 10.
  - by exists ds.
Qed.

Lemma authenticate_root_key_total v env hdr man rows m (w : W) :
  undisturbed (W:=W) → represents v hdr man rows m → ManifestEnvelope_decode man = Ok env →
  ∃ w', authenticate_vault_root_key (uv_vault_root_key v) (uv_header v) env rows w = (Ok v, w').
Proof.
  intros Hu [Hv Hh Hm (ds & Hds & ->)] He.
  apply decrypt_manifest_Ok in Hm as (env' & key & image & He' & Hk & Hb & Hm).
  rewrite He in He'. apply Ok_inj in He' as <-.
  destruct (undisturbed_check UnlockCancelled w Hu) as [w1 Hc1].
  destruct (visit_quiet v poll_cancelled (λ _ u, u) rows ds tt w1 Hu Hds) as [w2 Hvis].
  destruct (undisturbed_check UnlockCancelled w2 Hu) as [w3 Hc3].
  pose proof Hv as [_ _ [_ _ Hs _ _ _ _ _] Hep].
  exists w3. unfold authenticate_vault_root_key, authenticate_records.
  eapply stm_bind_intro; [apply or_fail_intro, Hk|].
  eapply stm_bind_intro; [apply or_fail_intro, Hb|].
  eapply stm_bind_intro; [apply or_fail_intro, Hm|].
  eapply stm_bind_intro; [exact Hc1|].
  eapply (stm_bind_intro _ _ _ tt).
  { apply of_result_intro. by rewrite Hep, Z.eqb_refl, Hs. }
  assert ({| uv_vault_root_key := uv_vault_root_key v; uv_header := uv_header v;
             uv_manifest := uv_manifest v |} = v) as -> by by destruct v.
  eapply stm_bind_intro; [|done].
  eapply stm_bind_intro; [|exact Hc3]. unfold map_err_st. rewrite Hvis. done.
Qed.

(** ** How an unlock can end *)

(** A pure step that neither panics nor fails with [c]. *)
Definition fine {E A} (c : E) (r : result E A) : Prop := r ≠ Panic ∧ r ≠ Err c.

Lemma fine_bind {E A B} (c : E) (r : result E A) (k : A → result E B) :
  fine c r → (∀ a, fine c (k a)) → fine c (r ≫= k).
Proof. intros [Hp Hc] Hk. destruct r; simpl; [apply Hk|by split; [|intros [= ->]]|done]. Qed.
Lemma fine_map_err {E F A} (c e : E) (r : result F A) : r ≠ Panic → e ≠ c → fine c (map_err (λ _, e) r).
Proof. intros Hp He. destruct r; simpl; split; congruence. Qed.
Lemma fine_fail_if {E} (c e : E) b : e ≠ c → fine c (fail_if b e).
Proof. intros He. destruct b; simpl; split; congruence. Qed.
Lemma fine_ret {E A} (c : E) (a : A) : fine c (mret a).
Proof. done. Qed.

(** No panic, and the error [c] only when somebody cancels. *)
Definition ends_well {E A} (c : E) (run : stm W E A) : Prop :=
  ∀ w, (run w).1 ≠ Panic ∧ (undisturbed (W:=W) → (run w).1 ≠ Err c).

Lemma ends_well_bind {E A B} (c : E) (run : stm W E A) (k : A → stm W E B) :
  ends_well c run → (∀ a, ends_well c (k a)) → ends_well c (run ≫= k).
Proof.
  intros Hr Hk w. unfold mbind, stm_bind. specialize (Hr w).
  destruct (run w) as [[a|e|] w']; [apply Hk| |by destruct Hr].
  destruct Hr as [_ Hr]. split; [done|]. intros Hu [= ->]. by apply Hr.
Qed.
Lemma ends_well_of_result {E A} (c : E) (r : result E A) : fine c r → ends_well c (of_result r).
Proof. by intros [Hp Hc] w. Qed.
Lemma ends_well_or_fail {E F A} (c e : E) (r : result F A) :
  r ≠ Panic → e ≠ c → ends_well c (or_fail e r).
Proof. intros Hp He. by apply ends_well_of_result, fine_map_err. Qed.
Lemma ends_well_ret {E A} (c : E) (a : A) : ends_well c (mret a).
Proof. by intros w. Qed.
Lemma ends_well_check {E} (c : E) : ends_well c (check_cancelled poll_cancelled c).
Proof.
  intros w. unfold check_cancelled. pose proof (λ Hu : undisturbed (W:=W), Hu w).
  destruct (poll_cancelled w) as [[] w']; simpl in *; split; try done. naive_solver.
Qed.


Lemma normalize_origin_not_Panic o : normalize_origin o ≠ Panic.
Proof. unfold normalize_origin. no_panic. Qed.
Lemma normalize_rp_id_not_Panic r : normalize_rp_id r ≠ Panic.
Proof. unfold normalize_rp_id. no_panic. Qed.
Lemma derive_record_key_not_Panic v i : derive_record_key v i ≠ Panic.
Proof. unfold derive_record_key. no_panic. Qed.

Lemma decrypt_record_fine v r (c : SnapshotAuthenticationError) :
  c ≠ SnapshotFailed → fine c (decrypt_record v r).
Proof.
  intros Hc. pose proof normalize_origin_not_Panic. pose proof normalize_rp_id_not_Panic.
  pose proof derive_record_key_not_Panic. pose proof record_type_not_Panic.
  pose proof WebsiteAccountPlaintext_decode_not_Panic. pose proof PasskeyPlaintext_decode_not_Panic.
  pose proof RecordEnvelope_decode_not_Panic. pose proof decrypt_bytes_not_Panic.
  unfold decrypt_record, decrypt_website_account_plaintext, decrypt_passkey_plaintext.
  repeat first [ case_match | apply fine_ret | apply fine_map_err; by auto | apply fine_fail_if; by auto
               | apply fine_bind; [|intros ?] ].
Qed.

Lemma visit_ends_well {A} v rows (f : DecryptedRecord → A → A) acc :
  ends_well SnapshotCancelled (visit_authenticated_records v rows poll_cancelled f acc).
Proof.
  unfold visit_authenticated_records.
  do 2 (apply ends_well_bind; [by apply ends_well_of_result, fine_fail_if|intros _]).
  revert acc. induction (zip rows _) as [|[r e] l IH]; intros acc; [done|]. cbn [visit_pairs].
  apply ends_well_bind; [apply ends_well_check|intros _].
  apply ends_well_bind; [by apply ends_well_of_result, fine_fail_if|intros _].
  apply ends_well_bind; [by apply ends_well_of_result, decrypt_record_fine|intros d]. apply IH.
Qed.

Lemma derive_manifest_key_not_Panic root i e : derive_manifest_key root i e ≠ Panic.
Proof. apply derive_key_not_Panic. Qed.
Lemma derive_hello_key_not_Panic a b i : derive_windows_hello_wrapping_key a b i ≠ Panic.
Proof. apply derive_key_not_Panic. Qed.

(** [ends_well] walks an unlock. *)
Ltac ends_well :=
  repeat first
    [ apply ends_well_ret | apply ends_well_check | solve [eauto 2 with ends_well]
    | apply ends_well_or_fail; [solve [auto using VaultHeader_decode_not_Panic, ManifestEnvelope_decode_not_Panic,
        WindowsHelloProtector_decode_not_Panic, Manifest_decode_not_Panic, derive_manifest_key_not_Panic,
        derive_hello_key_not_Panic with panic]|done]
    | apply ends_well_of_result, fine_fail_if; done
    | apply ends_well_bind; [|intros ?] ].

Lemma authenticate_records_ends_well v rows : ends_well UnlockCancelled (authenticate_records v rows).
Proof.
  unfold authenticate_records. apply ends_well_bind; [|intros _; apply ends_well_check].
  intros w. destruct (visit_ends_well v rows (λ _ u, u) tt w) as [Hp Hc].
  unfold map_err_st. destruct (visit_authenticated_records _ _ _ _ _ w) as [[a|[]|] w']; simpl in *; split; naive_solver.
Qed.
#[local] Hint Resolve authenticate_records_ends_well : ends_well.

Lemma authenticate_root_key_ends_well root h env rows :
  ends_well UnlockCancelled (authenticate_vault_root_key root h env rows).
Proof. unfold authenticate_vault_root_key. ends_well. Qed.
#[local] Hint Resolve authenticate_root_key_ends_well : ends_well.

(** ** Unlocking *)

(** An unlock by a secret [opens] characterises: it never panics; whatever the
    cancellation flag does, a session it returns is authentic; if nobody cancels, it
    fails as [UnlockFailed] or not at all, and returns every session that the secret
    opens and the snapshot represents. *)
Definition unlocks (opens : VaultHeader → bytes → Prop) (hdr man : bytes) (rows : list EncryptedRecord)
    (run : stm W UnlockError UnlockedVault) : Prop :=
  ∀ w, (run w).1 ≠ Panic
  ∧ (∀ v, (run w).1 = Ok v →
      opens (uv_header v) (uv_vault_root_key v) ∧ ∃ m, represents v hdr man rows m)
  ∧ (undisturbed (W:=W) → (run w).1 ≠ Err UnlockCancelled
      ∧ ∀ v m, opens (uv_header v) (uv_vault_root_key v) → represents v hdr man rows m →
          (run w).1 = Ok v).

Lemma unlock_vault_unlocks password hdr man rows :
  unlocks (opens_with_password password) hdr man rows (unlock_vault password hdr man rows).
Proof.
  intros w. assert (ends_well UnlockCancelled (unlock_vault password hdr man rows)) as Hends.
  { unfold unlock_vault. ends_well. }
  split_and!; [apply Hends| |intros Hu; split; [by apply Hends|]].
  - intros v Hr. destruct (unlock_vault _ _ _ _ w) as [r w'] eqn:Hw; simpl in Hr; subst r.
    unfold unlock_vault, or_fail in Hw. inv_stm Hw.
    match goal with Hd : decrypt_fixed_key _ _ _ _ = Ok _ |- _ => pose proof (decrypt_fixed_key_length _ _ _ _ _ Hd) end.
    match goal with Ha : authenticate_vault_root_key _ _ _ _ _ = _ |- _ =>
      eapply authenticate_root_key_Ok in Ha as (<- & <- & Hm); [|done..] end.
    split; [|done]. by eexists _, _.
  - intros v m (pk & kek & Hpk & Hkek & Hd) Hrep. pose proof Hrep as [_ Hh (env & _ & _ & He & _)%decrypt_manifest_Ok _].
    destruct (undisturbed_check UnlockCancelled w Hu) as [w1 Hc1].
    destruct (undisturbed_check UnlockCancelled w1 Hu) as [w2 Hc2].
    destruct (authenticate_root_key_total v env hdr man rows m w2) as [w3 Ha]; [done..|].
    assert (unlock_vault password hdr man rows w = (Ok v, w3)) as ->; [|done].
    eapply stm_bind_intro; [exact Hc1|]. eapply stm_bind_intro; [apply or_fail_intro, Hh|].
    eapply stm_bind_intro; [apply or_fail_intro, He|]. eapply stm_bind_intro; [apply or_fail_intro, Hpk|].
    eapply stm_bind_intro; [exact Hc2|]. eapply stm_bind_intro; [apply or_fail_intro, Hkek|].
    eapply stm_bind_intro; [apply or_fail_intro, Hd|]. exact Ha.
Qed.

Lemma unlock_with_windows_hello_unlocks prf_output installation_key credential_id protector hdr man rows :
  unlocks (opens_with_windows_hello prf_output installation_key credential_id protector) hdr man rows
    (unlock_vault_with_windows_hello prf_output installation_key credential_id protector hdr man rows).
Proof.
  intros w. assert (ends_well UnlockCancelled (unlock_vault_with_windows_hello prf_output installation_key
    credential_id protector hdr man rows)) as Hends.
  { unfold unlock_vault_with_windows_hello. ends_well. }
  split_and!; [apply Hends| |intros Hu; split; [by apply Hends|]].
  - intros v Hr. destruct (unlock_vault_with_windows_hello _ _ _ _ _ _ _ w) as [r w'] eqn:Hw; simpl in Hr; subst r.
    unfold unlock_vault_with_windows_hello, or_fail in Hw. inv_stm Hw. simp_guards.
    match goal with Hd : decrypt_fixed_key _ _ _ _ = Ok _ |- _ => pose proof (decrypt_fixed_key_length _ _ _ _ _ Hd) end.
    match goal with Ha : authenticate_vault_root_key _ _ _ _ _ = _ |- _ =>
      eapply authenticate_root_key_Ok in Ha as (<- & <- & Hm); [|done..] end.
    split; [|done]. eexists _, _. by split_and!.
  - intros v m (p & key & Hp & Hi & Hep & Hin & Hcr & Hk & Hd) Hrep.
    pose proof Hrep as [_ Hh (env & _ & _ & He & _)%decrypt_manifest_Ok _].
    destruct (undisturbed_check UnlockCancelled w Hu) as [w1 Hc1].
    destruct (undisturbed_check UnlockCancelled w1 Hu) as [w2 Hc2].
    destruct (authenticate_root_key_total v env hdr man rows m w2) as [w3 Ha]; [done..|].
    assert (unlock_vault_with_windows_hello prf_output installation_key credential_id protector hdr man rows w
      = (Ok v, w3)) as ->; [|done].
    eapply stm_bind_intro; [exact Hc1|]. eapply stm_bind_intro; [apply or_fail_intro, Hh|].
    eapply stm_bind_intro; [apply or_fail_intro, He|]. eapply stm_bind_intro; [apply or_fail_intro, Hp|].
    eapply (stm_bind_intro _ _ _ tt).
    { apply of_result_intro. rewrite Hi, Hep, Hin, Hcr, Z.eqb_refl, !bool_decide_false by auto. done. }
    eapply stm_bind_intro; [apply or_fail_intro, Hk|]. eapply stm_bind_intro; [exact Hc2|].
    eapply stm_bind_intro; [apply or_fail_intro, Hd|]. exact Ha.
Qed.

(** C23: both unlocks are sound and complete: they return a session exactly when
    the secret opens a wrapper of this header to the session's root key (for Windows
    Hello: a protector of the same vault, epoch, installation and credential) and the
    stored bytes as a whole are authentic under it, representing a map of records.
    Every other outcome is the uniform failure, or the cancellation that somebody
    asked for; no input makes them panic. *)
Theorem unlock_exact password prf_output installation_key credential_id protector hdr man rows :
  unlocks (opens_with_password password) hdr man rows (unlock_vault password hdr man rows)
  ∧ unlocks (opens_with_windows_hello prf_output installation_key credential_id protector) hdr man rows
      (unlock_vault_with_windows_hello prf_output installation_key credential_id protector hdr man rows).
Proof. split; [apply unlock_vault_unlocks|apply unlock_with_windows_hello_unlocks]. Qed.

(** ** Creation *)

Section creation.
Context `{!EnvLaws W}.

Lemma create_vault_total password t (w : W) :
  entropic (W:=W) → u64 t → len password ≤ MAX_MASTER_PASSWORD_BYTES →
  ∃ c w', create_vault password t w = (Ok c, w').
Proof.
  intros He Ht Hp.
  destruct (random_array_total 16 w He) as (vid & w1 & Hvid).
  destruct (random_array_total KEY_BYTES w1 He) as (root & w2 & Hroot).
  destruct (random_array_total KEY_BYTES w2 He) as (rk & w3 & Hrk).
  destruct (random_array_total 16 w3 He) as (salt & w4 & Hsalt).
  destruct (random_array_total 24 w4 He) as (n1 & w5 & Hn1).
  destruct (random_array_total 24 w5 He) as (n2 & w6 & Hn2).
  destruct (random_array_total 24 w6 He) as (n3 & w7 & Hn3).
  pose proof (random_array_length _ _ _ _ Hvid). pose proof (random_array_length _ _ _ _ Hroot).
  pose proof (random_array_length _ _ _ _ Hrk). pose proof (random_array_length _ _ _ _ Hsalt).
  pose proof (random_array_length _ _ _ _ Hn1). pose proof (random_array_length _ _ _ _ Hn2).
  pose proof (random_array_length _ _ _ _ Hn3).
  destruct (derive_password_key_Ok password salt) as (pk & Hpk & ?); [done..|].
  destruct (derive_key_Ok pk vid MASTER_WRAP_LABEL) as (mk & Hmk & ?).
  destruct (encrypt_fixed_key_total mk n1 root (encode_master_wrapper_aad vid INITIAL_KEY_EPOCH salt))
    as [mc Hmc]; [done..|].
  destruct (derive_key_Ok rk vid RECOVERY_WRAP_LABEL) as (ck & Hck & ?).
  destruct (encrypt_fixed_key_total ck n2 root (encode_recovery_wrapper_aad vid INITIAL_KEY_EPOCH))
    as [cc Hcc]; [done..|].
  destruct (encrypt_fixed_key_Ok _ _ _ _ _ Hmc) as [? _]; [done|].
  destruct (encrypt_fixed_key_Ok _ _ _ _ _ Hcc) as [? _]; [done|].
  set (h := {| vh_vault_id := vid; vh_key_epoch := INITIAL_KEY_EPOCH;
       vh_master_wrapper := {| mw_password_salt := salt; mw_nonce := n1; mw_wrapped_vrk := mc |};
       vh_recovery_wrapper := {| rw_nonce := n2; rw_wrapped_vrk := cc |} |}).
  assert (VaultHeader_wf h) as Hh by (by repeat split).
  pose proof (VaultHeader_encode_wf h Hh) as Hhe.
  destruct (derive_key_Ok root vid (MANIFEST_LABEL_PREFIX ++ to_be_bytes 4 INITIAL_KEY_EPOCH)) as (fk & Hfk & ?).
  assert (Manifest_wf (Manifest_empty t INITIAL_KEY_EPOCH)) as Hm by (by apply Manifest_empty_wf).
  destruct (manifest_seals fk n3 (encode_manifest_aad h n3) (Manifest_empty t INITIAL_KEY_EPOCH))
    as (image & fc & man & Hi & Hfc & Hman); [done..|].
  assert (∃ e, ManifestEnvelope_decode man = Ok e) as [e He'].
  { pose proof Hman as Hb. inv_ok Hb. eexists. by eapply sealed_manifest_opens. }
  eexists _, w7. unfold create_vault.
  eapply stm_bind_intro; [exact Hvid|]. eapply stm_bind_intro; [exact Hroot|].
  eapply stm_bind_intro; [exact Hrk|]. eapply stm_bind_intro; [exact Hsalt|].
  eapply stm_bind_intro; [exact Hn1|]. eapply stm_bind_intro; [exact Hn2|].
  eapply stm_bind_intro; [exact Hn3|]. eapply stm_bind_intro; [apply or_fail_intro, Hpk|].
  eapply stm_bind_intro; [apply or_fail_intro, Hmk|]. eapply stm_bind_intro; [apply of_result_intro, Hmc|].
  eapply stm_bind_intro; [apply or_fail_intro, Hck|]. eapply stm_bind_intro; [apply of_result_intro, Hcc|].
  eapply stm_bind_intro; [apply or_fail_intro, Hhe|]. eapply stm_bind_intro; [apply or_fail_intro, Hi|].
  eapply stm_bind_intro; [apply or_fail_intro, Hfk|]. eapply stm_bind_intro; [apply of_result_intro, Hfc|].
  eapply stm_bind_intro; [apply or_fail_intro, Hman|].
  eapply stm_bind_intro; [by apply or_fail_intro, VaultHeader_decode_iff|].
  eapply stm_bind_intro; [apply or_fail_intro, He'|]. done.
Qed.

Lemma create_vault_Ok password t (w : W) c w' :
  u64 t → create_vault password t w = (Ok c, w') →
  let v := cv_session c in
  represents v (cv_header c) (cv_manifest_envelope c) [] ∅
  ∧ uv_manifest v = Manifest_empty t INITIAL_KEY_EPOCH ∧ key_epoch v = INITIAL_KEY_EPOCH
  ∧ length (cv_recovery_key c) = KEY_BYTES
  ∧ opens_with_password password (uv_header v) (uv_vault_root_key v)
  ∧ opens_with_recovery_key (cv_recovery_key c) (uv_header v) (uv_vault_root_key v).
Proof.
  intros Ht Hc. unfold create_vault, or_fail in Hc. inv_stm Hc. cbn.
  repeat match goal with Hr : random_array _ _ = _ |- _ => apply random_array_length in Hr end.
  repeat match goal with He : encrypt_fixed_key _ _ _ _ = Ok _ |- _ =>
    apply encrypt_fixed_key_Ok in He as [? ?]; [|done] end.
  match goal with Hh : VaultHeader_encode ?h0 = Ok _ |- _ => set (h := h0) in *; pose proof Hh as Hhdr end.
  assert (VaultHeader_wf h) as Hh by (by repeat split).
  assert (Manifest_wf (Manifest_empty t INITIAL_KEY_EPOCH)) as Hm by (by apply Manifest_empty_wf).
  edestruct sealed_manifest_opens as (? & ? & ?); [exact Hm| |done..|]; [done|].
  split_and!; try done; [|by eexists _, _|by eexists].
  split; simpl.
  - by split.
  - by apply VaultHeader_decode_iff.
  - apply decrypt_manifest_Ok. eexists _, _, _. split_and!; done.
  - exists []. split; [|done]. by split; [|constructor| |].
Qed.

(** C31: creation and unlock: whenever the generator delivers and the password
    is within the limit, a vault is created; its session is at generation 0 of the
    first key epoch and its files represent the empty store; the same password and the
    generated recovery key both open the header to the session's root key; and unless
    somebody cancels, unlocking the files with the password gives back the session. *)
Theorem create_then_unlock password t (w : W) :
  entropic (W:=W) → u64 t → len password ≤ MAX_MASTER_PASSWORD_BYTES →
  ∃ c w', create_vault password t w = (Ok c, w') ∧
  let v := cv_session c in
  represents v (cv_header c) (cv_manifest_envelope c) [] ∅
  ∧ uv_manifest v = Manifest_empty t INITIAL_KEY_EPOCH ∧ key_epoch v = INITIAL_KEY_EPOCH
  ∧ length (cv_recovery_key c) = KEY_BYTES
  ∧ opens_with_password password (uv_header v) (uv_vault_root_key v)
  ∧ opens_with_recovery_key (cv_recovery_key c) (uv_header v) (uv_vault_root_key v)
  ∧ (undisturbed (W:=W) → ∀ w1,
      (unlock_empty_vault password (cv_header c) (cv_manifest_envelope c) w1).1 = Ok v).
Proof.
  intros He Ht Hp. destruct (create_vault_total password t w He Ht Hp) as (c & w' & Hc).
  exists c, w'. split; [done|].
  destruct (create_vault_Ok password t w c w' Ht Hc) as (Hr & ? & ? & ? & Ho & ?). split_and!; try done.
  intros Hu w1. destruct (unlock_vault_unlocks password (cv_header c) (cv_manifest_envelope c) [] w1)
    as (_ & _ & Hq). by eapply Hq.
Qed.

Lemma create_protector_Ok v installation_key credential_id salt prf_output (w : W) protector w' :
  UnlockedVault_wf v → length salt = 32%nat →
  create_windows_hello_protector v installation_key credential_id salt prf_output w = (Ok protector, w') →
  ∃ p, WindowsHelloProtector_decode protector = Ok p
    ∧ hp_vault_id p = vault_id v ∧ hp_key_epoch p = key_epoch v ∧ hp_credential_id p = credential_id
    ∧ hp_installation_id p = windows_hello_installation_id installation_key
    ∧ opens_with_windows_hello prf_output installation_key credential_id protector
        (uv_header v) (uv_vault_root_key v).
Proof.
  intros [Hk [? [? ?] _ _] _ _] Hs Hc. unfold create_windows_hello_protector, or_fail in Hc. inv_stm Hc.
  match goal with Hr : random_array _ _ = _ |- _ => apply random_array_length in Hr end.
  match goal with Hw : encrypt_fixed_key _ _ _ _ = Ok _ |- _ => apply encrypt_fixed_key_Ok in Hw as [? Hd]; [|done] end.
  repeat match goal with Hp : WindowsHelloProtector_new _ _ _ _ _ _ _ = Ok _ |- _ =>
    apply WindowsHelloProtector_new_Ok in Hp as [-> ?]; [|first [done|apply sha256_length]..] end.
  eexists. split; [by apply WindowsHelloProtector_decode_iff|]. split_and!; try done.
  eexists _, _. split_and!; [by apply WindowsHelloProtector_decode_iff|done..].
Qed.

Lemma create_protector_total v installation_key credential_id salt prf_output (w : W) :
  UnlockedVault_wf v → entropic (W:=W) → length salt = 32%nat →
  windows_hello_installation_id installation_key ≠ zeros 32 →
  credential_id ≠ [] → len credential_id ≤ MAX_WINDOWS_HELLO_CREDENTIAL_ID_BYTES →
  ∃ protector w',
    create_windows_hello_protector v installation_key credential_id salt prf_output w = (Ok protector, w').
Proof.
  intros [Hk [? [? ?] _ _] _ _] He Hs Hi Hn Hl.
  destruct (random_array_total 24 w He) as (nonce & w1 & Hnonce). pose proof (random_array_length _ _ _ _ Hnonce).
  set (p c := {| hp_vault_id := vault_id v; hp_key_epoch := key_epoch v;
      hp_installation_id := windows_hello_installation_id installation_key;
      hp_credential_id := credential_id; hp_prf_salt := salt; hp_nonce := nonce; hp_wrapped_vrk := c |}).
  assert (∀ c, length c = 48%nat → WindowsHelloProtector_wf (p c)) as Hwf.
  { intros c Hc. split; try done. split; [apply sha256_length|done]. }
  assert (∀ c, length c = 48%nat → WindowsHelloProtector_new (vault_id v) (key_epoch v)
      (windows_hello_installation_id installation_key) credential_id salt nonce c = Ok (p c)) as Hnew.
  { intros c Hc. apply WindowsHelloProtector_new_Ok; try done; [apply sha256_length|]. by split; [|apply Hwf]. }
  destruct (derive_key_Ok (prf_output ++ installation_key) (vault_id v) WINDOWS_HELLO_WRAP_LABEL) as (key & Hkey & ?).
  destruct (encrypt_fixed_key_total key nonce (uv_vault_root_key v)
    (encode_windows_hello_wrapper_aad (p (zeros WRAPPED_KEY_BYTES)))) as [c Hc]; [done..|].
  destruct (encrypt_fixed_key_Ok _ _ _ _ _ Hc) as [? _]; [done|].
  destruct (WindowsHelloProtector_encode_wf (p c)) as [Henc _]; [by apply Hwf|].
  eexists _, w1. unfold create_windows_hello_protector.
  eapply stm_bind_intro; [exact Hnonce|]. eapply stm_bind_intro; [by apply or_fail_intro, Hnew|].
  eapply stm_bind_intro; [apply or_fail_intro, Hkey|]. eapply stm_bind_intro; [apply of_result_intro, Hc|].
  apply or_fail_intro. cbn [hp_vault_id hp_key_epoch hp_installation_id hp_credential_id hp_prf_salt hp_nonce p].
  rewrite Hnew by done. exact Henc.
Qed.

(** C37: a Windows Hello protector is created exactly for a nonempty credential
    identifier within the limit (the installation identifier being nonzero); it opens
    the vault's header to the session's root key with the same result, installation
    key and credential, so that every represented snapshot is unlocked with it; and it
    opens no header of another vault or epoch, nor for another credential or
    installation identifier. *)
Theorem windows_hello_round_trip v installation_key credential_id salt prf_output (w : W) :
  UnlockedVault_wf v → entropic (W:=W) → length salt = 32%nat →
  windows_hello_installation_id installation_key ≠ zeros 32 →
  let create := create_windows_hello_protector v installation_key credential_id salt prf_output in
  (is_ok (create w).1 = true ↔
     credential_id ≠ [] ∧ len credential_id ≤ MAX_WINDOWS_HELLO_CREDENTIAL_ID_BYTES)
  ∧ ∀ protector w', create w = (Ok protector, w') →
    opens_with_windows_hello prf_output installation_key credential_id protector
      (uv_header v) (uv_vault_root_key v)
    ∧ (∀ hdr man rows m w1, represents v hdr man rows m → undisturbed (W:=W) →
        (unlock_vault_with_windows_hello prf_output installation_key credential_id protector
           hdr man rows w1).1 = Ok v)
    ∧ (∀ prf' installation' credential' h root,
        opens_with_windows_hello prf' installation' credential' protector h root →
        vh_vault_id h = vault_id v ∧ vh_key_epoch h = key_epoch v ∧ credential' = credential_id
        ∧ windows_hello_installation_id installation'
          = windows_hello_installation_id installation_key).
Proof.
  intros Hv He Hs Hi create. split; [split|].
  - intros Hok. unfold create in Hok.
    destruct (create_windows_hello_protector _ _ _ _ _ w) as [[protector|e|] w'] eqn:Hc; try done.
    apply create_protector_Ok in Hc as (p & Hp & _ & _ & <- & _); [|done..].
    apply WindowsHelloProtector_decode_iff in Hp as [Hw _]. apply Hw.
  - intros [Hn Hl]. destruct (create_protector_total v installation_key credential_id salt prf_output w)
      as (protector & w' & Hc); [done..|]. unfold create. by rewrite Hc.
  - intros protector w' Hc. apply create_protector_Ok in Hc as (p & Hp & Hid & Hep & Hcr & Hin & Ho); [|done..].
    split_and!; [done| |].
    + intros hdr man rows m w1 Hr Hu.
      destruct (unlock_with_windows_hello_unlocks prf_output installation_key credential_id protector hdr man rows w1)
        as (_ & _ & Hq). by eapply Hq.
    + intros prf' installation' credential' h root (p' & key & Hp' & ? & ? & ? & ? & _).
      rewrite Hp in Hp'. apply Ok_inj in Hp' as <-. split_and!; congruence.
Qed.
End creation.
End core_facts.

(** ** Examples *)

Module Examples.
Import Rfc8949 Toy VaultFormat.Examples.

Definition password : bytes := str "correct horse".
Definition created : option CreatedVault :=
  match (create_vault (W:=Z) password 5 0).1 with Ok c => Some c | _ => None end.
Definition header : bytes := from_option cv_header [] created.
Definition manifest : bytes := from_option cv_manifest_envelope [] created.

Lemma unlock_exact_witness :
  is_ok (unlock_vault (W:=Z) password header manifest [] 0).1 = true
  ∧ ∀ v, (unlock_vault (W:=Z) password header manifest [] 0).1 = Ok v →
      ∃ m, represents v header manifest [] m.
Proof.
  split; [vm_compute; reflexivity|]. intros v Hv.
  destruct (unlock_exact (W:=Z) password [] [] [] [] header manifest []) as [Hu _].
  exact (proj2 (proj1 (proj2 (Hu 0)) v Hv)).
Defined.

Lemma create_then_unlock_witness :
  ∃ c w', create_vault (W:=Z) password 5 0 = (Ok c, w')
    ∧ opens_with_password password (uv_header (cv_session c)) (uv_vault_root_key (cv_session c)).
Proof.
  destruct (create_then_unlock (W:=Z) password 5 0 toy_entropic) as (c & w' & Hc & _ & _ & _ & _ & Ho & _);
    [by split|by vm_compute|]. exact (ex_intro _ c (ex_intro _ w' (conj Hc Ho))).
Defined.

Definition session : UnlockedVault :=
  {| uv_vault_root_key := replicate 32 x05; uv_header := VaultFormat.Examples.header;
     uv_manifest := Manifest_empty 5 (vh_key_epoch VaultFormat.Examples.header) |}.
Lemma session_wf : UnlockedVault_wf session.
Proof. split; [done|apply header_wf|by apply Manifest_empty_wf|done]. Qed.

Lemma windows_hello_round_trip_witness :
  is_ok (create_windows_hello_protector (W:=Z) session (replicate 32 x07) (str "credential") (zeros 32)
    (replicate 32 x09) 0).1 = true.
Proof.
  apply (windows_hello_round_trip (W:=Z) session (replicate 32 x07) (str "credential") (zeros 32)
    (replicate 32 x09) 0 session_wf toy_entropic eq_refl); [by vm_compute|split; [done|by vm_compute]].
Defined.
End Examples.
