(* ===== verification/VaultRefine.v ===== *)
(** * The store that an unlocked vault implements
    ([crates/vault-core/src/records.rs])

    The abstract state of a vault is a finite map from record identifiers to
    decrypted records.  [VaultStore.represents] relates it to a session and the
    stored bytes.  The theorems say what every operation does to the map: a
    reading operation is a query of it, a prepared mutation, once committed,
    represents the updated map, and nothing is reported about a snapshot that
    represents no map. *)

From stdpp Require Import countable.
From S2P Require Import Prelude RustStd Cbor Wire VaultFormat VaultRecords VaultKeys VaultStore VaultCore.

Section refine.
Context `{MinicborLaws, CryptoLaws, UrlLaws}.
Context {W : Type} `{Env W, !EnvLaws W}.
Implicit Types (sc : W → bool * W).

(** ** Records of a represented store *)

Definition account_of (id : bytes) (revision created t : Z) (i : WebsiteAccountInput) : WebsiteAccount :=
  {| ac_id := id; ac_revision := revision; ac_created_at_ms := created; ac_modified_at_ms := t;
     ac_service_name := in_service_name i; ac_permitted_origin := in_permitted_origin i;
     ac_username := in_username i; ac_password := in_password i |}.

Definition account_plaintext (a : WebsiteAccount) : WebsiteAccountPlaintext :=
  {| wa_revision := ac_revision a; wa_created_at_ms := ac_created_at_ms a;
     wa_modified_at_ms := ac_modified_at_ms a; wa_service_name := ac_service_name a;
     wa_permitted_origin := ac_permitted_origin a; wa_username := ac_username a;
     wa_password := ac_password a |}.

Definition passkey_plaintext (modified : Z) (q : PasskeyRecord) : PasskeyPlaintext :=
  {| pk_revision := ps_revision q; pk_created_at_ms := ps_created_at_ms q; pk_modified_at_ms := modified;
     pk_signature_counter := ps_signature_counter q; pk_creation_state := ps_creation_state q;
     pk_rp_id := ps_rp_id q; pk_user_handle := ps_user_handle q; pk_user_name := ps_user_name q;
     pk_user_display_name := ps_user_display_name q; pk_credential_id := ps_credential_id q;
     pk_private_key := ps_private_key q |}.

(** What decryption guarantees of a record. *)
Definition record_wf (d : DecryptedRecord) : Prop :=
  match d with
  | DecryptedWebsiteAccount a =>
      WebsiteAccountPlaintext_wf (account_plaintext a)
      ∧ normalize_origin (ac_permitted_origin a) = Ok (ac_permitted_origin a)
  | DecryptedPasskey q =>
      (∃ modified, PasskeyPlaintext_wf (passkey_plaintext modified q))
      ∧ normalize_rp_id (ps_rp_id q) = Ok (ps_rp_id q) ∧ p256_scalar (ps_private_key q) = true
  end.

Lemma decrypt_record_wf v r d : decrypt_record v r = Ok d → record_wf d.
Proof.
  unfold decrypt_record. intros Hd. inv_ok Hd.
  match goal with t : RecordType |- _ => destruct t end;
    unfold decrypt_website_account_plaintext, decrypt_passkey_plaintext in *;
    match goal with H : _ ≫= _ = Ok d |- _ => inv_ok H end; simp_guards; subst.
  - match goal with H : WebsiteAccountPlaintext_decode _ = Ok ?x |- _ =>
      apply WebsiteAccountPlaintext_decode_iff in H as [? _]; destruct x end. done.
  - match goal with H : PasskeyPlaintext_decode _ = Ok ?x |- _ =>
      apply PasskeyPlaintext_decode_iff in H as [? _]; destruct x as [] eqn:Hx end.
    split; [by eexists|done].
Qed.

Lemma represents_wf v hdr man rows m i d :
  represents v hdr man rows m → m !! i = Some d → record_wf d ∧ record_id_of d = i ∧ length i = 16%nat.
Proof.
  intros [Hv _ _ (ds & Hr & ->)] [Hin <-]%contents_lookup; [|by eapply rows_NoDup].
  apply list_elem_of_lookup in Hin as [n Hn]. pose proof Hr as [_ _ _ Hd].
  destruct (Forall2_lookup_r _ _ _ _ _ Hd Hn) as (r & Hrn & Hdec).
  split_and!; [by eapply decrypt_record_wf|done|].
  rewrite (decrypt_record_id _ _ _ Hdec). eapply rows_typed; [done|done|by eapply list_elem_of_lookup_2].
Qed.

Lemma open_account id a pt :
  WebsiteAccountPlaintext_wf (account_plaintext a) → ac_id a = id →
  normalize_origin (ac_permitted_origin a) = Ok (ac_permitted_origin a) →
  WebsiteAccountPlaintext_encode (account_plaintext a) = Ok pt →
  open_plaintext id pt = Ok (DecryptedWebsiteAccount a) ∧ len pt ≤ 20000.
Proof.
  intros Hw Hid Hn He.
  assert (WebsiteAccountPlaintext_decode pt = Ok (account_plaintext a)) as Hdec
    by (by apply WebsiteAccountPlaintext_decode_iff).
  destruct (WebsiteAccountPlaintext_encode_wf _ Hw) as [He' Hl]. rewrite He' in He. apply Ok_inj in He as <-.
  split; [|done]. unfold open_plaintext. rewrite (record_type_website _ _ Hdec).
  cbn [map_err mbind result_bind]. unfold decrypt_website_account_plaintext. rewrite Hdec.
  cbn [map_err mbind result_bind account_plaintext wa_permitted_origin]. rewrite Hn.
  cbn [map_err mbind result_bind]. rewrite bool_decide_false by auto. subst id. by destruct a.
Qed.

Lemma open_passkey id modified q pt :
  PasskeyPlaintext_wf (passkey_plaintext modified q) → ps_id q = id →
  normalize_rp_id (ps_rp_id q) = Ok (ps_rp_id q) → p256_scalar (ps_private_key q) = true →
  PasskeyPlaintext_encode (passkey_plaintext modified q) = Ok pt →
  open_plaintext id pt = Ok (DecryptedPasskey q) ∧ len pt ≤ 20000.
Proof.
  intros Hw Hid Hn Hk He.
  assert (PasskeyPlaintext_decode pt = Ok (passkey_plaintext modified q)) as Hdec
    by (by apply PasskeyPlaintext_decode_iff).
  destruct (PasskeyPlaintext_encode_wf _ Hw) as [He' Hl]. rewrite He' in He. apply Ok_inj in He as <-.
  split; [|lia]. unfold open_plaintext. rewrite (record_type_passkey _ _ Hdec).
  cbn [map_err mbind result_bind]. unfold decrypt_passkey_plaintext. rewrite Hdec.
  cbn [map_err mbind result_bind passkey_plaintext pk_rp_id pk_private_key]. rewrite Hn.
  cbn [map_err mbind result_bind]. rewrite bool_decide_false by auto. rewrite Hk. subst id. by destruct q.
Qed.

(** ** Random identifiers *)

Lemma find_random_Ok n l accept (w : W) b w' :
  find_random n l accept w = (Ok b, w') → length b = l ∧ accept b = true.
Proof.
  revert w. induction n as [|n IH]; intros w Hf; [done|]. cbn in Hf.
  destruct (random_array l w) as [[c|e|] w1] eqn:Hr; [|by eauto..].
  destruct (accept c) eqn:Ha; [|by eauto]. injection Hf as -> ->.
  split; [by eapply random_array_length|done].
Qed.

(** ** Preparing website accounts *)

Lemma prepare_upsert_Ok v hdr man rows m kind id revision created i t (w : W) p w' :
  represents v hdr man rows m → WebsiteAccountInput_wf i → length id = 16%nat →
  u64 revision → u64 created → u64 t →
  prepare_upsert v kind id revision created i t w = (Ok p, w') →
  commits v hdr rows p (<[id := DecryptedWebsiteAccount (account_of id revision created t i)]> m)
  ∧ pm_id p = id ∧ pm_kind p = kind
  ∧ match kind with
    | MutationInsert => m !! id = None
    | MutationUpdate => is_Some (m !! id)
    | MutationDelete => False
    end.
Proof.
  intros Hrep [(?&?&?&?) (?&?&?&?&?) [? ?] [? ?]] Hid Hr Hc Ht Hp. unfold prepare_upsert in Hp. inv_stm Hp.
  match goal with H : WebsiteAccountPlaintext_new _ _ _ _ _ _ _ = Ok _ |- _ =>
    apply WebsiteAccountPlaintext_new_Ok in H as [-> Hw]; [|done..] end.
  edestruct (open_account id (account_of id revision created t i)) as [Hopen Hlen]; [done|done|done|done|].
  edestruct upsert_represents as (? & ? & ? & ? & ?); [done|done| |done|done|exact Hopen|done].
  match goal with |- u64 (len ?pt + _) => pose proof (len_nonneg pt) end. solve_size.
Qed.

Lemma get_website_account_Ok v hdr man rows id sc w a w' :
  UnlockedVault_wf v → get_website_account_with_check v hdr man rows id sc w = (Ok a, w') →
  ∃ m, represents v hdr man rows m ∧ m !! id = Some (DecryptedWebsiteAccount a).
Proof.
  intros Hv Hg. unfold get_website_account_with_check in Hg. inv_stm Hg.
  match goal with H : read_snapshot _ _ _ _ _ _ _ _ = _ |- _ =>
    apply read_snapshot_Ok in H as (ds & Hrows & Hrep & ->); [|done] end.
  exists (contents ds). split; [done|].
  match goal with H : foldl _ _ _ = Some _ |- _ => rewrite foldl_account in H by (by eapply rows_NoDup) end.
  destruct (contents ds !! id ≫= as_account) as [b|] eqn:Hb; [|done]. simplify_eq.
  apply bind_Some in Hb as ([c|q] & Hl & ?); simplify_eq/=. done.
Qed.

Lemma represents_unique v hdr man rows m m' :
  represents v hdr man rows m → represents v hdr man rows m' → m = m'.
Proof.
  intros [_ _ _ (ds & Hr & ->)] [_ _ _ (ds' & Hr' & ->)]. by rewrite (rows_hold_unique _ _ _ _ Hr Hr').
Qed.

Lemma authenticate_only_Ok v hdr man rows sc (w : W) u u' w1 w' :
  UnlockedVault_wf v → authenticate_snapshot_metadata v hdr man = Ok u →
  authenticate_records_only_with_check v rows sc w = (Ok u', w1) → w1 = w' →
  ∃ m, represents v hdr man rows m.
Proof.
  intros Hv [? ?]%metadata_Ok Ha _. unfold authenticate_records_only_with_check in Ha. inv_stm Ha.
  apply visit_Ok in Ha as (ds & Hds & _). exists (contents ds). split; try done. by exists ds.
Qed.

Lemma allocate_record_id_Ok v (w : W) b w' : allocate_record_id v w = (Ok b, w') → length b = 16%nat.
Proof.
  unfold allocate_record_id. generalize MAX_RECORD_ID_ATTEMPTS. intros n Hf.
  by apply find_random_Ok in Hf as [? _].
Qed.

(** *** What the mutations of website accounts do to the map *)

Definition account_added (i : WebsiteAccountInput) (t : Z) (id : bytes) (m m' : gmap bytes DecryptedRecord) :
    Prop :=
  m !! id = None ∧ m' = <[id := DecryptedWebsiteAccount (account_of id 1 t t i)]> m.

Definition account_updated (i : WebsiteAccountInput) (t : Z) (id : bytes) (m m' : gmap bytes DecryptedRecord) :
    Prop :=
  ∃ a, m !! id = Some (DecryptedWebsiteAccount a) ∧ ac_revision a + 1 < 2 ^ 64
    ∧ m' = <[id := DecryptedWebsiteAccount
                     (account_of id (ac_revision a + 1) (ac_created_at_ms a) t i)]> m.

Definition account_deleted (id : bytes) (m m' : gmap bytes DecryptedRecord) : Prop :=
  (∃ a, m !! id = Some (DecryptedWebsiteAccount a)) ∧ m' = delete id m.

(** The snapshot represents a map, and the mutation [p], once committed, a map
    related to it by [update]. *)
Definition refines (v : UnlockedVault) (hdr man : bytes) (rows : list EncryptedRecord)
    (p : PreparedRecordMutation) (update : gmap bytes DecryptedRecord → gmap bytes DecryptedRecord → Prop) :
    Prop :=
  ∃ m m', represents v hdr man rows m ∧ update m m' ∧ commits v hdr rows p m'.

Lemma add_account_refines v hdr man rows i t sc (w w' : W) p :
  UnlockedVault_wf v → u64 t → WebsiteAccountInput_wf i →
  prepare_add_website_account_with_check v hdr man rows i t sc w = (Ok p, w') →
  refines v hdr man rows p (account_added i t (pm_id p)) ∧ pm_kind p = MutationInsert.
Proof.
  intros Hv Ht Hi Hp. unfold prepare_add_website_account_with_check, prepare_add_with_entropy in Hp.
  inv_stm Hp.
  match goal with H : allocate_record_id _ _ = _ |- _ => apply allocate_record_id_Ok in H as Hid end.
  edestruct authenticate_only_Ok as [m Hm]; [done..|].
  match goal with H : prepare_upsert _ _ _ _ _ _ _ _ = _ |- _ =>
    eapply prepare_upsert_Ok in H as (Hc & <- & ? & ?); try done end.
  split; [|done]. by eexists m, _.
Qed.

Lemma update_account_refines v hdr man rows id i t sc (w w' : W) p :
  UnlockedVault_wf v → u64 t → WebsiteAccountInput_wf i →
  prepare_update_website_account_with_check v hdr man rows id i t sc w = (Ok p, w') →
  refines v hdr man rows p (account_updated i t id) ∧ pm_kind p = MutationUpdate.
Proof.
  intros Hv Ht Hi Hp. unfold prepare_update_website_account_with_check in Hp. inv_stm Hp. simp_guards. subst.
  match goal with H : get_website_account_with_check _ _ _ _ _ _ _ = _ |- _ =>
    apply get_website_account_Ok in H as (m & Hm & Ha); [|done] end.
  destruct (represents_wf _ _ _ _ _ _ _ Hm Ha) as ([[[? ?] [? ?] _ _ _ _] _] & _ & Hid). simpl in *.
  match goal with H : prepare_upsert _ _ _ _ _ _ _ _ = _ |- _ =>
    eapply prepare_upsert_Ok in H as (Hc & ? & ? & ?); try done; try (unfold uint in *; lia) end.
  split; [|done]. eexists m, _. split_and!; [done| |done]. by exists x.
Qed.

Lemma delete_account_refines v hdr man rows id t sc (w w' : W) p :
  UnlockedVault_wf v → u64 t →
  prepare_delete_website_account_with_check v hdr man rows id t sc w = (Ok p, w') →
  refines v hdr man rows p (account_deleted id) ∧ pm_kind p = MutationDelete.
Proof.
  intros Hv Ht Hp. unfold prepare_delete_website_account_with_check in Hp. inv_stm Hp.
  match goal with H : get_website_account_with_check _ _ _ _ _ _ _ = _ |- _ =>
    apply get_website_account_Ok in H as (m & Hm & Ha); [|done] end.
  match goal with H : prepare_manifest_mutation _ _ _ _ _ _ _ = _ |- _ =>
    eapply delete_represents in H as (Hc & ? & ? & ?); try done end.
  split; [|done]. eexists m, _. split_and!; [done| |done]. split; [by eexists|done].
Qed.

(** C22: website-account mutations refine updates of a map: when one of the
    three preparations succeeds on a snapshot, the snapshot represents a map, the
    prepared mutation is accepted by the stored rows and by the session, and the
    result (the rows after it, the new manifest, the session one generation later)
    represents the map with the account inserted under a fresh identifier, replaced
    with its creation time kept and its revision advanced by one, or removed. *)
Theorem account_mutations_refine v hdr man rows t sc (w w' : W) p :
  UnlockedVault_wf v → u64 t →
  (∀ i, WebsiteAccountInput_wf i →
    prepare_add_website_account_with_check v hdr man rows i t sc w = (Ok p, w') →
    refines v hdr man rows p (account_added i t (pm_id p)) ∧ pm_kind p = MutationInsert) ∧
  (∀ id i, WebsiteAccountInput_wf i →
    prepare_update_website_account_with_check v hdr man rows id i t sc w = (Ok p, w') →
    refines v hdr man rows p (account_updated i t id) ∧ pm_kind p = MutationUpdate) ∧
  (∀ id,
    prepare_delete_website_account_with_check v hdr man rows id t sc w = (Ok p, w') →
    refines v hdr man rows p (account_deleted id) ∧ pm_kind p = MutationDelete).
Proof.
  intros Hv Ht. split_and!; intros.
  - by eapply add_account_refines.
  - by eapply update_account_refines.
  - by eapply delete_account_refines.
Qed.

(** ** Passkeys *)

Definition as_passkey (d : DecryptedRecord) : option PasskeyRecord :=
  match d with DecryptedPasskey q => Some q | DecryptedWebsiteAccount _ => None end.

Lemma contents_passkey v rows ds q :
  rows_hold v rows ds → q ∈ omap as_passkey ds ↔ contents ds !! ps_id q = Some (DecryptedPasskey q).
Proof.
  intros Hr. rewrite contents_lookup by (by eapply rows_NoDup). rewrite list_elem_of_omap. split.
  - intros ([a|q'] & Hin & [= <-]). done.
  - intros [Hin _]. by eexists.
Qed.

(** The visit that looks for a credential. *)
Lemma foldl_credential ds c :
  let l := filter (λ q, ps_credential_id q = c) (omap as_passkey ds) in
  foldl (λ acc d, credential_visit c d acc) (None, false) ds = (last l, bool_decide (2 ≤ length l)%nat).
Proof.
  induction ds as [|d ds IH] using rev_ind; [done|]. cbv zeta in *. rewrite foldl_app, IH, omap_app, filter_app.
  set (l := filter _ (omap as_passkey ds)). cbn [foldl].
  destruct d as [a|q]; cbn [omap list_omap as_passkey credential_visit]; [by rewrite filter_nil, app_nil_r|].
  rewrite filter_cons, filter_nil. destruct (decide (ps_credential_id q = c)) as [Hq|Hq].
  - rewrite bool_decide_true, last_snoc by done. f_equal.
    destruct l as [|b [|b' l]]; [done|done|]. simpl. by destruct (last (b' :: l)) eqn:Hl; [|by apply last_None in Hl].
  - by rewrite bool_decide_false, app_nil_r by done.
Qed.

(** The passkey with a credential identifier, and no other one. *)
Definition only_passkey (m : gmap bytes DecryptedRecord) (c : bytes) (q : PasskeyRecord) : Prop :=
  ps_credential_id q = c ∧ m !! ps_id q = Some (DecryptedPasskey q)
  ∧ ∀ i q', m !! i = Some (DecryptedPasskey q') → ps_credential_id q' = c → q' = q.

Lemma credential_found v rows ds c q :
  rows_hold v rows ds →
  foldl (λ acc d, credential_visit c d acc) (None, false) ds = (Some q, false) →
  only_passkey (contents ds) c q.
Proof.
  intros Hr. rewrite foldl_credential. intros [= Hl Hd]. simp_guards.
  set (l := filter _ (omap as_passkey ds)) in *.
  assert (l = [q]) as Hlq.
  { destruct l as [|a [|b l]]; [done|by simplify_eq/=|simpl in Hd; lia]. }
  assert (∀ q', q' ∈ l ↔ ps_credential_id q' = c ∧ contents ds !! ps_id q' = Some (DecryptedPasskey q')) as Hin.
  { intros q'. unfold l. by rewrite list_elem_of_filter, (contents_passkey v rows). }
  destruct (proj1 (Hin q)) as [Hc Hm]; [rewrite Hlq; by left|]. split_and!; [done|done|].
  intros i q' Hi Hc'. apply contents_lookup in Hi as Hi'; [|by eapply rows_NoDup].
  destruct Hi' as [_ Hid]. simpl in Hid. subst i.
  assert (q' ∈ l) as Hq' by (by apply Hin). rewrite Hlq in Hq'. by apply list_elem_of_singleton in Hq'.
Qed.

Lemma find_passkey_Ok v hdr man rows c sc w q w' :
  UnlockedVault_wf v → find_passkey v hdr man rows c sc w = (Ok q, w') →
  ∃ m, represents v hdr man rows m ∧ only_passkey m c q.
Proof.
  intros Hv Hf. unfold find_passkey in Hf. inv_stm Hf.
  match goal with H : read_snapshot _ _ _ _ _ _ _ _ = _ |- _ =>
    apply read_snapshot_Ok in H as (ds & Hrows & Hrep & Hfold); [|done] end.
  destruct x as [found dup]. inv_stm Hok0. subst.
  exists (contents ds). split; [done|]. by eapply credential_found.
Qed.

(** The visit that collects the credential identifiers. *)
Lemma foldl_exclusion rp excluded ds :
  let '(existing, invalid, conflict) :=
    foldl (λ acc d, exclusion_visit rp excluded d acc) (∅, false, false) ds in
  invalid = false →
  NoDup (ps_credential_id <$> omap as_passkey ds)
  ∧ existing = list_to_set (ps_credential_id <$> omap as_passkey ds)
  ∧ (conflict = true ↔ ∃ q, q ∈ omap as_passkey ds ∧ ps_rp_id q = rp ∧ ps_credential_id q ∈ excluded).
Proof.
  induction ds as [|d ds IH] using rev_ind.
  { simpl. intros _. split_and!; [constructor|done|]. split; [done|]. by intros (q & ?%elem_of_nil & _). }
  rewrite foldl_app. cbn [foldl].
  destruct (foldl _ _ ds) as [[existing invalid] conflict].
  rewrite omap_app, fmap_app. destruct d as [a|q]; cbn [omap list_omap as_passkey exclusion_visit].
  { by rewrite !app_nil_r. }
  case_bool_decide as Hin; [done|]. intros ->. destruct IH as (Hnd & -> & Hc); [done|].
  rewrite elem_of_list_to_set in Hin. split_and!.
  - apply NoDup_app. split_and!; [done| |apply NoDup_singleton].
    intros c Hc' ->%list_elem_of_singleton. done.
  - rewrite list_to_set_app_L. cbn. set_solver.
  - setoid_rewrite elem_of_app. setoid_rewrite list_elem_of_singleton.
    destruct (bool_decide (ps_rp_id q = rp)) eqn:Hr, (bool_decide (ps_credential_id q ∈ excluded)) eqn:He;
      simpl; simp_guards; rewrite ?Hc; naive_solver.
Qed.

Lemma passkey_upsert_Ok v hdr man rows m kind q modified pt t (w : W) p w' :
  represents v hdr man rows m → length (ps_id q) = 16%nat → u64 t →
  PasskeyPlaintext_wf (passkey_plaintext modified q) → normalize_rp_id (ps_rp_id q) = Ok (ps_rp_id q) →
  p256_scalar (ps_private_key q) = true → PasskeyPlaintext_encode (passkey_plaintext modified q) = Ok pt →
  prepare_plaintext_upsert v kind (ps_id q) pt t w = (Ok p, w') →
  commits v hdr rows p (<[ps_id q := DecryptedPasskey q]> m) ∧ pm_id p = ps_id q ∧ pm_kind p = kind
  ∧ mf_committed_at_ms (pm_next_manifest p) = t
  ∧ match kind with
    | MutationInsert => m !! ps_id q = None
    | MutationUpdate => is_Some (m !! ps_id q)
    | MutationDelete => False
    end.
Proof.
  intros Hrep Hid Ht Hw Hn Hk He Hp. destruct (open_passkey _ _ _ _ Hw eq_refl Hn Hk He) as [Ho Hl].
  eapply upsert_represents; try done. pose proof (len_nonneg pt). solve_size.
Qed.

Lemma generate_signing_key_Ok n (w : W) k w' :
  generate_signing_key n w = (Ok k, w') → p256_scalar k = true.
Proof.
  revert w. induction n as [|n IH]; intros w Hg; [done|]. cbn [generate_signing_key] in Hg. inv_stm Hg.
  case_match eqn:Hs; [|by eapply IH]. inv_stm Hok0. done.
Qed.

Lemma signing_key_Ok (w : W) k w' :
  generate_signing_key MAX_RECORD_ID_ATTEMPTS w = (Ok k, w') → p256_scalar k = true.
Proof. generalize MAX_RECORD_ID_ATTEMPTS. intros n. apply generate_signing_key_Ok. Qed.

Lemma allocate_credential_id_Ok existing (w : W) b w' :
  allocate_credential_id existing w = (Ok b, w') → length b = 32%nat ∧ b ≠ zeros 32 ∧ b ∉ existing.
Proof.
  unfold allocate_credential_id. generalize MAX_RECORD_ID_ATTEMPTS. intros n Hf.
  apply find_random_Ok in Hf as [? Ha]. simp_guards. done.
Qed.

Lemma passkey_times created committed t :
  u64 created → u64 committed → u64 t →
  u64 (passkey_update_time created committed t) ∧ created ≤ passkey_update_time created committed t
  ∧ committed ≤ passkey_update_time created committed t ∧ t ≤ passkey_update_time created committed t.
Proof. unfold passkey_update_time, passkey_manifest_time, uint. lia. Qed.

Definition passkeys_of (m : gmap bytes DecryptedRecord) : list PasskeyRecord :=
  omap as_passkey (map_to_list m).*2.

Lemma passkeys_of_contents v rows ds : rows_hold v rows ds → passkeys_of (contents ds) ≡ₚ omap as_passkey ds.
Proof.
  intros Hr. pose proof (rows_NoDup _ _ _ Hr) as Hnd.
  assert (((λ d, (record_id_of d, d)) <$> ds).*2 = ds) as Hds.
  { clear. induction ds as [|d ds IH]; [done|]. cbn. f_equal. exact IH. }
  unfold passkeys_of, contents. rewrite map_to_list_to_map by (by rewrite <-list_fmap_compose).
  by rewrite Hds.
Qed.

(** A passkey with its counter, revision and creation state advanced. *)
Definition passkey_next (revision counter : Z) (state : PasskeyCreationState) (q : PasskeyRecord) :
    PasskeyRecord :=
  {| ps_id := ps_id q; ps_revision := revision; ps_created_at_ms := ps_created_at_ms q;
     ps_signature_counter := counter; ps_creation_state := state; ps_rp_id := ps_rp_id q;
     ps_user_handle := ps_user_handle q; ps_user_name := ps_user_name q;
     ps_user_display_name := ps_user_display_name q; ps_credential_id := ps_credential_id q;
     ps_private_key := ps_private_key q |}.

Lemma passkey_advance_Ok v hdr man rows m q revision counter state modified plaintext pt t (w : W) p w' :
  represents v hdr man rows m → m !! ps_id q = Some (DecryptedPasskey q) → u64 revision → u64 modified →
  u64 t → u32 counter →
  PasskeyPlaintext_new revision (ps_created_at_ms q) modified counter state (ps_rp_id q) (ps_user_handle q)
    (ps_user_name q) (ps_user_display_name q) (ps_credential_id q) (ps_private_key q) = Ok plaintext →
  PasskeyPlaintext_encode plaintext = Ok pt →
  prepare_plaintext_upsert v MutationUpdate (ps_id q) pt t w = (Ok p, w') →
  pm_kind p = MutationUpdate
  ∧ commits v hdr rows p (<[ps_id q := DecryptedPasskey (passkey_next revision counter state q)]> m).
Proof.
  intros Hrep Hq Hr Hm Ht Hc Hnew He Hp.
  destruct (represents_wf _ _ _ _ _ _ _ Hrep Hq) as (((mo & [_ [? ?] _ (?&?) _ (?&?) (?&?) [? ?] [? ?]]) & Hn & Hk) & _ & Hid).
  simpl in *. apply PasskeyPlaintext_new_Ok in Hnew as [-> Hw]; try done; [|unfold uint in *; lia].
  eapply (passkey_upsert_Ok v hdr man rows m MutationUpdate (passkey_next revision counter state q) modified)
    in Hp as (? & ? & ? & ? & ?); done.
Qed.

(** *** What the mutations of passkeys do to the map *)

Definition passkey_added (i : PasskeyInput) (excluded : list bytes) (state : PasskeyCreationState)
    (c : PasskeyCredential) (id : bytes) (m m' : gmap bytes DecryptedRecord) : Prop :=
  m !! id = None ∧ len (passkeys_of m) < MAX_PASSKEY_CREDENTIALS
  ∧ pc_credential_id c ≠ zeros 32 ∧ pc_user_handle c = pi_user_handle i
  ∧ (∀ j q', m !! j = Some (DecryptedPasskey q') →
       ps_credential_id q' ≠ pc_credential_id c
       ∧ (ps_rp_id q' = pi_rp_id i → ps_credential_id q' ∉ excluded))
  ∧ ∃ q, ps_id q = id ∧ ps_revision q = 1 ∧ ps_signature_counter q = 0 ∧ ps_creation_state q = state
      ∧ ps_rp_id q = pi_rp_id i ∧ ps_user_handle q = pi_user_handle i ∧ ps_user_name q = pi_user_name i
      ∧ ps_credential_id q = pc_credential_id c
      ∧ p256_scalar (ps_private_key q) = true ∧ pc_public_key c = p256_point (ps_private_key q)
      ∧ m' = <[id := DecryptedPasskey q]> m.

Definition passkey_confirmed (c : bytes) (m m' : gmap bytes DecryptedRecord) : Prop :=
  ∃ q, only_passkey m c q ∧ ps_creation_state q = Pending
    ∧ m' = <[ps_id q := DecryptedPasskey
        (passkey_next (ps_revision q + 1) (ps_signature_counter q) Confirmed q)]> m.

Definition passkey_asserted (rp c hash : bytes) (a : PasskeyAssertion) (m m' : gmap bytes DecryptedRecord) :
    Prop :=
  ∃ q, only_passkey m c q ∧ ps_creation_state q = Confirmed
    ∧ normalize_rp_id rp = Ok (ps_rp_id q) ∧ ps_signature_counter q + 1 < 2 ^ 32
    ∧ pa_credential_id a = ps_credential_id q ∧ pa_user_handle a = ps_user_handle q
    ∧ pa_authenticator_data a = authenticator_data_of (ps_rp_id q) (ps_signature_counter q + 1)
    ∧ pa_signature_der a = p256_sign (ps_private_key q) (pa_authenticator_data a ++ hash)
    ∧ m' = <[ps_id q := DecryptedPasskey
        (passkey_next (ps_revision q + 1) (ps_signature_counter q + 1) Confirmed q)]> m.

Definition passkey_deleted (c : bytes) (m m' : gmap bytes DecryptedRecord) : Prop :=
  ∃ q, only_passkey m c q ∧ m' = delete (ps_id q) m.

Lemma add_passkey_refines v hdr man rows i excluded state t sc (w w' : W) p c :
  UnlockedVault_wf v → u64 t → PasskeyInput_wf i →
  prepare_add_passkey_with_check v hdr man rows i excluded state t sc w = (Ok (p, c), w') →
  refines v hdr man rows p (passkey_added i excluded state c (pm_id p)) ∧ pm_kind p = MutationInsert.
Proof.
  intros Hv Ht. pose proof Hv as [_ _ [_ _ _ Hcr Hco _ _ _] _].
  assert (u64 (mf_committed_at_ms (uv_manifest v))) as Hcom by (unfold uint; lia).
  intros [(?&?&?&?&?) [? ?] (?&?&?&?) (?&?&?&?)] Hp.
  unfold prepare_add_passkey_with_check in Hp.
  apply stm_bind_Ok in Hp as (acc & w1 & Hread & Hp).
  apply read_snapshot_Ok in Hread as (ds & Hrows & Hrep & Hfold); [|done].
  pose proof (foldl_exclusion (pi_rp_id i) excluded ds) as Hex. rewrite <-Hfold in Hex.
  destruct acc as [[existing invalid] conflict]. inv_stm Hp. simp_guards. subst.
  destruct Hex as (Hnd & Hset & Hconf); [done|].
  repeat match goal with
  | H : allocate_record_id _ _ = _ |- _ => apply allocate_record_id_Ok in H as Hid
  | H : allocate_credential_id _ _ = _ |- _ => apply allocate_credential_id_Ok in H as (?&?&Hfresh)
  end.
  match goal with H : PasskeyPlaintext_new _ _ _ _ _ _ _ _ _ _ _ = Ok _ |- _ => rename H into Hnew end.
  match goal with H : p256_scalar _ = true |- _ => pose proof (p256_scalar_length _ H) as [? ?] end.
  assert (u64 (passkey_manifest_time (mf_committed_at_ms (uv_manifest v)) t))
    by (unfold passkey_manifest_time, uint in *; lia).
  apply PasskeyPlaintext_new_Ok in Hnew as [-> Hw]; try done.
  match goal with H : prepare_plaintext_upsert _ _ ?id _ ?t' _ = _, _ : ?ci ∉ _,
      _ : p256_scalar ?k = true |- _ =>
    set (q := {| ps_id := id; ps_revision := 1; ps_created_at_ms := t'; ps_signature_counter := 0;
         ps_creation_state := state; ps_rp_id := pi_rp_id i; ps_user_handle := pi_user_handle i;
         ps_user_name := pi_user_name i; ps_user_display_name := pi_user_display_name i;
         ps_credential_id := ci; ps_private_key := k |});
    eapply (passkey_upsert_Ok v hdr man rows (contents ds) MutationInsert q t')
      in H as (Hc & Hpid & Hkind & _ & Hnone); try done end.
  unfold has_passkey_capacity in *. simp_guards.
  split; [|done]. eexists (contents ds), _. rewrite Hpid. split_and!; [done| |exact Hc].
  split_and!; [done| |done|done| |by exists q].
  + unfold len. rewrite (passkeys_of_contents _ _ _ Hrows), <-(length_fmap ps_credential_id),
      <-(size_list_to_set (C:=gset bytes)), <-Hset by done. done.
  + intros j q' Hj. assert (q' ∈ omap as_passkey ds) as Hq'.
    { apply (contents_passkey _ _ _ _ Hrows). apply contents_lookup in Hj as Hj'; [|by eapply rows_NoDup].
      destruct Hj' as [_ <-]. done. }
    split.
    * intros He. apply Hfresh. rewrite Hset, elem_of_list_to_set. simpl in He. rewrite <-He. by apply list_elem_of_fmap_2.
    * intros Hrp Hin. assert (false = true); [|done]. apply Hconf. by exists q'.
Qed.

Lemma confirm_passkey_refines v hdr man rows c t sc (w w' : W) p :
  UnlockedVault_wf v → u64 t →
  prepare_confirm_passkey_creation_with_check v hdr man rows c t sc w = (Ok p, w') →
  refines v hdr man rows p (passkey_confirmed c).
Proof.
  intros Hv Ht. pose proof Hv as [_ _ [_ _ _ Hcr Hco _ _ _] _].
  assert (u64 (mf_committed_at_ms (uv_manifest v))) as Hcom by (unfold uint; lia).
  intros Hp. unfold prepare_confirm_passkey_creation_with_check in Hp. inv_stm Hp. simp_guards. subst.
  match goal with H : find_passkey _ _ _ _ _ _ _ = _ |- _ =>
    apply find_passkey_Ok in H as (m & Hm & Ho); [|done] end.
  pose proof Ho as (_ & Hq & _).
  destruct (represents_wf _ _ _ _ _ _ _ Hm Hq) as (((mo & [[??] [[??]?] ? _ _ _ _ _ _]) & _) & _). simpl in *.
  destruct (passkey_times (ps_created_at_ms x) (mf_committed_at_ms (uv_manifest v)) t) as (? & _);
    [unfold uint; lia|done|done|].
  eexists m, _. split_and!; [done|by exists x|].
  eapply passkey_advance_Ok; try done. unfold uint in *; lia.
Qed.

Lemma assert_passkey_refines v hdr man rows rp c hash t sc (w w' : W) p a :
  UnlockedVault_wf v → u64 t →
  prepare_passkey_assertion_with_check v hdr man rows rp c hash t sc w = (Ok (p, a), w') →
  refines v hdr man rows p (passkey_asserted rp c hash a).
Proof.
  intros Hv Ht. pose proof Hv as [_ _ [_ _ _ Hcr Hco _ _ _] _].
  assert (u64 (mf_committed_at_ms (uv_manifest v))) as Hcom by (unfold uint; lia).
  intros Hp. unfold prepare_passkey_assertion_with_check in Hp.
  apply stm_bind_Ok in Hp as (u & w1 & Hmeta & Hp). apply of_result_Ok in Hmeta as [[? ?]%metadata_Ok ->].
  apply stm_bind_Ok in Hp as (rp' & w2 & Hrp & Hp). apply of_result_Ok in Hrp as [Hrp%map_err_Ok ->].
  apply stm_bind_Ok in Hp as (acc & w3 & Hvisit & Hp).
  apply map_err_st_Ok, visit_Ok in Hvisit as (ds & Hrows & Hfold).
  destruct acc as [found dup]. inv_stm Hp. simp_guards. subst.
  match goal with H : (Some ?q, false) = _ |- _ =>
    pose proof (credential_found v rows ds c q Hrows (eq_sym H)) as Ho end.
  assert (represents v hdr man rows (contents ds)) as Hm by (split; try done; by exists ds).
  pose proof Ho as (_ & Hq & _).
  destruct (represents_wf _ _ _ _ _ _ _ Hm Hq) as (((mo & [[??] [[??]?] [? ?] _ _ _ _ _ _]) & _) & _). simpl in *.
  match type of Hq with _ !! ps_id ?q = _ =>
  destruct (passkey_times (ps_created_at_ms q) (mf_committed_at_ms (uv_manifest v)) t) as (? & _);
    [unfold uint; lia|done|done|];
  eexists (contents ds), _; split_and!; [done|exists q; split_and!; try done; symmetry; apply Ho|] end.
  eapply passkey_advance_Ok; try done; unfold uint in *; lia.
Qed.

Lemma delete_passkey_refines v hdr man rows c t sc (w w' : W) p :
  UnlockedVault_wf v → u64 t →
  prepare_delete_passkey_with_check v hdr man rows c t sc w = (Ok p, w') →
  refines v hdr man rows p (passkey_deleted c).
Proof.
  intros Hv Ht. pose proof Hv as [_ _ [_ _ _ Hcr Hco _ _ _] _].
  assert (u64 (mf_committed_at_ms (uv_manifest v))) as Hcom by (unfold uint; lia).
  intros Hp. unfold prepare_delete_passkey_with_check in Hp. inv_stm Hp.
  match goal with H : find_passkey _ _ _ _ _ _ _ = _ |- _ =>
    apply find_passkey_Ok in H as (m & Hm & Ho); [|done] end.
  pose proof Ho as (_ & Hq & _).
  match goal with H : prepare_manifest_mutation _ _ _ _ _ _ _ = _ |- _ =>
    eapply delete_represents in H as (? & ? & ? & ?); [|done| |done] end.
  + eexists m, _. split_and!; [done|by exists x|done].
  + unfold passkey_manifest_time, uint in *. lia.
Qed.

(** Passkey mutations refine updates of the same map: a new passkey has a
    fresh record identifier, a fresh nonzero credential identifier, a valid signing
    key whose public point is returned, and respects the exclusion list and the
    limit of 64; confirmation is applied to the only passkey with the identifier and
    only if it is pending; an assertion is made by the only passkey with the
    identifier, confirmed and for the exact relying party, advances its 32-bit
    counter by exactly one without wrapping, and signs the authenticator data with
    that counter and the client's hash; deletion removes the only passkey with the
    identifier. *)
Theorem passkey_mutations_refine v hdr man rows t sc (w w' : W) p :
  UnlockedVault_wf v → u64 t →
  (∀ i excluded state c, PasskeyInput_wf i →
    prepare_add_passkey_with_check v hdr man rows i excluded state t sc w = (Ok (p, c), w') →
    refines v hdr man rows p (passkey_added i excluded state c (pm_id p)) ∧ pm_kind p = MutationInsert) ∧
  (∀ c, prepare_confirm_passkey_creation_with_check v hdr man rows c t sc w = (Ok p, w') →
    refines v hdr man rows p (passkey_confirmed c)) ∧
  (∀ rp c hash a,
    prepare_passkey_assertion_with_check v hdr man rows rp c hash t sc w = (Ok (p, a), w') →
    refines v hdr man rows p (passkey_asserted rp c hash a)) ∧
  (∀ c, prepare_delete_passkey_with_check v hdr man rows c t sc w = (Ok p, w') →
    refines v hdr man rows p (passkey_deleted c)).
Proof.
  intros Hv Ht. split_and!; intros.
  - by eapply add_passkey_refines.
  - by eapply confirm_passkey_refines.
  - by eapply assert_passkey_refines.
  - by eapply delete_passkey_refines.
Qed.

(** ** Reading *)

Lemma quiet_read {A} v hdr man rows m sc (f : DecryptedRecord → A → A) acc (w : W) :
  (∀ w, (sc w).1 = false) → represents v hdr man rows m →
  ∃ ds w', rows_hold v rows ds ∧ m = contents ds
    ∧ read_snapshot v hdr man rows sc f acc w = (Ok (foldl (λ acc d, f d acc) acc ds), w').
Proof. apply read_snapshot_quiet. Qed.

Lemma account_reads v hdr man rows m sc (w : W) :
  represents v hdr man rows m → (∀ w, (sc w).1 = false) →
  (list_website_accounts v hdr man rows w).1 = Ok (accounts_of m)
  ∧ (∀ offset limit, 0 ≤ offset → 1 ≤ limit ≤ MAX_WEBSITE_ACCOUNT_PAGE_SIZE → offset + limit < 2 ^ 64 →
      (list_website_account_page_with_check v hdr man rows offset limit sc w).1 =
        Ok (take (Z.to_nat limit) (drop (Z.to_nat offset) (accounts_of m)),
            bool_decide (offset + limit < len (accounts_of m))))
  ∧ (∀ id, (get_website_account_with_check v hdr man rows id sc w).1 =
      match m !! id with
      | Some (DecryptedWebsiteAccount a) => Ok a
      | _ => Err RecordNotFound
      end)
  ∧ (∀ origin, (unique_browser_account_with_check v hdr man rows origin sc w).1 =
      Ok (sole (origin_matches origin (accounts_of m)))).
Proof.
  intros Hrep Hq. split_and!.
  - unfold list_website_accounts.
    destruct (quiet_read v hdr man rows m never_cancelled
      (λ d accounts, match d with DecryptedWebsiteAccount a => accounts ++ [a] | DecryptedPasskey _ => accounts end)
      [] w) as (ds & w' & Hr & -> & ->); [done|done|].
    by rewrite foldl_accounts, (accounts_of_contents v rows).
  - intros offset limit Ho Hl Hs. unfold list_website_account_page_with_check.
    pose proof Hrep as [_ Hh Hm (ds & Hr & ->)]. unfold mbind, stm_bind, of_result at 1.
    rewrite (proj2 (Z.eqb_neq limit 0)) by lia. cbn [orb]. rewrite fail_if_small by lia.
    unfold of_result at 1. rewrite (proj2 (metadata_Ok v hdr man tt)) by done.
    unfold of_result at 1. rewrite (proj2 (checked_add_Some 64 offset limit _) (conj eq_refl Hs)). cbn [ok_or].
    destruct (visit_quiet v sc (page_visit offset (offset + limit)) rows ds (0, [], false) w Hq Hr) as [w' Hv].
    unfold map_err_st. rewrite Hv. cbn [map_err].
    pose proof (rh_count _ _ _ Hr) as Hc. pose proof (Forall2_length _ _ _ (rh_decrypt _ _ _ Hr)) as Hlen.
    unfold MAX_RECORDS in Hc.
    rewrite foldl_page; [|lia|lia|unfold len in *; lia].
    rewrite (accounts_of_contents v rows) by done. cbn [fst].
    set (l := accounts_of (contents ds)). cbn [mret stm_ret fst]. f_equal. f_equal.
    + rewrite app_nil_l. replace (offset + limit - offset `max` 0) with limit by lia.
      by rewrite Z.sub_0_r.
    + rewrite Z.add_0_l. pose proof (len_nonneg l). cbn [orb].
      destruct (Z.ltb_spec (offset + limit) (len l)), (Z.ltb_spec 0 (len l)); simpl;
        try (by rewrite bool_decide_true); try (rewrite bool_decide_false by lia; done); lia.
  - intros id. unfold get_website_account_with_check, mbind, stm_bind.
    destruct (quiet_read v hdr man rows m sc (account_visit id) None w) as (ds & w' & Hr & -> & ->); [done|done|].
    rewrite foldl_account by (by eapply rows_NoDup). by destruct (contents ds !! id) as [[a|q]|].
  - intros origin. unfold unique_browser_account_with_check, mbind, stm_bind.
    destruct (quiet_read v hdr man rows m sc (unique_visit origin) (None, false) w)
      as (ds & w' & Hr & -> & ->); [done|done|].
    by rewrite foldl_unique, (accounts_of_contents v rows).
Qed.

(** Reading website accounts is a query of the map: when the caller does
    not cancel, the listing is all accounts in the order of their identifiers; a
    page is the window [offset, offset + limit) of that list, and reports exactly
    whether accounts follow it; a single account is looked up by its identifier,
    and only a missing account is not found; and the account for an origin is
    returned exactly when it is the only one of that origin. *)
Theorem account_reads_refine v hdr man rows m sc (w : W) :
  represents v hdr man rows m → (∀ w, (sc w).1 = false) →
  (list_website_accounts v hdr man rows w).1 = Ok (accounts_of m)
  ∧ (∀ offset limit, 0 ≤ offset → 1 ≤ limit ≤ MAX_WEBSITE_ACCOUNT_PAGE_SIZE → offset + limit < 2 ^ 64 →
      (list_website_account_page_with_check v hdr man rows offset limit sc w).1 =
        Ok (take (Z.to_nat limit) (drop (Z.to_nat offset) (accounts_of m)),
            bool_decide (offset + limit < len (accounts_of m))))
  ∧ (∀ id, (get_website_account_with_check v hdr man rows id sc w).1 =
      match m !! id with
      | Some (DecryptedWebsiteAccount a) => Ok a
      | _ => Err RecordNotFound
      end)
  ∧ (∀ origin, (unique_browser_account_with_check v hdr man rows origin sc w).1 =
      Ok (sole (origin_matches origin (accounts_of m)))).
Proof. apply account_reads. Qed.

(** Passkeys in the order of their record identifiers. *)
Definition ordered_passkeys (m : gmap bytes DecryptedRecord) : list PasskeyRecord :=
  sort_by ps_id (passkeys_of m).

Lemma ordered_passkeys_contents v rows ds :
  rows_hold v rows ds → ordered_passkeys (contents ds) = omap as_passkey ds.
Proof.
  intros Hr. apply sort_by_eq; [|by rewrite (passkeys_of_contents v rows)].
  pose proof (rows_ds_sorted _ _ _ Hr) as Hs. clear -Hs.
  induction Hs as [|d ds Hs IH Hd]; [constructor|]. destruct d as [a|p]; [done|].
  cbn. constructor; [done|]. rewrite Forall_forall in Hd. apply Forall_forall.
  intros a' (d' & Hin & Ha')%list_elem_of_omap. destruct d'; simplify_eq/=. by apply (Hd _ Hin).
Qed.

Lemma foldl_summary (selected : PasskeyRecord → bool) ds :
  let l := omap as_passkey ds in
  let sel := filter (λ q, selected q = true) l in
  let '(ids, passkeys, invalid) := foldl (λ acc d, summary_visit selected d acc) (∅, [], false) ds in
  (invalid = false → ids = list_to_set (ps_credential_id <$> l) ∧ passkeys = summary_of <$> sel)
  ∧ (invalid = false ↔ NoDup (ps_credential_id <$> l) ∧ len sel ≤ MAX_PASSKEY_ASSERTION_CANDIDATES).
Proof.
  induction ds as [|d ds IH] using rev_ind.
  { simpl. split; [done|]. split; [|done]. intros _. split; [constructor|done]. }
  cbv zeta in *. rewrite foldl_app. cbn [foldl]. destruct (foldl _ _ ds) as [[ids ps] inv].
  rewrite omap_app, filter_app, fmap_app, !fmap_app, len_app.
  set (l := omap as_passkey ds) in *. set (sel := filter _ l) in *.
  destruct d as [a|q]; cbn [omap list_omap as_passkey summary_visit].
  { rewrite filter_nil, !app_nil_r. change (len (@nil PasskeyRecord)) with 0. by rewrite Z.add_0_r. }
  destruct IH as [IH1 IH2]. rewrite filter_cons, filter_nil.
  assert (NoDup ((ps_credential_id <$> l) ++ (ps_credential_id <$> [q])) ↔
    NoDup (ps_credential_id <$> l) ∧ ps_credential_id q ∉ ps_credential_id <$> l) as Hnd.
  { rewrite NoDup_app. cbn. split.
    - intros (? & Hx & _). split; [done|]. intros Hin. apply (Hx _ Hin). by left.
    - intros [? Hx]. split_and!; [done| |apply NoDup_singleton]. intros c Hc ->%list_elem_of_singleton. done. }
  pose proof (len_nonneg sel).
  destruct (bool_decide (ps_credential_id q ∈ ids)) eqn:Hin; simp_guards.
  { split; [done|]. split; [done|]. intros [[Hn Hq]%Hnd Hl].
    assert (inv = false) as Hi.
    { apply IH2. split; [done|]. match type of Hl with _ + len ?x ≤ _ => pose proof (len_nonneg x) end. lia. }
    destruct (IH1 Hi) as [-> _]. by rewrite elem_of_list_to_set in Hin. }
  destruct (selected q) eqn:Hsel.
  - rewrite decide_True by done. change (len [q]) with 1.
    destruct (Z.leb_spec MAX_PASSKEY_ASSERTION_CANDIDATES (len ps)) as [Hps|Hps].
    + split; [done|]. split; [done|]. intros [[Hn Hq]%Hnd Hl].
      destruct IH1 as [_ ->]; [by apply IH2; split; [done|lia]|]. unfold len in *. rewrite length_fmap in Hps. lia.
    + assert (inv = false → ids = list_to_set (ps_credential_id <$> l) ∧ ps = summary_of <$> sel) as IH1' by done.
      split.
      * intros Hi. destruct (IH1 Hi) as [-> ->]. split; [|done]. rewrite list_to_set_app_L. cbn. set_solver.
      * split.
        -- intros Hi. destruct (IH1 Hi) as [-> ->]. apply IH2 in Hi as [Hn Hl].
           rewrite elem_of_list_to_set in Hin. rewrite Hnd. split; [done|].
           unfold len in *. rewrite length_fmap in Hps. lia.
        -- intros [[Hn Hq]%Hnd Hl]. apply IH2. split; [done|lia].
  - rewrite decide_False by congruence. rewrite !app_nil_r. change (len (@nil PasskeyRecord)) with 0. rewrite Z.add_0_r. split.
    + intros Hi. destruct (IH1 Hi) as [-> ->]. split; [|done]. rewrite list_to_set_app_L. cbn. set_solver.
    + rewrite IH2, Hnd. split; [|tauto]. intros [Hn Hl].
      destruct IH1 as [-> _]; [by apply IH2|]. by rewrite elem_of_list_to_set in Hin.
Qed.

(** A passkey that an assertion request may use. *)
Definition eligible (rp : bytes) (allowed : option (list bytes)) (q : PasskeyRecord) : Prop :=
  ps_creation_state q = Confirmed ∧ ps_rp_id q = rp
  ∧ match allowed with None => True | Some l => ps_credential_id q ∈ l end.
#[export] Instance eligible_dec rp allowed q : Decision (eligible rp allowed q).
Proof. unfold eligible. destruct allowed; apply _. Defined.

Definition listable (m : gmap bytes DecryptedRecord) (sel : list PasskeyRecord) : Prop :=
  NoDup (ps_credential_id <$> ordered_passkeys m) ∧ len sel ≤ MAX_PASSKEY_ASSERTION_CANDIDATES.
#[export] Instance listable_dec m sel : Decision (listable m sel).
Proof. unfold listable. apply _. Defined.

Lemma filter_same {A} (P Q : A → Prop) `{!∀ x, Decision (P x), !∀ x, Decision (Q x)} (l : list A) :
  (∀ x, P x ↔ Q x) → filter P l = filter Q l.
Proof.
  intros HPQ. induction l as [|a l IH]; [done|]. rewrite !filter_cons.
  destruct (decide (P a)), (decide (Q a)); naive_solver congruence.
Qed.

Lemma summary_listing v hdr man rows m sc selected (w : W) :
  represents v hdr man rows m → (∀ w, (sc w).1 = false) →
  ∃ ids passkeys invalid w',
    read_snapshot v hdr man rows sc (summary_visit selected) (∅, [], false) w
      = (Ok (ids, passkeys, invalid), w')
    ∧ (invalid = false ↔ listable m (filter (λ q, selected q = true) (ordered_passkeys m)))
    ∧ (invalid = false → passkeys = summary_of <$> filter (λ q, selected q = true) (ordered_passkeys m)).
Proof.
  intros Hrep Hq.
  destruct (quiet_read v hdr man rows m sc (summary_visit selected) (∅, [], false) w)
    as (ds & w' & Hr & -> & Hread); [done|done|].
  pose proof (foldl_summary selected ds) as Hs. cbv zeta in Hs.
  destruct (foldl _ _ ds) as [[ids passkeys] invalid]. destruct Hs as [Hs1 Hs2].
  exists ids, passkeys, invalid, w'. unfold listable. rewrite (ordered_passkeys_contents v rows) by done.
  split_and!; [done|done|]. intros Hi. by apply Hs1.
Qed.

Lemma passkey_listings v hdr man rows m sc (w : W) :
  represents v hdr man rows m → (∀ w, (sc w).1 = false) →
  (∀ rp allowed, normalize_rp_id rp = Ok rp → len (default [] allowed) ≤ MAX_PASSKEY_ASSERTION_CANDIDATES →
    let sel := filter (eligible rp allowed) (ordered_passkeys m) in
    (list_passkeys_for_assertion_with_check v hdr man rows rp allowed sc w).1 =
      if bool_decide (listable m sel) then Ok (summary_of <$> sel) else Err RecordFailed)
  ∧ (let sel := filter (λ q, ps_creation_state q ≠ Pending) (ordered_passkeys m) in
     (list_passkeys_with_check v hdr man rows sc w).1 =
      if bool_decide (listable m sel) then Ok (merge_sort summary_le (summary_of <$> sel))
      else Err RecordFailed).
Proof.
  intros Hrep Hq. split.
  - intros rp allowed Hrp Hal sel. unfold list_passkeys_for_assertion_with_check.
    unfold mbind, stm_bind, of_result. rewrite fail_if_small by done. rewrite Hrp. cbn [map_err].
    rewrite bool_decide_false by auto. cbn [fail_if].
    match goal with |- context [summary_visit ?s] =>
      destruct (summary_listing v hdr man rows m sc s w) as (ids & ps & inv & w' & -> & Hi & Hp); [done|done|];
      assert (filter (λ q, s q = true) (ordered_passkeys m) = sel) as Hsel end.
    { apply filter_same. intros q. rewrite !andb_true_iff, !bool_decide_eq_true. unfold eligible.
      destruct allowed as [l|]; simpl; [rewrite bool_decide_eq_true|]; naive_solver. }
    rewrite Hsel in Hi, Hp. destruct inv.
    + rewrite bool_decide_false; [done|]. by rewrite <-Hi.
    + rewrite bool_decide_true by (by apply Hi). cbn. by rewrite Hp.
  - intros sel. unfold list_passkeys_with_check, mbind, stm_bind, of_result.
    match goal with |- context [summary_visit ?s] =>
      destruct (summary_listing v hdr man rows m sc s w) as (ids & ps & inv & w' & -> & Hi & Hp); [done|done|];
      assert (filter (λ q, s q = true) (ordered_passkeys m) = sel) as Hsel end.
    { apply filter_same. intros q. by rewrite negb_true_iff, bool_decide_eq_false. }
    rewrite Hsel in Hi, Hp. destruct inv.
    + rewrite bool_decide_false; [done|]. by rewrite <-Hi.
    + rewrite bool_decide_true by (by apply Hi). cbn. by rewrite Hp.
Qed.

(** Passkey listings: for an exact relying party and an allow list within
    the limit, the passkeys offered for an assertion are exactly the confirmed ones
    of that relying party that the list, when present, contains, in the order of
    their records; the management list is exactly the passkeys that are not
    pending, sorted; a list of more than 64, or a store in which two passkeys share
    a credential identifier, fails and returns none. *)
Theorem passkey_listings_refine v hdr man rows m sc (w : W) :
  represents v hdr man rows m → (∀ w, (sc w).1 = false) →
  (∀ rp allowed, normalize_rp_id rp = Ok rp → len (default [] allowed) ≤ MAX_PASSKEY_ASSERTION_CANDIDATES →
    let sel := filter (eligible rp allowed) (ordered_passkeys m) in
    (list_passkeys_for_assertion_with_check v hdr man rows rp allowed sc w).1 =
      if bool_decide (listable m sel) then Ok (summary_of <$> sel) else Err RecordFailed)
  ∧ (let sel := filter (λ q, ps_creation_state q ≠ Pending) (ordered_passkeys m) in
     (list_passkeys_with_check v hdr man rows sc w).1 =
      if bool_decide (listable m sel) then Ok (merge_sort summary_le (summary_of <$> sel))
      else Err RecordFailed).
Proof. apply passkey_listings. Qed.

(** ** Reading with a check that may cancel *)

(** Unless it is cancelled, a read gives what it gives when nobody cancels. *)
Definition calmly {A} (read : (W → bool * W) → stm W RecordOperationError A) : Prop :=
  ∀ sc w a, (read sc w).1 = Ok a → ∀ w0, (read never_cancelled w0).1 = Ok a.

Lemma calmly_bind {A B} (m : (W → bool * W) → stm W RecordOperationError A) (k : A → stm W RecordOperationError B) :
  calmly m → (∀ a w w0, (k a w).1 = (k a w0).1) → calmly (λ sc, m sc ≫= k).
Proof.
  intros Hm Hk sc w b Hb w0. specialize (Hm sc w). unfold mbind, stm_bind in *.
  destruct (m sc w) as [[a|e|] w1]; [|done..]. specialize (Hm a eq_refl w0).
  destruct (m never_cancelled w0) as [r w2]. cbn [fst] in Hm. subst r. by rewrite (Hk a w2 w1).
Qed.
Lemma calmly_pre {A B} (r : result RecordOperationError A) (k : A → (W → bool * W) → stm W RecordOperationError B) :
  (∀ a, r = Ok a → calmly (k a)) → calmly (λ sc, of_result r ≫= λ a, k a sc).
Proof. intros Hk sc w b. unfold mbind, stm_bind, of_result. destruct r as [a|e|]; [by apply Hk|done..]. Qed.
Lemma calmly_visit {A} v rows (f : DecryptedRecord → A → A) acc :
  calmly (λ sc, map_err_st map_snapshot_operation_error (visit_authenticated_records v rows sc f acc)).
Proof.
  intros sc w a Ha w0. unfold map_err_st in *. destruct (visit_authenticated_records v rows sc f acc w) as [r w1] eqn:Hv.
  destruct r as [b|e|]; simplify_eq/=. apply visit_Ok in Hv as (ds & Hds & ->).
  destruct (visit_quiet v never_cancelled f rows ds acc w0 (λ _, eq_refl) Hds) as [w2 Hw]. by rewrite Hw.
Qed.
Lemma calmly_snapshot {A} v hdr man rows (f : DecryptedRecord → A → A) acc :
  calmly (λ sc, read_snapshot v hdr man rows sc f acc).
Proof. apply (calmly_pre _ (λ _ sc, map_err_st _ _)). intros ? _. apply calmly_visit. Qed.

Lemma reads_calmly v hdr man rows :
  (∀ offset limit, calmly (list_website_account_page_with_check v hdr man rows offset limit))
  ∧ (∀ id, calmly (get_website_account_with_check v hdr man rows id))
  ∧ (∀ origin, calmly (unique_browser_account_with_check v hdr man rows origin))
  ∧ (∀ rp allowed, calmly (list_passkeys_for_assertion_with_check v hdr man rows rp allowed))
  ∧ calmly (list_passkeys_with_check v hdr man rows).
Proof.
  split_and!; intros.
  - apply (calmly_pre _ (λ _ sc, _)). intros ? _. apply (calmly_pre _ (λ _ sc, _)). intros ? _.
    apply (calmly_pre _ (λ _ sc, _)). intros end_ _.
    apply (calmly_bind (λ sc, map_err_st _ _)); [apply calmly_visit|]. by intros [[] ?].
  - apply (calmly_bind (λ sc, read_snapshot _ _ _ _ sc _ _)); [apply calmly_snapshot|]. by intros.
  - apply (calmly_bind (λ sc, read_snapshot _ _ _ _ sc _ _)); [apply calmly_snapshot|]. by intros.
  - apply (calmly_pre _ (λ _ sc, _)). intros ? _. apply (calmly_pre _ (λ _ sc, _)). intros rp' _.
    apply (calmly_pre _ (λ _ sc, _)). intros ? _.
    apply (calmly_bind (λ sc, read_snapshot _ _ _ _ sc _ _)); [apply calmly_snapshot|].
    intros [[ids ps] inv] w w0. unfold mbind, stm_bind, of_result. by destruct (fail_if _ _).
  - apply (calmly_bind (λ sc, read_snapshot _ _ _ _ sc _ _)); [apply calmly_snapshot|].
    intros [[ids ps] inv] w w0. unfold mbind, stm_bind, of_result. by destruct (fail_if _ _).
Qed.

(** What a read gives, whoever may cancel it. *)
Lemma account_reads_faithful v hdr man rows m sc (w : W) :
  represents v hdr man rows m →
  (∀ offset limit r, 0 ≤ offset → 1 ≤ limit ≤ MAX_WEBSITE_ACCOUNT_PAGE_SIZE → offset + limit < 2 ^ 64 →
      (list_website_account_page_with_check v hdr man rows offset limit sc w).1 = Ok r →
      r = (take (Z.to_nat limit) (drop (Z.to_nat offset) (accounts_of m)),
           bool_decide (offset + limit < len (accounts_of m))))
  ∧ (∀ id a, (get_website_account_with_check v hdr man rows id sc w).1 = Ok a → m !! id = Some (DecryptedWebsiteAccount a))
  ∧ (∀ origin r, (unique_browser_account_with_check v hdr man rows origin sc w).1 = Ok r →
      r = sole (origin_matches origin (accounts_of m))).
Proof.
  intros Hrep. destruct (reads_calmly v hdr man rows) as (Hpage & Hget & Hunique & _).
  destruct (account_reads v hdr man rows m never_cancelled w Hrep (λ _, eq_refl)) as (_ & Hp & Hg & Hu).
  split_and!.
  - intros offset limit r Ho Hl Hs Hr. specialize (Hpage _ _ _ _ _ Hr w). rewrite Hp in Hpage by done. by injection Hpage.
  - intros id a Ha. specialize (Hget _ _ _ _ Ha w). rewrite Hg in Hget. by destruct (m !! id) as [[]|]; simplify_eq.
  - intros origin r Hr. specialize (Hunique _ _ _ _ Hr w). rewrite Hu in Hunique. by injection Hunique.
Qed.
Lemma passkey_listings_faithful v hdr man rows m sc (w : W) :
  represents v hdr man rows m →
  (∀ rp allowed r, (list_passkeys_for_assertion_with_check v hdr man rows rp allowed sc w).1 = Ok r →
    r = summary_of <$> filter (eligible rp allowed) (ordered_passkeys m))
  ∧ (∀ r, (list_passkeys_with_check v hdr man rows sc w).1 = Ok r →
    r = merge_sort summary_le (summary_of <$> filter (λ q, ps_creation_state q ≠ Pending) (ordered_passkeys m))).
Proof.
  intros Hrep. destruct (reads_calmly v hdr man rows) as (_ & _ & _ & Hassert & Hlist).
  destruct (passkey_listings v hdr man rows m never_cancelled w Hrep (λ _, eq_refl)) as [Ha Hl]. split.
  - intros rp allowed r Hr. specialize (Hassert _ _ _ _ _ Hr w).
    assert (normalize_rp_id rp = Ok rp ∧ len (default [] allowed) ≤ MAX_PASSKEY_ASSERTION_CANDIDATES) as [Hrp Hal].
    { unfold list_passkeys_for_assertion_with_check, mbind, stm_bind, of_result in Hassert.
      destruct (Z.gtb_spec (len (default [] allowed)) MAX_PASSKEY_ASSERTION_CANDIDATES); [done|]. cbn [fail_if] in Hassert.
      destruct (normalize_rp_id rp) as [rp'|e|] eqn:Hrp; [|done..]. cbn [map_err] in Hassert.
      case_bool_decide as Hne; [done|]. split; [|lia]. f_equal. by destruct (decide (rp' = rp)). }
    rewrite Ha in Hassert by done. cbv zeta in Hassert. case_bool_decide; [by injection Hassert|done].
  - intros r Hr. specialize (Hlist _ _ _ Hr w). cbv zeta in Hl. rewrite Hl in Hlist.
    case_bool_decide; [by injection Hlist|done].
Qed.

(** ** Nothing is reported about a snapshot that is not authentic *)

(** A success and the error [NotFound], and with [conflicts] also [Conflict],
    are only returned for a snapshot that represents a map. *)
Definition discloses (conflicts : bool) {A} (r : result RecordOperationError A) : bool :=
  match r with
  | Ok _ | Err RecordNotFound => true
  | Err RecordConflict => conflicts
  | Err RecordFailed | Err RecordCancelled | Panic => false
  end.
Definition authentic (conflicts : bool) (v : UnlockedVault) (hdr man : bytes) (rows : list EncryptedRecord)
    {A} (op : stm W RecordOperationError A) : Prop :=
  ∀ w, discloses conflicts (op w).1 = true → ∃ m, represents v hdr man rows m.

Lemma authentic_bind {A B} b v hdr man rows (m : stm W RecordOperationError A)
    (k : A → stm W RecordOperationError B) :
  authentic b v hdr man rows m → authentic b v hdr man rows (m ≫= k).
Proof.
  intros Hm w. specialize (Hm w). unfold mbind, stm_bind.
  destruct (m w) as [[a|e|] w']; [intros _; by apply Hm|exact Hm|exact Hm].
Qed.

(** A step that fails without disclosing, and what follows its success. *)
Lemma authentic_pre {A B} b v hdr man rows (r : result RecordOperationError A)
    (k : A → stm W RecordOperationError B) :
  (∀ e, r = Err e → discloses b (Err (A:=unit) e) = false) →
  (∀ a, r = Ok a → authentic b v hdr man rows (k a)) → authentic b v hdr man rows (of_result r ≫= k).
Proof.
  intros He Hk w. unfold mbind, stm_bind, of_result. destruct r as [a|e|]; [by apply Hk| |done].
  intros Hd. specialize (He e eq_refl). unfold discloses in *. by destruct e, b.
Qed.

Lemma metadata_Err v hdr man e : authenticate_snapshot_metadata v hdr man = Err e → e = RecordFailed.
Proof.
  unfold authenticate_snapshot_metadata, decrypt_manifest, mbind, result_bind, fail_if, map_err.
  repeat case_match; naive_solver.
Qed.

Lemma authentic_visit {A} b v hdr man rows sc (f : DecryptedRecord → A → A) acc :
  UnlockedVault_wf v → authenticate_snapshot_metadata v hdr man = Ok tt →
  authentic b v hdr man rows
    (map_err_st map_snapshot_operation_error (visit_authenticated_records v rows sc f acc)).
Proof.
  intros Hv [Hh Hm]%metadata_Ok w. unfold map_err_st.
  destruct (visit_authenticated_records v rows sc f acc w) as [[a|[]|] w'] eqn:Hw; try done.
  intros _. apply visit_Ok in Hw as (ds & Hds & _). exists (contents ds). split; try done. by exists ds.
Qed.

Lemma authentic_metadata {A} b v hdr man rows (k : unit → stm W RecordOperationError A) :
  (authenticate_snapshot_metadata v hdr man = Ok tt → authentic b v hdr man rows (k tt)) →
  authentic b v hdr man rows (of_result (authenticate_snapshot_metadata v hdr man) ≫= k).
Proof.
  intros Hk. apply authentic_pre; [|by intros []]. by intros e ->%metadata_Err.
Qed.

Lemma authentic_read {A} b v hdr man rows sc (f : DecryptedRecord → A → A) acc :
  UnlockedVault_wf v → authentic b v hdr man rows (read_snapshot v hdr man rows sc f acc).
Proof. intros Hv. apply authentic_metadata. intros Hm. by apply authentic_visit. Qed.

Lemma authentic_guard {A B} b v hdr man rows (r : result RecordOperationError A) e
    (k : A → stm W RecordOperationError B) :
  (∀ e', r = Err e' → e' = e) → discloses b (Err (A:=unit) e) = false →
  (∀ a, authentic b v hdr man rows (k a)) → authentic b v hdr man rows (of_result r ≫= k).
Proof. intros He Hd Hk. apply authentic_pre; [|done]. by intros e' ->%He. Qed.

Lemma fail_if_Err {E} c (e e' : E) : fail_if c e = Err e' → e' = e.
Proof. destruct c; simpl; congruence. Qed.
Lemma ok_or_Err {E A} (o : option A) (e e' : E) : ok_or o e = Err e' → e' = e.
Proof. destruct o; simpl; congruence. Qed.
Lemma map_err_const_Err {E F A} (r : result F A) (e e' : E) : map_err (λ _, e) r = Err e' → e' = e.
Proof. destruct r; simpl; congruence. Qed.

(** C26: fail closed: whatever the header, manifest and rows offered to an
    unlocked session, every operation returns a value, or reports that a record is
    missing, only if they are authentic as a whole (header and manifest are the
    session's, every row is the one the manifest commits to and decrypts to a valid
    record); the mutations report a conflict only then, too.  Otherwise the
    operation fails or is cancelled. *)
Theorem operations_fail_closed v hdr man rows t sc :
  UnlockedVault_wf v →
  authentic true v hdr man rows (list_website_accounts v hdr man rows)
  ∧ (∀ o l, authentic true v hdr man rows (list_website_account_page_with_check v hdr man rows o l sc))
  ∧ (∀ id, authentic true v hdr man rows (get_website_account_with_check v hdr man rows id sc))
  ∧ (∀ o, authentic true v hdr man rows (unique_browser_account_with_check v hdr man rows o sc))
  ∧ (∀ i, authentic true v hdr man rows (prepare_add_website_account_with_check v hdr man rows i t sc))
  ∧ (∀ id i, authentic true v hdr man rows
      (prepare_update_website_account_with_check v hdr man rows id i t sc))
  ∧ (∀ id, authentic true v hdr man rows
      (prepare_delete_website_account_with_check v hdr man rows id t sc))
  ∧ (∀ i x s, authentic true v hdr man rows (prepare_add_passkey_with_check v hdr man rows i x s t sc))
  ∧ (∀ c, authentic true v hdr man rows
      (prepare_confirm_passkey_creation_with_check v hdr man rows c t sc))
  ∧ (∀ c, authentic true v hdr man rows (prepare_delete_passkey_with_check v hdr man rows c t sc))
  ∧ authentic true v hdr man rows (list_pending_passkey_credential_ids_with_check v hdr man rows sc)
  ∧ authentic true v hdr man rows (list_passkeys_with_check v hdr man rows sc)
  ∧ (∀ rp l, authentic false v hdr man rows
      (list_passkeys_for_assertion_with_check v hdr man rows rp l sc))
  ∧ (∀ rp c h, authentic false v hdr man rows
      (prepare_passkey_assertion_with_check v hdr man rows rp c h t sc)).
Proof.
  intros Hv.
  assert (∀ A (f : DecryptedRecord → A → A) acc b sc, authentic b v hdr man rows (read_snapshot v hdr man rows sc f acc))
    as Hread by (intros; by apply authentic_read).
  assert (∀ id b, authentic b v hdr man rows (get_website_account_with_check v hdr man rows id sc)) as Hget
    by (intros; apply authentic_bind, Hread).
  assert (∀ c b, authentic b v hdr man rows (find_passkey v hdr man rows c sc)) as Hfind
    by (intros; apply authentic_bind, Hread).
  split_and!; intros; try solve [apply Hread|apply authentic_bind; auto|auto].
  - eapply authentic_guard; [apply fail_if_Err|done|intros _].
    apply authentic_metadata. intros Hm. eapply authentic_guard; [apply ok_or_Err|done|intros end_].
    by apply authentic_bind, authentic_visit.
  - apply authentic_metadata. intros Hm. by apply authentic_bind, authentic_visit.
  - eapply authentic_guard; [apply fail_if_Err|done|intros _].
    eapply authentic_guard; [apply map_err_const_Err|done|intros expected].
    eapply authentic_guard; [apply fail_if_Err|done|intros _]. apply authentic_bind, Hread.
  - apply authentic_metadata. intros Hm. eapply authentic_guard; [apply map_err_const_Err|done|intros expected].
    by apply authentic_bind, authentic_visit.
Qed.

(** ** Availability *)

Lemma random_nonce_total (w : W) : entropic → ∃ n w', random_nonce w = (Ok n, w').
Proof.
  intros He. unfold random_nonce, map_err_st, random_array. destruct (He 24%nat w) as [b Hb].
  destruct (getrandom_fill 24 w) as [[b'|] w']; [by eexists _, _|done].
Qed.

Lemma prepare_manifest_mutation_total v kind id env es t (w : W) m' :
  entropic → UnlockedVault_wf v → Forall ManifestEntry_typed es → u64 t →
  Manifest_next_generation (uv_manifest v) t es = Ok m' →
  ∃ p w', prepare_manifest_mutation v kind id env es t w = (Ok p, w').
Proof.
  intros He Hv Hes Ht Hn. destruct (random_nonce_total w He) as (n & w1 & Hnonce).
  pose proof (random_nonce_Ok _ _ _ Hnonce) as Hnl.
  assert (Manifest_wf m') as Hw by (by eapply Manifest_next_generation_wf; [apply uw_manifest| | |]).
  destruct (derive_key_Ok (uv_vault_root_key v) (vault_id v) (MANIFEST_LABEL_PREFIX ++ to_be_bytes 4 (key_epoch v)))
    as (key & Hk & Hkl).
  destruct (manifest_seals key n (encode_manifest_aad (uv_header v) n) m') as (image & c & bs & Hi & Hc & Hb);
    [done..|].
  eexists _, w1. unfold prepare_manifest_mutation.
  eapply stm_bind_intro; [by apply of_result_intro, map_err_intro|].
  eapply stm_bind_intro; [by apply of_result_intro, map_err_intro|].
  eapply stm_bind_intro; [done|].
  eapply stm_bind_intro; [by apply of_result_intro, map_err_intro|].
  eapply stm_bind_intro; [by apply of_result_intro, map_err_intro|].
  eapply stm_bind_intro; [by apply of_result_intro, map_err_intro|]. done.
Qed.

Lemma prepare_plaintext_upsert_total v kind id pt t (w : W) :
  entropic → UnlockedVault_wf v → length id = 16%nat → u64 t → len pt ≤ 20000 →
  mf_committed_at_ms (uv_manifest v) ≤ t → mf_generation (uv_manifest v) + 1 < 2 ^ 64 →
  match kind with
  | MutationInsert => id ∉ me_record_id <$> mf_entries (uv_manifest v)
      ∧ len (mf_entries (uv_manifest v)) < MAX_RECORDS
  | MutationUpdate => id ∈ me_record_id <$> mf_entries (uv_manifest v)
  | MutationDelete => False
  end →
  ∃ p w', prepare_plaintext_upsert v kind id pt t w = (Ok p, w').
Proof.
  intros He Hv Hid Ht Hlen Htime Hgen Hkind. destruct (random_nonce_total w He) as (n & w1 & Hnonce).
  pose proof (random_nonce_Ok _ _ _ Hnonce) as Hnl.
  pose proof Hv as [_ [_ [Hep Hne] _ _] [_ _ _ _ _ Hty Hso Hcount] _].
  destruct (derive_key_Ok (uv_vault_root_key v) (vault_id v)
    (RECORD_LABEL_PREFIX ++ id ++ to_be_bytes 4 (key_epoch v))) as (key & Hk & Hkl).
  destruct (record_seals (key_epoch v) key n (encode_record_aad (vault_id v) id (key_epoch v)) pt)
    as (c & bs & Hc & Hb); [done..|].
  set (e := {| me_record_id := id; me_envelope_digest := sha256 bs |}).
  assert (ManifestEntry_typed e) as Hety by (split; [done|apply sha256_length]).
  assert (∃ es, match kind with
    | MutationInsert => Ok (mf_entries (uv_manifest v) ++ [e])
    | MutationUpdate => ok_or (replace_first (λ e', bool_decide (me_record_id e' = id)) e
        (mf_entries (uv_manifest v))) RecordNotFound
    | MutationDelete => Err RecordFailed
    end = Ok es ∧ Forall ManifestEntry_typed es ∧ len es ≤ MAX_RECORDS ∧ NoDup (me_record_id <$> es))
    as (es & Hes & Hest & Hesl & Hnd).
  { pose proof (sorted_NoDup me_record_id _ Hso) as Hnd. destruct kind; [| |done].
    - destruct Hkind as [Hfresh Hc']. eexists. split_and!; [done| | |].
      + apply Forall_app. split; [done|by apply Forall_singleton].
      + rewrite len_app. change (len [e]) with 1. lia.
      + rewrite fmap_app. apply NoDup_app. split_and!; [done| |apply NoDup_singleton].
        intros i Hi ->%list_elem_of_singleton. done.
    - apply list_elem_of_fmap in Hkind as (e0 & He0 & Hin). apply list_elem_of_split in Hin as (k & l & Hkl').
      destruct (replace_first (λ e', bool_decide (me_record_id e' = id)) e (mf_entries (uv_manifest v)))
        as [es|] eqn:Hr.
      + exists es. apply replace_first_Some in Hr as (k' & a & r & Heq & -> & Ha & _). simp_guards.
        rewrite Heq in Hty, Hcount, Hnd. split_and!; [done| | |].
        * rewrite Forall_app, Forall_cons in Hty |- *. naive_solver.
        * rewrite len_app, len_cons in Hcount |- *. done.
        * rewrite fmap_app, fmap_cons in Hnd |- *. rewrite Ha in Hnd. done.
      + exfalso. clear -Hr Hkl' He0. rewrite Hkl' in Hr. clear Hkl'. revert Hr.
        induction k as [|b k IH]; cbn.
        * rewrite bool_decide_true by done. done.
        * case_bool_decide; [done|]. intros Hn%fmap_None. auto. }
  assert (Forall ManifestEntry_typed (sort_by me_record_id es)) as Hst by (by rewrite sort_by_perm).
  edestruct (prepare_manifest_mutation_total v kind id (Some bs) (sort_by me_record_id es) t w1)
    as (p & w2 & Hp); [done..| |].
  { apply Manifest_next_generation_Ok; [apply Hv|done|done|]. split_and!; [done|done| | |done].
    - unfold len in *. by rewrite sort_by_perm.
    - by apply sort_by_sorted. }
  exists p, w2. unfold prepare_plaintext_upsert.
  eapply stm_bind_intro; [done|].
  eapply stm_bind_intro; [by apply of_result_intro, map_err_intro|].
  eapply stm_bind_intro; [by apply of_result_intro, map_err_intro|].
  eapply stm_bind_intro; [by apply of_result_intro, map_err_intro|].
  eapply stm_bind_intro; [by apply of_result_intro|]. done.
Qed.

Lemma next_generation_needs m t es m' :
  Manifest_next_generation m t es = Ok m' → mf_committed_at_ms m ≤ t ∧ mf_generation m + 1 < 2 ^ 64.
Proof. unfold Manifest_next_generation. intros Hn. inv_ok Hn. simp_guards. done. Qed.

Lemma manifest_mutation_needs v kind id env es t (w : W) p w' :
  prepare_manifest_mutation v kind id env es t w = (Ok p, w') →
  mf_committed_at_ms (uv_manifest v) ≤ t ∧ mf_generation (uv_manifest v) + 1 < 2 ^ 64.
Proof.
  unfold prepare_manifest_mutation. intros Hp. inv_stm Hp. by eapply next_generation_needs.
Qed.

Lemma prepare_upsert_needs v kind id revision created i t (w : W) p w' :
  prepare_upsert v kind id revision created i t w = (Ok p, w') →
  created ≤ t ∧ mf_committed_at_ms (uv_manifest v) ≤ t ∧ mf_generation (uv_manifest v) + 1 < 2 ^ 64.
Proof.
  unfold prepare_upsert. intros Hp. inv_stm Hp. split.
  - unfold WebsiteAccountPlaintext_new, validate_plaintext in *.
    match goal with H : (_ ≫= _) = Ok x |- _ => inv_ok H end. simp_guards. done.
  - unfold prepare_plaintext_upsert in *.
    match goal with H : (_ ≫= _) _ = (Ok p, _) |- _ => inv_stm H end. by eapply manifest_mutation_needs.
Qed.

Lemma prepare_upsert_total v kind id revision created i t (w : W) :
  entropic → UnlockedVault_wf v → WebsiteAccountInput_wf i → length id = 16%nat → u64 t → u64 revision →
  revision ≠ 0 → 0 ≤ created ≤ t → mf_committed_at_ms (uv_manifest v) ≤ t →
  mf_generation (uv_manifest v) + 1 < 2 ^ 64 →
  match kind with
  | MutationInsert => id ∉ me_record_id <$> mf_entries (uv_manifest v)
      ∧ len (mf_entries (uv_manifest v)) < MAX_RECORDS
  | MutationUpdate => id ∈ me_record_id <$> mf_entries (uv_manifest v)
  | MutationDelete => False
  end →
  ∃ p w', prepare_upsert v kind id revision created i t w = (Ok p, w').
Proof.
  intros He Hv [(?&?&?&?) (?&?&?&?&?) [? ?] [? ?]] Hid Ht Hr Hr0 Hc Htime Hgen Hkind.
  set (a := account_of id revision created t i).
  assert (WebsiteAccountPlaintext_wf (account_plaintext a)) as Hw by (split; simpl; unfold uint in *; done || lia).
  assert (u64 created) by (unfold uint in *; lia).
  destruct (WebsiteAccountPlaintext_encode_wf _ Hw) as [Henc Hlen].
  destruct (prepare_plaintext_upsert_total v kind id _ t w He Hv Hid Ht Hlen Htime Hgen Hkind)
    as (p & w' & Hp).
  exists p, w'. unfold prepare_upsert.
  eapply stm_bind_intro; [apply of_result_intro, map_err_intro|].
  { apply WebsiteAccountPlaintext_new_Ok; done. }
  eapply stm_bind_intro; [by apply of_result_intro, map_err_intro|]. done.
Qed.

Lemma represents_entries v hdr man rows m :
  represents v hdr man rows m →
  len (mf_entries (uv_manifest v)) = Z.of_nat (size m)
  ∧ ∀ id, id ∈ me_record_id <$> mf_entries (uv_manifest v) ↔ is_Some (m !! id).
Proof.
  intros [Hv _ _ (ds & Hr & ->)]. pose proof (rows_NoDup _ _ _ Hr) as Hnd.
  pose proof (rows_ids _ _ _ Hr) as Hids. pose proof Hr as [He _ _ Hd].
  apply Forall2_length in Hd. rewrite <-He. split.
  - unfold len, contents. rewrite length_fmap, map_size_list_to_map.
    + by rewrite length_fmap, Hd.
    + by rewrite <-list_fmap_compose.
  - intros id. rewrite <-list_fmap_compose.
    change (me_record_id ∘ commitment_of) with er_id. rewrite <-Hids, list_elem_of_fmap. split.
    + intros (d & -> & Hin). exists d. by apply contents_lookup.
    + intros (d & [Hin <-]%contents_lookup); [|done]. by exists d.
Qed.

Lemma get_account_total v hdr man rows m id a sc (w : W) :
  represents v hdr man rows m → (∀ w, (sc w).1 = false) → m !! id = Some (DecryptedWebsiteAccount a) →
  ∃ w', get_website_account_with_check v hdr man rows id sc w = (Ok a, w').
Proof.
  intros Hrep Hq Ha. destruct (quiet_read v hdr man rows m sc (account_visit id) None w)
    as (ds & w' & Hr & -> & Hread); [done|done|].
  exists w'. eapply stm_bind_intro; [exact Hread|].
  apply of_result_intro. rewrite foldl_account by (by eapply rows_NoDup). by rewrite Ha.
Qed.

Lemma find_passkey_total v hdr man rows m c q sc (w : W) :
  represents v hdr man rows m → (∀ w, (sc w).1 = false) → only_passkey m c q →
  ∃ w', find_passkey v hdr man rows c sc w = (Ok q, w').
Proof.
  intros Hrep Hq (Hc & Hm & Hu). destruct (quiet_read v hdr man rows m sc (credential_visit c) (None, false) w)
    as (ds & w' & Hr & -> & Hread); [done|done|].
  exists w'. eapply stm_bind_intro; [exact Hread|].
  rewrite foldl_credential. set (l := filter _ (omap as_passkey ds)).
  assert (l = [q]) as ->; [|done].
  assert (NoDup l) as Hnd.
  { apply NoDup_filter, (NoDup_fmap_1 ps_id).
    assert (StronglySorted (key_lt ps_id) (omap as_passkey ds)) as Hs.
    { rewrite <-(ordered_passkeys_contents _ _ _ Hr). apply sort_by_sorted.
      rewrite (passkeys_of_contents _ _ _ Hr). pose proof (rows_ds_sorted _ _ _ Hr) as Hs. clear -Hs.
      pose proof (sorted_NoDup _ _ Hs) as Hnd. clear Hs. induction ds as [|[a|p] ds IH]; [constructor| |].
      - apply NoDup_cons in Hnd as [_ ?]. by apply IH.
      - apply NoDup_cons in Hnd as [Hp Hnd]. cbn. constructor; [|by apply IH].
        intros (q & He & (d & Hin & Hd)%list_elem_of_omap)%list_elem_of_fmap.
        destruct d; simplify_eq/=. apply Hp. rewrite He. by apply (list_elem_of_fmap_2 record_id_of) in Hin. }
    by apply sorted_NoDup in Hs. }
  assert (∀ q', q' ∈ l ↔ q' = q) as Hin.
  { intros q'. unfold l. rewrite list_elem_of_filter, (contents_passkey v rows) by done. split.
    - intros [? ?]. by eapply Hu.
    - intros ->. done. }
  destruct l as [|q1 [|q2 l]]; [by assert (q ∈ []) as ?%elem_of_nil by (by apply Hin)| |].
  - by rewrite (proj1 (Hin q1)) by left.
  - apply NoDup_cons in Hnd as [Hn _]. destruct Hn.
    rewrite (proj1 (Hin q1)) by left. rewrite (proj1 (Hin q2)) by (right; left). left.
Qed.

Lemma allocate_fresh v (w : W) b w' :
  allocate_record_id v w = (Ok b, w') → b ∉ me_record_id <$> mf_entries (uv_manifest v).
Proof.
  unfold allocate_record_id. generalize MAX_RECORD_ID_ATTEMPTS. intros n Hf.
  apply find_random_Ok in Hf as [_ Ha]. simp_guards.
  intros (e & -> & Hin)%list_elem_of_fmap. apply not_true_iff_false in Ha. apply Ha, existsb_exists.
  exists e. split; [by apply list_elem_of_In|]. by apply bool_decide_true.
Qed.

Lemma is_ok_st {E A} (m : stm W E A) w : is_ok (m w).1 = true ↔ ∃ a w', m w = (Ok a, w').
Proof.
  destruct (m w) as [[a|e|] w']; simpl; split; try done; [by eauto|by intros (? & ? & [=])..].
Qed.

(** When a mutation is available: if the caller does not cancel and the
    generator delivers, an authentic snapshot lets a website account be updated
    exactly when it exists, its revision can advance, and the clock is not behind
    its creation or the last commit; deleted exactly when it exists and the clock is
    not behind the last commit; added, given a fresh identifier, exactly when there
    is room and the clock is not behind; always provided the 64-bit generation can
    advance.  The deletion of a passkey does not depend on the clock, which is
    clamped to the last commit. *)
Theorem mutations_available v hdr man rows m t sc (w : W) :
  represents v hdr man rows m → entropic → (∀ w, (sc w).1 = false) → u64 t →
  let advances := mf_generation (uv_manifest v) + 1 < 2 ^ 64 in
  let in_time := mf_committed_at_ms (uv_manifest v) ≤ t in
  (∀ id i, WebsiteAccountInput_wf i →
    is_ok (prepare_update_website_account_with_check v hdr man rows id i t sc w).1 = true ↔
      advances ∧ in_time ∧ ∃ a, m !! id = Some (DecryptedWebsiteAccount a)
        ∧ ac_revision a + 1 < 2 ^ 64 ∧ ac_created_at_ms a ≤ t)
  ∧ (∀ id,
    is_ok (prepare_delete_website_account_with_check v hdr man rows id t sc w).1 = true ↔
      advances ∧ in_time ∧ ∃ a, m !! id = Some (DecryptedWebsiteAccount a))
  ∧ (∀ i, WebsiteAccountInput_wf i → (∀ w, is_ok (allocate_record_id v w).1 = true) →
    is_ok (prepare_add_website_account_with_check v hdr man rows i t sc w).1 = true ↔
      advances ∧ in_time ∧ Z.of_nat (size m) < MAX_RECORDS)
  ∧ (∀ c,
    is_ok (prepare_delete_passkey_with_check v hdr man rows c t sc w).1 = true ↔
      advances ∧ ∃ q, only_passkey m c q).
Proof.
  intros Hrep He Hq Ht advances in_time. pose proof (rp_vault _ _ _ _ _ Hrep) as Hv.
  destruct (represents_entries _ _ _ _ _ Hrep) as [Hsize Hids].
  pose proof Hv as [_ _ [_ _ _ Hcr Hco Hty Hso Hcount] _].
  assert (∀ id, Forall ManifestEntry_typed (without_entry id (mf_entries (uv_manifest v)))
    ∧ sorted_entries (without_entry id (mf_entries (uv_manifest v)))
    ∧ len (without_entry id (mf_entries (uv_manifest v))) ≤ MAX_RECORDS) as Hwithout.
  { intros id. unfold without_entry. split_and!.
    - rewrite Forall_forall in Hty. apply Forall_forall. intros e [_ ?]%list_elem_of_filter. by apply Hty.
    - clear -Hso. induction Hso as [|e l Hl IH Hr]; [constructor|]. rewrite filter_cons.
      destruct (decide _); [|done]. constructor; [done|]. rewrite Forall_forall in Hr.
      apply Forall_forall. intros e' [_ ?]%list_elem_of_filter. by apply Hr.
    - etrans; [|exact Hcount]. unfold len. pose proof (length_filter (λ e, me_record_id e ≠ id)
        (mf_entries (uv_manifest v))). lia. }
  assert (∀ id t' w, u64 t' → mf_committed_at_ms (uv_manifest v) ≤ t' → advances →
    ∃ p w', prepare_manifest_mutation v MutationDelete id None
      (without_entry id (mf_entries (uv_manifest v))) t' w = (Ok p, w')) as Hdelete.
  { intros id t' w0 Ht' Hle Hadv. destruct (Hwithout id) as (? & ? & ?).
    eapply prepare_manifest_mutation_total; try done. apply Manifest_next_generation_Ok; [apply Hv|done..]. }
  split_and!.
  - intros id i Hi. rewrite is_ok_st. split.
    + intros (p & w' & Hp). unfold prepare_update_website_account_with_check in Hp. inv_stm Hp. simp_guards.
      match goal with H : prepare_upsert _ _ _ _ _ _ _ _ = _ |- _ =>
        apply prepare_upsert_needs in H as (?&?&?) end.
      match goal with H : get_website_account_with_check _ _ _ _ _ _ _ = _ |- _ =>
        apply get_website_account_Ok in H as (m' & Hm & Ha); [|done] end.
      rewrite (represents_unique _ _ _ _ _ _ Hm Hrep) in Ha. split_and!; [done|done|]. by eexists.
    + intros (Hadv & Htime & a & Ha & Hrev & Hct).
      destruct (get_account_total v hdr man rows m id a sc w) as [w1 Hget]; [done..|].
      destruct (represents_wf _ _ _ _ _ _ _ Hrep Ha) as ([[[[? ?] ?] [[? ?] ?] _ _ _ _] _] & _ & Hid). simpl in *.
      destruct (prepare_upsert_total v MutationUpdate id (ac_revision a + 1) (ac_created_at_ms a) i t w1)
        as (p & w' & Hp); try done; try (unfold uint; lia).
      { by apply Hids. }
      exists p, w'. eapply stm_bind_intro; [exact Hget|].
      eapply stm_bind_intro; [apply of_result_intro, ok_or_Ok, checked_add_Some; by split|]. done.
  - intros id. rewrite is_ok_st. split.
    + intros (p & w' & Hp). unfold prepare_delete_website_account_with_check in Hp. inv_stm Hp.
      match goal with H : prepare_manifest_mutation _ _ _ _ _ _ _ = _ |- _ =>
        apply manifest_mutation_needs in H as [? ?] end.
      match goal with H : get_website_account_with_check _ _ _ _ _ _ _ = _ |- _ =>
        apply get_website_account_Ok in H as (m' & Hm & Ha); [|done] end.
      rewrite (represents_unique _ _ _ _ _ _ Hm Hrep) in Ha. split_and!; [done|done|]. by eexists.
    + intros (Hadv & Htime & a & Ha).
      destruct (get_account_total v hdr man rows m id a sc w) as [w1 Hget]; [done..|].
      destruct (Hdelete id t w1 Ht Htime Hadv) as (p & w' & Hp).
      exists p, w'. eapply stm_bind_intro; [exact Hget|].
      eapply stm_bind_intro; [apply of_result_intro, fail_if_Ok|exact Hp].
      apply Z.eqb_neq. unfold len, without_entry. intros Heq%Nat2Z.inj.
      assert (id ∈ me_record_id <$> mf_entries (uv_manifest v)) as (e & Hid & Hin)%list_elem_of_fmap
        by (by apply Hids).
      pose proof (length_filter_lt (λ e, me_record_id e ≠ id) (mf_entries (uv_manifest v)) e Hin ltac:(auto)). lia.
  - intros i Hi Hfresh. rewrite is_ok_st. split.
    + intros (p & w' & Hp). unfold prepare_add_website_account_with_check, prepare_add_with_entropy in Hp.
      inv_stm Hp. simp_guards.
      match goal with H : prepare_upsert _ _ _ _ _ _ _ _ = _ |- _ =>
        apply prepare_upsert_needs in H as (?&?&?) end.
      split_and!; [done|done|]. by rewrite <-Hsize.
    + intros (Hadv & Htime & Hroom). pose proof Hrep as [_ Hh Hm (ds & Hr & ->)].
      destruct (visit_quiet v sc (λ _ u, u) rows ds tt w Hq Hr) as [w1 Hvisit].
      destruct (proj1 (is_ok_st (allocate_record_id v) w1) (Hfresh w1)) as (id & w2 & Hid).
      pose proof (allocate_record_id_Ok _ _ _ _ Hid). pose proof (allocate_fresh _ _ _ _ Hid).
      destruct (prepare_upsert_total v MutationInsert id 1 t i t w2) as (p & w' & Hp);
        try done; try (unfold uint in *; lia).
      { split; [done|]. by rewrite Hsize. }
      exists p, w'. unfold prepare_add_website_account_with_check, prepare_add_with_entropy.
      eapply stm_bind_intro; [by apply of_result_intro, metadata_Ok|].
      eapply stm_bind_intro.
      { unfold authenticate_records_only_with_check, map_err_st. rewrite Hvisit. reflexivity. }
      eapply stm_bind_intro; [apply of_result_intro, fail_if_Ok, Z.leb_gt; by rewrite Hsize|].
      eapply stm_bind_intro; [exact Hid|]. done.
  - intros c. rewrite is_ok_st. split.
    + intros (p & w' & Hp). unfold prepare_delete_passkey_with_check in Hp. inv_stm Hp.
      match goal with H : prepare_manifest_mutation _ _ _ _ _ _ _ = _ |- _ =>
        apply manifest_mutation_needs in H as [? ?] end.
      match goal with H : find_passkey _ _ _ _ _ _ _ = _ |- _ =>
        apply find_passkey_Ok in H as (m' & Hm & Ha); [|done] end.
      rewrite (represents_unique _ _ _ _ _ _ Hm Hrep) in Ha. split; [done|]. by eexists.
    + intros (Hadv & q & Hc). destruct (find_passkey_total v hdr man rows m c q sc w) as [w1 Hf]; [done..|].
      destruct (Hdelete (ps_id q) (passkey_manifest_time (mf_committed_at_ms (uv_manifest v)) t) w1)
        as (p & w' & Hp); [unfold passkey_manifest_time, uint in *; lia..|done|].
      exists p, w'. eapply stm_bind_intro; [exact Hf|exact Hp].
  Unshelve. all: exact tt.
Qed.
End refine.

(** ** Examples *)

Module Examples.
Import Rfc8949 Toy VaultCore.Examples.

Definition vault : UnlockedVault := from_option cv_session session created.

Lemma vault_represents : represents vault header manifest [] ∅.
Proof.
  destruct (create_vault_total password 5 0 toy_entropic) as (c & w' & Hc); [by split|by vm_compute|].
  unfold vault, header, manifest, created. rewrite Hc.
  by destruct (create_vault_Ok password 5 0 c w' ltac:(by split) Hc) as [Hr _].
Qed.
Definition vault_wf : UnlockedVault_wf vault := rp_vault _ _ _ _ _ vault_represents.

Definition input : WebsiteAccountInput :=
  {| in_service_name := str "Example"; in_permitted_origin := str "https://example.com";
     in_username := str "person"; in_password := str "disposable" |}.
Lemma input_wf : WebsiteAccountInput_wf input.
Proof. by split. Qed.
Definition passkey_input : PasskeyInput :=
  {| pi_rp_id := str "example.com"; pi_user_handle := str "handle"; pi_user_name := str "person";
     pi_user_display_name := str "Person" |}.
Lemma passkey_input_wf : PasskeyInput_wf passkey_input.
Proof. by split. Qed.

(** What a call on the example vault prepares. *)
Definition prepared {A} (call : stm Z RecordOperationError A) (P : A → Z → Prop) : Prop :=
  match call 100 with (Ok p, w') => P p w' | _ => False end.
Lemma prepared_intro {A} (call : stm Z RecordOperationError A) (P : A → Z → Prop) :
  is_ok (call 100).1 = true → (∀ p w', call 100 = (Ok p, w') → P p w') → prepared call P.
Proof. unfold prepared. destruct (call 100) as [[p|e|] w']; [auto|done..]. Qed.

Lemma account_mutations_refine_witness :
  prepared (prepare_add_website_account_with_check vault header manifest [] input 7 never_cancelled)
    (λ p _, refines vault header manifest [] p (account_added input 7 (pm_id p)) ∧ pm_kind p = MutationInsert).
Proof.
  apply prepared_intro; [vm_compute; reflexivity|]. intros p w' Hp.
  exact (proj1 (account_mutations_refine vault header manifest [] 7 never_cancelled 100 w' p vault_wf
    (conj (Zle_0_pos 7) eq_refl)) input input_wf Hp).
Defined.

Lemma passkey_mutations_refine_witness :
  prepared (prepare_add_passkey_with_check vault header manifest [] passkey_input [] Pending 7 never_cancelled)
    (λ r _, refines vault header manifest [] r.1 (passkey_added passkey_input [] Pending r.2 (pm_id r.1))
      ∧ pm_kind r.1 = MutationInsert).
Proof.
  apply prepared_intro; [vm_compute; reflexivity|]. intros [p c] w' Hp.
  exact (proj1 (passkey_mutations_refine vault header manifest [] 7 never_cancelled 100 w' p vault_wf
    (conj (Zle_0_pos 7) eq_refl)) passkey_input [] Pending c passkey_input_wf Hp).
Defined.

Lemma account_reads_refine_witness :
  (list_website_accounts vault header manifest [] 100).1 = Ok (accounts_of ∅).
Proof.
  exact (proj1 (account_reads_refine vault header manifest [] ∅ never_cancelled 100 vault_represents
    (λ _, eq_refl))).
Defined.

Lemma passkey_listings_refine_witness :
  ∃ r, (list_passkeys_with_check vault header manifest [] never_cancelled 100).1 = r.
Proof.
  exact (ex_intro _ _ (proj2 (passkey_listings_refine vault header manifest [] ∅ never_cancelled 100
    vault_represents (λ _, eq_refl)))).
Defined.

Lemma operations_fail_closed_witness :
  authentic true vault header manifest [] (list_website_accounts (W:=Z) vault header manifest []).
Proof. exact (proj1 (operations_fail_closed vault header manifest [] 7 never_cancelled vault_wf)). Defined.

Lemma mutations_available_witness :
  is_ok (prepare_delete_website_account_with_check vault header manifest [] (zeros 16) 7 never_cancelled 100).1
    = true ↔
  mf_generation (uv_manifest vault) + 1 < 2 ^ 64 ∧ mf_committed_at_ms (uv_manifest vault) ≤ 7
  ∧ ∃ a, (∅ : gmap bytes DecryptedRecord) !! zeros 16 = Some (DecryptedWebsiteAccount a).
Proof.
  exact (proj1 (proj2 (mutations_available vault header manifest [] ∅ 7 never_cancelled 100
    vault_represents toy_entropic (λ _, eq_refl) (conj (Zle_0_pos 7) eq_refl))) (zeros 16)).
Defined.
End Examples.
