(* ===== verification/Storage.v ===== *)
(** * The vault database ([sqlite.rs], [filesystem.rs], [snapshot.rs] of
    [crates/vault-agent/src])

    Reading and committing one vault file, with the checks made before, inside and
    after the transaction.  The operating system ([Os]) and SQLite ([Sqlite]) are not
    code of the repository: they are classes whose laws ([StorageLaws]) state what
    the documentation promises of a single writer: statements act on the
    connection's view, and only a successful commit changes the durable database. *)

From S2P Require Import Prelude RustStd VaultFormat VaultRecords VaultKeys VaultStore.

(** ** Constants *)

Definition MAX_SQLITE_ROW_BYTES : Z := 8 * 1024 * 1024 + 64 * 1024.
Definition MAX_PAGE_COUNT : Z := 131072.
Definition MAX_SQLITE_SHM_BYTES : Z := 8 * 1024 * 1024.
Definition SQLITE_HEADER_BYTES : nat := 20.
Definition SQLITE_MAGIC : bytes := str "SQLite format 3" ++ [x00].
Definition SQLITE_READ_VERSION_OFFSET : nat := 18.
Definition SQLITE_WRITE_VERSION_OFFSET : nat := 19.
Definition SQLITE_WAL_VERSION : byte := x02.
Definition MAX_DATABASE_BYTES : Z := 512 * 1024 * 1024.

(** ** The operating system *)

Inductive IoError := IoNotFound | IoAlreadyExists | IoOther.

Record FileMetadata := { md_len : Z; md_is_file : bool; md_is_reparse_point : bool }.

Class Os (W : Type) := {
  File : Type;
  AncestorGuards : Type;
  acquire_ancestor_guards : bytes → stm W IoError AncestorGuards;
  (** [share_writes] and [share_deletes] are the last two arguments. *)
  open_existing_guard : AncestorGuards → bytes → bool → bool → stm W IoError File;
  create_write_sidecar_guard : AncestorGuards → bytes → stm W IoError File;
  metadata : File → stm W IoError FileMetadata;
  (** [same_file::Handle::from_file]. *)
  file_identity : File → stm W IoError Z;
  (** Seek to the start, [read_exact], seek to the start. *)
  read_prefix : File → nat → stm W IoError bytes;
}.

Record SqliteInputGuards `{Os W} := {
  ig_database : File;
  ig_wal : option File;
  ig_shm : option File;
  ig_ancestor_guards : AncestorGuards;
}.

Section filesystem.
Context {W : Type} `{Os W}.

(** [.map_err(|_| error)?] on a call. *)
Definition failing {E F A} (e : F) (m : stm W E A) : stm W F A := map_err_st (λ _, e) m.

Definition sqlite_sidecar (path suffix : bytes) : bytes := path ++ suffix.

Definition open_regular_file_guard (ancestors : AncestorGuards) (path : bytes)
    (share_writes share_deletes : bool) : stm W IoError File :=
  file ← open_existing_guard ancestors path share_writes share_deletes;
  m ← metadata file;
  guard_st (negb (md_is_file m) || md_is_reparse_point m) IoOther;;
  mret file.

Definition open_optional_regular_file_guard (ancestors : AncestorGuards) (path : bytes)
    (share_writes share_deletes : bool) : stm W StorageError (option File) := λ w,
  match open_regular_file_guard ancestors path share_writes share_deletes w with
  | (Ok file, w) => (Ok (Some file), w)
  | (Err IoNotFound, w) => (Ok None, w)
  | (Err _, w) => (Err StorageFilesystem, w)
  | (Panic, w) => (Panic, w)
  end.

Definition guarded_files_match (left right : File) : stm W StorageError unit :=
  left ← failing StorageFilesystem (file_identity left);
  right ← failing StorageFilesystem (file_identity right);
  guard_st (negb (left =? right)) StorageIdentity.

Definition guarded_file_matches_path (file : File) (path : bytes) (ancestors : AncestorGuards) :
    stm W StorageError unit :=
  current ← failing StorageFilesystem (open_regular_file_guard ancestors path true true);
  guarded_files_match file current.

Definition guarded_optional_file_matches_path (file : option File) (path : bytes)
    (ancestors : AncestorGuards) : stm W StorageError unit :=
  match file with
  | Some file => guarded_file_matches_path file path ancestors
  | None => λ w,
      match open_existing_guard ancestors path true true w with
      | (Err IoNotFound, w) => (Ok tt, w)
      | (Ok _, w) => (Err StorageIdentity, w)
      | (Err _, w) => (Err StorageFilesystem, w)
      | (Panic, w) => (Panic, w)
      end
  end.

Definition guarded_file_size (file : option File) (maximum_bytes : Z) : stm W StorageError Z :=
  match file with
  | None => mret 0
  | Some file =>
      m ← failing StorageFilesystem (metadata file);
      guard_st (negb (md_is_file m) || md_is_reparse_point m) StorageIdentity;;
      guard_st (md_len m >? maximum_bytes) StorageResourceLimit;;
      mret (md_len m)
  end.

(** ** Guards on the three files of a database *)

Definition acquire_sqlite_input_guards_with_hook (path : bytes) (after_ancestor_guards : W → W) :
    stm W StorageError SqliteInputGuards :=
  ancestors ← failing StorageFilesystem (acquire_ancestor_guards path);
  modify after_ancestor_guards;;
  database ← failing StorageFilesystem (open_regular_file_guard ancestors path false false);
  wal ← open_optional_regular_file_guard ancestors (sqlite_sidecar path (str "-wal")) false false;
  shm ← open_optional_regular_file_guard ancestors (sqlite_sidecar path (str "-shm")) false false;
  mret {| ig_database := database; ig_wal := wal; ig_shm := shm; ig_ancestor_guards := ancestors |}.

Definition validate_guarded_sqlite_input_sizes (input : SqliteInputGuards) : stm W StorageError unit :=
  database ← failing StorageFilesystem (metadata (ig_database input));
  wal_bytes ← guarded_file_size (ig_wal input) MAX_DATABASE_BYTES;
  shm_bytes ← guarded_file_size (ig_shm input) MAX_SQLITE_SHM_BYTES;
  total_bytes ← of_result (ok_or
    (bytes ← checked_add 64 (md_len database) wal_bytes; checked_add 64 bytes shm_bytes)
    StorageResourceLimit);
  guard_st (total_bytes >? MAX_DATABASE_BYTES) StorageResourceLimit.

Definition validate_guarded_sqlite_input_paths (path : bytes) (input : SqliteInputGuards) :
    stm W StorageError unit :=
  guarded_file_matches_path (ig_database input) path (ig_ancestor_guards input);;
  guarded_optional_file_matches_path (ig_wal input) (sqlite_sidecar path (str "-wal"))
    (ig_ancestor_guards input);;
  guarded_optional_file_matches_path (ig_shm input) (sqlite_sidecar path (str "-shm"))
    (ig_ancestor_guards input).

Definition validate_wal_database_header (database : File) : stm W StorageError unit :=
  header ← failing StorageFilesystem (read_prefix database SQLITE_HEADER_BYTES);
  guard_st (bool_decide (take (length SQLITE_MAGIC) header ≠ SQLITE_MAGIC)
    || bool_decide (header !! SQLITE_READ_VERSION_OFFSET ≠ Some SQLITE_WAL_VERSION)
    || bool_decide (header !! SQLITE_WRITE_VERSION_OFFSET ≠ Some SQLITE_WAL_VERSION))
    StorageInvalidDatabaseHeader.

Definition open_or_create_write_sidecar (ancestors : AncestorGuards) (path : bytes) :
    stm W StorageError File :=
  existing ← open_optional_regular_file_guard ancestors path true false;
  match existing with
  | Some existing => mret existing
  | None => failing StorageFilesystem (create_write_sidecar_guard ancestors path)
  end.

Definition acquire_sqlite_write_input_guards (path : bytes) : stm W StorageError SqliteInputGuards :=
  ancestors ← failing StorageFilesystem (acquire_ancestor_guards path);
  database ← failing StorageFilesystem (open_regular_file_guard ancestors path true false);
  wal ← open_or_create_write_sidecar ancestors (sqlite_sidecar path (str "-wal"));
  shm ← open_or_create_write_sidecar ancestors (sqlite_sidecar path (str "-shm"));
  let guards := {| ig_database := database; ig_wal := Some wal; ig_shm := Some shm;
                   ig_ancestor_guards := ancestors |} in
  validate_guarded_sqlite_input_sizes guards;;
  validate_guarded_sqlite_input_paths path guards;;
  mret guards.
End filesystem.

(** ** SQLite *)

(** The rows of the three tables; [singleton] rows are their only value. *)
Record Database := {
  db_header : bytes;
  db_manifest : bytes;
  db_records : list (bytes * bytes);
}.

Inductive Setting :=
  | LimitLength (bytes : Z) | LimitSqlLength (bytes : Z) | LimitColumn (n : Z) | LimitExprDepth (n : Z)
  | LimitCompoundSelect (n : Z) | LimitAttached (n : Z)
  | Defensive | TrustedSchemaOff | SynchronousFull | ForeignKeysOn | MaxPageCount (n : Z).

Inductive Statement :=
  | InsertRecord (record_id envelope : bytes)
  | UpdateRecord (record_id envelope : bytes)
  | DeleteRecord (record_id : bytes)
  | UpdateManifest (envelope : bytes).

Class Sqlite (W : Type) `{Os W} := {
  Connection : Type;
  (** [snapshot.rs]: a read-only connection to a private copy of the guarded files. *)
  open_guarded_read_connection : bytes → SqliteInputGuards → stm W StorageError Connection;
  open_read_write : bytes → stm W unit Connection;
  set_config : Connection → Setting → stm W unit unit;
  journal_mode : Connection → stm W unit bytes;
  integrity_check : Connection → stm W unit bytes;
  (** [SELECT type, name FROM sqlite_schema ORDER BY type, name]. *)
  schema_objects : Connection → stm W unit (list (bytes * bytes));
  table_strict : Connection → bytes → stm W unit Z;
  table_sql : Connection → bytes → stm W unit bytes;
  begin_immediate : Connection → stm W unit unit;
  select_header : Connection → stm W unit bytes;
  select_manifest : Connection → stm W unit bytes;
  (** The three [COUNT]s. *)
  select_counts : Connection → stm W unit (Z * Z * Z);
  (** [SELECT record_id, envelope .. ORDER BY record_id]; a row can fail. *)
  select_records : Connection → stm W unit (list (option (bytes * bytes)));
  execute : Connection → Statement → stm W unit Z;
  commit : Connection → stm W unit unit;
}.

(** What a statement does to the rows, and how many it affects; inserting a
    present key violates the primary key. *)
Definition key_is (id : bytes) (row : bytes * bytes) : bool := bool_decide (row.1 = id).
Definition run_statement (s : Statement) (db : Database) : option (Database * Z) :=
  let with_records rows := {| db_header := db_header db; db_manifest := db_manifest db; db_records := rows |} in
  match s with
  | InsertRecord id envelope =>
      if existsb (key_is id) (db_records db) then None
      else Some (with_records (sort_by fst (db_records db ++ [(id, envelope)])), 1)
  | UpdateRecord id envelope =>
      Some (with_records ((λ row, if key_is id row then (id, envelope) else row) <$> db_records db),
            len (filter (λ row, key_is id row = true) (db_records db)))
  | DeleteRecord id =>
      Some (with_records (filter (λ row, key_is id row = false) (db_records db)),
            len (filter (λ row, key_is id row = true) (db_records db)))
  | UpdateManifest envelope =>
      Some ({| db_header := db_header db; db_manifest := envelope; db_records := db_records db |}, 1)
  end.

(** The rows of a table are sorted by their primary key when read. *)
Definition Database_wf (db : Database) : Prop :=
  StronglySorted (key_lt fst) (db_records db).

Record VaultData := { vd_header : bytes; vd_manifest : bytes; vd_records : list EncryptedRecord }.
#[export] Instance VaultData_eq_dec : EqDecision VaultData.
Proof. solve_decision. Defined.

Section sqlite.
Context {W : Type} `{Sqlite W}.

Definition configure_limits (connection : Connection) : stm W unit unit :=
  set_config connection (LimitLength MAX_SQLITE_ROW_BYTES);;
  set_config connection (LimitSqlLength (64 * 1024));;
  set_config connection (LimitColumn 16);;
  set_config connection (LimitExprDepth 32);;
  set_config connection (LimitCompoundSelect 4);;
  set_config connection (LimitAttached 0).

Definition verify_database_integrity (connection : Connection) : stm W StorageError unit :=
  status ← failing StorageSqlite (integrity_check connection);
  guard_st (bool_decide (status ≠ str "ok")) StorageIntegrity.

(** [value.split_whitespace().collect::<Vec<_>>().join(" ")], on characters. *)
Definition is_whitespace (c : Z) : bool :=
  (9 <=? c) && (c <=? 13) || bool_decide (c ∈ [0x20; 0x85; 0xA0; 0x1680; 0x2028; 0x2029; 0x202F; 0x205F; 0x3000])
  || (0x2000 <=? c) && (c <=? 0x200A).
Fixpoint join_words (pending started : bool) (cs : list Z) : list Z :=
  match cs with
  | [] => []
  | c :: cs =>
      if is_whitespace c then join_words started started cs
      else (if pending then [0x20; c] else [c]) ++ join_words false true cs
  end.
Definition normalize_whitespace (value : bytes) : option (list Z) :=
  join_words false false <$> utf8_chars value.

Definition ENCRYPTED_RECORDS_SQL : bytes := str
  "CREATE TABLE encrypted_records ( record_id BLOB PRIMARY KEY NOT NULL CHECK (length(record_id) = 16), envelope BLOB NOT NULL ) STRICT, WITHOUT ROWID".
Definition VAULT_HEADER_SQL : bytes := str
  "CREATE TABLE vault_header ( singleton INTEGER PRIMARY KEY CHECK (singleton = 1), header BLOB NOT NULL ) STRICT".
Definition VAULT_MANIFEST_SQL : bytes := str
  "CREATE TABLE vault_manifest ( singleton INTEGER PRIMARY KEY CHECK (singleton = 1), envelope BLOB NOT NULL ) STRICT".

Fixpoint verify_tables (connection : Connection) (expected : list (bytes * bytes)) :
    stm W StorageError unit :=
  match expected with
  | [] => mret tt
  | (table, expected_sql) :: expected =>
      strict ← failing StorageSqlite (table_strict connection table);
      guard_st (negb (strict =? 1)) StorageSchema;;
      schema_sql ← failing StorageSqlite (table_sql connection table);
      guard_st (bool_decide (normalize_whitespace schema_sql ≠ utf8_chars expected_sql)) StorageSchema;;
      verify_tables connection expected
  end.

Definition verify_application_schema (connection : Connection) : stm W StorageError unit :=
  application_objects ← failing StorageSqlite (schema_objects connection);
  guard_st (bool_decide (application_objects ≠
    [(str "table", str "encrypted_records"); (str "table", str "vault_header");
     (str "table", str "vault_manifest")])) StorageSchema;;
  verify_tables connection
    [(str "encrypted_records", ENCRYPTED_RECORDS_SQL); (str "vault_header", VAULT_HEADER_SQL);
     (str "vault_manifest", VAULT_MANIFEST_SQL)].

(** The loop over the rows; [records] are those already read. *)
Fixpoint read_rows (rows : list (option (bytes * bytes))) (records : list EncryptedRecord) :
    result StorageError (list EncryptedRecord) :=
  match rows with
  | [] => mret records
  | row :: rows =>
      row ← ok_or row StorageSqlite;
      let '(record_id, envelope) := row in
      fail_if ((len records >=? MAX_RECORDS) || (len envelope >? MAX_RECORD_ENVELOPE_BYTES))
        StorageResourceLimit;;
      fail_if (negb (Nat.eqb (length record_id) 16)) StorageSchema;;
      read_rows rows (records ++ [{| er_id := record_id; er_envelope := envelope |}])
  end.

Definition read_encrypted_records (connection : Connection) : stm W StorageError (list EncryptedRecord) :=
  rows ← failing StorageSqlite (select_records connection);
  of_result (read_rows rows []).

Definition read_vault_data_from_connection (connection : Connection) : stm W StorageError VaultData :=
  header ← failing StorageSqlite (select_header connection);
  manifest ← failing StorageSqlite (select_manifest connection);
  records ← read_encrypted_records connection;
  mret {| vd_header := header; vd_manifest := manifest; vd_records := records |}.

Definition read_vault_from_guards (path : bytes) (input_guards : SqliteInputGuards)
    (before_connection after_connection : W → W) : stm W StorageError VaultData :=
  validate_guarded_sqlite_input_sizes input_guards;;
  validate_guarded_sqlite_input_paths path input_guards;;
  validate_wal_database_header (ig_database input_guards);;
  modify before_connection;;
  connection ← open_guarded_read_connection path input_guards;
  modify after_connection;;
  failing StorageSqlite (configure_limits connection);;
  failing StorageSqlite (set_config connection Defensive);;
  failing StorageSqlite (set_config connection TrustedSchemaOff);;
  validate_guarded_sqlite_input_sizes input_guards;;
  validate_guarded_sqlite_input_paths path input_guards;;
  verify_database_integrity connection;;
  verify_application_schema connection;;
  header ← failing StorageSqlite (select_header connection);
  manifest ← failing StorageSqlite (select_manifest connection);
  counts ← failing StorageSqlite (select_counts connection);
  let '(header_count, manifest_count, record_count) := counts in
  guard_st ((len header >? MAX_HEADER_BYTES) || (len manifest >? MAX_MANIFEST_ENVELOPE_BYTES))
    StorageResourceLimit;;
  guard_st (negb (header_count =? 1) || negb (manifest_count =? 1) || (record_count <? 0)
    || (record_count >? MAX_RECORDS)) StorageSchema;;
  records ← read_encrypted_records connection;
  guard_st (negb (len records =? record_count)) StorageSchema;;
  validate_guarded_sqlite_input_sizes input_guards;;
  validate_guarded_sqlite_input_paths path input_guards;;
  mret {| vd_header := header; vd_manifest := manifest; vd_records := records |}.

(** [GuardedVault]: the data and the guards they were read under. *)
Definition read_guarded_vault_with_hooks (path : bytes)
    (after_ancestor_guards before_connection after_connection : W → W) :
    stm W StorageError (VaultData * SqliteInputGuards) :=
  input_guards ← acquire_sqlite_input_guards_with_hook path after_ancestor_guards;
  data ← read_vault_from_guards path input_guards before_connection after_connection;
  mret (data, input_guards).

Definition read_guarded_vault (path : bytes) : stm W StorageError (VaultData * SqliteInputGuards) :=
  read_guarded_vault_with_hooks path id id id.

Definition read_guarded_empty_vault_with_hooks (path : bytes)
    (after_ancestor_guards before_connection after_connection : W → W) :
    stm W StorageError (VaultData * SqliteInputGuards) :=
  snapshot ← read_guarded_vault_with_hooks path after_ancestor_guards before_connection after_connection;
  guard_st (negb (is_empty (vd_records snapshot.1))) StorageSchema;;
  mret snapshot.

Definition read_guarded_empty_vault (path : bytes) : stm W StorageError (VaultData * SqliteInputGuards) :=
  read_guarded_empty_vault_with_hooks path id id id.

(** ** Committing a mutation *)

(** The statement of a mutation, run on the transaction. *)
Definition execute_mutation (transaction : Connection) (mutation : PreparedRecordMutation) :
    stm W StorageError Z :=
  match pm_kind mutation with
  | MutationInsert =>
      envelope ← of_result (ok_or (pm_envelope mutation) StorageSchema);
      failing StorageSqlite (execute transaction (InsertRecord (pm_id mutation) envelope))
  | MutationUpdate =>
      envelope ← of_result (ok_or (pm_envelope mutation) StorageSchema);
      failing StorageSqlite (execute transaction (UpdateRecord (pm_id mutation) envelope))
  | MutationDelete =>
      failing StorageSqlite (execute transaction (DeleteRecord (pm_id mutation)))
  end.

(** The body of [apply_record_mutation] up to the transaction ... *)
Definition open_for_mutation (path : bytes) : stm W StorageError (SqliteInputGuards * Connection) :=
  input_guards ← acquire_sqlite_write_input_guards path;
  validate_guarded_sqlite_input_sizes input_guards;;
  validate_guarded_sqlite_input_paths path input_guards;;
  validate_wal_database_header (ig_database input_guards);;
  connection ← failing StorageSqlite (open_read_write path);
  validate_guarded_sqlite_input_sizes input_guards;;
  validate_guarded_sqlite_input_paths path input_guards;;
  failing StorageSqlite (configure_limits connection);;
  failing StorageSqlite (set_config connection Defensive);;
  failing StorageSqlite (set_config connection TrustedSchemaOff);;
  failing StorageSqlite (set_config connection SynchronousFull);;
  failing StorageSqlite (set_config connection ForeignKeysOn);;
  failing StorageSqlite (set_config connection (MaxPageCount MAX_PAGE_COUNT));;
  mode ← failing StorageSqlite (journal_mode connection);
  guard_st (bool_decide (mode ≠ str "wal")) StorageSchema;;
  verify_database_integrity connection;;
  verify_application_schema connection;;
  validate_guarded_sqlite_input_sizes input_guards;;
  validate_guarded_sqlite_input_paths path input_guards;;
  mret (input_guards, connection).

(** ... the transaction, which a return before the commit rolls back ... *)
Definition run_transaction (path : bytes) (input_guards : SqliteInputGuards) (connection : Connection)
    (expected_header expected_manifest : bytes) (expected_records : list EncryptedRecord)
    (mutation : PreparedRecordMutation) (before_commit : stm W StorageError unit) :
    stm W StorageError unit :=
  failing StorageSqlite (begin_immediate connection);;
  current ← read_vault_data_from_connection connection;
  guard_st (bool_decide (vd_header current ≠ expected_header)
    || bool_decide (vd_manifest current ≠ expected_manifest)
    || bool_decide (vd_records current ≠ expected_records)) StorageConflict;;
  affected ← execute_mutation connection mutation;
  guard_st (negb (affected =? 1)) StorageConflict;;
  updated ← failing StorageSqlite (execute connection (UpdateManifest (pm_manifest_envelope mutation)));
  guard_st (negb (updated =? 1)) StorageSchema;;
  before_commit;;
  validate_guarded_sqlite_input_sizes input_guards;;
  validate_guarded_sqlite_input_paths path input_guards;;
  failing StorageSqlite (commit connection).

(** ... and what follows it. *)
Definition check_committed (path : bytes) (input_guards : SqliteInputGuards) (connection : Connection)
    (expected_header : bytes) (expected_records : list EncryptedRecord)
    (mutation : PreparedRecordMutation) : stm W StorageError unit :=
  validate_guarded_sqlite_input_sizes input_guards;;
  validate_guarded_sqlite_input_paths path input_guards;;
  committed ← read_vault_data_from_connection connection;
  expected_committed_records ← of_result (apply_to_expected_records expected_records mutation);
  guard_st (bool_decide (vd_header committed ≠ expected_header)
    || bool_decide (vd_manifest committed ≠ pm_manifest_envelope mutation)
    || bool_decide (vd_records committed ≠ expected_committed_records)) StorageIntegrity.

Definition apply_record_mutation (path expected_header expected_manifest : bytes)
    (expected_records : list EncryptedRecord) (mutation : PreparedRecordMutation)
    (before_commit : stm W StorageError unit) : stm W StorageError unit :=
  opened ← open_for_mutation path;
  let '(input_guards, connection) := opened in
  run_transaction path input_guards connection expected_header expected_manifest expected_records
    mutation before_commit;;
  check_committed path input_guards connection expected_header expected_records mutation.
End sqlite.

(** ** What SQLite and the operating system promise

    [durable path] is the committed database of a vault file, [visible] what a
    connection sees.  One process writes the file (the runtime holds its ownership
    lease), so nothing else changes [durable].  The rest of the world, which other
    threads share, [moves] meanwhile. *)

Class StorageModel (W : Type) `{Sqlite W} := {
  durable : bytes → W → Database;
  visible : Connection → W → Database;
  connection_path : Connection → bytes;
  moves : relation W;
  #[global] moves_preorder :: PreOrder moves;
}.

Section promises.
Context {W : Type} `{StorageModel W}.

(** The files are as they were; databases that connections see are, too. *)
Definition files_kept (w w' : W) : Prop := ∀ p, durable p w' = durable p w.
Definition same_files (w w' : W) : Prop := (∀ c, visible c w' = visible c w) ∧ files_kept w w'.

Definition durable_kept (w w' : W) : Prop := moves w w' ∧ files_kept w w'.
Definition unchanged (w w' : W) : Prop := (∀ c, visible c w' = visible c w) ∧ durable_kept w w'.

#[export] Instance files_kept_preorder : PreOrder files_kept.
Proof. split; [by intros w p|]. intros w1 w2 w3 H12 H23 p. by rewrite H23. Qed.
#[export] Instance durable_kept_preorder : PreOrder durable_kept.
Proof. split; [by intros w|]. intros w1 w2 w3 [] []. split; by etrans. Qed.
#[export] Instance unchanged_preorder : PreOrder unchanged.
Proof. split; [by intros w|]. intros w1 w2 w3 [H12 ?] [H23 ?]. split; [intros c; by rewrite H23|by etrans]. Qed.

(** A call of the caller's, [before], that ran to its end between [w] and [w'], as the
    only thing that did more than move; and one that may have run. *)
Definition ran {E A} (before : stm W E A) (r : result E A) (w w' : W) : Prop :=
  ∃ w1 w2, moves w w1 ∧ before w1 = (r, w2) ∧ moves w2 w'.
Definition passed {E} (before : stm W E unit) (w w' : W) : Prop := ran before (Ok tt) w w'.
Definition may_have_run {E A} (before : stm W E A) (w w' : W) : Prop :=
  moves w w' ∨ ∃ r, ran before r w w'.

(** It may be run at any time from [w] on: it ends, and leaves files alone. *)
Definition admissible {E A} (before : stm W E A) (w : W) : Prop :=
  ∀ w1, moves w w1 → (before w1).1 ≠ Panic ∧ same_files w1 (before w1).2.

(** A call that ends and changes no database. *)
Definition inert {E A} (m : stm W E A) : Prop := ∀ w, (m w).1 ≠ Panic ∧ unchanged w (m w).2.
Definition keeps_durable {E A} (m : stm W E A) : Prop := ∀ w, (m w).1 ≠ Panic ∧ durable_kept w (m w).2.
End promises.

Class StorageLaws (W : Type) `{StorageModel W} : Prop := {
  acquire_ancestor_guards_inert p : inert (acquire_ancestor_guards p);
  open_existing_guard_inert g p a b : inert (open_existing_guard g p a b);
  create_write_sidecar_guard_inert g p : inert (create_write_sidecar_guard g p);
  metadata_inert f : inert (metadata f);
  file_identity_inert f : inert (file_identity f);
  read_prefix_inert f n : inert (read_prefix f n);
  open_guarded_keeps p g : keeps_durable (open_guarded_read_connection p g);
  open_guarded_sees p g w c w' :
    open_guarded_read_connection p g w = (Ok c, w') → visible c w' = durable p w';
  open_guarded_error p g w e w' :
    open_guarded_read_connection p g w = (Err e, w') → e ≠ StorageAborted ∧ e ≠ StorageConflict;
  open_read_write_keeps p : keeps_durable (open_read_write p);
  open_read_write_path p w c w' : open_read_write p w = (Ok c, w') → connection_path c = p;
  set_config_inert c s : inert (set_config c s);
  journal_mode_inert c : inert (journal_mode c);
  integrity_check_inert c : inert (integrity_check c);
  schema_objects_inert c : inert (schema_objects c);
  table_strict_inert c t : inert (table_strict c t);
  table_sql_inert c t : inert (table_sql c t);
  begin_immediate_keeps c : keeps_durable (begin_immediate c);
  begin_immediate_sees c w w' :
    begin_immediate c w = (Ok tt, w') → visible c w' = durable (connection_path c) w';
  select_header_inert c : inert (select_header c);
  select_header_reads c w h w' : select_header c w = (Ok h, w') → h = db_header (visible c w);
  select_manifest_inert c : inert (select_manifest c);
  select_manifest_reads c w m w' : select_manifest c w = (Ok m, w') → m = db_manifest (visible c w);
  select_counts_inert c : inert (select_counts c);
  select_records_inert c : inert (select_records c);
  select_records_reads c w rows w' : select_records c w = (Ok (Some <$> rows), w') → rows = db_records (visible c w);
  execute_keeps c s : keeps_durable (execute c s);
  execute_runs c s w n w' :
    execute c s w = (Ok n, w') → run_statement s (visible c w) = Some (visible c w', n);
  commit_no_panic c w : (commit c w).1 ≠ Panic;
  commit_publishes c w w' p : commit c w = (Ok tt, w') →
    durable p w' = (if decide (p = connection_path c) then visible c w else durable p w)
    ∧ visible c w' = visible c w;
  commit_fails c w e w' : commit c w = (Err e, w') → files_kept w w';
  commit_moves c w : moves w (commit c w).2;
  durable_wf p w : Database_wf (durable p w);
}.

(** ** Checks *)

Section checks.
Context {W : Type} `{StorageLaws W}.

(** An error that neither reports the caller's abort nor a conflict. *)
Definition benign (e : StorageError) : Prop := e ≠ StorageAborted ∧ e ≠ StorageConflict.

(** A call that changes no database and fails benignly. *)
Definition checking {A} (m : stm W StorageError A) : Prop :=
  ∀ w, triple (λ s, s = w) m (λ _, unchanged w) (λ e w', unchanged w w' ∧ benign e).

Lemma unchanged_refl (w : W) : unchanged w w.
Proof. done. Qed.
Lemma unchanged_trans (w1 w2 w3 : W) : unchanged w1 w2 → unchanged w2 w3 → unchanged w1 w3.
Proof. apply transitivity. Qed.

Lemma inert_admissible {E A} (m : stm W E A) w : inert m → admissible m w.
Proof. intros Hm w1 _. destruct (Hm w1) as [? [? []]]. by split_and!. Qed.
Lemma admissible_moves {E A} (m : stm W E A) w w' : admissible m w → moves w w' → admissible m w'.
Proof. intros Hm Hw w1 Hw1. apply Hm. by etrans. Qed.
Lemma ran_pre {E A} (m : stm W E A) r w w1 w' : moves w w1 → ran m r w1 w' → ran m r w w'.
Proof. intros Hw (w2 & w3 & ? & ? & ?). exists w2, w3. split_and!; [by etrans|done|done]. Qed.
Lemma ran_post {E A} (m : stm W E A) r w w1 w' : ran m r w w1 → moves w1 w' → ran m r w w'.
Proof. intros (w2 & w3 & ? & ? & ?) Hw. exists w2, w3. split_and!; [done|done|by etrans]. Qed.
Lemma may_have_run_pre {E A} (m : stm W E A) w w1 w' : moves w w1 → may_have_run m w1 w' → may_have_run m w w'.
Proof. intros Hw [?|[r Hr]]; [left; by etrans|right; exists r; by eapply ran_pre]. Qed.
Lemma may_have_run_post {E A} (m : stm W E A) w w1 w' : may_have_run m w w1 → moves w1 w' → may_have_run m w w'.
Proof. intros [?|[r Hr]] Hw; [left; by etrans|right; exists r; by eapply ran_post]. Qed.
Lemma passed_may_have_run {E} (m : stm W E unit) w w' : passed m w w' → may_have_run m w w'.
Proof. right. by eexists. Qed.

Lemma checking_bind {A B} (m : stm W StorageError A) (k : A → stm W StorageError B) :
  checking m → (∀ a, checking (k a)) → checking (m ≫= k).
Proof.
  intros Hm Hk w. eapply triple_bind; [apply Hm|]. intros a w1 Hw1. cbn.
  specialize (Hk a w1 w1 eq_refl). destruct (k a w1) as [[b|e|] w2]; [| |done].
  - by eapply unchanged_trans.
  - destruct Hk. split; [by eapply unchanged_trans|done].
Qed.
Lemma checking_ret {A} (a : A) : checking (mret a).
Proof. intros w. apply triple_ret. intros s ->. apply unchanged_refl. Qed.
Lemma checking_guard b e : benign e → checking (guard_st b e).
Proof.
  intros He w. apply triple_guard; intros s _ ->; [|split; [|done]]; apply unchanged_refl.
Qed.
Lemma checking_failing {E A} e (m : stm W E A) : benign e → inert m → checking (failing e m).
Proof.
  intros He Hm w s ->. unfold failing, map_err_st. specialize (Hm w).
  destruct (m w) as [[a|e'|] w']; simpl in *; destruct Hm; done.
Qed.
Lemma checking_of_result {A} (r : result StorageError A) :
  r ≠ Panic → (∀ e, r = Err e → benign e) → checking (of_result r).
Proof.
  intros Hp He w. apply triple_of_result; [done| |]; intros ? s Hr ->; [|split; [|by apply He]];
    apply unchanged_refl.
Qed.
Lemma inert_bind {E A B} (m : stm W E A) (k : A → stm W E B) :
  inert m → (∀ a, inert (k a)) → inert (m ≫= k).
Proof.
  intros Hm Hk w. unfold mbind, stm_bind. specialize (Hm w). destruct (m w) as [[a|e|] w1]; simpl in *.
  - specialize (Hk a w1). destruct Hm, Hk. split; [done|by eapply unchanged_trans].
  - by destruct Hm.
  - by destruct Hm.
Qed.
Lemma inert_guard {E} b (e : E) : inert (guard_st b e).
Proof. intros w. unfold guard_st, fail_after. by destruct b. Qed.
Lemma inert_ret {E A} (a : A) : inert (E:=E) (mret a).
Proof. by intros w. Qed.
Lemma benign_intro e : bool_decide (e = StorageAborted) || bool_decide (e = StorageConflict) = false → benign e.
Proof. intros. by simp_guards. Qed.
End checks.

#[export] Hint Resolve acquire_ancestor_guards_inert open_existing_guard_inert create_write_sidecar_guard_inert
  metadata_inert file_identity_inert read_prefix_inert set_config_inert journal_mode_inert
  integrity_check_inert schema_objects_inert table_strict_inert table_sql_inert select_header_inert
  select_manifest_inert select_counts_inert select_records_inert : storage.

(** [checking] walks a sequence of checks. *)
Ltac checking :=
  repeat first
    [ apply checking_ret
    | solve [eauto 2 with storage]
    | apply checking_guard; by apply benign_intro
    | apply checking_failing; [by apply benign_intro|solve [eauto 2 with storage]]
    | apply checking_bind; [|intros ?]
    | progress case_match ].

Section check_facts.
Context {W : Type} `{StorageLaws W}.

Lemma open_regular_file_guard_inert g p a b : inert (open_regular_file_guard g p a b).
Proof.
  unfold open_regular_file_guard. apply inert_bind; [eauto with storage|intros f].
  apply inert_bind; [eauto with storage|intros m]. apply inert_bind; [apply inert_guard|intros _].
  apply inert_ret.
Qed.
#[local] Hint Resolve open_regular_file_guard_inert : storage.

Lemma open_optional_checking g p a b : checking (open_optional_regular_file_guard g p a b).
Proof.
  intros w s ->. unfold open_optional_regular_file_guard.
  pose proof (open_regular_file_guard_inert g p a b w) as [Hp Hu].
  destruct (open_regular_file_guard g p a b w) as [[f|[]|] w']; simpl in *; done.
Qed.
#[local] Hint Resolve open_optional_checking : storage.

Lemma guarded_files_match_checking f f' : checking (guarded_files_match f f').
Proof. unfold guarded_files_match. checking. Qed.
#[local] Hint Resolve guarded_files_match_checking : storage.
Lemma guarded_file_matches_path_checking f p g : checking (guarded_file_matches_path f p g).
Proof. unfold guarded_file_matches_path. checking. Qed.
#[local] Hint Resolve guarded_file_matches_path_checking : storage.
Lemma guarded_optional_matches_checking f p g : checking (guarded_optional_file_matches_path f p g).
Proof.
  destruct f as [f|]; simpl; [checking|]. intros w s ->.
  pose proof (open_existing_guard_inert g p true true w) as [Hp Hu].
  destruct (open_existing_guard g p true true w) as [[f|[]|] w']; simpl in *; done.
Qed.
#[local] Hint Resolve guarded_optional_matches_checking : storage.
Lemma guarded_file_size_checking f n : checking (guarded_file_size f n).
Proof. unfold guarded_file_size. checking. Qed.
#[local] Hint Resolve guarded_file_size_checking : storage.
Lemma acquire_input_checking p : checking (acquire_sqlite_input_guards_with_hook p id).
Proof.
  unfold acquire_sqlite_input_guards_with_hook. apply checking_bind; [checking|intros g].
  apply checking_bind; [intros w s ->; apply unchanged_refl|intros _]. checking.
Qed.
Lemma sizes_checking g : checking (validate_guarded_sqlite_input_sizes g).
Proof.
  unfold validate_guarded_sqlite_input_sizes. checking.
  apply checking_of_result; [no_panic|]. intros e. unfold ok_or. by destruct (_ ≫= _); intros [= <-].
Qed.
Lemma paths_checking p g : checking (validate_guarded_sqlite_input_paths p g).
Proof. unfold validate_guarded_sqlite_input_paths. checking. Qed.
Lemma wal_header_checking f : checking (validate_wal_database_header f).
Proof. unfold validate_wal_database_header. checking. Qed.
Lemma sidecar_checking g p : checking (open_or_create_write_sidecar g p).
Proof. unfold open_or_create_write_sidecar. checking. Qed.
#[local] Hint Resolve sizes_checking paths_checking wal_header_checking sidecar_checking : storage.
Lemma acquire_write_checking p : checking (acquire_sqlite_write_input_guards p).
Proof. unfold acquire_sqlite_write_input_guards. checking. Qed.
Lemma configure_limits_inert c : inert (configure_limits c).
Proof. unfold configure_limits. repeat (apply inert_bind; [eauto with storage|intros _]). eauto with storage. Qed.
Lemma integrity_checking c : checking (verify_database_integrity c).
Proof. unfold verify_database_integrity. checking. Qed.
Lemma tables_checking c l : checking (verify_tables c l).
Proof. induction l as [|[t sql] l IH]; cbn [verify_tables]; checking; apply IH. Qed.
#[local] Hint Resolve tables_checking : storage.
Lemma schema_checking c : checking (verify_application_schema c).
Proof. unfold verify_application_schema. checking. Qed.
End check_facts.
#[export] Hint Resolve open_regular_file_guard_inert open_optional_checking sizes_checking paths_checking
  wal_header_checking acquire_input_checking acquire_write_checking configure_limits_inert
  integrity_checking schema_checking : storage.

(** ** The rows after a statement are the rows the agent expects *)

Definition record_of (row : bytes * bytes) : EncryptedRecord := {| er_id := row.1; er_envelope := row.2 |}.
Definition rows_of (db : Database) : list EncryptedRecord := record_of <$> db_records db.
Definition data_of (db : Database) : VaultData :=
  {| vd_header := db_header db; vd_manifest := db_manifest db; vd_records := rows_of db |}.

Lemma records_sorted l : StronglySorted (key_lt fst) l → StronglySorted (key_lt er_id) (record_of <$> l).
Proof.
  induction 1 as [|a l Hs IH Ha]; [constructor|]. rewrite fmap_cons. constructor; [done|].
  by rewrite Forall_fmap.
Qed.

Lemma replace_matches id env l :
  StronglySorted (key_lt fst) l → len (filter (λ row, key_is id row = true) l) = 1 →
  replace_first (λ r, bool_decide (er_id r = id)) (record_of (id, env)) (record_of <$> l)
    = Some (record_of <$> ((λ row, if key_is id row then (id, env) else row) <$> l))
  ∧ StronglySorted (key_lt fst) ((λ row, if key_is id row then (id, env) else row) <$> l)
  ∧ existsb (λ r, bool_decide (er_id r = id)) (record_of <$> l) = true.
Proof.
  intros Hs Hl.
  assert (∀ k : list (bytes * bytes), Forall (λ row, row.1 ≠ id) k →
    ((λ row, if key_is id row then (id, env) else row) <$> k) = k) as Hrest.
  { intros k. induction 1 as [|a k Ha Hk IH]; [done|]. cbn. unfold key_is at 1. rewrite bool_decide_false by done.
    by f_equal. }
  induction Hs as [|a l Hs IH Ha]; [done|]. rewrite filter_cons in Hl. cbn [fmap list_fmap replace_first existsb].
  unfold key_is at 1 3. unfold key_is at 1 in Hl. cbn [er_id record_of].
  destruct (bool_decide_reflect (a.1 = id)) as [<-|Hne].
  - rewrite decide_True in Hl by (by apply bool_decide_true). rewrite len_cons in Hl.
    assert (Forall (λ row, row.1 ≠ a.1) l) as Hk.
    { apply Forall_forall. intros b Hb Heq. rewrite Forall_forall in Ha. specialize (Ha b Hb).
      unfold key_lt in Ha. rewrite Heq in Ha. by apply (irreflexivity bytes_lt) in Ha. }
    rewrite (Hrest l Hk). split_and!; [done|by constructor|done].
  - rewrite decide_False in Hl by (unfold key_is; by rewrite bool_decide_false). destruct (IH Hl) as (Hr & Hs' & He).
    rewrite Hr, He. split_and!; [done| |done].
    constructor; [done|].
    rewrite Forall_fmap. eapply Forall_impl; [exact Ha|]. intros b Hb. cbn. unfold key_is.
    by destruct (bool_decide_reflect (b.1 = id)) as [<-|].
Qed.

(** The statement of a mutation, when it has what it needs. *)
Definition statement_of (p : PreparedRecordMutation) : option Statement :=
  match pm_kind p with
  | MutationInsert => InsertRecord (pm_id p) <$> pm_envelope p
  | MutationUpdate => UpdateRecord (pm_id p) <$> pm_envelope p
  | MutationDelete => Some (DeleteRecord (pm_id p))
  end.

Lemma statement_expected p s db db' :
  Database_wf db → statement_of p = Some s → run_statement s db = Some (db', 1) →
  apply_to_expected_records (rows_of db) p = Ok (rows_of db')
  ∧ db_header db' = db_header db ∧ Database_wf db'.
Proof.
  unfold Database_wf, statement_of, apply_to_expected_records, rows_of. intros Hs Hst Hr.
  destruct (pm_kind p).
  - apply fmap_Some in Hst as (env & -> & ->). simpl in Hr.
    destruct (existsb _ _) eqn:He; [done|]. simplify_eq/=.
    assert (StronglySorted (key_lt fst) (sort_by fst (db_records db ++ [(pm_id p, env)]))) as Hso.
    { apply sort_by_sorted. rewrite fmap_app. apply NoDup_app. split_and!; [by apply sorted_NoDup| |apply NoDup_singleton].
      intros i Hi ->%list_elem_of_singleton. apply list_elem_of_fmap in Hi as (row & Hid & Hin).
      apply not_true_iff_false in He. apply He, existsb_exists. exists row.
      split; [by apply list_elem_of_In|]. by apply bool_decide_true. }
    split_and!; [|done|done]. cbn [ok_or mbind result_bind mret result_ret]. f_equal.
    apply sort_by_eq; [by apply records_sorted|]. rewrite sort_by_perm, fmap_app. done.
  - apply fmap_Some in Hst as (env & -> & ->). simpl in Hr. simplify_eq/=.
    match goal with H : len _ = 1 |- _ => rename H into Hl end.
    destruct (replace_matches (pm_id p) env (db_records db) Hs Hl) as (Hrep & Hso & He).
    rewrite He. cbn [negb fail_if mbind result_bind ok_or mret result_ret].
    unfold record_of in Hrep at 1. simpl in Hrep. rewrite Hrep. cbn [ok_or mbind result_bind]. split_and!; [|done|done].
    f_equal. apply sort_by_id. by apply records_sorted.
  - simplify_eq/=. match goal with H : len _ = 1 |- _ => rename H into Hl end.
    assert (filter (λ r, er_id r ≠ pm_id p) (record_of <$> db_records db)
      = record_of <$> filter (λ row, key_is (pm_id p) row = false) (db_records db)) as Hf.
    { clear. induction (db_records db) as [|a l IH]; [done|]. rewrite fmap_cons, !filter_cons, IH.
      destruct (decide (er_id (record_of a) ≠ pm_id p)) as [Hne|He],
        (decide (key_is (pm_id p) a = false)) as [Hk|Hk]; unfold key_is in Hk; simpl in *; simp_guards; try done.
      by rewrite bool_decide_false in Hk. }
    rewrite Hf.
    assert (len (record_of <$> filter (λ row, key_is (pm_id p) row = false) (db_records db))
      =? len (record_of <$> db_records db) = false) as ->.
    { apply Z.eqb_neq. unfold len in *. rewrite !length_fmap.
      assert (∀ l : list (bytes * bytes), length (filter (λ row, key_is (pm_id p) row = false) l)
        + length (filter (λ row, key_is (pm_id p) row = true) l) = length l)%nat as Hsum.
      { clear. induction l as [|a l IH]; [done|]. rewrite !filter_cons.
        destruct (key_is (pm_id p) a); simpl; lia. }
      specialize (Hsum (db_records db)). lia. }
    cbn [negb fail_if mbind result_bind mret result_ret].
    assert (StronglySorted (key_lt fst) (filter (λ row, key_is (pm_id p) row = false) (db_records db))) as Hso.
    { clear -Hs. induction Hs as [|a l Hl IH Ha]; [constructor|]. rewrite filter_cons.
      destruct (decide _); [|done]. constructor; [done|]. rewrite Forall_forall in Ha.
      apply Forall_forall. intros b [_ Hb]%list_elem_of_filter. by apply Ha. }
    split_and!; [|done|done]. f_equal. apply sort_by_id. by apply records_sorted.
Qed.

(** ** Reading and committing *)

Section commits.
Context {W : Type} `{StorageLaws W}.

Lemma read_rows_spec rows acc :
  match read_rows rows acc with
  | Ok out => ∃ l, rows = Some <$> l ∧ out = acc ++ (record_of <$> l)
      ∧ Forall (λ row, length row.1 = 16%nat) l
  | Err e => benign e
  | Panic => False
  end.
Proof.
  revert acc. induction rows as [|[[i env]|] rows IH]; intros acc; cbn [read_rows].
  - exists []. rewrite app_nil_r. done.
  - cbn [ok_or mbind result_bind]. destruct (_ || _)%bool; [by apply benign_intro|]. cbn [fail_if mbind result_bind].
    destruct (Nat.eqb_spec (length i) 16) as [Hi|Hi]; [|by apply benign_intro]. cbn [negb fail_if mbind result_bind].
    specialize (IH (acc ++ [{| er_id := i; er_envelope := env |}])). destruct (read_rows _ _) as [out|e|]; [|done|done].
    destruct IH as (l & -> & -> & Hl). exists ((i, env) :: l). rewrite <-app_assoc. split_and!; [done|done|by constructor].
  - by apply benign_intro.
Qed.

(** What a connection reads is the database it sees. *)
Lemma read_encrypted_records_spec c w0 :
  triple (λ w, w = w0) (read_encrypted_records c)
    (λ l w, unchanged w0 w ∧ l = rows_of (visible c w0) ∧ Forall (λ r, length (er_id r) = 16%nat) l)
    (λ e w, unchanged w0 w ∧ benign e).
Proof.
  intros w ->. unfold read_encrypted_records, failing, mbind, stm_bind, map_err_st.
  destruct (select_records_inert c w0) as [Hp Hu].
  destruct (select_records c w0) as [[rows|e|] w1] eqn:Hs; simpl in *; [|by split; [|apply benign_intro]|done].
  unfold of_result. pose proof (read_rows_spec rows []) as Hr.
  destruct (read_rows rows []) as [out|e|]; [|done|done]. destruct Hr as (l & -> & -> & Hl).
  pose proof (select_records_reads _ _ _ _ Hs) as ->. split_and!; [done|done|].
  simpl. rewrite Forall_fmap. done.
Qed.

Lemma select_spec {A} (select : Connection → stm W unit A) (field : Database → A) c w0 :
  (∀ c, inert (select c)) → (∀ c w a w', select c w = (Ok a, w') → a = field (visible c w)) →
  triple (λ w, w = w0) (failing StorageSqlite (select c))
    (λ a w, unchanged w0 w ∧ a = field (visible c w0)) (λ e w, unchanged w0 w ∧ benign e).
Proof.
  intros Hi Hr w ->. unfold failing, map_err_st. destruct (Hi c w0) as [Hp Hu].
  destruct (select c w0) as [[a|e|] w1] eqn:Hs; simpl in *; [|by split; [|apply benign_intro]|done].
  split; [done|]. by eapply Hr.
Qed.

(** A step that changes nothing, in the middle of a computation. *)
Lemma unchanged_step {A B} (m : stm W StorageError A) (k : A → stm W StorageError B) w0
    (V : A → Prop) Q (R : StorageError → W → Prop) :
  (∀ w, unchanged w0 w → triple (λ s, s = w) m (λ a s, unchanged w s ∧ V a) (λ e s, unchanged w s ∧ benign e)) →
  (∀ w e, unchanged w0 w → benign e → R e w) →
  (∀ a, V a → triple (unchanged w0) (k a) Q R) →
  triple (unchanged w0) (m ≫= k) Q R.
Proof.
  intros Hm HR Hk. apply triple_pre. intros w Hw. eapply triple_bind.
  - eapply (triple_weaken _ _ _ _ (λ a s, unchanged w0 s ∧ V a)); [by apply (Hm w)|done| |].
    + intros a s [Hs Ha]. split; [by eapply unchanged_trans|done].
    + intros e s [Hs He]. apply HR; [by eapply unchanged_trans|done].
  - intros a w' [Hw' Ha]. by apply Hk.
Qed.
Lemma checking_step {A B} (m : stm W StorageError A) (k : A → stm W StorageError B) w0
    Q (R : StorageError → W → Prop) :
  checking m → (∀ w e, unchanged w0 w → benign e → R e w) →
  (∀ a, triple (unchanged w0) (k a) Q R) → triple (unchanged w0) (m ≫= k) Q R.
Proof.
  intros Hm HR Hk. eapply (unchanged_step _ _ _ (λ _, True)); [|done|auto].
  intros w _. eapply triple_weaken; [apply (Hm w)|done|by split|done].
Qed.

Lemma read_vault_data_spec c w0 :
  triple (unchanged w0) (read_vault_data_from_connection c)
    (λ d w, unchanged w0 w ∧ d = data_of (visible c w0)) (λ e w, unchanged w0 w ∧ benign e).
Proof.
  unfold read_vault_data_from_connection.
  apply (unchanged_step _ _ _ (λ h, h = db_header (visible c w0))); [|by split|intros h ->].
  { intros w [Hv _]. rewrite <-Hv. apply (select_spec _ db_header); eauto using select_header_reads with storage. }
  apply (unchanged_step _ _ _ (λ h, h = db_manifest (visible c w0))); [|by split|intros m ->].
  { intros w [Hv _]. rewrite <-Hv. apply (select_spec _ db_manifest); eauto using select_manifest_reads with storage. }
  apply (unchanged_step _ _ _ (λ l, l = rows_of (visible c w0))); [|by split|intros l ->].
  { intros w [Hv _]. rewrite <-Hv. eapply triple_weaken; [apply (read_encrypted_records_spec c w)|done|naive_solver|done]. }
  by apply triple_ret.
Qed.

(** Reading a vault file through its guards returns its durable contents. *)
Lemma read_vault_from_guards_spec path g w0 :
  triple (λ w, w = w0) (read_vault_from_guards path g id id)
    (λ d w, durable_kept w0 w ∧ d = data_of (durable path w0)
      ∧ Forall (λ r, length (er_id r) = 16%nat) (vd_records d)
      ∧ len (vd_records d) ≤ MAX_RECORDS)
    (λ e w, durable_kept w0 w ∧ benign e).
Proof.
  set (R := λ e w, durable_kept w0 w ∧ benign e).
  assert (∀ w1 w e, durable_kept w0 w1 → unchanged w1 w → benign e → R e w) as HR.
  { intros w1 w e H01 [_ H1'] He. split; [by etrans|done]. }
  unfold read_vault_from_guards.
  eapply triple_from; [by intros ? ->; apply unchanged_refl|].
  do 3 (apply checking_step; [eauto with storage|by intros; eapply HR|intros _]).
  eapply triple_bind; [by apply (triple_modify _ _ (λ _, unchanged w0))|intros []; cbn beta].
  eapply (triple_bind _ _ _ (λ c w, durable_kept w0 w ∧ visible c w = durable path w)).
  { intros w [_ Hw]. destruct (open_guarded_keeps path g w) as [Hp Hk].
    destruct (open_guarded_read_connection path g w) as [[c|e|] w1] eqn:Ho; simpl in *; [| |done].
    - split; [by etrans|by eapply open_guarded_sees].
    - split; [by etrans|by eapply open_guarded_error]. }
  intros c. apply triple_pre. intros w1 [Hk1 Hv1].
  eapply triple_from; [by intros ? ->; apply unchanged_refl|].
  eapply triple_bind; [by apply (triple_modify _ _ (λ _, unchanged w1))|intros []; cbn beta].
  do 3 (apply checking_step; [apply checking_failing; [by apply benign_intro|eauto with storage]
    |by intros; eapply HR|intros _]).
  do 4 (apply checking_step; [eauto with storage|by intros; eapply HR|intros _]).
  apply (unchanged_step _ _ _ (λ h, h = db_header (visible c w1))); [|by intros; eapply HR|intros h ->].
  { intros w [Hv _]. rewrite <-Hv. apply (select_spec _ db_header); eauto using select_header_reads with storage. }
  apply (unchanged_step _ _ _ (λ m, m = db_manifest (visible c w1))); [|by intros; eapply HR|intros m ->].
  { intros w [Hv _]. rewrite <-Hv. apply (select_spec _ db_manifest); eauto using select_manifest_reads with storage. }
  apply checking_step; [apply checking_failing; [by apply benign_intro|eauto with storage]
    |by intros; eapply HR|intros [[hc mc] rc]].
  apply checking_step; [by apply checking_guard, benign_intro|by intros; eapply HR|intros _].
  eapply triple_bind.
  { apply (triple_guard _ _ _ (λ _ s, unchanged w1 s ∧ rc ≤ MAX_RECORDS) R).
    - intros s Hb Hs. simp_guards. done.
    - intros s _ Hs. eapply HR; [done|done|by apply benign_intro]. }
  intros []. apply triple_pre. intros w2 [Hw2 Hrc].
  eapply triple_from; [by intros ? ->; exact Hw2|].
  apply (unchanged_step _ _ _ (λ l, l = rows_of (visible c w1) ∧ Forall (λ r, length (er_id r) = 16%nat) l));
    [|by intros; eapply HR|intros l [-> Hl]].
  { intros w [Hv _]. rewrite <-Hv. eapply triple_weaken; [apply (read_encrypted_records_spec c w)|done|naive_solver|done]. }
  eapply triple_bind.
  { apply (triple_guard _ _ _ (λ _ s, unchanged w1 s ∧ len (rows_of (visible c w1)) ≤ MAX_RECORDS) R).
    - intros s Hb Hs. simp_guards. split; [done|lia].
    - intros s _ Hs. eapply HR; [done|done|by apply benign_intro]. }
  intros []. apply triple_pre. intros w3 [Hw3 Hc]. eapply triple_from; [by intros ? ->; exact Hw3|].
  do 2 (apply checking_step; [eauto with storage|by intros; eapply HR|intros _]).
  apply triple_ret. intros s [_ Hs]. cbn [vd_records]. split_and!; try done.
  - by etrans.
  - unfold data_of. by rewrite Hv1, (proj2 Hk1).
Qed.

Lemma read_guarded_vault_spec path w0 :
  triple (λ w, w = w0) (read_guarded_vault path)
    (λ d w, durable_kept w0 w ∧ d.1 = data_of (durable path w0)
      ∧ Forall (λ r, length (er_id r) = 16%nat) (vd_records d.1)
      ∧ len (vd_records d.1) ≤ MAX_RECORDS)
    (λ e w, durable_kept w0 w ∧ benign e).
Proof.
  unfold read_guarded_vault, read_guarded_vault_with_hooks.
  eapply triple_from; [by intros ? ->; apply unchanged_refl|].
  apply checking_step; [eauto with storage|by intros w e []|intros g]. apply triple_pre. intros w1 [_ Hk1].
  eapply triple_bind.
  { eapply triple_weaken; [apply (read_vault_from_guards_spec path g w1)|done|intros d w Hd; exact Hd|].
    intros e w [Hk He]. split; [by etrans|done]. }
  intros d. apply triple_ret. intros w (Hk & -> & Hf & Hl). cbn [fst]. split_and!; [by etrans|by rewrite (proj2 Hk1)|done|done].
Qed.
End commits.

Section atomicity.
Context {W : Type} `{StorageLaws W}.

(** What a committed mutation leaves in the file. *)
Definition committed (path hdr man : bytes) (rows : list EncryptedRecord) (p : PreparedRecordMutation)
    (w w' : W) : Prop :=
  data_of (durable path w) = {| vd_header := hdr; vd_manifest := man; vd_records := rows |}
  ∧ (∃ rows', apply_to_expected_records rows p = Ok rows'
      ∧ data_of (durable path w') =
          {| vd_header := hdr; vd_manifest := pm_manifest_envelope p; vd_records := rows' |})
  ∧ ∀ q, q ≠ path → durable q w' = durable q w.

Lemma keeps_step {E A B} (m : stm W E A) e (k : A → stm W StorageError B) w0 (V : A → W → Prop) Q
    (R : StorageError → W → Prop) :
  keeps_durable m → (∀ w a w', m w = (Ok a, w') → durable_kept w w' → V a w') → (∀ w, durable_kept w0 w → R e w) →
  (∀ a, triple (λ w, durable_kept w0 w ∧ V a w) (k a) Q R) →
  triple (durable_kept w0) (failing e m ≫= k) Q R.
Proof.
  intros Hm HV HR Hk. eapply triple_bind; [|exact Hk]. intros w Hw. unfold failing, map_err_st.
  destruct (Hm w) as [Hp Hd]. destruct (m w) as [[a|e'|] w'] eqn:He; simpl in *; [split| |done].
  - by etrans.
  - by eapply HV.
  - apply HR. by etrans.
Qed.

Lemma execute_step {B} c s (k : Z → stm W StorageError B) w0 db Q (R : StorageError → W → Prop) :
  (∀ w, durable_kept w0 w → R StorageSqlite w) →
  (∀ n, triple (λ w, durable_kept w0 w ∧ run_statement s db = Some (visible c w, n)) (k n) Q R) →
  triple (λ w, durable_kept w0 w ∧ visible c w = db) (failing StorageSqlite (execute c s) ≫= k) Q R.
Proof.
  intros HR Hk. eapply triple_bind; [|exact Hk]. intros w [Hw <-]. unfold failing, map_err_st.
  destruct (execute_keeps c s w) as [Hp Hd]. destruct (execute c s w) as [[n|e|] w'] eqn:He; simpl in *; [split| |done].
  - by etrans.
  - by eapply execute_runs.
  - apply HR. by etrans.
Qed.

(** The transaction of a mutation, from the state in which it began. *)
Lemma execute_mutation_step {B} c p (k : Z → stm W StorageError B) w0 db Q (R : StorageError → W → Prop) :
  (∀ w e, durable_kept w0 w → benign e → R e w) →
  (∀ n s, statement_of p = Some s →
    triple (λ w, durable_kept w0 w ∧ run_statement s db = Some (visible c w, n)) (k n) Q R) →
  triple (λ w, durable_kept w0 w ∧ visible c w = db) (execute_mutation c p ≫= k) Q R.
Proof.
  intros HR Hk.
  assert (∀ s, statement_of p = Some s → triple (λ w, durable_kept w0 w ∧ visible c w = db)
    (failing StorageSqlite (execute c s) ≫= k) Q R) as Hs.
  { intros s Hs. apply execute_step; [|by eauto]. intros w Hw. by apply HR, benign_intro. }
  assert (∀ w, durable_kept w0 w ∧ visible c w = db → R StorageSchema w) as HR'.
  { intros w [Hw _]. by apply HR, benign_intro. }
  unfold execute_mutation, statement_of in *. intros w Hw. specialize (HR' w Hw).
  destruct (pm_kind p), (pm_envelope p) as [env|]; try exact HR';
    exact (Hs _ eq_refl w Hw).
Qed.

Lemma keep_checking {A B} (m : stm W StorageError A) (k : A → stm W StorageError B) w0 (V : W → Prop)
    Q (R : StorageError → W → Prop) :
  checking m → (∀ w w', V w → unchanged w w' → V w') → (∀ w e, durable_kept w0 w → benign e → R e w) →
  (∀ a, triple (λ w, durable_kept w0 w ∧ V w) (k a) Q R) →
  triple (λ w, durable_kept w0 w ∧ V w) (m ≫= k) Q R.
Proof.
  intros Hm HV HR Hk. eapply triple_bind; [|exact Hk]. intros w [Hw Hv]. specialize (Hm w w eq_refl).
  destruct (m w) as [[a|e|] w']; [|destruct Hm as [Hm He]|done].
  - split; [|by eapply HV]. destruct Hm as [_ Hm]. by etrans.
  - apply HR; [|done]. destruct Hm as [_ Hm]. by etrans.
Qed.

(** After the commit: the checks and the reading back of what was written. *)
Lemma check_committed_spec path c guards hdr rows p rows' w1 :
  visible c w1 = durable path w1 → apply_to_expected_records rows p = Ok rows' →
  data_of (durable path w1)
    = {| vd_header := hdr; vd_manifest := pm_manifest_envelope p; vd_records := rows' |} →
  triple (unchanged w1) (check_committed path guards c hdr rows p)
    (λ _ w, durable_kept w1 w) (λ e w, durable_kept w1 w ∧ benign e).
Proof.
  intros Hv Hr Hd. unfold check_committed. set (R := λ e w, durable_kept w1 w ∧ benign e).
  assert (∀ w e, unchanged w1 w → benign e → R e w) as HR by (by intros w e [_ Hk] He).
  do 2 (apply checking_step; [eauto with storage|done|intros _]).
  eapply triple_bind.
  { eapply triple_weaken; [apply (read_vault_data_spec c w1)|done|intros a s Hs; exact Hs|intros e s []; by apply HR]. }
  intros d. cbn beta. rewrite Hr. apply triple_pre. intros w2 [Hw2 ->]. rewrite Hv, Hd.
  unfold of_result, mbind, stm_bind. cbn [vd_header vd_manifest vd_records].
  rewrite !bool_decide_false by auto. intros s ->. exact (proj2 Hw2).
Qed.

Lemma open_for_mutation_spec path w0 :
  triple (λ w, w = w0) (open_for_mutation path)
    (λ opened w, durable_kept w0 w ∧ connection_path opened.2 = path)
    (λ e w, durable_kept w0 w ∧ benign e).
Proof.
  set (R := λ e w, durable_kept w0 w ∧ benign e).
  assert (∀ w, durable_kept w0 w → R StorageSqlite w) as HS by (intros w Hw; split; [done|by apply benign_intro]).
  unfold open_for_mutation. eapply (triple_from (λ w, durable_kept w0 w ∧ True)); [by intros w ->|].
  apply keep_checking; [eauto with storage|done|done|intros guards].
  do 3 (apply keep_checking; [eauto with storage|done|done|intros _]).
  eapply triple_from; [intros w [Hw _]; exact Hw|].
  apply (keeps_step _ _ _ _ (λ c _, connection_path c = path)); [apply open_read_write_keeps| |done|intros c].
  { intros w c w' Ho _. by eapply open_read_write_path. }
  do 2 (apply keep_checking; [eauto with storage|done|done|intros _]).
  do 6 (apply keep_checking; [apply checking_failing; [by apply benign_intro|eauto with storage]|done|done|intros _]).
  apply keep_checking; [apply checking_failing; [by apply benign_intro|eauto with storage]|done|done|intros mode].
  apply keep_checking; [by apply checking_guard, benign_intro|done|done|intros _].
  do 4 (apply keep_checking; [eauto with storage|done|done|intros _]).
  by apply triple_ret.
Qed.

Lemma commit_spec c path w0 db :
  connection_path c = path →
  triple (λ w, durable_kept w0 w ∧ visible c w = db) (failing StorageSqlite (commit c))
    (λ _ w, durable path w = db ∧ visible c w = db ∧ moves w0 w ∧ ∀ q, q ≠ path → durable q w = durable q w0)
    (λ _ w, durable_kept w0 w).
Proof.
  intros Hpath w [[Hm Hw] Hv]. unfold failing, map_err_st. pose proof (commit_no_panic c w). pose proof (commit_moves c w) as Hm'.
  destruct (commit c w) as [[[]|e|] w'] eqn:Hcommit; simpl in *; [| |done].
  - pose proof (λ q, commit_publishes c w w' q Hcommit) as Hq. rewrite Hpath, Hv in Hq.
    destruct (Hq path) as [Hd Hvis]. rewrite decide_True in Hd by done. split_and!; [done|done|by etrans|].
    intros q Hne. destruct (Hq q) as [-> _]. rewrite decide_False by done. by rewrite Hw.
  - split; [by etrans|]. intros q. by rewrite (commit_fails _ _ _ _ Hcommit).
Qed.

(** The transaction either commits everything, after the caller's last check has
    passed, or leaves the file alone. *)
Lemma run_transaction_spec path guards c hdr man rows p before w0 :
  admissible before w0 → connection_path c = path →
  triple (durable_kept w0) (run_transaction path guards c hdr man rows p before)
    (λ _ w, committed path hdr man rows p w0 w ∧ passed before w0 w ∧ visible c w = durable path w)
    (λ _ w, files_kept w0 w ∧ may_have_run before w0 w).
Proof.
  intros Hb Hpath. set (R := λ (_ : StorageError) w, files_kept w0 w ∧ may_have_run before w0 w). unfold run_transaction.
  assert (∀ w e, durable_kept w0 w → R e w) as HR by (intros w e []; split; [done|by left]).
  apply (keeps_step _ _ _ _ (λ _ w, visible c w = durable path w)); [apply begin_immediate_keeps| |auto|intros _].
  { intros w [] w' Hbegin _. rewrite (begin_immediate_sees _ _ _ Hbegin). by rewrite Hpath. }
  apply triple_pre. intros w2 [Hw2 Hv2]. rewrite (proj2 Hw2) in Hv2.
  eapply triple_bind.
  { eapply triple_weaken; [apply (read_vault_data_spec c w2)|by intros w ->; apply unchanged_refl|intros a s Hs; exact Hs|].
    intros e w [[_ Hk] He]. apply HR. by etrans. }
  intros current. cbn beta. apply triple_pre. intros w3 [[Hv3 Hk3] ->]. rewrite Hv2.
  eapply (triple_from (λ w, durable_kept w0 w ∧ visible c w = durable path w0)).
  { intros w ->. split; [by etrans|by rewrite Hv3]. }
  set (db := durable path w0) in *. assert (Database_wf db) as Hwf by apply durable_wf.
  eapply (triple_bind _ _ _ (λ _ w, (durable_kept w0 w ∧ visible c w = db)
    ∧ data_of db = {| vd_header := hdr; vd_manifest := man; vd_records := rows |})).
  { apply triple_guard.
    - intros w Hg Hw. simp_guards. split; [done|]. destruct (data_of db); simpl in *; congruence.
    - intros w _ [Hw _]. by apply HR. }
  intros _. apply triple_pre. intros w4 [Hw4 Hdata]. eapply (triple_from (λ w, durable_kept w0 w ∧ visible c w = db)); [by intros w ->|].
  apply execute_mutation_step; [auto|]. intros n s Hs.
  eapply (triple_bind _ _ _ (λ _ w, durable_kept w0 w ∧ run_statement s db = Some (visible c w, 1))).
  { apply triple_guard; [intros w Hg [Hw Hr]; simp_guards; by subst|]. intros w _ [Hw _]. by apply HR. }
  intros _. apply triple_pre. intros w5 [Hw5 Hrun].
  destruct (statement_expected p s db _ Hwf Hs Hrun) as (Happly & Hheader & _).
  eapply (triple_from (λ w, durable_kept w0 w ∧ visible c w = visible c w5)); [by intros w ->|].
  set (db5 := visible c w5) in *.
  apply execute_step; [auto|]. intros k. cbn [run_statement].
  set (db6 := {| db_header := db_header db5; db_manifest := pm_manifest_envelope p; db_records := db_records db5 |}).
  assert (rows_of db = rows ∧ db_header db = hdr) as [<- <-] by (by injection Hdata).
  eapply (triple_from (λ w, durable_kept w0 w ∧ visible c w = db6)); [intros w [Hw [= ? ?]]; by split|].
  apply keep_checking; [by apply checking_guard, benign_intro|intros w w' <- []; done|auto|intros _].
  apply triple_pre. intros w6 [Hw6 Hv6]. pose proof (Hb w6 (proj1 Hw6)) as [Hnp [Hvis Hfiles]].
  eapply (triple_bind _ _ _ (λ _ w, (durable_kept (before w6).2 w ∧ visible c w = db6) ∧ (before w6).1 = Ok tt)).
  { intros w ->. destruct (before w6) as [[[]|e|] w7] eqn:Hbefore; simpl in *; [| |done].
    - split; [|done]. split; [done|]. by rewrite Hvis.
    - split; [etrans; [exact (proj2 Hw6)|done]|]. right. exists (Err e), w6, w7. split_and!; [apply Hw6|done|done]. }
  intros _. apply triple_pre. intros w7 [Hw7 Hok]. destruct (before w6) as [r w8] eqn:Hbefore. simpl in Hok, Hfiles, Hw7. subst r.
  assert (∀ w, moves w8 w → passed before w0 w) as Hpassed.
  { intros w Hw. exists w6, w8. split_and!; [apply Hw6|done|done]. }
  assert (files_kept w0 w8) as Hfiles8 by (etrans; [exact (proj2 Hw6)|done]).
  assert (∀ w e, durable_kept w8 w → R e w) as HR8.
  { intros w e [Hm Hk]. split; [by etrans|]. by apply passed_may_have_run, Hpassed. }
  eapply (triple_from (λ w, durable_kept w8 w ∧ visible c w = db6)); [by intros w ->|].
  do 2 (apply keep_checking; [eauto with storage|intros w w' <- []; done|auto|intros _]).
  eapply triple_weaken; [apply (commit_spec c path w8 db6 Hpath)|done| |auto]. intros _ w (Hd & Hv & Hm & Hothers).
  split_and!; [|by apply Hpassed|by rewrite Hd, Hv]. split_and!; [done| |].
  - exists (rows_of db5). split; [done|]. rewrite Hd. unfold data_of, db6. simpl. by rewrite Hheader.
  - intros q Hq. rewrite Hothers by done. apply Hfiles8.
Qed.

Lemma apply_record_mutation_spec path hdr man rows p before w0 :
  admissible before w0 →
  triple (λ w, w = w0) (apply_record_mutation path hdr man rows p before)
    (λ _ w, committed path hdr man rows p w0 w ∧ passed before w0 w)
    (λ e w, files_kept w0 w ∧ may_have_run before w0 w
      ∨ committed path hdr man rows p w0 w ∧ passed before w0 w ∧ benign e).
Proof.
  intros Hb. unfold apply_record_mutation. eapply triple_bind.
  { eapply triple_weaken; [apply (open_for_mutation_spec path w0)|by intros w ->|intros a s Hs; exact Hs|].
    intros e w [[Hm Hw] _]. left. split; [done|by left]. }
  intros [guards c]. cbn beta iota. apply triple_pre. intros w1 [Hw1 Hpath].
  eapply (triple_from (durable_kept w0)); [by intros w ->|]. eapply triple_bind.
  { eapply triple_weaken; [by apply (run_transaction_spec path guards c hdr man rows p before w0)|done|intros a s Hs; exact Hs|by left]. }
  intros []. apply triple_pre. intros w2 (Hcom & Hpassed & Hv2). eapply triple_from; [by intros w ->; apply unchanged_refl|].
  pose proof Hcom as (Hd & (rows' & Hrows' & Hd2) & Hothers).
  assert (∀ w, durable_kept w2 w → committed path hdr man rows p w0 w ∧ passed before w0 w) as Hkeep.
  { intros w [Hm Hw]. split; [|by eapply ran_post].
    split_and!; [done|exists rows'; by rewrite Hw|]. intros q Hne. rewrite Hw. by apply Hothers. }
  eapply triple_weaken; [by apply (check_committed_spec path c guards _ _ _ rows' w2)|done|auto|]. intros e w [Hw He].
  right. destruct (Hkeep w Hw). auto.
Qed.

(** C21: committing a mutation is atomic: if it succeeds, the file held exactly the
    header, manifest and rows the caller had authenticated, the caller's last check
    then passed, and the file now holds the same header, the new manifest and the rows
    with the mutation applied, other files being unchanged; if it fails, either no file
    is changed, or it was fully committed and only a check made afterwards failed.  An
    abort by the caller's last check and a conflict always leave the file unchanged. *)
Theorem mutation_atomic path hdr man rows p before w0 :
  admissible before w0 →
  triple (λ w, w = w0) (apply_record_mutation path hdr man rows p before)
    (λ _ w, committed path hdr man rows p w0 w ∧ passed before w0 w)
    (λ e w, files_kept w0 w ∧ may_have_run before w0 w
      ∨ committed path hdr man rows p w0 w ∧ passed before w0 w ∧ benign e).
Proof. apply apply_record_mutation_spec. Qed.
End atomicity.

(** ** An instance: a disk in memory

    Files are a map; a connection is its path, and there is one view, that of the
    last connection opened.  Every guard succeeds. *)

Lemma run_statement_wf s db db' n : Database_wf db → run_statement s db = Some (db', n) → Database_wf db'.
Proof.
  unfold Database_wf. intros Hs Hr. destruct s as [i e|i e|i|e]; simpl in Hr.
  - destruct (existsb _ _) eqn:He; [done|]. injection Hr as <- <-. simpl. apply sort_by_sorted. rewrite fmap_app.
    apply NoDup_app. split_and!; [by apply sorted_NoDup| |apply NoDup_singleton].
    intros j Hj ->%list_elem_of_singleton. apply list_elem_of_fmap in Hj as (row & Hi & Hin).
    apply not_true_iff_false in He. apply He, existsb_exists. exists row.
    split; [by apply list_elem_of_In|by apply bool_decide_true].
  - injection Hr as <- <-. simpl. induction Hs as [|a l Hs IH Ha]; [constructor|]. cbn. constructor; [done|].
    assert (∀ row, (if key_is i row then (i, e) else row).1 = row.1) as Hk.
    { intros row. unfold key_is. by destruct (bool_decide_reflect (row.1 = i)). }
    apply Forall_forall. intros b (b' & -> & Hb)%list_elem_of_fmap. unfold key_lt. rewrite !Hk.
    rewrite Forall_forall in Ha. by apply Ha.
  - injection Hr as <- <-. simpl. induction Hs as [|a l Hs IH Ha]; [constructor|]. rewrite filter_cons.
    destruct (decide _); [|done]. constructor; [done|]. rewrite Forall_forall in Ha.
    apply Forall_forall. intros b [_ Hb]%list_elem_of_filter. by apply Ha.
  - by injection Hr as <- <-.
Qed.

Module MemoryDisk.
Record Disk (X : Type) :=
  { dk_files : gmap bytes Database; dk_view : Database; dk_calls : Z; dk_memory : X }.
Arguments Build_Disk {_} _ _ _ _.
Arguments dk_files {_} _.
Arguments dk_view {_} _.
Arguments dk_calls {_} _.
Arguments dk_memory {_} _.

(** A file with unsorted rows cannot be written by SQLite, and reads as empty. *)
Definition sound (db : Database) : Database :=
  if adjacent_any (λ a b, bytes_geb a.1 b.1) (db_records db)
  then {| db_header := []; db_manifest := []; db_records := [] |} else db.
Section disk.
Context {X : Type}.
Definition file (path : bytes) (w : Disk X) : Database :=
  sound (default {| db_header := []; db_manifest := []; db_records := [] |} (dk_files w !! path)).
Definition set_view (db : Database) (w : Disk X) : Disk X :=
  {| dk_files := dk_files w; dk_view := db; dk_calls := dk_calls w; dk_memory := dk_memory w |}.

#[export] Instance disk_os : Os (Disk X) := {|
  File := unit;
  AncestorGuards := unit;
  acquire_ancestor_guards _ := mret tt;
  open_existing_guard _ _ _ _ := mret tt;
  create_write_sidecar_guard _ _ := mret tt;
  metadata _ := mret {| md_len := 4096; md_is_file := true; md_is_reparse_point := false |};
  file_identity _ := mret 1;
  read_prefix _ n := mret (take n (SQLITE_MAGIC ++ [x10; x00; SQLITE_WAL_VERSION; SQLITE_WAL_VERSION]));
|}.

#[export] Instance disk_sqlite : Sqlite (Disk X) := {|
  Connection := bytes;
  open_guarded_read_connection path _ := λ w, (Ok path, set_view (file path w) w);
  open_read_write path := mret path;
  set_config _ _ := mret tt;
  journal_mode _ := mret (str "wal");
  integrity_check _ := mret (str "ok");
  schema_objects _ := mret [(str "table", str "encrypted_records"); (str "table", str "vault_header");
                            (str "table", str "vault_manifest")];
  table_strict _ _ := mret 1;
  table_sql _ name := mret (if decide (name = str "encrypted_records") then ENCRYPTED_RECORDS_SQL
    else if decide (name = str "vault_header") then VAULT_HEADER_SQL else VAULT_MANIFEST_SQL);
  begin_immediate path := λ w, (Ok tt, set_view (file path w) w);
  select_header _ := λ w, (Ok (db_header (sound (dk_view w))), w);
  select_manifest _ := λ w, (Ok (db_manifest (sound (dk_view w))), w);
  select_counts _ := λ w, (Ok (1, 1, len (db_records (sound (dk_view w)))), w);
  select_records _ := λ w, (Ok (Some <$> db_records (sound (dk_view w))), w);
  execute _ s := λ w,
    match run_statement s (sound (dk_view w)) with
    | Some (db, n) => (Ok n, set_view db w)
    | None => (Err tt, w)
    end;
  commit path := λ w,
    (Ok tt, {| dk_files := <[path := sound (dk_view w)]> (dk_files w); dk_view := dk_view w;
               dk_calls := dk_calls w; dk_memory := dk_memory w |});
|}.

#[export] Instance disk_model : StorageModel (Disk X) := {|
  durable := file;
  visible _ w := sound (dk_view w);
  connection_path c := c;
  moves w w' := dk_memory w' = dk_memory w;
  moves_preorder := Build_PreOrder _ (λ _, eq_refl) (λ _ _ _ H12 H23, eq_trans H23 H12);
|}.

Lemma sound_wf db : Database_wf (sound db).
Proof.
  unfold sound, Database_wf. destruct (adjacent_any _ _) eqn:Ha; [constructor|].
  eapply adjacent_any_strongly; [|apply _|done]. intros; apply bytes_geb_false.
Qed.
Lemma sound_id db : Database_wf db → sound db = db.
Proof.
  intros Hs. unfold sound.
  by rewrite (proj2 (adjacent_any_strongly _ (key_lt fst) (λ a b, bytes_geb_false _ _) (db_records db)) Hs).
Qed.

#[export] Instance disk_laws : StorageLaws (Disk X).
Proof.
  split; try (intros; split; [done|by split]); try (intros; by split).
  - intros p g w c w' [= <- <-]. cbn. by rewrite sound_id by apply sound_wf.
  - by intros p w c w' [= <- <-].
  - intros c w w' [= <-]. cbn. by rewrite sound_id by apply sound_wf.
  - by intros c w h w' [= <- <-].
  - by intros c w h w' [= <- <-].
  - intros c w rows w' [= Hr <-]. cbn. apply (inj (fmap Some)) in Hr. done.
  - intros c s w. cbn. by destruct (run_statement s (sound (dk_view w))) as [[db n]|].
  - intros c s w n w' Hr. cbn in *. destruct (run_statement s (sound (dk_view w))) as [[db k]|] eqn:Hs; [|done].
    injection Hr as <- <-. cbn. by rewrite sound_id by (eapply run_statement_wf; [apply sound_wf|done]).
  - done.
  - intros c w w' p [= <-]. cbn. split; [|done]. unfold file. cbn.
    destruct (decide (p = c)) as [->|Hne]; [rewrite lookup_insert_eq; cbn; by rewrite sound_id by apply sound_wf|].
    by rewrite lookup_insert_ne by done.
  - done.
  - intros p w. apply sound_wf.
Qed.
End disk.
End MemoryDisk.

Module Examples.
Import MemoryDisk.

Definition path : bytes := str "vault".
Definition row : bytes * bytes := (zeros 16, str "sealed").
Definition disk : Disk unit :=
  {| dk_files := {[ path := {| db_header := str "header"; db_manifest := str "manifest"; db_records := [row] |} ]};
     dk_view := {| db_header := []; db_manifest := []; db_records := [] |}; dk_calls := 0; dk_memory := tt |}.
Definition deletion : PreparedRecordMutation :=
  {| pm_kind := MutationDelete; pm_id := zeros 16; pm_envelope := None; pm_manifest_envelope := str "next";
     pm_expected_generation := 0; pm_next_manifest := Manifest_empty 1 1 |}.
Definition run : stm (Disk unit) StorageError unit :=
  apply_record_mutation path (str "header") (str "manifest") [record_of row] deletion (mret tt).

Lemma mutation_atomic_witness :
  match run disk with
  | (Ok _, w) => committed path (str "header") (str "manifest") [record_of row] deletion disk w
  | _ => False
  end.
Proof.
  assert (is_ok (run disk).1 = true) as Hok by (vm_compute; reflexivity).
  pose proof (mutation_atomic path (str "header") (str "manifest") [record_of row] deletion (mret tt) disk
    (inert_admissible (mret tt) disk (inert_ret tt)) disk eq_refl) as Hrun.
  unfold run in *. destruct (apply_record_mutation _ _ _ _ _ _ disk) as [[u|e|] w]; [exact (proj1 Hrun)|discriminate Hok..].
Defined.
End Examples.
