(* ===== verification/Agent.v ===== *)
(** * The agent that owns a vault ([lifecycle.rs] and [records.rs] of
    [crates/vault-agent/src])

    A [VaultAgent] is locked or holds an unlocked session together with the header
    and manifest bytes it was authenticated against.  An operation takes a permit,
    reads the file, has the session authenticate it, and checks the permit again; a
    mutation is committed to the file before the session advances. *)

From S2P Require Import Prelude RustStd Cbor Wire VaultFormat VaultRecords VaultKeys VaultStore VaultCore VaultRefine Storage.

(** ** State *)

Record OperationPermit := { op_session_id : Z; op_authorization_epoch : Z }.
#[export] Instance OperationPermit_eq_dec : EqDecision OperationPermit.
Proof. solve_decision. Defined.

Record VaultAgent := {
  va_path : option bytes;
  va_session : option UnlockedVault;
  va_authenticated_header : option bytes;
  va_authenticated_manifest : option bytes;
  va_session_id : option Z;
  va_authorization_epoch : Z;
}.

(** The agent, the counter [NEXT_SESSION_ID] of its process, and the world. *)
Record Process (W : Type) := { agent : VaultAgent; next_session : Z; world : W }.
Arguments agent {_} _.
Arguments next_session {_} _.
Arguments world {_} _.
Arguments Build_Process {_} _ _ _.

Inductive AgentUnlockError := AgentUnlockFailed | AgentUnlockCancelled.
#[export] Instance AgentUnlockError_eq_dec : EqDecision AgentUnlockError.
Proof. solve_decision. Defined.

Inductive AccountError :=
  | AccountLocked | AccountNotFound | AccountConflict | AccountAborted | AccountFailed.
#[export] Instance AccountError_eq_dec : EqDecision AccountError.
Proof. solve_decision. Defined.

(** The clock, in milliseconds since 1970 ([None] before), and paths. *)
Class Host (W : Type) := {
  system_time_ms : W → option Z * W;
  is_absolute : bytes → bool;
  current_dir : stm W unit bytes;
  path_join : bytes → bytes → bytes;
}.

Definition unix_time_ms `{Host W} : stm W StorageError Z := λ w,
  let '(duration, w) := system_time_ms w in
  (duration ← ok_or duration StorageClock; ok_or (try_from 64 duration) StorageClock, w).

Definition bind_vault_path `{Host W} (path : bytes) : stm W unit bytes :=
  if is_absolute path then mret path
  else directory ← current_dir; mret (path_join directory path).

(** ** Lifecycle *)

(** [advance_authorization_epoch]: the flag says whether the epoch advanced. *)
Definition advance_authorization_epoch (a : VaultAgent) : VaultAgent * bool :=
  match checked_add 64 (va_authorization_epoch a) 1 with
  | Some next =>
      ({| va_path := va_path a; va_session := va_session a;
          va_authenticated_header := va_authenticated_header a;
          va_authenticated_manifest := va_authenticated_manifest a; va_session_id := va_session_id a;
          va_authorization_epoch := next |}, true)
  | None => (a, false)
  end.

Definition lock_agent (a : VaultAgent) : VaultAgent :=
  (advance_authorization_epoch
     {| va_path := va_path a; va_session := None; va_authenticated_header := None;
        va_authenticated_manifest := None; va_session_id := None;
        va_authorization_epoch := va_authorization_epoch a |}).1.

Definition is_unlocked (a : VaultAgent) : bool := match va_session a with Some _ => true | None => false end.

Definition authenticated_vault_id (a : VaultAgent) : option bytes := vault_id <$> va_session a.
Definition authenticated_vault_binding (a : VaultAgent) : option (bytes * Z) :=
  (λ session, (vault_id session, key_epoch session)) <$> va_session a.

Definition begin_operation (a : VaultAgent) : option OperationPermit :=
  _ ← va_session a;
  session_id ← va_session_id a;
  Some {| op_session_id := session_id; op_authorization_epoch := va_authorization_epoch a |}.

Definition operation_is_authorized (a : VaultAgent) (permit : OperationPermit) : bool :=
  is_unlocked a && bool_decide (va_session_id a = Some (op_session_id permit))
  && (op_authorization_epoch permit =? va_authorization_epoch a).

Section agent.
Context `{Minicbor, Crypto, UrlCrate}.
Context {W : Type} `{Env W, Host W, Sqlite W}.

Definition ag (E A : Type) : Type := stm (Process W) E A.

Definition on_agent (f : VaultAgent → VaultAgent) (p : Process W) : Process W :=
  {| agent := f (agent p); next_session := next_session p; world := world p |}.

(** A call that only touches the world. *)
Definition in_world {E A} (m : stm W E A) : ag E A := λ p,
  let '(r, w) := m (world p) in
  (r, {| agent := agent p; next_session := next_session p; world := w |}).

(** A call whose result is matched on. *)
Definition outcome {E F A} (m : stm W E A) : ag F (result E A) := λ p,
  let '(r, w) := m (world p) in
  (Ok r, {| agent := agent p; next_session := next_session p; world := w |}).

Definition the_agent {E} : ag E VaultAgent := λ p, (Ok (agent p), p).

Definition lock {E} : ag E unit := modify (on_agent lock_agent).

(** [self.lock(); return Err(e)]. *)
Definition lock_and_fail {E A} (e : E) : ag E A := lock;; throw e.

(** [NEXT_SESSION_ID.fetch_update(.., |value| value.checked_add(1)).ok()]. *)
Definition next_session_id {E} : ag E (option Z) := λ p,
  match checked_add 64 (next_session p) 1 with
  | Some next => (Ok (Some (next_session p)), {| agent := agent p; next_session := next; world := world p |})
  | None => (Ok None, p)
  end.

Definition open_locked (path : bytes) : stm W unit VaultAgent := λ w,
  let '(bound, w) := bind_vault_path path w in
  (Ok {| va_path := match bound with Ok path => Some path | _ => None end;
         va_session := None; va_authenticated_header := None; va_authenticated_manifest := None;
         va_session_id := None; va_authorization_epoch := 0 |}, w).

Definition agent_create_windows_hello_protector
    (installation_key credential_id prf_salt prf_output : bytes) : ag AgentUnlockError bytes :=
  a ← the_agent;
  session ← of_result (ok_or (va_session a) AgentUnlockFailed);
  in_world (map_err_st (λ _, AgentUnlockFailed)
    (create_windows_hello_protector session installation_key credential_id prf_salt prf_output)).

Definition agent_cancelled : ag AgentUnlockError unit :=
  in_world (check_cancelled poll_cancelled AgentUnlockCancelled).

Definition advance_epoch_or_fail {E} (e : E) : ag E unit := λ p,
  let '(a, advanced) := advance_authorization_epoch (agent p) in
  (if advanced then Ok tt else Err e, on_agent (λ _, a) p).

(** The session of a verified snapshot becomes the agent's. *)
Definition publish_session (session : UnlockedVault) (data : VaultData) : ag AgentUnlockError unit :=
  fresh ← next_session_id;
  session_id ← of_result (ok_or fresh AgentUnlockFailed);
  advance_epoch_or_fail AgentUnlockFailed;;
  modify (on_agent (λ a,
    {| va_path := va_path a; va_session := Some session;
       va_authenticated_header := Some (vd_header data);
       va_authenticated_manifest := Some (vd_manifest data); va_session_id := Some session_id;
       va_authorization_epoch := va_authorization_epoch a |})).

(** [if cancellation.is_cancelled() { self.lock(); return Err(Cancelled) }]. *)
Definition lock_if_cancelled : ag AgentUnlockError unit := λ p,
  let '(cancelled, w) := poll_cancelled (world p) in
  let p := {| agent := agent p; next_session := next_session p; world := w |} in
  if cancelled then lock_and_fail AgentUnlockCancelled p else (Ok tt, p).

Definition unlock_with_core (before_publish : W → W)
    (unlock : bytes → bytes → list EncryptedRecord → stm W UnlockError UnlockedVault) :
    ag AgentUnlockError unit :=
  lock;;
  agent_cancelled;;
  a ← the_agent;
  path ← of_result (ok_or (va_path a) AgentUnlockFailed);
  snapshot ← in_world (map_err_st (λ _, AgentUnlockFailed) (read_guarded_vault path));
  let '(data, input_guards) := snapshot in
  session ← in_world (map_err_st
    (λ e, match e with UnlockCancelled => AgentUnlockCancelled | UnlockFailed => AgentUnlockFailed end)
    (unlock (vd_header data) (vd_manifest data) (vd_records data)));
  modify (λ p, {| agent := agent p; next_session := next_session p; world := before_publish (world p) |});;
  agent_cancelled;;
  current ← in_world (map_err_st (λ _, AgentUnlockFailed)
    (read_vault_from_guards path input_guards id id));
  of_result (fail_if (bool_decide (vd_header current ≠ vd_header data)
    || bool_decide (vd_manifest current ≠ vd_manifest data)
    || bool_decide (vd_records current ≠ vd_records data)) AgentUnlockFailed);;
  publish_session session data;;
  lock_if_cancelled.

Definition agent_unlock_with_before_publish (password : bytes) (before_publish : W → W) :
    ag AgentUnlockError unit :=
  unlock_with_core before_publish (unlock_vault password).

Definition agent_unlock (password : bytes) : ag AgentUnlockError unit :=
  agent_unlock_with_before_publish password id.

Definition unlock_with_windows_hello_before_publish
    (prf_output installation_key credential_id protector : bytes) (before_publish : W → W) :
    ag AgentUnlockError unit :=
  unlock_with_core before_publish
    (unlock_vault_with_windows_hello prf_output installation_key credential_id protector).

Definition unlock_with_windows_hello (prf_output installation_key credential_id protector : bytes) :
    ag AgentUnlockError unit :=
  unlock_with_windows_hello_before_publish prf_output installation_key credential_id protector id.

(** ** Operations on records *)

Definition require_operation : ag AccountError OperationPermit :=
  a ← the_agent;
  of_result (ok_or (begin_operation a) AccountLocked).

Definition load_authenticated_snapshot : ag AccountError VaultData :=
  a ← the_agent;
  path ← of_result (ok_or (va_path a) AccountFailed);
  read ← outcome (read_guarded_vault path);
  match read with
  | Ok (data, _) =>
      if bool_decide (va_authenticated_header a = Some (vd_header data))
         && bool_decide (va_authenticated_manifest a = Some (vd_manifest data))
      then mret data
      else lock_and_fail AccountFailed
  | Err _ => lock_and_fail AccountFailed
  | Panic => of_result Panic
  end.

(** [map_read], [map_preparation] and [map_preparation_pair] have one body. *)
Definition map_read {A} (r : result RecordOperationError A) : ag AccountError A :=
  match r with
  | Ok value => mret value
  | Err RecordNotFound => throw AccountNotFound
  | Err RecordConflict => throw AccountConflict
  | Err RecordCancelled => throw AccountAborted
  | Err RecordFailed => lock_and_fail AccountFailed
  | Panic => of_result Panic
  end.

Definition require_authorized (permit : OperationPermit) : ag AccountError unit :=
  a ← the_agent;
  of_result (fail_if (negb (operation_is_authorized a permit)) AccountLocked).

Definition the_session : ag AccountError UnlockedVault :=
  a ← the_agent;
  of_result (ok_or (va_session a) AccountLocked).

(** The time of a mutation; an unusable clock locks the agent. *)
Definition mutation_time : ag AccountError Z :=
  time ← outcome unix_time_ms;
  match time with
  | Ok committed_at_ms => mret committed_at_ms
  | Err _ => lock_and_fail AccountFailed
  | Panic => of_result Panic
  end.

(** [self.session.as_mut().ok_or(Locked)?.commit_record_mutation(prepared)
    .map_err(|_| { self.lock(); Failed })?]. *)
Definition commit_session (prepared : PreparedRecordMutation) : ag AccountError bytes :=
  session ← the_session;
  let '(committed, session) := commit_record_mutation prepared session in
  modify (on_agent (λ a,
    {| va_path := va_path a; va_session := Some session;
       va_authenticated_header := va_authenticated_header a;
       va_authenticated_manifest := va_authenticated_manifest a; va_session_id := va_session_id a;
       va_authorization_epoch := va_authorization_epoch a |}));;
  match committed with
  | Ok id => mret id
  | Err _ => lock_and_fail AccountFailed
  | Panic => of_result Panic
  end.

Definition persist_mutation (permit : OperationPermit) (snapshot : VaultData)
    (prepared : PreparedRecordMutation) (before_commit : stm W StorageError unit) :
    ag AccountError bytes :=
  require_authorized permit;;
  a ← the_agent;
  path ← of_result (ok_or (va_path a) AccountFailed);
  let next_manifest := pm_manifest_envelope prepared in
  applied ← outcome (apply_record_mutation path (vd_header snapshot) (vd_manifest snapshot)
    (vd_records snapshot) prepared before_commit);
  match applied with
  | Ok _ => mret tt
  | Err StorageAborted => throw AccountAborted
  | Err _ => lock_and_fail AccountFailed
  | Panic => of_result Panic
  end;;
  a ← the_agent;
  (if operation_is_authorized a permit then mret tt else lock_and_fail AccountLocked);;
  id ← commit_session prepared;
  modify (on_agent (λ a,
    {| va_path := va_path a; va_session := va_session a;
       va_authenticated_header := va_authenticated_header a;
       va_authenticated_manifest := Some next_manifest; va_session_id := va_session_id a;
       va_authorization_epoch := va_authorization_epoch a |}));;
  mret id.

(** The common body of the reading operations: [read] is the session's method and
    [before_return] what a test interposes. *)
Definition read_operation {A}
    (read : UnlockedVault → bytes → bytes → list EncryptedRecord → stm W RecordOperationError A)
    (before_return : Process W → Process W) : ag AccountError A :=
  permit ← require_operation;
  snapshot ← load_authenticated_snapshot;
  session ← the_session;
  result ← outcome (read session (vd_header snapshot) (vd_manifest snapshot) (vd_records snapshot));
  value ← map_read result;
  modify before_return;;
  require_authorized permit;;
  mret value.

Definition agent_list_website_accounts_with_before_return (before_return : Process W → Process W) :=
  read_operation list_website_accounts before_return.
Definition agent_list_website_accounts := agent_list_website_accounts_with_before_return id.

Definition agent_list_website_account_page_with_check (offset limit : Z) (should_cancel : W → bool * W) :=
  read_operation (λ session header manifest records,
    list_website_account_page_with_check session header manifest records offset limit should_cancel) id.
Definition agent_list_website_account_page (offset limit : Z) :=
  agent_list_website_account_page_with_check offset limit never_cancelled.

Definition agent_get_website_account_with_check (id : bytes) (should_cancel : W → bool * W) :=
  read_operation (λ session header manifest records,
    get_website_account_with_check session header manifest records id should_cancel) Datatypes.id.
Definition agent_get_website_account_with_before_return (id : bytes)
    (before_return : Process W → Process W) :=
  read_operation (λ session header manifest records,
    get_website_account_with_check session header manifest records id never_cancelled) before_return.
Definition agent_get_website_account (id : bytes) :=
  agent_get_website_account_with_before_return id Datatypes.id.

Definition agent_unique_browser_account_with_check (origin : bytes) (should_cancel : W → bool * W) :=
  read_operation (λ session header manifest records,
    unique_browser_account_with_check session header manifest records origin should_cancel) id.

Definition agent_list_passkeys_with_check (should_cancel : W → bool * W) :=
  read_operation (λ session header manifest records,
    list_passkeys_with_check session header manifest records should_cancel) id.
Definition agent_list_passkeys := agent_list_passkeys_with_check never_cancelled.

Definition agent_list_passkeys_for_assertion_with_check (rp_id : bytes) (allowed : list bytes)
    (allow_list_present : bool) (should_cancel : W → bool * W) :=
  read_operation (λ session header manifest records,
    list_passkeys_for_assertion_with_check session header manifest records rp_id
      (if allow_list_present then Some allowed else None) should_cancel) id.
Definition agent_list_passkeys_for_assertion (rp_id : bytes) (allowed : list bytes) :=
  agent_list_passkeys_for_assertion_with_check rp_id allowed (negb (is_empty allowed)) never_cancelled.

Definition pending_passkey_credential_ids_with_check (should_cancel : W → bool * W) :=
  read_operation (λ session header manifest records,
    list_pending_passkey_credential_ids_with_check session header manifest records should_cancel) id.

(** The common body of the mutations: [prepare] is the session's method, which
    gets the time; the passkey operations ask once more whether to cancel. *)
Definition mutation {A}
    (prepare : UnlockedVault → bytes → bytes → list EncryptedRecord → Z →
      stm W RecordOperationError (PreparedRecordMutation * A))
    (last_check : option (W → bool * W)) (before_commit : stm W StorageError unit) :
    ag AccountError (bytes * A) :=
  permit ← require_operation;
  snapshot ← load_authenticated_snapshot;
  committed_at_ms ← mutation_time;
  session ← the_session;
  result ← outcome (prepare session (vd_header snapshot) (vd_manifest snapshot) (vd_records snapshot)
    committed_at_ms);
  prepared ← map_read result;
  match last_check with
  | Some should_cancel => in_world (check_cancelled should_cancel AccountAborted)
  | None => mret tt
  end;;
  id ← persist_mutation permit snapshot prepared.1 before_commit;
  mret (id, prepared.2).

(** A preparation that yields nothing but the mutation. *)
Definition alone {E} (m : stm W E PreparedRecordMutation) : stm W E (PreparedRecordMutation * unit) :=
  prepared ← m; mret (prepared, tt).

Definition add_website_account_with_before_commit_and_check (input : WebsiteAccountInput)
    (should_cancel : W → bool * W) (before_commit : stm W StorageError unit) : ag AccountError bytes :=
  done ← mutation (λ session header manifest records t,
    alone (prepare_add_website_account_with_check session header manifest records input t should_cancel))
    None before_commit;
  mret done.1.
Definition add_website_account_with_before_commit (input : WebsiteAccountInput)
    (before_commit : stm W StorageError unit) : ag AccountError bytes :=
  add_website_account_with_before_commit_and_check input never_cancelled before_commit.
Definition agent_add_website_account (input : WebsiteAccountInput) : ag AccountError bytes :=
  add_website_account_with_before_commit input (mret tt).

Definition update_website_account_with_before_commit_and_check (id : bytes) (input : WebsiteAccountInput)
    (should_cancel : W → bool * W) (before_commit : stm W StorageError unit) : ag AccountError unit :=
  mutation (λ session header manifest records t,
    alone (prepare_update_website_account_with_check session header manifest records id input t should_cancel))
    None before_commit;;
  mret tt.
Definition update_website_account_with_before_commit (id : bytes) (input : WebsiteAccountInput)
    (before_commit : stm W StorageError unit) : ag AccountError unit :=
  update_website_account_with_before_commit_and_check id input never_cancelled before_commit.
Definition agent_update_website_account (id : bytes) (input : WebsiteAccountInput) : ag AccountError unit :=
  update_website_account_with_before_commit id input (mret tt).

Definition delete_website_account_with_before_commit_and_check (id : bytes)
    (should_cancel : W → bool * W) (before_commit : stm W StorageError unit) : ag AccountError unit :=
  mutation (λ session header manifest records t,
    alone (prepare_delete_website_account_with_check session header manifest records id t should_cancel))
    None before_commit;;
  mret tt.
Definition delete_website_account_with_before_commit (id : bytes)
    (before_commit : stm W StorageError unit) : ag AccountError unit :=
  delete_website_account_with_before_commit_and_check id never_cancelled before_commit.
Definition agent_delete_website_account (id : bytes) : ag AccountError unit :=
  delete_website_account_with_before_commit id (mret tt).

Definition add_passkey_with_before_commit_and_check (input : PasskeyInput) (excluded : list bytes)
    (creation_state : PasskeyCreationState) (should_cancel : W → bool * W)
    (before_commit : stm W StorageError unit) : ag AccountError PasskeyCredential :=
  done ← mutation (λ session header manifest records t,
    prepare_add_passkey_with_check session header manifest records input excluded creation_state t
      should_cancel) (Some should_cancel) before_commit;
  mret done.2.
Definition agent_add_passkey (input : PasskeyInput) (excluded : list bytes) :=
  add_passkey_with_before_commit_and_check input excluded Confirmed never_cancelled (mret tt).

Definition confirm_passkey_creation_with_before_commit_and_check (credential_id : bytes)
    (should_cancel : W → bool * W) (before_commit : stm W StorageError unit) : ag AccountError unit :=
  mutation (λ session header manifest records t,
    alone (prepare_confirm_passkey_creation_with_check session header manifest records credential_id t
      should_cancel)) (Some should_cancel) before_commit;;
  mret tt.

Definition sign_passkey_assertion_with_before_commit_and_check (rp_id credential_id client_data_hash : bytes)
    (should_cancel : W → bool * W) (before_commit : stm W StorageError unit) :
    ag AccountError PasskeyAssertion :=
  done ← mutation (λ session header manifest records t,
    prepare_passkey_assertion_with_check session header manifest records rp_id credential_id
      client_data_hash t should_cancel) (Some should_cancel) before_commit;
  mret done.2.
Definition sign_passkey_assertion (rp_id credential_id client_data_hash : bytes) :=
  sign_passkey_assertion_with_before_commit_and_check rp_id credential_id client_data_hash
    never_cancelled (mret tt).

Definition delete_passkey_with_before_commit_and_check (credential_id : bytes)
    (should_cancel : W → bool * W) (before_commit : stm W StorageError unit) : ag AccountError unit :=
  mutation (λ session header manifest records t,
    alone (prepare_delete_passkey_with_check session header manifest records credential_id t should_cancel))
    (Some should_cancel) before_commit;;
  mret tt.
Definition agent_delete_passkey (credential_id : bytes) : ag AccountError unit :=
  delete_passkey_with_before_commit_and_check credential_id never_cancelled (mret tt).
End agent.

(** ** Calls *)

(** A call on the agent, as the runtime makes it: the hooks of the tests are the
    identity, the caller's last check before a commit is any computation. *)
Section calls.
Context `{Minicbor, Crypto, UrlCrate}.
Context {W : Type} `{Env W, Host W, Sqlite W}.

Inductive Call :=
  | CallLock
  | CallUnlock (password : bytes) (before_publish : W → W)
  | CallUnlockWindowsHello (prf_output installation_key credential_id protector : bytes)
      (before_publish : W → W)
  | CallCreateProtector (installation_key credential_id prf_salt prf_output : bytes)
  | CallListAccounts
  | CallListAccountPage (offset limit : Z) (should_cancel : W → bool * W)
  | CallGetAccount (id : bytes) (should_cancel : W → bool * W)
  | CallUniqueAccount (origin : bytes) (should_cancel : W → bool * W)
  | CallListPasskeys (should_cancel : W → bool * W)
  | CallListPasskeysForAssertion (rp_id : bytes) (allowed : list bytes) (allow_list_present : bool)
      (should_cancel : W → bool * W)
  | CallPendingPasskeys (should_cancel : W → bool * W)
  | CallAddAccount (input : WebsiteAccountInput) (should_cancel : W → bool * W)
      (before_commit : stm W StorageError unit)
  | CallUpdateAccount (id : bytes) (input : WebsiteAccountInput) (should_cancel : W → bool * W)
      (before_commit : stm W StorageError unit)
  | CallDeleteAccount (id : bytes) (should_cancel : W → bool * W) (before_commit : stm W StorageError unit)
  | CallAddPasskey (input : PasskeyInput) (excluded : list bytes) (state : PasskeyCreationState)
      (should_cancel : W → bool * W) (before_commit : stm W StorageError unit)
  | CallConfirmPasskey (credential_id : bytes) (should_cancel : W → bool * W)
      (before_commit : stm W StorageError unit)
  | CallSignAssertion (rp_id credential_id client_data_hash : bytes) (should_cancel : W → bool * W)
      (before_commit : stm W StorageError unit)
  | CallDeletePasskey (credential_id : bytes) (should_cancel : W → bool * W)
      (before_commit : stm W StorageError unit).

Definition perform (c : Call) (p : Process W) : Process W :=
  match c with
  | CallLock => (lock (E:=AccountError) p).2
  | CallUnlock password before_publish => (agent_unlock_with_before_publish password before_publish p).2
  | CallUnlockWindowsHello prf_output key id protector before_publish =>
      (unlock_with_windows_hello_before_publish prf_output key id protector before_publish p).2
  | CallCreateProtector key id salt prf_output =>
      (agent_create_windows_hello_protector key id salt prf_output p).2
  | CallListAccounts => (agent_list_website_accounts p).2
  | CallListAccountPage offset limit sc => (agent_list_website_account_page_with_check offset limit sc p).2
  | CallGetAccount id sc => (agent_get_website_account_with_check id sc p).2
  | CallUniqueAccount origin sc => (agent_unique_browser_account_with_check origin sc p).2
  | CallListPasskeys sc => (agent_list_passkeys_with_check sc p).2
  | CallListPasskeysForAssertion rp_id allowed present sc =>
      (agent_list_passkeys_for_assertion_with_check rp_id allowed present sc p).2
  | CallPendingPasskeys sc => (pending_passkey_credential_ids_with_check sc p).2
  | CallAddAccount input sc before => (add_website_account_with_before_commit_and_check input sc before p).2
  | CallUpdateAccount id input sc before =>
      (update_website_account_with_before_commit_and_check id input sc before p).2
  | CallDeleteAccount id sc before => (delete_website_account_with_before_commit_and_check id sc before p).2
  | CallAddPasskey input excluded state sc before =>
      (add_passkey_with_before_commit_and_check input excluded state sc before p).2
  | CallConfirmPasskey id sc before =>
      (confirm_passkey_creation_with_before_commit_and_check id sc before p).2
  | CallSignAssertion rp_id id hash sc before =>
      (sign_passkey_assertion_with_before_commit_and_check rp_id id hash sc before p).2
  | CallDeletePasskey id sc before => (delete_passkey_with_before_commit_and_check id sc before p).2
  end.

Definition perform_all (calls : list Call) (p : Process W) : Process W := foldl (flip perform) p calls.

(** A call after which no earlier permit is good. *)
Definition revoking (c : Call) : bool :=
  match c with
  | CallLock | CallUnlock _ _ | CallUnlockWindowsHello _ _ _ _ _ => true
  | _ => false
  end.

(** ** Permits *)

(** The process counter is a [u64], and the session's identifier was drawn from it. *)
Definition Process_wf (p : Process W) : Prop :=
  uint 64 (next_session p) ∧ (∀ i, va_session_id (agent p) = Some i → i < next_session p).

Definition same_session (a a' : VaultAgent) : Prop :=
  va_session_id a' = va_session_id a ∧ va_authorization_epoch a' = va_authorization_epoch a
  ∧ authenticated_vault_binding a' = authenticated_vault_binding a.

(** The session continues, ends, or is replaced by one with a fresh identifier. *)
Definition evolves (p p' : Process W) : Prop :=
  next_session p ≤ next_session p' ∧ (uint 64 (next_session p) → uint 64 (next_session p'))
  ∧ (same_session (agent p) (agent p')
     ∨ va_session_id (agent p') = None
     ∨ ∃ i, va_session_id (agent p') = Some i ∧ next_session p ≤ i < next_session p').

Definition evolving {E A} (m : ag E A) : Prop := ∀ p, evolves p (m p).2.

#[export] Instance same_session_preorder : PreOrder same_session.
Proof.
  split; [done|]. intros a a' a'' (Hi & He & Hb) (Hi' & He' & Hb').
  split_and!; [by rewrite Hi'|by rewrite He'|by rewrite Hb'].
Qed.
#[export] Instance evolves_preorder : PreOrder evolves.
Proof.
  split; [intros p; split_and!; [lia|done|by left]|].
  intros p p' p'' (Hn & Hw & Hp) (Hn' & Hw' & Hp'). split_and!; [lia|by auto|].
  destruct Hp' as [Hs|[->|(i & Hi & Hlt)]]; [|by right; left|right; right; exists i; split; [done|lia]].
  destruct Hp as [Hp|[Hnone|(i & Hi & Hlt)]]; [left; by etrans|right; left|right; right; exists i];
    rewrite (proj1 Hs); [done|split; [done|lia]].
Qed.

Lemma evolves_same p p' :
  next_session p' = next_session p → same_session (agent p) (agent p') → evolves p p'.
Proof. intros Hn Hs. split_and!; rewrite ?Hn; [lia|done|by left]. Qed.

Lemma evolving_bind {E A B} (m : ag E A) (k : A → ag E B) :
  evolving m → (∀ a, evolving (k a)) → evolving (m ≫= k).
Proof.
  intros Hm Hk p. specialize (Hm p). unfold mbind, stm_bind.
  destruct (m p) as [[a|e|] p']; [|done|done]. etrans; [done|apply Hk].
Qed.
Lemma evolving_ret {E A} (a : A) : evolving (E:=E) (mret a).
Proof. by intros p. Qed.
Lemma evolving_of_result {E A} (r : result E A) : evolving (of_result r).
Proof. by intros p. Qed.
Lemma evolving_throw {E A} (e : E) : evolving (A:=A) (throw e).
Proof. by intros p. Qed.
Lemma evolving_the_agent {E} : evolving (E:=E) the_agent.
Proof. by intros p. Qed.
Lemma evolving_in_world {E A} (m : stm W E A) : evolving (in_world m).
Proof. intros p. unfold in_world. destruct (m (world p)). by apply evolves_same. Qed.
Lemma evolving_outcome {E F A} (m : stm W E A) : evolving (E:=F) (outcome m).
Proof. intros p. unfold outcome. destruct (m (world p)). by apply evolves_same. Qed.
Lemma evolving_modify {E} (f : Process W → Process W) :
  (∀ p, evolves p (f p)) → evolving (E:=E) (modify f).
Proof. intros Hf p. apply Hf. Qed.

Lemma lock_agent_session a : va_session_id (lock_agent a) = None ∧ va_session (lock_agent a) = None.
Proof. unfold lock_agent, advance_authorization_epoch. by destruct (checked_add _ _ _). Qed.
Lemma evolving_lock {E} : evolving (E:=E) lock.
Proof. apply evolving_modify. intros p. split_and!; [done|done|right; left; apply lock_agent_session]. Qed.
Lemma evolving_lock_and_fail {E A} (e : E) : evolving (A:=A) (lock_and_fail e).
Proof. apply evolving_bind; [apply evolving_lock|intros; apply evolving_throw]. Qed.
End calls.
Create HintDb evolving.
#[export] Hint Resolve evolving_ret evolving_of_result evolving_throw evolving_the_agent evolving_in_world
  evolving_outcome evolving_lock evolving_lock_and_fail : evolving.

(** [evolving] follows the steps of a computation of the agent. *)
Ltac evolving :=
  repeat first
    [ solve [eauto 2 with evolving]
    | apply evolving_bind; [|intros ?]
    | case_match ].

Section permits.
Context `{Minicbor, Crypto, UrlCrate}.
Context {W : Type} `{Env W, Host W, Sqlite W}.
Implicit Types p : Process W.

Lemma commit_session_evolving prepared : evolving (commit_session (W:=W) prepared).
Proof.
  intros p. unfold commit_session, the_session, the_agent, of_result, mbind, stm_bind. simpl.
  destruct (va_session (agent p)) as [v|] eqn:Hv; simpl; [|done].
  destruct (commit_record_mutation prepared v) as [r v'] eqn:Hc.
  assert (vault_id v' = vault_id v ∧ key_epoch v' = key_epoch v) as [Hid Hep].
  { unfold commit_record_mutation, mbind, stm_bind, get, of_result, modify in Hc. simpl in Hc.
    destruct (negb _); [by injection Hc as <- <-|]. unfold mbind, result_bind in Hc.
    match type of Hc with match ?r with _ => _ end = _ => destruct r end; by injection Hc as <- <-. }
  etrans; [apply (evolves_same p (on_agent (λ a,
    {| va_path := va_path a; va_session := Some v';
       va_authenticated_header := va_authenticated_header a;
       va_authenticated_manifest := va_authenticated_manifest a; va_session_id := va_session_id a;
       va_authorization_epoch := va_authorization_epoch a |}) p)); [done|]|].
  { split_and!; try done. unfold authenticated_vault_binding. simpl. by rewrite Hv, Hid, Hep. }
  unfold modify. simpl. destruct r; [done|apply evolving_lock_and_fail|done].
Qed.

Lemma publish_session_evolving (session : UnlockedVault) data : evolving (W:=W) (publish_session session data).
Proof.
  intros p. unfold publish_session, next_session_id, mbind, stm_bind, of_result.
  destruct (checked_add 64 (next_session p) 1) as [next|] eqn:Hnext; simpl; [|done].
  apply checked_add_Some in Hnext as [-> Hr].
  unfold advance_epoch_or_fail, advance_authorization_epoch. simpl.
  destruct (checked_add 64 _ 1); simpl; (split_and!; simpl; [lia|unfold uint in *; lia|]).
  - right; right. exists (next_session p). split; [done|lia].
  - by left.
Qed.
#[local] Hint Resolve commit_session_evolving : evolving.

Lemma lock_if_cancelled_evolving : evolving (W:=W) lock_if_cancelled.
Proof.
  intros p. unfold lock_if_cancelled. destruct (poll_cancelled (world p)) as [c w].
  etrans; [by apply (evolves_same p {| agent := agent p; next_session := next_session p; world := w |})|].
  destruct c; [apply evolving_lock_and_fail|done].
Qed.
#[local] Hint Resolve publish_session_evolving lock_if_cancelled_evolving : evolving.

(** Everything an unlock does after its initial lock. *)
Lemma unlock_with_core_evolving before_publish unlock p :
  ∃ m, unlock_with_core before_publish unlock p = (lock;; m) p ∧ evolving m.
Proof.
  eexists. split; [reflexivity|]. unfold agent_cancelled. evolving.
  apply evolving_modify. intros q. by apply evolves_same.
Qed.

Lemma snapshot_evolving : evolving (W:=W) load_authenticated_snapshot.
Proof. unfold load_authenticated_snapshot. evolving. Qed.
Lemma map_read_evolving {A} (r : result RecordOperationError A) : evolving (W:=W) (map_read r).
Proof. unfold map_read. evolving. Qed.
#[local] Hint Resolve snapshot_evolving map_read_evolving : evolving.

Lemma read_operation_evolving {A} (read : UnlockedVault → bytes → bytes → list EncryptedRecord →
    stm W RecordOperationError A) hook :
  (∀ p, evolves p (hook p)) → evolving (read_operation read hook).
Proof.
  intros Hhook. pose proof (evolving_modify (E:=AccountError) hook Hhook).
  unfold read_operation, require_operation, the_session, require_authorized. evolving.
Qed.

Lemma mutation_evolving {A} (prepare : UnlockedVault → bytes → bytes → list EncryptedRecord → Z →
    stm W RecordOperationError (PreparedRecordMutation * A)) check before :
  evolving (mutation prepare check before).
Proof.
  unfold mutation, require_operation, mutation_time, the_session, persist_mutation, require_authorized. evolving.
  apply evolving_modify. intros q. by apply evolves_same.
Qed.

Lemma perform_evolves c p : evolves p (perform c p).
Proof.
  assert (∀ q : Process W, evolves q (id q)) as Hid by done.
  destruct c; try (by apply read_operation_evolving); try (apply mutation_evolving);
    try (apply evolving_bind; [apply mutation_evolving|intros; apply evolving_ret]).
  - apply evolving_lock.
  - destruct (unlock_with_core_evolving before_publish (unlock_vault password) p) as (m & Hm & He).
    cbn [perform]. unfold agent_unlock_with_before_publish. rewrite Hm.
    apply evolving_bind; [apply evolving_lock|done].
  - destruct (unlock_with_core_evolving before_publish
      (unlock_vault_with_windows_hello prf_output installation_key credential_id protector) p) as (m & Hm & He).
    cbn [perform]. unfold unlock_with_windows_hello_before_publish. rewrite Hm.
    apply evolving_bind; [apply evolving_lock|done].
  - cbn [perform]. revert p. fold (evolving (agent_create_windows_hello_protector (W:=W) installation_key credential_id prf_salt prf_output)).
    unfold agent_create_windows_hello_protector. evolving.
Qed.

Lemma perform_all_evolves calls p : evolves p (perform_all calls p).
Proof.
  revert p. induction calls as [|c calls IH]; intros p; [done|]. etrans; [apply perform_evolves|apply IH].
Qed.

Lemma evolves_wf p p' : Process_wf p → evolves p p' → Process_wf p'.
Proof.
  intros [Hu Hi] (Hn & Hw & Hs). split; [by auto|]. intros i Hsome.
  destruct Hs as [(Hid & _)|[Hnone|(j & Hj & Hlt)]].
  - rewrite Hid in Hsome. apply Hi in Hsome. lia.
  - congruence.
  - simplify_eq. lia.
Qed.

(** A permit of an earlier session, or of none. *)
Definition expired (p : Process W) (permit : OperationPermit) : Prop :=
  operation_is_authorized (agent p) permit = false ∧ op_session_id permit < next_session p.

Lemma authorized_iff a permit :
  operation_is_authorized a permit = true ↔
    is_Some (va_session a) ∧ va_session_id a = Some (op_session_id permit)
    ∧ op_authorization_epoch permit = va_authorization_epoch a.
Proof.
  unfold operation_is_authorized, is_unlocked. rewrite !andb_true_iff, bool_decide_eq_true, Z.eqb_eq.
  destruct (va_session a); split; [intros [[]]|intros ([] & ? & ?)|intros [[]]|intros ([] & _)]; eauto; done.
Qed.

Lemma same_session_authorized a a' permit :
  same_session a a' → operation_is_authorized a' permit = operation_is_authorized a permit.
Proof.
  intros (Hi & He & Hb). unfold operation_is_authorized, is_unlocked. rewrite Hi, He.
  unfold authenticated_vault_binding in Hb. by destruct (va_session a), (va_session a').
Qed.

(** If a permit is good at the end of a step, it was at its beginning, in the same session. *)
Lemma authorized_back p p' permit :
  op_session_id permit < next_session p → evolves p p' →
  operation_is_authorized (agent p') permit = true → same_session (agent p) (agent p').
Proof.
  intros Hlt (_ & _ & Hs) (_ & Hid & _)%authorized_iff.
  destruct Hs as [Hs|[Hnone|(i & Hi & Hr)]]; [done|congruence|]. simplify_eq. lia.
Qed.

Lemma begin_operation_Some a permit :
  begin_operation a = Some permit → operation_is_authorized a permit = true.
Proof.
  unfold begin_operation. intros Hb. apply authorized_iff.
  destruct (va_session a), (va_session_id a); simplify_eq/=. split_and!; eauto.
Qed.

Lemma perform_revoking c p permit :
  revoking c = true → op_session_id permit < next_session p → expired (perform c p) permit.
Proof.
  intros Hc Hlt. assert (expired (lock (E:=AgentUnlockError) p).2 permit) as Hlock.
  { split; [|done]. apply not_true_iff_false. intros (_ & Hid & _)%authorized_iff.
    pose proof (proj1 (lock_agent_session (agent p)) :
      va_session_id (agent (lock (E:=AgentUnlockError) p).2) = None). congruence. }
  assert (∀ before_publish unlock, expired (unlock_with_core before_publish unlock p).2 permit) as Hunlock.
  { intros before_publish unlock. destruct (unlock_with_core_evolving before_publish unlock p) as (m & -> & Hm).
    specialize (Hm (lock (E:=AgentUnlockError) p).2). destruct Hlock as [Hl Hl'].
    change (((lock;; m) p).2) with ((m (lock (E:=AgentUnlockError) p).2).2).
    split; [|destruct Hm; lia]. apply not_true_iff_false. intros Ha.
    rewrite <-(same_session_authorized _ _ permit (authorized_back _ _ _ Hl' Hm Ha)), Ha in Hl. done. }
  destruct c; try done; apply Hunlock.
Qed.

(** C27: permits: a permit taken from an unlocked agent is good at once; after any
    further calls, with any results, it is good only if it was good after each
    shorter sequence of them, in the same session of the same vault, and if none of
    them was a lock or an attempt to unlock.  So a permit once revoked is never good
    again, even when the counters of sessions and epochs are exhausted. *)
Theorem permits_are_revoked p permit calls1 calls2 :
  Process_wf p → begin_operation (agent p) = Some permit →
  operation_is_authorized (agent p) permit = true
  ∧ (operation_is_authorized (agent (perform_all (calls1 ++ calls2) p)) permit = true →
     operation_is_authorized (agent (perform_all calls1 p)) permit = true
     ∧ authenticated_vault_binding (agent (perform_all (calls1 ++ calls2) p))
         = authenticated_vault_binding (agent p)
     ∧ Forall (λ c, revoking c = false) (calls1 ++ calls2)).
Proof.
  intros [Hu Hi] Hb. apply begin_operation_Some in Hb as Hgood. split; [done|].
  apply authorized_iff in Hgood as (_ & Hid & _). apply Hi in Hid as Hlt.
  assert (∀ q, evolves p q → op_session_id permit < next_session q) as Hlater by (intros q (? & _); lia).
  intros Ha. split_and!.
  - unfold perform_all in *. rewrite foldl_app in Ha. fold (perform_all calls1 p) in *.
    set (q := perform_all calls1 p) in *. pose proof (perform_all_evolves calls2 q) as He.
    rewrite <-(same_session_authorized _ _ permit (authorized_back _ _ _ (Hlater q (perform_all_evolves _ _)) He Ha)).
    done.
  - apply (authorized_back p _ permit Hlt (perform_all_evolves _ _) Ha).
  - apply Forall_forall. intros c Hc. apply not_true_iff_false. intros Hrev.
    apply list_elem_of_split in Hc as (l1 & l2 & Heq). rewrite Heq in Ha. unfold perform_all in Ha.
    rewrite foldl_app in Ha. simpl in Ha. fold (perform_all l1 p) in Ha. set (q := perform_all l1 p) in *.
    destruct (perform_revoking c q permit Hrev (Hlater q (perform_all_evolves _ _))) as [Hbad Hlt'].
    pose proof (perform_all_evolves l2 (perform c q)) as He.
    rewrite <-(same_session_authorized _ _ permit (authorized_back _ _ _ Hlt' He Ha)) in Hbad.
    unfold perform_all in Hbad. congruence.
Qed.
End permits.
