(* ===== verification/AgentRefine.v ===== *)
(** * The unlocked agent refines a map of records

    Composition of the session's operations ([VaultRefine]), the file ([Storage]) and
    the agent ([Agent]): while the agent is unlocked, session and file agree on one
    map; a call updates both or neither, or locks the agent. *)

From S2P Require Import Prelude RustStd Cbor Wire VaultFormat VaultRecords VaultKeys VaultStore VaultCore VaultRefine Storage Agent.

(** The generator, the cancellation flag and the clock do not write files. *)
Class AgentLaws (W : Type) `{Env W, Host W, StorageModel W} : Prop := {
  getrandom_unchanged n w : unchanged w (getrandom_fill n w).2;
  poll_keeps w : durable_kept w (poll_cancelled w).2;
  clock_keeps w : durable_kept w (system_time_ms w).2;
}.

(** ** Operations of the session leave files alone *)

Section keeps.
Context {W : Type} `{StorageModel W}.

Definition watches (should_cancel : W → bool * W) : Prop := ∀ w, durable_kept w (should_cancel w).2.

Lemma never_cancelled_watches : watches never_cancelled.
Proof. by intros w. Qed.

(** The continuation may rely on the value having been returned. *)
Lemma keeps_bind {E A B} (m : stm W E A) (k : A → stm W E B) :
  keeps_durable m → (∀ a w w', m w = (Ok a, w') → keeps_durable (k a)) → keeps_durable (m ≫= k).
Proof.
  intros Hm Hk w. unfold mbind, stm_bind. destruct (Hm w) as [Hp Hd].
  destruct (m w) as [[a|e|] w'] eqn:Hr; simpl in *; [|done|done].
  destruct (Hk a w w' Hr w') as [Hp' Hd']. split; [done|]. by etrans.
Qed.
Lemma keeps_of_result {E A} (r : result E A) : r ≠ Panic → keeps_durable (of_result r).
Proof. by intros Hr w. Qed.
Lemma keeps_ret {E A} (a : A) : keeps_durable (E:=E) (mret a).
Proof. by intros w. Qed.
Lemma keeps_map_err {E F A} (g : E → F) (m : stm W E A) : keeps_durable m → keeps_durable (map_err_st g m).
Proof.
  intros Hm w. destruct (Hm w). unfold map_err_st. by destruct (m w) as [[a|e|] w'].
Qed.
Lemma keeps_check {E} sc (e : E) : watches sc → keeps_durable (check_cancelled sc e).
Proof.
  intros Hs w. specialize (Hs w). unfold check_cancelled. by destruct (sc w) as [[] w'].
Qed.
End keeps.
Create HintDb keeps.
#[export] Hint Resolve keeps_ret keeps_check never_cancelled_watches : keeps.

(** [keeps] follows the steps of a computation of the session. *)
Ltac keeps :=
  repeat first
    [ solve [eauto 3 with keeps]
    | apply keeps_map_err
    | apply keeps_of_result; solve [no_panic]
    | apply keeps_bind; [|intros ? ? ? ?]
    | case_match ].

Section session_keeps.
Context `{MinicborLaws, CryptoLaws, UrlLaws}.
Context {W : Type} `{AgentLaws W, !EnvLaws W}.
Context (sc : W → bool * W) (Hsc : watches sc).
#[local] Hint Resolve normalize_origin_not_Panic normalize_rp_id_not_Panic derive_record_key_not_Panic
  record_type_not_Panic WebsiteAccountPlaintext_decode_not_Panic PasskeyPlaintext_decode_not_Panic
  RecordEnvelope_decode_not_Panic ManifestEnvelope_decode_not_Panic Manifest_decode_not_Panic
  VaultHeader_decode_not_Panic derive_manifest_key_not_Panic : panic.

Lemma decrypt_record_not_Panic v r : decrypt_record v r ≠ Panic.
Proof. by destruct (decrypt_record_fine v r SnapshotCancelled). Qed.
Lemma metadata_not_Panic v hdr man : authenticate_snapshot_metadata v hdr man ≠ Panic.
Proof. unfold authenticate_snapshot_metadata, decrypt_manifest. no_panic. Qed.
#[local] Hint Resolve decrypt_record_not_Panic metadata_not_Panic : panic.

Lemma visit_keeps {A} v rows (f : DecryptedRecord → A → A) acc :
  keeps_durable (visit_authenticated_records v rows sc f acc).
Proof.
  unfold visit_authenticated_records. do 2 (apply keeps_bind; [keeps|intros _ _ _ _]).
  revert acc. induction (zip rows _) as [|[r e] l IH]; intros acc; cbn [visit_pairs]; keeps.
Qed.
#[local] Hint Resolve visit_keeps : keeps.

Lemma authenticate_only_keeps v rows : keeps_durable (authenticate_records_only_with_check v rows sc).
Proof. unfold authenticate_records_only_with_check. keeps. Qed.
Lemma read_keeps {A} v hdr man rows (f : DecryptedRecord → A → A) acc :
  keeps_durable (read_snapshot v hdr man rows sc f acc).
Proof. unfold read_snapshot. keeps. Qed.
#[local] Hint Resolve authenticate_only_keeps read_keeps : keeps.

Lemma page_keeps v hdr man rows offset limit :
  keeps_durable (list_website_account_page_with_check v hdr man rows offset limit sc).
Proof. unfold list_website_account_page_with_check. keeps. Qed.
Lemma get_account_keeps v hdr man rows id : keeps_durable (get_website_account_with_check v hdr man rows id sc).
Proof. unfold get_website_account_with_check. keeps. Qed.
Lemma unique_account_keeps v hdr man rows o :
  keeps_durable (unique_browser_account_with_check v hdr man rows o sc).
Proof. unfold unique_browser_account_with_check. keeps. Qed.
Lemma find_passkey_keeps v hdr man rows c : keeps_durable (find_passkey v hdr man rows c sc).
Proof. unfold find_passkey. keeps. Qed.
Lemma pending_keeps v hdr man rows :
  keeps_durable (list_pending_passkey_credential_ids_with_check v hdr man rows sc).
Proof. unfold list_pending_passkey_credential_ids_with_check. keeps. Qed.
Lemma assertion_list_keeps v hdr man rows rp allowed :
  keeps_durable (list_passkeys_for_assertion_with_check v hdr man rows rp allowed sc).
Proof. unfold list_passkeys_for_assertion_with_check. keeps. Qed.
Lemma list_passkeys_keeps v hdr man rows : keeps_durable (list_passkeys_with_check v hdr man rows sc).
Proof. unfold list_passkeys_with_check. keeps. Qed.
#[local] Hint Resolve get_account_keeps find_passkey_keeps : keeps.

Lemma random_array_keeps n : keeps_durable (W:=W) (random_array n).
Proof.
  intros w. unfold random_array. destruct (getrandom_unchanged n w) as [_ ?]. by destruct (getrandom_fill n w) as [[b|] w'].
Qed.
#[local] Hint Resolve random_array_keeps : keeps.
Lemma random_nonce_keeps : keeps_durable (W:=W) random_nonce.
Proof. unfold random_nonce. keeps. Qed.
Lemma find_random_keeps n l accept : keeps_durable (W:=W) (find_random n l accept).
Proof.
  induction n as [|n IH]; intros w; [done|]. cbn [find_random]. destruct (random_array_keeps l w) as [Hp Hd].
  destruct (random_array l w) as [[b|e|] w']; simpl in *; [| |done].
  - destruct (accept b); [done|]. destruct (IH w') as [? Hk]. split; [done|by etrans].
  - destruct (IH w') as [? Hk]. split; [done|by etrans].
Qed.
Lemma signing_key_keeps n : keeps_durable (W:=W) (generate_signing_key n).
Proof. induction n as [|n IH]; cbn [generate_signing_key]; keeps. Qed.
#[local] Hint Resolve random_nonce_keeps find_random_keeps signing_key_keeps : keeps.

Lemma manifest_mutation_keeps v kind id env entries t :
  keeps_durable (W:=W) (prepare_manifest_mutation v kind id env entries t).
Proof.
  unfold prepare_manifest_mutation. keeps.
Qed.
#[local] Hint Resolve manifest_mutation_keeps : keeps.
Lemma plaintext_upsert_keeps v kind id pt t : keeps_durable (W:=W) (prepare_plaintext_upsert v kind id pt t).
Proof. unfold prepare_plaintext_upsert. keeps. Qed.
#[local] Hint Resolve plaintext_upsert_keeps : keeps.

Lemma allocate_keeps v existing :
  keeps_durable (W:=W) (allocate_record_id v) ∧ keeps_durable (W:=W) (allocate_credential_id existing)
  ∧ keeps_durable (W:=W) (generate_signing_key MAX_RECORD_ID_ATTEMPTS).
Proof.
  unfold allocate_record_id, allocate_credential_id. generalize MAX_RECORD_ID_ATTEMPTS. intros n. split_and!; keeps.
Qed.

(** The plaintexts that these operations encode fit the encoder's buffer. *)
Lemma upsert_keeps v kind id revision created i t :
  u64 revision → u64 created → u64 t → WebsiteAccountInput_wf i →
  keeps_durable (W:=W) (prepare_upsert v kind id revision created i t).
Proof.
  intros Hr Hc Ht [(?&?&?&?) (?&?&?&?&?) [? ?] [? ?]]. unfold prepare_upsert. keeps.
  apply keeps_of_result, map_err_not_Panic.
  match goal with Hn : of_result _ _ = (Ok _, _) |- _ => apply of_result_Ok in Hn as [Hn _]; inv_ok Hn end.
  match goal with Hn : WebsiteAccountPlaintext_new _ _ _ _ _ _ _ = Ok _ |- _ =>
    apply WebsiteAccountPlaintext_new_Ok in Hn as [_ Hw]; [|done..] end.
  by rewrite (proj1 (WebsiteAccountPlaintext_encode_wf _ Hw)).
Qed.

Lemma passkey_encode_not_Panic r c t k st rp h n d i q pt :
  u64 r → u64 c → u64 t → u32 k → text rp → text n → text d →
  length i = PASSKEY_CREDENTIAL_ID_BYTES → length q = PASSKEY_PRIVATE_KEY_BYTES →
  PasskeyPlaintext_new r c t k st rp h n d i q = Ok pt → PasskeyPlaintext_encode pt ≠ Panic.
Proof.
  intros ????????? Hn. apply PasskeyPlaintext_new_Ok in Hn as [_ Hw]; [|done..].
  by rewrite (proj1 (PasskeyPlaintext_encode_wf _ Hw)).
Qed.

Lemma add_account_keeps v hdr man rows i t :
  u64 t → WebsiteAccountInput_wf i →
  keeps_durable (prepare_add_website_account_with_check v hdr man rows i t sc).
Proof.
  intros Ht Hi. pose proof (proj1 (allocate_keeps v ∅)).
  assert (∀ id, keeps_durable (W:=W) (prepare_upsert v MutationInsert id 1 t i t)) by (intros; by apply upsert_keeps).
  unfold prepare_add_website_account_with_check, prepare_add_with_entropy. keeps.
Qed.

Lemma update_account_keeps v hdr man rows id i t :
  UnlockedVault_wf v → u64 t → WebsiteAccountInput_wf i →
  keeps_durable (prepare_update_website_account_with_check v hdr man rows id i t sc).
Proof.
  intros Hv Ht Hi. unfold prepare_update_website_account_with_check.
  apply keeps_bind; [keeps|intros a w w' Hget].
  apply get_website_account_Ok in Hget as (m & Hm & Ha); [|done].
  destruct (represents_wf _ _ _ _ _ _ _ Hm Ha) as ([[[? ?] [? ?] _ _ _ _] _] & _ & _). simpl in *.
  apply keeps_bind; [keeps|intros revision ? ? Hr]. apply of_result_Ok in Hr as [Hr _]. inv_ok Hr. simp_guards. subst.
  apply upsert_keeps; unfold uint in *; try done; lia.
Qed.

Lemma delete_account_keeps v hdr man rows id t :
  keeps_durable (prepare_delete_website_account_with_check v hdr man rows id t sc).
Proof. unfold prepare_delete_website_account_with_check. keeps. Qed.

Lemma delete_passkey_keeps v hdr man rows c t :
  keeps_durable (prepare_delete_passkey_with_check v hdr man rows c t sc).
Proof. unfold prepare_delete_passkey_with_check. keeps. Qed.

(** The passkey found, one revision and at most one use later, encodes. *)
Lemma advanced_encode_not_Panic v hdr man rows m q revision t k st pt :
  represents v hdr man rows m → m !! ps_id q = Some (DecryptedPasskey q) → u64 revision → u64 t → u32 k →
  PasskeyPlaintext_new revision (ps_created_at_ms q) t k st (ps_rp_id q) (ps_user_handle q)
    (ps_user_name q) (ps_user_display_name q) (ps_credential_id q) (ps_private_key q) = Ok pt →
  PasskeyPlaintext_encode pt ≠ Panic.
Proof.
  intros Hrep Hq Hr Ht Hk Hn.
  destruct (represents_wf _ _ _ _ _ _ _ Hrep Hq) as (((mo & [_ [? ?] _ (?&?) _ (?&?) (?&?) [? ?] [? ?]]) & _ & _) & _ & _).
  simpl in *. eapply passkey_encode_not_Panic in Hn; try done. unfold uint in *; lia.
Qed.

Lemma confirm_passkey_keeps v hdr man rows c t :
  UnlockedVault_wf v → u64 t → keeps_durable (prepare_confirm_passkey_creation_with_check v hdr man rows c t sc).
Proof.
  intros Hv Ht. pose proof Hv as [_ _ [_ _ _ Hcr Hco _ _ _] _].
  assert (u64 (mf_committed_at_ms (uv_manifest v))) as Hcom by (unfold uint; lia).
  unfold prepare_confirm_passkey_creation_with_check.
  apply keeps_bind; [keeps|intros q w w' Hf]. apply find_passkey_Ok in Hf as (m & Hm & Ho); [|done].
  pose proof Ho as (_ & Hq & _).
  destruct (represents_wf _ _ _ _ _ _ _ Hm Hq) as (((mo & [[??] [[??]?] [? ?] _ _ _ _ _ _]) & _) & _). simpl in *.
  destruct (passkey_times (ps_created_at_ms q) (mf_committed_at_ms (uv_manifest v)) t) as (Ht' & _);
    [unfold uint; lia|done|done|].
  apply keeps_bind; [keeps|intros _ _ _ _]. apply keeps_bind; [keeps|intros revision ? ? Hr].
  apply of_result_Ok in Hr as [Hr _]. inv_ok Hr. simp_guards. subst.
  apply keeps_bind; [keeps|intros pt ? ? Hn]. apply of_result_Ok in Hn as [Hn%map_err_Ok _].
  apply keeps_bind; [|intros; keeps]. apply keeps_of_result, map_err_not_Panic.
  eapply (advanced_encode_not_Panic v hdr man rows m q); [done|done| |exact Ht'| |exact Hn]; unfold uint in *; lia.
Qed.

Lemma assert_passkey_keeps v hdr man rows rp c hash t :
  UnlockedVault_wf v → u64 t → keeps_durable (prepare_passkey_assertion_with_check v hdr man rows rp c hash t sc).
Proof.
  intros Hv Ht. pose proof Hv as [_ _ [_ _ _ Hcr Hco _ _ _] _].
  assert (u64 (mf_committed_at_ms (uv_manifest v))) as Hcom by (unfold uint; lia).
  unfold prepare_passkey_assertion_with_check.
  apply keeps_bind; [keeps|intros [] w w' Hmeta]. apply of_result_Ok in Hmeta as [[? ?]%metadata_Ok _].
  apply keeps_bind; [keeps|intros rp' _ _ _].
  apply keeps_bind; [keeps|intros [found dup] ? ? Hvisit].
  apply map_err_st_Ok, visit_Ok in Hvisit as (ds & Hrows & Hfold).
  apply keeps_bind; [keeps|intros [] ? ? Hdup]. apply of_result_Ok in Hdup as [Hdup _]. inv_ok Hdup. simp_guards.
  apply keeps_bind; [keeps|intros q ? ? Hfound]. apply of_result_Ok in Hfound as [Hfound _]. inv_ok Hfound. subst.
  pose proof (credential_found v rows ds c q Hrows (eq_sym Hfold)) as Ho.
  assert (represents v hdr man rows (contents ds)) as Hm by (split; try done; by exists ds).
  pose proof Ho as (_ & Hq & _).
  destruct (represents_wf _ _ _ _ _ _ _ Hm Hq) as (((mo & [[??] [[??]?] [? ?] _ _ _ _ _ _]) & _) & _). simpl in *.
  destruct (passkey_times (ps_created_at_ms q) (mf_committed_at_ms (uv_manifest v)) t) as (Ht' & _);
    [unfold uint; lia|done|done|].
  do 2 (apply keeps_bind; [keeps|intros _ _ _ _]).
  apply keeps_bind; [keeps|intros revision ? ? Hr]. apply of_result_Ok in Hr as [Hr _]. inv_ok Hr. simp_guards. subst.
  apply keeps_bind; [keeps|intros counter ? ? Hc]. apply of_result_Ok in Hc as [Hc _]. inv_ok Hc. simp_guards. subst.
  apply keeps_bind; [keeps|intros _ _ _ _].
  apply keeps_bind; [keeps|intros pt ? ? Hn]. apply of_result_Ok in Hn as [Hn%map_err_Ok _].
  apply keeps_bind; [|intros; keeps]. apply keeps_of_result, map_err_not_Panic.
  eapply (advanced_encode_not_Panic v hdr man rows (contents ds) q); [done|done| |exact Ht'| |exact Hn]; unfold uint in *; lia.
Qed.

Lemma add_passkey_keeps v hdr man rows i excluded state t :
  UnlockedVault_wf v → u64 t → PasskeyInput_wf i →
  keeps_durable (prepare_add_passkey_with_check v hdr man rows i excluded state t sc).
Proof.
  intros Hv Ht [(?&?&?&?&?) [? ?] (?&?&?&?) (?&?&?&?)]. pose proof Hv as [_ _ [_ _ _ Hcr Hco _ _ _] _].
  assert (u64 (passkey_manifest_time (mf_committed_at_ms (uv_manifest v)) t))
    by (unfold passkey_manifest_time, uint in *; lia).
  unfold prepare_add_passkey_with_check. apply keeps_bind; [keeps|intros [[existing invalid] conflict] _ _ _].
  do 3 (apply keeps_bind; [keeps|intros _ _ _ _]).
  apply keeps_bind; [exact (proj1 (allocate_keeps v ∅))|intros id ? ? Hid].
  apply keeps_bind; [exact (proj1 (proj2 (allocate_keeps v existing)))|intros c ? ? Hcred].
  apply allocate_credential_id_Ok in Hcred as (? & _).
  apply keeps_bind; [exact (proj2 (proj2 (allocate_keeps v existing)))|intros k ? ? Hkey].
  apply signing_key_Ok in Hkey. pose proof (p256_scalar_length _ Hkey) as [? ?].
  do 2 (apply keeps_bind; [keeps|intros _ _ _ _]).
  apply keeps_bind; [keeps|intros pt ? ? Hn]. apply of_result_Ok in Hn as [Hn%map_err_Ok _].
  apply keeps_bind; [|intros; keeps]. apply keeps_of_result, map_err_not_Panic.
  by eapply passkey_encode_not_Panic in Hn.
Qed.
End session_keeps.

(** ** The agent and the file agree *)

Section agree.
Context `{Minicbor, Crypto, UrlCrate}.
Context {W : Type} `{StorageModel W}.

(** The file holds a vault that the root key opens to the map [m]. *)
Definition file_holds (w : W) (path key : bytes) (m : gmap bytes DecryptedRecord) : Prop :=
  ∃ v hdr man rows, uv_vault_root_key v = key
    ∧ data_of (durable path w) = {| vd_header := hdr; vd_manifest := man; vd_records := rows |}
    ∧ represents v hdr man rows m.

(** The agent holds the session [v] of the vault in the file. *)
Record synced (p : Process W) (path : bytes) (v : UnlockedVault) (hdr man : bytes)
    (rows : list EncryptedRecord) : Prop := {
  sy_path : va_path (agent p) = Some path;
  sy_session : va_session (agent p) = Some v;
  sy_header : va_authenticated_header (agent p) = Some hdr;
  sy_manifest : va_authenticated_manifest (agent p) = Some man;
  sy_id : is_Some (va_session_id (agent p));
  sy_file : data_of (durable path (world p)) = {| vd_header := hdr; vd_manifest := man; vd_records := rows |};
}.

Definition in_sync (p : Process W) (key : bytes) (m : gmap bytes DecryptedRecord) : Prop :=
  ∃ path v hdr man rows, uv_vault_root_key v = key ∧ synced p path v hdr man rows ∧ represents v hdr man rows m.

Definition locked (a : VaultAgent) : Prop :=
  va_session a = None ∧ va_authenticated_header a = None ∧ va_authenticated_manifest a = None
  ∧ va_session_id a = None.

(** How a mutation of the map [m] by [update] may end; [before] is the caller's last
    check, which has passed whenever the file was written. *)
Definition mutated (p : Process W) (key : bytes) (m : gmap bytes DecryptedRecord)
    (before : stm W StorageError unit) {A : Type}
    (update : A → gmap bytes DecryptedRecord → gmap bytes DecryptedRecord → Prop)
    (r : result AccountError A) (p' : Process W) : Prop :=
  match r with
  | Ok a =>
      same_session (agent p) (agent p') ∧ passed before (world p) (world p')
      ∧ ∃ m', update a m m' ∧ in_sync p' key m'
  | Err (AccountNotFound | AccountConflict) =>
      agent p' = agent p ∧ durable_kept (world p) (world p') ∧ in_sync p' key m
  | Err AccountAborted =>
      agent p' = agent p ∧ files_kept (world p) (world p') ∧ may_have_run before (world p) (world p')
      ∧ in_sync p' key m
  | Err AccountFailed =>
      locked (agent p') ∧ va_path (agent p') = va_path (agent p)
      ∧ (files_kept (world p) (world p') ∧ may_have_run before (world p) (world p')
         ∨ passed before (world p) (world p')
           ∧ ∃ path a m', va_path (agent p) = Some path ∧ update a m m' ∧ file_holds (world p') path key m')
  | Err AccountLocked | Panic => False
  end.

(** Nothing has happened since [p]. *)
Definition at_rest (p s : Process W) : Prop :=
  agent s = agent p ∧ durable_kept (world p) (world s).

Lemma lock_locks a : locked (lock_agent a) ∧ va_path (lock_agent a) = va_path a.
Proof. unfold lock_agent, advance_authorization_epoch. by destruct (checked_add _ _ _). Qed.

Lemma synced_kept p s path v hdr man rows :
  agent s = agent p → files_kept (world p) (world s) → synced p path v hdr man rows → synced s path v hdr man rows.
Proof. intros Ha Hk []. split; rewrite ?Ha, ?Hk; done. Qed.
Lemma in_sync_kept p s key m : agent s = agent p → files_kept (world p) (world s) → in_sync p key m → in_sync s key m.
Proof.
  intros Ha Hf (path & v & hdr & man & rows & Hk & Hsy & Hr). exists path, v, hdr, man, rows.
  split_and!; [done|by eapply synced_kept|done].
Qed.
Lemma in_sync_at_rest p s key m : at_rest p s → in_sync p key m → in_sync s key m.
Proof. intros [? []]. by apply in_sync_kept. Qed.
End agree.

Section mutations.
Context `{MinicborLaws, CryptoLaws, UrlLaws}.
Context {W : Type} `{AgentLaws W, !EnvLaws W, !StorageLaws W}.

(** An operation that ended early: as a request that cannot be met, or locked. *)
Definition unharmed (p : Process W) (e : AccountError) (s : Process W) : Prop :=
  match e with
  | AccountNotFound | AccountConflict | AccountAborted => at_rest p s
  | AccountFailed =>
      locked (agent s) ∧ va_path (agent s) = va_path (agent p) ∧ durable_kept (world p) (world s)
  | AccountLocked => False
  end.

Definition failed (p : Process W) (e : AccountError) (s : Process W) : Prop :=
  e = AccountFailed ∧ unharmed p AccountFailed s.

Lemma fail_spec {A} p (Q : A → Process W → Prop) : triple (at_rest p) (lock_and_fail AccountFailed) Q (failed p).
Proof.
  intros s [Ha Hk]. pose proof (lock_locks (agent s)) as [Hl Hp].
  split; [done|]. split_and!; [exact Hl|etrans; [exact Hp|by rewrite Ha]|exact Hk].
Qed.

Lemma in_world_spec {A} p (m : stm W AccountError A) (e : AccountError) (R : AccountError → Process W → Prop) :
  keeps_durable m → (∀ w e', (m w).1 = Err e' → e' = e) → (∀ s, at_rest p s → R e s) →
  triple (at_rest p) (in_world m) (λ _, at_rest p) R.
Proof.
  intros Hm He HR s [Ha Hk]. unfold in_world. destruct (Hm (world s)) as [Hp Hd].
  specialize (He (world s)). destruct (m (world s)) as [[a|e'|] w']; simpl in *; [| |done].
  - split; [done|]. by etrans.
  - rewrite (He e' eq_refl). apply HR. split; [done|]. by etrans.
Qed.

Lemma outcome_spec {E A} p (m : stm W E A) (R : AccountError → Process W → Prop) :
  (∀ w, durable_kept w (m w).2) →
  triple (at_rest p) (outcome m) (λ r s, at_rest p s ∧ ∃ w w', m w = (r, w')) R.
Proof.
  intros Hm s [Ha Hk]. unfold outcome. specialize (Hm (world s)).
  destruct (m (world s)) as [r w'] eqn:Hr; simpl in *. split; [|by eauto]. split; [done|by etrans].
Qed.

Context (p : Process W) (path : bytes) (v : UnlockedVault) (hdr man : bytes) (rows : list EncryptedRecord).
Context (Hsync : synced p path v hdr man rows).

Lemma require_spec (R : AccountError → Process W → Prop) :
  triple (λ s, s = p) require_operation
    (λ permit s, at_rest p s ∧ operation_is_authorized (agent p) permit = true) R.
Proof.
  intros s ->. pose proof Hsync as [_ Hs _ _ [i Hi] _]. unfold require_operation, the_agent, of_result, mbind, stm_bind.
  assert (begin_operation (agent p) = Some {| op_session_id := i; op_authorization_epoch := va_authorization_epoch (agent p) |})
    as Hb by (unfold begin_operation; by rewrite Hs, Hi).
  rewrite Hb. simpl. split; [by split|by apply begin_operation_Some].
Qed.

Lemma snapshot_spec :
  triple (at_rest p) load_authenticated_snapshot
    (λ d s, at_rest p s ∧ d = {| vd_header := hdr; vd_manifest := man; vd_records := rows |}) (failed p).
Proof.
  intros s Hs. pose proof Hsync as [Hpath _ Hh Hm _ Hf]. pose proof Hs as [Ha Hk].
  unfold load_authenticated_snapshot, the_agent, of_result, outcome, mbind, stm_bind. rewrite Ha, Hpath. simpl.
  pose proof (read_guarded_vault_spec path (world s) (world s) eq_refl) as Hread.
  destruct (read_guarded_vault path (world s)) as [[[d g]|e|] w'] eqn:Hr; [| |done].
  - destruct Hread as (Hk' & Hd & _). simpl in Hd. rewrite (proj2 Hk), Hf in Hd. subst d. simpl. rewrite Hh, Hm.
    rewrite !bool_decide_true by done. split; [|done]. split; [done|]. simpl. by etrans.
  - destruct Hread as (Hk' & _).
    apply (fail_spec p (λ (_ : VaultData) _, False) {| agent := agent p; next_session := next_session s; world := w' |}).
    split; [done|]. simpl. by etrans.
Qed.

Lemma session_spec (R : AccountError → Process W → Prop) :
  triple (at_rest p) the_session (λ v' s, at_rest p s ∧ v' = v) R.
Proof.
  intros s [Ha Hk]. unfold the_session, the_agent, of_result, mbind, stm_bind. rewrite Ha, (sy_session _ _ _ _ _ _ Hsync).
  done.
Qed.

Lemma map_read_spec {A} (r : result RecordOperationError A) (Q : A → Process W → Prop) :
  r ≠ Panic → (∀ a s, r = Ok a → at_rest p s → Q a s) → triple (at_rest p) (map_read r) Q (unharmed p).
Proof.
  intros Hp HQ s Hs. destruct r as [a|e|]; [by apply HQ| |done].
  destruct e; try exact Hs. by destruct (fail_spec p Q s Hs).
Qed.

Lemma mutation_time_spec :
  triple (at_rest p) mutation_time (λ t s, at_rest p s ∧ u64 t) (failed p).
Proof.
  unfold mutation_time. eapply triple_bind.
  { apply (outcome_spec p unix_time_ms). intros w. unfold unix_time_ms. pose proof (clock_keeps w).
    by destruct (system_time_ms w). }
  intros r. apply triple_pre. intros s0 (Hs & w & w' & Hr).
  unfold unix_time_ms in Hr. destruct (system_time_ms w) as [[d|] w1]; simpl in Hr; injection Hr as <- <-.
  - destruct (try_from 64 d) as [t|] eqn:Ht; simpl.
    + apply triple_ret. intros s ->. split; [done|]. by apply try_from_Some in Ht as [-> ?].
    + eapply triple_from; [|apply fail_spec]. by intros ? ->.
  - eapply triple_from; [|apply fail_spec]. by intros ? ->.
Qed.

Lemma authorized_spec permit (R : AccountError → Process W → Prop) :
  operation_is_authorized (agent p) permit = true →
  triple (at_rest p) (require_authorized permit) (λ _, at_rest p) R.
Proof.
  intros Hp s [Ha Hk]. unfold require_authorized, the_agent, of_result, mbind, stm_bind. rewrite Ha, Hp. done.
Qed.

Lemma ag_step {E A B} (m : ag E A) (k : A → ag E B) s a s' Q (R : E → Process W → Prop) :
  m s = (Ok a, s') → triple (λ x, x = s') (k a) Q R → triple (λ x, x = s) (m ≫= k) Q R.
Proof. intros Hm Hk x ->. unfold mbind, stm_bind. rewrite Hm. by apply Hk. Qed.

(** The key of a session survives its commits. *)
Lemma commit_key pm v0 r v' : commit_record_mutation pm v0 = (r, v') →
  uv_vault_root_key v' = uv_vault_root_key v0 ∧ uv_header v' = uv_header v0.
Proof.
  unfold commit_record_mutation, mbind, stm_bind, get, of_result, modify. cbn beta iota.
  match goal with |- context [match ?r with Ok _ => _ | Err _ => _ | Panic => _ end] => destruct r end;
    by intros [= <- <-].
Qed.

Definition persisted (before : stm W StorageError unit) (key : bytes) (m' : gmap bytes DecryptedRecord)
    (e : AccountError) (s : Process W) : Prop :=
  (e = AccountAborted ∧ agent s = agent p ∧ files_kept (world p) (world s)
   ∧ may_have_run before (world p) (world s))
  ∨ (e = AccountFailed ∧ locked (agent s) ∧ va_path (agent s) = va_path (agent p)
     ∧ (files_kept (world p) (world s) ∧ may_have_run before (world p) (world s)
        ∨ passed before (world p) (world s) ∧ file_holds (world s) path key m')).

Lemma committed_holds m' pm w : commits v hdr rows pm m' → committed path hdr man rows pm (world p) w →
  file_holds w path (uv_vault_root_key v) m'.
Proof.
  intros (rows' & v' & Hr & Hc & Hrep & _) (_ & (rows'' & Hr' & Hd) & _). rewrite Hr in Hr'. apply Ok_inj in Hr' as <-.
  apply commit_key in Hc as [Hkey _]. by exists v', hdr, (pm_manifest_envelope pm), rows'.
Qed.

Lemma committed_kept pm w w' : files_kept (world p) w →
  committed path hdr man rows pm w w' → committed path hdr man rows pm (world p) w'.
Proof. intros Hk (Hd & Hr & Ho). rewrite Hk in Hd. split_and!; [done|done|]. intros q Hq. by rewrite Ho, Hk. Qed.

Lemma commit_session_spec (before : stm W StorageError unit) pm m' w permit :
  commits v hdr rows pm m' → committed path hdr man rows pm (world p) w → passed before (world p) w →
  operation_is_authorized (agent p) permit = true →
  triple (λ s, agent s = agent p ∧ world s = w)
    (a ← the_agent;
     (if operation_is_authorized a permit then mret tt else lock_and_fail AccountLocked);;
     id ← commit_session pm;
     modify (on_agent (λ a,
       {| va_path := va_path a; va_session := va_session a;
          va_authenticated_header := va_authenticated_header a;
          va_authenticated_manifest := Some (pm_manifest_envelope pm); va_session_id := va_session_id a;
          va_authorization_epoch := va_authorization_epoch a |}));;
     mret id)
    (λ id s, id = pm_id pm ∧ same_session (agent p) (agent s) ∧ passed before (world p) (world s)
      ∧ in_sync s (uv_vault_root_key v) m')
    (persisted before (uv_vault_root_key v) m').
Proof.
  intros (rows' & v' & Hr & Hc & Hrep & _) (_ & (rows'' & Hr' & Hd) & _) Hpassed Hp s [Ha Hw].
  rewrite Hr in Hr'. apply Ok_inj in Hr' as <-. apply commit_key in Hc as Hkey. destruct Hkey as [Hkey Hhdr].
  pose proof Hsync as [Hpath Hs Hh Hm Hi Hf].
  unfold commit_session, the_session, the_agent, of_result, modify, mbind, stm_bind, mret, stm_ret.
  rewrite Ha, Hp, Ha, Hs. cbn [ok_or]. rewrite Hc. cbn.
  rewrite Ha. split_and!; [done| |by rewrite Hw|].
  - split_and!; [done|done|]. unfold authenticated_vault_binding, vault_id, key_epoch. cbn. by rewrite Hs, Hhdr.
  - exists path, v', hdr, (pm_manifest_envelope pm), rows'. split_and!; [done| |done].
    split; cbn [on_agent agent world va_path va_session va_authenticated_header va_authenticated_manifest va_session_id];
      rewrite ?Ha, ?Hw; done.
Qed.

Lemma persist_spec permit pm m' before :
  operation_is_authorized (agent p) permit = true → admissible before (world p) → commits v hdr rows pm m' →
  triple (at_rest p)
    (persist_mutation permit {| vd_header := hdr; vd_manifest := man; vd_records := rows |} pm before)
    (λ id s, id = pm_id pm ∧ same_session (agent p) (agent s) ∧ passed before (world p) (world s)
      ∧ in_sync s (uv_vault_root_key v) m')
    (persisted before (uv_vault_root_key v) m').
Proof.
  intros Hp Hb Hc. unfold persist_mutation.
  eapply triple_bind; [by apply authorized_spec|intros u]. cbn beta. clear u.
  apply triple_pre. intros s [Ha Hk]. eapply ag_step; [reflexivity|].
  eapply ag_step; [by rewrite Ha, (sy_path _ _ _ _ _ _ Hsync)|]. cbn [vd_header vd_manifest vd_records].
  destruct Hk as [Hm Hk].
  pose proof (apply_record_mutation_spec path hdr man rows pm before (world s)
    (admissible_moves _ _ _ Hb Hm) (world s) eq_refl) as Happly.
  destruct (apply_record_mutation path hdr man rows pm before (world s)) as [[[]|e|] w'] eqn:Hres; [| |done].
  - destruct Happly as [Hcom Hran]. apply (committed_kept pm (world s) w' Hk) in Hcom.
    apply (ran_pre _ _ _ _ _ Hm) in Hran. eapply ag_step; [by unfold outcome; rewrite Hres|].
    eapply ag_step; [reflexivity|].
    eapply triple_from; [|by apply (commit_session_spec before pm m' w' permit)]. by intros ? ->.
  - eapply ag_step; [by unfold outcome; rewrite Hres|]. set (s' := {| agent := agent s; next_session := next_session s; world := w' |}).
    assert (files_kept (world p) w' ∧ may_have_run before (world p) w'
      ∨ passed before (world p) w' ∧ file_holds w' path (uv_vault_root_key v) m') as Hfile.
    { destruct Happly as [[Hk' Hran]|(Hcom & Hran & _)].
      - left. split; [by etrans|by eapply may_have_run_pre].
      - right. split; [by eapply ran_pre|]. eapply committed_holds; [done|]. by eapply committed_kept. }
    assert (persisted before (uv_vault_root_key v) m' AccountFailed (on_agent lock_agent s')) as Hfailed.
    { right. destruct (lock_locks (agent s)) as [Hl Hpath]. split_and!; [done|exact Hl| |exact Hfile].
      etrans; [exact Hpath|by rewrite Ha]. }
    intros ? ->. destruct e; try exact Hfailed. left. split_and!; [done|done|..].
    + destruct Happly as [[Hk' _]|(_ & _ & Habort & _)]; [by etrans|done].
    + destruct Happly as [[_ Hran]|(_ & _ & Habort & _)]; [by eapply may_have_run_pre|done].
Qed.

Lemma unharmed_mutated {A : Type} (before : stm W StorageError unit) (update : A → gmap bytes DecryptedRecord → gmap bytes DecryptedRecord → Prop) m e s :
  represents v hdr man rows m → unharmed p e s → mutated p (uv_vault_root_key v) m before update (Err e) s.
Proof.
  intros Hrep Hu. assert (in_sync p (uv_vault_root_key v) m) as Hin by (by exists path, v, hdr, man, rows).
  destruct e; simpl in *; try done; try (destruct Hu as [? ?]; split_and!; try done; by eapply in_sync_at_rest).
  - destruct Hu as [? [? ?]]. split_and!; [done|done|by left|by eapply in_sync_kept].
  - destruct Hu as (? & ? & ? & ?). split_and!; try done. left. split; [done|by left].
Qed.

Lemma mutation_spec {A} (prepare : UnlockedVault → bytes → bytes → list EncryptedRecord → Z →
    stm W RecordOperationError (PreparedRecordMutation * A)) (last_check : option (W → bool * W))
    (before : stm W StorageError unit) (m : gmap bytes DecryptedRecord)
    (update : bytes * A → gmap bytes DecryptedRecord → gmap bytes DecryptedRecord → Prop) :
  represents v hdr man rows m → admissible before (world p) → (∀ sc, last_check = Some sc → watches sc) →
  (∀ t, u64 t → keeps_durable (prepare v hdr man rows t)) →
  (∀ t w pm a w', u64 t → prepare v hdr man rows t w = (Ok (pm, a), w') →
    refines v hdr man rows pm (update (pm_id pm, a))) →
  triple (λ s, s = p) (mutation prepare last_check before)
    (λ r s, mutated p (uv_vault_root_key v) m before update (Ok r) s)
    (λ e s, mutated p (uv_vault_root_key v) m before update (Err e) s).
Proof.
  intros Hrep Hb Hcheck Hkeeps Hrefines. set (key := uv_vault_root_key v).
  assert (∀ e s, unharmed p e s → mutated p key m before update (Err e) s) as HR by (intros; by apply unharmed_mutated).
  unfold mutation. eapply triple_bind; [apply require_spec|intros permit; cbn beta].
  apply triple_pre. intros s0 [Hs0 Hp]. eapply (triple_from (at_rest p)); [by intros ? ->|].
  eapply triple_bind; [eapply triple_weaken; [apply snapshot_spec|done|intros ? ? Hx; exact Hx|by intros e s [-> ?]; apply HR]|intros d; cbn beta].
  apply triple_pre. intros s1 [Hs1 ->]. eapply (triple_from (at_rest p)); [by intros ? ->|].
  eapply triple_bind; [eapply triple_weaken; [apply mutation_time_spec|done|intros ? ? Hx; exact Hx|by intros e s [-> ?]; apply HR]|intros t; cbn beta].
  apply triple_pre. intros s2 [Hs2 Ht]. eapply (triple_from (at_rest p)); [by intros ? ->|].
  eapply triple_bind; [apply session_spec|intros v'; cbn beta].
  apply triple_pre. intros s3 [Hs3 ->]. eapply (triple_from (at_rest p)); [by intros ? ->|].
  cbn [vd_header vd_manifest vd_records].
  eapply triple_bind; [apply outcome_spec; intros w; apply (Hkeeps t Ht w)|intros r; cbn beta].
  apply triple_pre. intros s4 (Hs4 & w & w' & Hr). eapply (triple_from (at_rest p)); [by intros ? ->|].
  eapply (triple_bind _ _ _ (λ pm s, at_rest p s ∧ r = Ok pm)).
  { eapply triple_weaken; [apply (map_read_spec r (λ a s, at_rest p s ∧ r = Ok a))|done|done|done].
    - intros ->. destruct (Hkeeps t Ht w) as [Hnp _]. by rewrite Hr in Hnp.
    - done. }
  intros [pm a]. cbn beta. apply triple_pre. intros s5 [Hs5 ->].
  destruct (Hrefines t w pm a w' Ht Hr) as (m0 & m' & Hrep0 & Hupd & Hc).
  rewrite (represents_unique _ _ _ _ _ _ Hrep0 Hrep) in Hupd.
  eapply (triple_from (at_rest p)); [by intros ? ->|].
  eapply (triple_bind _ _ _ (λ _, at_rest p)).
  { destruct last_check as [sc|]; [|by apply triple_ret]. apply (in_world_spec p _ AccountAborted).
    - by apply keeps_check, Hcheck.
    - intros w0 e'. unfold check_cancelled. destruct (sc w0) as [[] ?]; by intros [= <-].
    - intros s Hs. by apply HR. }
  intros []. eapply triple_bind.
  { eapply triple_weaken; [by apply (persist_spec permit pm m' before Hp)|done|intros id s Hs; exact Hs|].
    intros e s [(-> & Hag & Hf & Hran)|(-> & Hl & Hpath & Hf)]; cbn [mutated].
    - split_and!; [done|done|done|]. eapply in_sync_kept; [done|done|]. by exists path, v, hdr, man, rows.
    - split_and!; [done|done|]. destruct Hf as [Hf|[Hran Hf]]; [by left|right]. split; [done|].
      exists path, (pm_id pm, a), m'. split_and!; [|done|done]. apply Hsync. }
  intros id. apply triple_ret. intros s (-> & Hs & Hran & Hin). cbn [mutated fst snd]. split_and!; [done|done|]. by exists m'.
Qed.
End mutations.

Section agent_mutations.
Context `{MinicborLaws, CryptoLaws, UrlLaws}.
Context {W : Type} `{AgentLaws W, !EnvLaws W, !StorageLaws W}.

(** A call on the agent updates the map, or reports why not. *)
Definition updates (p : Process W) (key : bytes) (m : gmap bytes DecryptedRecord)
    (before : stm W StorageError unit) {A} (call : ag AccountError A)
    (update : A → gmap bytes DecryptedRecord → gmap bytes DecryptedRecord → Prop) : Prop :=
  mutated p key m before update (call p).1 (call p).2.

Lemma updates_intro {A B : Type} (p : Process W) (key : bytes) (m : gmap bytes DecryptedRecord) (prepare : UnlockedVault → bytes → bytes → list EncryptedRecord → Z →
    stm W RecordOperationError (PreparedRecordMutation * A))
    (last_check : option (W → bool * W)) (before : stm W StorageError unit) (out : bytes * A → B)
    (update : B → gmap bytes DecryptedRecord → gmap bytes DecryptedRecord → Prop) :
  in_sync p key m → admissible before (world p) → (∀ sc, last_check = Some sc → watches sc) →
  (∀ v hdr man rows t, UnlockedVault_wf v → u64 t → keeps_durable (prepare v hdr man rows t)) →
  (∀ v hdr man rows t w pm a w', UnlockedVault_wf v → u64 t → prepare v hdr man rows t w = (Ok (pm, a), w') →
    refines v hdr man rows pm (update (out (pm_id pm, a)))) →
  updates p key m before (done ← mutation prepare last_check before; mret (out done)) update.
Proof.
  intros (path & v & hdr & man & rows & <- & Hsync & Hrep) Hb Hl Hk Hr. pose proof (rp_vault _ _ _ _ _ Hrep) as Hv.
  pose proof (mutation_spec p path v hdr man rows Hsync prepare last_check before m (λ r, update (out r))
    Hrep Hb Hl (λ t, Hk v hdr man rows t Hv) (λ t w pm a w', Hr v hdr man rows t w pm a w' Hv) p eq_refl) as Hspec.
  unfold updates, mbind, stm_bind. destruct (mutation prepare last_check before p) as [[r|e|] s]; [exact Hspec| |done].
  destruct e; try exact Hspec. cbn [fst snd]. destruct Hspec as (? & ? & [?|(? & path' & a & m' & ? & ? & ?)]).
  - split_and!; [done|done|by left].
  - split_and!; [done|done|right]. split; [done|]. by exists path', (out a), m'.
Qed.

Lemma updates_weaken {A : Type} (p : Process W) (key : bytes) (m : gmap bytes DecryptedRecord)
    (before : stm W StorageError unit) (call : ag (W:=W) AccountError A)
    (update update' : A → gmap bytes DecryptedRecord → gmap bytes DecryptedRecord → Prop) :
  (∀ a m', update a m m' → update' a m m') → updates p key m before call update → updates p key m before call update'.
Proof.
  intros Hup. unfold updates. destruct (call p) as [[a|[]|] s]; cbn [fst snd mutated]; try done.
  - intros (? & ? & m' & ? & ?). split_and!; [done|done|]. exists m'. auto.
  - intros (? & ? & [?|(? & path & a & m' & ? & ? & ?)]); split_and!; try done; [by left|right].
    split; [done|]. exists path, a, m'. auto.
Qed.
Lemma alone_keeps (m : stm W RecordOperationError PreparedRecordMutation) : keeps_durable m → keeps_durable (alone m).
Proof. intros Hm. apply keeps_bind; [done|intros; apply keeps_ret]. Qed.
Lemma alone_Ok (m : stm W RecordOperationError PreparedRecordMutation) w pm u w' :
  alone m w = (Ok (pm, u), w') → m w = (Ok pm, w').
Proof. unfold alone. intros Ha. inv_stm Ha. by simplify_eq. Qed.

Lemma refines_weaken (v : UnlockedVault) (hdr man : bytes) (rows : list EncryptedRecord) (pm : PreparedRecordMutation) (update update' : gmap bytes DecryptedRecord → gmap bytes DecryptedRecord → Prop) :
  refines v hdr man rows pm update → (∀ m m', update m m' → update' m m') → refines v hdr man rows pm update'.
Proof. intros (m & m' & ? & ? & ?) Hu. exists m, m'. auto. Qed.

Section calls.
Context (p : Process W) (key : bytes) (m : gmap bytes DecryptedRecord) (Hin : in_sync p key m).
Context (sc : W → bool * W) (Hsc : watches sc) (before : stm W StorageError unit).
Context (Hb : admissible before (world p)).

Lemma no_check : ∀ sc', @None (W → bool * W) = Some sc' → watches sc'.
Proof. done. Qed.
Lemma last_check : ∀ sc', Some sc = Some sc' → watches sc'.
Proof. by intros ? [= <-]. Qed.

Lemma add_account_updates i : WebsiteAccountInput_wf i →
  updates p key m before (add_website_account_with_before_commit_and_check i sc before)
    (λ id m m', ∃ t, u64 t ∧ account_added i t id m m').
Proof.
  intros Hi. apply (updates_intro p key m _ None before fst); [done|done|apply no_check| |].
  - intros. by apply alone_keeps, add_account_keeps.
  - intros v hdr man rows t w pm u w' Hv Ht Hp%alone_Ok. apply add_account_refines in Hp as [Hr _]; [|done..].
    eapply refines_weaken; [done|]. by exists t.
Qed.

Lemma update_account_updates id i : WebsiteAccountInput_wf i →
  updates p key m before (update_website_account_with_before_commit_and_check id i sc before)
    (λ _ m m', ∃ t, u64 t ∧ account_updated i t id m m').
Proof.
  intros Hi. apply (updates_intro p key m _ None before (λ _, tt)); [done|done|apply no_check| |].
  - intros. by apply alone_keeps, update_account_keeps.
  - intros v hdr man rows t w pm u w' Hv Ht Hp%alone_Ok. apply update_account_refines in Hp as [Hr _]; [|done..].
    eapply refines_weaken; [done|]. by exists t.
Qed.

Lemma delete_account_updates id :
  updates p key m before (delete_website_account_with_before_commit_and_check id sc before)
    (λ _, account_deleted id).
Proof.
  apply (updates_intro p key m _ None before (λ _, tt)); [done|done|apply no_check| |].
  - intros. by apply alone_keeps, delete_account_keeps.
  - intros v hdr man rows t w pm u w' Hv Ht Hp%alone_Ok. by apply delete_account_refines in Hp as [Hr _].
Qed.

Lemma add_passkey_updates i excluded state : PasskeyInput_wf i →
  updates p key m before (add_passkey_with_before_commit_and_check i excluded state sc before)
    (λ c m m', ∃ id, passkey_added i excluded state c id m m').
Proof.
  intros Hi. apply (updates_intro p key m _ (Some sc) before snd); [done|done|apply last_check| |].
  - intros. by apply add_passkey_keeps.
  - intros v hdr man rows t w pm u w' Hv Ht Hp. apply add_passkey_refines in Hp as [Hr _]; [|done..].
    eapply refines_weaken; [done|]. intros. by exists (pm_id pm).
Qed.

Lemma confirm_passkey_updates c :
  updates p key m before (confirm_passkey_creation_with_before_commit_and_check c sc before) (λ _, passkey_confirmed c).
Proof.
  apply (updates_intro p key m _ (Some sc) before (λ _, tt)); [done|done|apply last_check| |].
  - intros. by apply alone_keeps, confirm_passkey_keeps.
  - intros v hdr man rows t w pm u w' Hv Ht Hp%alone_Ok. by eapply confirm_passkey_refines.
Qed.

Lemma assert_passkey_updates rp c hash :
  updates p key m before (sign_passkey_assertion_with_before_commit_and_check rp c hash sc before)
    (passkey_asserted rp c hash).
Proof.
  apply (updates_intro p key m _ (Some sc) before snd); [done|done|apply last_check| |].
  - intros. by apply assert_passkey_keeps.
  - intros v hdr man rows t w pm u w' Hv Ht Hp. by eapply assert_passkey_refines.
Qed.

Lemma delete_passkey_updates c :
  updates p key m before (delete_passkey_with_before_commit_and_check c sc before) (λ _, passkey_deleted c).
Proof.
  apply (updates_intro p key m _ (Some sc) before (λ _, tt)); [done|done|apply last_check| |].
  - intros. by apply alone_keeps, delete_passkey_keeps.
  - intros v hdr man rows t w pm u w' Hv Ht Hp%alone_Ok. by eapply delete_passkey_refines.
Qed.
End calls.
End agent_mutations.

Section reads.
Context `{MinicborLaws, CryptoLaws, UrlLaws}.
Context {W : Type} `{AgentLaws W, !EnvLaws W, !StorageLaws W}.

(** What the caller of the agent sees of a session's answer. *)
Definition reported {A} (r : result RecordOperationError A) : result AccountError A :=
  match r with
  | Ok a => Ok a
  | Err RecordNotFound => Err AccountNotFound
  | Err RecordConflict => Err AccountConflict
  | Err RecordCancelled => Err AccountAborted
  | Err RecordFailed => Err AccountFailed
  | Panic => Panic
  end.

(** A call answers a query, and changes neither the agent nor a file; or it could
    not read the file (or the answer is a failure), and the agent is locked. *)
Definition answers (p : Process W) {A} (call : ag AccountError A) (answer : result RecordOperationError A) : Prop :=
  let '(r, p') := call p in
  durable_kept (world p) (world p')
  ∧ (answer ≠ Err RecordFailed ∧ r = reported answer ∧ agent p' = agent p
     ∨ r = Err AccountFailed ∧ locked (agent p')).

(** A read ends where it began, with what the session answered, or locked. *)
Lemma read_spec {A : Type} (p : Process W) path v hdr man rows
    (read : UnlockedVault → bytes → bytes → list EncryptedRecord → stm W RecordOperationError A) :
  synced p path v hdr man rows → keeps_durable (read v hdr man rows) →
  triple (λ s, s = p) (read_operation read id)
    (λ a s, at_rest p s ∧ ∃ w, (read v hdr man rows w).1 = Ok a)
    (λ e s, failed p e s
      ∨ at_rest p s ∧ ∃ w e', e' ≠ RecordFailed ∧ (read v hdr man rows w).1 = Err e' ∧ reported (A:=A) (Err e') = Err e).
Proof.
  intros Hsync Hk.
  set (R := λ e s, failed p e s
      ∨ at_rest p s ∧ ∃ w e', e' ≠ RecordFailed ∧ (read v hdr man rows w).1 = Err e' ∧ reported (A:=A) (Err e') = Err e).
  unfold read_operation. eapply triple_bind; [by eapply require_spec|intros permit; cbn beta].
  apply triple_pre. intros s0 [Hs0 Hp]. eapply (triple_from (at_rest p)); [by intros ? ->|].
  eapply triple_bind; [eapply triple_weaken; [by eapply snapshot_spec|done|intros ? ? Hx; exact Hx|by left]|intros d; cbn beta].
  apply triple_pre. intros s1 [Hs1 ->]. eapply (triple_from (at_rest p)); [by intros ? ->|].
  eapply triple_bind; [by eapply session_spec|intros v'; cbn beta].
  apply triple_pre. intros s2 [Hs2 ->]. eapply (triple_from (at_rest p)); [by intros ? ->|].
  cbn [vd_header vd_manifest vd_records].
  eapply triple_bind; [apply outcome_spec; intros w; apply Hk|intros r; cbn beta].
  apply triple_pre. intros s3 (Hs3 & w & w' & Hr). destruct (Hk w) as [Hpanic _].
  apply (f_equal fst) in Hr. simpl in Hr. rewrite Hr in Hpanic.
  eapply (triple_from (at_rest p)); [by intros ? ->|].
  eapply (triple_bind _ _ _ (λ a s, at_rest p s ∧ r = Ok a)).
  { intros s Hs. destruct r as [a|e|]; [done| |done].
    pose proof (fail_spec p (λ (_ : A) _, False) s Hs) as Hf. cbn [map_read]. unfold throw, R. cbn beta iota.
    destruct e; [right; split; [done|]; by exists w, RecordNotFound|right; split; [done|]; by exists w, RecordConflict
      |right; split; [done|]; by exists w, RecordCancelled|].
    destruct (lock_and_fail AccountFailed s) as [[?|e|] ?]; [done|by left|done]. }
  intros a. cbn beta. apply triple_pre. intros s4 [Hs4 ->].
  eapply (triple_bind _ _ _ (λ _, at_rest p)); [by apply triple_modify; intros s ->|].
  intros []. eapply triple_bind; [by eapply authorized_spec|intros ?; cbn beta].
  apply triple_ret. intros s Hs. split; [done|by exists w].
Qed.

Lemma read_answers {A : Type} (p : Process W) (key : bytes) (m : gmap bytes DecryptedRecord)
    (read : UnlockedVault → bytes → bytes → list EncryptedRecord → stm W RecordOperationError A)
    (answer : result RecordOperationError A) :
  in_sync p key m → (∀ v hdr man rows, keeps_durable (read v hdr man rows)) →
  (∀ v hdr man rows w, represents v hdr man rows m → (read v hdr man rows w).1 = answer) →
  answers p (read_operation read id) answer.
Proof.
  intros (path & v & hdr & man & rows & <- & Hsync & Hrep) Hk Ha.
  pose proof (read_spec p path v hdr man rows read Hsync (Hk v hdr man rows) p eq_refl) as Hspec. unfold answers.
  destruct (read_operation read id p) as [[a|e|] s]; [| |done].
  - destruct Hspec as ([Hag Hkept] & w & Hw). rewrite Ha in Hw by done. subst. split; [done|]. by left.
  - destruct Hspec as [(-> & ? & ? & ?)|([Hag Hkept] & w & e' & Hne & Hw & He)]; [split; [done|by right]|].
    rewrite Ha in Hw by done. subst. split; [done|]. left. split_and!; [congruence|done|done].
Qed.
(** A call gives an answer and changes nothing; or it gives none, and the agent is as
    it was, or locked after a failure. *)
Definition informs (p : Process W) {A} (call : ag AccountError A) (answer : A → Prop) : Prop :=
  triple (λ s, s = p) call (λ a s, at_rest p s ∧ answer a)
    (λ e s, failed p e s ∨ at_rest p s ∧ e ≠ AccountFailed).

Lemma informs_intro {A : Type} (p : Process W) (key : bytes) (m : gmap bytes DecryptedRecord)
    (read : UnlockedVault → bytes → bytes → list EncryptedRecord → stm W RecordOperationError A) (answer : A → Prop) :
  in_sync p key m → (∀ v hdr man rows, keeps_durable (read v hdr man rows)) →
  (∀ v hdr man rows w a, represents v hdr man rows m → (read v hdr man rows w).1 = Ok a → answer a) →
  informs p (read_operation read id) answer.
Proof.
  intros (path & v & hdr & man & rows & <- & Hsync & Hrep) Hk Ha.
  eapply triple_weaken; [by apply (read_spec p path v hdr man rows)|done|..].
  - intros a s (? & w & Hw). split; [done|by eapply Ha].
  - intros e s [?|(? & w & e' & ? & _ & He)]; [by left|right; split; [done|]]. intros ->. by destruct e'.
Qed.

(** The reads, asked by a caller that may cancel them. *)
Lemma reads_inform (p : Process W) (key : bytes) (m : gmap bytes DecryptedRecord) sc :
  in_sync p key m → watches sc →
  (∀ offset limit, 0 ≤ offset → 1 ≤ limit ≤ MAX_WEBSITE_ACCOUNT_PAGE_SIZE → offset + limit < 2 ^ 64 →
    informs p (agent_list_website_account_page_with_check offset limit sc)
      (λ r, r = (take (Z.to_nat limit) (drop (Z.to_nat offset) (accounts_of m)), bool_decide (offset + limit < len (accounts_of m)))))
  ∧ (∀ id, informs p (agent_get_website_account_with_check id sc) (λ a, m !! id = Some (DecryptedWebsiteAccount a)))
  ∧ (∀ origin, informs p (agent_unique_browser_account_with_check origin sc)
      (λ r, r = sole (origin_matches origin (accounts_of m))))
  ∧ (∀ rp allowed present, informs p (agent_list_passkeys_for_assertion_with_check rp allowed present sc)
      (λ r, r = summary_of <$> filter (eligible rp (if present : bool then Some allowed else None)) (ordered_passkeys m)))
  ∧ informs p (agent_list_passkeys_with_check sc)
      (λ r, r = merge_sort summary_le (summary_of <$> filter (λ q, ps_creation_state q ≠ Pending) (ordered_passkeys m))).
Proof.
  intros Hin Hsc. split_and!; intros; (apply (informs_intro p key m); [done| |]).
  - intros. by apply page_keeps.
  - intros v hdr man rows w r Hrep Hr. by apply (proj1 (account_reads_faithful v hdr man rows m sc w Hrep)) in Hr.
  - intros. by apply get_account_keeps.
  - intros v hdr man rows w r Hrep Hr. by apply (proj1 (proj2 (account_reads_faithful v hdr man rows m sc w Hrep))) in Hr.
  - intros. by apply unique_account_keeps.
  - intros v hdr man rows w r Hrep Hr. by apply (proj2 (proj2 (account_reads_faithful v hdr man rows m sc w Hrep))) in Hr.
  - intros. by apply assertion_list_keeps.
  - intros v hdr man rows w r Hrep Hr. by apply (proj1 (passkey_listings_faithful v hdr man rows m sc w Hrep)) in Hr.
  - intros. by apply list_passkeys_keeps.
  - intros v hdr man rows w r Hrep Hr. by apply (proj2 (passkey_listings_faithful v hdr man rows m sc w Hrep)) in Hr.
Qed.
End reads.

Section unlocking.
Context `{MinicborLaws, CryptoLaws, UrlLaws}.
Context {W : Type} `{AgentLaws W, !EnvLaws W, !StorageLaws W}.

(** How an unlock may end: in a session, freshly numbered, that the secret opens
    and the file holds; or locked. *)
Definition opened (opens : VaultHeader → bytes → Prop) (p : Process W) (call : ag AgentUnlockError unit) : Prop :=
  let '(r, p') := call p in
  va_path (agent p') = va_path (agent p)
  ∧ match r with
    | Ok _ => ∃ path v hdr man rows m, synced p' path v hdr man rows ∧ represents v hdr man rows m
        ∧ opens (uv_header v) (uv_vault_root_key v) ∧ va_session_id (agent p') = Some (next_session p)
    | Err _ => locked (agent p')
    | Panic => False
    end.

(** Between the initial lock and the publication. *)
Definition waiting (p s : Process W) : Prop :=
  locked (agent s) ∧ va_path (agent s) = va_path (agent p) ∧ next_session s = next_session p.
Definition refused (p : Process W) (e : AgentUnlockError) (s : Process W) : Prop :=
  locked (agent s) ∧ va_path (agent s) = va_path (agent p).

Lemma waiting_refused p s e : waiting p s → refused p e s.
Proof. by intros (? & ? & _). Qed.

Lemma waiting_in_world {A} p (m : stm W AgentUnlockError A) (P : W → Prop) (V : A → W → Prop) :
  (∀ w, P w → match m w with (Ok a, w') => V a w' | (Err _, _) => True | (Panic, _) => False end) →
  triple (λ s, waiting p s ∧ P (world s)) (in_world m) (λ a s, waiting p s ∧ V a (world s)) (refused p).
Proof.
  intros Hm s [Hs Hw]. specialize (Hm (world s) Hw). unfold in_world. destruct (m (world s)) as [[a|e|] w']; [done| |done].
  by apply waiting_refused.
Qed.

Lemma poll_spec p (P : W → Prop) :
  (∀ w w', P w → durable_kept w w' → P w') →
  triple (λ s, waiting p s ∧ P (world s)) agent_cancelled (λ _ s, waiting p s ∧ P (world s)) (refused p).
Proof.
  intros HP. apply waiting_in_world. intros w Hw. unfold check_cancelled. pose proof (poll_keeps w).
  destruct (poll_cancelled w) as [[] w']; [done|by eapply HP].
Qed.

Lemma publish_spec p path v hdr man rows m (opens : VaultHeader → bytes → Prop) :
  va_path (agent p) = Some path → represents v hdr man rows m → opens (uv_header v) (uv_vault_root_key v) →
  triple (λ s, waiting p s ∧ data_of (durable path (world s)) = {| vd_header := hdr; vd_manifest := man; vd_records := rows |})
    (publish_session v {| vd_header := hdr; vd_manifest := man; vd_records := rows |};; lock_if_cancelled)
    (λ _ s, va_path (agent s) = va_path (agent p)
      ∧ ∃ path v hdr man rows m, synced s path v hdr man rows ∧ represents v hdr man rows m
        ∧ opens (uv_header v) (uv_vault_root_key v) ∧ va_session_id (agent s) = Some (next_session p))
    (refused p).
Proof.
  intros Hp Hrep Hopens s [(Hl & Hpath & Hn) Hd].
  unfold publish_session, next_session_id, advance_epoch_or_fail, of_result, modify, mbind, stm_bind.
  destruct (checked_add 64 (next_session s) 1) as [next|]; [|by split]. cbn [ok_or].
  unfold advance_authorization_epoch. cbn [agent].
  destruct (checked_add 64 (va_authorization_epoch (agent s)) 1) as [epoch|]; [|by split].
  unfold lock_if_cancelled. cbn [world on_agent agent]. pose proof (poll_keeps (world s)) as Hk.
  destruct (poll_cancelled (world s)) as [[] w']; cbn.
  - split; [apply lock_locks|]. etrans; [apply lock_locks|done].
  - split; [done|]. exists path, v, hdr, man, rows, m. split_and!; [|done|done|by rewrite <-Hn].
    split; cbn [agent world va_path va_session va_authenticated_header va_authenticated_manifest va_session_id];
      rewrite ?Hpath; [done..|]. by rewrite (proj2 Hk).
Qed.

Lemma unlock_with_core_opens opens before_publish unlock p :
  (∀ hdr man rows, unlocks opens hdr man rows (unlock hdr man rows)) →
  opened opens p (unlock_with_core before_publish unlock).
Proof.
  intros Hu. unfold opened.
  enough (triple (λ s, s = p) (unlock_with_core before_publish unlock)
    (λ _ s, va_path (agent s) = va_path (agent p)
      ∧ ∃ path v hdr man rows m, synced s path v hdr man rows ∧ represents v hdr man rows m
        ∧ opens (uv_header v) (uv_vault_root_key v) ∧ va_session_id (agent s) = Some (next_session p))
    (refused p)) as Ht.
  { specialize (Ht p eq_refl). destruct (unlock_with_core before_publish unlock p) as [[a|e|] s]; [done| |done].
    by destruct Ht. }
  unfold unlock_with_core.
  eapply (triple_bind _ _ _ (λ _ s, waiting p s ∧ True)).
  { intros s ->. split; [|done]. split_and!; try done; apply lock_locks. }
  intros u. eapply triple_bind; [by apply (poll_spec p (λ _, True))|intros ?]. cbn beta.
  apply triple_pre. intros s0 [Hs0 _]. eapply ag_step; [reflexivity|].
  destruct (va_path (agent s0)) as [path|] eqn:Hpath0; [|intros ? ->; by apply waiting_refused].
  pose proof Hs0 as (_ & Hpath & _). rewrite Hpath0 in Hpath. symmetry in Hpath.
  eapply ag_step; [reflexivity|].
  eapply (triple_from (λ s, waiting p s ∧ True)); [by intros ? ->|]. eapply triple_bind.
  { apply (waiting_in_world p _ (λ _, True) (λ _ _, True)). intros w _. unfold map_err_st.
    pose proof (read_guarded_vault_spec path w w eq_refl). by destruct (read_guarded_vault path w) as [[?|?|] ?]. }
  intros [data guards]. cbn beta iota. eapply triple_bind.
  { apply (waiting_in_world p _ (λ _, True)
      (λ v _, opens (uv_header v) (uv_vault_root_key v)
        ∧ ∃ m, represents v (vd_header data) (vd_manifest data) (vd_records data) m)).
    intros w _. destruct (Hu (vd_header data) (vd_manifest data) (vd_records data) w) as (Hnp & Hok & _).
    unfold map_err_st. destruct (unlock _ _ _ w) as [[v|e|] w']; [by apply Hok|done|done]. }
  intros v. cbn beta. apply triple_pre. intros s1 (Hs1 & Hopens & m & Hrep).
  eapply (triple_from (λ s, waiting p s ∧ True)); [by intros ? ->|].
  eapply (triple_bind _ _ _ (λ _ s, waiting p s ∧ True)); [by apply triple_modify; intros s [(? & ? & ?) _]|intros ?].
  eapply triple_bind; [by apply (poll_spec p (λ _, True))|intros ?]. cbn beta. eapply triple_bind.
  { apply (waiting_in_world p _ (λ _, True) (λ d w, data_of (durable path w) = d)). intros w _. unfold map_err_st.
    pose proof (read_vault_from_guards_spec path guards w w eq_refl) as Hread.
    destruct (read_vault_from_guards path guards id id w) as [[d|?|] w']; [|done|done]. simpl.
    destruct Hread as (Hk & -> & _). by rewrite (proj2 Hk). }
  intros d. cbn beta.
  eapply (triple_bind _ _ _ (λ _ s, waiting p s ∧ data_of (durable path (world s)) = data)).
  { apply triple_of_result.
    - apply fail_if_not_Panic.
    - intros [] s Hok [Hs <-]. split; [done|]. inv_ok Hok. simp_guards. destruct (data_of _), data; simpl in *; congruence.
    - intros e s _ [Hs _]. by apply waiting_refused. }
  intros ?. destruct data as [hdr man rows]. by eapply publish_spec.
Qed.
End unlocking.

Section unlocking_keeps.
Context `{MinicborLaws, CryptoLaws, UrlLaws}.
Context {W : Type} `{AgentLaws W}.
#[local] Hint Resolve VaultHeader_decode_not_Panic ManifestEnvelope_decode_not_Panic
  WindowsHelloProtector_decode_not_Panic Manifest_decode_not_Panic derive_manifest_key_not_Panic
  derive_hello_key_not_Panic : panic.
Lemma poll_watches : watches (W:=W) poll_cancelled.
Proof. exact poll_keeps. Qed.
Lemma authenticate_root_keeps root h env rows :
  keeps_durable (W:=W) (authenticate_vault_root_key root h env rows).
Proof.
  pose proof poll_watches. assert (∀ v, keeps_durable (W:=W) (authenticate_records v rows)) as Ha.
  { intros v. pose proof (λ f : DecryptedRecord → unit → unit, visit_keeps poll_cancelled poll_watches v rows f tt).
    unfold authenticate_records. keeps. }
  unfold authenticate_vault_root_key, or_fail. keeps.
Qed.
Lemma unlock_vault_keeps password hdr man rows : keeps_durable (W:=W) (unlock_vault password hdr man rows).
Proof.
  pose proof poll_watches. pose proof authenticate_root_keeps. unfold unlock_vault, or_fail. keeps.
Qed.
Lemma unlock_with_windows_hello_keeps prf_output installation_key credential_id protector hdr man rows :
  keeps_durable (W:=W)
    (unlock_vault_with_windows_hello prf_output installation_key credential_id protector hdr man rows).
Proof.
  pose proof poll_watches. pose proof authenticate_root_keeps. unfold unlock_vault_with_windows_hello, or_fail. keeps.
Qed.

(** What an unlock does to the world, besides what the caller does before the session is
    published. *)
Lemma unlock_with_core_world `{!StorageLaws W} (R : relation W) `{!PreOrder R} before_publish unlock p :
  (∀ w w', durable_kept w w' → R w w') → (∀ w, R w (before_publish w)) →
  (∀ hdr man rows, keeps_durable (W:=W) (unlock hdr man rows)) →
  triple (λ s, s = p) (unlock_with_core before_publish unlock) (λ _ s, R (world p) (world s)) (λ _ s, R (world p) (world s)).
Proof.
  intros HR Hb Hu. set (P s := R (world p) (world s)).
  assert (∀ (A : Type) (m : stm W AgentUnlockError A), keeps_durable m → triple P (in_world m) (λ _, P) (λ _, P)) as Hin.
  { intros A m Hm s Hs. destruct (Hm (world s)) as [Hn Hk]. unfold in_world.
    assert (R (world p) (m (world s)).2) by (etrans; [exact Hs|by apply HR]). by destruct (m (world s)) as [[a|e|] w]. }
  assert (∀ (A : Type) (r : result AgentUnlockError A), r ≠ Panic → triple P (of_result r) (λ _, P) (λ _, P)) as Hof
    by (intros A r Hr; by apply triple_of_result).
  assert (keeps_durable (W:=W) (check_cancelled poll_cancelled AgentUnlockCancelled)) as Hpoll
    by (apply keeps_check, poll_watches).
  apply (triple_from P); [by intros ? ->; unfold P|]. unfold unlock_with_core.
  eapply (triple_bind _ _ _ (λ _, P)); [by apply triple_modify; intros s Hs; exact Hs|intros ?].
  eapply (triple_bind _ _ _ (λ _, P)); [by apply Hin|intros ?]. eapply (triple_bind _ _ _ (λ _, P)); [by intros s Hs|intros a'].
  eapply (triple_bind _ _ _ (λ _, P)); [apply Hof; by destruct (va_path a')|intros path]. eapply (triple_bind _ _ _ (λ _, P)).
  { apply Hin, keeps_map_err. intros w. pose proof (read_guarded_vault_spec path w w eq_refl) as Hr.
    destruct (read_guarded_vault path w) as [[?|?|] ?]; [split; [done|apply Hr]..|done]. }
  intros [data guards]. eapply (triple_bind _ _ _ (λ _, P)); [by apply Hin, keeps_map_err|intros session].
  eapply (triple_bind _ _ _ (λ _, P)); [by apply triple_modify; intros s Hs; unfold P; cbn; etrans; [exact Hs|apply Hb]|intros ?].
  eapply (triple_bind _ _ _ (λ _, P)); [by apply Hin|intros ?]. eapply (triple_bind _ _ _ (λ _, P)).
  { apply Hin, keeps_map_err. intros w. pose proof (read_vault_from_guards_spec path guards w w eq_refl) as Hr.
    destruct (read_vault_from_guards path guards id id w) as [[?|?|] ?]; [split; [done|apply Hr]..|done]. }
  intros current. eapply (triple_bind _ _ _ (λ _, P)); [apply Hof, fail_if_not_Panic|intros ?].
  eapply (triple_bind _ _ _ (λ _, P)).
  - unfold publish_session. eapply (triple_bind _ _ _ (λ _, P)); [intros s Hs; unfold next_session_id; by destruct (checked_add _ _ _)|intros fresh].
    eapply (triple_bind _ _ _ (λ _, P)); [apply Hof; by destruct fresh|intros id]. eapply (triple_bind _ _ _ (λ _, P)).
    + intros s Hs. unfold advance_epoch_or_fail. by destruct (advance_authorization_epoch (agent s)) as [b []].
    + intros ?. by apply triple_modify; intros s Hs.
  - intros ? s Hs. unfold lock_if_cancelled. destruct (poll_cancelled (world s)) as [c w] eqn:Hw.
    assert (R (world p) w) by (etrans; [exact Hs|]; apply HR; pose proof (poll_watches (world s)) as Hk; by rewrite Hw in Hk).
    by destruct c.
Qed.

(** In every world in which the files are those of [w0], the vault at [path] can be
    read, also through the guards of an earlier read. *)
Definition readable (path : bytes) (w0 : W) : Prop :=
  ∀ w, durable_kept w0 w →
    is_ok (read_guarded_vault path w).1 = true
    ∧ ∀ w1 d g w2, read_guarded_vault path w1 = (Ok (d, g), w2) → is_ok (read_vault_from_guards path g id id w).1 = true.

Definition with_world (w : W) (p : Process W) : Process W :=
  {| agent := agent p; next_session := next_session p; world := w |}.

Lemma in_world_intro {E A : Type} (m : stm W E A) (p : Process W) a w' :
  m (world p) = (Ok a, w') → in_world m p = (Ok a, with_world w' p).
Proof. unfold in_world. by intros ->. Qed.

Lemma poll_intro (p : Process W) :
  undisturbed (W:=W) → ∃ w', agent_cancelled p = (Ok tt, with_world w' p) ∧ durable_kept (world p) w'.
Proof.
  intros Hu. destruct (undisturbed_check AgentUnlockCancelled (world p) Hu) as [w' Hw]. exists w'.
  split; [by apply in_world_intro|]. apply check_cancelled_Ok in Hw. pose proof (poll_keeps (world p)) as Hk.
  by rewrite Hw in Hk.
Qed.

Lemma read_intro {A : Type} (m : stm W StorageError A) (p : Process W) (V : A → Prop) :
  is_ok (m (world p)).1 = true →
  triple (λ w, w = world p) m (λ a w, durable_kept (world p) w ∧ V a) (λ _ _, True) →
  ∃ a w', in_world (map_err_st (λ _, AgentUnlockFailed) m) p = (Ok a, with_world w' p) ∧ durable_kept (world p) w' ∧ V a.
Proof.
  intros Hok Ht. specialize (Ht _ eq_refl). destruct (m (world p)) as [[a|e|] w'] eqn:Hm; try done.
  exists a, w'. split; [apply in_world_intro; unfold map_err_st; by rewrite Hm|exact Ht].
Qed.

Lemma publish_intro v data (q : Process W) :
  next_session q + 1 < 2 ^ 64 → va_authorization_epoch (agent q) + 1 < 2 ^ 64 →
  publish_session v data q =
    (Ok tt, {| agent := {| va_path := va_path (agent q); va_session := Some v;
                           va_authenticated_header := Some (vd_header data);
                           va_authenticated_manifest := Some (vd_manifest data);
                           va_session_id := Some (next_session q);
                           va_authorization_epoch := va_authorization_epoch (agent q) + 1 |};
               next_session := next_session q + 1; world := world q |}).
Proof.
  intros Hn He. unfold publish_session, next_session_id, mbind, stm_bind.
  rewrite (proj2 (checked_add_Some 64 (next_session q) 1 _) (conj eq_refl Hn)).
  unfold advance_epoch_or_fail, advance_authorization_epoch, of_result. cbn [ok_or agent].
  by rewrite (proj2 (checked_add_Some 64 (va_authorization_epoch (agent q)) 1 _) (conj eq_refl He)).
Qed.

Lemma unlock_with_core_available `{!StorageLaws W} opens unlock p path v hdr man rows m :
  (∀ hdr man rows, unlocks opens hdr man rows (unlock hdr man rows)) →
  (∀ hdr man rows, keeps_durable (unlock hdr man rows)) →
  va_path (agent p) = Some path → readable path (world p) → undisturbed (W:=W) →
  data_of (durable path (world p)) = {| vd_header := hdr; vd_manifest := man; vd_records := rows |} →
  represents v hdr man rows m → opens (uv_header v) (uv_vault_root_key v) →
  u64 (next_session p) → next_session p + 1 < 2 ^ 64 →
  u64 (va_authorization_epoch (agent p)) → va_authorization_epoch (agent p) + 2 < 2 ^ 64 →
  ∃ p', unlock_with_core id unlock p = (Ok tt, p') ∧ synced p' path v hdr man rows.
Proof.
  intros Hu Hk Hpath Hr Hpoll Hd Hrep Ho Hn Hn' He He'.
  set (p0 := on_agent lock_agent p).
  destruct (poll_intro p0 Hpoll) as (w1 & Hp1 & Hk1).
  destruct (read_intro (read_guarded_vault path) (with_world w1 p0)
    (λ d, d.1 = {| vd_header := hdr; vd_manifest := man; vd_records := rows |}) (proj1 (Hr _ Hk1))) as ([d g] & w2 & Hp2 & Hk2 & Hv).
  { eapply triple_weaken; [exact (read_guarded_vault_spec path w1)|done| |done].
    intros d w (Hkw & -> & _). split; [done|]. cbn [world with_world]. by rewrite (proj2 Hk1). }
  simpl in Hv. subst d.
  assert (∃ w', read_guarded_vault path w1 = (Ok ({| vd_header := hdr; vd_manifest := man; vd_records := rows |}, g), w'))
    as [w0 Hread].
  { revert Hp2. unfold in_world, map_err_st. cbn [world with_world].
    destruct (read_guarded_vault path w1) as [[x|e|] w']; [intros [= -> _]; by eexists|done..]. }
  assert (∃ w3, unlock hdr man rows w2 = (Ok v, w3) ∧ durable_kept w2 w3) as (w3 & Hp3 & Hk3).
  { destruct (Hu hdr man rows w2) as (_ & _ & Hav). destruct (Hav Hpoll) as [_ Hok]. specialize (Hok v m Ho Hrep).
    pose proof (proj2 (Hk hdr man rows w2)). destruct (unlock hdr man rows w2) as [r w3]. simpl in *. subst. by exists w3. }
  destruct (poll_intro (with_world w3 p0) Hpoll) as (w4 & Hp4 & Hk4). cbn [world with_world] in Hk4.
  assert (durable_kept (world p) w4) as Hk04 by (etrans; [exact Hk1|]; by rewrite Hk2, Hk3).
  destruct (read_intro (read_vault_from_guards path g id id) (with_world w4 p0)
    (λ d, d = {| vd_header := hdr; vd_manifest := man; vd_records := rows |}) (proj2 (Hr _ Hk04) _ _ _ _ Hread)) as (d & w5 & Hp5 & Hk5 & ->).
  { eapply triple_weaken; [exact (read_vault_from_guards_spec path g w4)|done| |done].
    intros d w (Hkw & -> & _). split; [done|]. cbn [world with_world]. by rewrite (proj2 Hk04). }
  destruct (poll_cancelled w5) as [c w6] eqn:Hp6. pose proof (Hpoll w5) as Hc. pose proof (poll_keeps w5) as Hk6.
  rewrite Hp6 in Hc, Hk6. simpl in Hc, Hk6. subst c.
  eexists. split.
  - unfold unlock_with_core.
    eapply stm_bind_intro; [reflexivity|]. eapply stm_bind_intro; [exact Hp1|]. eapply stm_bind_intro; [reflexivity|].
    assert (va_path (agent (with_world w1 p0)) = Some path) as Hpath'.
    { etrans; [apply lock_locks|done]. }
    eapply stm_bind_intro; [by rewrite Hpath'|]. eapply stm_bind_intro; [exact Hp2|]. cbn [vd_header vd_manifest vd_records].
    eapply stm_bind_intro; [apply in_world_intro; unfold map_err_st; cbn [world with_world]; by rewrite Hp3|].
    eapply stm_bind_intro; [reflexivity|]. eapply stm_bind_intro; [exact Hp4|]. eapply stm_bind_intro; [exact Hp5|].
    cbn [vd_header vd_manifest vd_records]. rewrite !bool_decide_false by auto.
    eapply stm_bind_intro; [reflexivity|].
    eapply stm_bind_intro; [apply publish_intro; [exact Hn'|]|].
    { cbn [agent with_world on_agent p0]. unfold lock_agent, advance_authorization_epoch. cbn [va_authorization_epoch].
      assert (checked_add 64 (va_authorization_epoch (agent p)) 1 = Some (va_authorization_epoch (agent p) + 1)) as ->
        by (apply checked_add_Some; lia).
      cbn [fst va_authorization_epoch]. lia. }
    unfold lock_if_cancelled. cbn [world on_agent with_world]. by rewrite Hp6.
  - split; [etrans; [apply lock_locks|done]|done|done|done|by eexists|]. cbn [agent world on_agent with_world].
    rewrite (proj2 Hk6), (proj2 Hk5). cbn [world with_world]. by rewrite (proj2 Hk04).
Qed.
End unlocking_keeps.

(** ** Properties *)

Section properties.
Context `{MinicborLaws, CryptoLaws, UrlLaws}.
Context {W : Type} `{AgentLaws W, !EnvLaws W, !StorageLaws W}.

(** The caller's hooks write no files, and inputs were built by their constructors. *)
Definition well_behaved (c : Call (W:=W)) : Prop :=
  match c with
  | CallLock | CallUnlock _ _ | CallUnlockWindowsHello _ _ _ _ _ | CallCreateProtector _ _ _ _
  | CallListAccounts => True
  | CallListAccountPage _ _ sc | CallGetAccount _ sc | CallUniqueAccount _ sc | CallListPasskeys sc
  | CallListPasskeysForAssertion _ _ _ sc | CallPendingPasskeys sc => watches sc
  | CallAddAccount i sc before | CallUpdateAccount _ i sc before =>
      WebsiteAccountInput_wf i ∧ watches sc ∧ inert before
  | CallAddPasskey i _ _ sc before => PasskeyInput_wf i ∧ watches sc ∧ inert before
  | CallDeleteAccount _ sc before | CallConfirmPasskey _ sc before | CallSignAssertion _ _ _ sc before
  | CallDeletePasskey _ sc before => watches sc ∧ inert before
  end.

(** Locked without a trace of the session, or in agreement with the file. *)
Definition consistent (p : Process W) : Prop := locked (agent p) ∨ ∃ key m, in_sync p key m.

Lemma mutated_consistent {A : Type} (p : Process W) (key : bytes) (m : gmap bytes DecryptedRecord)
    (before : stm W StorageError unit) (update : A → gmap bytes DecryptedRecord → gmap bytes DecryptedRecord → Prop)
    (r : result AccountError A) (p' : Process W) :
  mutated p key m before update r p' → consistent p'.
Proof.
  intros Hm. destruct r as [a|[]|]; simpl in Hm; try done.
  - destruct Hm as (_ & _ & m' & _ & ?). right. by exists key, m'.
  - right. exists key, m. by destruct Hm as (_ & _ & ?).
  - right. exists key, m. by destruct Hm as (_ & _ & ?).
  - right. exists key, m. by destruct Hm as (_ & _ & _ & ?).
  - left. by destruct Hm.
Qed.

Lemma locked_refuses {A : Type} (k : OperationPermit → ag (W:=W) AccountError A) p :
  locked (agent p) → (require_operation ≫= k) p = (Err AccountLocked, p).
Proof.
  intros (Hs & _). unfold require_operation, the_agent, of_result, mbind, stm_bind, begin_operation.
  by rewrite Hs.
Qed.

Lemma read_consistent {A : Type} (p : Process W)
    (read : UnlockedVault → bytes → bytes → list EncryptedRecord → stm W RecordOperationError A) :
  (∀ v hdr man rows, keeps_durable (read v hdr man rows)) → consistent p → consistent (read_operation read id p).2.
Proof.
  intros Hk [Hl|(key & m & path & v & hdr & man & rows & <- & Hsync & Hrep)].
  - unfold read_operation. rewrite locked_refuses by done. by left.
  - pose proof (read_spec p path v hdr man rows read Hsync (Hk v hdr man rows) p eq_refl) as Hspec.
    assert (∀ s, at_rest p s → consistent s) as Hrest.
    { intros s Hs. right. exists (uv_vault_root_key v), m. eapply in_sync_at_rest; [done|]. by exists path, v, hdr, man, rows. }
    destruct (read_operation read id p) as [[a|e|] s]; [| |done].
    + apply Hrest, Hspec.
    + destruct Hspec as [(-> & ? & _)|[Hs _]]; [by left|by apply Hrest].
Qed.

Lemma mutation_consistent {A B : Type} (p : Process W)
    (prepare : UnlockedVault → bytes → bytes → list EncryptedRecord → Z →
      stm W RecordOperationError (PreparedRecordMutation * A))
    (last_check : option (W → bool * W)) (before : stm W StorageError unit) (out : bytes * A → B)
    (update : B → gmap bytes DecryptedRecord → gmap bytes DecryptedRecord → Prop) :
  (∀ key m, in_sync p key m → updates p key m before (done ← mutation prepare last_check before; mret (out done)) update) →
  consistent p → consistent (mbind (λ done, mret (out done)) (mutation prepare last_check before) p).2.
Proof.
  intros Hu [Hl|(key & m & Hin)].
  - assert (mutation prepare last_check before p = (Err AccountLocked, p)) as Hm by (by apply locked_refuses).
    unfold mbind at 1, stm_bind at 1. rewrite Hm. by left.
  - by eapply mutated_consistent, Hu.
Qed.

Lemma opened_consistent opens (p : Process W) (call : ag (W:=W) AgentUnlockError unit) : opened opens p call → consistent (call p).2.
Proof.
  unfold opened. destruct (call p) as [[a|e|] s]; intros [_ Ho]; [|by left|done].
  destruct Ho as (path & v & hdr & man & rows & m & ? & ? & _). right. exists (uv_vault_root_key v), m.
  by exists path, v, hdr, man, rows.
Qed.

Lemma protector_keeps v key id salt prf : keeps_durable (W:=W) (create_windows_hello_protector v key id salt prf).
Proof.
  pose proof random_array_keeps. pose proof derive_hello_key_not_Panic. unfold create_windows_hello_protector. keeps.
Qed.

Lemma perform_consistent c p : well_behaved c → consistent p → consistent (perform c p).
Proof.
  destruct c; cbn [well_behaved perform]; intros Hc Hp.
  - left. apply lock_locks.
  - eapply opened_consistent, unlock_with_core_opens. intros. apply unlock_vault_unlocks.
  - eapply opened_consistent, unlock_with_core_opens. intros. apply unlock_with_windows_hello_unlocks.
  - destruct Hp as [Hl|(key & m & path & v & hdr & man & rows & <- & Hsync & Hrep)];
      unfold agent_create_windows_hello_protector, the_agent, of_result, in_world, map_err_st, mbind, stm_bind.
    + destruct Hl as (Hs & Hl). rewrite Hs. left. by split.
    + rewrite (sy_session _ _ _ _ _ _ Hsync). cbn [ok_or].
      match goal with |- context [create_windows_hello_protector ?v ?a ?b ?c ?d ?w] =>
        pose proof (proj2 (protector_keeps v a b c d w)); destruct (create_windows_hello_protector v a b c d w) end.
      right. exists (uv_vault_root_key v), m. eapply (in_sync_at_rest p); [by split|]. by exists path, v, hdr, man, rows.
  - apply read_consistent; [|done]. intros. apply read_keeps, never_cancelled_watches.
  - apply read_consistent; [|done]. intros. by apply page_keeps.
  - apply read_consistent; [|done]. intros. by apply get_account_keeps.
  - apply read_consistent; [|done]. intros. by apply unique_account_keeps.
  - apply read_consistent; [|done]. intros. by apply list_passkeys_keeps.
  - apply read_consistent; [|done]. intros. by apply assertion_list_keeps.
  - apply read_consistent; [|done]. intros. by apply pending_keeps.
  - destruct Hc as (? & ? & ?). eapply (mutation_consistent p _ _ _ fst); [|done]. intros. apply add_account_updates; auto using inert_admissible.
  - destruct Hc as (? & ? & ?). eapply (mutation_consistent p _ _ _ (λ _, tt)); [|done]. intros. apply update_account_updates; auto using inert_admissible.
  - destruct Hc as (? & ?). eapply (mutation_consistent p _ _ _ (λ _, tt)); [|done]. intros. apply delete_account_updates; auto using inert_admissible.
  - destruct Hc as (? & ? & ?). eapply (mutation_consistent p _ _ _ snd); [|done]. intros. apply add_passkey_updates; auto using inert_admissible.
  - destruct Hc as (? & ?). eapply (mutation_consistent p _ _ _ (λ _, tt)); [|done]. intros. apply confirm_passkey_updates; auto using inert_admissible.
  - destruct Hc as (? & ?). eapply (mutation_consistent p _ _ _ snd); [|done]. intros. apply assert_passkey_updates; auto using inert_admissible.
  - destruct Hc as (? & ?). eapply (mutation_consistent p _ _ _ (λ _, tt)); [|done]. intros. apply delete_passkey_updates; auto using inert_admissible.
Qed.

(** C20: unlocking, by password or by Windows Hello, never panics; it ends either
    with a session that the secret opens, freshly numbered, whose header, manifest
    and rows the file holds (even when the file changed while the session was being
    opened: it is read again), or with an error and a locked agent. *)
Theorem agent_unlock_opens (p : Process W) password prf_output installation_key credential_id protector before_publish :
  opened (opens_with_password password) p (agent_unlock_with_before_publish password before_publish)
  ∧ opened (opens_with_windows_hello prf_output installation_key credential_id protector) p
      (unlock_with_windows_hello_before_publish prf_output installation_key credential_id protector before_publish).
Proof.
  split; apply unlock_with_core_opens; intros; [apply unlock_vault_unlocks|apply unlock_with_windows_hello_unlocks].
Qed.

(** C30: an unlock succeeds when it should: if the file can be read and holds a vault
    that the secret opens, nobody cancels, and neither counter is exhausted, then the
    agent is unlocked, with exactly the session that the secret opens. *)
Theorem agent_unlock_available (p : Process W) path v hdr man rows m
    password prf_output installation_key credential_id protector :
  va_path (agent p) = Some path → readable path (world p) → undisturbed (W:=W) →
  data_of (durable path (world p)) = {| vd_header := hdr; vd_manifest := man; vd_records := rows |} →
  represents v hdr man rows m →
  u64 (next_session p) → next_session p + 1 < 2 ^ 64 →
  u64 (va_authorization_epoch (agent p)) → va_authorization_epoch (agent p) + 2 < 2 ^ 64 →
  (opens_with_password password (uv_header v) (uv_vault_root_key v) →
    ∃ p', agent_unlock password p = (Ok tt, p') ∧ synced p' path v hdr man rows)
  ∧ (opens_with_windows_hello prf_output installation_key credential_id protector (uv_header v) (uv_vault_root_key v) →
    ∃ p', unlock_with_windows_hello prf_output installation_key credential_id protector p = (Ok tt, p')
      ∧ synced p' path v hdr man rows).
Proof.
  intros. split; intros; eapply unlock_with_core_available; try done; intros; cbn beta.
  - apply unlock_vault_unlocks.
  - apply unlock_vault_keeps.
  - apply unlock_with_windows_hello_unlocks.
  - apply unlock_with_windows_hello_keeps.
Qed.

(** C3: website-account calls on an unlocked agent refine updates of the map that
    session and file agree on: a success leaves both agreeing on the updated map,
    in the same session; a missing account, a conflict and an abort change neither;
    and any other failure locks the agent, with the file either untouched or
    holding the whole update.  The caller's last check has passed whenever the file was
    written.  A call never panics. *)
Theorem agent_account_calls_refine (p : Process W) key m sc before :
  in_sync p key m → watches sc → admissible before (world p) →
  (∀ i, WebsiteAccountInput_wf i →
    updates p key m before (add_website_account_with_before_commit_and_check i sc before)
      (λ id m m', ∃ t, u64 t ∧ account_added i t id m m'))
  ∧ (∀ id i, WebsiteAccountInput_wf i →
      updates p key m before (update_website_account_with_before_commit_and_check id i sc before)
        (λ _ m m', ∃ t, u64 t ∧ account_updated i t id m m'))
  ∧ (∀ id, updates p key m before (delete_website_account_with_before_commit_and_check id sc before)
      (λ _, account_deleted id)).
Proof.
  intros. split_and!; intros; [by apply add_account_updates|by apply update_account_updates|by apply delete_account_updates].
Qed.

(** C29: so do the passkey calls: creation (with a fresh credential, none of the
    excluded ones present), confirmation, assertion (with the signature counter
    advanced in the file before the assertion is returned) and deletion. *)
Theorem agent_passkey_calls_refine (p : Process W) key m sc before :
  in_sync p key m → watches sc → admissible before (world p) →
  (∀ i excluded state, PasskeyInput_wf i →
    updates p key m before (add_passkey_with_before_commit_and_check i excluded state sc before)
      (λ c m m', ∃ id, passkey_added i excluded state c id m m'))
  ∧ (∀ c, updates p key m before (confirm_passkey_creation_with_before_commit_and_check c sc before)
      (λ _, passkey_confirmed c))
  ∧ (∀ rp c hash, updates p key m before (sign_passkey_assertion_with_before_commit_and_check rp c hash sc before)
      (passkey_asserted rp c hash))
  ∧ (∀ c, updates p key m before (delete_passkey_with_before_commit_and_check c sc before) (λ _, passkey_deleted c)).
Proof.
  intros. split_and!; intros; [by apply add_passkey_updates|by apply confirm_passkey_updates
    |by apply assert_passkey_updates|by apply delete_passkey_updates].
Qed.

(** Reading through an unlocked agent answers from the map that session and file
    agree on, and changes neither; if the file cannot be read or no longer matches
    the session, no answer is given and the agent is locked. *)
Theorem agent_reads_answer (p : Process W) key m sc :
  in_sync p key m → watches sc → (∀ w, (sc w).1 = false) →
  answers p agent_list_website_accounts (Ok (accounts_of m))
  ∧ (∀ offset limit, 0 ≤ offset → 1 ≤ limit ≤ MAX_WEBSITE_ACCOUNT_PAGE_SIZE → offset + limit < 2 ^ 64 →
      answers p (agent_list_website_account_page_with_check offset limit sc)
        (Ok (take (Z.to_nat limit) (drop (Z.to_nat offset) (accounts_of m)),
             bool_decide (offset + limit < len (accounts_of m)))))
  ∧ (∀ id, answers p (agent_get_website_account_with_check id sc)
      match m !! id with
      | Some (DecryptedWebsiteAccount a) => Ok a
      | _ => Err RecordNotFound
      end)
  ∧ (∀ origin, answers p (agent_unique_browser_account_with_check origin sc)
      (Ok (sole (origin_matches origin (accounts_of m)))))
  ∧ (let sel := filter (λ q, ps_creation_state q ≠ Pending) (ordered_passkeys m) in
     answers p (agent_list_passkeys_with_check sc)
       (if bool_decide (listable m sel) then Ok (merge_sort summary_le (summary_of <$> sel)) else Err RecordFailed)).
Proof.
  intros Hin Hsc Hq. split_and!; intros.
  - apply (read_answers p key m); [done|intros; apply read_keeps, never_cancelled_watches|intros v hdr man rows w Hrep].
    by apply (account_reads v hdr man rows m sc w).
  - apply (read_answers p key m); [done|intros; by apply page_keeps|intros v hdr man rows w Hrep].
    by apply (account_reads v hdr man rows m sc w).
  - apply (read_answers p key m); [done|intros; by apply get_account_keeps|intros v hdr man rows w Hrep].
    by apply (account_reads v hdr man rows m sc w).
  - apply (read_answers p key m); [done|intros; by apply unique_account_keeps|intros v hdr man rows w Hrep].
    by apply (account_reads v hdr man rows m sc w).
  - apply (read_answers p key m); [done|intros; by apply list_passkeys_keeps|intros v hdr man rows w Hrep].
    by apply (passkey_listings v hdr man rows m sc w).
Qed.

(** C28: whatever calls are made, in any order and with any results, starting from a
    locked agent: the agent is locked, with nothing of a session left, or its
    session, header and manifest agree with the file on one map of records. *)
Theorem agent_stays_consistent (p : Process W) calls :
  consistent p → Forall well_behaved calls → consistent (perform_all calls p).
Proof.
  intros Hp Hc. revert p Hp. induction Hc as [|c calls Hw _ IH]; intros p Hp; [done|].
  by apply IH, perform_consistent.
Qed.
End properties.

(** ** Examples *)

Module Examples.
Import Rfc8949 Toy VaultCore.Examples VaultRefine.Examples MemoryDisk.

Definition key : bytes := uv_vault_root_key vault.

Section disk.
Context {X : Type}.
#[export] Instance disk_env : Env (Disk X) := {|
  getrandom_fill n w := (Some (replicate n (byte_of_Z (dk_calls w))),
    {| dk_files := dk_files w; dk_view := dk_view w; dk_calls := dk_calls w + 1;
     dk_memory := dk_memory w |});
  poll_cancelled w := (false, w);
|}.
#[export] Instance disk_env_laws : EnvLaws (Disk X).
Proof. split. intros n w b w' [= <- <-]. apply length_replicate. Qed.
#[export] Instance disk_host : Host (Disk X) := {|
  system_time_ms w := (Some 7, w);
  is_absolute _ := true;
  current_dir := mret [];
  path_join a b := a ++ b;
|}.
#[export] Instance disk_agent_laws : AgentLaws (Disk X).
Proof. by split. Qed.

Definition file_path : bytes := str "vault".
Definition empty_view : Database := {| db_header := []; db_manifest := []; db_records := [] |}.
Definition disk_with (x : X) : Disk X :=
  {| dk_files := {[ file_path := {| db_header := header; db_manifest := manifest; db_records := [] |} ]};
     dk_view := empty_view; dk_calls := 100; dk_memory := x |}.
Definition locked_agent_with (x : X) : Process (Disk X) :=
  {| agent := {| va_path := Some file_path; va_session := None; va_authenticated_header := None;
       va_authenticated_manifest := None; va_session_id := None; va_authorization_epoch := 0 |};
     next_session := 2; world := disk_with x |}.
Definition unlocked_agent_with (x : X) : Process (Disk X) :=
  {| agent := {| va_path := Some file_path; va_session := Some vault; va_authenticated_header := Some header;
       va_authenticated_manifest := Some manifest; va_session_id := Some 1; va_authorization_epoch := 3 |};
     next_session := 2; world := disk_with x |}.

Lemma unlocked_synced x : synced (unlocked_agent_with x) file_path vault header manifest [].
Proof. split; try reflexivity; by eexists. Qed.
Lemma unlocked_in_sync x : in_sync (unlocked_agent_with x) key ∅.
Proof.
  exists file_path, vault, header, manifest, []. split; [reflexivity|]. split; [exact (unlocked_synced x)|exact vault_represents].
Qed.

End disk.
Definition disk : Disk unit := disk_with tt.
Definition locked_agent : Process (Disk unit) := locked_agent_with tt.
Definition unlocked_agent : Process (Disk unit) := unlocked_agent_with tt.

Lemma calm : inert (W:=Disk unit) (E:=StorageError) (mret tt).
Proof. apply inert_ret. Qed.

Lemma updates_ok {A : Type} p k m before (call : ag (W:=Disk unit) AccountError A) update :
  updates p k m before call update → is_ok (call p).1 = true → ∃ a m', update a m m' ∧ in_sync (call p).2 k m'.
Proof. unfold updates. destruct (call p) as [[a|e|] s]; [|done..]. intros (_ & _ & m' & ? & ?) _. by exists a, m'. Qed.

Definition adding : ag (W:=Disk unit) AccountError bytes :=
  add_website_account_with_before_commit_and_check input never_cancelled (mret tt).
Lemma agent_account_calls_refine_witness :
  ∃ id m', (∃ t, u64 t ∧ account_added input t id ∅ m') ∧ in_sync (adding unlocked_agent).2 key m'.
Proof.
  refine (updates_ok unlocked_agent key ∅ (mret tt) adding (λ id m m', ∃ t, u64 t ∧ account_added input t id m m')
    (proj1 (agent_account_calls_refine unlocked_agent key ∅ never_cancelled (mret tt)
      (unlocked_in_sync tt) never_cancelled_watches (inert_admissible _ _ calm)) input input_wf) _).
  vm_compute. reflexivity.
Defined.

Definition creating : ag (W:=Disk unit) AccountError PasskeyCredential :=
  add_passkey_with_before_commit_and_check passkey_input [] Pending never_cancelled (mret tt).
Lemma agent_passkey_calls_refine_witness :
  ∃ c m', (∃ id, passkey_added passkey_input [] Pending c id ∅ m') ∧ in_sync (creating unlocked_agent).2 key m'.
Proof.
  refine (updates_ok unlocked_agent key ∅ (mret tt) creating (λ c m m', ∃ id, passkey_added passkey_input [] Pending c id m m')
    (proj1 (agent_passkey_calls_refine unlocked_agent key ∅ never_cancelled (mret tt)
      (unlocked_in_sync tt) never_cancelled_watches (inert_admissible _ _ calm)) passkey_input [] Pending passkey_input_wf) _).
  vm_compute. reflexivity.
Defined.

Lemma agent_reads_answer_witness :
  answers unlocked_agent (agent_get_website_account_with_check (zeros 16) never_cancelled) (Err RecordNotFound).
Proof.
  exact (proj1 (proj2 (proj2 (agent_reads_answer unlocked_agent key ∅ never_cancelled (unlocked_in_sync tt)
    never_cancelled_watches (λ _, eq_refl)))) (zeros 16)).
Defined.

Lemma agent_stays_consistent_witness :
  consistent (perform_all [CallUnlock password id; CallListAccounts;
    CallAddAccount input never_cancelled (mret tt); CallLock] locked_agent).
Proof.
  apply agent_stays_consistent; [left; split_and!; reflexivity|].
  do 2 (apply Forall_cons; split; [exact I|]).
  apply Forall_cons; split; [exact (conj input_wf (conj never_cancelled_watches calm))|].
  apply Forall_cons; split; [exact I|apply Forall_nil_2].
Defined.

(** The example file can be read: only what it holds matters. *)
Definition guards : SqliteInputGuards (W:=Disk unit) :=
  {| ig_database := tt; ig_wal := Some tt; ig_shm := Some tt; ig_ancestor_guards := tt |}.
Lemma disk_reads w : file file_path w = file file_path disk →
  is_ok (read_vault_from_guards file_path guards id id w).1 = true.
Proof.
  intros Hf. apply is_ok_st. eexists _, _. unfold read_vault_from_guards.
  do 4 (eapply stm_bind_intro; [reflexivity|]).
  eapply (stm_bind_intro _ _ _ file_path (set_view (file file_path disk) w)); [by rewrite <-Hf|].
  do 12 (eapply stm_bind_intro; [reflexivity|]). cbn beta iota.
  do 5 (eapply stm_bind_intro; [vm_compute; reflexivity|]). reflexivity.
Qed.
Lemma disk_readable : readable file_path disk.
Proof.
  intros w Hw. assert (file file_path w = file file_path disk) as Hf by (apply Hw).
  pose proof (disk_reads w Hf) as Hok. split.
  - unfold read_guarded_vault, read_guarded_vault_with_hooks. apply is_ok_st in Hok as (d & w' & Hd).
    apply is_ok_st. exists (d, guards), w'. eapply stm_bind_intro; [reflexivity|].
    eapply stm_bind_intro; [exact Hd|reflexivity].
  - intros w1 d g w2 Hread. apply stm_bind_Ok in Hread as (g' & w3 & Hg & Hread).
    apply stm_bind_Ok in Hread as (d' & w4 & _ & Hread). apply stm_ret_Ok in Hread as [[= -> ->] _].
    assert (g' = guards) as -> by (by injection Hg). exact Hok.
Qed.

Lemma disk_data : data_of (durable file_path disk) = {| vd_header := header; vd_manifest := manifest; vd_records := [] |}.
Proof. exact (sy_file _ _ _ _ _ _ (unlocked_synced tt)). Qed.

Lemma vault_opens : opens_with_password password (uv_header vault) (uv_vault_root_key vault).
Proof.
  destruct (create_vault_total password 5 0 toy_entropic) as (c & w' & Hc); [by split|by vm_compute|].
  unfold vault, created. rewrite Hc.
  destruct (create_vault_Ok password 5 0 c w' ltac:(by split) Hc) as (_ & _ & _ & _ & Ho & _). exact Ho.
Qed.

Lemma agent_unlock_opens_witness :
  opened (opens_with_password password) locked_agent (agent_unlock_with_before_publish password id)
  ∧ is_ok (agent_unlock password locked_agent).1 = true.
Proof.
  split; [exact (proj1 (agent_unlock_opens locked_agent password [] [] [] [] id))|].
  vm_compute. reflexivity.
Defined.

Lemma agent_unlock_available_witness :
  ∃ p', agent_unlock (W:=Disk unit) password locked_agent = (Ok tt, p') ∧ synced p' file_path vault header manifest [].
Proof.
  exact (proj1 (agent_unlock_available locked_agent file_path vault header manifest [] ∅ password [] [] [] []
    eq_refl disk_readable (λ _, eq_refl) disk_data vault_represents
    (conj (Zle_0_pos 2) eq_refl) eq_refl (conj (Z.le_refl 0) eq_refl) eq_refl) vault_opens).
Defined.

Definition permit : OperationPermit := {| op_session_id := 1; op_authorization_epoch := 3 |}.
Lemma permits_are_revoked_witness :
  operation_is_authorized (agent unlocked_agent) permit = true
  ∧ operation_is_authorized (agent (perform_all [CallListAccounts; CallLock] unlocked_agent)) permit = false.
Proof.
  destruct (permits_are_revoked unlocked_agent permit [CallListAccounts] [CallLock]) as [Hgood Hlater].
  - split; [split; reflexivity || discriminate|]. intros i [= <-]. reflexivity.
  - reflexivity.
  - split; [exact Hgood|]. apply not_true_iff_false. intros Ha. destruct (Hlater Ha) as (_ & _ & Hf).
    apply (Forall_forall _ _) with (x := CallLock) in Hf; [discriminate Hf|right; left].
Defined.
End Examples.
