(* ===== verification/Outcome.v ===== *)
(** * Outcomes of requests ([runtime.rs] of [crates/vault-agent/src])

    What an operation of the runtime hands to the dispatcher, the public errors the
    lower layers are mapped to, and the page of account summaries that fits a
    response. *)

From S2P Require Import Prelude RustStd Cbor Wire Types Message Session Operations VaultKeys VaultStore Agent.

Inductive DispatchError := DispatchConnection (e : ConnectionError) | DispatchInternal.
#[export] Instance DispatchError_eq_dec : EqDecision DispatchError.
Proof. solve_decision. Defined.

(** ** [ExecutionOutcome] *)

Record ExecutionOutcome := {
  eo_error : option PublicErrorCode;
  eo_retry : RetryCategory;
  eo_body : bytes;
  eo_replayed : bool;
  eo_holds_lock_transition : bool;
  eo_committed : bool;
  eo_browser_generation : option Z;
  eo_browser_deadline : option Z;
}.
#[export] Instance ExecutionOutcome_eq_dec : EqDecision ExecutionOutcome.
Proof. solve_decision. Defined.

Definition success (body : bytes) : ExecutionOutcome :=
  {| eo_error := None; eo_retry := Never; eo_body := body; eo_replayed := false;
     eo_holds_lock_transition := false; eo_committed := false; eo_browser_generation := None;
     eo_browser_deadline := None |}.

Definition failure (error : PublicErrorCode) (retry : RetryCategory) : ExecutionOutcome :=
  {| eo_error := Some error; eo_retry := retry; eo_body := []; eo_replayed := false;
     eo_holds_lock_transition := false; eo_committed := false; eo_browser_generation := None;
     eo_browser_deadline := None |}.

Definition commit_point (o : ExecutionOutcome) : ExecutionOutcome :=
  {| eo_error := eo_error o; eo_retry := eo_retry o; eo_body := eo_body o; eo_replayed := eo_replayed o;
     eo_holds_lock_transition := eo_holds_lock_transition o; eo_committed := true;
     eo_browser_generation := eo_browser_generation o; eo_browser_deadline := eo_browser_deadline o |}.

Definition hold_lock_transition (o : ExecutionOutcome) : ExecutionOutcome :=
  {| eo_error := eo_error o; eo_retry := eo_retry o; eo_body := eo_body o; eo_replayed := eo_replayed o;
     eo_holds_lock_transition := true; eo_committed := eo_committed o;
     eo_browser_generation := eo_browser_generation o; eo_browser_deadline := eo_browser_deadline o |}.

Definition invalid : ExecutionOutcome := failure PublicErrorCode.InvalidRequest Never.
Definition locked_outcome : ExecutionOutcome := failure PublicErrorCode.Locked AfterUnlock.
Definition busy : ExecutionOutcome := failure PublicErrorCode.Busy Backoff.
Definition cancelled : ExecutionOutcome := failure PublicErrorCode.Cancelled Never.
Definition deadline_outcome : ExecutionOutcome := failure PublicErrorCode.DeadlineExceeded Never.
Definition failed : ExecutionOutcome := failure PublicErrorCode.OperationFailed Never.
Definition retryable_failure : ExecutionOutcome := failure PublicErrorCode.OperationFailed Backoff.

(** [From<ProtocolError>] and [From<ConnectionError>]. *)
Definition protocol_internal (_ : ProtocolError) : DispatchError := DispatchInternal.

Definition into_response (o : ExecutionOutcome) (correlation : bytes) :
    result DispatchError ResponseEnvelope :=
  match eo_error o with
  | Some error => map_err protocol_internal (ResponseEnvelope_failure error (eo_retry o) correlation)
  | None => map_err (λ _, DispatchInternal) (ResponseEnvelope_success correlation (eo_body o))
  end.

(** Which outcomes a repeated request is answered with again. *)
Definition should_cache (o : ExecutionOutcome) : bool :=
  bool_decide (eo_error o = None)
  || match eo_error o with
     | Some PublicErrorCode.InvalidRequest | Some PublicErrorCode.NotFound
     | Some PublicErrorCode.Conflict => true
     | _ => false
     end
  || bool_decide (eo_error o = Some PublicErrorCode.OperationFailed) && bool_decide (eo_retry o = Never).

(** ** Errors of the layers below *)

Definition map_operation_decode_error (error : ProtocolError) : ExecutionOutcome :=
  if bool_decide (error = ProtocolError.Unsupported) then failed else invalid.

Definition map_account_error (error : AccountError) : ExecutionOutcome :=
  match error with
  | AccountLocked => locked_outcome
  | AccountNotFound => failure PublicErrorCode.NotFound Never
  | AccountConflict => failure PublicErrorCode.Conflict Never
  | AccountAborted | AccountFailed => failed
  end.

Inductive PasskeyVerificationError := VerificationInvalid | VerificationUnavailable | VerificationFailed.
#[export] Instance PasskeyVerificationError_eq_dec : EqDecision PasskeyVerificationError.
Proof. solve_decision. Defined.

Definition map_passkey_verification_error (error : PasskeyVerificationError) : ExecutionOutcome :=
  match error with
  | VerificationInvalid => invalid
  | VerificationUnavailable | VerificationFailed => failed
  end.

Definition decode_state (value : Z) : AgentState :=
  if value =? AgentState_code Starting then Starting
  else if value =? AgentState_code NoVault then NoVault
  else if value =? AgentState_code Types.Locked then Types.Locked
  else if value =? AgentState_code Unlocking then Unlocking
  else if value =? AgentState_code Unlocked then Unlocked
  else if value =? AgentState_code Updating then Updating
  else if value =? AgentState_code ShuttingDown then ShuttingDown
  else ShuttingDown.

(** ** Accounts *)

Definition account_view (a : WebsiteAccount) : AccountView :=
  {| av_id := ac_id a; av_revision := ac_revision a; av_created_at_ms := ac_created_at_ms a;
     av_modified_at_ms := ac_modified_at_ms a; av_service_name := ac_service_name a;
     av_permitted_origin := ac_permitted_origin a; av_username := ac_username a;
     av_password := ac_password a |}.

Definition account_input `{UrlCrate} (fields : AccountFields) : result unit WebsiteAccountInput :=
  map_err (λ _, tt) (WebsiteAccountInput_new (af_service_name fields) (af_permitted_origin fields)
    (af_username fields) (af_password fields)).

Section page.
Context `{Minicbor}.

(** The loop of [encode_summary_page]: a binary search for the longest prefix that
    is encoded.  Running out of fuel is a panic here, which the theorems exclude. *)
Fixpoint page_search (fuel : nat) (views : list AccountView) (offset : Z) (source_has_more : bool)
    (lower upper : Z) (best : option bytes) : result DispatchError (option bytes) :=
  match fuel with
  | O => Panic
  | S fuel =>
      if lower <=? upper then
        let count := lower + (upper - lower) / 2 in
        let has_more := source_has_more || (count <? len views) in
        next_offset ← (if has_more then
            n ← ok_or (try_from 32 count) DispatchInternal;
            next ← ok_or (checked_add 32 offset n) DispatchInternal;
            Ok (Some next)
          else Ok None);
        match encode_account_summaries (take (Z.to_nat count) views) next_offset with
        | Ok body => page_search fuel views offset source_has_more (count + 1) upper (Some body)
        | Err ProtocolError.TooLarge => page_search fuel views offset source_has_more lower (count - 1) best
        | Err _ => Err DispatchInternal
        | Panic => Panic
        end
      else Ok best
  end.

Definition encode_summary_page (views : list AccountView) (offset : Z) (source_has_more : bool) :
    result DispatchError ExecutionOutcome :=
  if is_empty views then
    if source_has_more then Ok failed
    else body ← map_err protocol_internal (encode_account_summaries views None); Ok (success body)
  else
    best ← page_search (S (length views)) views offset source_has_more 1 (len views) None;
    Ok (from_option success failed best).
End page.

(** ** The page that is returned *)

Definition page_fits (views : list AccountView) : Prop :=
  len views ≤ MAX_LIST_PAGE_SIZE ∧ Forall (view_ok false) views ∧ 8 + page_bound views ≤ MAX_RESPONSE_BODY_BYTES.

(** Where the next page starts, if there is one. *)
Definition next_page (views : list AccountView) (offset : Z) (source_has_more : bool) (k : nat) : option Z :=
  if source_has_more || (Z.of_nat k <? len views) then Some (offset + Z.of_nat k) else None.

Section page_facts.
Context `{MinicborLaws}.
Context (views : list AccountView) (offset : Z) (more : bool).
Context (Htyped : Forall AccountView_typed views) (Hoffset : u32 offset) (Hrange : offset + len views < 2 ^ 32).

Lemma page_bound_app k l : page_bound (k ++ l) = page_bound k + page_bound l.
Proof. induction k as [|a k IH]; simpl; [done|]. rewrite IH. lia. Qed.

Lemma page_fits_prefix k l : page_fits (k ++ l) → page_fits k.
Proof.
  unfold page_fits. rewrite len_app, Forall_app, page_bound_app.
  pose proof (len_nonneg l). pose proof (page_bound_nonneg l). intros (?&[??]&?). split_and!; [lia|done|lia].
Qed.
Lemma page_fits_take i j : (i ≤ j)%nat → page_fits (take j views) → page_fits (take i views).
Proof.
  intros Hij Hj. rewrite <-(take_drop i (take j views)) in Hj. rewrite take_take, Nat.min_l in Hj by done.
  by eapply page_fits_prefix.
Qed.

Lemma next_page_u32 k o : (k ≤ length views)%nat → next_page views offset more k = Some o → u32 o.
Proof.
  unfold next_page, uint, len in *. intros Hk Ho. destruct (_ || _); [|done]. injection Ho as <-. lia.
Qed.

Lemma encode_prefix k o : (k ≤ length views)%nat → (∀ n, o = Some n → u32 n) →
  (page_fits (take k views) → ∃ body, encode_account_summaries (take k views) o = Ok body)
  ∧ (¬ page_fits (take k views) → encode_account_summaries (take k views) o = Err ProtocolError.TooLarge).
Proof.
  intros Hk Ho. rewrite encode_account_summaries_spec; [|by apply Forall_take|done]. unfold page_fits.
  split; intros Hf; [rewrite bool_decide_true by done; eauto|by rewrite bool_decide_false].
Qed.

(** [best] is the body of the prefix below [lower], if there is one. *)
Definition best_of (lower : nat) (best : option bytes) : Prop :=
  match lower with
  | O | 1%nat => best = None
  | S k => ∃ body, best = Some body
      ∧ encode_account_summaries (take k views) (next_page views offset more k) = Ok body
  end.

Lemma page_search_spec fuel : ∀ lower upper best,
  (1 ≤ lower)%nat → (upper ≤ length views)%nat → (S upper < lower + fuel)%nat → (lower ≤ S upper)%nat →
  (∀ j, (1 ≤ j < lower)%nat → page_fits (take j views)) →
  (∀ j, (upper < j ≤ length views)%nat → ¬ page_fits (take j views)) →
  best_of lower best →
  ∃ k best', page_search fuel views offset more (Z.of_nat lower) (Z.of_nat upper) best = Ok best'
    ∧ (k ≤ length views)%nat ∧ best_of (S k) best'
    ∧ (∀ j, (1 ≤ j ≤ k)%nat → page_fits (take j views))
    ∧ (∀ j, (k < j ≤ length views)%nat → ¬ page_fits (take j views)).
Proof.
  induction fuel as [|fuel IH]; intros lower upper best Hl Hu Hfuel Hlu Hlow Hhigh Hbest; [lia|].
  cbn [page_search]. destruct (Z.leb_spec (Z.of_nat lower) (Z.of_nat upper)) as [Hle|Hgt].
  - set (count := (lower + (upper - lower) / 2)%nat).
    assert (lower ≤ count ≤ upper)%nat as Hcount.
    { subst count. pose proof (Nat.Div0.div_le_upper_bound (upper - lower) 2 (upper - lower) ltac:(lia)). lia. }
    assert (Z.of_nat lower + (Z.of_nat upper - Z.of_nat lower) / 2 = Z.of_nat count) as ->.
    { subst count. rewrite Nat2Z.inj_add, Nat2Z.inj_div, Nat2Z.inj_sub by lia. done. }
    assert ((if more || (Z.of_nat count <? len views)
      then n ← ok_or (try_from 32 (Z.of_nat count)) DispatchInternal;
           next ← ok_or (checked_add 32 offset n) DispatchInternal; Ok (Some next)
      else Ok None) = Ok (next_page views offset more count)) as ->.
    { unfold next_page, uint, len in *. destruct (_ || _); [|done].
      rewrite try_from_uint by (unfold uint; lia). cbn [ok_or mbind result_bind].
      unfold checked_add, max_of. rewrite (proj2 (Z.leb_le _ _)) by lia. done. }
    cbn [mbind result_bind]. rewrite Nat2Z.id.
    destruct (encode_prefix count (next_page views offset more count)) as [Hfit Hlarge];
      [lia|intros; apply (next_page_u32 count); [lia|done]|].
    destruct (decide (page_fits (take count views))) as [Hf|Hf].
    + destruct (Hfit Hf) as [body Hbody]. rewrite Hbody.
      replace (Z.of_nat count + 1) with (Z.of_nat (S count)) by lia.
      apply IH; try lia; [|done|].
      * intros j Hj. apply page_fits_take with count; [lia|done].
      * destruct count as [|c]; [lia|]. by exists body.
    + rewrite (Hlarge Hf). replace (Z.of_nat count - 1) with (Z.of_nat (count - 1)) by lia.
      apply IH; try lia; [done| |done].
      intros j Hj Hfj. apply Hf, page_fits_take with j; [lia|done].
  - exists (lower - 1)%nat, best. split; [done|]. replace (S (lower - 1)) with lower by lia.
    split_and!; [lia|done|intros; apply Hlow; lia|intros; apply Hhigh; lia].
Qed.

Lemma first_view_fits a : view_ok false a → page_fits [a].
Proof.
  intros Ha. unfold page_fits. split_and!; [done|by constructor|].
  destruct Ha as (?&?&?&_). simpl. unfold view_bound. autounfold with limits in *. lia.
Qed.
End page_facts.

Section properties.
Context `{MinicborLaws}.

Lemma encode_page_ends views offset more :
  Forall AccountView_typed views → u32 offset → offset + len views < 2 ^ 32 →
  match encode_summary_page views offset more with
  | Ok o =>
      (∃ k body, (1 ≤ k ≤ length views)%nat ∧ o = success body
        ∧ encode_account_summaries (take k views) (next_page views offset more k) = Ok body
        ∧ ∀ j next, (k < j ≤ length views)%nat → (∀ n, next = Some n → u32 n) →
            encode_account_summaries (take j views) next = Err ProtocolError.TooLarge)
      ∨ (views = [] ∧ more = false ∧ ∃ body, encode_account_summaries [] None = Ok body ∧ o = success body)
      ∨ (views = [] ∧ more = true ∧ o = failed)
      ∨ (o = failed ∧ ∃ a l, views = a :: l ∧ ¬ view_ok false a)
  | _ => False
  end.
Proof.
  intros Ht Ho Hr. unfold encode_summary_page. destruct (is_empty views) eqn:Hv.
  - destruct views; [|done]. destruct more; [by right; right; left|].
    destruct (encode_prefix [] (Forall_nil_2 _) 0 None) as [Hf _]; [done..|]. destruct Hf as [body Hb]; [done|].
    change (take 0 []) with (@nil AccountView) in Hb. rewrite Hb. right; left. by eauto.
  - destruct (page_search_spec views offset more Ht Ho Hr (S (length views)) 1 (length views) None)
      as (k & best & Hs & Hk & Hb & Hlow & Hhigh); [lia..|intros j ?; lia|intros j ?; lia|done|].
    change (Z.of_nat 1) with 1 in Hs. fold (len views) in Hs. rewrite Hs. cbn [mbind result_bind].
    destruct k as [|k].
    + simpl in Hb. subst best. right; right; right. split; [done|]. destruct views as [|a l] eqn:Hl; [done|].
      exists a, l. split; [done|]. intros Ha. apply (Hhigh 1%nat); [simpl; lia|].
      by apply first_view_fits.
    + destruct Hb as (body & -> & Hbody). left. exists (S k), body. split_and!; [lia|lia|done|done|].
      intros j next Hj Hnext. apply encode_prefix; [done|lia|done|]. apply Hhigh. lia.
Qed.

(** C19: a page of account summaries is the longest prefix of the accounts read that
    fits a response, with the offset of the next page exactly when accounts remain;
    it is never empty when accounts were read and their fields are within limits, so
    paging makes progress; the search always ends and never fails. *)
Theorem summary_page_longest views offset more :
  Forall AccountView_typed views → u32 offset → offset + len views < 2 ^ 32 →
  match encode_summary_page views offset more with
  | Ok o =>
      (∃ k body, (1 ≤ k ≤ length views)%nat ∧ o = success body
        ∧ encode_account_summaries (take k views) (next_page views offset more k) = Ok body
        ∧ ∀ j next, (k < j ≤ length views)%nat → (∀ n, next = Some n → u32 n) →
            encode_account_summaries (take j views) next = Err ProtocolError.TooLarge)
      ∨ (views = [] ∧ more = false ∧ ∃ body, encode_account_summaries [] None = Ok body ∧ o = success body)
      ∨ (views = [] ∧ more = true ∧ o = failed)
      ∨ (o = failed ∧ ∃ a l, views = a :: l ∧ ¬ view_ok false a)
  | _ => False
  end.
Proof. apply encode_page_ends. Qed.
End properties.

Module Examples.
Import Rfc8949 Operations.Examples.

Definition views : list AccountView := [account []; account []].
Lemma summary_page_longest_witness :
  ∃ k body, encode_summary_page views 7 true = Ok (success body) ∧ (1 ≤ k ≤ 2)%nat
    ∧ encode_account_summaries (take k views) (Some (7 + Z.of_nat k)) = Ok body.
Proof.
  assert (Forall AccountView_typed views) as Ht by (repeat constructor; by apply account_typed).
  pose proof (summary_page_longest views 7 true Ht ltac:(split; reflexivity || discriminate) eq_refl) as Hp.
  destruct (encode_summary_page views 7 true) as [o|e|]; [|destruct Hp|destruct Hp].
  destruct Hp as [(k & body & Hk & -> & Hb & _)|[(Hv & _)|[(Hv & _)|(_ & a & l & Hv & Ha)]]].
  - exists k, body. split; [reflexivity|]. split; [exact Hk|exact Hb].
  - discriminate Hv.
  - discriminate Hv.
  - injection Hv as <- _. destruct Ha. repeat split; try discriminate.
Defined.
End Examples.
