(* ===== verification/Idempotency.v ===== *)
(** * Idempotent requests ([runtime.rs] of [crates/vault-agent/src])

    A request with an idempotency key is executed under a reservation of the key;
    its outcome is kept, among at most 1024 kept outcomes and reservations, and
    answers a repetition of the request.  The state is behind a mutex, so threads
    interleave whole operations: reserve, complete, abandon, and the binding to a
    vault. *)

From S2P Require Import Prelude Types Message Outcome.

Definition MAX_IDEMPOTENCY_RESULTS : Z := 1024.

Record CachedOutcome := {
  co_request_fingerprint : bytes;
  co_error : option PublicErrorCode;
  co_retry : RetryCategory;
  co_body : bytes;
}.
#[export] Instance CachedOutcome_eq_dec : EqDecision CachedOutcome.
Proof. solve_decision. Defined.

Record IdempotencyState := {
  is_authenticated_vault_id : option bytes;
  is_cached : gmap bytes CachedOutcome;
  is_insertion_order : list bytes;
  is_in_flight : gset bytes;
}.

Definition IdempotencyState_new : IdempotencyState :=
  {| is_authenticated_vault_id := None; is_cached := ∅; is_insertion_order := []; is_in_flight := ∅ |}.

Definition set_in_flight (f : gset bytes → gset bytes) (s : IdempotencyState) : IdempotencyState :=
  {| is_authenticated_vault_id := is_authenticated_vault_id s; is_cached := is_cached s;
     is_insertion_order := is_insertion_order s; is_in_flight := f (is_in_flight s) |}.

Definition set_results (cached : gmap bytes CachedOutcome) (order : list bytes) (s : IdempotencyState) :
    IdempotencyState :=
  {| is_authenticated_vault_id := is_authenticated_vault_id s; is_cached := cached;
     is_insertion_order := order; is_in_flight := is_in_flight s |}.

(** ** Operations *)

(** What the critical section of [execute_idempotent] decides. *)
Inductive Admission :=
  | Answered (outcome : ExecutionOutcome)
  | Replay (outcome : ExecutionOutcome)
  | Reserved.

Definition replayed (cached : CachedOutcome) : ExecutionOutcome :=
  {| eo_error := co_error cached; eo_retry := co_retry cached; eo_body := co_body cached;
     eo_replayed := true; eo_holds_lock_transition := false; eo_committed := false;
     eo_browser_generation := None; eo_browser_deadline := None |}.

Definition is_full (cached : gmap bytes CachedOutcome) (in_flight : gset bytes) : bool :=
  match checked_add 64 (Z.of_nat (size cached)) (Z.of_nat (size in_flight)) with
  | None => true
  | Some count => MAX_IDEMPOTENCY_RESULTS <=? count
  end.

(** The loop that evicts the oldest results; the flag says whether there is room. *)
Fixpoint make_room (order : list bytes) (cached : gmap bytes CachedOutcome) (in_flight : gset bytes) :
    bool * gmap bytes CachedOutcome * list bytes :=
  if is_full cached in_flight then
    match order with
    | [] => (false, cached, [])
    | oldest :: order => make_room order (delete oldest cached) in_flight
    end
  else (true, cached, order).

Definition reserve (key fingerprint : bytes) : stm IdempotencyState DispatchError Admission := λ s,
  match is_cached s !! key with
  | Some cached =>
      (Ok (if bool_decide (co_request_fingerprint cached ≠ fingerprint)
           then Answered (failure PublicErrorCode.Conflict Never)
           else Replay (replayed cached)), s)
  | None =>
      if bool_decide (key ∈ is_in_flight s) then (Ok (Answered busy), s)
      else
        let '(room, cached, order) := make_room (is_insertion_order s) (is_cached s) (is_in_flight s) in
        let s := set_results cached order s in
        if room then (Ok Reserved, set_in_flight (λ keys, {[key]} ∪ keys) s)
        else (Ok (Answered busy), s)
  end.

(** [IdempotencyReservation::complete]; on its errors the key is no longer in flight,
    so that dropping the reservation changes nothing more. *)
Definition complete (key : bytes) (cached : option CachedOutcome) : stm IdempotencyState DispatchError unit := λ s,
  if bool_decide (key ∈ is_in_flight s) then
    let s := set_in_flight (λ keys, keys ∖ {[key]}) s in
    match cached with
    | None => (Ok tt, s)
    | Some cached =>
        let previous := is_cached s !! key in
        let s := set_results (<[key := cached]> (is_cached s)) (is_insertion_order s) s in
        match previous with
        | Some _ => (Err DispatchInternal, s)
        | None => (Ok tt, set_results (is_cached s) (is_insertion_order s ++ [key]) s)
        end
    end
  else (Err DispatchInternal, s).

(** [Drop for IdempotencyReservation]. *)
Definition abandon (key : bytes) (s : IdempotencyState) : IdempotencyState :=
  set_in_flight (λ keys, keys ∖ {[key]}) s.

Definition forget_results (vault_id : bytes) (s : IdempotencyState) : IdempotencyState :=
  {| is_authenticated_vault_id := Some vault_id; is_cached := ∅; is_insertion_order := [];
     is_in_flight := is_in_flight s |}.

Definition initialize_idempotency_vault (vault_id : bytes) : stm IdempotencyState DispatchError unit := λ s,
  match is_authenticated_vault_id s with
  | Some current => if bool_decide (current ≠ vault_id) then (Err DispatchInternal, s) else (Ok tt, s)
  | None => (Ok tt, forget_results vault_id s)
  end.

Definition bind_authenticated_idempotency_vault (vault_id : bytes) :
    stm IdempotencyState DispatchError unit := λ s,
  if bool_decide (is_authenticated_vault_id s = Some vault_id) then (Ok tt, s)
  else if bool_decide (is_in_flight s ≠ ∅) then (Err DispatchInternal, s)
  else (Ok tt, forget_results vault_id s).

(** ** Interleavings

    The state, and the reservations that threads hold: each is completed or dropped
    once. *)

Definition Sys : Type := IdempotencyState * gset bytes.

Inductive Event :=
  | Granted (key fingerprint : bytes)
  | Refused (key fingerprint : bytes)
  | Completed (key : bytes) (cached : option CachedOutcome)
  | Abandoned (key : bytes)
  | Initialized (vault_id : bytes)
  | Bound (vault_id : bytes).

Inductive idem_step : Sys → Event → Sys → Prop :=
  | step_granted key fp s s' live :
      reserve key fp s = (Ok Reserved, s') →
      idem_step (s, live) (Granted key fp) (s', {[key]} ∪ live)
  | step_refused key fp s s' a live :
      reserve key fp s = (Ok a, s') → a ≠ Reserved → idem_step (s, live) (Refused key fp) (s', live)
  | step_completed key cached s r s' live :
      key ∈ live → complete key cached s = (r, s') →
      idem_step (s, live) (Completed key cached) (s', live ∖ {[key]})
  | step_abandoned key s live :
      key ∈ live → idem_step (s, live) (Abandoned key) (abandon key s, live ∖ {[key]})
  | step_initialized vault_id s r s' live :
      initialize_idempotency_vault vault_id s = (r, s') → idem_step (s, live) (Initialized vault_id) (s', live)
  | step_bound vault_id s r s' live :
      bind_authenticated_idempotency_vault vault_id s = (r, s') → idem_step (s, live) (Bound vault_id) (s', live).

Inductive idem_run : Sys → list Event → Sys → Prop :=
  | run_nil x : idem_run x [] x
  | run_cons x e y es z : idem_step x e y → idem_run y es z → idem_run x (e :: es) z.

Definition idem_reachable (x : Sys) : Prop := ∃ es, idem_run (IdempotencyState_new, ∅) es x.

Record Sys_wf (x : Sys) : Prop := {
  sw_live : is_in_flight x.1 = x.2;
  sw_order : NoDup (is_insertion_order x.1);
  sw_cached k : k ∈ is_insertion_order x.1 ↔ is_Some (is_cached x.1 !! k);
  sw_disjoint k : k ∈ x.2 → is_cached x.1 !! k = None;
  sw_room : Z.of_nat (size (is_cached x.1)) + Z.of_nat (size x.2) ≤ MAX_IDEMPOTENCY_RESULTS;
}.

Lemma size_order (order : list bytes) (cached : gmap bytes CachedOutcome) :
  NoDup order → (∀ k, k ∈ order ↔ is_Some (cached !! k)) → size cached = length order.
Proof.
  intros Hn Hc. rewrite <-size_dom. rewrite <-(size_list_to_set (C:=gset bytes) order) by done.
  f_equal. apply set_eq. intros k. by rewrite elem_of_dom, elem_of_list_to_set, Hc.
Qed.

Lemma is_full_total (cached : gmap bytes CachedOutcome) (in_flight : gset bytes) :
  Z.of_nat (size cached) + Z.of_nat (size in_flight) ≤ MAX_IDEMPOTENCY_RESULTS →
  is_full cached in_flight
    = bool_decide (Z.of_nat (size cached) + Z.of_nat (size in_flight) = MAX_IDEMPOTENCY_RESULTS).
Proof.
  unfold is_full, checked_add, max_of, MAX_IDEMPOTENCY_RESULTS. intros. rewrite (proj2 (Z.leb_le _ _)) by lia.
  case_bool_decide; [apply Z.leb_le|apply Z.leb_gt]; lia.
Qed.

(** At the bound, one result is evicted; below it none. *)
Lemma make_room_spec (order : list bytes) (cached : gmap bytes CachedOutcome) (in_flight : gset bytes) :
  NoDup order → (∀ k, k ∈ order ↔ is_Some (cached !! k)) →
  Z.of_nat (size cached) + Z.of_nat (size in_flight) ≤ MAX_IDEMPOTENCY_RESULTS →
  make_room order cached in_flight =
    if decide (Z.of_nat (size cached) + Z.of_nat (size in_flight) = MAX_IDEMPOTENCY_RESULTS)
    then match order with [] => (false, cached, []) | oldest :: order => (true, delete oldest cached, order) end
    else (true, cached, order).
Proof.
  intros Hn Hc Hle. pose proof (is_full_total _ _ Hle) as Hfull.
  destruct order as [|oldest order]; cbn [make_room]; rewrite Hfull; case_bool_decide as Ht; case_decide; try done.
  assert (size (delete oldest cached) = pred (size cached)) as Hsize.
  { apply map_size_delete_Some. apply Hc. by left. }
  assert (0 < size cached)%nat.
  { rewrite (size_order _ _ Hn Hc). simpl. lia. }
  destruct order as [|next order]; cbn [make_room]; rewrite is_full_total, bool_decide_false by lia; done.
Qed.

Lemma Sys_wf_new : Sys_wf (IdempotencyState_new, ∅).
Proof.
  split; simpl; [done|constructor|intros k; rewrite lookup_empty; split; [by intros ?%elem_of_nil|by intros []]|done|].
  rewrite map_size_empty. done.
Qed.

Lemma reserve_spec s live key fp :
  Sys_wf (s, live) →
  reserve key fp s =
    match is_cached s !! key with
    | Some cached =>
        (Ok (if bool_decide (co_request_fingerprint cached ≠ fp)
             then Answered (failure PublicErrorCode.Conflict Never) else Replay (replayed cached)), s)
    | None =>
        if decide (key ∈ live) then (Ok (Answered busy), s)
        else if decide (Z.of_nat (size live) = MAX_IDEMPOTENCY_RESULTS) then (Ok (Answered busy), s)
        else
          (Ok Reserved, set_in_flight (λ keys, {[key]} ∪ keys)
            (if decide (Z.of_nat (size (is_cached s)) + Z.of_nat (size live) = MAX_IDEMPOTENCY_RESULTS)
             then set_results (default ∅ (flip delete (is_cached s) <$> head (is_insertion_order s)))
               (tail (is_insertion_order s)) s
             else s))
    end.
Proof.
  intros [Hl Hn Hc _ Hr]. cbn [fst snd] in *. subst live. unfold reserve.
  destruct (is_cached s !! key) as [cached|] eqn:Hk; [done|].
  case_bool_decide as Hin; [by rewrite decide_True by done|]. rewrite decide_False by done.
  rewrite make_room_spec by done. pose proof (size_order _ _ Hn Hc) as Hsize.
  case_decide as Ht.
  - destruct (is_insertion_order s) as [|oldest order] eqn:Ho; simpl in Hsize.
    + rewrite decide_True by lia. f_equal. destruct s; simpl in *. by subst.
    + rewrite decide_False by lia. done.
  - rewrite decide_False; [by destruct s|]. intros Hfull. lia.
Qed.

Lemma forget_wf s live vault_id : Sys_wf (s, live) → Sys_wf (forget_results vault_id s, live).
Proof.
  intros [Hl _ _ _ Hr]. split; simpl in *; [done|constructor| |intros; apply lookup_empty|].
  - intros k. rewrite lookup_empty. split; [by intros ?%elem_of_nil|by intros []].
  - rewrite map_size_empty. lia.
Qed.

Lemma leave_wf s live key : Sys_wf (s, live) → Sys_wf (set_in_flight (λ keys, keys ∖ {[key]}) s, live ∖ {[key]}).
Proof.
  intros [Hl Hn Hc Hd Hr]. split; simpl in *; [by rewrite Hl|done|done|set_solver|].
  pose proof (subseteq_size (live ∖ {[key]}) live ltac:(set_solver)). lia.
Qed.

(** Dropping the oldest result, if any. *)
Lemma evict_wf s live :
  Sys_wf (s, live) → is_insertion_order s ≠ [] →
  let s' := set_results (default ∅ (flip delete (is_cached s) <$> head (is_insertion_order s)))
              (tail (is_insertion_order s)) s in
  Sys_wf (s', live) ∧ Z.of_nat (size (is_cached s')) = Z.of_nat (size (is_cached s)) - 1.
Proof.
  intros [Hl Hn Hc Hd Hr] Ho. cbn [fst snd] in *.
  destruct (is_insertion_order s) as [|oldest order] eqn:Horder; [done|]. cbn.
  apply NoDup_cons in Hn as [Hnot Hn].
  assert (is_Some (is_cached s !! oldest)) as Hold by (apply Hc; by left).
  pose proof (map_size_delete_Some _ _ Hold) as Hsize. cbn [flip].
  assert (0 < size (is_cached s))%nat.
  { apply Nat.neq_0_lt_0. intros H0%map_size_empty_inv. rewrite H0, lookup_empty in Hold. by destruct Hold. }
  split; [|cbn; lia]. split; cbn; [done|done| | |lia].
  - intros k. rewrite lookup_delete. case_decide as Hk; [subst|].
    + split; [done|by intros []].
    + rewrite <-Hc, elem_of_cons. naive_solver.
  - intros k Hk. rewrite lookup_delete. case_decide; [done|by apply Hd].
Qed.

Lemma enter_wf s live key :
  Sys_wf (s, live) → key ∉ live → is_cached s !! key = None →
  Z.of_nat (size (is_cached s)) + Z.of_nat (size live) < MAX_IDEMPOTENCY_RESULTS →
  Sys_wf (set_in_flight (λ keys, {[key]} ∪ keys) s, {[key]} ∪ live).
Proof.
  intros [Hl Hn Hc Hd Hr] Hkey Hnone Hlt. split; simpl in *; [by rewrite Hl|done|done| |].
  - intros k [->%elem_of_singleton|Hk]%elem_of_union; [done|by apply Hd].
  - rewrite size_union by set_solver. rewrite size_singleton. lia.
Qed.

Lemma insert_wf s live key c :
  Sys_wf (s, live) → key ∉ live → is_cached s !! key = None →
  Z.of_nat (size (is_cached s)) + Z.of_nat (size live) < MAX_IDEMPOTENCY_RESULTS →
  Sys_wf (set_results (<[key := c]> (is_cached s)) (is_insertion_order s ++ [key]) s, live).
Proof.
  intros [Hl Hn Hc Hd Hr] Hkey Hnone Hlt. split; simpl in *; [done| | | |].
  - apply NoDup_app. split_and!; [done| |by apply NoDup_singleton].
    intros k Hk%Hc ->%list_elem_of_singleton. rewrite Hnone in Hk. by destruct Hk.
  - intros k. rewrite elem_of_app, list_elem_of_singleton, lookup_insert. case_decide as Hk.
    + split; [by eexists|naive_solver].
    + rewrite Hc. naive_solver.
  - intros k Hk. rewrite lookup_insert. case_decide; [set_solver|by apply Hd].
  - rewrite map_size_insert_None by done. lia.
Qed.

Lemma complete_live s live key cached :
  Sys_wf (s, live) → key ∈ live →
  complete key cached s =
    (Ok tt, let s := set_in_flight (λ keys, keys ∖ {[key]}) s in
      match cached with
      | None => s
      | Some c => set_results (<[key := c]> (is_cached s)) (is_insertion_order s ++ [key]) s
      end).
Proof.
  intros [Hl _ _ Hd _] Hkey. cbn [fst snd] in *. unfold complete. rewrite bool_decide_true by (by rewrite Hl).
  destruct cached as [c|]; [|done]. cbn. by rewrite (Hd key Hkey).
Qed.

Lemma idem_step_wf x e y : Sys_wf x → idem_step x e y → Sys_wf y.
Proof.
  intros Hx Hstep. destruct Hstep as [key fp s s' live Hr|key fp s s' a live Hr Ha|key cached s r s' live Hk Hc|
    key s live Hk|vault_id s r s' live Hr|vault_id s r s' live Hr].
  - rewrite (reserve_spec s live) in Hr by done. destruct (is_cached s !! key) as [c|] eqn:Hnone;
      [by case_bool_decide|]. case_decide as Hin; [done|]. case_decide as Hfull; [done|]. injection Hr as <-.
    pose proof (sw_room _ Hx) as Hroom. cbn [fst snd] in Hroom. case_decide as Ht.
    + destruct (evict_wf s live Hx) as [He Hsize].
      { intros Ho. pose proof (size_order _ _ (sw_order _ Hx) (sw_cached _ Hx)) as Hs.
        cbn [fst snd] in Hs. rewrite Ho in Hs. simpl in Hs. lia. }
      apply enter_wf; [done|done| |cbn in *; lia]. cbn.
      destruct (is_insertion_order s); [by apply lookup_empty|]. cbn.
      apply lookup_delete_None. by right.
    + apply enter_wf; [done|done|done|lia].
  - rewrite (reserve_spec s live) in Hr by done. destruct (is_cached s !! key); [by injection Hr as _ <-|].
    case_decide; [by injection Hr as _ <-|]. case_decide; [by injection Hr as _ <-|]. by injection Hr as <- _.
  - rewrite (complete_live s live) in Hc by done. injection Hc as _ <-.
    pose proof (leave_wf s live key Hx) as Hleft. destruct cached as [c|]; [|done].
    pose proof (sw_room _ Hx) as Hroom. cbn [fst snd] in Hroom.
    apply (insert_wf (set_in_flight (λ keys, keys ∖ {[key]}) s)); [done|set_solver|by apply (sw_disjoint (s, live) Hx)|]. cbn.
    rewrite size_difference by set_solver. rewrite size_singleton.
    pose proof (subseteq_size {[key]} live ltac:(set_solver)) as Hs. rewrite size_singleton in Hs. lia.
  - by apply leave_wf.
  - unfold initialize_idempotency_vault in Hr. destruct (is_authenticated_vault_id s).
    + by case_bool_decide; injection Hr as _ <-.
    + injection Hr as _ <-. by apply forget_wf.
  - unfold bind_authenticated_idempotency_vault in Hr.
    repeat case_bool_decide; injection Hr as _ <-; [done|done|by apply forget_wf].
Qed.

Lemma idem_run_wf x es y : Sys_wf x → idem_run x es y → Sys_wf y.
Proof. intros Hx Hrun. induction Hrun as [|x e y es z Hs _ IH]; [done|]. by eapply IH, idem_step_wf. Qed.
Lemma idem_reachable_wf x : idem_reachable x → Sys_wf x.
Proof. intros [es Hrun]. by eapply idem_run_wf, Hrun; apply Sys_wf_new. Qed.

(** ** How long a result survives *)

Definition granted (e : Event) : bool := match e with Granted _ _ => true | _ => false end.
Definition grants (es : list Event) : Z := len (filter (λ e, granted e = true) es).

(** The vault is not replaced by another. *)
Definition stays (vault_id : bytes) (e : Event) : Prop :=
  match e with Bound other => other = vault_id | _ => True end.

(** The result of [key] is kept, and no more than [n] reservations and newer results
    are ahead of its eviction. *)
Definition survives (vault_id key : bytes) (c : CachedOutcome) (n : Z) (x : Sys) : Prop :=
  is_authenticated_vault_id x.1 = Some vault_id ∧ is_cached x.1 !! key = Some c
  ∧ ∃ older newer, is_insertion_order x.1 = older ++ key :: newer ∧ len newer + Z.of_nat (size x.2) ≤ n.

Lemma size_leave (live : gset bytes) key : key ∈ live → Z.of_nat (size (live ∖ {[key]})) = Z.of_nat (size live) - 1.
Proof.
  intros Hk. rewrite size_difference by set_solver. rewrite size_singleton.
  pose proof (subseteq_size {[key]} live ltac:(set_solver)) as Hs. rewrite size_singleton in Hs. lia.
Qed.

Lemma survives_step vault_id key c n x e y :
  Sys_wf x → survives vault_id key c n x → idem_step x e y → stays vault_id e →
  n + 1 < MAX_IDEMPOTENCY_RESULTS ∨ granted e = false →
  survives vault_id key c (n + if granted e then 1 else 0) y.
Proof.
  intros Hx (Hv & Hc & older & newer & Ho & Hn) Hstep Hstays Hlt.
  destruct Hstep as [key' fp s s' live Hr|key' fp s s' a live Hr Ha|key' cached s r s' live Hk Hcomp|
    key' s live Hk|id s r s' live Hr|id s r s' live Hr]; cbn [fst snd granted] in *.
  - destruct Hlt as [Hlt|]; [|done]. rewrite (reserve_spec s live) in Hr by done.
    destruct (is_cached s !! key') as [c'|] eqn:Hnone; [by case_bool_decide|].
    case_decide as Hin; [done|]. case_decide as Hfull; [done|]. injection Hr as <-.
    assert (Z.of_nat (size ({[key']} ∪ live)) = Z.of_nat (size live) + 1) as Hsize.
    { rewrite size_union, size_singleton by set_solver. lia. }
    case_decide as Ht; [|split_and!; [done|done|exists older, newer; split; [done|]; cbn; lia]].
    pose proof (size_order _ _ (sw_order _ Hx) (sw_cached _ Hx)) as Horder. cbn [fst snd] in Horder.
    rewrite Ho, length_app in Horder. simpl in Horder.
    destruct older as [|oldest older]; [unfold len, MAX_IDEMPOTENCY_RESULTS in *; simpl in *; lia|].
    split_and!; [done| |exists older, newer; split; [by cbn; rewrite Ho|]; cbn; lia].
    cbn. rewrite Ho. cbn. rewrite lookup_delete_ne; [done|].
    pose proof (sw_order _ Hx) as Hnd. cbn [fst] in Hnd. rewrite Ho in Hnd. apply NoDup_cons in Hnd as [Hnot _].
    intros ->. apply Hnot, elem_of_app. right. by left.
  - rewrite Z.add_0_r. rewrite (reserve_spec s live) in Hr by done.
    destruct (is_cached s !! key'); [injection Hr as _ <-|].
    { split_and!; [done|done|by exists older, newer]. }
    case_decide; [injection Hr as _ <-; split_and!; [done|done|by exists older, newer]|].
    case_decide; [injection Hr as _ <-; split_and!; [done|done|by exists older, newer]|]. by injection Hr as <- _.
  - rewrite (complete_live s live) in Hcomp by done. injection Hcomp as _ <-. pose proof (size_leave live key' Hk).
    rewrite Z.add_0_r. destruct cached as [c'|]; [|split_and!; [done|done|exists older, newer; split; [done|cbn [snd]; lia]]].
    split_and!; [done| |].
    + cbn [fst is_cached set_results]. rewrite lookup_insert_ne; [done|]. intros ->. pose proof (sw_disjoint _ Hx key Hk). cbn [fst] in *. congruence.
    + exists older, (newer ++ [key']). cbn [fst snd is_insertion_order set_results set_in_flight].
      split; [by rewrite Ho, <-app_assoc|]. rewrite len_app. change (len [key']) with 1. lia.
  - pose proof (size_leave live key' Hk). split_and!; [done|done|exists older, newer; split; [done|cbn [snd]; lia]].
  - rewrite Z.add_0_r. unfold initialize_idempotency_vault in Hr. rewrite Hv in Hr.
    case_bool_decide; injection Hr as _ <-; split_and!; try done; by exists older, newer.
  - rewrite Z.add_0_r. unfold bind_authenticated_idempotency_vault in Hr. simpl in Hstays. subst id.
    rewrite bool_decide_true in Hr by done. injection Hr as _ <-. split_and!; [done|done|by exists older, newer].
Qed.

Lemma grants_cons e es : grants (e :: es) = (if granted e then 1 else 0) + grants es.
Proof.
  unfold grants. rewrite filter_cons. destruct (granted e) eqn:He.
  - rewrite decide_True by done. by rewrite len_cons.
  - rewrite decide_False by congruence. lia.
Qed.

Lemma survives_run vault_id key c es : ∀ n x y,
  Sys_wf x → survives vault_id key c n x → idem_run x es y → Forall (stays vault_id) es →
  n + grants es < MAX_IDEMPOTENCY_RESULTS → survives vault_id key c (n + grants es) y.
Proof.
  induction es as [|e es IH]; intros n x y Hx Hs Hrun Hstays Hlt; inversion Hrun; subst.
  { by rewrite Z.add_0_r. }
  apply Forall_cons in Hstays as [He Hes]. rewrite grants_cons in *.
  assert (0 ≤ grants es) by apply len_nonneg.
  rewrite Z.add_assoc. eapply IH; [by eapply idem_step_wf| |done|done|lia].
  eapply survives_step; [done|done|done|done|]. destruct (granted e); [left; lia|by right].
Qed.

Lemma complete_survives vault_id key c s live s' :
  Sys_wf (s, live) → key ∈ live → is_authenticated_vault_id s = Some vault_id →
  complete key (Some c) s = (Ok tt, s') →
  survives vault_id key c (Z.of_nat (size live) - 1) (s', live ∖ {[key]}).
Proof.
  intros Hx Hk Hv Hc. rewrite (complete_live s live) in Hc by done. injection Hc as <-.
  split_and!; [done|by cbn; rewrite lookup_insert_eq|]. exists (is_insertion_order s), [].
  split; [done|]. rewrite len_nil. cbn. rewrite size_leave by done. lia.
Qed.

(** ** Properties *)


(** C18: a result is replayed, not computed again: after a request has completed with a
    cacheable outcome, and as long as fewer than 1024 requests were or have since been
    admitted under another key (and the vault is not replaced), a repetition of it is
    answered with that outcome, and another request under its key with a conflict. *)
Theorem replay_survives (s s' s'' : IdempotencyState) (live live'' : gset bytes) vault_id key c events fp :
  idem_reachable (s, live) → key ∈ live → is_authenticated_vault_id s = Some vault_id →
  complete key (Some c) s = (Ok tt, s') →
  idem_run (s', live ∖ {[key]}) events (s'', live'') → Forall (stays vault_id) events →
  Z.of_nat (size live) - 1 + grants events < MAX_IDEMPOTENCY_RESULTS →
  reserve key fp s'' =
    (Ok (if bool_decide (co_request_fingerprint c = fp) then Replay (replayed c)
         else Answered (failure PublicErrorCode.Conflict Never)), s'').
Proof.
  intros Hx%idem_reachable_wf Hk Hv Hc Hrun Hstays Hlt.
  assert (Sys_wf (s', live ∖ {[key]})) as Hx' by (by eapply idem_step_wf, step_completed).
  pose proof (complete_survives _ _ _ _ _ _ Hx Hk Hv Hc) as Hs.
  destruct (survives_run _ _ _ _ _ _ _ Hx' Hs Hrun Hstays Hlt) as (_ & Hcached & _). cbn [fst] in Hcached.
  unfold reserve. rewrite Hcached. by repeat case_bool_decide.
Qed.

Module Examples.

Definition vault : bytes := replicate 16 x01.
Definition key1 : bytes := replicate 16 x02.
Definition key2 : bytes := replicate 16 x03.
Definition fingerprint : bytes := replicate 32 x04.
Definition result1 : CachedOutcome :=
  {| co_request_fingerprint := fingerprint; co_error := None; co_retry := Never; co_body := [x05] |}.

Definition s0 : IdempotencyState := (bind_authenticated_idempotency_vault vault IdempotencyState_new).2.
Definition s1 : IdempotencyState := (reserve key1 fingerprint s0).2.
Definition s2 : IdempotencyState := (complete key1 (Some result1) s1).2.
Definition s3 : IdempotencyState := (reserve key2 fingerprint s2).2.

Lemma bound : idem_step (IdempotencyState_new, ∅) (Bound vault) (s0, ∅).
Proof. apply (step_bound _ _ (Ok tt)). vm_compute. reflexivity. Qed.
Lemma granted1 : idem_step (s0, ∅) (Granted key1 fingerprint) (s1, {[key1]} ∪ ∅).
Proof. apply step_granted. vm_compute. reflexivity. Qed.
Lemma granted2 : idem_step (s2, ({[key1]} ∪ ∅) ∖ {[key1]}) (Granted key2 fingerprint)
  (s3, {[key2]} ∪ ({[key1]} ∪ ∅) ∖ {[key1]}).
Proof. apply step_granted. vm_compute. reflexivity. Qed.
Lemma reached : idem_reachable (s1, {[key1]} ∪ ∅).
Proof. eexists. eapply run_cons; [exact bound|]. eapply run_cons; [exact granted1|apply run_nil]. Qed.


Lemma replay_survives_witness : reserve key1 fingerprint s3 = (Ok (Replay (replayed result1)), s3).
Proof.
  refine (replay_survives s1 s2 s3 ({[key1]} ∪ ∅) ({[key2]} ∪ ({[key1]} ∪ ∅) ∖ {[key1]}) vault key1 result1
    [Granted key2 fingerprint] fingerprint reached _ _ _ _ _ _).
  - apply elem_of_union. left. by apply elem_of_singleton.
  - vm_compute. reflexivity.
  - vm_compute. reflexivity.
  - eapply run_cons; [exact granted2|apply run_nil].
  - by repeat constructor.
  - vm_compute. reflexivity.
Defined.
End Examples.
