(* ===== verification/Ownership.v ===== *)
(** * Which runtime owns which files ([runtime.rs] of [crates/vault-agent/src])

    A process-wide registry behind a mutex lists, for the token of each runtime, its
    vault file and its Windows Hello state file, by normalized path and by the
    identity of the file when it exists.  Threads interleave whole uses of the
    registry.  What the file system answers is a parameter. *)

From S2P Require Import Prelude RustStd Agent Outcome.

Inductive RuntimeStartError := InvalidVaultPath | InvalidLocalStatePath | AlreadyOwned | StartInternal.
#[export] Instance RuntimeStartError_eq_dec : EqDecision RuntimeStartError.
Proof. solve_decision. Defined.

Record FileIdentity := { fi_volume : Z; fi_file : Z }.
#[export] Instance FileIdentity_eq_dec : EqDecision FileIdentity.
Proof. solve_decision. Defined.

Record OwnershipRecord := { or_normalized_path : bytes; or_identity : option FileIdentity }.
#[export] Instance OwnershipRecord_eq_dec : EqDecision OwnershipRecord.
Proof. solve_decision. Defined.

Record RuntimeOwnership := { ro_vault : OwnershipRecord; ro_windows_hello_state : option OwnershipRecord }.
#[export] Instance RuntimeOwnership_eq_dec : EqDecision RuntimeOwnership.
Proof. solve_decision. Defined.

Abbreviation Registry := (gmap Z RuntimeOwnership).

(** ** The file system *)

Inductive FsError := FsNotFound | FsOther.
Class PathInspection (W : Type) := {
  fs_is_file : bytes → stm W FsError bool;
  fs_symlink_exists : bytes → stm W FsError unit;
  canonicalize : bytes → stm W unit bytes;
  path_parent : bytes → option bytes;
  path_file_name : bytes → option bytes;
  path_into_string : bytes → option bytes;
  to_lowercase : bytes → bytes;
  same_file_handle : bytes → stm W unit FileIdentity;
}.

(** [normalize_ownership_path] and [file_identity] as they are on Windows. *)
Definition normalize_ownership_path `{PathInspection W} (path : bytes) : result RuntimeStartError bytes :=
  path ← ok_or (path_into_string path) InvalidVaultPath;
  mret (to_lowercase path).
Definition file_identity_of `{PathInspection W} (path : bytes) : stm W RuntimeStartError FileIdentity :=
  map_err_st (λ _, InvalidVaultPath) (same_file_handle path).

Definition ownership_record `{PathInspection W, Host W} (path : bytes) :
    stm W RuntimeStartError OwnershipRecord := λ w,
  let '(metadata, w) := fs_is_file path w in
  match metadata with
  | Ok is_file =>
      (guard_st (negb is_file) InvalidVaultPath;;
       normalized_path ← map_err_st (λ _, InvalidVaultPath) (canonicalize path);
       normalized_path ← of_result (normalize_ownership_path normalized_path);
       identity ← file_identity_of path;
       mret {| or_normalized_path := normalized_path; or_identity := Some identity |}) w
  | Err FsNotFound =>
      let '(link, w) := fs_symlink_exists path w in
      (guard_st (is_ok link) InvalidVaultPath;;
       parent ← of_result (ok_or (path_parent path) InvalidVaultPath);
       name ← of_result (ok_or (path_file_name path) InvalidVaultPath);
       parent ← map_err_st (λ _, InvalidVaultPath) (canonicalize parent);
       normalized_path ← of_result (normalize_ownership_path (path_join parent name));
       mret {| or_normalized_path := normalized_path; or_identity := None |}) w
  | Err FsOther => (Err InvalidVaultPath, w)
  | Panic => (Panic, w)
  end.

(** ** Conflicts *)

Definition same_identity (a b : option FileIdentity) : bool :=
  match a, b with Some x, Some y => bool_decide (x = y) | _, _ => false end.

Definition OwnershipRecord_conflicts_with (a b : OwnershipRecord) : bool :=
  bool_decide (or_normalized_path a = or_normalized_path b) || same_identity (or_identity a) (or_identity b).

Definition is_same_existing_target (a b : OwnershipRecord) : bool :=
  bool_decide (or_normalized_path a = or_normalized_path b) && same_identity (or_identity a) (or_identity b).

Definition RuntimeOwnership_conflicts_with (o : RuntimeOwnership) (record : OwnershipRecord) : bool :=
  OwnershipRecord_conflicts_with (ro_vault o) record
  || from_option (λ state, OwnershipRecord_conflicts_with state record) false (ro_windows_hello_state o).

(** [registry.iter().any(..)] over the runtimes with other tokens. *)
Definition owned_by_another (token : Z) (record : OwnershipRecord) (registry : Registry) : bool :=
  bool_decide (map_Exists (λ t existing, t ≠ token ∧ RuntimeOwnership_conflicts_with existing record = true) registry).

(** ** Uses of the registry *)

(** [next_ownership_token]: the token before the counter was advanced. *)
Definition next_ownership_token : stm Z RuntimeStartError Z := λ next,
  match checked_add 64 next 1 with
  | Some next' => (Ok next, next')
  | None => (Err StartInternal, next)
  end.

(** The claim of a new runtime ([start_with_components_and_state_path]). *)
Definition claim (token : Z) (vault : OwnershipRecord) (state : option OwnershipRecord) :
    stm Registry RuntimeStartError unit :=
  guard_st (from_option (λ state, OwnershipRecord_conflicts_with state vault) false state) InvalidLocalStatePath;;
  registry ← get;
  guard_st (bool_decide (map_Exists (λ _ existing,
      RuntimeOwnership_conflicts_with existing vault
      || from_option (RuntimeOwnership_conflicts_with existing) false state) registry)) AlreadyOwned;;
  modify (<[token := {| ro_vault := vault; ro_windows_hello_state := state |}]>).

Definition set_vault (record : OwnershipRecord) (o : RuntimeOwnership) : RuntimeOwnership :=
  {| ro_vault := record; ro_windows_hello_state := ro_windows_hello_state o |}.

Definition bind_existing (token : Z) (record : result RuntimeStartError OwnershipRecord) :
    stm Registry DispatchError unit :=
  record ← of_result (map_err (λ _, DispatchInternal) record);
  registry ← get;
  guard_st (bool_decide (or_identity record = None) || owned_by_another token record registry) DispatchInternal;;
  current ← of_result (ok_or (registry !! token) DispatchInternal);
  guard_st (bool_decide (or_normalized_path (ro_vault current) ≠ or_normalized_path record)) DispatchInternal;;
  modify (<[token := set_vault record current]>).

Definition bind_windows_hello_state (token : Z) (record : result RuntimeStartError OwnershipRecord) :
    stm Registry DispatchError unit :=
  record ← of_result (map_err (λ _, DispatchInternal) record);
  registry ← get;
  guard_st (owned_by_another token record registry) DispatchInternal;;
  current ← of_result (ok_or (registry !! token) DispatchInternal);
  guard_st (OwnershipRecord_conflicts_with (ro_vault current) record) DispatchInternal;;
  state ← of_result (ok_or (ro_windows_hello_state current) DispatchInternal);
  guard_st (bool_decide (or_normalized_path state ≠ or_normalized_path record)) DispatchInternal;;
  modify (<[token := {| ro_vault := ro_vault current; ro_windows_hello_state := Some record |}]>).

(** [bind_authenticated]: the checks before the vault is bound, and the update after. *)
Definition check_authenticated (token : Z) (current : result RuntimeStartError OwnershipRecord)
    (authenticated : OwnershipRecord) (registry : Registry) :
    result DispatchError (OwnershipRecord * RuntimeOwnership) :=
  current ← map_err (λ _, DispatchInternal) current;
  fail_if (negb (is_same_existing_target authenticated current)) DispatchInternal;;
  fail_if (owned_by_another token current registry) DispatchInternal;;
  leased ← ok_or (registry !! token) DispatchInternal;
  fail_if (bool_decide (or_normalized_path (ro_vault leased) ≠ or_normalized_path current)) DispatchInternal;;
  mret (current, leased).

Definition bind_authenticated (token : Z) (current : result RuntimeStartError OwnershipRecord)
    (authenticated : OwnershipRecord) : stm Registry DispatchError unit :=
  registry ← get;
  bound ← of_result (check_authenticated token current authenticated registry);
  modify (<[token := set_vault bound.1 bound.2]>).

(** [Drop for OwnershipLease]. *)
Definition release (token : Z) : Registry → Registry := delete token.

(** ** Interleavings *)

Inductive own_step : Z * Registry → Z * Registry → Prop :=
  | own_started next next' token vault state (r r' : Registry) :
      next_ownership_token next = (Ok token, next') →
      claim token vault state r = (Ok tt, r') → own_step (next, r) (next', r')
  | own_refused next next' token vault state (r r' : Registry) e :
      next_ownership_token next = (Ok token, next') →
      claim token vault state r = (Err e, r') → own_step (next, r) (next', r')
  | own_exhausted next next' (r : Registry) e :
      next_ownership_token next = (Err e, next') → own_step (next, r) (next', r)
  | own_bound next token record (r r' : Registry) o :
      bind_existing token record r = (o, r') → own_step (next, r) (next, r')
  | own_state_bound next token record (r r' : Registry) o :
      bind_windows_hello_state token record r = (o, r') → own_step (next, r) (next, r')
  | own_authenticated next token current authenticated (r r' : Registry) o :
      bind_authenticated token current authenticated r = (o, r') → own_step (next, r) (next, r')
  | own_released next token (r : Registry) : own_step (next, r) (next, release token r).

Definition own_reachable (s : Z * Registry) : Prop := rtc own_step (1, ∅) s.

(** ** Exclusive ownership *)

Definition records (o : RuntimeOwnership) : list OwnershipRecord :=
  ro_vault o :: from_option (λ s, [s]) [] (ro_windows_hello_state o).

Lemma same_identity_sym a b : same_identity a b = same_identity b a.
Proof. destruct a, b; simpl; try done. by apply bool_decide_ext. Qed.
Lemma conflicts_sym a b : OwnershipRecord_conflicts_with a b = OwnershipRecord_conflicts_with b a.
Proof. unfold OwnershipRecord_conflicts_with. rewrite same_identity_sym. f_equal. by apply bool_decide_ext. Qed.

Lemma ownership_conflicts o record :
  RuntimeOwnership_conflicts_with o record = true ↔
    ∃ x, x ∈ records o ∧ OwnershipRecord_conflicts_with x record = true.
Proof.
  unfold RuntimeOwnership_conflicts_with, records. rewrite orb_true_iff.
  destruct (ro_windows_hello_state o) as [s|]; simpl; set_solver.
Qed.

(** No two runtimes own the same path or the same file. *)
Record owners_wf (s : Z * Registry) : Prop := {
  ow_fresh t : is_Some (s.2 !! t) → 1 ≤ t < s.1;
  ow_next : 1 ≤ s.1 < 2 ^ 64;
  ow_exclusive t1 t2 o1 o2 x1 x2 : t1 ≠ t2 → s.2 !! t1 = Some o1 → s.2 !! t2 = Some o2 →
    x1 ∈ records o1 → x2 ∈ records o2 → OwnershipRecord_conflicts_with x1 x2 = false;
}.

Lemma owners_insert next (r : Registry) token o :
  owners_wf (next, r) → 1 ≤ token < next →
  (∀ x t o', x ∈ records o → t ≠ token → r !! t = Some o' → RuntimeOwnership_conflicts_with o' x = false) →
  owners_wf (next, <[token := o]> r).
Proof.
  intros [Hf Hn He] Ht Ho. simpl in *.
  assert (∀ t o' x x', t ≠ token → r !! t = Some o' → x ∈ records o → x' ∈ records o' →
    OwnershipRecord_conflicts_with x' x = false) as Hout.
  { intros t o' x x' Hne Hr Hx Hx'. specialize (Ho x t o' Hx Hne Hr). apply not_true_iff_false. intros Hc.
    apply not_true_iff_false in Ho. apply Ho, ownership_conflicts. by exists x'. }
  split; simpl; [|done|].
  - intros t. destruct (decide (t = token)) as [->|]; [by intros|]. rewrite lookup_insert_ne by done. auto.
  - intros t1 t2 o1 o2 x1 x2 Hne. destruct (decide (t1 = token)) as [->|]; destruct (decide (t2 = token)) as [->|];
      rewrite ?lookup_insert_eq, ?lookup_insert_ne by done; intros H1 H2; simplify_eq; intros Hx1 Hx2; [|by eauto..].
    rewrite conflicts_sym. by eapply Hout.
Qed.

Lemma not_owned_by_another token record (r : Registry) t o :
  owned_by_another token record r = false → t ≠ token → r !! t = Some o →
  RuntimeOwnership_conflicts_with o record = false.
Proof.
  intros Hn Hne Hr. apply bool_decide_eq_false in Hn. apply not_true_iff_false. intros Hc. apply Hn. by exists t, o.
Qed.

Lemma claim_wf next token vault state (r r' : Registry) :
  owners_wf (next, r) → 1 ≤ token < next → claim token vault state r = (Ok tt, r') → owners_wf (next, r').
Proof.
  intros Hwf Ht. unfold claim, guard_st, fail_after, get, modify, mbind, stm_bind.
  destruct (from_option _ _ state); [done|]. case_bool_decide as Hc; [done|]. intros [= <-].
  apply owners_insert; [done|done|]. intros x t o' Hx _ Hr. apply not_true_iff_false. intros Hco. apply Hc.
  exists t, o'. split; [done|]. apply Is_true_true, orb_true_iff. unfold records in Hx. simpl in Hx.
  apply elem_of_cons in Hx as [->|Hx]; [by left|right].
  destruct state as [s|]; simpl in *; [|by apply elem_of_nil in Hx]. by apply list_elem_of_singleton in Hx as ->.
Qed.

(** A vault or a state file of [token] is replaced by a record that no other runtime owns. *)
Lemma rebind_wf next token (r : Registry) o record o' :
  owners_wf (next, r) → r !! token = Some o → owned_by_another token record r = false →
  (∀ x, x ∈ records o' → x = record ∨ x ∈ records o) → owners_wf (next, <[token := o']> r).
Proof.
  intros Hwf Ho Hn Hx'. apply owners_insert; [done|exact (ow_fresh _ Hwf token (mk_is_Some _ _ Ho))|].
  intros x t o2 [->|Hx]%Hx' Hne Hr; [by eapply not_owned_by_another|].
  apply not_true_iff_false. intros (y & Hy & Hc)%ownership_conflicts.
  by rewrite (ow_exclusive _ Hwf t token o2 o y x Hne Hr Ho Hy Hx) in Hc.
Qed.

Lemma set_vault_records record o x : x ∈ records (set_vault record o) → x = record ∨ x ∈ records o.
Proof. unfold records. simpl. rewrite !elem_of_cons. tauto. Qed.

Lemma bind_existing_wf next token record (r r' : Registry) res :
  owners_wf (next, r) → bind_existing token record r = (res, r') → owners_wf (next, r').
Proof.
  intros Hwf. unfold bind_existing, guard_st, fail_after, get, modify, of_result, mbind, stm_bind.
  destruct record as [record|e|]; simpl; [|by intros [= _ <-]..].
  destruct (_ || _) eqn:Hg; [by intros [= _ <-]|]. apply orb_false_iff in Hg as [_ Hg].
  destruct (r !! token) as [o|] eqn:Ho; simpl; [|by intros [= _ <-]].
  case_bool_decide; intros [= _ <-]; [done|]. eapply rebind_wf; [done..|]. apply set_vault_records.
Qed.

Lemma bind_state_wf next token record (r r' : Registry) res :
  owners_wf (next, r) → bind_windows_hello_state token record r = (res, r') → owners_wf (next, r').
Proof.
  intros Hwf. unfold bind_windows_hello_state, guard_st, fail_after, get, modify, of_result, mbind, stm_bind.
  destruct record as [record|e|]; simpl; [|by intros [= _ <-]..].
  destruct (owned_by_another _ _ _) eqn:Hg; [by intros [= _ <-]|].
  destruct (r !! token) as [o|] eqn:Ho; simpl; [|by intros [= _ <-]].
  destruct (OwnershipRecord_conflicts_with _ _); [by intros [= _ <-]|].
  destruct (ro_windows_hello_state o) as [s|] eqn:Hs; simpl; [|by intros [= _ <-]].
  case_bool_decide; intros [= _ <-]; [done|]. eapply rebind_wf; [done..|].
  intros x. unfold records. simpl. rewrite Hs. simpl. set_solver.
Qed.

Lemma check_authenticated_Ok token current authenticated (r : Registry) bound :
  check_authenticated token current authenticated r = Ok bound →
  current = Ok bound.1 ∧ is_same_existing_target authenticated bound.1 = true
  ∧ owned_by_another token bound.1 r = false ∧ r !! token = Some bound.2
  ∧ or_normalized_path (ro_vault bound.2) = or_normalized_path bound.1.
Proof.
  unfold check_authenticated. destruct current as [current|e|]; [|done..]. cbn [map_err].
  intros Hb. inv_ok Hb. simp_guards. cbn [fst snd]. destruct (r !! token) eqn:Hr; simplify_eq/=. by split_and!.
Qed.

Lemma bind_authenticated_wf next token current authenticated (r r' : Registry) res :
  owners_wf (next, r) → bind_authenticated token current authenticated r = (res, r') → owners_wf (next, r').
Proof.
  intros Hwf. unfold bind_authenticated, get, modify, of_result, mbind, stm_bind.
  destruct (check_authenticated _ _ _ _) as [bound|e|] eqn:Hb; intros [= _ <-]; [|done..].
  apply check_authenticated_Ok in Hb as (_ & _ & Ho & Hl & _). eapply rebind_wf; [done..|]. apply set_vault_records.
Qed.

Lemma next_token_spec next token next' :
  next_ownership_token next = (Ok token, next') → token = next ∧ next' = next + 1 ∧ next + 1 < 2 ^ 64.
Proof.
  unfold next_ownership_token. destruct (checked_add 64 next 1) eqn:Ha; intros [= <- <-].
  by apply checked_add_Some in Ha as [-> ?].
Qed.

Lemma owners_next next (r : Registry) : owners_wf (next, r) → next + 1 < 2 ^ 64 → owners_wf (next + 1, r).
Proof. intros [Hf Hn He] ?. split; simpl in *; [intros t ?%Hf; lia|lia|done]. Qed.

Lemma own_step_wf s s' : own_step s s' → owners_wf s → owners_wf s'.
Proof.
  destruct 1 as [next next' token vault state r r' (-> & -> & ?)%next_token_spec Hc
    |next next' token vault state r r' e (-> & -> & ?)%next_token_spec Hc
    |next next' r e Hn|next token record r r' o Hb|next token record r r' o Hb|next token cur auth r r' o Hb|next token r]; intros Hwf.
  - eapply claim_wf; [by apply owners_next| |done]. destruct (ow_next _ Hwf). simpl in *. lia.
  - assert (r' = r) as ->; [|by apply owners_next].
    unfold claim, guard_st, fail_after, get, modify, mbind, stm_bind in Hc. repeat case_match; by simplify_eq.
  - unfold next_ownership_token in Hn. destruct (checked_add _ _ _); by simplify_eq.
  - by eapply bind_existing_wf.
  - by eapply bind_state_wf.
  - by eapply bind_authenticated_wf.
  - unfold release. destruct Hwf as [Hf Hn He]. split; simpl in *.
    + intros t Ht. apply Hf. destruct Ht as [o [_ Ht]%lookup_delete_Some]. by exists o.
    + done.
    + intros t1 t2 o1 o2 x1 x2 ? [_ ?]%lookup_delete_Some [_ ?]%lookup_delete_Some. by eapply He.
Qed.

Lemma own_rtc_wf s s' : rtc own_step s s' → owners_wf s → owners_wf s'.
Proof. induction 1; [done|]. intros Hs. eauto using own_step_wf. Qed.

(** ** Properties *)

(** C16: however threads interleave starting runtimes, binding their vaults and Windows
    Hello files and dropping them, with whatever the file system answers, no two
    runtimes ever own the same path or the same existing file, and no token is given
    out twice: every token in use is below the counter. *)
Theorem ownership_exclusive next (r : Registry) :
  own_reachable (next, r) →
  (∀ t1 t2 o1 o2 x1 x2, t1 ≠ t2 → r !! t1 = Some o1 → r !! t2 = Some o2 → x1 ∈ records o1 → x2 ∈ records o2 →
    or_normalized_path x1 ≠ or_normalized_path x2
    ∧ (∀ i, or_identity x1 = Some i → or_identity x2 ≠ Some i))
  ∧ (∀ t, is_Some (r !! t) → 1 ≤ t < next)
  ∧ (∀ token next', next_ownership_token next = (Ok token, next') → r !! token = None ∧ next < next').
Proof.
  intros Hr. assert (owners_wf (next, r)) as [Hf Hn He].
  { assert (owners_wf (1, ∅)) as Hstart; [|by eapply own_rtc_wf].
    split; simpl; [intros t [o Ho]; by rewrite lookup_empty in Ho|done|intros ? ? ? ? ? ? _ Ho; by rewrite lookup_empty in Ho]. }
  split_and!; [|done|].
  - intros t1 t2 o1 o2 x1 x2 Hne H1 H2 Hx1 Hx2. pose proof (He _ _ _ _ _ _ Hne H1 H2 Hx1 Hx2) as Hc.
    unfold OwnershipRecord_conflicts_with in Hc. apply orb_false_iff in Hc as [Hp Hi]. simp_guards.
    split; [done|]. intros i Hi1 Hi2. rewrite Hi1, Hi2 in Hi. simpl in Hi. by simp_guards.
  - intros token next' (-> & -> & _)%next_token_spec. split; [|lia].
    apply eq_None_not_Some. intros Ht%Hf. simpl in *. lia.
Qed.

Module Examples.
Definition vault (name : bytes) (i : Z) : OwnershipRecord :=
  {| or_normalized_path := name; or_identity := Some {| fi_volume := 1; fi_file := i |} |}.
Definition after : Registry :=
  {[ 1 := {| ro_vault := vault (str "a") 1; ro_windows_hello_state := None |};
     2 := {| ro_vault := vault (str "b") 2; ro_windows_hello_state := None |} ]}.

Lemma after_reachable : own_reachable (3, after).
Proof.
  unfold own_reachable.
  apply (rtc_l _ _ (2, {[1 := {| ro_vault := vault (str "a") 1; ro_windows_hello_state := None |}]})).
  - by apply (own_started 1 2 1 (vault (str "a") 1) None ∅).
  - apply rtc_once. by apply (own_started 2 3 2 (vault (str "b") 2) None).
Qed.
Lemma ownership_exclusive_witness : own_reachable (3, after) ∧ after !! 3 = None.
Proof.
  split; [exact after_reachable|].
  exact (proj1 (proj2 (proj2 (ownership_exclusive 3 after after_reachable)) 3 4 eq_refl)).
Defined.
End Examples.
