(* ===== verification/Threads.v ===== *)
(** * State shared by the threads of the agent ([runtime.rs] of
    [crates/vault-agent/src])

    The runtime serves each request on a thread of its own.  Its state is atomics and
    data behind mutexes; [others] is what the other threads did before a step of this
    one.  The guards and permits this thread holds are part of the state. *)

From S2P Require Import Prelude Types Message Session Browser VaultStore Storage Agent Outcome Idempotency Ownership.

(** ** Data *)

Record RequestKey := { rk_connection_id : bytes; rk_request_id : Z }.
#[export] Instance RequestKey_eq_dec : EqDecision RequestKey.
Proof. solve_decision. Defined.
#[export] Instance RequestKey_countable : Countable RequestKey.
Proof.
  apply (inj_countable' (λ k, (rk_connection_id k, rk_request_id k))
    (λ p, {| rk_connection_id := p.1; rk_request_id := p.2 |})). by intros [].
Defined.

Record PendingPasskeyCreationKey := { pk_connection_id : bytes; pk_transaction_id : bytes }.
#[export] Instance PendingPasskeyCreationKey_eq_dec : EqDecision PendingPasskeyCreationKey.
Proof. solve_decision. Defined.
#[export] Instance PendingPasskeyCreationKey_countable : Countable PendingPasskeyCreationKey.
Proof.
  apply (inj_countable' (λ k, (pk_connection_id k, pk_transaction_id k))
    (λ p, {| pk_connection_id := p.1; pk_transaction_id := p.2 |})). by intros [].
Defined.

Record PendingPasskeyCreation := {
  pp_credential_id : bytes;
  pp_authenticated_process_id : Z;
  pp_unlock_epoch : Z;
  pp_confirmed : bool;
  pp_disconnected : bool;
}.
#[export] Instance PendingPasskeyCreation_eq_dec : EqDecision PendingPasskeyCreation.
Proof. solve_decision. Defined.

Record BrowserLease := {
  bl_context : BrowserContext;
  bl_selection : BrowserSelection;
  bl_epoch : Z;
  bl_accounts_generation : Z;
  bl_expires : Z;
}.
#[export] Instance BrowserLease_eq_dec : EqDecision BrowserLease.
Proof. solve_decision. Defined.

(** An [Arc<CancellationFlag>] is the index of its flag. *)
Record RequestRegistration := { rr_key : RequestKey; rr_cancellation : nat }.

Record Coordinator := {
  cd_epoch : Z;
  cd_global_in_flight : Z;
  cd_kdf_active : bool;
  cd_mutation_active : bool;
  cd_lock_active : bool;
  cd_cancellations : gmap RequestKey nat;
}.

Definition Coordinator_new : Coordinator :=
  {| cd_epoch := 1; cd_global_in_flight := 0; cd_kdf_active := false; cd_mutation_active := false;
     cd_lock_active := false; cd_cancellations := ∅ |}.

(** The vault, an agent, is in [Process]. *)
Record AgentRuntime := {
  rt_state : Z;
  rt_coordinator : Coordinator;
  rt_idempotency : IdempotencyState;
  rt_browser_leases : gmap bytes (option BrowserLease);
  rt_accounts_generation : Z;
  rt_pending_passkey_creations : gmap PendingPasskeyCreationKey PendingPasskeyCreation;
  rt_windows_hello_active : bool;
}.

Inductive MutexName :=
  | CreationGate | CommitGate | CancellationsMutex | VaultMutex | IdempotencyMutex
  | BrowserLeasesMutex | PendingPasskeysMutex | PasskeyCleanupGate | WindowsHelloGate
  | OwnedVaultsMutex.
#[export] Instance MutexName_eq_dec : EqDecision MutexName.
Proof. solve_decision. Defined.
#[export] Instance MutexName_countable : Countable MutexName.
Proof.
  apply (inj_countable' (λ m, match m with
    | CreationGate => 0 | CommitGate => 1 | CancellationsMutex => 2 | VaultMutex => 3
    | IdempotencyMutex => 4 | BrowserLeasesMutex => 5 | PendingPasskeysMutex => 6
    | PasskeyCleanupGate => 7 | WindowsHelloGate => 8 | OwnedVaultsMutex => 9 end%nat)
    (λ n, match n with
    | 0 => CreationGate | 1 => CommitGate | 2 => CancellationsMutex | 3 => VaultMutex
    | 4 => IdempotencyMutex | 5 => BrowserLeasesMutex | 6 => PendingPasskeysMutex
    | 7 => PasskeyCleanupGate | 8 => WindowsHelloGate | _ => OwnedVaultsMutex end%nat)). by intros [].
Defined.

(** The flags for which there are permits: those of the coordinator, and
    [windows_hello_active] of the runtime. *)
Inductive FlagName := KdfFlag | MutationFlag | LockFlag | HelloFlag.
#[export] Instance FlagName_eq_dec : EqDecision FlagName.
Proof. solve_decision. Defined.
#[export] Instance FlagName_countable : Countable FlagName.
Proof.
  apply (inj_countable' (λ f, match f with KdfFlag => 0 | MutationFlag => 1 | LockFlag => 2 | HelloFlag => 3 end%nat)
    (λ n, match n with 0 => KdfFlag | 1 => MutationFlag | 2 => LockFlag | _ => HelloFlag end%nat)). by intros [].
Defined.

(** The runtime; the cancellation flags that were allocated; which files the runtimes of
    the process own; the mutexes that are poisoned; the local variable of this thread
    that a closure assigns ([authenticated_ownership]); and what this thread holds: guards of mutexes and permits of flags. *)
Record Shared := {
  sh_runtime : AgentRuntime;
  sh_flags : list bool;
  sh_owned : Registry;
  sh_authenticated_ownership : option OwnershipRecord;
  sh_poisoned : gset MutexName;
  sh_held : gset MutexName;
  sh_permits : gset FlagName;
}.

(** ** Fields *)

Definition coordinator (s : Shared) : Coordinator := rt_coordinator (sh_runtime s).
Definition set_runtime (f : AgentRuntime → AgentRuntime) (s : Shared) : Shared :=
  {| sh_runtime := f (sh_runtime s); sh_flags := sh_flags s; sh_owned := sh_owned s;
     sh_authenticated_ownership := sh_authenticated_ownership s; sh_poisoned := sh_poisoned s;
     sh_held := sh_held s; sh_permits := sh_permits s |}.
Definition set_flags (f : list bool → list bool) (s : Shared) : Shared :=
  {| sh_runtime := sh_runtime s; sh_flags := f (sh_flags s); sh_owned := sh_owned s;
     sh_authenticated_ownership := sh_authenticated_ownership s; sh_poisoned := sh_poisoned s;
     sh_held := sh_held s; sh_permits := sh_permits s |}.
Definition set_owned (f : Registry → Registry) (s : Shared) : Shared :=
  {| sh_runtime := sh_runtime s; sh_flags := sh_flags s; sh_owned := f (sh_owned s);
     sh_authenticated_ownership := sh_authenticated_ownership s; sh_poisoned := sh_poisoned s; sh_held := sh_held s; sh_permits := sh_permits s |}.
Definition set_authenticated_ownership (o : option OwnershipRecord) (s : Shared) : Shared :=
  {| sh_runtime := sh_runtime s; sh_flags := sh_flags s; sh_owned := sh_owned s;
     sh_authenticated_ownership := o; sh_poisoned := sh_poisoned s; sh_held := sh_held s;
     sh_permits := sh_permits s |}.
Definition set_held (f : gset MutexName → gset MutexName) (s : Shared) : Shared :=
  {| sh_runtime := sh_runtime s; sh_flags := sh_flags s; sh_owned := sh_owned s;
     sh_authenticated_ownership := sh_authenticated_ownership s; sh_poisoned := sh_poisoned s;
     sh_held := f (sh_held s); sh_permits := sh_permits s |}.
Definition set_permits (f : gset FlagName → gset FlagName) (s : Shared) : Shared :=
  {| sh_runtime := sh_runtime s; sh_flags := sh_flags s; sh_owned := sh_owned s;
     sh_authenticated_ownership := sh_authenticated_ownership s; sh_poisoned := sh_poisoned s;
     sh_held := sh_held s; sh_permits := f (sh_permits s) |}.

Definition set_rt_state (state : Z) : Shared → Shared := set_runtime (λ r,
  {| rt_state := state; rt_coordinator := rt_coordinator r; rt_idempotency := rt_idempotency r;
     rt_browser_leases := rt_browser_leases r; rt_accounts_generation := rt_accounts_generation r;
     rt_pending_passkey_creations := rt_pending_passkey_creations r; rt_windows_hello_active := rt_windows_hello_active r |}).
Definition set_coordinator (f : Coordinator → Coordinator) : Shared → Shared := set_runtime (λ r,
  {| rt_state := rt_state r; rt_coordinator := f (rt_coordinator r); rt_idempotency := rt_idempotency r;
     rt_browser_leases := rt_browser_leases r; rt_accounts_generation := rt_accounts_generation r;
     rt_pending_passkey_creations := rt_pending_passkey_creations r; rt_windows_hello_active := rt_windows_hello_active r |}).
Definition set_idempotency (i : IdempotencyState) : Shared → Shared := set_runtime (λ r,
  {| rt_state := rt_state r; rt_coordinator := rt_coordinator r; rt_idempotency := i;
     rt_browser_leases := rt_browser_leases r; rt_accounts_generation := rt_accounts_generation r;
     rt_pending_passkey_creations := rt_pending_passkey_creations r; rt_windows_hello_active := rt_windows_hello_active r |}).
Definition set_leases (l : gmap bytes (option BrowserLease)) : Shared → Shared := set_runtime (λ r,
  {| rt_state := rt_state r; rt_coordinator := rt_coordinator r; rt_idempotency := rt_idempotency r;
     rt_browser_leases := l; rt_accounts_generation := rt_accounts_generation r;
     rt_pending_passkey_creations := rt_pending_passkey_creations r; rt_windows_hello_active := rt_windows_hello_active r |}).
Definition set_generation (g : Z) : Shared → Shared := set_runtime (λ r,
  {| rt_state := rt_state r; rt_coordinator := rt_coordinator r; rt_idempotency := rt_idempotency r;
     rt_browser_leases := rt_browser_leases r; rt_accounts_generation := g;
     rt_pending_passkey_creations := rt_pending_passkey_creations r; rt_windows_hello_active := rt_windows_hello_active r |}).
Definition set_pending (m : gmap PendingPasskeyCreationKey PendingPasskeyCreation) : Shared → Shared :=
  set_runtime (λ r,
  {| rt_state := rt_state r; rt_coordinator := rt_coordinator r; rt_idempotency := rt_idempotency r;
     rt_browser_leases := rt_browser_leases r; rt_accounts_generation := rt_accounts_generation r;
     rt_pending_passkey_creations := m; rt_windows_hello_active := rt_windows_hello_active r |}).

Definition set_epoch (e : Z) (c : Coordinator) : Coordinator :=
  {| cd_epoch := e; cd_global_in_flight := cd_global_in_flight c; cd_kdf_active := cd_kdf_active c;
     cd_mutation_active := cd_mutation_active c; cd_lock_active := cd_lock_active c;
     cd_cancellations := cd_cancellations c |}.
Definition set_global (n : Z) (c : Coordinator) : Coordinator :=
  {| cd_epoch := cd_epoch c; cd_global_in_flight := n; cd_kdf_active := cd_kdf_active c;
     cd_mutation_active := cd_mutation_active c; cd_lock_active := cd_lock_active c;
     cd_cancellations := cd_cancellations c |}.
Definition set_cancellations (m : gmap RequestKey nat) (c : Coordinator) : Coordinator :=
  {| cd_epoch := cd_epoch c; cd_global_in_flight := cd_global_in_flight c; cd_kdf_active := cd_kdf_active c;
     cd_mutation_active := cd_mutation_active c; cd_lock_active := cd_lock_active c;
     cd_cancellations := m |}.

Definition set_hello_active (b : bool) : Shared → Shared := set_runtime (λ r,
  {| rt_state := rt_state r; rt_coordinator := rt_coordinator r; rt_idempotency := rt_idempotency r;
     rt_browser_leases := rt_browser_leases r; rt_accounts_generation := rt_accounts_generation r;
     rt_pending_passkey_creations := rt_pending_passkey_creations r; rt_windows_hello_active := b |}).

Definition flag_value (f : FlagName) (s : Shared) : bool :=
  match f with
  | KdfFlag => cd_kdf_active (coordinator s)
  | MutationFlag => cd_mutation_active (coordinator s)
  | LockFlag => cd_lock_active (coordinator s)
  | HelloFlag => rt_windows_hello_active (sh_runtime s)
  end.
Definition set_coordinator_flag (f : FlagName) (b : bool) (c : Coordinator) : Coordinator :=
  {| cd_epoch := cd_epoch c; cd_global_in_flight := cd_global_in_flight c;
     cd_kdf_active := match f with KdfFlag => b | _ => cd_kdf_active c end;
     cd_mutation_active := match f with MutationFlag => b | _ => cd_mutation_active c end;
     cd_lock_active := match f with LockFlag => b | _ => cd_lock_active c end;
     cd_cancellations := cd_cancellations c |}.
Definition set_flag (f : FlagName) (b : bool) : Shared → Shared :=
  match f with HelloFlag => set_hello_active b | _ => set_coordinator (set_coordinator_flag f b) end.

(** ** Steps

    [others_agent] is what other threads did to the agent, its file and the shared
    state while they could have the vault's mutex.  An [Instant] is a number of
    nanoseconds. *)

Class Threads (W : Type) := {
  shared : W → Shared;
  set_shared : Shared → W → W;
  others : W → W;
  others_agent : Process W → Process W;
  instant_now : W → Z * W;
  instant_checked_add : Z → Z → option Z;
}.

Section steps.
Context {W : Type} `{Threads W}.

(** An atomic load, and an atomic update. *)
Definition observe {E A} (f : Shared → A) : stm W E A := λ w,
  let w := others w in (Ok (f (shared w)), w).
Definition atomic {E A} (f : Shared → result E A * Shared) : stm W E A := λ w,
  let w := others w in
  let '(r, s) := f (shared w) in
  (r, set_shared s w).

Definition now {E} : stm W E Z := λ w, let '(t, w) := instant_now w in (Ok t, w).

(** [mutex.lock()].  A thread that locks a mutex it holds never returns (or panics). *)
Definition acquire {E} (m : MutexName) (poisoned : E) : stm W E unit := λ w,
  let w := others w in
  if decide (m ∈ sh_held (shared w)) then (Panic, w)
  else if decide (m ∈ sh_poisoned (shared w)) then (Err poisoned, w)
  else (Ok tt, set_shared (set_held (λ held, {[m]} ∪ held) (shared w)) w).

(** The drop of a guard, if there is one. *)
Definition drop_guard (m : MutexName) (w : W) : W :=
  set_shared (set_held (λ held, held ∖ {[m]}) (shared w)) w.

(** [lock(&mutex)?] and one use of the data. *)
Definition with_mutex {A} (m : MutexName) (f : Shared → result DispatchError A * Shared) :
    stm W DispatchError A :=
  acquire m DispatchInternal;;
  ((λ w : W, let '(r, s) := f (shared w) in (r, drop_guard m (set_shared s w))) : stm W DispatchError A).

(** What runs when a scope is left, also by an early return. *)
Definition finally {S E A} (body : stm S E A) (cleanup : S → S) : stm S E A := λ s,
  let '(r, s) := body s in (r, cleanup s).

(** ** Atomics *)

Definition the_epoch {E} : stm W E Z := observe (λ s, cd_epoch (coordinator s)).
Definition lock_active {E} : stm W E bool := observe (λ s, cd_lock_active (coordinator s)).
Definition is_cancelled {E} (flag : nat) : stm W E bool :=
  observe (λ s, bool_decide (sh_flags s !! flag = Some true)).
Definition the_state {E} : stm W E AgentState := observe (λ s, decode_state (rt_state (sh_runtime s))).
Definition store_state {E} (state : AgentState) : stm W E unit :=
  atomic (λ s, (Ok tt, set_rt_state (AgentState_code state) s)).
(** [compare_exchange(from, to)] and whether it took place. *)
Definition exchange_state {E} (from to_ : AgentState) : stm W E bool :=
  atomic (λ s, if rt_state (sh_runtime s) =? AgentState_code from
    then (Ok true, set_rt_state (AgentState_code to_) s) else (Ok false, s)).
Definition set_locked_unless_shutting_down {E} : stm W E unit :=
  atomic (λ s,
    let state := rt_state (sh_runtime s) in
    if negb (state =? AgentState_code Updating) && negb (state =? AgentState_code ShuttingDown)
    then (Ok tt, set_rt_state (AgentState_code Types.Locked) s) else (Ok tt, s)).

(** ** Coordination *)

Definition increment_epoch : stm W DispatchError Z :=
  atomic (λ s,
    let epoch := cd_epoch (coordinator s) in
    match checked_add 64 epoch 1 with
    | Some next => (ok_or (checked_add 64 epoch 1) DispatchInternal, set_coordinator (set_epoch next) s)
    | None => (Err DispatchInternal, s)
    end).

(** Flags named by the values of the map are set. *)
Definition cancel_flags (m : gmap RequestKey nat) (flags : list bool) : list bool :=
  foldr (λ entry flags, <[entry.2 := true]> flags) flags (map_to_list m).

Definition advance_epoch : stm W DispatchError Z :=
  next ← increment_epoch;
  with_mutex CancellationsMutex (λ s,
    (Ok tt, set_flags (cancel_flags (cd_cancellations (coordinator s))) s));;
  mret next.
Definition advance_epoch_without_cancellation : stm W DispatchError Z := increment_epoch.

Definition register (key : RequestKey) : stm W DispatchError RequestRegistration :=
  flag ← atomic (λ s, (Ok (length (sh_flags s)), set_flags (λ flags, flags ++ [false]) s));
  with_mutex CancellationsMutex (λ s,
    let m := cd_cancellations (coordinator s) in
    let s := set_coordinator (set_cancellations (<[key := flag]> m)) s in
    match m !! key with
    | Some _ => (Err DispatchInternal, s)
    | None => (Ok {| rr_key := key; rr_cancellation := flag |}, s)
    end).

(** [Drop for RequestRegistration]. *)
Definition drop_registration (registration : RequestRegistration) : stm W DispatchError unit :=
  with_mutex CancellationsMutex (λ s,
    (Ok tt, set_coordinator (set_cancellations
      (delete (rr_key registration) (cd_cancellations (coordinator s)))) s)).

Definition cancel_flag {E} (flag : nat) : stm W E unit :=
  atomic (λ s, (Ok tt, set_flags (λ flags, <[flag := true]> flags) s)).

Definition coordinator_cancel (key : RequestKey) : stm W DispatchError bool :=
  with_mutex CancellationsMutex (λ s,
    match cd_cancellations (coordinator s) !! key with
    | Some flag => (Ok true, set_flags (λ flags, <[flag := true]> flags) s)
    | None => (Ok false, s)
    end).

Definition cancel_connection (connection_id : bytes) : stm W DispatchError unit :=
  with_mutex CancellationsMutex (λ s,
    (Ok tt, set_flags (cancel_flags
      (filter (λ entry, rk_connection_id entry.1 = connection_id) (cd_cancellations (coordinator s)))) s)).

(** [CounterPermit]: acquired below the maximum, and dropped. *)
Definition counter_acquire {E} (maximum : Z) : stm W E bool :=
  atomic (λ s,
    let current := cd_global_in_flight (coordinator s) in
    if current <? maximum then (Ok true, set_coordinator (set_global (current + 1)) s) else (Ok false, s)).
Definition counter_drop {E} : stm W E unit :=
  atomic (λ s, (Ok tt, set_coordinator (λ c, set_global ((cd_global_in_flight c - 1) mod 2 ^ 64) c) s)).

(** [FlagPermit]. *)
Definition flag_acquire {E} (f : FlagName) : stm W E bool :=
  atomic (λ s,
    if flag_value f s then (Ok false, s)
    else (Ok true, set_permits (λ permits, {[f]} ∪ permits) (set_flag f true s))).
Definition flag_drop (f : FlagName) (w : W) : W :=
  let w := others w in
  let s := shared w in
  if decide (f ∈ sh_permits s)
  then set_shared (set_permits (λ permits, permits ∖ {[f]}) (set_flag f false s)) w
  else w.
(** The permit is forgotten, the flag stays set; and taken over by another owner. *)
Definition flag_handoff (f : FlagName) (w : W) : W :=
  set_shared (set_permits (λ permits, permits ∖ {[f]}) (shared w)) w.
Definition flag_take_over (f : FlagName) (w : W) : W :=
  set_shared (set_permits (λ permits, {[f]} ∪ permits) (shared w)) w.

(** ** Whether a request may go on *)

(** [if c { return Some(outcome) }], and otherwise the rest. *)
Definition stop_if {E} (c : stm W E bool) (outcome : ExecutionOutcome)
    (rest : stm W E (option ExecutionOutcome)) : stm W E (option ExecutionOutcome) :=
  c ≫= λ b : bool, if b then mret (Some outcome) else rest.

(** Short-circuit disjunction. *)
Definition or_else {E} (a b : stm W E bool) : stm W E bool :=
  a ≫= λ x : bool, if x then mret true else b.

Definition past {E} (deadline : Z) : stm W E bool := t ← now; mret (deadline <=? t).
Definition not_unlocked {E} : stm W E bool := state ← the_state; mret (bool_decide (state ≠ Unlocked)).
Definition other_epoch {E} (request_epoch : Z) : stm W E bool :=
  epoch ← the_epoch; mret (negb (epoch =? request_epoch)).

Definition pre_secret_operation {E} (request_epoch : Z) (registration : RequestRegistration) (deadline : Z) :
    stm W E (option ExecutionOutcome) :=
  stop_if lock_active locked_outcome (
  stop_if (is_cancelled (rr_cancellation registration)) cancelled (
  stop_if (past deadline) deadline_outcome (
  stop_if (or_else not_unlocked (other_epoch request_epoch)) locked_outcome (mret None)))).

(** The checks an operation of the agent makes while it works. *)
Definition secret_operation_should_abort (request_epoch : Z) (registration : RequestRegistration)
    (deadline : Z) (w : W) : bool * W :=
  let '(r, w) := or_else (E:=unit) lock_active (or_else (is_cancelled (rr_cancellation registration))
    (or_else (past deadline) (or_else not_unlocked (other_epoch request_epoch)))) w in
  (match r with Ok b => b | _ => true end, w).

(** The closure that runs last before a commit, and takes the commit gate with it:
    [exact] is the condition on a pending creation that some operations add. *)
Definition commit_refused (request_epoch : Z) (registration : RequestRegistration) (deadline : Z)
    (exact : stm W StorageError bool) : stm W StorageError bool :=
  pending_is_exact ← exact;
  or_else (other_epoch request_epoch) (or_else lock_active
    (or_else (is_cancelled (rr_cancellation registration)) (or_else (past deadline)
    (mret (negb pending_is_exact))))).

Definition take_gate (refused : stm W StorageError bool) : stm W StorageError unit :=
  acquire CommitGate StorageConflict;;
  ((λ w : W, match refused w with
        | (Ok false, w) => (Ok tt, w)
        | (Ok true, w) => (Err StorageAborted, drop_guard CommitGate w)
        | (Err e, w) => (Err e, drop_guard CommitGate w)
        | (Panic, w) => (Panic, w)
        end) : stm W StorageError unit).

Definition commit_check (request_epoch : Z) (registration : RequestRegistration) (deadline : Z) :
    stm W StorageError unit :=
  take_gate (commit_refused request_epoch registration deadline (mret true)).

(** [.get(&pending_key) == Some(&expected)]. *)
Definition pending_is_exact (key : PendingPasskeyCreationKey) (expected : PendingPasskeyCreation) :
    stm W StorageError bool :=
  map_err_st (λ _, StorageConflict) (with_mutex PendingPasskeysMutex (λ s,
    (Ok (bool_decide (rt_pending_passkey_creations (sh_runtime s) !! key = Some expected)), s))).
End steps.
