(* ===== verification/Runtime.v ===== *)
(** * The operations of the runtime ([runtime.rs] of [crates/vault-agent/src])

    Each operation checks that its request may go on, takes the vault, checks again,
    has the agent do the work, which asks whether to abort and takes the commit gate
    before it writes, and checks once more before anything is returned. *)

From S2P Require Import Prelude RustStd Cbor Wire Types Message Session Operations Browser VaultRecords VaultKeys VaultStore Storage Agent Outcome Idempotency Threads.

(** The trait [PasskeyRequestVerifier]: Windows signs the requests of its passkey
    plug-in, and an implementation checks the signature. *)
Record VerifiedMakeRequest := {
  vm_rp_id : bytes;
  vm_user_handle : bytes;
  vm_user_name : bytes;
  vm_user_display_name : bytes;
  vm_excluded_credential_ids : list bytes;
}.
Record VerifiedAssertionRequest := { vr_rp_id : bytes; vr_client_data_hash : bytes }.
Record VerifiedAssertionLookup := {
  vl_rp_id : bytes;
  vl_allowed_credential_ids : list bytes;
  vl_allow_list_present : bool;
}.
Class PasskeyRequestVerifier (W : Type) := {
  remove_cached_credential : bytes → stm W PasskeyVerificationError unit;
  verify_assertion_lookup : PasskeyRequestProof → stm W PasskeyVerificationError VerifiedAssertionLookup;
  verify_make : PasskeyTransactionProof → stm W PasskeyVerificationError VerifiedMakeRequest;
  verify_assertion : PasskeyTransactionProof → bytes → stm W PasskeyVerificationError VerifiedAssertionRequest;
}.

Section scopes.
Context {W : Type} `{Threads W}.

Definition on_world (f : W → W) (p : Process W) : Process W :=
  {| agent := agent p; next_session := next_session p; world := f (world p) |}.

(** A call whose result is matched on; a panic unwinds. *)
Definition attempt {S E F A} (m : stm S E A) : stm S F (result E A) := λ s,
  match m s with
  | (Panic, s) => (Panic, s)
  | (r, s) => (Ok r, s)
  end.

(** A permit or guard that is dropped when its scope fails, and passed on otherwise. *)
Definition on_failure {S E A} (body : stm S E A) (cleanup : S → S) : stm S E A := λ s,
  match body s with
  | (Ok a, s) => (Ok a, s)
  | (r, s) => (r, cleanup s)
  end.

(** A guard of a mutex that lasts to the end of its scope. *)
Definition guarded {A} (m : MutexName) (body : ag (W:=W) DispatchError A) : ag DispatchError A :=
  in_world (acquire m DispatchInternal);;
  finally body (on_world (drop_guard m)).

(** The vault: until it is taken, others may have used it. *)
Definition take_vault : ag (W:=W) DispatchError unit := λ p,
  in_world (acquire VaultMutex DispatchInternal) (others_agent p).
Definition with_vault {A} (body : ag (W:=W) DispatchError A) : ag DispatchError A :=
  take_vault;;
  finally body (on_world (drop_guard VaultMutex)).

(** [let Some(_permit) = FlagPermit::acquire(..) else { return Ok(busy) }]. *)
Definition with_flag (f : FlagName) (body : ag (W:=W) DispatchError ExecutionOutcome) :
    ag DispatchError ExecutionOutcome :=
  in_world (flag_acquire f) ≫= λ taken : bool,
  if taken then finally body (on_world (flag_drop f)) else mret busy.

(** [let mut commit_guard = None;]: the gate, if the commit check took it. *)
Definition with_commit_guard {A} (body : ag (W:=W) DispatchError A) : ag DispatchError A :=
  finally body (on_world (drop_guard CommitGate)).

(** [if let Some(outcome) = check { return Ok(outcome) }]. *)
Definition unless (check : ag (W:=W) DispatchError (option ExecutionOutcome))
    (rest : ag (W:=W) DispatchError ExecutionOutcome) : ag DispatchError ExecutionOutcome :=
  early ← check;
  match early with Some outcome => mret outcome | None => rest end.

(** [release_failed_commit_guard]. *)
Definition release_failed_commit_guard {E A} (r : result E A) : ag (W:=W) DispatchError unit :=
  modify (if is_ok r then id else on_world (drop_guard CommitGate)).
End scopes.

Section operations.
Context `{Minicbor, Crypto, UrlCrate}.
Context {W : Type} `{Env W, Host W, Sqlite W, Threads W}.
Abbreviation rt A := (ag (W:=W) DispatchError A).

(** An encoder of the protocol, with [?]. *)
Definition encoded {A} (r : result ProtocolError A) : rt A := of_result (map_err protocol_internal r).

(** ** After the core *)

Section request.
Context (request_epoch : Z) (registration : RequestRegistration) (deadline : Z).

Definition pre_check : rt (option ExecutionOutcome) :=
  in_world (pre_secret_operation request_epoch registration deadline).

(** The vault is held. *)
Definition post_secret_operation : rt (option ExecutionOutcome) :=
  in_world (or_else lock_active (or_else not_unlocked (other_epoch request_epoch))) ≫= λ revoked : bool,
  if revoked then
    lock;;
    in_world set_locked_unless_shutting_down;;
    mret (Some locked_outcome)
  else in_world (
    stop_if (is_cancelled (rr_cancellation registration)) cancelled (
    stop_if (past deadline) deadline_outcome (mret None))).

Definition abort_after_core : rt ExecutionOutcome :=
  outcome ← post_secret_operation;
  of_result (ok_or outcome DispatchInternal).

(** The guard of the vault is dropped before the commit gate is taken. *)
Definition account_error_after_core (error : AccountError) : rt ExecutionOutcome :=
  if bool_decide (error ≠ AccountFailed) then mret (map_account_error error)
  else
    lock;;
    modify (on_world (drop_guard VaultMutex));;
    guarded CommitGate (
      in_world set_locked_unless_shutting_down;;
      in_world advance_epoch;;
      mret failed).

Definition authenticated_read_error_after_core (error : AccountError) : rt ExecutionOutcome :=
  if bool_decide (error = AccountFailed) then account_error_after_core error
  else unless post_secret_operation (mret (map_account_error error)).

(** The check the agent makes while it works. *)
Definition should_abort : W → bool * W := secret_operation_should_abort request_epoch registration deadline.

(** A read of the vault, which is held: [present] turns what was read into the response. *)
Definition read_after_core {A} (read : ag (W:=W) AccountError A) (present : A → rt ExecutionOutcome) :
    rt ExecutionOutcome :=
  result ← attempt read;
  match result with
  | Ok value => unless post_secret_operation (present value)
  | Err AccountAborted => abort_after_core
  | Err error => authenticated_read_error_after_core error
  | Panic => of_result Panic
  end.
Definition read_vault {A} (read : ag (W:=W) AccountError A) (present : A → rt ExecutionOutcome) :
    rt ExecutionOutcome :=
  with_vault (unless pre_check (read_after_core read present)).

(** A mutation of the vault, after which the commit gate is held if it succeeded;
    [missing] is the response when the record does not exist. *)
Definition mutate_vault_or {A} (mutate : ag (W:=W) AccountError A) (present : A → rt ExecutionOutcome)
    (missing : rt ExecutionOutcome) : rt ExecutionOutcome :=
  with_commit_guard (with_vault (
    unless pre_check (
    result ← attempt mutate;
    release_failed_commit_guard result;;
    match result with
    | Ok value => present value
    | Err AccountNotFound => missing
    | Err AccountAborted => abort_after_core
    | Err AccountFailed => account_error_after_core AccountFailed
    | Err error => unless post_secret_operation (mret (map_account_error error))
    | Panic => of_result Panic
    end))).
Definition mutate_vault {A} (mutate : ag (W:=W) AccountError A) (present : A → rt ExecutionOutcome) :
    rt ExecutionOutcome :=
  mutate_vault_or mutate present (unless post_secret_operation (mret (map_account_error AccountNotFound))).
End request.

(** ** Website accounts *)

Definition accounts_changed : rt unit :=
  in_world (
    generation ← observe (λ s, rt_accounts_generation (sh_runtime s));
    let next := saturating_add 64 generation 1 in
    atomic (λ s, (Ok tt, set_generation next s))).

Definition list_accounts (offset limit request_epoch : Z) (registration : RequestRegistration) (deadline : Z) :
    rt ExecutionOutcome :=
  unless (pre_check request_epoch registration deadline) (
  let response_offset := offset in
  offset ← of_result (ok_or (try_from 64 offset) DispatchInternal);
  read_vault request_epoch registration deadline
    (agent_list_website_account_page_with_check offset limit (should_abort request_epoch registration deadline))
    (λ page, of_result (encode_summary_page (account_view <$> page.1) response_offset page.2))).

Definition get_account (id : bytes) (request_epoch : Z) (registration : RequestRegistration) (deadline : Z) :
    rt ExecutionOutcome :=
  unless (pre_check request_epoch registration deadline) (
  read_vault request_epoch registration deadline
    (agent_get_website_account_with_check id (should_abort request_epoch registration deadline))
    (λ account, body ← encoded (encode_account (account_view account)); mret (success body))).

Definition add_account (fields : AccountFields) (request_epoch : Z) (registration : RequestRegistration)
    (deadline : Z) : rt ExecutionOutcome :=
  with_flag MutationFlag (
  unless (pre_check request_epoch registration deadline) (
  match account_input fields with
  | Err _ => mret invalid
  | Panic => of_result Panic
  | Ok input =>
      mutate_vault request_epoch registration deadline
        (add_website_account_with_before_commit_and_check input
          (should_abort request_epoch registration deadline) (commit_check request_epoch registration deadline))
        (λ id, accounts_changed;; body ← encoded (encode_account_id id); mret (success body))
  end)).

Definition update_account (id : bytes) (fields : AccountFields) (request_epoch : Z)
    (registration : RequestRegistration) (deadline : Z) : rt ExecutionOutcome :=
  with_flag MutationFlag (
  unless (pre_check request_epoch registration deadline) (
  match account_input fields with
  | Err _ => mret invalid
  | Panic => of_result Panic
  | Ok input =>
      mutate_vault request_epoch registration deadline
        (update_website_account_with_before_commit_and_check id input
          (should_abort request_epoch registration deadline) (commit_check request_epoch registration deadline))
        (λ _, accounts_changed;; body ← encoded encode_empty_result; mret (success body))
  end)).

Definition delete_account (id : bytes) (request_epoch : Z) (registration : RequestRegistration)
    (deadline : Z) : rt ExecutionOutcome :=
  with_flag MutationFlag (
  unless (pre_check request_epoch registration deadline) (
  mutate_vault request_epoch registration deadline
    (delete_website_account_with_before_commit_and_check id
      (should_abort request_epoch registration deadline) (commit_check request_epoch registration deadline))
    (λ _, accounts_changed;; body ← encoded encode_empty_result; mret (success body)))).

(** ** Locking *)

(** Under the commit gate: no request of the epoch that ends here may commit any more.
    [None] if another lock is under way. *)
Definition target_state (state : AgentState) : AgentState :=
  match state with
  | NoVault => NoVault
  | Updating => Updating
  | ShuttingDown => ShuttingDown
  | _ => Types.Locked
  end.
Definition begin_lock : rt (option AgentState) :=
  guarded CommitGate (
    in_world (flag_acquire LockFlag) ≫= λ taken : bool,
    if taken then
      on_failure (
        state ← in_world the_state;
        in_world (store_state (target_state state));;
        in_world advance_epoch;;
        mret (Some (target_state state))) (on_world (flag_drop LockFlag))
    else mret None).

(** The agent is locked, and the flag of the lock stays raised until the response is
    sent. *)
Definition complete_lock (target : AgentState) : rt ExecutionOutcome :=
  on_failure (
    guarded CreationGate (guarded WindowsHelloGate (
      with_vault lock;;
      state ← in_world the_state;
      (match state with
       | Updating | ShuttingDown => mret tt
       | _ => in_world (store_state target)
       end);;
      body ← encoded encode_empty_result;
      let outcome := hold_lock_transition (success body) in
      modify (on_world (flag_handoff LockFlag));;
      mret outcome))) (on_world (flag_drop LockFlag)).

Definition lock_vault : rt ExecutionOutcome :=
  begun ← begin_lock;
  match begun with
  | None => mret busy
  | Some target => complete_lock target
  end.
End operations.
