(* ===== verification/Fill.v ===== *)
(** * Filling a login into a browser page ([runtime.rs] of [crates/vault-agent/src])

    A connection of the native host makes one transaction: it asks for the account of
    an origin and gets a selection, under a lease; then it redeems the selection for
    the credential.  A lease is consumed by its first use, whatever that gives. *)

From S2P Require Import Prelude RustStd Cbor Wire Types Message Session Operations Browser VaultKeys VaultStore Storage Agent Outcome Idempotency Ownership Threads Runtime.

(** [BrowserLeaseAdmission]. *)
Inductive BrowserLeaseAdmission :=
  | LeaseReady (required : option BrowserLease)
  | LeaseRejected (outcome : ExecutionOutcome).

Section fill.
Context `{Minicbor, Crypto, UrlCrate}.
Context {W : Type} `{Env W, Host W, Sqlite W, Threads W}.
Abbreviation rt A := (ag (W:=W) DispatchError A).

(** [.get_mut(&connection_id).and_then(Option::take)]. *)
Definition take_lease (connection_id : bytes) : stm W DispatchError (option BrowserLease) :=
  with_mutex BrowserLeasesMutex (λ s,
    let leases := rt_browser_leases (sh_runtime s) in
    match leases !! connection_id with
    | Some (Some lease) => (Ok (Some lease), set_leases (<[connection_id := None]> leases) s)
    | _ => (Ok None, s)
    end).

Definition claim_browser_lease (context : BrowserContext) (selection : option BrowserSelection)
    (request_epoch : Z) (connection_id : bytes) : stm W DispatchError BrowserLeaseAdmission :=
  match selection with
  | Some selection =>
      lease ← take_lease connection_id;
      mret (match lease with
        | None => LeaseRejected invalid
        | Some lease =>
            if negb (BrowserContext_matches (bl_context lease) context)
               || negb (BrowserSelection_matches (bl_selection lease) selection)
               || negb (bl_epoch lease =? request_epoch)
            then LeaseRejected invalid else LeaseReady (Some lease)
        end)
  | None =>
      with_mutex BrowserLeasesMutex (λ s,
        let leases := rt_browser_leases (sh_runtime s) in
        match leases !! connection_id with
        | Some _ => (Ok (LeaseRejected invalid), s)
        | None =>
            if MAX_CONNECTIONS <=? Z.of_nat (size leases) then (Ok (LeaseRejected busy), s)
            else (Ok (LeaseReady None), set_leases (<[connection_id := None]> leases) s)
        end)
  end.

(** The outcome with the generation of the accounts and the deadline it depends on. *)
Definition browser_success (body : bytes) (generation deadline : Z) : ExecutionOutcome :=
  {| eo_error := None; eo_retry := Never; eo_body := body; eo_replayed := false;
     eo_holds_lock_transition := false; eo_committed := false;
     eo_browser_generation := Some generation; eo_browser_deadline := Some deadline |}.

(** [getrandom::fill(&mut token)]. *)
Definition random_token : stm W DispatchError bytes := λ w,
  let '(token, w) := getrandom_fill 16 w in (ok_or token DispatchInternal, w).

Definition store_lease (connection_id : bytes) (lease : BrowserLease) : stm W DispatchError bool :=
  with_mutex BrowserLeasesMutex (λ s,
    let leases := rt_browser_leases (sh_runtime s) in
    match leases !! connection_id with
    | None => (Ok false, s)
    | Some _ => (Ok true, set_leases (<[connection_id := Some lease]> leases) s)
    end).

(** The response for the account that was found, if any: [required] is the lease of a
    redeemed selection. *)
Definition fill_response (context : BrowserContext) (required : option BrowserLease)
    (request_epoch : Z) (connection_id : bytes) (generation deadline : Z) (account : option WebsiteAccount) :
    rt ExecutionOutcome :=
  match required, account with
  | Some lease, None => mret (failure PublicErrorCode.NotFound Never)
  | Some lease, Some account =>
      if bool_decide (ac_id account ≠ bs_record_id (bl_selection lease))
         || negb (ac_revision account =? bs_revision (bl_selection lease))
      then mret (failure PublicErrorCode.Conflict Never)
      else
        credential ← encoded (BrowserCredential_new (ac_username account) (ac_password account));
        body ← encoded (BrowserCredential_encode credential);
        mret (browser_success body generation deadline)
  | None, Some account =>
      token ← in_world random_token;
      selection ← encoded (BrowserSelection_new token (ac_id account) (ac_revision account));
      body ← encoded (BrowserSelection_encode_optional (Some selection));
      kept ← in_world (store_lease connection_id
        {| bl_context := context; bl_selection := selection; bl_epoch := request_epoch;
           bl_accounts_generation := generation; bl_expires := deadline |});
      mret (if kept : bool then browser_success body generation deadline else cancelled)
  | None, None =>
      body ← encoded (BrowserSelection_encode_optional None);
      mret (browser_success body generation deadline)
  end.

(** [let Ok(origin) = .. else { return Ok(invalid) }]. *)
Definition or_invalid {E A} (r : result E A) (k : A → rt ExecutionOutcome) : rt ExecutionOutcome :=
  match r with
  | Ok a => k a
  | Err _ => mret invalid
  | Panic => of_result Panic
  end.

Definition browser_fill (context : BrowserContext) (selection : option BrowserSelection)
    (request_epoch : Z) (registration : RequestRegistration) (deadline : Z) : rt ExecutionOutcome :=
  let connection_id := rk_connection_id (rr_key registration) in
  admission ← in_world (claim_browser_lease context selection request_epoch connection_id);
  match admission with
  | LeaseRejected outcome => mret outcome
  | LeaseReady required =>
      or_invalid (BrowserOrigin_parse (bc_top_origin context)) (λ origin,
      or_invalid (BrowserOrigin_parse (bc_frame_origin context)) (λ frame_origin,
      if bool_decide (origin ≠ frame_origin) then mret invalid
      else
        let deadline := from_option (λ lease, Z.min deadline (bl_expires lease)) deadline required in
        unless (pre_check request_epoch registration deadline) (
        with_vault (
        unless (pre_check request_epoch registration deadline) (
        generation ← in_world (observe (λ s, rt_accounts_generation (sh_runtime s)));
        if (generation =? max_of 64)
           || from_option (λ lease, negb (bl_accounts_generation lease =? generation)) false required
        then mret (failure PublicErrorCode.Conflict Never)
        else
          read_after_core request_epoch registration deadline
            (agent_unique_browser_account_with_check origin (should_abort request_epoch registration deadline))
            (fill_response context required request_epoch connection_id generation deadline))))))
  end.
End fill.
