(* ===== verification/Passkeys.v ===== *)
(** * Passkey operations of the runtime ([runtime.rs] of [crates/vault-agent/src])

    Windows creates a passkey in steps: the agent adds it as pending, the plug-in
    reports it, and the creation is confirmed or rolled back.  The runtime remembers
    the pending creations of each connection; those of a connection that is gone are
    rolled back before the next creation. *)

From S2P Require Import Prelude RustStd Cbor Wire Types Message Session Operations Browser VaultRecords VaultKeys VaultStore Storage Agent Outcome Idempotency Ownership Threads Runtime Fill.

Section passkeys.
Context `{Minicbor, Crypto, UrlCrate}.
Context {W : Type} `{Env W, Host W, Sqlite W, Threads W, PasskeyRequestVerifier W}.
Abbreviation rt A := (ag (W:=W) DispatchError A).

(** [match verifier.call(..) { Ok(v) => v, Err(error) => return Ok(map(error)) }]. *)
Definition verified_by {A} (m : stm W PasskeyVerificationError A) (k : A → rt ExecutionOutcome) :
    rt ExecutionOutcome :=
  r ← attempt (in_world m);
  match r with
  | Ok verified => k verified
  | Err error => mret (map_passkey_verification_error error)
  | Panic => of_result Panic
  end.

(** ** Pending creations *)

Definition pending_creations (s : Shared) : gmap PendingPasskeyCreationKey PendingPasskeyCreation :=
  rt_pending_passkey_creations (sh_runtime s).

(** [.get(&key).copied()], [.insert(..)] and [.remove(..)] of the map. *)
Definition find_pending (key : PendingPasskeyCreationKey) : stm W DispatchError (option PendingPasskeyCreation) :=
  with_mutex PendingPasskeysMutex (λ s, (Ok (pending_creations s !! key), s)).
Definition insert_pending (key : PendingPasskeyCreationKey) (pending : PendingPasskeyCreation) :
    stm W DispatchError (option PendingPasskeyCreation) :=
  with_mutex PendingPasskeysMutex (λ s,
    (Ok (pending_creations s !! key), set_pending (<[key := pending]> (pending_creations s)) s)).
Definition remove_pending (key : PendingPasskeyCreationKey) : stm W DispatchError (option PendingPasskeyCreation) :=
  with_mutex PendingPasskeysMutex (λ s,
    (Ok (pending_creations s !! key), set_pending (delete key (pending_creations s)) s)).

Definition confirmed (p : PendingPasskeyCreation) : PendingPasskeyCreation :=
  {| pp_credential_id := pp_credential_id p; pp_authenticated_process_id := pp_authenticated_process_id p;
     pp_unlock_epoch := pp_unlock_epoch p; pp_confirmed := true; pp_disconnected := pp_disconnected p |}.
Definition disconnected (p : PendingPasskeyCreation) : PendingPasskeyCreation :=
  {| pp_credential_id := pp_credential_id p; pp_authenticated_process_id := pp_authenticated_process_id p;
     pp_unlock_epoch := pp_unlock_epoch p; pp_confirmed := pp_confirmed p; pp_disconnected := true |}.

Definition confirm_pending (key : PendingPasskeyCreationKey) (expected : PendingPasskeyCreation) :
    stm W DispatchError unit :=
  with_mutex PendingPasskeysMutex (λ s,
    match pending_creations s !! key with
    | None => (Err DispatchInternal, s)
    | Some pending =>
        if bool_decide (pending ≠ expected) then (Err DispatchInternal, s)
        else (Ok tt, set_pending (<[key := confirmed pending]> (pending_creations s)) s)
    end).

(** The map is ordered by connection and transaction. *)
Definition first_disconnected (m : gmap PendingPasskeyCreationKey PendingPasskeyCreation) :
    option (PendingPasskeyCreationKey * PendingPasskeyCreation) :=
  head (filter (λ e, pp_disconnected e.2 = true)
    (sort_by (λ e, pk_connection_id e.1 ++ pk_transaction_id e.1) (map_to_list m))).

(** ** Rolling back the creations of connections that are gone *)

Definition cleanup_should_abort (request_epoch : Z) (w : W) : bool * W :=
  let '(r, w) := or_else (E:=unit) (other_epoch request_epoch) lock_active w in
  (match r with Ok b => b | _ => true end, w).
Definition cleanup_refused (request_epoch : Z) (exact : stm W StorageError bool) : stm W StorageError bool :=
  pending_is_exact ← exact;
  or_else (other_epoch request_epoch) (or_else lock_active (mret (negb pending_is_exact))).

(** With the vault held: the credential and then the pending creation are removed. *)
Definition delete_pending (pending_key : PendingPasskeyCreationKey) (pending : PendingPasskeyCreation)
    (request_epoch : Z) : rt (option bool) :=
  result ← attempt (delete_passkey_with_before_commit_and_check (pp_credential_id pending)
    (cleanup_should_abort request_epoch)
    (take_gate (cleanup_refused request_epoch (pending_is_exact pending_key pending))));
  release_failed_commit_guard result;;
  match result with
  | Ok _ | Err AccountNotFound =>
      removed ← in_world (remove_pending pending_key);
      if bool_decide (removed ≠ Some pending) then throw DispatchInternal else mret None
  | Err AccountAborted | Err AccountLocked => mret (Some false)
  | Err AccountFailed => account_error_after_core AccountFailed;; throw DispatchInternal
  | Err AccountConflict => throw DispatchInternal
  | Panic => of_result Panic
  end.

Definition delete_disconnected (pending_key : PendingPasskeyCreationKey) (pending : PendingPasskeyCreation)
    (request_epoch : Z) : rt (option bool) :=
  with_commit_guard (with_vault (
    revoked ← in_world (or_else not_unlocked (or_else (other_epoch request_epoch) lock_active));
    if revoked : bool then mret (Some false) else delete_pending pending_key pending request_epoch)).

(** One round of the loop: [None] if another follows. *)
Definition rollback_round : rt (option bool) :=
  candidate ← in_world (with_mutex PendingPasskeysMutex (λ s, (Ok (first_disconnected (pending_creations s)), s)));
  match candidate with
  | None => mret (Some true)
  | Some (pending_key, pending) =>
      stopped ← in_world (or_else not_unlocked lock_active);
      if stopped : bool then mret (Some false) else
      forgotten ← attempt (in_world (remove_cached_credential (pp_credential_id pending)));
      if negb (is_ok forgotten) then mret (Some false) else
      request_epoch ← in_world the_epoch;
      delete_disconnected pending_key pending request_epoch
  end.

(** The loop, for at most [fuel] rounds: without fuel it is cut off, which is not an
    outcome of the code. *)
Fixpoint rollback_rounds (fuel : nat) : rt bool :=
  match fuel with
  | O => of_result Panic
  | S fuel =>
      ended ← rollback_round;
      match ended with
      | Some complete => mret complete
      | None => rollback_rounds fuel
      end
  end.

Definition rollback_disconnected_passkey_creations (fuel : nat) : rt bool :=
  guarded PasskeyCleanupGate (rollback_rounds fuel).

(** ** Operations *)

Section request.
Context (request_epoch : Z) (registration : RequestRegistration) (deadline : Z).
#[local] Abbreviation check := (pre_check request_epoch registration deadline).
#[local] Abbreviation abort := (should_abort request_epoch registration deadline).
#[local] Abbreviation before := (commit_check request_epoch registration deadline).

Definition credential_view (c : PasskeyCredential) : PasskeyCredentialView :=
  {| cv_credential_id := pc_credential_id c; cv_user_handle := pc_user_handle c; cv_public_key := pc_public_key c |}.
Definition assertion_view (a : PasskeyAssertion) : PasskeyAssertionView :=
  {| as_credential_id := pa_credential_id a; as_user_handle := pa_user_handle a;
     as_authenticator_data := pa_authenticator_data a; as_signature_der := pa_signature_der a |}.
Definition summary_view (s : PasskeySummary) : PasskeySummaryView :=
  {| sv_credential_id := sm_credential_id s; sv_user_handle := sm_user_handle s;
     sv_user_name := sm_user_name s; sv_user_display_name := sm_user_display_name s |}.
Definition management_view (s : PasskeySummary) : PasskeyManagementSummaryView :=
  {| mv_credential_id := sm_credential_id s; mv_rp_id := sm_rp_id s; mv_user_name := sm_user_name s;
     mv_user_display_name := sm_user_display_name s |}.

Definition make_passkey (fuel : nat) (proof : PasskeyTransactionProof) (connection_id : bytes)
    (authenticated_process_id : Z) : rt ExecutionOutcome :=
  unless check (
  rolled_back ← rollback_disconnected_passkey_creations fuel;
  if negb rolled_back then mret busy else
  verified_by (verify_make proof) (λ verified,
  let pending_key := {| pk_connection_id := connection_id; pk_transaction_id := pr_transaction_id (pt_request proof) |} in
  known ← in_world (find_pending pending_key);
  if bool_decide (is_Some known) then mret invalid else
  with_flag MutationFlag (
  unless check (
  or_invalid (PasskeyInput_new (vm_rp_id verified) (vm_user_handle verified) (vm_user_name verified)
    (vm_user_display_name verified)) (λ input,
  mutate_vault request_epoch registration deadline
    (add_passkey_with_before_commit_and_check input (vm_excluded_credential_ids verified) Pending abort before)
    (λ credential,
      previous ← in_world (insert_pending pending_key
        {| pp_credential_id := pc_credential_id credential;
           pp_authenticated_process_id := authenticated_process_id;
           pp_unlock_epoch := request_epoch; pp_confirmed := false; pp_disconnected := false |});
      if bool_decide (is_Some previous) then throw DispatchInternal else
      body ← encoded (encode_passkey_credential (credential_view credential));
      mret (commit_point (success body)))))))).

Definition get_passkey_assertion (proof : PasskeyTransactionProof) (credential_id : bytes) : rt ExecutionOutcome :=
  unless check (
  verified_by (verify_assertion proof credential_id) (λ verified,
  with_flag MutationFlag (
  unless check (
  mutate_vault request_epoch registration deadline
    (sign_passkey_assertion_with_before_commit_and_check (vr_rp_id verified) credential_id
      (vr_client_data_hash verified) abort before)
    (λ assertion,
      body ← encoded (encode_passkey_assertion (assertion_view assertion));
      mret (commit_point (success body))))))).

Definition list_passkeys_for_assertion (proof : PasskeyRequestProof) : rt ExecutionOutcome :=
  unless check (
  verified_by (verify_assertion_lookup proof) (λ verified,
  read_vault request_epoch registration deadline
    (agent_list_passkeys_for_assertion_with_check (vl_rp_id verified) (vl_allowed_credential_ids verified)
      (vl_allow_list_present verified) abort)
    (λ passkeys, body ← encoded (encode_passkey_summaries (summary_view <$> passkeys)); mret (success body)))).

Definition list_passkeys : rt ExecutionOutcome :=
  unless check (
  read_vault request_epoch registration deadline (agent_list_passkeys_with_check abort)
    (λ passkeys, body ← encoded (encode_passkey_management_summaries (management_view <$> passkeys));
      mret (success body))).

Definition committed_empty : rt ExecutionOutcome :=
  body ← encoded encode_empty_result; mret (commit_point (success body)).

Definition delete_passkey (credential_id : bytes) : rt ExecutionOutcome :=
  with_flag MutationFlag (
  unless check (
  mutate_vault request_epoch registration deadline
    (delete_passkey_with_before_commit_and_check credential_id abort before) (λ _, committed_empty))).

(** The pending creation that a request names, if it is its own. *)
Definition expected_creation (pending_key : PendingPasskeyCreationKey) (credential_id : bytes)
    (authenticated_process_id : Z) (may_be_confirmed : bool)
    (k : PendingPasskeyCreation → rt ExecutionOutcome) : rt ExecutionOutcome :=
  expected ← in_world (find_pending pending_key);
  match expected with
  | None => mret invalid
  | Some expected =>
      if bool_decide (pp_credential_id expected ≠ credential_id)
         || negb (pp_authenticated_process_id expected =? authenticated_process_id)
         || negb (pp_unlock_epoch expected =? request_epoch)
         || (negb may_be_confirmed && pp_confirmed expected)
         || pp_disconnected expected
      then mret invalid else k expected
  end.

Definition confirm_passkey_creation (proof : PasskeyTransactionProof) (credential_id connection_id : bytes)
    (authenticated_process_id : Z) : rt ExecutionOutcome :=
  unless check (
  verified_by (verify_make proof) (λ _,
  let pending_key := {| pk_connection_id := connection_id; pk_transaction_id := pr_transaction_id (pt_request proof) |} in
  expected_creation pending_key credential_id authenticated_process_id false (λ expected,
  with_flag MutationFlag (
  unless check (
  mutate_vault request_epoch registration deadline
    (confirm_passkey_creation_with_before_commit_and_check credential_id abort
      (take_gate (commit_refused request_epoch registration deadline (pending_is_exact pending_key expected))))
    (λ _, in_world (confirm_pending pending_key expected);; committed_empty)))))).

Definition rollback_passkey_creation (proof : PasskeyTransactionProof) (credential_id connection_id : bytes)
    (authenticated_process_id : Z) : rt ExecutionOutcome :=
  unless check (
  verified_by (verify_make proof) (λ _,
  let pending_key := {| pk_connection_id := connection_id; pk_transaction_id := pr_transaction_id (pt_request proof) |} in
  expected_creation pending_key credential_id authenticated_process_id true (λ expected,
  with_flag MutationFlag (
  unless check (
  verified_by (remove_cached_credential credential_id) (λ _,
  unless check (
  let rolled_back :=
    removed ← in_world (remove_pending pending_key);
    if bool_decide (is_Some removed ∧ removed ≠ Some expected) then throw DispatchInternal else committed_empty in
  mutate_vault_or request_epoch registration deadline
    (delete_passkey_with_before_commit_and_check credential_id abort before) (λ _, rolled_back) rolled_back))))))).
End request.
End passkeys.
