(* ===== verification/Unlocking.v ===== *)
(** * Unlocking the vault ([runtime.rs] of [crates/vault-agent/src])

    An unlock derives the key without the commit gate; whoever locks meanwhile wins.
    Pending creations of passkeys that a crash left behind are removed before the
    unlocked state is published, together with the ownership of the vault file. *)

From S2P Require Import Prelude RustStd Cbor Wire Types Message Session Operations Browser VaultRecords VaultKeys VaultStore Storage Agent Outcome Idempotency Ownership Threads Runtime Fill Passkeys.

(** The fields of [AgentRuntime] that never change; of the two that are trait objects,
    whether there is one. *)
Class RuntimeSetup := {
  rs_vault_path : bytes;
  rs_idempotency_fingerprint_key : bytes;
  rs_ownership_token : Z;
  rs_windows_hello_provider : bool;
  rs_windows_hello_state : bool;
}.

Section unlocking.
Context `{Minicbor, Crypto, UrlCrate, RuntimeSetup}.
Context {W : Type} `{Env W, Host W, Sqlite W, Threads W, PathInspection W, PasskeyRequestVerifier W}.
Abbreviation rt A := (ag (W:=W) DispatchError A).

Definition not_unlocking {E} : stm W E bool := state ← the_state; mret (bool_decide (state ≠ Unlocking)).

(** [lock(&self.vault)?.lock()], the state follows, and the outcome. *)
Definition relock (outcome : ExecutionOutcome) : rt ExecutionOutcome :=
  with_vault lock;;
  in_world set_locked_unless_shutting_down;;
  mret outcome.

Section request.
Context (registration : RequestRegistration) (deadline : Z).
#[local] Abbreviation is_cancelled := (Threads.is_cancelled (rr_cancellation registration)).

(** ** Removing what a crash left behind *)

Definition recovered_passkey_cleanup_outcome : rt ExecutionOutcome :=
  in_world (
    revoked ← or_else lock_active (or_else not_unlocking is_cancelled);
    if revoked : bool then mret cancelled else
    late ← past deadline;
    mret (if late : bool then deadline_outcome else failed)).

Definition recovery_ends : rt (option ExecutionOutcome) :=
  outcome ← recovered_passkey_cleanup_outcome; mret (Some outcome).

Definition recovery_interrupted {E} : stm W E bool :=
  or_else lock_active (or_else not_unlocking (or_else is_cancelled (past deadline))).
Definition recovery_should_abort (w : W) : bool * W :=
  let '(r, w) := recovery_interrupted (E:=unit) w in
  (match r with Ok b => b | _ => true end, w).

(** One credential; [None] if the loop goes on. *)
Definition cleanup_recovered (credential_id : bytes) : rt (option ExecutionOutcome) :=
  interrupted ← in_world recovery_interrupted;
  if interrupted : bool then recovery_ends else
  forgotten ← attempt (in_world (remove_cached_credential credential_id));
  if negb (is_ok forgotten) then mret None else
  interrupted ← in_world recovery_interrupted;
  if interrupted : bool then recovery_ends else
  with_commit_guard (with_vault (
    result ← attempt (delete_passkey_with_before_commit_and_check credential_id recovery_should_abort
      (take_gate recovery_interrupted));
    release_failed_commit_guard result;;
    match result with
    | Ok _ | Err AccountNotFound => mret None
    | Err AccountAborted | Err AccountLocked => recovery_ends
    | Err AccountConflict | Err AccountFailed => mret (Some failed)
    | Panic => of_result Panic
    end)).

Fixpoint cleanup_all (credential_ids : list bytes) : rt (option ExecutionOutcome) :=
  match credential_ids with
  | [] => mret None
  | credential_id :: credential_ids =>
      ended ← cleanup_recovered credential_id;
      match ended with
      | Some outcome => mret (Some outcome)
      | None => cleanup_all credential_ids
      end
  end.

Definition cleanup_recovered_passkey_creations : rt (option ExecutionOutcome) :=
  found ← with_vault (
    result ← attempt (pending_passkey_credential_ids_with_check recovery_should_abort);
    match result with
    | Ok credential_ids => mret (inr credential_ids)
    | Err AccountAborted | Err AccountLocked => outcome ← recovered_passkey_cleanup_outcome; mret (inl outcome)
    | Err _ => mret (inl failed)
    | Panic => of_result Panic
    end);
  match found with
  | inl outcome => mret (Some outcome)
  | inr credential_ids => cleanup_all credential_ids
  end.

(** ** Publishing *)

Definition bind_idempotency (vault_id : bytes) : stm W DispatchError unit :=
  with_mutex IdempotencyMutex (λ s,
    let '(r, i) := bind_authenticated_idempotency_vault vault_id (rt_idempotency (sh_runtime s)) in
    (r, set_idempotency i s)).

(** [self.ownership.bind_authenticated(..)], with the registry held. *)
Definition bind_ownership (authenticated : OwnershipRecord) (vault_id : bytes) : stm W DispatchError unit := λ w,
  let '(current, w) := ownership_record rs_vault_path w in
  (bound ← of_result (check_authenticated rs_ownership_token current authenticated (sh_owned (shared w)));
   bind_idempotency vault_id;;
   modify (λ w, set_shared (set_owned (<[rs_ownership_token := set_vault bound.1 bound.2]>) (shared w)) w)) w.

Definition publish_authenticated_unlock (authenticated_ownership : option OwnershipRecord)
    (authenticated_vault_id : bytes) : rt ExecutionOutcome :=
  guarded CommitGate (
    revoked ← in_world (or_else lock_active (or_else is_cancelled not_unlocking));
    if revoked : bool then relock cancelled else
    late ← in_world (past deadline);
    if late : bool then relock deadline_outcome else
    match authenticated_ownership with
    | None => relock failed
    | Some authenticated_ownership =>
        bound ← guarded OwnedVaultsMutex (attempt (in_world (bind_ownership authenticated_ownership authenticated_vault_id)));
        if negb (is_ok bound) then relock failed else
        in_world advance_epoch_without_cancellation;;
        published ← in_world (exchange_state Unlocking Unlocked);
        if negb published then relock cancelled else
        epoch ← in_world the_epoch;
        body ← encoded (encode_status Unlocked epoch);
        mret (success body)
    end).

(** ** Unlocking *)

(** The closure that runs before the session is published. *)
Definition capture_ownership (w : W) : W :=
  let '(r, w) := ownership_record rs_vault_path w in
  set_shared (set_authenticated_ownership (match r with Ok record => Some record | _ => None end) (shared w)) w.

(** [Locked] becomes [Unlocking], unless someone locks. *)
Definition begin_unlock : rt (option ExecutionOutcome) :=
  guarded CommitGate (
    active ← in_world lock_active;
    if active : bool then mret (Some busy) else
    began ← in_world (exchange_state Types.Locked Unlocking);
    mret (if began : bool then None else Some (failure PublicErrorCode.Conflict Never))).

(** With the vault held: the agent unlocks, and the vault's identifier is read. *)
Definition unlock_core (password : bytes) : rt (result AgentUnlockError unit * option bytes) :=
  with_vault (
    result ← attempt (agent_unlock_with_before_publish password capture_ownership);
    a ← the_agent;
    mret (result, if is_ok result then authenticated_vault_id a else None)).

Definition unlock_vault (password : bytes) : rt ExecutionOutcome :=
  state ← in_world the_state;
  if bool_decide (state = Unlocking) then mret busy else
  state ← in_world the_state;
  if bool_decide (state ≠ Types.Locked) then mret (failure PublicErrorCode.Conflict Never) else
  with_flag KdfFlag (
  or_invalid (MasterPassword_new password) (λ password,
  unless begin_unlock (
  modify (on_world (λ w, set_shared (set_authenticated_ownership None (shared w)) w));;
  unlocked ← unlock_core password;
  let '(result, authenticated_vault_id) := unlocked in
  revoked ← in_world is_cancelled;
  if revoked : bool then relock cancelled else
  late ← in_world (past deadline);
  if late : bool then relock deadline_outcome else
  match result with
  | Ok _ =>
      authenticated_vault_id ← of_result (ok_or authenticated_vault_id DispatchInternal);
      recovered ← cleanup_recovered_passkey_creations;
      match recovered with
      | Some outcome => relock outcome
      | None => λ p : Process W,
          publish_authenticated_unlock (sh_authenticated_ownership (shared (world p))) authenticated_vault_id p
      end
  | Err AgentUnlockCancelled => in_world set_locked_unless_shutting_down;; mret cancelled
  | Err AgentUnlockFailed => in_world set_locked_unless_shutting_down;; mret failed
  | Panic => of_result Panic
  end))).
End request.
End unlocking.
