(* ===== verification/WindowsHello.v ===== *)
(** * Windows Hello in the agent ([windows_hello.rs] of [crates/vault-agent/src])

    The state that one installation keeps about its enrollment, protected as one blob:
    either an enrollment, perhaps with a credential that is still to be removed, or only
    such a credential.  The two traits behind which the platform is: the provider of
    credentials and the repository of the state. *)

From S2P Require Import Prelude RustStd Cbor Wire VaultFormat.

Definition LOCAL_STATE_MAGIC : bytes := str "LBR-HLO".
Definition LOCAL_STATE_VERSION : Z := 3.
Definition LOCAL_STATE_FIELDS : Z := 4.
Definition LOCAL_ENROLLMENT_FIELDS : Z := 7.
Definition LOCAL_STATE_ENROLLMENT : Z := 0.
Definition LOCAL_STATE_PENDING_REMOVAL : Z := 1.
Definition INSTALLATION_KEY_BYTES : nat := 32.
Definition PRF_SALT_BYTES : nat := 32.
Definition MAXIMUM_LOCAL_STATE_BYTES : Z := 4 * 1024.
#[export] Hint Unfold LOCAL_STATE_VERSION LOCAL_STATE_FIELDS LOCAL_ENROLLMENT_FIELDS LOCAL_STATE_ENROLLMENT
  LOCAL_STATE_PENDING_REMOVAL INSTALLATION_KEY_BYTES PRF_SALT_BYTES MAXIMUM_LOCAL_STATE_BYTES : limits.

(** [Published]: the new state was put in place, but a later check or flush failed. *)
Module WindowsHelloStateError.
Inductive t := NotFound | Invalid | Failed | Published.
#[global] Instance t_eq_dec : EqDecision t.
Proof. solve_decision. Defined.
End WindowsHelloStateError.
Abbreviation WindowsHelloStateError := WindowsHelloStateError.t.

(** [CleanupRequired]: a credential was made that could not be taken back. *)
Module WindowsHelloProviderError.
Inductive t :=
  | InvalidRequest | Unavailable | Cancelled | Failed | RemovalFailed | CleanupRequired (credential_id : bytes).
End WindowsHelloProviderError.
Abbreviation WindowsHelloProviderError := WindowsHelloProviderError.t.

#[export] Instance WindowsHelloStateError_wire : WireError WindowsHelloStateError :=
  {| e_malformed := WindowsHelloStateError.Invalid; e_too_large := WindowsHelloStateError.Invalid;
     e_non_canonical := WindowsHelloStateError.Invalid |}.

Record WindowsHelloEnrollment := { en_credential_id : bytes; en_prf_salt : bytes; en_prf_output : bytes }.

Inductive WindowsHelloLocalState :=
  | Enrollment (vault_id : bytes) (key_epoch : Z) (installation_key credential_id : bytes)
      (pending_removal_credential_id : option bytes) (prf_salt protector : bytes)
  | PendingRemoval (credential_id : bytes).
#[export] Instance WindowsHelloLocalState_eq_dec : EqDecision WindowsHelloLocalState.
Proof. solve_decision. Defined.

Section state.
Context `{Minicbor}.

Definition WindowsHelloLocalState_new (vault_id : bytes) (key_epoch : Z)
    (installation_key credential_id prf_salt protector : bytes) : result WindowsHelloStateError WindowsHelloLocalState :=
  fail_if (all_zero vault_id || (key_epoch =? 0) || all_zero installation_key || is_empty credential_id
    || (len credential_id >? MAX_WINDOWS_HELLO_CREDENTIAL_ID_BYTES) || all_zero prf_salt || is_empty protector
    || (len protector >? MAX_WINDOWS_HELLO_PROTECTOR_BYTES)) WindowsHelloStateError.Invalid;;
  decoded ← map_err (λ _, WindowsHelloStateError.Invalid) (WindowsHelloProtector_decode protector);
  fail_if (bool_decide (hp_vault_id decoded ≠ vault_id) || negb (hp_key_epoch decoded =? key_epoch)
    || bool_decide (hp_credential_id decoded ≠ credential_id) || bool_decide (hp_prf_salt decoded ≠ prf_salt))
    WindowsHelloStateError.Invalid;;
  mret (Enrollment vault_id key_epoch installation_key credential_id None prf_salt protector).

Definition pending_removal (credential_id : bytes) : result WindowsHelloStateError WindowsHelloLocalState :=
  fail_if (is_empty credential_id || (len credential_id >? MAX_WINDOWS_HELLO_CREDENTIAL_ID_BYTES))
    WindowsHelloStateError.Invalid;;
  mret (PendingRemoval credential_id).

(** [set_pending_removal_credential_id(&mut self, ..)]: the state afterwards. *)
Definition set_pending_removal_credential_id (credential_id : bytes) (state : WindowsHelloLocalState) :
    result WindowsHelloStateError WindowsHelloLocalState :=
  match state with
  | Enrollment vault_id key_epoch installation_key active_credential_id _ prf_salt protector =>
      fail_if (is_empty credential_id || (len credential_id >? MAX_WINDOWS_HELLO_CREDENTIAL_ID_BYTES)
        || bool_decide (credential_id = active_credential_id)) WindowsHelloStateError.Invalid;;
      mret (Enrollment vault_id key_epoch installation_key active_credential_id (Some credential_id) prf_salt protector)
  | PendingRemoval _ => Err WindowsHelloStateError.Invalid
  end.

Definition clear_pending_removal_credential_id (state : WindowsHelloLocalState) : bool * WindowsHelloLocalState :=
  match state with
  | Enrollment vault_id key_epoch installation_key credential_id _ prf_salt protector =>
      (true, Enrollment vault_id key_epoch installation_key credential_id None prf_salt protector)
  | PendingRemoval _ => (false, state)
  end.

Definition vault_binding (state : WindowsHelloLocalState) : option (bytes * Z) :=
  match state with Enrollment vault_id key_epoch _ _ _ _ _ => Some (vault_id, key_epoch) | PendingRemoval _ => None end.
Definition installation_key (state : WindowsHelloLocalState) : option bytes :=
  match state with Enrollment _ _ installation_key _ _ _ _ => Some installation_key | PendingRemoval _ => None end.
Definition credential_id (state : WindowsHelloLocalState) : option bytes :=
  match state with Enrollment _ _ _ credential_id _ _ _ => Some credential_id | PendingRemoval _ => None end.
Definition pending_removal_credential_id (state : WindowsHelloLocalState) : option bytes :=
  match state with Enrollment _ _ _ _ pending _ _ => pending | PendingRemoval credential_id => Some credential_id end.
Definition prf_salt (state : WindowsHelloLocalState) : option bytes :=
  match state with Enrollment _ _ _ _ _ prf_salt _ => Some prf_salt | PendingRemoval _ => None end.
Definition protector (state : WindowsHelloLocalState) : option bytes :=
  match state with Enrollment _ _ _ _ _ _ protector => Some protector | PendingRemoval _ => None end.

(** ** Encoding *)

Definition local_state_items (state : WindowsHelloLocalState) : list bytes :=
  encode_array LOCAL_STATE_FIELDS ++
  encode_text LOCAL_STATE_MAGIC ++
  encode_u32 LOCAL_STATE_VERSION ++
  match state with
  | Enrollment vault_id key_epoch installation_key credential_id pending prf_salt protector =>
      encode_u8 LOCAL_STATE_ENROLLMENT ++
      encode_array LOCAL_ENROLLMENT_FIELDS ++
      encode_bytes vault_id ++
      encode_u32 key_epoch ++
      encode_bytes installation_key ++
      encode_bytes credential_id ++
      encode_bytes (default [] pending) ++
      encode_bytes prf_salt ++
      encode_bytes protector
  | PendingRemoval credential_id =>
      encode_u8 LOCAL_STATE_PENDING_REMOVAL ++
      encode_bytes credential_id
  end.

Definition WindowsHelloLocalState_encode (state : WindowsHelloLocalState) : result WindowsHelloStateError bytes :=
  let bytes := vec_encode (local_state_items state) in
  fail_if (len bytes >? MAXIMUM_LOCAL_STATE_BYTES) WindowsHelloStateError.Invalid;;
  mret bytes.

(** [if decoder.x()? != expected { return Err(Invalid) }]. *)
Definition expect_item {A} `{EqDecision A} (d : bytes → option (A * bytes)) (expected : A) : dec WindowsHelloStateError unit :=
  actual ← decode_item d;
  lift (fail_if (bool_decide (actual ≠ expected)) WindowsHelloStateError.Invalid).

Definition fixed_bytes (N : nat) : dec WindowsHelloStateError bytes := decode_fixed_bytes N.
Definition fixed_secret_bytes (N : nat) : dec WindowsHelloStateError bytes := decode_fixed_bytes N.
Definition bounded_bytes (minimum maximum : Z) : dec WindowsHelloStateError bytes :=
  value ← decode_item md_bytes;
  lift (fail_if (negb ((minimum <=? len value) && (len value <=? maximum))) WindowsHelloStateError.Invalid);;
  mret value.

Definition decode_enrollment : dec WindowsHelloStateError WindowsHelloLocalState :=
  expect_item md_array (Some LOCAL_ENROLLMENT_FIELDS);;
  vault_id ← fixed_bytes 16;
  key_epoch ← decode_u32;
  installation_key ← fixed_secret_bytes INSTALLATION_KEY_BYTES;
  credential_id ← bounded_bytes 1 MAX_WINDOWS_HELLO_CREDENTIAL_ID_BYTES;
  pending ← bounded_bytes 0 MAX_WINDOWS_HELLO_CREDENTIAL_ID_BYTES;
  prf_salt ← fixed_bytes PRF_SALT_BYTES;
  protector ← bounded_bytes 1 MAX_WINDOWS_HELLO_PROTECTOR_BYTES;
  state ← lift (WindowsHelloLocalState_new vault_id key_epoch installation_key credential_id prf_salt protector);
  if is_empty pending then mret state else lift (set_pending_removal_credential_id pending state).

Definition WindowsHelloLocalState_decode (bytes : bytes) : result WindowsHelloStateError WindowsHelloLocalState :=
  fail_if (is_empty bytes || (len bytes >? MAXIMUM_LOCAL_STATE_BYTES)) WindowsHelloStateError.Invalid;;
  run_decoder (
    expect_item md_array (Some LOCAL_STATE_FIELDS);;
    expect_item md_str LOCAL_STATE_MAGIC;;
    expect_item md_u32 LOCAL_STATE_VERSION;;
    kind ← decode_u8;
    state ← (if kind =? LOCAL_STATE_ENROLLMENT then decode_enrollment
      else if kind =? LOCAL_STATE_PENDING_REMOVAL then
        credential_id ← bounded_bytes 1 MAX_WINDOWS_HELLO_CREDENTIAL_ID_BYTES;
        lift (pending_removal credential_id)
      else lift (Err WindowsHelloStateError.Invalid));
    at_end bytes;;
    image ← lift (WindowsHelloLocalState_encode state);
    lift (canonical image bytes);;
    mret state) bytes.
End state.

(** ** The platform *)

(** [WindowsHelloProvider]: the credentials of the platform.  A ceremony may take long;
    meanwhile [cancel] asks it to end. *)
Class WindowsHelloProvider (W : Type) := {
  hello_enroll : Z → Z → bytes → stm W WindowsHelloProviderError WindowsHelloEnrollment;
  hello_evaluate : Z → Z → bytes → bytes → bytes → stm W WindowsHelloProviderError bytes;
  hello_cancel : bytes → W → W;
  hello_remove : bytes → stm W WindowsHelloProviderError unit;
}.
(** [WindowsHelloStateRepository]: where the state is kept. *)
Class WindowsHelloStateRepository (W : Type) := {
  hello_load : stm W WindowsHelloStateError WindowsHelloLocalState;
  hello_save : WindowsHelloLocalState → stm W WindowsHelloStateError unit;
  hello_remove_state : stm W WindowsHelloStateError unit;
  hello_ownership_path : option bytes;
}.

(** ** Valid states *)

(** A credential identifier as the platform may give one. *)
Definition credential_wf (c : bytes) : Prop := c ≠ [] ∧ len c ≤ MAX_WINDOWS_HELLO_CREDENTIAL_ID_BYTES.

(** An enrollment agrees with the protector that it keeps; the credential that is still
    to be removed is not the one in use. *)
Definition local_state_wf `{Minicbor} (state : WindowsHelloLocalState) : Prop :=
  match state with
  | Enrollment vault_id key_epoch installation_key credential_id pending prf_salt protector =>
      (length vault_id = 16%nat ∧ vault_id ≠ zeros 16)
      ∧ (length installation_key = INSTALLATION_KEY_BYTES ∧ installation_key ≠ zeros INSTALLATION_KEY_BYTES)
      ∧ prf_salt ≠ zeros PRF_SALT_BYTES
      ∧ (∃ p, WindowsHelloProtector_wf p ∧ WindowsHelloProtector_encode p = Ok protector ∧ hp_vault_id p = vault_id
          ∧ hp_key_epoch p = key_epoch ∧ hp_credential_id p = credential_id ∧ hp_prf_salt p = prf_salt)
      ∧ from_option (λ c, credential_wf c ∧ c ≠ credential_id) True pending
  | PendingRemoval credential_id => credential_wf credential_id
  end.

Section facts.
Context `{MinicborLaws}.

Lemma protector_size p bs :
  WindowsHelloProtector_wf p → WindowsHelloProtector_encode p = Ok bs → bs ≠ [] ∧ len bs ≤ 1400.
Proof.
  intros Hp Henc. pose proof (len_hello_binding p Hp) as Hb. destruct (WindowsHelloProtector_encode_wf p Hp) as [Himg _].
  rewrite Himg in Henc. apply Ok_inj in Henc as <-. pose proof Hp as [? [] [] [] ? ? ?]. split.
  - intros Hnil. assert (len (wire (encode_windows_hello_protector_into p)) = 0) as Hz by (by rewrite Hnil).
    revert Hz. unfold encode_windows_hello_protector_into. wire_size. head_bounds. solve_size.
  - unfold encode_windows_hello_protector_into. wire_size. head_bounds. solve_size.
Qed.

Lemma WindowsHelloLocalState_new_Ok v k i c s p state :
  length v = 16%nat → length i = INSTALLATION_KEY_BYTES → length s = PRF_SALT_BYTES →
  WindowsHelloLocalState_new v k i c s p = Ok state ↔
    state = Enrollment v k i c None s p ∧ local_state_wf state.
Proof.
  intros Hv Hi Hs. unfold WindowsHelloLocalState_new.
  rewrite (all_zero_zeros v 16), (all_zero_zeros i INSTALLATION_KEY_BYTES), (all_zero_zeros s PRF_SALT_BYTES) by done. split.
  - intros Hn. inv_ok Hn. simp_guards. split; [done|]. cbn.
    match goal with H : WindowsHelloProtector_decode p = Ok ?d |- _ => apply WindowsHelloProtector_decode_iff in H as [? ?] end.
    simplify_eq. split_and!; try done. eexists. split_and!; done.
  - intros [-> ((_ & Hvz) & (_ & Hiz) & Hsz & (d & Hd & Henc & <- & <- & <- & <-) & _)].
    destruct (protector_size d p Hd Henc) as [Hne Hlen]. pose proof Hd as [_ [_ ?] _ [? ?] _ _ _].
    rewrite bind_Ok. exists tt. split; [apply fail_if_Ok; repeat guard_step; first [done|solve_size]|].
    rewrite bind_Ok. exists d. split; [by rewrite (proj2 (WindowsHelloProtector_decode_iff p d))|].
    rewrite bind_Ok. exists tt. split; [apply fail_if_Ok; repeat guard_step; first [done|apply Z.eqb_refl|tauto]|done].
Qed.
Lemma new_binds v k i c s p state :
  WindowsHelloLocalState_new v k i c s p = Ok state → state = Enrollment v k i c None s p.
Proof. unfold WindowsHelloLocalState_new. intros Hn. by inv_ok Hn. Qed.

Lemma credential_guard c :
  is_empty c || (len c >? MAX_WINDOWS_HELLO_CREDENTIAL_ID_BYTES) = false ↔ credential_wf c.
Proof. by rewrite orb_false_iff, is_empty_false, Z.gtb_ltb, Z.ltb_ge. Qed.

Lemma pending_removal_Ok c state : pending_removal c = Ok state ↔ state = PendingRemoval c ∧ credential_wf c.
Proof.
  unfold pending_removal. split.
  - intros Hn. inv_ok Hn. split; [done|]. by apply credential_guard.
  - intros [-> Hc]. apply credential_guard in Hc. by rewrite Hc.
Qed.

(** The pending credential, whatever it was before. *)
Definition with_pending (pending : option bytes) (state : WindowsHelloLocalState) : WindowsHelloLocalState :=
  match state with
  | Enrollment v k i c _ s p => Enrollment v k i c pending s p
  | PendingRemoval _ => state
  end.
Lemma set_pending_Ok c state state' :
  set_pending_removal_credential_id c state = Ok state' ↔
    state' = with_pending (Some c) state ∧ credential_wf c ∧ is_Some (credential_id state) ∧ credential_id state ≠ Some c.
Proof.
  destruct state as [v k i a q s p|a]; cbn; [|split; [done|]; by intros (_ & _ & [? ?] & _)]. split.
  - intros Hn. inv_ok Hn. apply orb_false_iff in Hok as [Hc Hne]. apply bool_decide_eq_false in Hne.
    split_and!; [done|by apply credential_guard|done|congruence].
  - intros (-> & Hc & _ & Hne). apply credential_guard in Hc. rewrite Hc, bool_decide_eq_false_2 by congruence. done.
Qed.
Lemma with_pending_wf c state :
  local_state_wf state → credential_wf c → credential_id state ≠ Some c → local_state_wf (with_pending (Some c) state).
Proof. destruct state; cbn; [|done]. intros (? & ? & ? & ? & _) ? Hne. split_and!; [tauto..| |done| ]; congruence. Qed.

(** ** The codec *)

Lemma parses_expect_item {A} `{EqDecision A} (d : bytes → option (A * bytes)) (bs : bytes) (a : A) :
  (∀ r, d (bs ++ r) = Some (a, r)) → parses (expect_item d a) bs tt.
Proof.
  intros Hd. unfold expect_item. eapply parses_bind_last; [by apply decode_item_parses|].
  apply parses_lift, fail_if_Ok, bool_decide_eq_false. by intros [].
Qed.
Lemma parses_bounded_bytes minimum maximum b :
  u64 (len b) → minimum ≤ len b ≤ maximum → parses (bounded_bytes minimum maximum) (wire (encode_bytes b)) b.
Proof.
  intros Hb Hl. unfold bounded_bytes. eapply parses_bind_last; [by apply decode_item_parses, md_bytes_wire|].
  apply (parses_lift_bind _ _ _ tt); [|apply parses_ret]. apply fail_if_Ok, negb_false_iff, andb_true_iff. lia.
Qed.
Lemma yields_bounded_bytes_within minimum maximum : yields (bounded_bytes minimum maximum) (λ b, minimum ≤ len b ≤ maximum).
Proof.
  eapply yields_bind; [apply yields_any|]. intros b _.
  eapply yields_bind; [apply yields_guard|]. intros [] Hb. apply yields_ret. lia.
Qed.

Lemma local_state_size state :
  local_state_wf state → 1 ≤ len (wire (local_state_items state)) ≤ MAXIMUM_LOCAL_STATE_BYTES.
Proof.
  destruct state as [v k i c q s p|c]; unfold local_state_items.
  - intros ([? _] & [? _] & _ & (d & Hd & Henc & <- & <- & <- & <-) & Hq).
    destruct (protector_size d p Hd Henc) as [_ Hp]. pose proof Hd as [? [? _] _ [_ ?] ? _ _].
    assert (len (default [] q) ≤ 1024) as Hq' by (destruct q as [b|]; [apply Hq|done]).
    pose proof (len_nonneg (default [] q)). pose proof (len_nonneg p).
    wire_size. head_bounds. change (len LOCAL_STATE_MAGIC) with 7. solve_size.
  - intros [_ ?]. pose proof (len_nonneg c). wire_size. head_bounds. change (len LOCAL_STATE_MAGIC) with 7. solve_size.
Qed.
Lemma local_state_encode_wf state :
  local_state_wf state → WindowsHelloLocalState_encode state = Ok (wire (local_state_items state)).
Proof.
  intros Hs. unfold WindowsHelloLocalState_encode. rewrite vec_encode_concat. rewrite fail_if_small; [done|].
  by apply local_state_size.
Qed.

Lemma parses_enrollment v k i c q s p :
  local_state_wf (Enrollment v k i c q s p) →
  parses decode_enrollment
    (wire (encode_array LOCAL_ENROLLMENT_FIELDS ++ encode_bytes v ++ encode_u32 k ++ encode_bytes i ++ encode_bytes c
      ++ encode_bytes (default [] q) ++ encode_bytes s ++ encode_bytes p)) (Enrollment v k i c q s p).
Proof.
  intros Hwf. pose proof Hwf as ([? _] & [? _] & _ & (d & Hd & Henc & ? & Hk & ? & ?) & Hq).
  destruct (protector_size d p Hd Henc) as [Hne Hp]. pose proof Hd as [? [? _] _ [? ?] ? _ _].
  assert (u32 k) by congruence. assert (length s = PRF_SALT_BYTES) by (by subst s).
  assert (1 ≤ len c ≤ MAX_WINDOWS_HELLO_CREDENTIAL_ID_BYTES) as Hc.
  { subst c. split; [|done]. destruct (hp_credential_id d); [done|]. unfold len. cbn. lia. }
  assert (1 ≤ len p) by (destruct p; [done|]; unfold len; cbn; lia).
  assert (0 ≤ len (default [] q) ≤ MAX_WINDOWS_HELLO_CREDENTIAL_ID_BYTES).
  { pose proof (len_nonneg (default [] q)). split; [done|]. destruct q; [apply Hq|done]. }
  assert (WindowsHelloLocalState_new v k i c s p = Ok (Enrollment v k i c None s p)) as Hnew.
  { apply WindowsHelloLocalState_new_Ok; [done..|]. split; [done|]. by destruct Hwf as (? & ? & ? & ? & _). }
  unfold decode_enrollment, fixed_bytes, fixed_secret_bytes. rewrite !concat_app.
  eapply parses_bind; [apply parses_expect_item; intros r; unfold encode_array; rewrite enc_array, dec_array; [done|solve_size..]|].
  do 3 parse_step.
  eapply parses_bind; [apply parses_bounded_bytes; solve_size|]. eapply parses_bind; [apply parses_bounded_bytes; solve_size|].
  parse_step. eapply parses_bind_last; [apply parses_bounded_bytes; solve_size|].
  eapply parses_lift_bind; [exact Hnew|]. destruct q as [b|]; [|apply parses_ret]. destruct Hq as [[Hb ?] Hne'].
  change (default [] (Some b)) with b. apply is_empty_false in Hb as He. rewrite He. apply parses_lift, set_pending_Ok. split_and!; [done..|by eexists|].
  cbn. congruence.
Qed.

Lemma yields_enrollment : yields decode_enrollment local_state_wf.
Proof.
  intros bs state r Hd. unfold decode_enrollment, fixed_bytes, fixed_secret_bytes in Hd. inv_dec Hd; yielded.
  all: match goal with H : WindowsHelloLocalState_new _ _ _ _ _ _ = Ok _ |- _ =>
    apply WindowsHelloLocalState_new_Ok in H as [-> ?]; [|done..] end; try done.
  match goal with H : set_pending_removal_credential_id _ _ = Ok _ |- _ => apply set_pending_Ok in H as (-> & ? & _ & ?) end.
  by apply with_pending_wf.
Qed.

Lemma WindowsHelloLocalState_decode_iff bs state :
  WindowsHelloLocalState_decode bs = Ok state ↔ local_state_wf state ∧ WindowsHelloLocalState_encode state = Ok bs.
Proof.
  unfold WindowsHelloLocalState_decode. split.
  - intros Hr. inv_ok Hr. inv_dec Hok0; yielded; canonicalized; subst; (split; [|done]); [by eapply yields_enrollment|].
    match goal with H : pending_removal _ = Ok _ |- _ => by apply pending_removal_Ok in H as [-> ?] end.
  - intros [Hs Henc]. pose proof (local_state_size state Hs) as Hlen. pose proof (local_state_encode_wf state Hs) as Himg.
    rewrite Himg in Henc. apply Ok_inj in Henc as Hbs. rewrite Hbs in Himg, Hlen.
    assert (bs ≠ []) as Hne by (intros ->; change (len (A:=byte) []) with 0 in Hlen; lia).
    rewrite (proj2 (is_empty_false bs) Hne). cbn [orb]. rewrite fail_if_small by apply Hlen. cbn [mbind result_bind].
    run_image (eq_sym Hbs). unfold local_state_items. rewrite !concat_app.
    eapply run_step; [apply parses_expect_item; intros r; unfold encode_array; rewrite enc_array, dec_array; [done|solve_size..]|cbn beta].
    eapply run_step; [apply parses_expect_item; intros r; by apply md_str_wire|cbn beta].
    eapply run_step; [apply parses_expect_item; intros r; unfold encode_u32; rewrite enc_u32, dec_u32; [done|solve_size..]|cbn beta].
    assert (∀ st, st = state → (at_end bs;; image ← lift (WindowsHelloLocalState_encode st);
      lift (canonical image bs);; mret st) [] = Ok (state, [])) as Hend.
    { intros st ->. run_parse. done. }
    destruct state as [v k i c q s p|c]; rewrite (concat_app (encode_u8 _));
      (eapply run_step; [apply parses_decode_u8; solve_size|cbn beta]).
    + change (LOCAL_STATE_ENROLLMENT =? LOCAL_STATE_ENROLLMENT) with true. cbn iota.
      eapply run_step_last; [by apply parses_enrollment|]. by apply Hend.
    + change (LOCAL_STATE_PENDING_REMOVAL =? LOCAL_STATE_ENROLLMENT) with false.
      change (LOCAL_STATE_PENDING_REMOVAL =? LOCAL_STATE_PENDING_REMOVAL) with true. cbn iota.
      destruct Hs as [Hc Hl]. assert (1 ≤ len c) by (destruct c; [done|]; unfold len; cbn; lia).
      eapply (run_step_last _ _ _ (PendingRemoval c)); [|by apply Hend].
      eapply parses_bind_last; [apply parses_bounded_bytes; solve_size|]. by apply parses_lift, pending_removal_Ok.
Qed.

Lemma panic_free_expect_item {A} `{EqDecision A} (d : bytes → option (A * bytes)) (a : A) : panic_free (expect_item d a).
Proof. apply panic_free_bind; [apply panic_free_item|intros]. apply panic_free_guard. Qed.
Lemma panic_free_bounded_bytes minimum maximum : panic_free (bounded_bytes minimum maximum).
Proof.
  apply panic_free_bind; [apply panic_free_item|intros]. apply panic_free_bind; [apply panic_free_guard|intros].
  apply panic_free_ret.
Qed.
Lemma WindowsHelloLocalState_new_not_Panic v k i c s p : WindowsHelloLocalState_new v k i c s p ≠ Panic.
Proof.
  unfold WindowsHelloLocalState_new. pose proof (WindowsHelloProtector_decode_not_Panic p).
  destruct (WindowsHelloProtector_decode p); no_panic.
Qed.
Lemma set_pending_not_Panic c state : set_pending_removal_credential_id c state ≠ Panic.
Proof. destruct state; cbn; no_panic. Qed.
Lemma WindowsHelloLocalState_encode_not_Panic state : WindowsHelloLocalState_encode state ≠ Panic.
Proof. unfold WindowsHelloLocalState_encode. no_panic. Qed.
#[local] Hint Resolve panic_free_expect_item panic_free_bounded_bytes : panic_free.
#[local] Hint Resolve WindowsHelloLocalState_new_not_Panic set_pending_not_Panic WindowsHelloLocalState_encode_not_Panic : panic.

Lemma panic_free_enrollment : panic_free decode_enrollment.
Proof. intros bs Hp. unfold decode_enrollment, fixed_bytes, fixed_secret_bytes in Hp. inv_dec_panic Hp. Qed.
#[local] Hint Resolve panic_free_enrollment : panic_free.
Lemma WindowsHelloLocalState_decode_not_Panic bs : WindowsHelloLocalState_decode bs ≠ Panic.
Proof. unfold WindowsHelloLocalState_decode, pending_removal. decode_panic. Qed.

(** C38: the protected state is canonical: the decoder accepts exactly the encodings of
    valid states, an enrollment that agrees with its protector and whose pending
    credential is another one, or a pending credential alone; it never panics; and every
    valid state has an encoding, within the bound. *)
Theorem local_state_exact (bs : bytes) (state : WindowsHelloLocalState) :
  (WindowsHelloLocalState_decode bs = Ok state ↔ local_state_wf state ∧ WindowsHelloLocalState_encode state = Ok bs)
  ∧ (local_state_wf state → ∃ image, WindowsHelloLocalState_encode state = Ok image ∧ len image ≤ MAXIMUM_LOCAL_STATE_BYTES)
  ∧ WindowsHelloLocalState_decode bs ≠ Panic.
Proof.
  split_and!; [apply WindowsHelloLocalState_decode_iff| |apply WindowsHelloLocalState_decode_not_Panic].
  intros Hs. exists (wire (local_state_items state)). split; [by apply local_state_encode_wf|by apply local_state_size].
Qed.

(** C36: whatever builds a state or changes one, only valid states arise: a new
    enrollment is exactly the fields that were given, with nothing pending; marking a
    credential changes what is pending only, and fails for the one in use; clearing
    fails exactly where there is no enrollment. *)
Theorem local_states_valid (state : WindowsHelloLocalState) :
  (∀ v k i c s p, length v = 16%nat → length i = INSTALLATION_KEY_BYTES → length s = PRF_SALT_BYTES →
    WindowsHelloLocalState_new v k i c s p = Ok state → state = Enrollment v k i c None s p ∧ local_state_wf state)
  ∧ (∀ c, pending_removal c = Ok state → local_state_wf state ∧ pending_removal_credential_id state = Some c)
  ∧ (local_state_wf state →
      (∀ c state', set_pending_removal_credential_id c state = Ok state' →
        local_state_wf state' ∧ pending_removal_credential_id state' = Some c ∧ credential_id state' = credential_id state
        ∧ vault_binding state' = vault_binding state ∧ is_Some (credential_id state) ∧ credential_id state ≠ Some c)
      ∧ local_state_wf (clear_pending_removal_credential_id state).2
      ∧ ((clear_pending_removal_credential_id state).1 = true ↔ is_Some (vault_binding state))
      ∧ (is_Some (vault_binding state) → pending_removal_credential_id (clear_pending_removal_credential_id state).2 = None)).
Proof.
  split_and!.
  - intros v k i c s p Hv Hi Hs Hn. by apply WindowsHelloLocalState_new_Ok in Hn.
  - intros c Hc. by apply pending_removal_Ok in Hc as [-> ?].
  - intros Hwf. split_and!.
    + intros c state' (-> & Hc & [a Ha] & Hne)%set_pending_Ok. split_and!; [by apply with_pending_wf|..|by eexists|done]; by destruct state.
    + destruct state; [|done]. cbn in *. tauto.
    + destruct state; cbn; [|split; [done|by intros []]]. by split.
    + destruct state; cbn; [done|by intros []].
Qed.
End facts.

Module Examples.
Import Rfc8949 VaultFormat.Examples.

Definition protector_image : bytes := match WindowsHelloProtector_encode protector with Ok image => image | _ => [] end.
Lemma protector_image_encodes : WindowsHelloProtector_encode protector = Ok protector_image.
Proof. vm_compute. reflexivity. Qed.
Definition enrolled : WindowsHelloLocalState :=
  Enrollment (replicate 16 x11) 1 (replicate 32 xff) [x01] (Some (str "older")) (replicate 32 x13) protector_image.
Lemma enrolled_wf : local_state_wf enrolled.
Proof.
  do 2 (split; [by split|]). split; [done|]. split; [|by split_and!].
  exists protector. split_and!; [apply protector_wf|apply protector_image_encodes|done..].
Qed.
Lemma local_state_exact_witness :
  ∃ image, WindowsHelloLocalState_encode enrolled = Ok image ∧ WindowsHelloLocalState_decode image = Ok enrolled.
Proof.
  destruct (proj1 (proj2 (local_state_exact [] enrolled)) enrolled_wf) as (image & Himage & _).
  exists image. split; [exact Himage|]. apply (local_state_exact image enrolled). split; [exact enrolled_wf|exact Himage].
Defined.
Lemma local_states_valid_witness :
  local_state_wf (clear_pending_removal_credential_id enrolled).2
  ∧ pending_removal_credential_id (clear_pending_removal_credential_id enrolled).2 = None.
Proof.
  destruct (proj2 (proj2 (local_states_valid enrolled)) enrolled_wf) as (_ & Hwf & _ & Hnone).
  split; [exact Hwf|]. apply Hnone. by eexists.
Defined.
End Examples.
