(* ===== verification/Protection.v ===== *)
(** * Windows Hello protection of the vault ([runtime.rs] of [crates/vault-agent/src])

    Enrolling, unlocking with and removing the credential of this installation.  One
    operation at a time has the gate.  A credential that could not be removed from the
    platform is recorded in the protected state, so that a later operation removes it;
    a new enrollment is published, with the old credential marked for removal, before
    the old credential is removed. *)

From S2P Require Import Prelude RustStd Cbor Wire Types Message Session Operations Browser VaultFormat VaultRecords VaultKeys VaultStore Storage Agent Outcome Idempotency Ownership Threads Runtime Fill Passkeys Unlocking WindowsHello.

(** How often the thread that watches a ceremony looks before the ceremony has ended. *)
Class Ceremonies (W : Type) := { watcher_rounds : W → nat * W }.

Section protection.
Context `{Minicbor, Crypto, UrlCrate, RuntimeSetup}.
Context {W : Type} `{Env W, Host W, Sqlite W, Threads W, PathInspection W, PasskeyRequestVerifier W}.
Context `{WindowsHelloProvider W, WindowsHelloStateRepository W, Ceremonies W}.
Abbreviation rt A := (ag (W:=W) DispatchError A).

(** A check that ends the operation, or a value to go on with. *)
Definition or_return {A} (m : rt (ExecutionOutcome + A)) (k : A → rt ExecutionOutcome) : rt ExecutionOutcome :=
  r ← m; match r with inl outcome => mret outcome | inr a => k a end.

Definition map_windows_hello_provider_error (error : WindowsHelloProviderError) : ExecutionOutcome :=
  match error with
  | WindowsHelloProviderError.InvalidRequest => invalid
  | WindowsHelloProviderError.Cancelled => cancelled
  | _ => failed
  end.

Definition windows_hello_operation_id : stm W DispatchError bytes := λ w,
  let '(value, w) := getrandom_fill 16 w in
  (value ← ok_or value DispatchInternal; fail_if (all_zero value) DispatchInternal;; mret value, w).

(** ** The protected state *)

Definition bind_state (path : bytes) : stm W WindowsHelloStateError unit := λ w,
  let '(record, w) := ownership_record path w in
  let '(r, owned) := bind_windows_hello_state rs_ownership_token record (sh_owned (shared w)) in
  (map_err (λ _, WindowsHelloStateError.Failed) r, set_shared (set_owned (λ _, owned) (shared w)) w).

(** With the registry, the path is bound before the file is used and once more after;
    [rebound] is the result when it cannot be bound again. *)
Definition with_registry {A} (use : stm W WindowsHelloStateError A)
    (rebound : result WindowsHelloStateError A → WindowsHelloStateError) : stm W WindowsHelloStateError A :=
  match hello_ownership_path with
  | None => use
  | Some path =>
      acquire OwnedVaultsMutex WindowsHelloStateError.Failed;;
      finally (
        bind_state path;;
        result ← attempt use;
        bound ← attempt (bind_state path);
        if is_ok bound then of_result result else throw (rebound result)) (drop_guard OwnedVaultsMutex)
  end.

Definition is_published {A} (r : result WindowsHelloStateError A) : bool :=
  match r with Ok _ | Err WindowsHelloStateError.Published => true | _ => false end.

Definition load_windows_hello_state : stm W WindowsHelloStateError WindowsHelloLocalState :=
  with_registry hello_load (λ _, WindowsHelloStateError.Failed).
Definition save_windows_hello_state (state : WindowsHelloLocalState) : stm W WindowsHelloStateError unit :=
  with_registry (hello_save state)
    (λ r, if is_published r then WindowsHelloStateError.Published else WindowsHelloStateError.Failed).
Definition remove_windows_hello_state : stm W WindowsHelloStateError unit :=
  with_registry hello_remove_state (λ _, WindowsHelloStateError.Failed).

Definition ensure_absent_windows_hello_state : rt bool :=
  removed ← attempt (in_world remove_windows_hello_state);
  mret (match removed with Ok _ | Err WindowsHelloStateError.NotFound => true | _ => false end).

(** [matches!(self.save_windows_hello_state(..), Ok(()) | Err(Published))]. *)
Definition publish_state (state : WindowsHelloLocalState) : rt bool :=
  saved ← attempt (in_world (save_windows_hello_state state)); mret (is_published saved).

(** A credential that could not be removed is kept in the state. *)
Definition persist_windows_hello_cleanup (previous : option WindowsHelloLocalState) (credential_id : bytes) : rt bool :=
  match previous ≫= λ previous, vault_binding previous with
  | Some _ =>
      match previous ≫= λ previous, (match set_pending_removal_credential_id credential_id previous with
                                     | Ok state => Some state | _ => None end) with
      | Some state => publish_state state
      | None => mret false
      end
  | None =>
      match pending_removal credential_id with
      | Ok pending => publish_state pending
      | _ => mret false
      end
  end.

Definition remove_windows_hello_credential_or (previous : option WindowsHelloLocalState) (credential_id : bytes)
    (outcome : ExecutionOutcome) : rt ExecutionOutcome :=
  removed ← attempt (in_world (hello_remove credential_id));
  if is_ok removed then mret outcome
  else
    persisted ← persist_windows_hello_cleanup previous credential_id;
    mret (if persisted : bool then retryable_failure else failed).

(** The state afterwards, and whether nothing is left to remove. *)
Definition retry_persisted_windows_hello_retirement (state : WindowsHelloLocalState) : rt (bool * WindowsHelloLocalState) :=
  match pending_removal_credential_id state with
  | None => mret (true, state)
  | Some credential_id =>
      removed ← attempt (in_world (hello_remove credential_id));
      if negb (is_ok removed) then mret (false, state)
      else
        let '(cleared, state) := clear_pending_removal_credential_id state in
        if cleared : bool then published ← publish_state state; mret (published, state)
        else absent ← ensure_absent_windows_hello_state; mret (absent, state)
  end.

(** The replacement was published but cannot stay: the previous state comes back, then
    the new credential goes. *)
Definition rollback_windows_hello_enrollment (previous replacement : WindowsHelloLocalState) : rt ExecutionOutcome :=
  match credential_id previous, credential_id replacement with
  | Some previous_credential_id, Some replacement_credential_id =>
      if bool_decide (previous_credential_id = replacement_credential_id) then mret failed
      else
        restored ← publish_state previous;
        if negb restored then mret failed
        else remove_windows_hello_credential_or (Some previous) replacement_credential_id retryable_failure
  | _, _ => mret failed
  end.

Section request.
Context (registration : RequestRegistration) (deadline : Z).
#[local] Abbreviation is_cancelled := (Threads.is_cancelled (rr_cancellation registration)).

(** ** Ceremonies *)

Definition rounds {E} : stm W E nat := λ w, let '(n, w) := watcher_rounds w in (Ok n, w).

(** One look of the watching thread. *)
Definition watcher_round {E} (operation_id : bytes) : stm W E unit :=
  stop ← or_else is_cancelled (or_else lock_active (past deadline));
  if stop : bool then modify (hello_cancel operation_id) else mret tt.
Fixpoint watcher {E} (operation_id : bytes) (rounds : nat) : stm W E unit :=
  match rounds with
  | O => mret tt
  | S rounds => watcher_round operation_id;; watcher operation_id rounds
  end.

(** The ceremony, while another thread watches; once it has ended the watcher may be in
    its last round. *)
Definition run_windows_hello_ceremony {A} (operation_id : bytes) (ceremony : stm W WindowsHelloProviderError A) :
    stm W WindowsHelloProviderError A :=
  before ← rounds;
  watcher operation_id before;;
  result ← attempt ceremony;
  after ← rounds;
  watcher operation_id (Nat.min after 1);;
  of_result result.

Definition windows_hello_terminal_abort : rt (option ExecutionOutcome) :=
  in_world (
    revoked ← or_else is_cancelled lock_active;
    if revoked : bool then mret (Some cancelled) else
    late ← past deadline;
    mret (if late : bool then Some deadline_outcome else None)).

(** ** Enrolling *)

Section enrolling.
Context (parent_window authenticated_process_id request_epoch : Z).
#[local] Abbreviation pre_check := (pre_check request_epoch registration deadline).

(** The state that is stored, if there is one. *)
Definition stored_enrollment : rt (ExecutionOutcome + option WindowsHelloLocalState) :=
  loaded ← attempt (in_world load_windows_hello_state);
  match loaded with
  | Ok state => mret (inr (Some state))
  | Err WindowsHelloStateError.NotFound =>
      absent ← ensure_absent_windows_hello_state;
      mret (if absent : bool then inr None else inl retryable_failure)
  | Err _ => mret (inl failed)
  | Panic => of_result Panic
  end.

Definition retire_previous (previous : option WindowsHelloLocalState) :
    rt (ExecutionOutcome + option WindowsHelloLocalState) :=
  match previous with
  | None => mret (inr None)
  | Some state =>
      retired ← retry_persisted_windows_hello_retirement state;
      mret (if retired.1 : bool then inr (Some retired.2) else inl retryable_failure)
  end.

Definition empty_success : rt ExecutionOutcome := body ← encoded encode_empty_result; mret (success body).

Section credential.
Context (previous : option WindowsHelloLocalState) (permit : OperationPermit) (binding : bytes * Z).

(** The new state is in place, but cannot stay. *)
Definition undo_enrollment (local_state : WindowsHelloLocalState) : rt ExecutionOutcome :=
  match previous with
  | Some previous => rollback_windows_hello_enrollment previous local_state
  | None => mret retryable_failure
  end.

(** The new state is in place: the old credential is removed, then unmarked. *)
Definition finish_enrollment (local_state : WindowsHelloLocalState) : rt ExecutionOutcome :=
  match pending_removal_credential_id local_state with
  | Some pending_removal =>
      removed ← attempt (in_world (hello_remove pending_removal));
      if negb (is_ok removed) then undo_enrollment local_state
      else
        let '(cleared, local_state) := clear_pending_removal_credential_id local_state in
        if negb cleared then throw DispatchInternal
        else
          published ← publish_state local_state;
          if published : bool then outcome ← empty_success; mret (commit_point outcome)
          else mret retryable_failure
  | None => outcome ← empty_success; mret (commit_point outcome)
  end.

(** With the commit gate; [inr] is the outcome, if it is known, once the gate is
    given back and the credential was removed. *)
Definition commit_enrollment (local_state : WindowsHelloLocalState) :
    rt (ExecutionOutcome + option ExecutionOutcome) :=
  guarded CommitGate (
    refused ← pre_check;
    match refused with
    | Some outcome => mret (inr (Some outcome))
    | None =>
        saved ← attempt (in_world (save_windows_hello_state local_state));
        match saved with
        | Ok _ => outcome ← finish_enrollment local_state; mret (inl outcome)
        | Err WindowsHelloStateError.Published => outcome ← undo_enrollment local_state; mret (inl outcome)
        | Err _ => mret (inr None)
        | Panic => of_result Panic
        end
    end).

(** With the vault: the protector, if the vault is still the one that was authorised. *)
Definition make_protector (installation_key : bytes) (enrollment : WindowsHelloEnrollment) :
    rt (option (result AgentUnlockError bytes)) :=
  with_vault (
    a ← the_agent;
    if negb (operation_is_authorized a permit) || bool_decide (authenticated_vault_binding a ≠ Some binding)
    then mret None
    else
      other ← in_world (other_epoch request_epoch);
      if other : bool then mret None
      else
        protector ← attempt (agent_create_windows_hello_protector installation_key (en_credential_id enrollment)
          (en_prf_salt enrollment) (en_prf_output enrollment));
        mret (Some protector)).

(** The old credential is marked for removal. *)
Definition mark_previous (credential : bytes) (local_state : WindowsHelloLocalState) :
    result WindowsHelloStateError WindowsHelloLocalState :=
  match previous ≫= credential_id with
  | Some previous_credential_id =>
      if bool_decide (previous_credential_id ≠ credential)
      then set_pending_removal_credential_id previous_credential_id local_state
      else mret local_state
  | None => mret local_state
  end.

Definition local_state_for (installation_key : bytes) (enrollment : WindowsHelloEnrollment) (protector : bytes) :
    result WindowsHelloStateError WindowsHelloLocalState :=
  local_state ← WindowsHelloLocalState_new binding.1 binding.2 installation_key (en_credential_id enrollment)
    (en_prf_salt enrollment) protector;
  mark_previous (en_credential_id enrollment) local_state.

(** [getrandom::fill(..).is_err() || key == [0; 32]]. *)
Definition random_installation_key : stm W DispatchError (option bytes) := λ w,
  let '(key, w) := getrandom_fill 32 w in
  (Ok (match key with Some key => if all_zero key then None else Some key | None => None end), w).

(** The platform has made a credential: it is published, or it is removed again. *)
Definition keep_enrollment (enrollment : WindowsHelloEnrollment) : rt ExecutionOutcome :=
  let abandon := remove_windows_hello_credential_or previous (en_credential_id enrollment) in
  aborted ← windows_hello_terminal_abort;
  match aborted with Some outcome => abandon outcome | None =>
  other ← in_world (other_epoch request_epoch);
  if other : bool then abandon locked_outcome else
  key ← in_world random_installation_key;
  match key with None => abandon failed | Some installation_key =>
  protector ← make_protector installation_key enrollment;
  match protector with
  | None => abandon locked_outcome
  | Some (Ok protector) =>
      match local_state_for installation_key enrollment protector with
      | Ok local_state =>
          aborted ← windows_hello_terminal_abort;
          match aborted with Some outcome => abandon outcome | None =>
          ended ← commit_enrollment local_state;
          match ended with
          | inl outcome => mret outcome
          | inr (Some outcome) => abandon outcome
          | inr None => aborted ← windows_hello_terminal_abort; abandon (default failed aborted)
          end
          end
      | Err _ => abandon failed
      | Panic => of_result Panic
      end
  | Some (Err _) => abandon failed
  | Some Panic => of_result Panic
  end end end.

Definition make_enrollment : rt ExecutionOutcome :=
  unless pre_check (
  operation_id ← in_world windows_hello_operation_id;
  enrollment ← attempt (in_world (run_windows_hello_ceremony operation_id
    (hello_enroll parent_window authenticated_process_id operation_id)));
  match enrollment with
  | Ok enrollment => keep_enrollment enrollment
  | Err (WindowsHelloProviderError.CleanupRequired credential_id) =>
      persisted ← persist_windows_hello_cleanup previous credential_id;
      mret (if persisted : bool then retryable_failure else failed)
  | Err error => mret (map_windows_hello_provider_error error)
  | Panic => of_result Panic
  end).
End credential.

(** With the gate of Windows Hello. *)
Definition enroll_gated : rt ExecutionOutcome :=
  unless pre_check (
  authority ← with_vault (
    a ← the_agent;
    mret (permit ← begin_operation a; binding ← authenticated_vault_binding a; Some (permit, binding)));
  match authority with
  | None => mret locked_outcome
  | Some (permit, binding) =>
      or_return stored_enrollment (λ stored,
      let recovering_retirement := bool_decide (is_Some (stored ≫= pending_removal_credential_id)) in
      or_return (retire_previous stored) (λ previous,
      match previous with
      | Some state =>
          if bool_decide (vault_binding state = None) then make_enrollment None permit binding
          else if recovering_retirement && bool_decide (vault_binding state = Some binding)
          then unless pre_check empty_success
          else make_enrollment previous permit binding
      | None => make_enrollment None permit binding
      end))
  end).

Definition configured : bool := rs_windows_hello_provider && rs_windows_hello_state.
Definition enroll_windows_hello : rt ExecutionOutcome :=
  if negb configured then mret failed else
  unless pre_check (with_flag HelloFlag (guarded WindowsHelloGate enroll_gated)).
End enrolling.

(** ** Unlocking *)

(** The transition has ended without a session. *)
Definition end_unlocking (outcome : ExecutionOutcome) : rt ExecutionOutcome :=
  in_world set_locked_unless_shutting_down;; mret outcome.

(** The enrollment that is stored; what is still to be removed is removed first. *)
Definition usable_enrollment : rt (ExecutionOutcome + WindowsHelloLocalState) :=
  loaded ← attempt (in_world load_windows_hello_state);
  match loaded with
  | Ok state =>
      retired ← retry_persisted_windows_hello_retirement state;
      mret (if retired.1 : bool then inr retired.2 else inl retryable_failure)
  | Err WindowsHelloStateError.NotFound =>
      absent ← ensure_absent_windows_hello_state;
      mret (inl (if absent : bool then failed else retryable_failure))
  | Err _ => mret (inl failed)
  | Panic => of_result Panic
  end.

(** Under the commit gate: the epoch in which the ceremony begins. *)
Definition begin_hello_unlock (request_epoch : Z) : rt (ExecutionOutcome + Z) :=
  guarded CommitGate (
    aborted ← windows_hello_terminal_abort;
    match aborted with Some outcome => mret (inl outcome) | None =>
    other ← in_world (other_epoch request_epoch);
    if other : bool then mret (inl locked_outcome) else
    start_epoch ← in_world the_epoch;
    began ← in_world (exchange_state Types.Locked Unlocking);
    mret (if began : bool then inr start_epoch else inl (failure PublicErrorCode.Conflict Never))
    end).

(** With the vault held: the agent unlocks, and the vault's identifier is read. *)
Definition unlock_hello_core (local_state : WindowsHelloLocalState) (credential prf_output : bytes) :
    rt (ExecutionOutcome + result AgentUnlockError unit * option bytes) :=
  with_vault (
    match installation_key local_state, protector local_state with
    | Some installation_key, Some protector =>
        result ← attempt (unlock_with_windows_hello_before_publish prf_output installation_key credential protector
          capture_ownership);
        a ← the_agent;
        mret (inr (result, if is_ok result then authenticated_vault_id a else None))
    | _, _ => outcome ← end_unlocking failed; mret (inl outcome)
    end).

(** [authenticated_ownership] is what the closure of the unlock assigned. *)
Definition publish_captured (authenticated_vault_id : bytes) : rt ExecutionOutcome := λ p,
  publish_authenticated_unlock registration deadline (sh_authenticated_ownership (shared (world p)))
    authenticated_vault_id p.

(** The end of an unlock: a session is published or everything is locked again. *)
Definition conclude_hello_unlock (result : result AgentUnlockError unit) (authenticated_vault_id : option bytes) :
    rt ExecutionOutcome :=
  aborted ← windows_hello_terminal_abort;
  match aborted with Some outcome => relock outcome | None =>
  match result with
  | Ok _ =>
      recovered ← cleanup_recovered_passkey_creations registration deadline;
      match recovered with
      | Some outcome => relock outcome
      | None =>
          authenticated_vault_id ← of_result (ok_or authenticated_vault_id DispatchInternal);
          publish_captured authenticated_vault_id
      end
  | Err AgentUnlockCancelled => end_unlocking cancelled
  | Err AgentUnlockFailed => end_unlocking failed
  | Panic => of_result Panic
  end end.

Definition unlock_hello_ceremony (parent_window authenticated_process_id start_epoch : Z)
    (local_state : WindowsHelloLocalState) (operation_id credential prf_salt : bytes) : rt ExecutionOutcome :=
  prf_output ← attempt (in_world (run_windows_hello_ceremony operation_id
    (hello_evaluate parent_window authenticated_process_id operation_id credential prf_salt)));
  match prf_output with
  | Ok prf_output =>
      aborted ← windows_hello_terminal_abort;
      match aborted with Some outcome => end_unlocking outcome | None =>
      moved ← in_world (or_else (other_epoch start_epoch) not_unlocking);
      if moved : bool then end_unlocking cancelled else
      modify (on_world (λ w, set_shared (set_authenticated_ownership None (shared w)) w));;
      or_return (unlock_hello_core local_state credential prf_output) (λ unlocked,
        conclude_hello_unlock unlocked.1 unlocked.2)
      end
  | Err error => end_unlocking (map_windows_hello_provider_error error)
  | Panic => of_result Panic
  end.

Definition unlock_windows_hello (parent_window authenticated_process_id request_epoch : Z) : rt ExecutionOutcome :=
  if negb configured then mret failed else
  state ← in_world the_state;
  if bool_decide (state = Unlocking) then mret busy else
  state ← in_world the_state;
  if bool_decide (state ≠ Types.Locked) then mret (failure PublicErrorCode.Conflict Never) else
  with_flag HelloFlag (guarded WindowsHelloGate (
  or_return usable_enrollment (λ local_state,
  match credential_id local_state, prf_salt local_state with
  | Some credential, Some prf_salt =>
      operation_id ← in_world windows_hello_operation_id;
      or_return (begin_hello_unlock request_epoch) (λ start_epoch,
      unlock_hello_ceremony parent_window authenticated_process_id start_epoch local_state operation_id credential prf_salt)
  | _, _ => mret failed
  end))).

(** ** Removing *)

Section removing.
Context (request_epoch : Z).
#[local] Abbreviation pre_check := (pre_check request_epoch registration deadline).

(** The vault is the one that the state is bound to. *)
Definition bound_vault (binding : bytes * Z) : rt bool :=
  with_vault (a ← the_agent; mret (bool_decide (authenticated_vault_binding a = Some binding))).

(** Under the commit gate: the credential goes, then the state. *)
Definition remove_enrollment (binding : bytes * Z) (credential : bytes) : rt ExecutionOutcome :=
  guarded CommitGate (
    unless pre_check (
    bound ← bound_vault binding;
    if negb bound then mret failed else
    removed ← attempt (in_world (hello_remove credential));
    if negb (is_ok removed) then mret retryable_failure else
    absent ← ensure_absent_windows_hello_state;
    if absent : bool then outcome ← empty_success; mret (commit_point outcome) else mret retryable_failure)).

(** With the gate of Windows Hello. *)
Definition remove_gated : rt ExecutionOutcome :=
  loaded ← attempt (in_world load_windows_hello_state);
  match loaded with
  | Ok state =>
      retired ← retry_persisted_windows_hello_retirement state;
      let local_state := retired.2 in
      if negb retired.1 then mret retryable_failure
      else
        match vault_binding local_state with
        | None => empty_success
        | Some binding =>
            credential ← of_result (ok_or (credential_id local_state) DispatchInternal);
            bound ← bound_vault binding;
            if negb bound then mret failed
            else unless pre_check (remove_enrollment binding credential)
        end
  | Err WindowsHelloStateError.NotFound =>
      absent ← ensure_absent_windows_hello_state;
      if absent : bool then empty_success else mret retryable_failure
  | Err _ => mret failed
  | Panic => of_result Panic
  end.

Definition remove_windows_hello : rt ExecutionOutcome :=
  if negb configured then mret failed else
  unless pre_check (with_flag HelloFlag (guarded WindowsHelloGate remove_gated)).
End removing.
End request.
End protection.
