(* ===== verification/Dispatch.v ===== *)
(** * Dispatching requests ([runtime.rs] of [crates/vault-agent/src])

    A request is admitted under the commit gate, executed without it, and its response
    is written under it again: there a lock, a cancellation or the end of the
    connection cannot come between the last check and the response. *)

From S2P Require Import Prelude RustStd Cbor Wire Types Frame Message Session Operations Browser VaultRecords VaultKeys VaultStore Storage Agent Outcome Idempotency Ownership Threads Runtime Fill Passkeys Unlocking WindowsHello Protection.

(** The connection that a thread serves; others may cancel its requests or close it. *)
Class Serving (W : Type) := {
  connection : W → Session.Connection;
  set_connection : Session.Connection → W → W;
}.

(** [Hmac::<Sha256>]: [None] if the key is refused. *)
Class Mac := { hmac_sha256 : bytes → bytes → option bytes }.

Record DispatchContext := {
  dc_permit : RequestPermit;
  dc_registration : RequestRegistration;
  dc_deadline : Z;
  dc_correlation : bytes;
}.
Inductive RequestAdmission :=
  | RequestAdmitted (context : DispatchContext)
  | RequestRejected (response : ResponseEnvelope).

Section world.
Context `{Minicbor, Mac, RuntimeSetup}.
Context {W : Type} `{Env W, Threads W, Serving W}.

(** A method of the connection, which locks its state. *)
Definition on_connection {E A} (method : Session.Connection → result E A * Session.Connection) : stm W E A := λ w,
  let w := others w in
  let '(r, c) := method (connection w) in
  (r, set_connection c w).
(** What never changes of the connection. *)
Definition of_connection {E A} (field : Session.Connection → A) : stm W E A := λ w, (Ok (field (connection w)), w).

(** ** Admission *)

Definition correlation_id : stm W DispatchError bytes := λ w,
  let '(b, w) := getrandom_fill 16 w in
  (bytes ← ok_or b DispatchInternal; fail_if (bool_decide (bytes = zeros 16)) DispatchInternal;; mret bytes, w).

Definition request_deadline (started effective_timeout_ms : Z) : result DispatchError Z :=
  ok_or (instant_checked_add (W:=W) started (effective_timeout_ms * 1000000)) DispatchInternal.

Definition rejection (error : PublicErrorCode) (retry : RetryCategory) (correlation : bytes) :
    stm W DispatchError RequestAdmission :=
  response ← of_result (map_err protocol_internal (ResponseEnvelope_failure error retry correlation));
  mret (RequestRejected response).

Definition reject_busy (deadline : Z) (correlation : bytes) : stm W DispatchError RequestAdmission :=
  late ← past deadline;
  let outcome := if late : bool then deadline_outcome else busy in
  error ← of_result (ok_or (eo_error outcome) DispatchInternal);
  rejection error (eo_retry outcome) correlation.

Definition drop_counter (w : W) : W := (counter_drop (E:=unit) w).2.
Definition forget_registration (registration : RequestRegistration) (w : W) : W :=
  (drop_registration registration w).2.
(** [drop(context)]. *)
Definition drop_context (context : DispatchContext) (w : W) : W :=
  forget_registration (dc_registration context) (drop_counter w).

Definition is_cancelled_on (permit : RequestPermit) {E} : stm W E bool :=
  on_connection (λ c, (Ok (Session.is_cancelled c permit), c)).

(** With the commit gate: what becomes of the reply of [begin_request]. *)
Definition admit_permit (admission_started : Z) (permit : result BeginRequestError RequestPermit) (correlation : bytes) :
    stm W DispatchError RequestAdmission :=
  match permit with
  | Err Unauthorized => rejection PublicErrorCode.UnauthorizedOperation Never correlation
  | Err (Busy effective_timeout_ms) =>
      deadline ← of_result (request_deadline admission_started effective_timeout_ms);
      reject_busy deadline correlation
  | Err StaleEpoch => rejection PublicErrorCode.Locked AfterUnlock correlation
  | Err MissingIdempotencyKey => rejection PublicErrorCode.InvalidRequest Never correlation
  | Err (BeginConnection error) => throw (DispatchConnection error)
  | Panic => of_result Panic
  | Ok permit =>
      deadline ← of_result (request_deadline admission_started (permit_effective_timeout_ms permit));
      global ← counter_acquire MAX_IN_FLIGHT_GLOBAL;
      if negb global then
        map_err_st DispatchConnection (on_connection (finish permit));;
        reject_busy deadline correlation
      else
        on_failure (
          connection_id ← of_connection cn_connection_id;
          registration ← register {| rk_connection_id := connection_id; rk_request_id := permit_request_id permit |};
          already ← is_cancelled_on permit;
          (if already : bool then cancel_flag (rr_cancellation registration) else mret tt);;
          mret (RequestAdmitted {| dc_permit := permit; dc_registration := registration; dc_deadline := deadline;
                            dc_correlation := correlation |})) drop_counter
  end.

(** The gate is passed on to the caller with a rejection. *)
Definition admit_request (header : FrameHeader) (envelope : RequestEnvelope) (correlation : bytes) :
    stm W DispatchError RequestAdmission :=
  admission_started ← now;
  epoch ← the_epoch;
  permit ← attempt (on_connection (begin_request header envelope epoch));
  acquire CommitGate DispatchInternal;;
  admission ← on_failure (admit_permit admission_started permit correlation) (drop_guard CommitGate);
  match admission with
  | RequestAdmitted _ => modify (drop_guard CommitGate);; mret admission
  | RequestRejected _ => mret admission
  end.

(** ** Responses *)

Definition outcome_is_still_authorized {E} (permit : RequestPermit) (outcome : ExecutionOutcome) : stm W E bool :=
  let unlocked := or_else lock_active not_unlocked in
  match permit_operation permit with
  | OperationCode.Status | OperationCode.Lock => mret (bool_decide (eo_error outcome = None))
  | OperationCode.CreateVault | OperationCode.UnlockMasterPassword | OperationCode.UnlockWindowsHello =>
      b ← unlocked; mret (negb b)
  | operation =>
      if OperationCode.requires_unlocked_epoch operation then
        b ← or_else unlocked (other_epoch (permit_unlock_epoch permit)); mret (negb b)
      else mret false
  end.

Definition bounded_response (response : ResponseEnvelope) (correlation : bytes) :
    stm W DispatchError ResponseEnvelope :=
  fits ← of_connection (λ c, response_fits c response);
  if fits : bool then mret response else
  failure ← of_result (map_err protocol_internal
    (ResponseEnvelope_failure PublicErrorCode.OperationFailed Never correlation));
  fits ← of_connection (λ c, response_fits c failure);
  if fits : bool then mret failure else throw (DispatchConnection ConnectionError.InvalidLimit).

(** The outcome of a request that has not committed, after its completion. *)
Definition revise (context : DispatchContext) (completion : RequestCompletion) (outcome : ExecutionOutcome) :
    stm W DispatchError ExecutionOutcome :=
  let permit := dc_permit context in
  if eo_committed outcome then mret outcome else
  if bool_decide (completion = CompletedCancelled) then mret cancelled else
  if bool_decide (eo_error outcome = None) || bool_decide (eo_error outcome = Some PublicErrorCode.NotFound) then
    flag ← Threads.is_cancelled (rr_cancellation (dc_registration context));
    if flag && negb (bool_decide (permit_operation permit = OperationCode.Lock)) then mret cancelled else
    late ← past (dc_deadline context);
    if late : bool then mret deadline_outcome else
    authorized ← or_else (outcome_is_still_authorized permit outcome)
      (mret (eo_replayed outcome && bool_decide (permit_operation permit = OperationCode.CreateVault)));
    mret (if authorized : bool then outcome else locked_outcome)
  else mret outcome.

(** The outcome of a browser fill depends on its deadline and on the accounts. *)
Definition revise_browser (outcome : ExecutionOutcome) : stm W DispatchError ExecutionOutcome :=
  late ← from_option past (mret false) (eo_browser_deadline outcome);
  let outcome := if late : bool then deadline_outcome else outcome in
  changed ← from_option (λ generation,
    if generation =? max_of 64 then mret true
    else current ← observe (λ s, rt_accounts_generation (sh_runtime s)); mret (negb (generation =? current)))
    (mret false) (eo_browser_generation outcome);
  mret (if changed : bool then failure PublicErrorCode.Conflict Never else outcome).

Definition is_browser_operation (operation : OperationCode) : bool :=
  match operation with
  | OperationCode.ExactOriginMatches | OperationCode.GetSelectedCredential => true
  | _ => false
  end.
Definition reports_status (operation : OperationCode) : bool :=
  match operation with
  | OperationCode.Status | OperationCode.CreateVault => true
  | _ => false
  end.

(** [if let Some(slot) = .. { *slot = None }]. *)
Definition revoke_lease (connection_id : bytes) : stm W DispatchError unit :=
  with_mutex BrowserLeasesMutex (λ s,
    (Ok tt, set_leases (alter (λ _, None) connection_id (rt_browser_leases (sh_runtime s))) s)).

(** With the commit gate: from the outcome to the response. *)
Definition conclude (context : DispatchContext) (outcome : ExecutionOutcome) : stm W DispatchError ResponseEnvelope :=
  let operation := permit_operation (dc_permit context) in
  completion ← map_err_st DispatchConnection (on_connection (finish (dc_permit context)));
  outcome ← revise context completion outcome;
  outcome ← revise_browser outcome;
  (if bool_decide (is_Some (eo_error outcome)) && is_browser_operation operation then
     connection_id ← of_connection cn_connection_id; revoke_lease connection_id
   else mret tt);;
  outcome ← (if bool_decide (eo_error outcome = None) && reports_status operation then
      state ← the_state;
      epoch ← the_epoch;
      body ← of_result (map_err protocol_internal (encode_status state epoch));
      mret (success body)
    else mret outcome);
  response ← of_result (into_response outcome (dc_correlation context));
  bounded_response response (dc_correlation context).

(** The permit of a lock that has just been made, if the outcome holds it. *)
Definition with_lock_transition {A} (held : bool) (body : stm W DispatchError A) : stm W DispatchError A :=
  if held then modify (flag_take_over LockFlag);; finally body (flag_drop LockFlag) else body.

Definition finish_dispatch {A} (context : DispatchContext) (outcome : ExecutionOutcome)
    (write_response : ResponseEnvelope → stm W DispatchError A) : stm W DispatchError A :=
  written ← on_failure (
    with_lock_transition (eo_holds_lock_transition outcome) (
      acquire CommitGate DispatchInternal;;
      finally (
        response ← conclude context outcome;
        written ← attempt (write_response response);
        modify (drop_context context);;
        mret written) (drop_guard CommitGate))) (drop_context context);
  of_result written.

(** ** Identifying requests *)

Definition request_fingerprint (operation : OperationCode) (unlock_epoch : Z) (body : bytes) :
    result DispatchError bytes :=
  let requires_unlocked_epoch := OperationCode.requires_unlocked_epoch operation in
  ok_or (hmac_sha256 rs_idempotency_fingerprint_key (
    str "Librarian idempotency request v2" ++ [x00]
    ++ to_be_bytes 2 (OperationCode.code operation)
    ++ [byte_of_Z (Z.b2z requires_unlocked_epoch)]
    ++ (if requires_unlocked_epoch then to_be_bytes 8 unlock_epoch else [])
    ++ body)) DispatchInternal.

Definition passkey_binding_failure (operation : OperationRequest) (request_id : Z) (connection_id : bytes) :
    option ExecutionOutcome :=
  let valid_request_id :=
    match operation with
    | OperationRequest.RollbackPasskeyCreation _ _ => (request_id =? 2) || (request_id =? 3)
    | OperationRequest.ConfirmPasskeyCreation _ _ => request_id =? 2
    | _ => request_id =? 1
    end in
  match OperationRequest_passkey_proof operation with
  | Some proof =>
      if negb valid_request_id || bool_decide (pt_agent_challenge proof ≠ connection_id)
      then Some (failure PublicErrorCode.InvalidRequest Never) else None
  | None => None
  end.
End world.

(** ** Execution *)

Section dispatch.
Context `{Minicbor, Crypto, UrlCrate, Mac, RuntimeSetup}.
Context {W : Type} `{Env W, Host W, Sqlite W, Threads W, PathInspection W, PasskeyRequestVerifier W, Serving W}.
Context `{WindowsHelloProvider W, WindowsHelloStateRepository W, Ceremonies W}.
Abbreviation rt A := (ag (W:=W) DispatchError A).

(** [Drop for IdempotencyReservation]: nothing if the mutex is poisoned. *)
Definition drop_reservation (key : bytes) (w : W) : W :=
  (with_mutex IdempotencyMutex (λ s, (Ok tt, set_idempotency (abandon key (rt_idempotency (sh_runtime s))) s)) w).2.

Definition cached_outcome (request_fingerprint : bytes) (outcome : ExecutionOutcome) : CachedOutcome :=
  {| co_request_fingerprint := request_fingerprint; co_error := eo_error outcome; co_retry := eo_retry outcome;
     co_body := eo_body outcome |}.

(** A critical section of the idempotency state. *)
Definition on_idempotency {A} (m : stm IdempotencyState DispatchError A) : stm W DispatchError A :=
  with_mutex IdempotencyMutex (λ s,
    let '(r, i) := m (rt_idempotency (sh_runtime s)) in (r, set_idempotency i s)).

Definition execute_idempotent (key request_fingerprint : bytes)
    (validate_replay : rt (option ExecutionOutcome)) (execute : rt ExecutionOutcome) : rt ExecutionOutcome :=
  admission ← in_world (on_idempotency (reserve key request_fingerprint));
  match admission with
  | Answered outcome => mret outcome
  | Replay replay =>
      rejection ← validate_replay;
      mret (default replay rejection)
  | Reserved =>
      outcome ← on_failure execute (on_world (drop_reservation key));
      in_world (on_idempotency (complete key
        (if should_cache outcome then Some (cached_outcome request_fingerprint outcome) else None)));;
      mret outcome
  end.

(** Creating a vault is not modelled. *)
Context (create_vault : bytes → RequestRegistration → Z → rt ExecutionOutcome).
Context (fuel : nat).

Definition execute (operation : OperationRequest) (request_epoch : Z) (connection_id : bytes)
    (authenticated_process_id : Z) (registration : RequestRegistration) (deadline : Z) : rt ExecutionOutcome :=
  revoked ← in_world (Threads.is_cancelled (rr_cancellation registration));
  if revoked : bool then mret cancelled else
  late ← in_world (past deadline);
  if late : bool then mret deadline_outcome else
  match operation with
  | OperationRequest.Status => mret (success [])
  | OperationRequest.ExactOriginMatches context => browser_fill context None request_epoch registration deadline
  | OperationRequest.GetSelectedCredential context selection =>
      browser_fill context (Some selection) request_epoch registration deadline
  | OperationRequest.CreateVault master_password => create_vault master_password registration deadline
  | OperationRequest.UnlockMasterPassword master_password => unlock_vault registration deadline master_password
  | OperationRequest.Lock => lock_vault
  | OperationRequest.ListAccountSummaries offset limit =>
      list_accounts offset limit request_epoch registration deadline
  | OperationRequest.GetAccount id => get_account id request_epoch registration deadline
  | OperationRequest.AddAccount fields => add_account fields request_epoch registration deadline
  | OperationRequest.UpdateAccount id fields => update_account id fields request_epoch registration deadline
  | OperationRequest.DeleteAccount id => delete_account id request_epoch registration deadline
  | OperationRequest.EnrollWindowsHello parent_window =>
      enroll_windows_hello registration deadline parent_window authenticated_process_id request_epoch
  | OperationRequest.UnlockWindowsHello parent_window =>
      unlock_windows_hello registration deadline parent_window authenticated_process_id request_epoch
  | OperationRequest.RemoveWindowsHello => remove_windows_hello registration deadline request_epoch
  | OperationRequest.MakePasskey proof =>
      make_passkey request_epoch registration deadline fuel proof connection_id authenticated_process_id
  | OperationRequest.GetPasskeyAssertion proof credential_id =>
      get_passkey_assertion request_epoch registration deadline proof credential_id
  | OperationRequest.DeletePasskey credential_id => delete_passkey request_epoch registration deadline credential_id
  | OperationRequest.ListPasskeysForAssertion proof =>
      list_passkeys_for_assertion request_epoch registration deadline proof
  | OperationRequest.ListPasskeys => list_passkeys request_epoch registration deadline
  | OperationRequest.ConfirmPasskeyCreation proof credential_id =>
      confirm_passkey_creation request_epoch registration deadline proof credential_id connection_id
        authenticated_process_id
  | OperationRequest.RollbackPasskeyCreation proof credential_id =>
      rollback_passkey_creation request_epoch registration deadline proof credential_id connection_id
        authenticated_process_id
  end.

Definition binding_failure (context : DispatchContext) (operation : OperationRequest) : rt (option ExecutionOutcome) :=
  connection_id ← in_world (of_connection cn_connection_id);
  mret (passkey_binding_failure operation (permit_request_id (dc_permit context)) connection_id).

Definition execute_decoded (operation : OperationRequest) (context : DispatchContext) : rt ExecutionOutcome :=
  unless (binding_failure context operation) (
  connection_id ← in_world (of_connection cn_connection_id);
  process_id ← in_world (of_connection cn_process_id);
  execute operation (permit_unlock_epoch (dc_permit context)) connection_id process_id (dc_registration context)
    (dc_deadline context)).

Definition execute_body (envelope : RequestEnvelope) (context : DispatchContext) : rt ExecutionOutcome :=
  match OperationRequest_decode (re_operation envelope) (re_body envelope) with
  | Ok operation => execute_decoded operation context
  | Err error => mret (map_operation_decode_error error)
  | Panic => of_result Panic
  end.
Definition validate_replay (envelope : RequestEnvelope) (context : DispatchContext) : rt (option ExecutionOutcome) :=
  match OperationRequest_decode (re_operation envelope) (re_body envelope) with
  | Ok operation => binding_failure context operation
  | Err _ => mret None
  | Panic => of_result Panic
  end.

Definition execute_request (envelope : RequestEnvelope) (context : DispatchContext) : rt ExecutionOutcome :=
  if OperationCode.requires_idempotency_key (permit_operation (dc_permit context)) then
    idempotency_key ← of_result (ok_or (re_idempotency_key envelope) DispatchInternal);
    request_fingerprint ← of_result (request_fingerprint (re_operation envelope)
      (permit_unlock_epoch (dc_permit context)) (re_body envelope));
    execute_idempotent idempotency_key request_fingerprint (validate_replay envelope context)
      (execute_body envelope context)
  else execute_body envelope context.

Definition dispatch_with_admission {A} (header : FrameHeader) (envelope : RequestEnvelope) (on_admitted : W → W)
    (write_response : ResponseEnvelope → stm W DispatchError A) : rt A :=
  correlation ← in_world correlation_id;
  admission ← in_world (admit_request header envelope correlation);
  match admission with
  | RequestRejected response =>
      finally (
        modify (on_world on_admitted);;
        in_world (
          response ← bounded_response response correlation;
          write_response response)) (on_world (drop_guard CommitGate))
  | RequestAdmitted context =>
      outcome ← on_failure (modify (on_world on_admitted);; execute_request envelope context)
        (on_world (drop_context context));
      in_world (finish_dispatch context outcome write_response)
  end.

Definition dispatch {A} (header : FrameHeader) (envelope : RequestEnvelope)
    (write_response : ResponseEnvelope → stm W DispatchError A) : rt A :=
  dispatch_with_admission header envelope id write_response.

(** ** Other calls *)

Definition status_snapshot : rt (AgentState * Z) :=
  guarded CommitGate (in_world (state ← the_state; epoch ← the_epoch; mret (state, epoch))).

Definition cancel_request (connection_id : bytes) (request_id : Z) : stm W DispatchError bool :=
  coordinator_cancel {| rk_connection_id := connection_id; rk_request_id := request_id |}.

Definition apply_cancel (header : FrameHeader) : rt unit :=
  guarded CommitGate (in_world (
    connection_id ← of_connection cn_connection_id;
    map_err_st DispatchConnection (on_connection (Session.cancel header));;
    cancel_request connection_id (request_id header);;
    mret tt)).

(** [retain]: the confirmed creations of the connection are forgotten, the others marked. *)
Definition abandon_creations (connection_id : bytes)
    (m : gmap PendingPasskeyCreationKey PendingPasskeyCreation) : gmap PendingPasskeyCreationKey PendingPasskeyCreation :=
  map_imap (λ key pending,
    if bool_decide (pk_connection_id key ≠ connection_id) then Some pending
    else if pp_confirmed pending then None
    else Some (disconnected pending)) m.

Definition remove_lease (connection_id : bytes) : stm W DispatchError unit :=
  with_mutex BrowserLeasesMutex (λ s,
    (Ok tt, set_leases (delete connection_id (rt_browser_leases (sh_runtime s))) s)).

Definition disconnect : rt unit :=
  guarded CommitGate (in_world (
    connection_id ← of_connection cn_connection_id;
    on_connection (λ c, (Ok tt, Session.close c));;
    cancel_connection connection_id;;
    remove_lease connection_id;;
    with_mutex PendingPasskeysMutex (λ s,
      (Ok tt, set_pending (abandon_creations connection_id (pending_creations s)) s))));;
  rollback_disconnected_passkey_creations fuel;;
  mret tt.

Definition shutdown : rt unit :=
  guarded CommitGate (in_world (
    atomic (λ s, (Ok tt, set_flag LockFlag true s));;
    store_state ShuttingDown;;
    advance_epoch));;
  guarded CreationGate (guarded WindowsHelloGate (
    with_vault lock;;
    in_world (store_state ShuttingDown))).
End dispatch.
