(* ===== verification/Rely.v ===== *)
(** * What a thread of the agent may rely on

    A thread of the runtime takes steps between those of the others ([Threads]).
    [env_step] says what the others leave alone: the guards and permits of this thread,
    and what the guards it holds protect.  [ThreadsLaws] says that they keep to it;
    the rules below follow one thread through its steps. *)

From S2P Require Import Prelude RustStd Cbor Wire Types Message Session VaultRecords VaultKeys VaultStore VaultCore VaultRefine Storage Agent AgentRefine Outcome Idempotency Threads Runtime.

(** ** Steps of other threads *)

(** How far the accounts have changed: the counter is a [u64]. *)
Definition generation (s : Shared) : Z := Z.min (rt_accounts_generation (sh_runtime s)) (max_of 64).

(** The flag of a registered request was allocated. *)
Definition flags_allocated (s : Shared) : Prop :=
  ∀ key flag, cd_cancellations (coordinator s) !! key = Some flag → is_Some (sh_flags s !! flag).

(** The creations of passkeys that wait to be rolled back. *)
Definition gone (s : Shared) : gset PendingPasskeyCreationKey :=
  dom (filter (λ e, pp_disconnected e.2 = true) (rt_pending_passkey_creations (sh_runtime s))).

(** Whether no other connection ends meanwhile: only termination depends on it. *)
Class Connections := { quiet : Prop }.

Section connections.
Context `{Connections}.

(** What the other threads do not change.
    - The epoch of the coordinator only grows, within a [u64], and a flag that was
      cancelled stays so.
    - [epoch], [lock_active] and the cancellation flags are written under the commit
      gate: [lock_vault], [shutdown], [publish_authenticated_unlock], [create_vault],
      [account_error_after_core], [apply_cancel], [disconnect] and [admit_request]
      hold it where they raise them; a request is registered under it, too.
    - [accounts_changed] is called with the vault and the commit gate held, and counts up; a pending
      creation of a passkey is written with the vault or the commit gate held.
    - A flag of which this thread has the permit is not released.
    - Only the end of a connection leaves creations to be rolled back.
    - The record of the file that this thread unlocks is its own. *)
Record env_step (s s' : Shared) : Prop := {
  es_held : sh_held s' = sh_held s;
  es_permits : sh_permits s' = sh_permits s;
  es_epoch : cd_epoch (coordinator s) ≤ cd_epoch (coordinator s');
  es_u64 : u64 (cd_epoch (coordinator s)) → u64 (cd_epoch (coordinator s'));
  es_flags i : sh_flags s !! i = Some true → sh_flags s' !! i = Some true;
  es_allocated : flags_allocated s → flags_allocated s';
  es_gate_epoch : CommitGate ∈ sh_held s → cd_epoch (coordinator s') = cd_epoch (coordinator s);
  es_gate_lock : CommitGate ∈ sh_held s →
    cd_lock_active (coordinator s) = false → cd_lock_active (coordinator s') = false;
  es_gate_flags i : CommitGate ∈ sh_held s → sh_flags s !! i ≠ Some true → sh_flags s' !! i ≠ Some true;
  es_gate_registered : CommitGate ∈ sh_held s →
    cd_cancellations (coordinator s') ⊆ cd_cancellations (coordinator s);
  es_gate_generation : CommitGate ∈ sh_held s →
    rt_accounts_generation (sh_runtime s') = rt_accounts_generation (sh_runtime s);
  es_generation : generation s ≤ generation s';
  es_vault : VaultMutex ∈ sh_held s →
    rt_accounts_generation (sh_runtime s') = rt_accounts_generation (sh_runtime s);
  es_pending : VaultMutex ∈ sh_held s → CommitGate ∈ sh_held s →
    rt_pending_passkey_creations (sh_runtime s') = rt_pending_passkey_creations (sh_runtime s);
  es_permit f : f ∈ sh_permits s → flag_value f s' = flag_value f s;
  es_gone : quiet → gone s' ⊆ gone s;
  es_record : sh_authenticated_ownership s' = sh_authenticated_ownership s;
}.

#[export] Instance env_step_preorder : PreOrder env_step.
Proof.
  split.
  - intros s. by split.
  - intros s1 s2 s3 [Hh Hp He Hu Hf Hw Hg Hl Hn Hr Hm Ha Hv Hq Ho Hx Hy]
      [Hh' Hp' He' Hu' Hf' Hw' Hg' Hl' Hn' Hr' Hm' Ha' Hv' Hq' Ho' Hx' Hy'].
    rewrite Hh, Hp in *.
    split; [done|done|lia|auto|auto|auto|intros; by rewrite Hg', Hg|auto|auto|intros; etrans; auto|intros; by rewrite Hm', Hm|lia|intros; by rewrite Hv', Hv
      |intros; by rewrite Hq', Hq|intros f ?; by rewrite Ho', Ho|intros; etrans; auto|by rewrite Hy', Hy].
Qed.

(** What no thread undoes, this one included. *)
Record later (s s' : Shared) : Prop := {
  lt_epoch : cd_epoch (coordinator s) ≤ cd_epoch (coordinator s');
  lt_flags i : sh_flags s !! i = Some true → sh_flags s' !! i = Some true;
  lt_generation : generation s ≤ generation s';
  lt_u64 : u64 (cd_epoch (coordinator s)) → u64 (cd_epoch (coordinator s'));
  lt_gone : quiet → gone s' ⊆ gone s;
}.
#[export] Instance later_preorder : PreOrder later.
Proof.
  split; [intros s; by split|]. intros s1 s2 s3 [] []. split; [lia|auto|lia|auto|intros; etrans; auto].
Qed.
Lemma env_step_later s s' : env_step s s' → later s s'.
Proof. intros []. by split. Qed.
End connections.

(** The monotonic clock. *)
Class ThreadsModel (W : Type) := { clock : W → Z }.

Class ThreadsLaws `{Minicbor, Crypto, UrlCrate} (W : Type) `{StorageModel W, Threads W, Connections, ThreadsModel W} : Prop := {
  shared_set s w : shared (set_shared s w) = s;
  set_shared_files s w : same_files w (set_shared s w);
  set_shared_clock s w : clock (set_shared s w) = clock w;
  moves_env w w' : moves w w' → env_step (shared w) (shared w') ∧ clock w ≤ clock w';
  others_unchanged w : unchanged w (others w);
  now_unchanged w : unchanged w (instant_now w).2;
  now_reads w : clock w ≤ (instant_now w).1 ≤ clock (instant_now w).2;
  others_agent_consistent p : consistent p → consistent (others_agent p);
  others_agent_moves p : moves (world p) (world (others_agent p));
}.

(** ** Rules *)

Lemma triple_post {S E A} P (m : stm S E A) (Q Q' : A → S → Prop) (R : E → S → Prop) :
  triple P m Q R → (∀ a s, Q a s → Q' a s) → triple P m Q' R.
Proof. intros Hm HQ. by eapply triple_weaken. Qed.

Section rules.
Context {W : Type} `{ThreadsLaws W, !StorageLaws W}.

(** Other threads do not make [F] false. *)
Definition stable (F : Shared → Prop) : Prop := ∀ s s', env_step s s' → F s → F s'.

(** This thread holds exactly these guards and permits. *)
Definition holding (held : gset MutexName) (permits : gset FlagName) (F : Shared → Prop) (s : Shared) : Prop :=
  sh_held s = held ∧ sh_permits s = permits ∧ F s.

Lemma stable_holding held permits (F : Shared → Prop) :
  (∀ s s', env_step s s' → sh_held s = held → sh_permits s = permits → F s → F s') → stable (holding held permits F).
Proof.
  intros HF s s' He (Hh & Hp & Hf). split_and!; [by rewrite (es_held _ _ He)|by rewrite (es_permits _ _ He)|by eapply HF].
Qed.
Lemma stable_idle held permits : stable (holding held permits (λ _, True)).
Proof. by apply stable_holding. Qed.

(** Time has passed since [w0]. *)
Record passes (w0 w : W) : Prop := { ps_clock : clock w0 ≤ clock w; ps_later : later (shared w0) (shared w) }.
#[export] Instance passes_preorder : PreOrder passes.
Proof.
  split; [by intros w; split|]. intros w1 w2 w3 [? ?] [? ?]. split; [lia|by etrans].
Qed.
Lemma moves_passes w w' : moves w w' → passes w w'.
Proof. intros [He ?]%moves_env. split; [done|by apply env_step_later]. Qed.

(** Since [w0] no file was written and no connection used, and now [F]. *)
Definition following (w0 : W) (F : Shared → Prop) (w : W) : Prop :=
  same_files w0 w ∧ passes w0 w ∧ F (shared w).

Lemma same_files_trans (w1 w2 w3 : W) : same_files w1 w2 → same_files w2 w3 → same_files w1 w3.
Proof. intros [H12 ?] [H23 ?]. split; [intros c; by rewrite H23|by etrans]. Qed.

Lemma following_refl (F : Shared → Prop) w : F (shared w) → following w F w.
Proof. intros HF. by split_and!; [split|..]. Qed.
Lemma following_weaken (F G : Shared → Prop) w0 w : (∀ x, F x → G x) → following w0 F w → following w0 G w.
Proof. intros HFG (? & ? & ?). split_and!; auto. Qed.
Lemma following_trans (F G : Shared → Prop) w0 w1 w : following w0 F w1 → following w1 G w → following w0 G w.
Proof. intros (? & ? & _) (? & ? & ?). split_and!; [by eapply same_files_trans|by etrans|done]. Qed.
Lemma following_moves (F : Shared → Prop) w w' : stable F → F (shared w) → unchanged w w' → following w F w'.
Proof.
  intros HF Hf (? & Hm & ?). destruct (moves_env _ _ Hm) as [He ?].
  split_and!; [by split|by apply moves_passes|by eapply HF].
Qed.
Lemma following_others (F : Shared → Prop) w0 w : stable F → following w0 F w → following w0 F (others w).
Proof.
  intros HF Hw. eapply following_trans; [exact Hw|]. apply following_moves; [done|apply Hw|apply others_unchanged].
Qed.
Lemma following_set (F G : Shared → Prop) w0 w s :
  later (shared w) s → G s → following w0 F w → following w0 G (set_shared s w).
Proof.
  intros Hs HG Hw. eapply following_trans; [exact Hw|]. split_and!.
  - apply set_shared_files.
  - split; [by rewrite set_shared_clock|by rewrite shared_set].
  - by rewrite shared_set.
Qed.

Lemma following_others_shared (F : Shared → Prop) w0 w : stable F → following w0 F w → F (shared (others w)).
Proof. intros HF Hw. by apply (following_others F w0 w HF) in Hw as (_ & _ & ?). Qed.

Lemma observe_rule {E A} (F : Shared → Prop) (G : A → Shared → Prop) (R : E → W → Prop) w0 (f : Shared → A) :
  stable F → (∀ x, F x → G (f x) x) → triple (following w0 F) (observe f) (λ a, following w0 (G a)) R.
Proof.
  intros HF HG w Hw. unfold observe. apply (following_others F) in Hw as (? & ? & ?); [|done]. split_and!; auto.
Qed.
(** An atomic step; [K] is what an error leaves. *)
Lemma atomic_rule {E A} (F : Shared → Prop) (G : A → Shared → Prop) (K : E → Shared → Prop) w0
    (f : Shared → result E A * Shared) :
  stable F →
  (∀ x, F x → later x (f x).2 ∧
    match f x with (Ok a, x') => G a x' | (Err e, x') => K e x' | (Panic, _) => False end) →
  triple (following w0 F) (atomic f) (λ a, following w0 (G a)) (λ e, following w0 (K e)).
Proof.
  intros HF Hf w Hw. unfold atomic. pose proof (following_others F w0 w HF Hw) as Hw'.
  destruct (Hf _ (proj2 (proj2 Hw'))) as [Hl Hx]. destruct (f (shared (others w))) as [[a|e|] x]; [| |done];
    by eapply following_set.
Qed.
Lemma now_rule {E} (F : Shared → Prop) (R : E → W → Prop) w0 :
  stable F → triple (following w0 F) now (λ t w, following w0 F w ∧ clock w0 ≤ t ≤ clock w) R.
Proof.
  intros HF w Hw. unfold now. pose proof (now_unchanged w) as Hn. pose proof (now_reads w) as Ht.
  destruct (instant_now w) as [t w']. cbn [fst snd] in *.
  split; [|destruct Hw as (_ & [? _] & _); lia].
  eapply following_trans; [exact Hw|]. apply following_moves; [done|apply Hw|done].
Qed.
Lemma acquire_rule {E} (F G : Shared → Prop) (m : MutexName) (e : E) w0 :
  stable F → (∀ x, F x → m ∉ sh_held x ∧ G (set_held (λ held, {[m]} ∪ held) x)) →
  triple (following w0 F) (acquire m e) (λ _, following w0 G) (λ e', following w0 (λ x, F x ∧ e' = e)).
Proof.
  intros HF HG w Hw. unfold acquire. pose proof (following_others F w0 w HF Hw) as Hw'.
  pose proof Hw' as (Hsf & Hc & Hx). apply HG in Hx as HG'. destruct HG' as [Hm Hg].
  rewrite decide_False by done. case_decide; [by split_and!|]. by eapply following_set; [split| |].
Qed.
Lemma drop_guard_rule (F G : Shared → Prop) (m : MutexName) w0 w :
  (∀ x, F x → G (set_held (λ held, held ∖ {[m]}) x)) → following w0 F w → following w0 G (drop_guard m w).
Proof. intros HG Hw. pose proof Hw as (_ & _ & Hx). unfold drop_guard. eapply following_set; [by split|by apply HG|done]. Qed.

(** [lock(&mutex)?] around one use. *)
Lemma with_mutex_rule {A} (F : Shared → Prop) (G : A → Shared → Prop) (K : DispatchError → Shared → Prop)
    (m : MutexName) (f : Shared → result DispatchError A * Shared) w0 :
  stable F → (∀ x, F x → m ∉ sh_held x ∧ K DispatchInternal x) →
  (∀ x, F x → later x (f (set_held (λ held, {[m]} ∪ held) x)).2 ∧
    match f (set_held (λ held, {[m]} ∪ held) x) with
    | (Ok a, x') => G a (set_held (λ held, held ∖ {[m]}) x')
    | (Err e, x') => K e (set_held (λ held, held ∖ {[m]}) x')
    | (Panic, _) => False
    end) →
  triple (following w0 F) (with_mutex m f) (λ a, following w0 (G a)) (λ e, following w0 (K e)).
Proof.
  intros HF Hm Hf. unfold with_mutex.
  eapply (triple_bind _ _ _ (λ _, following w0 (λ x, ∃ y, F y ∧ x = set_held (λ held, {[m]} ∪ held) y))).
  { eapply triple_weaken; [|done|by intros ? ? Hw; exact Hw|].
    - apply (acquire_rule F (λ x, ∃ y, F y ∧ x = set_held (λ held, {[m]} ∪ held) y)); [done|].
      intros x Hx. split; [by apply Hm|by exists x].
    - intros e' w Hw. eapply following_weaken; [|exact Hw]. intros x [Hx ->]. by apply Hm. }
  intros []. intros w Hw. pose proof Hw as (_ & _ & y & Hy & Hx). rewrite Hx.
  destruct (Hf y Hy) as [Hl Hfy]. assert (later (shared w) (f (set_held (λ held, {[m]} ∪ held) y)).2) as Hl'
    by (rewrite Hx; etrans; [|exact Hl]; by split).
  destruct (f _) as [[a|e|] x']; [| |done];
    (eapply (drop_guard_rule (λ z, z = x')); [by intros ? ->|by eapply following_set]).
Qed.

(** ** Whether a request may go on *)

Lemma or_else_rule {S E} (P P' : S → Prop) (a b : stm S E bool) Q R :
  triple P a (λ x s, if x : bool then Q true s else P' s) R → triple P' b Q R → triple P (or_else a b) Q R.
Proof. intros Ha Hb. eapply triple_bind; [exact Ha|]. intros []; [by apply triple_ret|exact Hb]. Qed.
Lemma stop_if_rule {S E} (P P' : S → Prop) (c : stm S E bool) outcome rest Q R :
  triple P c (λ x s, if x : bool then Q (Some outcome) s else P' s) R → triple P' rest Q R →
  triple P (stop_if c outcome rest) Q R.
Proof. intros Ha Hb. eapply triple_bind; [exact Ha|]. intros []; [by apply triple_ret|exact Hb]. Qed.

(** A look that finds [c], about which nothing else is known. *)
Lemma look_rule {E A} (F : Shared → Prop) (Q : A → W → Prop) (R : E → W → Prop) w0 (f : Shared → A) :
  stable F → (∀ a w, following w0 F w → Q a w) → triple (following w0 F) (observe f) Q R.
Proof.
  intros HF HQ. eapply triple_weaken; [by apply (observe_rule F (λ _, F))|done|exact HQ|done].
Qed.
Lemma past_rule {E} (F : Shared → Prop) (R : E → W → Prop) w0 deadline :
  stable F →
  triple (following w0 F) (past deadline) (λ b w, following w0 F w ∧ (b = false → clock w0 < deadline)) R.
Proof.
  intros HF. unfold past. eapply triple_bind; [by apply now_rule|intros t; cbn beta].
  apply triple_ret. intros w [Hw Ht]. split; [done|]. intros. lia.
Qed.
Lemma not_unlocked_rule {E} (F : Shared → Prop) (Q : bool → W → Prop) (R : E → W → Prop) w0 :
  stable F → (∀ b w, following w0 F w → Q b w) → triple (following w0 F) not_unlocked Q R.
Proof.
  intros HF HQ. unfold not_unlocked. eapply triple_bind.
  - apply (look_rule F (λ _, following w0 F)); [done|auto].
  - intros st. apply triple_ret. auto.
Qed.
Lemma other_epoch_rule {E} (F : Shared → Prop) (R : E → W → Prop) w0 e :
  stable F →
  triple (following w0 F) (other_epoch e)
    (λ b, following w0 (λ x, F x ∧ (b = false → cd_epoch (coordinator x) = e))) R.
Proof.
  intros HF. unfold other_epoch. eapply triple_bind.
  - by apply (observe_rule F (λ n x, F x ∧ cd_epoch (coordinator x) = n)).
  - intros n. apply triple_ret. intros w Hw. eapply following_weaken; [|exact Hw].
    intros x [? <-]. split; [done|]. intros Hb. lia.
Qed.

(** The outcomes of a request that may not go on. *)
Definition refusal (o : ExecutionOutcome) : Prop := o = locked_outcome ∨ o = cancelled ∨ o = deadline_outcome.

Definition in_time (w0 : W) (deadline : Z) : Prop := clock w0 < deadline.

Lemma pre_secret_operation_rule {E} (F : Shared → Prop) (R : E → W → Prop) w0 e registration deadline :
  stable F →
  triple (following w0 F) (pre_secret_operation e registration deadline)
    (λ o w, following w0 F w ∧ match o with Some outcome => refusal outcome | None => in_time w0 deadline end) R.
Proof.
  intros HF. unfold pre_secret_operation.
  assert (∀ (x : bool) o w, following w0 F w → refusal o →
    if x then following w0 F w ∧ refusal o else following w0 F w) as Hstop by (by intros [] o w).
  assert (refusal locked_outcome ∧ refusal cancelled ∧ refusal deadline_outcome) as (? & ? & ?)
    by (unfold refusal; auto).
  eapply (stop_if_rule _ (following w0 F)); [apply look_rule; [done|intros b w Hw; by apply Hstop]|].
  eapply (stop_if_rule _ (following w0 F)); [apply look_rule; [done|intros b w Hw; by apply Hstop]|].
  eapply (stop_if_rule _ (λ w, following w0 F w ∧ in_time w0 deadline)).
  { eapply triple_weaken; [by apply past_rule|done| |done]. intros [] w [? Hd]; [done|]. split; [done|by apply Hd]. }
  apply (triple_pre (λ w, following w0 F w ∧ in_time w0 deadline)). intros w [Hw Ht].
  eapply (triple_from (following w0 F)); [by intros ? ->|].
  eapply (stop_if_rule _ (following w0 F)); [|by apply triple_ret].
  eapply (or_else_rule _ (following w0 F)); [apply not_unlocked_rule; [done|intros b w' Hw'; by apply Hstop]|].
  eapply triple_weaken; [by apply other_epoch_rule|done| |done].
  intros b w' Hw'. apply Hstop; [|done]. eapply following_weaken; [|exact Hw']. by intros x [].
Qed.

(** The conditions under which a request may commit: they last while the gate is held. *)
Definition authorised (e : Z) (registration : RequestRegistration) (x : Shared) : Prop :=
  cd_epoch (coordinator x) = e ∧ cd_lock_active (coordinator x) = false
  ∧ sh_flags x !! rr_cancellation registration ≠ Some true.

Lemma stable_gate held permits (F : Shared → Prop) :
  CommitGate ∈ held →
  (∀ s s', env_step s s' → sh_held s = held → cd_epoch (coordinator s') = cd_epoch (coordinator s) →
    (cd_lock_active (coordinator s) = false → cd_lock_active (coordinator s') = false) →
    (∀ i, sh_flags s !! i ≠ Some true → sh_flags s' !! i ≠ Some true) → F s → F s') →
  stable (holding held permits F).
Proof.
  intros Hg HF. apply stable_holding. intros s s' He Hh _. assert (CommitGate ∈ sh_held s) as Hs by (by rewrite Hh).
  apply HF; [done|done|by apply es_gate_epoch|by apply es_gate_lock|]. intros i. by apply es_gate_flags.
Qed.
Lemma stable_authorised held permits e registration :
  CommitGate ∈ held → stable (holding held permits (authorised e registration)).
Proof. intros Hg. apply stable_gate; [done|]. intros s s' _ _ He Hl Hf (? & ? & ?). split_and!; [congruence|auto|auto]. Qed.

Lemma stable_and held permits (F G : Shared → Prop) :
  stable (holding held permits F) → stable (holding held permits G) → stable (holding held permits (λ x, F x ∧ G x)).
Proof.
  intros HF HG s s' He (Hh & Hp & Hf & Hg).
  destruct (HF s s' He) as (? & ? & ?); [done|]. destruct (HG s s' He) as (? & ? & ?); [done|]. by split_and!.
Qed.

(** The checks under the gate; [X] is what [exact] looks up. *)
Lemma commit_refused_rule held permits (X : Shared → Prop) (exact : stm W StorageError bool) w0 e registration deadline K :
  CommitGate ∈ held → stable (holding held permits X) →
  triple (following w0 (holding held permits (λ _, True))) exact
    (λ b, following w0 (holding held permits (λ x, b = true → X x))) K →
  triple (following w0 (holding held permits (λ _, True))) (commit_refused e registration deadline exact)
    (λ refused w, following w0 (holding held permits (λ x,
        refused = false → authorised e registration x ∧ X x)) w ∧ (refused = false → in_time w0 deadline)) K.
Proof.
  intros Hg HX Hexact. unfold commit_refused. eapply triple_bind; [exact Hexact|intros b; cbn beta]. clear Hexact.
  set (F := λ x, b = true → X x).
  assert (stable (holding held permits F)) as HF.
  { unfold F. intros s s' He (Hh & Hp & Hx). split_and!; [by rewrite (es_held _ _ He)|by rewrite (es_permits _ _ He)|].
    intros Hb. apply (HX s s' He). split_and!; auto. }
  assert (∀ w G, following w0 (holding held permits G) w →
    following w0 (holding held permits (λ x, true = false → authorised e registration x ∧ X x)) w
    ∧ (true = false → in_time w0 deadline)) as Hrefused.
  { intros w G Hw. split; [|done]. eapply following_weaken; [|exact Hw]. by intros x (? & ? & _). }
  set (F1 := λ x, F x ∧ cd_epoch (coordinator x) = e).
  eapply (or_else_rule _ (following w0 (holding held permits F1))).
  { eapply triple_weaken; [by apply (other_epoch_rule (holding held permits F))|done| |done].
    intros [] w Hw; [eapply (Hrefused _ F)|]; (eapply following_weaken; [|exact Hw]); intros x [(? & ? & ?) He];
      split_and!; try done. split; auto. }
  assert (stable (holding held permits F1)) as HF1.
  { apply stable_and; [done|]. apply stable_gate; [done|]. intros; congruence. }
  set (F2 := λ x, F1 x ∧ cd_lock_active (coordinator x) = false).
  eapply (or_else_rule _ (following w0 (holding held permits F2))).
  { eapply triple_weaken; [eapply (observe_rule (holding held permits F1) (λ b, holding held permits (λ x, F1 x ∧ cd_lock_active (coordinator x) = b)));
      [done|by intros x (? & ? & ?)]|done| |done].
    intros [] w Hw; [by eapply Hrefused|done]. }
  assert (stable (holding held permits F2)) as HF2.
  { apply stable_and; [done|]. apply stable_gate; auto. }
  set (F3 := λ x, F2 x ∧ sh_flags x !! rr_cancellation registration ≠ Some true).
  eapply (or_else_rule _ (following w0 (holding held permits F3))).
  { eapply triple_weaken; [eapply (observe_rule (holding held permits F2) (λ b, holding held permits (λ x, F2 x ∧
      bool_decide (sh_flags x !! rr_cancellation registration = Some true) = b))); [done|by intros x (? & ? & ?)]|done| |done].
    intros [] w Hw; [by eapply Hrefused|]. eapply following_weaken; [|exact Hw]. intros x (? & ? & ? & Hb).
    apply bool_decide_eq_false in Hb. by split_and!. }
  assert (stable (holding held permits F3)) as HF3.
  { apply stable_and; [done|]. apply stable_gate; auto. }
  eapply (or_else_rule _ (λ w, following w0 (holding held permits F3) w ∧ in_time w0 deadline)).
  { eapply triple_weaken; [by apply past_rule|done| |done].
    intros [] w [Hw Ht]; [by eapply Hrefused|]. split; [done|by apply Ht]. }
  apply triple_ret. intros w [Hw Ht]. destruct b; cbn [negb]; [|by eapply Hrefused].
  split; [|done]. eapply following_weaken; [|exact Hw].
  intros x (? & ? & ((Hx & ?) & ?) & ?). split_and!; [done|done|]. intros _. split; [by split_and!|by apply Hx].
Qed.

(** The last check: the gate is taken and kept if the request is authorised. *)
Lemma take_gate_rule held permits (X : Shared → Prop) (exact : stm W StorageError bool) w0 e registration deadline :
  CommitGate ∉ held → stable (holding ({[CommitGate]} ∪ held) permits X) →
  triple (following w0 (holding ({[CommitGate]} ∪ held) permits (λ _, True))) exact
    (λ b, following w0 (holding ({[CommitGate]} ∪ held) permits (λ x, b = true → X x)))
    (λ e', following w0 (holding ({[CommitGate]} ∪ held) permits (λ _, e' = StorageConflict))) →
  triple (following w0 (holding held permits (λ _, True)))
    (take_gate (commit_refused e registration deadline exact))
    (λ _ w, following w0 (holding ({[CommitGate]} ∪ held) permits (λ x, authorised e registration x ∧ X x)) w
      ∧ in_time w0 deadline)
    (λ e', following w0 (holding held permits (λ _, e' = StorageConflict ∨ e' = StorageAborted))).
Proof.
  intros Hg HX Hexact. set (held' := {[CommitGate]} ∪ held). unfold take_gate.
  eapply (triple_bind _ _ _ (λ _, following w0 (holding held' permits (λ _, True)))).
  { eapply triple_weaken; [apply (acquire_rule (holding held permits (λ _, True)) (holding held' permits (λ _, True)))|done|done|].
    - apply stable_idle.
    - intros x (Hh & Hp & _). split; [by rewrite Hh|]. split_and!; [by cbn; rewrite Hh|done|done].
    - intros e' w Hw. eapply following_weaken; [|exact Hw]. intros x [(? & ? & _) ->]. split_and!; auto. }
  intros [] w Hw.
  pose proof (commit_refused_rule held' permits X exact w0 e registration deadline
    (λ e', following w0 (holding held' permits (λ _, e' = StorageConflict)))
    ltac:(subst held'; set_solver) HX Hexact w Hw) as Hrefused.
  assert (held' ∖ {[CommitGate]} = held) as Hback by (subst held'; set_solver).
  destruct (commit_refused e registration deadline exact w) as [[[]|e'|] w'].
  - destruct Hrefused as [Hw' _]. eapply drop_guard_rule; [|exact Hw']. intros x (Hh & ? & _).
    split_and!; [by cbn; rewrite Hh|done|by right].
  - destruct Hrefused as [Hw' Ht]. split; [|by apply Ht]. eapply following_weaken; [|exact Hw'].
    intros x (? & ? & Hx). by split_and!; [| |apply Hx..].
  - eapply drop_guard_rule; [|exact Hrefused]. intros x (Hh & ? & ->). split_and!; [by cbn; rewrite Hh|done|by left].
  - done.
Qed.

(** ** The epoch *)

(** Every registered request is cancelled. *)
Definition all_cancelled (s : Shared) : Prop :=
  ∀ key flag, cd_cancellations (coordinator s) !! key = Some flag → sh_flags s !! flag = Some true.

Lemma cancel_flags_sets m flags key i :
  m !! key = Some i → is_Some (flags !! i) → cancel_flags m flags !! i = Some true.
Proof.
  intros Hm%elem_of_map_to_list Hi. unfold cancel_flags. revert Hm. generalize (map_to_list m). intros l.
  assert (∀ l : list (RequestKey * nat), length (foldr (λ e flags, <[e.2:=true]> flags) flags l) = length flags) as Hlen
    by (clear; intros l; induction l as [|e l IH]; cbn; rewrite ?length_insert; done).
  induction l as [|e l IH]; intros Hin; [by apply elem_of_nil in Hin|]. cbn.
  destruct (decide (e.2 = i)) as [<-|Hne].
  - apply list_lookup_insert_eq. rewrite Hlen. by apply lookup_lt_is_Some.
  - rewrite list_lookup_insert_ne by done. apply elem_of_cons in Hin as [<-|?]; [done|auto].
Qed.

Lemma cancel_flags_keeps m flags i : flags !! i = Some true → cancel_flags m flags !! i = Some true.
Proof.
  intros Hi. unfold cancel_flags. induction (map_to_list m) as [|e l IH]; [done|]. cbn.
  destruct (decide (e.2 = i)) as [<-|Hne]; [|by rewrite list_lookup_insert_ne].
  apply list_lookup_insert_eq. by eapply lookup_lt_Some.
Qed.

(** The epoch is at least [n]; and, where a caller needs it, the flags of requests were
    allocated, and a lock is under way. *)
Definition epoch_reached (n : Z) (B L : Prop) (x : Shared) : Prop :=
  n ≤ cd_epoch (coordinator x) ∧ (B → flags_allocated x) ∧ (L → cd_lock_active (coordinator x) = true).
Definition epoch_passed (n : Z) (B L : Prop) (x : Shared) : Prop :=
  n < cd_epoch (coordinator x) ∧ (B → all_cancelled x) ∧ (L → cd_lock_active (coordinator x) = true).

Lemma stable_epoch_reached held permits n (B L : Prop) :
  (L → LockFlag ∈ permits) → stable (holding held permits (epoch_reached n B L)).
Proof.
  intros HL. apply stable_holding. intros s s' He _ Hp (? & HB & Hx). split_and!.
  - pose proof (es_epoch _ _ He); lia.
  - intros Hb. apply (es_allocated _ _ He). auto.
  - intros Hl. assert (LockFlag ∈ sh_permits s) as Hf by (rewrite Hp; auto).
    pose proof (es_permit _ _ He LockFlag Hf) as Hv. cbn in Hv. rewrite Hv. auto.
Qed.

Lemma advance_epoch_rule held permits n (B L : Prop) w0 :
  CommitGate ∈ held → CancellationsMutex ∉ held → (L → LockFlag ∈ permits) →
  triple (following w0 (holding held permits (epoch_reached n B L))) advance_epoch
    (λ _, following w0 (holding held permits (epoch_passed n B L)))
    (λ e, following w0 (λ x, holding held permits (λ _, True) x ∧ e = DispatchInternal)).
Proof.
  intros Hg Hc HL. unfold advance_epoch.
  eapply (triple_bind _ _ _ (λ _, following w0 (holding held permits (epoch_reached (n + 1) B L)))).
  - unfold increment_epoch. eapply triple_weaken; [apply (atomic_rule (holding held permits (epoch_reached n B L))
      (λ _, holding held permits (epoch_reached (n + 1) B L))
      (λ e x, holding held permits (λ _, True) x ∧ e = DispatchInternal))|done|done|done].
    + by apply stable_epoch_reached.
    + intros x (Hh & Hp & Hn & Hb & Hl). cbn zeta. unfold ok_or. destruct (checked_add 64 _ 1) as [next|] eqn:Ha; [|by split_and!].
      apply checked_add_Some in Ha as [-> ?].
      split; [split; [cbn; lia|done|done|unfold uint; cbn; lia|done]|].
      split_and!; [done|done|]. split; [cbn; lia|by split].
  - intros next. eapply (triple_bind _ _ _ (λ _, following w0 (holding held permits (epoch_passed n B L))));
      [|intros ?; by apply triple_ret].
    apply (with_mutex_rule _ (λ _, holding held permits (epoch_passed n B L))
      (λ e x, holding held permits (λ _, True) x ∧ e = DispatchInternal)).
    + by apply stable_epoch_reached.
    + intros x (Hh & Hp & _). rewrite Hh. by split_and!.
    + intros x (Hh & Hp & Hn & Hb & Hl). split; [split; [done|intros i; apply cancel_flags_keeps|done..]|].
      split_and!; [cbn; rewrite Hh; set_solver|done|]. split; [change (n < cd_epoch (coordinator x)); lia|split; [|done]].
      intros HB key flag Hk. cbn in *. eapply cancel_flags_sets; [done|]. by eapply Hb.
Qed.

Lemma advance_epoch_idle held permits w0 :
  CommitGate ∈ held → CancellationsMutex ∉ held →
  triple (following w0 (holding held permits (λ _, True))) advance_epoch
    (λ _, following w0 (holding held permits (λ _, True)))
    (λ e, following w0 (λ x, holding held permits (λ _, True) x ∧ e = DispatchInternal)).
Proof.
  intros Hg Hc w Hw. pose proof Hw as (_ & _ & Hh & Hp & _).
  pose proof (advance_epoch_rule held permits (cd_epoch (coordinator (shared w))) False False w Hg Hc ltac:(done) w) as Ha.
  destruct (advance_epoch w) as [[n|e|] w'].
  - eapply following_trans; [exact Hw|]. eapply following_weaken; [|apply Ha]; [by intros x (? & ? & _)|].
    apply following_refl. by split_and!.
  - eapply following_trans; [exact Hw|]. apply Ha, following_refl. by split_and!.
  - apply Ha, following_refl. by split_and!.
Qed.

(** ** What the agent is given to run *)

Lemma observe_inert {E A} (f : Shared → A) : inert (E:=E) (observe f).
Proof. intros w. split; [done|]. apply others_unchanged. Qed.
Lemma now_inert {E} : inert (E:=E) now.
Proof. intros w. unfold now. pose proof (now_unchanged w). by destruct (instant_now w). Qed.
Lemma or_else_inert {E} (a b : stm W E bool) : inert a → inert b → inert (or_else a b).
Proof. intros Ha Hb. apply inert_bind; [done|]. intros []; [apply inert_ret|done]. Qed.

Lemma should_abort_watches e registration deadline :
  watches (secret_operation_should_abort e registration deadline).
Proof.
  intros w. unfold secret_operation_should_abort.
  match goal with |- context [or_else (E:=unit) ?a ?b] => assert (inert (or_else (E:=unit) a b)) as Hi end.
  { repeat apply or_else_inert; try apply observe_inert.
    - apply inert_bind; [apply now_inert|intros; apply inert_ret].
    - apply inert_bind; [apply observe_inert|intros; apply inert_ret].
    - apply inert_bind; [apply observe_inert|intros; apply inert_ret]. }
  destruct (Hi w) as [_ [_ ?]]. by destruct (or_else _ _ w) as [r w'].
Qed.

(** A last check [before] that takes the gate only if [G], which then stays so, and [T]
    of any time before. *)
Definition gates (held : gset MutexName) (permits : gset FlagName) (G : Shared → Prop) (T : W → Prop)
    (before : stm W StorageError unit) : Prop :=
  CommitGate ∉ held ∧ stable (holding ({[CommitGate]} ∪ held) permits G) ∧ (∀ w w', passes w w' → T w' → T w) ∧
  ∀ w0, triple (following w0 (holding held permits (λ _, True))) before
    (λ _ w, following w0 (holding ({[CommitGate]} ∪ held) permits G) w ∧ T w0)
    (λ e', following w0 (holding held permits (λ _, e' = StorageConflict ∨ e' = StorageAborted))).

Lemma in_time_earlier deadline w w' : passes w w' → in_time w' deadline → in_time w deadline.
Proof. intros []. unfold in_time. lia. Qed.

Lemma commit_check_gates held permits e registration deadline :
  CommitGate ∉ held →
  gates held permits (authorised e registration) (λ w, in_time w deadline) (commit_check e registration deadline).
Proof.
  intros Hg. split_and!; [done|apply stable_authorised; set_solver|apply in_time_earlier|]. intros w0.
  eapply triple_weaken; [apply (take_gate_rule held permits (λ _, True)); [done|apply stable_idle|]|done| |done].
  - apply triple_ret. intros w Hw. eapply following_weaken; [|exact Hw]. by intros x (? & ? & _).
  - intros [] w [Hw ?]. split; [|done]. eapply following_weaken; [|exact Hw]. by intros x (? & ? & ? & _).
Qed.

Lemma moves_following (F : Shared → Prop) w w' : stable F → moves w w' → F (shared w) → F (shared w') ∧ passes w w'.
Proof. intros HF Hm Hf. destruct (moves_env _ _ Hm). split; [by eapply HF|by apply moves_passes]. Qed.

Lemma gates_admissible held permits G T before w :
  gates held permits G T before → holding held permits (λ _, True) (shared w) → admissible before w.
Proof.
  intros (_ & _ & _ & Hb) Hw w1 Hm.
  destruct (moves_following _ w w1 (stable_idle held permits) Hm Hw) as [Hw1 _].
  specialize (Hb w1 w1 (following_refl _ w1 Hw1)).
  destruct (before w1) as [[[]|e'|] w2]; [destruct Hb as [[] _]|destruct Hb|]; done.
Qed.
Lemma gates_passed held permits G T before w w' :
  gates held permits G T before → holding held permits (λ _, True) (shared w) → passed before w w' →
  holding ({[CommitGate]} ∪ held) permits G (shared w') ∧ passes w w' ∧ T w.
Proof.
  intros (_ & HG & HT & Hb) Hw (w1 & w2 & Hm & Hr & Hm').
  destruct (moves_following _ w w1 (stable_idle held permits) Hm Hw) as [Hw1 Hp1].
  specialize (Hb w1 w1 (following_refl _ w1 Hw1)). rewrite Hr in Hb. destruct Hb as [(_ & Hp2 & Hw2) Ht].
  destruct (moves_following _ w2 w' HG Hm' Hw2) as [? ?].
  split_and!; [done|by do 2 (etrans; [done|])|by eapply HT].
Qed.
Lemma gates_may_have_run held permits G T before w w' :
  gates held permits G T before → holding held permits (λ _, True) (shared w) → may_have_run before w w' →
  (∃ held', held' ∖ {[CommitGate]} = held ∧ holding held' permits (λ _, True) (shared w')) ∧ passes w w'.
Proof.
  intros (Hg & HG & _ & Hb) Hw [Hm|[r (w1 & w2 & Hm & Hr & Hm')]].
  - destruct (moves_following _ w w' (stable_idle held permits) Hm Hw) as [? ?]. split; [|done].
    exists held. split; [set_solver|done].
  - destruct (moves_following _ w w1 (stable_idle held permits) Hm Hw) as [Hw1 ?].
    specialize (Hb w1 w1 (following_refl _ w1 Hw1)). rewrite Hr in Hb. destruct r as [[]|e'|]; [| |done].
    + destruct Hb as [(_ & ? & Hw2) _]. destruct (moves_following _ w2 w' HG Hm' Hw2) as [(? & ? & _) ?].
      split; [|by do 2 (etrans; [done|])]. exists ({[CommitGate]} ∪ held). split; [set_solver|by split_and!].
    + destruct Hb as (_ & ? & ? & ? & _).
      destruct (moves_following _ w2 w' (stable_idle held permits) Hm') as [? ?]; [by split_and!|].
      split; [|by do 2 (etrans; [done|])]. exists held. split; [set_solver|done].
Qed.

(** ** Rules for processes *)

Definition same_vault (p s : Process W) : Prop := agent s = agent p ∧ files_kept (world p) (world s).

(** Nothing but the shared state was changed since [p]. *)
Definition hosting (p : Process W) (F : Shared → Prop) (s : Process W) : Prop :=
  agent s = agent p ∧ following (world p) F (world s).

(** The vault as another thread left it. *)
Definition others_had (p q : Process W) : Prop :=
  ∃ p1, same_vault p p1 ∧ same_vault (others_agent p1) q.

Lemma hosting_refl p (F : Shared → Prop) : F (shared (world p)) → hosting p F p.
Proof. intros HF. split; [done|]. by apply following_refl. Qed.
Lemma hosting_same_vault p F s : hosting p F s → same_vault p s.
Proof. intros (? & (_ & ?) & _). by split. Qed.
Lemma hosting_trans p q F G s : hosting p F q → hosting q G s → hosting p G s.
Proof. intros [? ?] [? ?]. split; [congruence|by eapply following_trans]. Qed.
Lemma consistent_same_vault p s : same_vault p s → consistent p → consistent s.
Proof.
  intros [Ha Hf] [Hl|(key & m & Hin)]; [left; by rewrite Ha|right; exists key, m]. by eapply in_sync_kept.
Qed.
Lemma others_had_consistent p q : others_had p q → consistent p → consistent q.
Proof.
  intros (p1 & Hs1 & Hs2) Hp. eapply consistent_same_vault; [exact Hs2|]. apply others_agent_consistent.
  by eapply consistent_same_vault.
Qed.

Lemma in_world_rule {E A} p (F : Shared → Prop) (m : stm W E A) (Q : A → W → Prop) (R : E → W → Prop) :
  triple (following (world p) F) m Q R →
  triple (hosting p F) (in_world m) (λ a s, agent s = agent p ∧ Q a (world s)) (λ e s, agent s = agent p ∧ R e (world s)).
Proof.
  intros Hm s [Ha Hs]. unfold in_world. specialize (Hm _ Hs). by destruct (m (world s)) as [[a|e|] w].
Qed.
End rules.

(** [passing] follows time from one state to a later one. *)
Ltac passing :=
  first
    [ assumption
    | reflexivity
    | match goal with Hp : passes ?w _ |- passes ?w _ => etransitivity; [exact Hp|clear Hp; passing] end ].
