(* ===== verification/RuntimeRefine.v ===== *)
(** * The operations of the runtime keep their promises

    What the operations of [Runtime] give back, and how they leave the guards, the
    permits, the agent and the file, whatever the other threads do in between. *)

From S2P Require Import Prelude RustStd Cbor Wire Types Message Session Operations VaultRecords VaultKeys VaultStore VaultCore VaultRefine Storage Agent AgentRefine Outcome Idempotency Threads Runtime Rely.

(** ** Rules for scopes *)

Section scopes.
Context {S : Type}.

Lemma finally_rule {E A} P (body : stm S E A) (cleanup : S → S) (Q : A → S → Prop) (R : E → S → Prop) :
  triple P body (λ a s, Q a (cleanup s)) (λ e s, R e (cleanup s)) → triple P (finally body cleanup) Q R.
Proof. intros Hb s Hs. specialize (Hb s Hs). unfold finally. by destruct (body s) as [[a|e|] s']. Qed.
Lemma on_failure_rule {E A} P (body : stm S E A) (cleanup : S → S) (Q : A → S → Prop) (R : E → S → Prop) :
  triple P body Q (λ e s, R e (cleanup s)) → triple P (on_failure body cleanup) Q R.
Proof. intros Hb s Hs. specialize (Hb s Hs). unfold on_failure. by destruct (body s) as [[a|e|] s']. Qed.
Lemma attempt_rule {E F A} P (m : stm S E A) (Q : result E A → S → Prop) (R : F → S → Prop) :
  triple P m (λ a, Q (Ok a)) (λ e, Q (Err e)) → triple P (attempt m) Q R.
Proof. intros Hm s Hs. specialize (Hm s Hs). unfold attempt. by destruct (m s) as [[a|e|] s']. Qed.
End scopes.

Section runtime.
Context `{MinicborLaws, CryptoLaws, UrlLaws}.
Context {W : Type} `{AgentLaws W, !EnvLaws W, !Threads W, !Connections, !ThreadsModel W, !ThreadsLaws W, !StorageLaws W}.
Abbreviation rt A := (ag (W:=W) DispatchError A).

Lemma unless_rule P P' (check : rt (option ExecutionOutcome)) (rest : rt ExecutionOutcome) Q R :
  triple P check (λ o s, match o with Some outcome => Q outcome s | None => P' s end) R →
  triple P' rest Q R → triple P (unless check rest) Q R.
Proof. intros Hc Hr. eapply triple_bind; [exact Hc|]. intros [o|]; [by apply triple_ret|exact Hr]. Qed.

(** This thread holds exactly these guards and permits, from here on. *)
Definition idle (held : gset MutexName) (permits : gset FlagName) : Shared → Prop :=
  holding held permits (λ _, True).
Definition resting (held : gset MutexName) (permits : gset FlagName) (s : Process W) : Prop :=
  idle held permits (shared (world s)).

Lemma drop_rule p (F G : Shared → Prop) m s :
  (∀ x, F x → G (set_held (λ held, held ∖ {[m]}) x)) → hosting p F s → hosting p G (on_world (drop_guard m) s).
Proof. intros HG [? ?]. split; [done|]. by eapply drop_guard_rule. Qed.
Lemma idle_drop held permits m x : idle held permits x → idle (held ∖ {[m]}) permits (set_held (λ held, held ∖ {[m]}) x).
Proof. intros (Hh & Hp & _). split_and!; [by cbn; rewrite Hh|done|done]. Qed.

(** A call of the shared state from [p] on. *)
Lemma call_rule {E A} p (F : Shared → Prop) (m : stm W E A) (G : A → Shared → Prop) (K : E → Shared → Prop) :
  triple (following (world p) F) m (λ a, following (world p) (G a)) (λ e, following (world p) (K e)) →
  triple (hosting p F) (in_world m) (λ a, hosting p (G a)) (λ e, hosting p (K e)).
Proof. intros Hm. exact (in_world_rule p F m (λ a, following (world p) (G a)) (λ e, following (world p) (K e)) Hm). Qed.

Lemma guarded_rule {A} p (F G : Shared → Prop) m (body : rt A) Q R :
  stable F → (∀ x, F x → m ∉ sh_held x ∧ G (set_held (λ held, {[m]} ∪ held) x)) →
  (∀ s, hosting p F s → R DispatchInternal s) →
  triple (hosting p G) body (λ a s, Q a (on_world (drop_guard m) s)) (λ e s, R e (on_world (drop_guard m) s)) →
  triple (hosting p F) (guarded m body) Q R.
Proof.
  intros HF HG HR Hb. unfold guarded. eapply (triple_bind _ _ _ (λ _, hosting p G)).
  - eapply triple_weaken; [apply (in_world_rule p F); by apply (acquire_rule F G)|done|done|].
    intros e s [Ha Hs]. assert (hosting p F s ∧ e = DispatchInternal) as [? ->]; [|by apply HR].
    destruct Hs as (? & ? & ? & ?). by split_and!.
  - intros []. by apply finally_rule.
Qed.

(** What is told apart in the shared state does not depend on guards. *)
Definition guard_free (F : Shared → Prop) : Prop := ∀ f x, F x → F (set_held f x).

(** The vault is taken as the others left it. *)
Lemma with_vault_keeps {A} p held permits (X : Shared → Prop) (body : rt A) Q R :
  VaultMutex ∉ held → stable (holding held permits X) → guard_free X →
  (∀ q, others_had p q → holding ({[VaultMutex]} ∪ held) permits X (shared (world q)) → passes (world p) (world q) →
    triple (λ s, s = q) body (λ a s, Q a (on_world (drop_guard VaultMutex) s))
      (λ e s, R e (on_world (drop_guard VaultMutex) s))) →
  (∀ q, others_had p q → holding held permits X (shared (world q)) → passes (world p) (world q) → R DispatchInternal q) →
  triple (hosting p (holding held permits X)) (with_vault body) Q R.
Proof.
  intros Hv HX Hg Hb HR s Hs. unfold with_vault, take_vault. pose proof Hs as (_ & _ & Hc & Hi).
  destruct (moves_following _ _ _ HX (others_agent_moves s) Hi) as [Hi' Hc'].
  set (s1 := others_agent s) in *.
  assert (∀ s2, same_vault s1 s2 → others_had p s2) as Hhad.
  { intros s2 Hs2. exists s. split; [by eapply hosting_same_vault|done]. }
  pose proof (in_world_rule s1 (holding held permits X) (acquire VaultMutex DispatchInternal) _ _
    (acquire_rule (holding held permits X) (holding ({[VaultMutex]} ∪ held) permits X) VaultMutex DispatchInternal (world s1)
      HX ltac:(intros x (Hh & Hp & Hx); split; [by rewrite Hh|split_and!; [by cbn; rewrite Hh|done|by apply Hg]]))
    s1 (hosting_refl s1 _ Hi')) as Hacq.
  unfold mbind, stm_bind. cbn beta. fold s1. destruct (in_world (acquire VaultMutex DispatchInternal) s1) as [[[]|e|] s2]; [| |done].
  - destruct Hacq as (Ha & (_ & Hf) & Hc2 & Hi2).
    apply (finally_rule (λ s, s = s2) body); [|done]. apply Hb; [by apply Hhad|done|passing].
  - destruct Hacq as (Ha & (_ & Hf) & Hc2 & Hi2 & ->). apply HR; [by apply Hhad|done|passing].
Qed.
Lemma with_vault_rule {A} p held permits (body : rt A) Q R :
  VaultMutex ∉ held →
  (∀ q, others_had p q → resting ({[VaultMutex]} ∪ held) permits q → passes (world p) (world q) →
    triple (λ s, s = q) body (λ a s, Q a (on_world (drop_guard VaultMutex) s))
      (λ e s, R e (on_world (drop_guard VaultMutex) s))) →
  (∀ q, others_had p q → resting held permits q → passes (world p) (world q) → R DispatchInternal q) →
  triple (hosting p (idle held permits)) (with_vault body) Q R.
Proof. intros Hv. apply with_vault_keeps; [done|apply stable_idle|done]. Qed.

(** ** After the agent *)

Lemma rebase_rule {E A} (P : Process W → Prop) (F : Shared → Prop) (m : ag E A) Q R :
  (∀ s, P s → F (shared (world s))) → (∀ s, P s → triple (hosting s F) m Q R) → triple P m Q R.
Proof. intros HF Hm s Hs. apply (Hm s Hs). by apply hosting_refl, HF. Qed.

(** Since [q] only the shared state changed, and the agent may have been locked. *)
Definition shaken (q : Process W) (F : Shared → Prop) (s : Process W) : Prop :=
  following (world q) F (world s) ∧ (agent s = agent q ∨ locked (agent s)).

Lemma hosting_shaken q F s : hosting q F s → shaken q F s.
Proof. intros [? ?]. split; [done|by left]. Qed.
Lemma shaken_consistent q F s : shaken q F s → consistent q → consistent s.
Proof.
  intros [((_ & Hf) & _) [Ha|Hl]] Hq; [|by left]. by eapply consistent_same_vault; [split|].
Qed.
Lemma shaken_drop q (F G : Shared → Prop) m s :
  (∀ x, F x → G (set_held (λ held, held ∖ {[m]}) x)) → shaken q F s → shaken q G (on_world (drop_guard m) s).
Proof. intros HG [? ?]. split; [by eapply drop_guard_rule|done]. Qed.

Lemma set_locked_rule {E} q held permits (R : E → Process W → Prop) :
  triple (hosting q (idle held permits)) (in_world set_locked_unless_shutting_down)
    (λ _, hosting q (idle held permits)) R.
Proof.
  eapply triple_weaken; [apply (call_rule q (idle held permits) _ (λ _, idle held permits) (λ _ _, False))|done|done|].
  - apply atomic_rule; [apply stable_idle|]. intros x Hx. cbn zeta.
    match goal with |- context [if ?b then _ else _] => destruct b end; split; [by split|exact Hx|done|exact Hx].
  - by intros e s (_ & _ & _ & ?).
Qed.

Lemma lock_rule {E} q F (R : E → Process W → Prop) :
  triple (hosting q F) (lock (W:=W)) (λ _ s, locked (agent s) ∧ following (world q) F (world s)) R.
Proof. intros s [Ha Hs]. split; [apply lock_locks|done]. Qed.

(** The request may still be authorised: it is in time, and it was not revoked. *)
Record timely (deadline e : Z) (registration : RequestRegistration) (w : W) : Prop := {
  ti_deadline : in_time w deadline;
  ti_epoch : cd_epoch (coordinator (shared w)) ≤ e;
  ti_flag : sh_flags (shared w) !! rr_cancellation registration ≠ Some true;
}.
Lemma timely_earlier deadline e registration w w' :
  passes w w' → timely deadline e registration w' → timely deadline e registration w.
Proof.
  intros [Hc [He Hf _]] [Ht Hn Hg]. split; [unfold in_time in *; lia|lia|]. intros Hset. by apply Hg, Hf.
Qed.

Section request.
Context (e : Z) (registration : RequestRegistration) (deadline : Z).

Lemma pre_check_rule q held permits (R : DispatchError → Process W → Prop) :
  triple (hosting q (idle held permits)) (pre_check e registration deadline)
    (λ o s, hosting q (idle held permits) s
      ∧ match o with Some outcome => refusal outcome | None => in_time (world q) deadline end) R.
Proof.
  eapply triple_weaken; [apply (in_world_rule q);
    apply (pre_secret_operation_rule (idle held permits) (λ _ _, False)); apply stable_idle|done| |by intros ? ? [? ?]].
  intros o s (? & ? & ?). by split_and!.
Qed.

Lemma post_secret_operation_rule q held permits (R : DispatchError → Process W → Prop) :
  triple (hosting q (idle held permits)) (post_secret_operation e registration deadline)
    (λ o s, match o with
      | Some outcome => refusal outcome ∧ shaken q (idle held permits) s
      | None => timely deadline e registration (world q) ∧ hosting q (idle held permits) s
      end) R.
Proof.
  set (F := idle held permits). assert (stable F) as HF by apply stable_idle. unfold post_secret_operation.
  set (G x := F x ∧ cd_epoch (coordinator (shared (world q))) ≤ e).
  assert (stable G) as HG by (intros s s' He [Hx ?]; split; [by eapply HF|done]).
  eapply (triple_bind _ _ _ (λ b : bool, hosting q (if b then F else G))).
  { eapply triple_weaken; [apply (in_world_rule q F _ (λ b : bool, following (world q) (if b then F else G)) (λ _ _, False))|done|
      by intros b s [? ?]|by intros ? ? []].
    eapply (or_else_rule _ (following (world q) F)).
    { apply look_rule; [done|]. by intros []. }
    eapply (or_else_rule _ (following (world q) F)).
    { apply not_unlocked_rule; [done|]. by intros []. }
    eapply triple_post; [by apply other_epoch_rule|].
    intros b w Hw. pose proof (proj1 (proj2 Hw)) as [_ [Hle _ _]]. destruct b; (eapply following_weaken; [|exact Hw]).
    - by intros x [].
    - intros x [? Hx]. split; [done|]. pose proof Hw as (_ & _ & _ & Hx'). rewrite (Hx' eq_refl) in Hle. done. }
  intros [].
  - eapply triple_bind; [apply lock_rule|intros []].
    eapply (rebase_rule _ F); [by intros s (_ & _ & _ & ?)|intros s [Hl Hs]].
    eapply triple_bind; [apply set_locked_rule|intros ?]. apply triple_ret. intros s' [Ha Hs'].
    split; [by left|]. split; [by eapply following_trans|right; by rewrite Ha].
  - set (G' x := G x ∧ sh_flags (shared (world q)) !! rr_cancellation registration ≠ Some true).
    eapply triple_weaken; [apply (in_world_rule q G _ (λ o w, following (world q) F w ∧
        match o with Some outcome => refusal outcome | None => timely deadline e registration (world q) end) (λ _ _, False))|done| |by intros ? ? []].
    + assert (∀ w, following (world q) G w → following (world q) F w) as Hweak by (intros w; apply following_weaken; by intros x []).
      eapply (stop_if_rule _ (following (world q) G')).
      { eapply triple_post; [by apply (observe_rule G (λ b x, G x ∧ bool_decide (sh_flags x !! rr_cancellation registration = Some true) = b)); [|by intros]|].
        intros [] w Hw.
        - split; [|right; by left]. apply Hweak. eapply following_weaken; [|exact Hw]. by intros x [].
        - pose proof (proj1 (proj2 Hw)) as [_ [_ Hfl _]]. pose proof Hw as (_ & _ & _ & Hb). apply bool_decide_eq_false in Hb.
          eapply following_weaken; [|exact Hw]. intros x [? _]. split; [done|]. intros Hset. by apply Hb, Hfl. }
      assert (stable G') as HG' by (intros s s' He [Hx ?]; split; [by eapply HG|done]).
      eapply (stop_if_rule _ (λ w, following (world q) F w ∧ timely deadline e registration (world q))); [|by apply triple_ret].
      eapply triple_post; [by apply past_rule|].
      assert (∀ w, following (world q) G' w → following (world q) F w) as Hweak' by (intros w Hw; apply Hweak; eapply following_weaken; [|exact Hw]; by intros x []).
      intros [] w [Hw Ht]; [split; [by apply Hweak'|by right; right]|]. split; [by apply Hweak'|].
      destruct Hw as (_ & _ & (_ & ?) & ?). split; [by apply Ht|done|done].
    + intros [o|] s (? & ? & ?); (split; [done|]); [apply hosting_shaken|]; by split.
Qed.

(** An aborted operation reports why, or fails the connection. *)
Lemma abort_after_core_rule q held permits :
  triple (hosting q (idle held permits)) (abort_after_core e registration deadline)
    (λ o s, refusal o ∧ shaken q (idle held permits) s)
    (λ err s, err = DispatchInternal ∧ shaken q (idle held permits) s).
Proof.
  unfold abort_after_core. eapply triple_bind; [apply post_secret_operation_rule|intros o; cbn beta].
  apply triple_of_result; [by destruct o|..]; destruct o as [outcome|]; cbn [ok_or].
  - by intros a s [= <-] [? ?].
  - done.
  - done.
  - intros err s [= <-] [_ ?]. split; [done|by apply hosting_shaken].
Qed.

(** After a failure of the agent it is locked, and the vault is given back. *)
Lemma account_failed_rule q held permits :
  VaultMutex ∉ held → CommitGate ∉ held → CancellationsMutex ∉ held →
  triple (hosting q (idle ({[VaultMutex]} ∪ held) permits)) (account_error_after_core AccountFailed)
    (λ o s, o = failed ∧ locked (agent s) ∧ following (world q) (idle held permits) (world s))
    (λ err s, err = DispatchInternal ∧ locked (agent s) ∧ following (world q) (idle held permits) (world s)).
Proof.
  intros Hv Hg Hc. unfold account_error_after_core. rewrite bool_decide_false by auto.
  assert (({[VaultMutex]} ∪ held) ∖ {[VaultMutex]} = held) as Hback by set_solver.
  assert (({[CommitGate]} ∪ held) ∖ {[CommitGate]} = held) as Hback' by set_solver.
  eapply triple_bind; [apply lock_rule|intros []].
  eapply (triple_bind _ _ _ (λ _ s, locked (agent s) ∧ following (world q) (idle held permits) (world s))).
  { apply triple_modify. intros s [Hl Hs]. split; [done|]. eapply drop_guard_rule; [|exact Hs].
    intros x Hx%(idle_drop _ _ VaultMutex). by rewrite Hback in Hx. }
  intros []. eapply (rebase_rule _ (idle held permits)); [by intros s (_ & _ & _ & ?)|intros s0 [Hl Hs0]].
  assert (∀ s, hosting s0 (idle held permits) s → locked (agent s) ∧ following (world q) (idle held permits) (world s)) as Hend.
  { intros s [Ha Hs]. split; [by rewrite Ha|by eapply following_trans]. }
  apply (guarded_rule s0 (idle held permits) (idle ({[CommitGate]} ∪ held) permits)).
  - apply stable_idle.
  - intros x (Hh & Hp & _). rewrite Hh. split; [done|]. split_and!; [by cbn; rewrite Hh|done|done].
  - intros s Hs. split; [done|by apply Hend].
  - assert (∀ s, hosting s0 (idle ({[CommitGate]} ∪ held) permits) s →
      hosting s0 (idle held permits) (on_world (drop_guard CommitGate) s)) as Hdrop.
    { intros s. apply drop_rule. intros x Hx%(idle_drop _ _ CommitGate). by rewrite Hback' in Hx. }
    eapply triple_bind; [apply set_locked_rule|intros []]. eapply (triple_bind _ _ _ (λ _, hosting s0 (idle ({[CommitGate]} ∪ held) permits))).
    + eapply triple_weaken; [apply (in_world_rule s0), (advance_epoch_idle ({[CommitGate]} ∪ held) permits); set_solver|done|done|].
      intros e' s (? & ? & ? & ? & ->). split; [done|]. apply Hend, Hdrop. by split_and!.
    + intros n. apply triple_ret. intros s Hs. split; [done|]. by apply Hend, Hdrop.
Qed.
End request.

(** ** Mutations *)

(** A response that carries an error, and nothing else. *)
Definition declined (o : ExecutionOutcome) : Prop := is_Some (eo_error o) ∧ eo_body o = [].
Lemma refusal_declined o : refusal o → declined o.
Proof. intros [->|[->| ->]]; by split. Qed.
Lemma account_error_declined error : declined (map_account_error error).
Proof. by destruct error; split. Qed.

(** Where an operation leaves its caller: with its own guards and permits, and with an
    agent that is locked or agrees with the file. *)
Definition settled (p : Process W) (held : gset MutexName) (permits : gset FlagName) (s : Process W) : Prop :=
  resting held permits s ∧ consistent s ∧ passes (world p) (world s).

Lemma file_holds_kept w w' path key m : files_kept w w' → file_holds w path key m → file_holds w' path key m.
Proof. intros Hf (v & hdr & man & rows & ? & ? & ?). exists v, hdr, man, rows. by rewrite Hf. Qed.

Lemma hosting_settled p held permits (Hc : consistent p) s : hosting p (idle held permits) s → settled p held permits s.
Proof.
  intros Hs. pose proof (hosting_same_vault _ _ _ Hs). destruct Hs as (_ & _ & ? & ?).
  split_and!; [done|by eapply consistent_same_vault|done].
Qed.
Lemma hosting_idle p held permits (X : Shared → Prop) s :
  hosting p (holding held permits X) s → hosting p (idle held permits) s.
Proof. intros [? Hs]. split; [done|]. eapply following_weaken; [|exact Hs]. by intros x (? & ? & _). Qed.
Lemma drop_same m s : same_vault s (on_world (drop_guard m) s) ∧ passes (world s) (world (on_world (drop_guard m) s)).
Proof.
  unfold on_world, drop_guard. split; [split; [done|apply set_shared_files]|].
  split; cbn; [by rewrite set_shared_clock|rewrite shared_set; by split].
Qed.
Lemma drop_holding held permits m (X : Shared → Prop) w :
  m ∉ held → guard_free X → holding ({[m]} ∪ held) permits X (shared w) →
  holding held permits X (shared (drop_guard m w)) ∧ passes w (drop_guard m w).
Proof.
  intros Hm HX Hw. destruct (drop_guard_rule (holding ({[m]} ∪ held) permits X) (holding held permits X) m w w) as (_ & ? & ?);
    [|by apply following_refl|done].
  intros x (Hh & ? & ?). split_and!; [cbn; rewrite Hh; set_solver|done|by apply HX].
Qed.
Lemma settled_drop p held permits m s :
  m ∉ held → settled p ({[m]} ∪ held) permits s → settled p held permits (on_world (drop_guard m) s).
Proof.
  intros Hm (Hr & Hc & Hps). pose proof (drop_rule s (idle ({[m]} ∪ held) permits) (idle held permits) m s) as Hd.
  assert (({[m]} ∪ held) ∖ {[m]} = held) as Hback by set_solver.
  destruct Hd as [Ha Hd]; [|by apply hosting_refl|].
  { intros x Hx%(idle_drop _ _ m). by rewrite Hback in Hx. }
  pose proof Hd as ((_ & ?) & ? & ?). split_and!; [done|by eapply (consistent_same_vault s)|passing].
Qed.
(** A guard for a scope that fails, if it does, without having disturbed anything. *)
Lemma guarded_keeps {A} p held permits m (X : Shared → Prop) (body : rt A) Q :
  m ∉ held → stable (holding held permits X) → guard_free X → consistent p →
  triple (hosting p (holding ({[m]} ∪ held) permits X)) body (λ a s, Q a (on_world (drop_guard m) s))
    (λ err s, err = DispatchInternal ∧ settled p ({[m]} ∪ held) permits s) →
  triple (hosting p (holding held permits X)) (guarded m body) Q
    (λ err s, err = DispatchInternal ∧ settled p held permits s).
Proof.
  intros Hm HX Hf Hc Hb. apply (guarded_rule p _ (holding ({[m]} ∪ held) permits X)); [done|..].
  - intros x (Hh & ? & ?). split; [by rewrite Hh|]. split_and!; [cbn; by rewrite Hh|done|by apply Hf].
  - intros s [? Hs]. split; [done|]. apply hosting_settled; [done|]. split; [done|].
    eapply following_weaken; [|exact Hs]. by intros x (? & ? & _).
  - eapply triple_weaken; [exact Hb|done|done|]. intros err s [-> ?]. split; [done|by apply settled_drop].
Qed.

(** The two guards of an operation on the vault are dropped. *)
Definition drops (s : Process W) : Process W := on_world (drop_guard CommitGate) (on_world (drop_guard VaultMutex) s).
Lemma drops_same s : same_vault s (drops s) ∧ passes (world s) (world (drops s)).
Proof.
  unfold drops. destruct (drop_same VaultMutex s) as [[? ?] ?].
  destruct (drop_same CommitGate (on_world (drop_guard VaultMutex) s)) as [[? ?] ?].
  split; [|by etrans]. split; [done|by etrans].
Qed.
Lemma drops_holding held held' permits (F : Shared → Prop) s :
  guard_free F → held' ∖ {[VaultMutex]} ∖ {[CommitGate]} = held →
  holding held' permits F (shared (world s)) → holding held permits F (shared (world (drops s))).
Proof.
  intros HF Hh (Hs & Hp & Hf). unfold drops, on_world, drop_guard. cbn. rewrite !shared_set. split_and!.
  - cbn. by rewrite Hs.
  - done.
  - by apply HF, HF.
Qed.

(** What the agent does with the vault held, where it asks [before] for the last time. *)
Section agent_part.
Context {A : Type} (held : gset MutexName) (permits : gset FlagName).
Context (before : stm W StorageError unit) (G : Shared → Prop) (T : W → Prop).
Context (update : A → gmap bytes DecryptedRecord → gmap bytes DecryptedRecord → Prop) (mutate : ag (W:=W) AccountError A).
Context (Hfree : VaultMutex ∉ held ∧ CommitGate ∉ held).
Context (Hgates : gates ({[VaultMutex]} ∪ held) permits G T before).
Context (Hmutate : ∀ q key m, in_sync q key m → admissible before (world q) → updates q key m before mutate update).
Context (Hlocked : ∀ q, locked (agent q) → mutate q = (Err AccountLocked, q)).
#[local] Abbreviation inside := ({[VaultMutex]} ∪ held).

(** After the agent's part, from [q] on: if it failed, the gate may have been taken. *)
Definition after (q : Process W) (r : result AccountError A) (s : Process W) : Prop :=
  passes (world q) (world s) ∧
  match r with
  | Ok a => ∃ key m m', in_sync q key m ∧ update a m m' ∧ in_sync s key m'
      ∧ holding ({[CommitGate]} ∪ inside) permits G (shared (world s)) ∧ T (world q)
  | Err error =>
      (∃ held', held' ∖ {[CommitGate]} = inside ∧ resting held' permits s)
      ∧ match error with
        | AccountFailed => locked (agent s) ∧ (files_kept (world q) (world s)
            ∨ ∃ key m a m' path, in_sync q key m ∧ update a m m' ∧ file_holds (world s) path key m')
        | _ => same_vault q s
        end
  | Panic => False
  end.

Lemma mutate_after q : consistent q → resting inside permits q → after q (mutate q).1 (mutate q).2.
Proof.
  intros Hq Hr. assert (inside ∖ {[CommitGate]} = inside) as Hnot by set_solver.
  destruct Hq as [Hl|(key & m & Hin)].
  { rewrite Hlocked by done. split; [done|]. split; [by exists inside|by split]. }
  pose proof (Hmutate q key m Hin (gates_admissible _ _ _ _ _ _ Hgates Hr)) as Hup. unfold updates in Hup.
  assert (∀ w', may_have_run before (world q) w' →
    (∃ held', held' ∖ {[CommitGate]} = inside ∧ idle held' permits (shared w')) ∧ passes (world q) w') as Hmay.
  { intros w' Hw'. by eapply gates_may_have_run. }
  assert (∀ w', passed before (world q) w' → may_have_run before (world q) w') as Hpm by (intros w'; apply passed_may_have_run).
  destruct (mutate q) as [[a|error|] s]; cbn [fst snd mutated] in *; [|unfold after|done].
  - destruct Hup as (_ & Hp & m' & Hu & Hin'). destruct (gates_passed _ _ _ _ _ _ _ Hgates Hr Hp) as (? & ? & ?).
    split; [done|]. exists key, m, m'. by split_and!.
  - destruct error; try done.
    + destruct Hup as (? & [Hmv ?] & _). destruct (Hmay (world s)) as [? ?]; [by left|]. by split_and!.
    + destruct Hup as (? & [Hmv ?] & _). destruct (Hmay (world s)) as [? ?]; [by left|]. by split_and!.
    + destruct Hup as (? & ? & Hm & _). destruct (Hmay (world s) Hm) as [? ?]. by split_and!.
    + destruct Hup as (? & _ & [[? Hm]|(Hp & path & a & m' & _ & ? & ?)]).
      * destruct (Hmay (world s) Hm) as [? ?]. split_and!; try done. by left.
      * destruct (Hmay (world s) (Hpm _ Hp)) as [? ?]. split_and!; try done. right. by exists key, m, a, m', path.
Qed.

(** A failed mutation gives the gate back. *)
Lemma after_release q error s : after q (Err error) s →
  after q (Err error) (on_world (drop_guard CommitGate) s) ∧ resting inside permits (on_world (drop_guard CommitGate) s).
Proof.
  intros (Hclock & (held' & Hh & Hr) & Hs).
  destruct (drop_rule s (idle held' permits) (idle inside permits) CommitGate s) as (Ha & (_ & Hf) & Ht & Hi).
  - intros x Hx%(idle_drop _ _ CommitGate). by rewrite Hh in Hx.
  - by apply hosting_refl.
  - split; [|done]. split; [passing|]. assert (inside ∖ {[CommitGate]} = inside) by (destruct Hfree; set_solver).
    split; [by exists inside|].
    destruct error; try (destruct Hs as [Ha' Hf']; split; [by rewrite Ha|by etrans]).
    destruct Hs as [Hl Hs]. split; [by rewrite Ha|]. destruct Hs as [?|(key & m & a & m' & path & ? & ? & ?)]; [left; by etrans|right].
    exists key, m, a, m', path. split_and!; [done|done|by eapply file_holds_kept].
Qed.

(** The call of the agent, and what follows it. *)
Lemma mutate_rule {B} q (k : result AccountError A → rt B) Q R :
  consistent q → resting inside permits q →
  (∀ a s, after q (Ok a) s → triple (λ s', s' = s) (k (Ok a)) Q R) →
  (∀ error s, after q (Err error) s → resting inside permits s → triple (λ s', s' = s) (k (Err error)) Q R) →
  triple (λ s, s = q) (result ← attempt mutate; release_failed_commit_guard result;; k result) Q R.
Proof.
  intros Hq Hr Hok Herr. pose proof (mutate_after q Hq Hr) as Hafter. eapply (triple_bind _ _ _ (λ r s, after q r s)).
  { intros s ->. unfold attempt. destruct (mutate q) as [[a|error|] s2]; [done|done|by destruct Hafter]. }
  intros r. apply triple_pre. intros s2 Hs2. destruct r as [a|error|]; [| |by destruct Hs2].
  - eapply (triple_bind _ _ _ (λ _ s, s = s2)); [by apply triple_modify; intros ? ->|intros []]. by apply Hok.
  - destruct (after_release q error s2 Hs2) as [Hs3 Hr3].
    eapply (triple_bind _ _ _ (λ _ s, s = on_world (drop_guard CommitGate) s2)); [by apply triple_modify; intros ? ->|intros []]. by apply Herr.
Qed.
Lemma after_error q error s : after q (Err error) s →
  error = AccountFailed ∨ error ≠ AccountFailed ∧ same_vault q s ∧ passes (world q) (world s).
Proof. intros (? & _ & Hs). destruct error; auto. Qed.
End agent_part.

Lemma others_had_same p q s : others_had p q → same_vault q s → others_had p s.
Proof.
  intros (p1 & ? & [Ha Hf]) [Ha' Hf']. exists p1. split; [done|]. split; [by rewrite Ha'|by etrans].
Qed.

Section mutation.
Context {A : Type} (p : Process W) (held : gset MutexName) (permits : gset FlagName).
Context (before : stm W StorageError unit) (G : Shared → Prop) (deadline : Z).
Context (update : A → gmap bytes DecryptedRecord → gmap bytes DecryptedRecord → Prop).
Context (O : A → ExecutionOutcome → Prop) (B : Shared → Prop).
Context (e : Z) (registration : RequestRegistration).
Context (Hlater : ∀ x x', later x x' → B x → B x').

(** The file was written, by a request that was timely when it began; and its result
    is given. *)
Definition published (o : ExecutionOutcome) (s : Process W) : Prop :=
  ∃ q key m a m', others_had p q ∧ in_sync q key m ∧ update a m m' ∧ in_sync s key m'
    ∧ O a o ∧ timely deadline e registration (world p) ∧ B (shared (world s)).

(** Nothing is given, and the file was not written; unless the operation failed, and
    the agent is locked: then the file may hold the whole update. *)
Definition given_up (o : ExecutionOutcome) (s : Process W) : Prop :=
  declined o ∧ ∃ q, (q = p ∨ others_had p q)
    ∧ (files_kept (world q) (world s)
       ∨ o = failed ∧ locked (agent s)
         ∧ ∃ key m a m' path, in_sync q key m ∧ update a m m' ∧ file_holds (world s) path key m').

Definition concluded (o : ExecutionOutcome) (s : Process W) : Prop :=
  settled p held permits s ∧ (published o s ∨ given_up o s).

Lemma concluded_drops held' o s :
  held' ∖ {[VaultMutex]} ∖ {[CommitGate]} = held →
  resting held' permits s → consistent s → passes (world p) (world s) → published o s ∨ given_up o s →
  concluded o (drops s).
Proof.
  intros Hh Hr Hc Ht Ho. destruct (drops_same s) as [Hsame Hclock]. split.
  - split_and!; [by eapply drops_holding|by eapply consistent_same_vault|passing].
  - destruct Hsame as [Ha Hf], Ho as [(q & key & m & a & m' & ? & ? & ? & ? & ? & ? & HB)|(Hd & q & Hq & Ho)].
    + left. exists q, key, m, a, m'. split_and!; try done; [by eapply in_sync_kept|]. eapply Hlater; [|exact HB]. apply Hclock.
    + right. split; [done|]. exists q. split; [done|]. destruct Ho as [?|(-> & ? & key & m & a & m' & path & ? & ? & ?)].
      * left. by etrans.
      * right. split_and!; [done|by rewrite Ha|]. exists key, m, a, m', path. split_and!; [done|done|by eapply file_holds_kept].
Qed.

Context (mutate : ag (W:=W) AccountError A).
Context (Hheld : VaultMutex ∉ held ∧ CommitGate ∉ held ∧ CancellationsMutex ∉ held).
Context (Hgates : gates ({[VaultMutex]} ∪ held) permits G (λ w, in_time w deadline) before).
Context (Hauthorised : ∀ x, G x → authorised e registration x).
Context (Hmutate : ∀ q key m, in_sync q key m → admissible before (world q) → updates q key m before mutate update).
Context (Hlocked : ∀ q, locked (agent q) → mutate q = (Err AccountLocked, q)).
#[local] Abbreviation inside := ({[VaultMutex]} ∪ held).

Context (present : A → rt ExecutionOutcome).
Context (Hpresent : ∀ key m m' a s0, passes (world p) (world s0) → update a m m' → in_sync s0 key m' →
  holding ({[CommitGate]} ∪ inside) permits G (shared (world s0)) →
  triple (hosting s0 (holding ({[CommitGate]} ∪ inside) permits G)) (present a)
    (λ o s, O a o ∧ B (shared (world s)) ∧ hosting s0 (idle ({[CommitGate]} ∪ inside) permits) s)
    (λ err s, err = DispatchInternal ∧ hosting s0 (idle ({[CommitGate]} ∪ inside) permits) s)).
Context (Hp : consistent p).

#[local] Abbreviation after := (after held permits G (λ w, in_time w deadline) update).

(** How the part under the vault ends, before its guards are dropped. *)
Definition ends (o : ExecutionOutcome) (s : Process W) : Prop := concluded o (drops s).
Definition breaks (err : DispatchError) (s : Process W) : Prop :=
  err = DispatchInternal ∧ settled p held permits (drops s).

Lemma inside_free : inside ∖ {[VaultMutex]} ∖ {[CommitGate]} = held ∧ held ∖ {[VaultMutex]} ∖ {[CommitGate]} = held
  ∧ ({[CommitGate]} ∪ inside) ∖ {[VaultMutex]} ∖ {[CommitGate]} = held.
Proof. destruct Hheld as (? & ? & _). set_solver. Qed.

Lemma settled_drops held' s :
  held' ∖ {[VaultMutex]} ∖ {[CommitGate]} = held → resting held' permits s → consistent s →
  passes (world p) (world s) → settled p held permits (drops s).
Proof.
  intros Hh Hr Hc Ht. destruct (drops_same s) as [Hsame Hclock].
  split_and!; [by eapply drops_holding|by eapply consistent_same_vault|passing].
Qed.

(** A part that declines leaves the file alone. *)
Lemma declined_ends q held' o s :
  others_had p q → passes (world p) (world q) → held' ∖ {[VaultMutex]} ∖ {[CommitGate]} = held →
  declined o → shaken q (idle held' permits) s → ends o s.
Proof.
  intros Hq Ht Hh Hd Hs. assert (consistent q) as Hc by (by eapply others_had_consistent).
  pose proof Hs as ((Hf & Ht' & Hi) & _).
  apply (concluded_drops held'); [done|done|by eapply shaken_consistent|passing|].
  right. split; [done|]. exists q. split; [by right|left]. apply Hf.
Qed.
Lemma broken_ends q held' s :
  others_had p q → passes (world p) (world q) → held' ∖ {[VaultMutex]} ∖ {[CommitGate]} = held →
  shaken q (idle held' permits) s → breaks DispatchInternal s.
Proof.
  intros Hq Ht Hh Hs. assert (consistent q) as Hc by (by eapply others_had_consistent).
  split; [done|]. pose proof Hs as ((_ & Ht' & Hi) & _).
  apply (settled_drops held'); [done|done|by eapply shaken_consistent|passing].
Qed.

Lemma present_ends q a s0 : others_had p q → passes (world p) (world q) → after q (Ok a) s0 →
  triple (λ s, s = s0) (present a) ends breaks.
Proof.
  intros Hq Ht (Hclock & key & m & m' & Hin & Hu & Hin' & HG & Hd). destruct inside_free as (_ & _ & Hh).
  eapply triple_weaken; [apply (Hpresent key m m' a s0); [by etrans|done..]|by intros ? ->; apply hosting_refl|..].
  - intros o s (HO & HB & Hs). pose proof (hosting_same_vault _ _ _ Hs) as [Ha Hf]. destruct Hs as (_ & _ & ? & Hi).
    assert (in_sync s key m') as Hin'' by (by eapply in_sync_kept).
    apply (concluded_drops ({[CommitGate]} ∪ inside)); [done|done|right; by exists key, m'|passing|].
    assert (passes (world p) (world s0)) as Hps by passing.
    left. exists q, key, m, a, m'. split_and!; try done. destruct HG as (_ & _ & (He & _ & Hfl)%Hauthorised). split.
    + destruct Ht. unfold in_time in *. lia.
    + rewrite <-He. apply Hps.
    + intros Hset. apply Hfl. by apply Hps.
  - intros err s [-> Hs]. pose proof (hosting_same_vault _ _ _ Hs) as [Ha Hf]. destruct Hs as (_ & _ & ? & Hi).
    split; [done|]. apply (settled_drops ({[CommitGate]} ∪ inside)); [done|done| |passing].
    right. exists key, m'. by eapply in_sync_kept.
Qed.

(** The failure of a mutation, the gate given back. *)
Lemma failed_ends q s0 : others_had p q → passes (world p) (world q) →
  after q (Err AccountFailed) s0 → resting inside permits s0 →
  triple (λ s, s = s0) (account_error_after_core AccountFailed) ends breaks.
Proof.
  intros Hq Ht (Hclock & _ & Hl & Hfile) Hr. destruct inside_free as (_ & Hh & _). destruct Hheld as (? & ? & ?).
  eapply triple_weaken; [by apply (account_failed_rule s0)|by intros ? ->; apply hosting_refl|..].
  - intros o s (-> & Hls & (_ & Hk) & ? & Hi).
    apply (concluded_drops held); [done|done|by left|passing|]. right. split; [by split|]. exists q. split; [by right|].
    destruct Hfile as [?|(key & m & a & m' & path & ? & ? & ?)]; [left; by etrans|right].
    split_and!; [done|done|]. exists key, m, a, m', path. split_and!; [done|done|by eapply file_holds_kept].
  - intros err s (-> & Hls & _ & ? & Hi). split; [done|]. apply (settled_drops held); [done|done|by left|passing].
Qed.

(** Without the record, [missing] responds: it may promise [M] instead. *)
Lemma mutate_vault_or_rule (missing : rt ExecutionOutcome) (M : ExecutionOutcome → Process W → Prop) :
  (∀ s0, others_had p s0 → passes (world p) (world s0) →
    triple (hosting s0 (idle inside permits)) missing (λ o s, ends o s ∨ M o (drops s)) breaks) →
  triple (hosting p (idle held permits)) (mutate_vault_or e registration deadline mutate present missing)
    (λ o s, concluded o s ∨ M o s) (λ err s, err = DispatchInternal ∧ settled p held permits s).
Proof.
  intros Hmissing. destruct inside_free as (Hin1 & Hin2 & _). pose proof Hheld as (Hv & Hg & Hc).
  unfold mutate_vault_or, with_commit_guard. apply finally_rule. apply with_vault_rule; [done| |].
  2: { intros q Hq Hr Ht. split; [done|]. assert (consistent q) by (by eapply others_had_consistent).
    destruct (drop_rule q (idle held permits) (idle held permits) CommitGate q) as (? & (? & ?) & ? & ?).
    - intros x Hx%(idle_drop _ _ CommitGate). assert (held ∖ {[CommitGate]} = held) as Hh by set_solver. by rewrite Hh in Hx.
    - by apply hosting_refl.
    - split_and!; [done|by eapply (consistent_same_vault q)|passing]. }
  intros q Hq Hr Ht. set (Q o s := ends o s ∨ M o (drops s)).
  match goal with |- triple _ ?m _ _ => change (triple (λ s, s = q) m Q breaks) end.
  assert (∀ o s, ends o s → Q o s) as HQ by (by left).
  apply (triple_from (hosting q (idle inside permits))); [by intros ? ->; apply hosting_refl|].
  eapply unless_rule.
  { eapply triple_post; [apply pre_check_rule|]. intros [o|] s [Hs Ho]; [|exact (conj Hs Ho)].
    apply HQ, (declined_ends q inside); [done|done|done|by apply refusal_declined|by apply hosting_shaken]. }
  apply triple_pre. intros s1 [Hs1 _]. assert (others_had p s1) as Hq1 by (by eapply others_had_same, hosting_same_vault).
  assert (passes (world p) (world s1)) as Ht1 by (destruct Hs1 as (_ & _ & ? & _); passing).
  assert (consistent s1) as Hc1 by (by eapply others_had_consistent).
  apply (mutate_rule held permits before G (λ w, in_time w deadline) update); [by split|done..|apply Hs1| |].
  { intros a s2 Hs2. by eapply triple_post; [apply (present_ends s1)|auto]. }
  intros error s3 Hs3 Hr3.
  destruct (after_error held permits G (λ w, in_time w deadline) update s1 error s3 Hs3) as [->|(Hne & Hsame & Ht3)].
  { by eapply triple_post; [apply (failed_ends s1)|auto]. }
  assert (others_had p s3) as Hq3 by (by eapply others_had_same).
  assert (passes (world p) (world s3)) as Ht3' by passing.
  apply (triple_from (hosting s3 (idle inside permits))); [by intros ? ->; apply hosting_refl|].
  assert (∀ o s, declined o → shaken s3 (idle inside permits) s → Q o s) as Hdecl
    by (intros; by apply HQ, (declined_ends s3 inside)).
  destruct error; try done; try (by apply Hmissing);
    try (eapply unless_rule; [eapply triple_post; [apply post_secret_operation_rule|];
      intros [o|] s; [intros [Ho%refusal_declined Hs]; by apply Hdecl|intros [_ Hs]; exact Hs]
      |apply triple_ret; intros s Hs; by apply Hdecl; [apply account_error_declined|apply hosting_shaken]]).
  eapply triple_weaken; [apply abort_after_core_rule|done|..].
  - intros o s [Ho%refusal_declined Hs]. by apply Hdecl.
  - intros err s [-> Hs]. by apply (broken_ends s3 inside).
Qed.

Lemma mutate_vault_rule :
  triple (hosting p (idle held permits)) (mutate_vault e registration deadline mutate present) concluded
    (λ err s, err = DispatchInternal ∧ settled p held permits s).
Proof.
  destruct inside_free as (Hin1 & _). eapply triple_post; [apply (mutate_vault_or_rule _ (λ _ _, False))|by intros o s [?|[]]].
  intros s0 Hq Ht. eapply unless_rule.
  - eapply triple_post; [apply post_secret_operation_rule|].
    intros [o|] s; [intros [Ho%refusal_declined Hs]; left; by apply (declined_ends s0 inside)|intros [_ Hs]; exact Hs].
  - apply triple_ret. intros s Hs. left. by apply (declined_ends s0 inside); [..|apply account_error_declined|apply hosting_shaken].
Qed.
End mutation.

(** ** The flag of a kind of operation *)

Lemma set_flag_same f b x :
  sh_held (set_flag f b x) = sh_held x ∧ sh_permits (set_flag f b x) = sh_permits x ∧ later x (set_flag f b x).
Proof. split_and!; [by destruct f..|]. destruct f; by split. Qed.

(** A permit is dropped: the flag is released. *)
Lemma flag_drop_following held permits f w0 w :
  f ∉ permits → following w0 (idle held ({[f]} ∪ permits)) w → following w0 (idle held permits) (flag_drop f w).
Proof.
  intros Hf Hs. unfold flag_drop.
  apply (following_others _ _ _ (stable_idle held ({[f]} ∪ permits))) in Hs. pose proof Hs as (_ & _ & Hh & Hp & _).
  rewrite decide_True by (rewrite Hp; set_solver). destruct (set_flag_same f false (shared (others w))) as (Hh' & Hp' & Hl).
  eapply following_set; [by destruct Hl; split| |exact Hs].
  split_and!; [by cbn; rewrite Hh'| |done]. cbn. rewrite Hp', Hp. set_solver.
Qed.
Lemma flag_drop_rule p held permits f s :
  f ∉ permits → hosting p (idle held ({[f]} ∪ permits)) s → hosting p (idle held permits) (on_world (flag_drop f) s).
Proof. intros Hf [Ha Hs]. split; [done|]. by apply flag_drop_following. Qed.
Lemma flag_drop_same held permits f s :
  f ∉ permits → resting held ({[f]} ∪ permits) s →
  resting held permits (on_world (flag_drop f) s) ∧ same_vault s (on_world (flag_drop f) s)
  ∧ passes (world s) (world (on_world (flag_drop f) s)).
Proof.
  intros Hf Hr. pose proof (flag_drop_rule s held permits f s Hf (hosting_refl s _ Hr)) as Hs.
  split_and!; [by destruct Hs as (_ & _ & _ & ?)|by eapply hosting_same_vault|by destruct Hs as (_ & _ & ? & _)].
Qed.

Lemma with_flag_rule p held permits f (body : rt ExecutionOutcome) Q R :
  f ∉ permits →
  (∀ s, hosting p (idle held permits) s → Q busy s) →
  triple (hosting p (idle held ({[f]} ∪ permits))) body
    (λ o s, Q o (on_world (flag_drop f) s)) (λ e s, R e (on_world (flag_drop f) s)) →
  triple (hosting p (idle held permits)) (with_flag f body) Q R.
Proof.
  intros Hf Hbusy Hb. unfold with_flag.
  eapply (triple_bind _ _ _ (λ b : bool, if b then hosting p (idle held ({[f]} ∪ permits)) else hosting p (idle held permits))).
  - eapply triple_weaken; [apply (call_rule p (idle held permits) _
      (λ b : bool, if b then idle held ({[f]} ∪ permits) else idle held permits) (λ _ _, False))|done|by intros []|by intros ? ? (_ & _ & _ & ?)].
    apply atomic_rule; [apply stable_idle|]. intros x (Hh & Hp & _). destruct (flag_value f x); [by split_and!|].
    destruct (set_flag_same f true x) as (Hh' & Hp' & Hl). split; [by destruct Hl; split|].
    split_and!; [by cbn; rewrite Hh'|by cbn; rewrite Hp', Hp|done].
  - intros []; [by apply finally_rule|apply triple_ret, Hbusy].
Qed.

Section ends_of_scopes.
Context {A : Type} (p : Process W) (held : gset MutexName) (permits : gset FlagName).
Context (deadline : Z) (update : A → gmap bytes DecryptedRecord → gmap bytes DecryptedRecord → Prop).
Context (O : A → ExecutionOutcome → Prop) (B : Shared → Prop) (e : Z) (registration : RequestRegistration).
Context (Hlater : ∀ x x', later x x' → B x → B x').

Lemma settled_flag f s : f ∉ permits →
  settled p held ({[f]} ∪ permits) s → settled p held permits (on_world (flag_drop f) s).
Proof.
  intros Hf (Hr & Hc & Ht). destruct (flag_drop_same held permits f s Hf Hr) as (? & ? & ?).
  split_and!; [done|by eapply consistent_same_vault|passing].
Qed.
Lemma concluded_flag f o s : f ∉ permits →
  concluded p held ({[f]} ∪ permits) deadline update O B e registration o s →
  concluded p held permits deadline update O B e registration o (on_world (flag_drop f) s).
Proof.
  intros Hf [Hs Ho]. split; [by apply settled_flag|]. destruct Hs as (Hr & _).
  destruct (flag_drop_same held permits f s Hf Hr) as (_ & [Ha Hk] & Hps).
  destruct Ho as [(q & key & m & a & m' & ? & ? & ? & ? & ? & ? & HB)|(Hd & q & Hq & Ho)].
  - left. exists q, key, m, a, m'. split_and!; try done; [by eapply in_sync_kept|]. eapply Hlater; [|exact HB]. apply Hps.
  - right. split; [done|]. exists q. split; [done|]. destruct Ho as [?|(-> & ? & key & m & a & m' & path & ? & ? & ?)].
    + left. by etrans.
    + right. split_and!; [done|by rewrite Ha|]. exists key, m, a, m', path. split_and!; [done|done|by eapply file_holds_kept].
Qed.
(** An operation that ends before it takes the vault. *)
Lemma concluded_early o s : consistent p → declined o → hosting p (idle held permits) s →
  concluded p held permits deadline update O B e registration o s.
Proof.
  intros Hc Hd Hs. pose proof (hosting_same_vault _ _ _ Hs) as [Ha Hk]. destruct Hs as (_ & _ & ? & ?). split.
  - split_and!; [done|by eapply consistent_same_vault|done].
  - right. split; [done|]. exists p. split; [by left|by left].
Qed.
End ends_of_scopes.

(** ** Website accounts *)

(** The body of a successful response. *)
Definition responds (r : result ProtocolError bytes) (o : ExecutionOutcome) : Prop :=
  ∃ body, r = Ok body ∧ o = success body.

Lemma encoding_rule {A} p F (r : result ProtocolError A) :
  r ≠ Panic →
  triple (hosting p F) (encoded r) (λ body s, r = Ok body ∧ hosting p F s)
    (λ err s, err = DispatchInternal ∧ hosting p F s).
Proof.
  intros Hr. apply triple_of_result; [by destruct r|..].
  - by intros body s Hb%map_err_Ok Hs.
  - intros err s Hb Hs. split; [|done]. destruct r; simplify_eq/=. done.
Qed.
Lemma encoded_rule p F (r : result ProtocolError bytes) :
  r ≠ Panic →
  triple (hosting p F) (body ← encoded r; mret (success body))
    (λ o s, responds r o ∧ hosting p F s) (λ err s, err = DispatchInternal ∧ hosting p F s).
Proof.
  intros Hr. eapply triple_bind; [by apply encoding_rule|]. intros body. apply triple_ret. intros s [? ?]. split; [by exists body|done].
Qed.

(** The accounts have changed since [w0]. *)
Definition bumped (w0 : W) (x : Shared) : Prop := saturating_add 64 (generation (shared w0)) 1 ≤ generation x.
Lemma bumped_later w0 x x' : later x x' → bumped w0 x → bumped w0 x'.
Proof. unfold bumped. intros []. lia. Qed.

(** With the vault held, the generation that was read is the one that is counted up. *)
Lemma accounts_changed_rule p held permits (R : DispatchError → Process W → Prop) :
  VaultMutex ∈ held →
  triple (hosting p (idle held permits)) accounts_changed
    (λ _ s, bumped (world p) (shared (world s)) ∧ hosting p (idle held permits) s) R.
Proof.
  intros Hv. set (F n := holding held permits (λ x, rt_accounts_generation (sh_runtime x) = n
    ∧ generation (shared (world p)) ≤ Z.min n (max_of 64))).
  assert (∀ n, stable (F n)) as HF.
  { intros n. apply stable_holding. intros s s' He Hh _ [<- ?]. rewrite (es_vault _ _ He) by (by rewrite Hh). done. }
  unfold accounts_changed. eapply triple_weaken; [apply (in_world_rule p (idle held permits) _
    (λ _, following (world p) (λ x, bumped (world p) x ∧ idle held permits x)) (λ _ _, False))|done| |by intros ? ? []].
  - eapply (triple_bind _ _ _ (λ n, following (world p) (F n))).
    { intros w Hw. unfold observe. pose proof (following_others _ _ _ (stable_idle held permits) Hw) as (Hf & Ht & Hi).
      split_and!; [done|done|]. destruct Hi as (? & ? & _). split_and!; [done|done|done|]. apply Ht. }
    intros n. eapply triple_weaken; [apply (atomic_rule (F n) (λ _ x, bumped (world p) x ∧ idle held permits x) (λ _ _, False))|done|done|
      by intros ? ? (_ & _ & ?)]; [apply HF|]. intros x (Hh & Hp & Hn & Hle). cbn zeta. split.
    + split; [done|auto| |done..]. unfold generation, saturating_add. cbn. lia.
    + split; [|by split_and!]. unfold bumped, generation, saturating_add in *. cbn in *. lia.
  - intros u s (Ha & Hs). pose proof Hs as (_ & _ & ? & _). split; [done|]. split; [done|].
    eapply following_weaken; [|exact Hs]. by intros x [].
Qed.

Section accounts.
Context (p : Process W) (held : gset MutexName) (permits : gset FlagName).
Context (e : Z) (registration : RequestRegistration) (deadline : Z).
Context (Hheld : VaultMutex ∉ held ∧ CommitGate ∉ held ∧ CancellationsMutex ∉ held).
Context (Hpermits : MutationFlag ∉ permits) (Hr : resting held permits p) (Hc : consistent p).

(** A mutation of a website account, whose response is [enc]. *)
Lemma account_mutation_rule {A : Type} (mutate : ag (W:=W) AccountError A) (enc : A → result ProtocolError bytes)
    (update : A → gmap bytes DecryptedRecord → gmap bytes DecryptedRecord → Prop) :
  (∀ a m m' key s, update a m m' → in_sync s key m' → enc a ≠ Panic) →
  (∀ q key m, in_sync q key m → admissible (commit_check e registration deadline) (world q) →
    updates q key m (commit_check e registration deadline) mutate update) →
  (∀ q, locked (agent q) → mutate q = (Err AccountLocked, q)) →
  triple (hosting p (idle held ({[MutationFlag]} ∪ permits)))
    (mutate_vault e registration deadline mutate (λ a, accounts_changed;; body ← encoded (enc a); mret (success body)))
    (concluded p held ({[MutationFlag]} ∪ permits) deadline update (λ a, responds (enc a)) (bumped (world p)) e registration)
    (λ err s, err = DispatchInternal ∧ settled p held ({[MutationFlag]} ∪ permits) s).
Proof.
  intros Henc Hm Hl. apply (mutate_vault_rule p held _ (commit_check e registration deadline) (authorised e registration));
    try done; [apply bumped_later| |].
  - apply commit_check_gates. destruct Hheld as (? & ? & ?). set_solver.
  - intros key m m' a s0 Hps Hu Hin _. set (inside := {[CommitGate]} ∪ ({[VaultMutex]} ∪ held)).
    eapply (triple_from (hosting s0 (idle inside ({[MutationFlag]} ∪ permits))));
      [|eapply triple_bind; [apply (accounts_changed_rule s0 inside); subst inside; set_solver|intros []]].
    + intros s (? & ? & ? & ? & ? & _). by split_and!.
    + apply triple_pre. intros s1 [Hb Hs1].
      eapply triple_weaken; [apply (encoded_rule s1 (idle inside ({[MutationFlag]} ∪ permits)) (enc a)); by apply (Henc a m m' key s0)|by intros ? ->; apply hosting_refl, Hs1|..].
      * intros o s [HO Hs]. split; [done|]. split; [|by eapply hosting_trans].
        destruct Hs as (_ & _ & [_ Ht] & _). eapply bumped_later; [exact Ht|]. unfold bumped in *.
        destruct Hps as [_ Hps]. pose proof (lt_generation _ _ Hps). unfold saturating_add in *. lia.
      * intros err s [-> Hs]. split; [done|by eapply hosting_trans].
Qed.

Lemma locked_mutation {A B : Type} prepare last_check before (out : bytes * A → B) (q : Process W) :
  locked (agent q) → mbind (λ done, mret (out done)) (mutation prepare last_check before) q = (Err AccountLocked, q).
Proof.
  intros Hl. assert (mutation prepare last_check before q = (Err AccountLocked, q)) as Hm by (by apply locked_refuses).
  unfold mbind at 1, stm_bind at 1. by rewrite Hm.
Qed.

Lemma in_sync_id q key m id d : in_sync q key m → m !! id = Some d → length id = 16%nat.
Proof. intros (path & v & hdr & man & rows & _ & _ & Hrep) Hd. by destruct (represents_wf _ _ _ _ _ _ _ Hrep Hd) as (_ & _ & ?). Qed.

Lemma encode_account_id_ok id : length id = 16%nat → encode_account_id id ≠ Panic.
Proof. intros Hid. unfold encode_account_id. rewrite response_body_fits; [done|]. wire_size. head_bounds. solve_size. Qed.
Lemma encode_status_ok state epoch : u64 epoch → is_ok (encode_status state epoch) = true.
Proof. intros. unfold encode_status. rewrite response_body_fits; [done|]. wire_size. head_bounds. solve_size. Qed.
Lemma encode_empty_result_ok : encode_empty_result ≠ Panic.
Proof. unfold encode_empty_result. rewrite response_body_fits; [done|]. wire_size. head_bounds. solve_size. Qed.

(** The whole of an operation that changes the vault: the flag, the checks, the mutation. *)
Lemma handler_rule {A : Type} (body : rt ExecutionOutcome) (update : A → gmap bytes DecryptedRecord → gmap bytes DecryptedRecord → Prop) O (B : Shared → Prop) :
  (∀ x x', later x x' → B x → B x') →
  triple (hosting p (idle held ({[MutationFlag]} ∪ permits))) body
    (concluded p held ({[MutationFlag]} ∪ permits) deadline update O B e registration)
    (λ err s, err = DispatchInternal ∧ settled p held ({[MutationFlag]} ∪ permits) s) →
  triple (hosting p (idle held permits)) (with_flag MutationFlag (unless (pre_check e registration deadline) body))
    (concluded p held permits deadline update O B e registration) (λ err s, err = DispatchInternal ∧ settled p held permits s).
Proof.
  intros HB Hb. apply with_flag_rule; [done|intros s Hs; apply concluded_early; [done|by split|done]|].
  apply (unless_rule _ (hosting p (idle held ({[MutationFlag]} ∪ permits)))).
  - eapply triple_post; [apply pre_check_rule|]. intros [o|] s [Hs Ho]; [|done].
    apply concluded_flag; [done..|]. by apply concluded_early; [|apply refusal_declined|].
  - eapply triple_weaken; [exact Hb|done|intros o s Hs; by apply concluded_flag|].
    intros err s [-> Hs]. split; [done|by apply settled_flag].
Qed.
Lemma account_handler_rule {A : Type} (body : rt ExecutionOutcome) (update : A → gmap bytes DecryptedRecord → gmap bytes DecryptedRecord → Prop) O (B : Shared → Prop) :
  (∀ x x', later x x' → B x → B x') →
  triple (hosting p (idle held ({[MutationFlag]} ∪ permits))) body
    (concluded p held ({[MutationFlag]} ∪ permits) deadline update O B e registration)
    (λ err s, err = DispatchInternal ∧ settled p held ({[MutationFlag]} ∪ permits) s) →
  triple (λ s, s = p) (with_flag MutationFlag (unless (pre_check e registration deadline) body))
    (concluded p held permits deadline update O B e registration) (λ err s, err = DispatchInternal ∧ settled p held permits s).
Proof.
  intros HB Hb. apply (triple_from (hosting p (idle held permits))); [by intros ? ->; apply hosting_refl|]. by apply handler_rule.
Qed.

Lemma account_input_rule fields : AccountFields_wf fields →
  match account_input fields with Ok i => WebsiteAccountInput_wf i | Err _ => True | Panic => False end.
Proof.
  intros [[_ ?] [_ ?] [_ ?] [_ ?]]. unfold account_input.
  pose proof (WebsiteAccountInput_new_wf (af_service_name fields) (af_permitted_origin fields)
    (af_username fields) (af_password fields)) as Hwf.
  assert (WebsiteAccountInput_new (af_service_name fields) (af_permitted_origin fields)
    (af_username fields) (af_password fields) ≠ Panic) as Hp.
  { pose proof normalize_origin_not_Panic. unfold WebsiteAccountInput_new, validate_input_lengths. no_panic. }
  destruct (WebsiteAccountInput_new _ _ _ _) as [i|err|]; cbn; [by apply Hwf|done|done].
Qed.
End accounts.

(** An operation on the vault, called with none of the guards it takes: it concludes,
    or fails the connection without having disturbed anything. *)
Definition concludes (p : Process W) (e : Z) (registration : RequestRegistration) (deadline : Z) {A : Type}
    (update : A → gmap bytes DecryptedRecord → gmap bytes DecryptedRecord → Prop)
    (O : A → ExecutionOutcome → Prop) (B : Shared → Prop) (operation : rt ExecutionOutcome) : Prop :=
  ∀ held permits, VaultMutex ∉ held ∧ CommitGate ∉ held ∧ CancellationsMutex ∉ held → MutationFlag ∉ permits →
  resting held permits p → consistent p →
  triple (λ s, s = p) operation (concluded p held permits deadline update O B e registration)
    (λ err s, err = DispatchInternal ∧ settled p held permits s).

Lemma add_account_concludes p fields e registration deadline : AccountFields_wf fields →
  concludes p e registration deadline
    (λ id m m', ∃ i t, account_input fields = Ok i ∧ u64 t ∧ account_added i t id m m')
    (λ id, responds (encode_account_id id)) (bumped (world p)) (add_account fields e registration deadline).
Proof.
  intros Hf held permits Hheld Hpermits Hr Hc. unfold add_account.
  apply account_handler_rule; [done..|apply bumped_later|].
  pose proof (account_input_rule fields Hf) as Hi. destruct (account_input fields) as [i|err|]; [| |done].
  - apply account_mutation_rule; [done|done|done|done| | |intros; by apply (locked_mutation _ _ _ fst)].
    + intros id m m' key s (i' & t & _ & _ & _ & ->) Hin. apply encode_account_id_ok.
      eapply in_sync_id; [done|apply lookup_insert_eq].
    + intros q key m Hin Hb. eapply updates_weaken; [|by apply add_account_updates; [done|apply should_abort_watches|done|done]].
      intros id m' (t & ? & ?). by exists i, t.
  - apply triple_ret. intros s Hs. by apply concluded_early; [|split|].
Qed.

Lemma update_account_concludes p id fields e registration deadline : AccountFields_wf fields →
  concludes p e registration deadline
    (λ _ m m', ∃ i t, account_input fields = Ok i ∧ u64 t ∧ account_updated i t id m m')
    (λ _ : unit, responds encode_empty_result) (bumped (world p)) (update_account id fields e registration deadline).
Proof.
  intros Hf held permits Hheld Hpermits Hr Hc. unfold update_account.
  apply account_handler_rule; [done..|apply bumped_later|].
  pose proof (account_input_rule fields Hf) as Hi. destruct (account_input fields) as [i|err|]; [| |done].
  - apply (account_mutation_rule _ _ _ _ _ _ Hheld Hpermits Hr Hc _ (λ _, encode_empty_result));
      [intros; apply encode_empty_result_ok| |intros; by apply (locked_mutation _ _ _ (λ _, tt))].
    intros q key m Hin Hb. eapply updates_weaken; [|by apply update_account_updates; [done|apply should_abort_watches|done|done]].
    intros _ m' (t & ? & ?). by exists i, t.
  - apply triple_ret. intros s Hs. by apply concluded_early; [|split|].
Qed.

Lemma delete_account_concludes p id e registration deadline :
  concludes p e registration deadline (λ _, account_deleted id)
    (λ _ : unit, responds encode_empty_result) (bumped (world p)) (delete_account id e registration deadline).
Proof.
  intros held permits Hheld Hpermits Hr Hc. unfold delete_account.
  apply account_handler_rule; [done..|apply bumped_later|].
  apply (account_mutation_rule _ _ _ _ _ _ Hheld Hpermits Hr Hc _ (λ _, encode_empty_result));
    [intros; apply encode_empty_result_ok| |intros; by apply (locked_mutation _ _ _ (λ _, tt))].
  intros q key m Hin Hb. by apply delete_account_updates; [done|apply should_abort_watches|done].
Qed.
End runtime.

(** ** Properties *)

Section properties.
Context `{MinicborLaws, CryptoLaws, UrlLaws}.
Context {W : Type} `{AgentLaws W, !EnvLaws W, !Threads W, !Connections, !ThreadsModel W, !ThreadsLaws W, !StorageLaws W}.


(** C5: the last check before a commit passes only for a request that is in time, and
    then the commit gate is held, and as long as it is, other threads leave the request
    authorised: the epoch is the request's, no lock has begun, and it is not cancelled.
    When it refuses, the gate is free.  It never panics and touches no file. *)
Theorem commit_check_authorises held permits e registration deadline w0 :
  CommitGate ∉ held →
  triple (following w0 (idle held permits)) (commit_check e registration deadline)
    (λ _ w, following w0 (holding ({[CommitGate]} ∪ held) permits (authorised e registration)) w
      ∧ in_time w0 deadline
      ∧ ∀ w', moves w w' → holding ({[CommitGate]} ∪ held) permits (authorised e registration) (shared w'))
    (λ err, following w0 (holding held permits (λ _, err = StorageConflict ∨ err = StorageAborted))).
Proof.
  intros Hg. destruct (commit_check_gates held permits e registration deadline Hg) as (_ & Hst & Hcheck).
  eapply triple_post; [apply Hcheck|]. intros u w [Hw Ht]. split_and!; [apply Hw..|done|].
  intros w' Hm. eapply moves_following; [exact Hst|exact Hm|apply Hw].
Qed.
End properties.

(** ** Examples *)

Module Examples.
Import Rfc8949 Toy VaultCore.Examples VaultRefine.Examples MemoryDisk AgentRefine.Examples.

(** A single thread: the others do nothing, and no time passes. *)
#[export] Instance disk_threads : Threads (Disk Shared) := {|
  shared := dk_memory;
  set_shared s w := {| dk_files := dk_files w; dk_view := dk_view w; dk_calls := dk_calls w; dk_memory := s |};
  others w := w;
  others_agent p := p;
  instant_now w := (0, w);
  instant_checked_add := checked_add 64;
|}.
#[export] Instance connections_stay : Connections := {| quiet := True |}.
#[export] Instance disk_threads_model : ThreadsModel (Disk Shared) := {| clock _ := 0 |}.
#[export] Instance disk_threads_laws : ThreadsLaws (Disk Shared).
Proof.
  split; try done.
  intros w w' Hw. change (dk_memory w' = dk_memory w) in Hw. cbn. by rewrite Hw.
Qed.

Definition started : AgentRuntime :=
  {| rt_state := AgentState_code Unlocked; rt_coordinator := set_epoch 2 Coordinator_new;
     rt_idempotency := IdempotencyState_new; rt_browser_leases := ∅; rt_accounts_generation := 0;
     rt_pending_passkey_creations := ∅; rt_windows_hello_active := false |}.
Definition memory : Shared :=
  {| sh_runtime := started; sh_flags := [false]; sh_owned := ∅; sh_authenticated_ownership := None; sh_poisoned := ∅; sh_held := ∅; sh_permits := ∅ |}.
Definition running : Process (Disk Shared) := unlocked_agent_with memory.
Definition request : RequestRegistration :=
  {| rr_key := {| rk_connection_id := zeros 16; rk_request_id := 1 |}; rr_cancellation := 0 |}.
Definition fields : AccountFields :=
  {| af_service_name := str "Example"; af_permitted_origin := str "https://example.com";
     af_username := str "person"; af_password := str "disposable" |}.
Lemma fields_wf : AccountFields_wf fields.
Proof. by split. Qed.
Lemma running_resting : resting ∅ ∅ running.
Proof. by split_and!. Qed.
Lemma running_consistent : consistent running.
Proof. right. exists key, ∅. apply unlocked_in_sync. Qed.
Lemma no_guards : VaultMutex ∉ (∅ : gset MutexName) ∧ CommitGate ∉ (∅ : gset MutexName)
  ∧ CancellationsMutex ∉ (∅ : gset MutexName).
Proof. set_solver. Qed.

Definition add_run := add_account fields 2 request 100 running.
Lemma add_succeeds : (eo_error <$> match add_run.1 with Ok o => Some o | _ => None end) = Some None.
Proof. vm_compute. reflexivity. Qed.


Lemma commit_check_authorises_witness :
  let w := (commit_check 2 request 100 (world running)).2 in
  holding ({[CommitGate]} ∪ ∅) ∅ (authorised 2 request) (shared w).
Proof.
  pose proof (commit_check_authorises ∅ ∅ 2 request 100 (world running) (proj1 (proj2 no_guards)) (world running)
    (following_refl _ _ running_resting)) as Hrun.
  assert (is_ok (commit_check 2 request 100 (world running)).1 = true) as Hok by (vm_compute; reflexivity).
  cbv zeta. destruct (commit_check 2 request 100 (world running)) as [[u|err|] w]; [|discriminate Hok..].
  apply (proj2 (proj2 Hrun)). reflexivity.
Defined.
End Examples.
