(* ===== verification/ReadRefine.v ===== *)
(** * What the runtime discloses

    Reads of the vault, and filling a login, give only data of the map that session
    and file agree on, to a request that was in time and not revoked when it began;
    and they change neither. *)

From S2P Require Import Prelude RustStd Cbor Wire Types Message Session Operations Browser VaultFormat VaultRecords VaultKeys VaultStore VaultCore VaultRefine Storage Agent AgentRefine Outcome Idempotency Ownership Threads Runtime Fill Passkeys Rely RuntimeRefine.

Section runtime.
Context `{MinicborLaws, CryptoLaws, UrlLaws}.
Context {W : Type} `{AgentLaws W, !EnvLaws W, !Threads W, !Connections, !ThreadsModel W, !ThreadsLaws W, !StorageLaws W}.
Abbreviation rt A := (ag (W:=W) DispatchError A).

Section reading.
Context {A : Type} (p : Process W) (held : gset MutexName) (permits : gset FlagName).
Context (e : Z) (registration : RequestRegistration) (deadline : Z).
Context (answer : gmap bytes DecryptedRecord → A → Prop) (O : A → ExecutionOutcome → Shared → Prop).
Context (HO : ∀ a o f x, O a o x → O a o (set_held f x)).
#[local] Abbreviation inside := ({[VaultMutex]} ∪ held).

(** An answer about the map that session and file agree on, now as then. *)
Definition disclosed (o : ExecutionOutcome) (s : Process W) : Prop :=
  ∃ q key m a, others_had p q ∧ in_sync q key m ∧ in_sync s key m ∧ answer m a ∧ O a o (shared (world s))
    ∧ timely deadline e registration (world p).
Definition withheld (o : ExecutionOutcome) (s : Process W) : Prop :=
  declined o ∧ ∃ q, (q = p ∨ others_had p q) ∧ files_kept (world q) (world s).
Definition answered (o : ExecutionOutcome) (s : Process W) : Prop :=
  settled p held permits s ∧ (disclosed o s ∨ withheld o s).
Definition undisturbed (err : DispatchError) (s : Process W) : Prop :=
  err = DispatchInternal ∧ settled p held permits s.

Lemma answered_early o s : consistent p → declined o → hosting p (idle held permits) s → answered o s.
Proof.
  intros Hc Hd Hs. pose proof (hosting_same_vault _ _ _ Hs) as [Ha Hk]. destruct Hs as (_ & _ & ? & ?). split.
  - split_and!; [done|by eapply consistent_same_vault|done].
  - right. split; [done|]. exists p. split; [by left|done].
Qed.

#[local] Abbreviation free := (on_world (drop_guard VaultMutex)).
Lemma free_same s : same_vault s (free s) ∧ passes (world s) (world (free s)).
Proof.
  unfold on_world, drop_guard. split.
  - split; [done|]. intros path. cbn. by apply set_shared_files.
  - split; cbn; [by rewrite set_shared_clock|rewrite shared_set; by split].
Qed.
Lemma free_resting held' s : held' ∖ {[VaultMutex]} = held → resting held' permits s → resting held permits (free s).
Proof.
  intros Hh Hr%(idle_drop _ _ VaultMutex). rewrite Hh in Hr. unfold resting, on_world, drop_guard. cbn. by rewrite shared_set.
Qed.

Context (Hv : VaultMutex ∉ held).

Lemma freed_settled q held' F s :
  consistent p → others_had p q → passes (world p) (world q) → held' ∖ {[VaultMutex]} = held → (∀ x, F x → idle held' permits x) →
  shaken q F s → settled p held permits (free s).
Proof.
  intros Hp Hq Ht Hh HF Hs. pose proof Hs as ((_ & Ht' & Hi) & _). destruct (free_same s) as [Hsame Hps]. split_and!.
  - eapply free_resting; [done|]. by apply HF.
  - eapply consistent_same_vault; [done|]. eapply shaken_consistent; [done|by eapply others_had_consistent].
  - passing.
Qed.
Lemma freed_withheld q held' o s :
  consistent p → others_had p q → passes (world p) (world q) → held' ∖ {[VaultMutex]} = held → declined o →
  shaken q (idle held' permits) s → answered o (free s).
Proof.
  intros Hp Hq Ht Hh Hd Hs. split; [by apply (freed_settled q held' (idle held' permits))|right]. split; [done|]. exists q. split; [by right|].
  destruct Hs as (((_ & ?) & _) & _). etrans; [done|]. apply free_same.
Qed.

Context (Hfree : CommitGate ∉ held ∧ CancellationsMutex ∉ held).
Context (read : ag (W:=W) AccountError A) (present : A → rt ExecutionOutcome).
Context (Hread : ∀ q key m, in_sync q key m → informs q read (answer m)).
Context (Hlocked : ∀ q, locked (agent q) → read q = (Err AccountLocked, q)).
Context (Hpresent : ∀ m a s0, answer m a → passes (world p) (world s0) →
  triple (hosting s0 (idle inside permits)) (present a)
    (λ o s, (O a o (shared (world s)) ∨ declined o) ∧ hosting s0 (idle inside permits) s)
    (λ err s, err = DispatchInternal ∧ hosting s0 (idle inside permits) s)).
Context (Hp : consistent p).

Lemma at_rest_after q s : at_rest q s → resting inside permits q →
  same_vault q s ∧ resting inside permits s ∧ passes (world q) (world s).
Proof.
  intros [Ha [Hm Hf]] Hr. destruct (moves_following _ _ _ (stable_idle inside permits) Hm Hr). by split_and!.
Qed.

(** What the read itself leaves. *)
Definition has_read (q : Process W) (r : result AccountError A) (s : Process W) : Prop :=
  match r with
  | Ok a => at_rest q s ∧ ∃ key m, in_sync q key m ∧ answer m a
  | Err error => AgentRefine.failed q error s ∨ at_rest q s ∧ error ≠ AccountFailed
  | Panic => False
  end.
Lemma read_leaves q : consistent q → has_read q (read q).1 (read q).2.
Proof.
  intros [Hl|(key & m & Hin)].
  - rewrite Hlocked by done. right. split; [|done]. by split.
  - pose proof (Hread q key m Hin q eq_refl) as Hr. destruct (read q) as [[a|error|] s]; [|done|done].
    destruct Hr as [? ?]. split; [done|]. by exists key, m.
Qed.

Lemma read_after_core_rule q :
  others_had p q → resting inside permits q → passes (world p) (world q) →
  triple (λ s, s = q) (read_after_core e registration deadline read present)
    (λ o s, answered o (free s)) (λ err s, undisturbed err (free s)).
Proof.
  intros Hq Hr Ht. destruct Hfree as [Hg Hc].
  assert (inside ∖ {[VaultMutex]} = held ∧ held ∖ {[VaultMutex]} = held) as [Hin Hout] by set_solver.
  assert (consistent q) as Hcq by (by eapply others_had_consistent).
  unfold read_after_core. eapply (triple_bind _ _ _ (has_read q)).
  { intros s ->. unfold attempt. pose proof (read_leaves q Hcq) as Hl. by destruct (read q) as [[a|error|] s]. }
  intros r. apply triple_pre. intros s0 Hs0.
  assert (∀ s, same_vault q s → others_had p s) as Hhad.
  { intros s [Ha Hf]. destruct Hq as (p1 & ? & [Ha1 Hf1]). exists p1. split; [done|]. split; [congruence|by etrans]. }
  destruct r as [a|error|]; [|destruct Hs0 as [[-> (Hl & _ & [Hm Hf])]|[Hs0 Hne]]|done].
  - destruct Hs0 as [Hs0 (key & m & Hsync & Ha)]. destruct (at_rest_after q s0 Hs0 Hr) as (Hsame & Hr0 & Ht0).
    apply (triple_from (hosting s0 (idle inside permits))); [by intros ? ->; apply hosting_refl|].
    assert (passes (world p) (world s0)) as Htp by passing.
    eapply (unless_rule _ (λ s, timely deadline e registration (world s0) ∧ hosting s0 (idle inside permits) s)).
    { eapply triple_post; [apply post_secret_operation_rule|]. intros [o|] s; [|done]. intros [Ho%refusal_declined Hs].
      by apply (freed_withheld s0 inside); [|apply Hhad|..]. }
    apply triple_pre. intros s1 [Hti Hs1].
    eapply triple_weaken; [by apply (Hpresent m a s0)|by intros ? ->|..].
    + intros o s [[Hoo|Hd] Hs].
      * split; [by apply (freed_settled s0 inside (idle inside permits)); [|apply Hhad|..|apply hosting_shaken]|left].
        assert (in_sync (free s) key m) as Hsync'.
        { destruct (free_same s) as [[Hag Hfi] _], (hosting_same_vault _ _ _ Hs) as [Hag' Hfi'], Hsame as [Hag'' Hfi''].
          eapply in_sync_kept; [exact Hag|exact Hfi|]. eapply in_sync_kept; [exact Hag'|exact Hfi'|].
          by eapply in_sync_kept. }
        exists q, key, m, a. split_and!; try done; [|by eapply timely_earlier].
        unfold on_world, drop_guard. cbn. rewrite shared_set. by apply HO.
      * by apply (freed_withheld s0 inside); [|apply Hhad|..|apply hosting_shaken].
    + intros err s [-> Hs]. split; [done|]. by apply (freed_settled s0 inside (idle inside permits)); [|apply Hhad|..|apply hosting_shaken].
  - unfold authenticated_read_error_after_core. rewrite bool_decide_true by done.
    destruct (moves_following _ _ _ (stable_idle inside permits) Hm Hr) as [Hr0 Ht0].
    assert (∀ s, locked (agent s) → following (world s0) (idle held permits) (world s) →
      settled p held permits (free s) ∧ files_kept (world q) (world (free s))) as Hend.
    { intros s Hls ((_ & Hfs) & Hts & Hi). destruct (free_same s) as [Hsame Hps]. split; [split_and!|].
      - by eapply free_resting.
      - eapply consistent_same_vault; [done|by left].
      - passing.
      - etrans; [done|]. etrans; [done|]. apply Hsame. }
    eapply triple_weaken; [by apply (account_failed_rule s0 held permits)|by intros ? ->; apply hosting_refl|..].
    + intros o s (-> & Hls & Hfo). destruct (Hend s Hls Hfo). split; [done|right]. split; [by split|]. exists q. by split; [right|].
    + intros err s (-> & Hls & Hfo). split; [done|]. by apply Hend.
  - destruct (at_rest_after q s0 Hs0 Hr) as (Hsame & Hr0 & Ht0).
    assert (passes (world p) (world s0)) as Htp by passing.
    apply (triple_from (hosting s0 (idle inside permits))); [by intros ? ->; apply hosting_refl|].
    assert (∀ o s, declined o → shaken s0 (idle inside permits) s → answered o (free s)) as Hdecl
      by (intros; by apply (freed_withheld s0 inside); [|apply Hhad|..]).
    assert (∀ rest, (∀ s, hosting s0 (idle inside permits) s → answered rest (free s)) →
      triple (hosting s0 (idle inside permits)) (unless (post_secret_operation e registration deadline) (mret rest))
        (λ o s, answered o (free s)) (λ err s, undisturbed err (free s))) as Hrest.
    { intros rest Hrest. eapply unless_rule; [eapply triple_post; [apply post_secret_operation_rule|]|by apply triple_ret].
      intros [o|] s; [intros [Ho%refusal_declined Hs]; by apply Hdecl|by intros [_ Hs]]. }
    assert (∀ err, err ≠ AccountFailed → triple (hosting s0 (idle inside permits))
      (authenticated_read_error_after_core e registration deadline err)
      (λ o s, answered o (free s)) (λ err s, undisturbed err (free s))) as Herr.
    { intros err Hne'. unfold authenticated_read_error_after_core. rewrite bool_decide_false by done.
      apply Hrest. intros s Hs. apply Hdecl; [apply account_error_declined|by apply hosting_shaken]. }
    destruct error; try (by apply Herr).
    eapply triple_weaken; [apply abort_after_core_rule|done|..].
    + intros o s [Ho%refusal_declined Hs]. by apply Hdecl.
    + intros err s [-> Hs]. split; [done|]. by apply (freed_settled s0 inside (idle inside permits)); [|apply Hhad|..].
Qed.

Lemma read_vault_rule :
  triple (hosting p (idle held permits)) (read_vault e registration deadline read present) answered undisturbed.
Proof.
  assert (inside ∖ {[VaultMutex]} = held) as Hin by set_solver.
  unfold read_vault. apply with_vault_rule; [done| |].
  2: { intros q Hq Hr Ht. split; [done|]. split_and!; [done|by eapply others_had_consistent|done]. }
  intros q Hq Hr Ht. apply (triple_from (hosting q (idle inside permits))); [by intros ? ->; apply hosting_refl|].
  eapply unless_rule.
  { eapply triple_post; [apply pre_check_rule|]. intros [o|] s [Hs Ho]; [|exact (conj Hs Ho)].
    by apply (freed_withheld q inside); [..|apply refusal_declined|apply hosting_shaken]. }
  apply triple_pre. intros s1 [Hs1 _]. pose proof (hosting_same_vault _ _ _ Hs1) as [Ha Hf].
  destruct Hs1 as (_ & _ & Ht1 & Hi1). apply read_after_core_rule; [|done|passing].
  destruct Hq as (p1 & ? & [Ha1 Hf1]). exists p1. split; [done|]. split; [congruence|by etrans].
Qed.
End reading.
End runtime.

(** ** The responses of reads *)

Section accounts.
Context `{MinicborLaws, CryptoLaws, UrlLaws}.
Context {W : Type} `{AgentLaws W, !EnvLaws W, !Threads W, !Connections, !ThreadsModel W, !ThreadsLaws W, !StorageLaws W}.

Lemma in_sync_wf (s : Process W) key m i d :
  in_sync s key m → m !! i = Some d → record_wf d ∧ record_id_of d = i ∧ length i = 16%nat.
Proof. intros (path & v & hdr & man & rows & _ & _ & Hrep) Hd. by eapply represents_wf. Qed.

Lemma account_view_typed a :
  WebsiteAccountPlaintext_wf (account_plaintext a) → length (ac_id a) = 16%nat → AccountView_typed (account_view a).
Proof.
  intros [[? ?] [? ?] (? & ? & ? & ?) (? & ? & ? & ?) [? ?] [? ?]] Hid. simpl in *.
  pose proof (len_nonneg (ac_service_name a)). pose proof (len_nonneg (ac_permitted_origin a)).
  pose proof (len_nonneg (ac_username a)). pose proof (len_nonneg (ac_password a)).
  split; simpl; try done; try (unfold uint in *; lia);
    (split; [autounfold with limits in *; unfold uint; lia|done]).
Qed.

Lemma in_sync_account (s : Process W) key m a :
  in_sync s key m → a ∈ accounts_of m → m !! ac_id a = Some (DecryptedWebsiteAccount a).
Proof.
  intros (path & v & hdr & man & rows & _ & _ & Hrep) Ha. pose proof Hrep as [Hv _ _ (ds & Hr & Hm)].
  rewrite Hm, <-(accounts_of_contents v rows) in Ha by done.
  apply list_elem_of_omap in Ha as ([b|?] & Hb & [= ->]).
  rewrite Hm. apply contents_lookup; [by eapply rows_NoDup|done].
Qed.
Lemma in_sync_accounts (s : Process W) key m :
  in_sync s key m → len (accounts_of m) ≤ MAX_RECORDS ∧ Forall AccountView_typed (account_view <$> accounts_of m).
Proof.
  intros Hin. pose proof Hin as (path & v & hdr & man & rows & _ & _ & Hrep).
  pose proof Hrep as [Hv _ _ (ds & Hr & Hm)]. split.
  - rewrite Hm, <-(accounts_of_contents v rows) by done. pose proof (rh_count _ _ _ Hr).
    pose proof (Forall2_length _ _ _ (rh_decrypt _ _ _ Hr)) as Hl. unfold len in *.
    assert (length (omap as_account ds) ≤ length ds)%nat; [|lia].
    clear. induction ds as [|d ds IH]; [done|]. cbn. destruct (as_account d); cbn; lia.
  - apply Forall_fmap, Forall_forall. intros a Ha%(in_sync_account s key); [|done].
    destruct (in_sync_wf _ _ _ _ _ Hin Ha) as ([? _] & _ & ?). by apply account_view_typed.
Qed.

(** The passkeys that are listed are well formed. *)
Lemma in_sync_passkeys (s : Process W) key m (P : PasskeyRecord → Prop) `{∀ q, Decision (P q)} :
  in_sync s key m → Forall (λ q, length (sm_credential_id q) = PASSKEY_CREDENTIAL_ID_BYTES ∧ text (sm_rp_id q)
    ∧ text (sm_user_name q) ∧ text (sm_user_display_name q)) (summary_of <$> filter P (ordered_passkeys m)).
Proof.
  intros Hin. pose proof Hin as (path & v & hdr & man & rows & _ & _ & Hrep).
  pose proof Hrep as [_ _ _ (ds & Hr & Hm)]. apply Forall_fmap, Forall_forall. intros q [_ Hq]%list_elem_of_filter.
  rewrite Hm, (ordered_passkeys_contents v rows) in Hq by done. apply (contents_passkey _ _ _ _ Hr) in Hq.
  rewrite <-Hm in Hq. destruct (in_sync_wf _ _ _ _ _ Hin Hq) as (((mo & [_ _ _ (? & _) _ (? & _) (? & _) (? & _) _]) & _) & _).
  by split_and!.
Qed.

(** A response whose body encodes what was read; reading leaves the state alone. *)
Lemma present_rule {A} (p : Process W) F (enc : result ProtocolError bytes) (O : A → ExecutionOutcome → Shared → Prop) (a : A) :
  enc ≠ Panic → (∀ body x, enc = Ok body → O a (success body) x) →
  triple (hosting p F) (body ← encoded enc; mret (success body))
    (λ o s, (O a o (shared (world s)) ∨ declined o) ∧ hosting p F s)
    (λ err s, err = DispatchInternal ∧ hosting p F s).
Proof.
  intros He HO. eapply triple_post; [by apply encoded_rule|]. intros o s [(body & Hb & ->) Hs].
  split; [|done]. left. by apply HO.
Qed.

(** An operation that reads: called with none of the guards it takes, it answers with
    data of the map, or withholds, and leaves everything as it was. *)
Definition reads_only (p : Process W) (e : Z) (registration : RequestRegistration) (deadline : Z) {A : Type}
    (answer : gmap bytes DecryptedRecord → A → Prop) (O : A → ExecutionOutcome → Shared → Prop)
    (operation : ag (W:=W) DispatchError ExecutionOutcome) : Prop :=
  ∀ held permits, VaultMutex ∉ held ∧ CommitGate ∉ held ∧ CancellationsMutex ∉ held →
  resting held permits p → consistent p →
  triple (λ s, s = p) operation (answered p held permits e registration deadline answer O) (undisturbed p held permits).

Section handler.
Context (p : Process W) (e : Z) (registration : RequestRegistration) (deadline : Z) {A : Type}.
Context (answer : gmap bytes DecryptedRecord → A → Prop) (O : A → ExecutionOutcome → Shared → Prop).
Context (read : ag (W:=W) AccountError A) (present : A → ag (W:=W) DispatchError ExecutionOutcome).
Context (HO : ∀ a o f x, O a o x → O a o (set_held f x)).
Context (Hread : ∀ q key m, in_sync q key m → informs q read (answer m)).
Context (Hlocked : ∀ q, locked (agent q) → read q = (Err AccountLocked, q)).
Context (Hpresent : ∀ q key m a s0 F, in_sync q key m → answer m a → triple (hosting s0 F) (present a)
    (λ o s, (O a o (shared (world s)) ∨ declined o) ∧ hosting s0 F s)
    (λ err s, err = DispatchInternal ∧ hosting s0 F s)).

Lemma read_vault_answers held permits :
  VaultMutex ∉ held ∧ CommitGate ∉ held ∧ CancellationsMutex ∉ held → consistent p →
  triple (hosting p (idle held permits)) (read_vault e registration deadline read present)
    (answered p held permits e registration deadline answer O) (undisturbed p held permits).
Proof.
  intros (Hv & Hg & Hc) Hp.
  eapply triple_weaken; [apply (read_vault_rule p held permits e registration deadline
    (λ m a, answer m a ∧ ∃ q key, in_sync q key m) O)|done|..]; try done.
  - intros q key m Hin s Hs. specialize (Hread q key m Hin s Hs). destruct (read s) as [[a|err|] s']; [|done|done].
    destruct Hread as [? ?]. split; [done|]. split; [done|]. by exists q, key.
  - intros m a s0 [Ha (q & key & Hin)] _. by eapply Hpresent.
  - intros o s [Hs [(q & key & m & a & ? & ? & ? & [? _] & ? & ?)|?]]; (split; [done|]); [left|by right].
    by exists q, key, m, a.
Qed.

Lemma read_handler_rule :
  reads_only p e registration deadline answer O
    (unless (pre_check e registration deadline) (read_vault e registration deadline read present)).
Proof.
  intros held permits Hh Hr Hp.
  apply (triple_from (hosting p (idle held permits))); [by intros ? ->; apply hosting_refl|].
  eapply (unless_rule _ (hosting p (idle held permits))); [|by apply read_vault_answers].
  eapply triple_post; [apply pre_check_rule|]. intros [o|] s [Hs Ho]; [|done].
  by apply answered_early; [|apply refusal_declined|].
Qed.
End handler.

Lemma get_account_reads (p : Process W) id (e : Z) (registration : RequestRegistration) (deadline : Z) :
  reads_only p e registration deadline (λ m a, m !! id = Some (DecryptedWebsiteAccount a))
    (λ a o _, responds (encode_account (account_view a)) o) (get_account id e registration deadline).
Proof.
  apply read_handler_rule; [done|..].
  - intros q key m Hin. apply (reads_inform q key m _ Hin), should_abort_watches.
  - intros q Hq. by apply locked_refuses.
  - intros q key m a s0 F Hin Ha.
    apply (present_rule s0 F _ (λ a o _, responds (encode_account (account_view a)) o)).
    + destruct (in_sync_wf _ _ _ _ _ Hin Ha) as ([? _] & <- & ?).
      rewrite encode_account_spec by (by apply account_view_typed). by case_decide.
    + intros body x Hb. by exists body.
Qed.

(** The page of accounts that is read for an offset and a limit. *)
Definition account_page (offset limit : Z) (m : gmap bytes DecryptedRecord) : list WebsiteAccount * bool :=
  (take (Z.to_nat limit) (drop (Z.to_nat offset) (accounts_of m)), bool_decide (offset + limit < len (accounts_of m))).

Lemma list_accounts_reads (p : Process W) offset limit (e : Z) (registration : RequestRegistration) (deadline : Z) :
  u32 offset → 1 ≤ limit ≤ MAX_WEBSITE_ACCOUNT_PAGE_SIZE →
  reads_only p e registration deadline (λ m r, r = account_page offset limit m)
    (λ r o _, encode_summary_page (account_view <$> r.1) offset r.2 = Ok o) (list_accounts offset limit e registration deadline).
Proof.
  intros Ho Hl. unfold list_accounts. rewrite try_from_uint by (unfold uint in *; lia).
  apply (read_handler_rule p e registration deadline (λ m r, r = account_page offset limit m)); [done|..].
  - intros q key m Hin. apply (reads_inform q key m _ Hin); [apply should_abort_watches|unfold uint in *; lia|done|].
    autounfold with limits in *. unfold MAX_WEBSITE_ACCOUNT_PAGE_SIZE, uint in *. lia.
  - intros q Hq. by apply locked_refuses.
  - intros q key m r s0 F Hin ->. destruct (in_sync_accounts _ _ _ Hin) as [Hn Ht].
    set (l := accounts_of m) in *. unfold account_page. cbn [fst snd].
    set (page := take (Z.to_nat limit) (drop (Z.to_nat offset) l)).
    assert (Forall AccountView_typed (account_view <$> page)) as Htp.
    { subst page. rewrite fmap_take, fmap_drop. by apply Forall_take, Forall_drop. }
    assert (offset + len (account_view <$> page) < 2 ^ 32) as Hpage.
    { unfold len in *. subst page. rewrite length_fmap, length_take, length_drop. autounfold with limits in *.
      unfold MAX_RECORDS, uint in *. lia. }
    pose proof (encode_page_ends (account_view <$> page) offset (bool_decide (offset + limit < len l)) Htp Ho Hpage) as Hend.
    subst page l. apply triple_of_result; [by destruct (encode_summary_page _ _ _)|..].
    + intros o s Hr Hs. split; [by left|done].
    + intros err s Hr _. cbv zeta in Hr. by rewrite Hr in Hend.
Qed.

Lemma list_passkeys_reads (p : Process W) (e : Z) (registration : RequestRegistration) (deadline : Z) :
  reads_only p e registration deadline
    (λ m r, r = merge_sort summary_le (summary_of <$> filter (λ q, ps_creation_state q ≠ Pending) (ordered_passkeys m)))
    (λ r o _, responds (encode_passkey_management_summaries (management_view <$> r)) o)
    (list_passkeys e registration deadline).
Proof.
  apply read_handler_rule; [done|..].
  - intros q key m Hin. apply (reads_inform q key m _ Hin), should_abort_watches.
  - intros q Hq. by apply locked_refuses.
  - intros q key m r s0 F Hin ->.
    apply (present_rule s0 F _ (λ r o _, responds (encode_passkey_management_summaries (management_view <$> r)) o)).
    + match goal with |- encode_passkey_management_summaries ?l ≠ _ => set (views := l) end.
      assert (Forall PasskeyManagementSummaryView_typed views) as Ht.
      { subst views. apply Forall_fmap. rewrite merge_sort_Permutation.
        eapply Forall_impl; [by apply (in_sync_passkeys q key m)|]. intros sm (? & ? & ? & ?). by split. }
      destruct (passkey_lists_exact [] views ltac:(constructor) Ht) as [_ ->]. by repeat case_match.
    + intros body x Hb. by exists body.
Qed.
End accounts.

(** ** Properties *)

Section properties.
Context `{MinicborLaws, CryptoLaws, UrlLaws}.
Context {W : Type} `{AgentLaws W, !EnvLaws W, !Threads W, !Connections, !ThreadsModel W, !ThreadsLaws W, !StorageLaws W}.

(** C6: whatever the other threads do, a request to read an account, a page of accounts
    or the list of passkeys answers with that account, page or list of the map that
    session and file agreed on when the vault was taken, and still do; and then the
    request was neither late nor revoked when it began.  Or the response is an error
    without data.  Nothing is written, there is no panic and no lock is taken twice;
    guards and permits are given back; the agent is locked or agrees with the file. *)
Theorem reads_disclose (p : Process W) (e : Z) (registration : RequestRegistration) (deadline : Z) :
  (∀ id, reads_only p e registration deadline (λ m a, m !! id = Some (DecryptedWebsiteAccount a))
    (λ a o _, responds (encode_account (account_view a)) o) (get_account id e registration deadline))
  ∧ (∀ offset limit, u32 offset → 1 ≤ limit ≤ MAX_WEBSITE_ACCOUNT_PAGE_SIZE →
    reads_only p e registration deadline (λ m r, r = account_page offset limit m)
      (λ r o _, encode_summary_page (account_view <$> r.1) offset r.2 = Ok o)
      (list_accounts offset limit e registration deadline))
  ∧ reads_only p e registration deadline
    (λ m r, r = merge_sort summary_le (summary_of <$> filter (λ q, ps_creation_state q ≠ Pending) (ordered_passkeys m)))
    (λ r o _, responds (encode_passkey_management_summaries (management_view <$> r)) o)
    (list_passkeys e registration deadline).
Proof.
  split_and!; intros; [apply get_account_reads|by apply list_accounts_reads|apply list_passkeys_reads].
Qed.
End properties.

Module Examples.
Import Rfc8949 Toy VaultCore.Examples VaultRefine.Examples MemoryDisk AgentRefine.Examples RuntimeRefine.Examples.

Definition list_run := list_accounts 0 10 2 request 100 running.
Lemma list_succeeds : (eo_error <$> match list_run.1 with Ok o => Some o | _ => None end) = Some None.
Proof. vm_compute. reflexivity. Qed.

(** The example's vault is listed: the response is the page of its map. *)
Lemma reads_disclose_witness :
  ∃ (q : Process (Disk Shared)) key m o, in_sync q key m
    ∧ encode_summary_page (account_view <$> (account_page 0 10 m).1) 0 (account_page 0 10 m).2 = Ok o.
Proof.
  pose proof (proj1 (proj2 (reads_disclose running 2 request 100)) 0 10 ltac:(done) ltac:(done) ∅ ∅ no_guards
    running_resting running_consistent running eq_refl) as Hrun.
  pose proof list_succeeds as Hok. unfold list_run in *.
  destruct (list_accounts 0 10 2 request 100 running) as [[o|err|] s]; [|discriminate Hok..].
  destruct Hrun as [_ [(q & k & m & r & _ & Hq & _ & -> & Ho & _)|[[He _] _]]].
  - by exists q, k, m, o.
  - exfalso. injection Hok as Hnone. rewrite Hnone in He. by destruct He.
Defined.
End Examples.
