(* ===== verification/FillRefine.v ===== *)
(** * What is filled into a page

    A lease admits one use of the account that was selected for its page.  A fill gives
    the account of the page's origin, if there is exactly one, or a selection of it;
    otherwise no data. *)

From S2P Require Import Prelude RustStd Cbor Wire Types Message Session Operations Browser VaultFormat VaultRecords VaultKeys VaultStore VaultCore VaultRefine Storage Agent AgentRefine Outcome Idempotency Ownership Threads Runtime Fill Passkeys Unlocking Dispatch Rely RuntimeRefine ReadRefine.

Section fill.
Context `{MinicborLaws, CryptoLaws, UrlLaws}.
Context {W : Type} `{AgentLaws W, !EnvLaws W, !Threads W, !Connections, !ThreadsModel W, !ThreadsLaws W, !StorageLaws W}.
Abbreviation rt A := (ag (W:=W) DispatchError A).

(** The leases of all connections. *)
Definition leases (x : Shared) : gmap bytes (option BrowserLease) := rt_browser_leases (sh_runtime x).

(** How a claim of [connection_id] answers, given the leases it finds; and what it
    leaves. *)
Definition claimed (context : BrowserContext) (selection : option BrowserSelection) (e : Z) (connection_id : bytes)
    (m : gmap bytes (option BrowserLease)) : BrowserLeaseAdmission * gmap bytes (option BrowserLease) :=
  match selection, m !! connection_id with
  | Some selection, Some (Some lease) =>
      (if decide (bl_context lease = context ∧ bl_selection lease = selection ∧ bl_epoch lease = e)
       then LeaseReady (Some lease) else LeaseRejected invalid, <[connection_id := None]> m)
  | Some _, _ => (LeaseRejected invalid, m)
  | None, Some _ => (LeaseRejected invalid, m)
  | None, None =>
      if decide (MAX_CONNECTIONS ≤ Z.of_nat (size m)) then (LeaseRejected busy, m)
      else (LeaseReady None, <[connection_id := None]> m)
  end.

(** ** Claiming a lease *)

(** The mutex can be taken: it is not poisoned, and this thread does not hold it. *)
Definition takable (m : MutexName) (x : Shared) : Prop := m ∉ sh_held x ∧ m ∉ sh_poisoned x.

Lemma with_mutex_takes {A} m (f : Shared → result DispatchError A * Shared) w :
  takable m (shared (others w)) →
  let '(r, x) := f (set_held (λ held, {[m]} ∪ held) (shared (others w))) in
  let '(r', w') := with_mutex m f w in r' = r ∧ shared w' = set_held (λ held, held ∖ {[m]}) x.
Proof.
  intros [Hh Hp]. unfold with_mutex, acquire, mbind, stm_bind. rewrite decide_False, decide_False by done.
  cbn. rewrite !shared_set. destruct (f _) as [r x]. unfold drop_guard. by rewrite !shared_set.
Qed.

(** The call is one use of the table. *)
Ltac mutex_use :=
  match goal with Ht : takable ?m (shared (others ?w)) |- context [with_mutex ?m ?f ?w] =>
    pose proof (with_mutex_takes m f w Ht) as Hc; destruct (with_mutex m f w) as [r w'];
    cbv beta zeta in Hc; cbn [sh_runtime set_held] in Hc; fold (leases (shared (others w))) in Hc;
    cbn beta iota; unfold mret, stm_ret; cbn beta iota
  end.

Lemma claim_takes context selection e connection_id w :
  takable BrowserLeasesMutex (shared (others w)) →
  let '(r, w') := claim_browser_lease context selection e connection_id w in
  r = Ok (claimed context selection e connection_id (leases (shared (others w)))).1
  ∧ leases (shared w') = (claimed context selection e connection_id (leases (shared (others w)))).2.
Proof.
  intros Ht. unfold claim_browser_lease, claimed. destruct selection as [selection|].
  - unfold take_lease, mbind, stm_bind. mutex_use. destruct (leases (shared (others w)) !! connection_id) as [[lease|]|];
      destruct Hc as [-> Hw]; cbn beta iota; unfold leases; rewrite Hw; [|done..]. split; [|done]. f_equal. cbn [fst].
    destruct (BrowserContext_matches (bl_context lease) context) eqn:Hc;
      [apply BrowserContext_matches_spec in Hc|rewrite decide_False; [done|by intros (?%BrowserContext_matches_spec & _); congruence]].
    destruct (BrowserSelection_matches (bl_selection lease) selection) eqn:Hs;
      [apply BrowserSelection_matches_spec in Hs|rewrite decide_False; [done|by intros (_ & ?%BrowserSelection_matches_spec & _); congruence]].
    cbn. destruct (Z.eqb_spec (bl_epoch lease) e); [by rewrite decide_True|rewrite decide_False; [done|tauto]].
  - mutex_use. destruct (leases (shared (others w)) !! connection_id).
    + destruct Hc as [-> Hw]. unfold leases. by rewrite Hw.
    + destruct (Z.leb_spec MAX_CONNECTIONS (Z.of_nat (size (leases (shared (others w))))));
        [rewrite decide_True by done|rewrite decide_False by lia]; destruct Hc as [-> Hw]; unfold leases; by rewrite Hw.
Qed.

(** ** The life of a lease *)

(** The calls that use the table, by whatever thread they are made. *)
Inductive LeaseCall :=
  | Claim (context : BrowserContext) (selection : option BrowserSelection) (e : Z) (connection_id : bytes)
  | Keep (connection_id : bytes) (lease : BrowserLease)
  | Revoke (connection_id : bytes)
  | Forget (connection_id : bytes).
Inductive LeaseAnswer := Admission (a : BrowserLeaseAdmission) | Kept (kept : bool) | Done.

Definition perform (c : LeaseCall) : stm W DispatchError LeaseAnswer :=
  match c with
  | Claim context selection e connection_id => a ← claim_browser_lease context selection e connection_id; mret (Admission a)
  | Keep connection_id lease => kept ← store_lease connection_id lease; mret (Kept kept)
  | Revoke connection_id => revoke_lease connection_id;; mret Done
  | Forget connection_id => remove_lease connection_id;; mret Done
  end.

(** What a call answers and leaves of the table that it finds. *)
Definition performed (c : LeaseCall) (m : gmap bytes (option BrowserLease)) : LeaseAnswer * gmap bytes (option BrowserLease) :=
  match c with
  | Claim context selection e connection_id =>
      let '(a, m) := claimed context selection e connection_id m in (Admission a, m)
  | Keep connection_id lease =>
      if decide (is_Some (m !! connection_id)) then (Kept true, <[connection_id := Some lease]> m) else (Kept false, m)
  | Revoke connection_id => (Done, alter (λ _, None) connection_id m)
  | Forget connection_id => (Done, delete connection_id m)
  end.

Lemma perform_takes c w :
  takable BrowserLeasesMutex (shared (others w)) →
  let '(r, w') := perform c w in
  r = Ok (performed c (leases (shared (others w)))).1 ∧ leases (shared w') = (performed c (leases (shared (others w)))).2.
Proof.
  intros Ht. destruct c as [context selection e id|id lease|id|id]; unfold perform, performed, mbind, stm_bind.
  - pose proof (claim_takes context selection e id w Ht) as Hc. destruct (claim_browser_lease _ _ _ _ w) as [r w'].
    destruct (claimed _ _ _ _ _) as [a m]. by destruct Hc as [-> ?].
  - unfold store_lease. mutex_use.
    destruct (leases (shared (others w)) !! id); [rewrite decide_True by done|rewrite decide_False by (by intros [])];
      destruct Hc as [-> Hw]; unfold leases; by rewrite Hw.
  - unfold revoke_lease. mutex_use. destruct Hc as [-> Hw]. unfold leases. by rewrite Hw.
  - unfold remove_lease. mutex_use. destruct Hc as [-> Hw]. unfold leases. by rewrite Hw.
Qed.

(** The calls of all threads in the order in which they take the mutex; nothing else
    uses the table. *)
Inductive lease_trace : list (LeaseCall * result DispatchError LeaseAnswer) → gmap bytes (option BrowserLease) → Prop :=
  | lease_trace_nil : lease_trace [] ∅
  | lease_trace_snoc tr c r (w w' : W) :
      lease_trace tr (leases (shared (others w))) → takable BrowserLeasesMutex (shared (others w)) →
      perform c w = (r, w') → lease_trace (tr ++ [(c, r)]) (leases (shared w')).

(** The call may change what the table holds for the connection, once it is there. *)
Definition touches (id : bytes) (c : LeaseCall) : Prop :=
  match c with
  | Claim _ (Some _) _ id' | Keep id' _ | Revoke id' | Forget id' => id' = id
  | Claim _ None _ _ => False
  end.

Definition stored_last (id : bytes) (lease : BrowserLease) (tr : list (LeaseCall * result DispatchError LeaseAnswer)) : Prop :=
  ∃ tr1 tr2, tr = tr1 ++ (Keep id lease, Ok (Kept true)) :: tr2 ∧ ∀ c r, (c, r) ∈ tr2 → ¬ touches id c.
(** Since its first request the connection has not ended. *)
Definition asked (id : bytes) (tr : list (LeaseCall * result DispatchError LeaseAnswer)) : Prop :=
  ∃ tr1 tr2 context e, tr = tr1 ++ (Claim context None e id, Ok (Admission (LeaseReady None))) :: tr2
    ∧ ∀ c r, (c, r) ∈ tr2 → c ≠ Forget id.

(** What the table holds, as the calls so far tell. *)
Record leases_of (tr : list (LeaseCall * result DispatchError LeaseAnswer)) (m : gmap bytes (option BrowserLease)) : Prop := {
  lo_bound : Z.of_nat (size m) ≤ MAX_CONNECTIONS;
  lo_stored id lease : m !! id = Some (Some lease) → stored_last id lease tr;
  lo_asked id : asked id tr → is_Some (m !! id);
}.

Lemma stored_snoc id lease tr c r : stored_last id lease tr → ¬ touches id c → stored_last id lease (tr ++ [(c, r)]).
Proof.
  intros (tr1 & tr2 & -> & Hq) Hc. exists tr1, (tr2 ++ [(c, r)]). split; [by rewrite <-app_assoc|].
  intros c' r' [Hin|[= -> ->]%list_elem_of_singleton]%elem_of_app; [by eapply Hq|done].
Qed.
Lemma asked_snoc id tr c r :
  asked id (tr ++ [(c, r)]) →
  (∃ context e, c = Claim context None e id ∧ r = Ok (Admission (LeaseReady None))) ∨ asked id tr ∧ c ≠ Forget id.
Proof.
  intros (tr1 & tr2 & context & e & Heq & Hq). destruct tr2 as [|[c' r'] tr2 _] using rev_ind.
  - apply app_inj_tail in Heq as [_ [= -> ->]]. left. by exists context, e.
  - rewrite app_comm_cons, app_assoc in Heq. apply app_inj_tail in Heq as [-> [= -> ->]]. right. split.
    + exists tr1, tr2, context, e. split; [done|]. intros c r Hin. apply (Hq c r), elem_of_app. by left.
    + apply (Hq c' r'), elem_of_app. right. by apply list_elem_of_singleton.
Qed.

Lemma leases_of_call tr c r m m' :
  leases_of tr m → Z.of_nat (size m') ≤ MAX_CONNECTIONS →
  (∀ id lease, m' !! id = Some (Some lease) →
    c = Keep id lease ∧ r = Ok (Kept true) ∨ m !! id = Some (Some lease) ∧ ¬ touches id c) →
  (∀ id, is_Some (m !! id) → c ≠ Forget id → is_Some (m' !! id)) →
  (∀ id context e, c = Claim context None e id → r = Ok (Admission (LeaseReady None)) → is_Some (m' !! id)) →
  leases_of (tr ++ [(c, r)]) m'.
Proof.
  intros [_ Hs Ha] Hb Hm Hk Hc. split; [done|..].
  - intros id lease [[-> ->]|[? ?]]%Hm; [|by apply stored_snoc; [apply Hs|]].
    exists tr, []. split; [done|]. by intros c' r' ?%not_elem_of_nil.
  - intros id [(context & e & Heq & Hr)|[? ?]]%asked_snoc; [by eapply Hc|auto].
Qed.

Lemma leases_of_performed tr c m :
  leases_of tr m → leases_of (tr ++ [(c, Ok (performed c m).1)]) (performed c m).2.
Proof.
  intros Hm. pose proof (lo_bound _ _ Hm) as Hb.
  assert (∀ id v, is_Some (m !! id) → Z.of_nat (size (<[id := v]> m)) ≤ MAX_CONNECTIONS) as Hset
    by (intros; by rewrite map_size_insert_Some).
  apply (leases_of_call tr c _ m); [done|..].
  all: destruct c as [context [selection|] e id|id lease|id|id]; unfold performed, claimed, touches.
  all: repeat first [case_match|case_decide]; cbn in *; simplify_eq/=; try done; intros; simplify_eq/=.
  all: rewrite ?lookup_insert_Some, ?lookup_insert_is_Some', ?lookup_alter_Some, ?lookup_alter_is_Some, ?lookup_delete_Some,
    ?lookup_delete_is_Some in *.
  1-4: first [by apply Hset; eauto using mk_is_Some|rewrite map_size_insert_None by done; lia].
  1: by rewrite <-(size_dom (D:=gset bytes)), dom_alter_L, size_dom.
  1: rewrite map_size_delete; case_match; cbn; lia.
  all: first [naive_solver|match goal with id : bytes |- context [_ !! ?i] => destruct (decide (id = i)) as [->|]; naive_solver end].
Qed.

Lemma lease_trace_leases tr m : lease_trace tr m → leases_of tr m.
Proof.
  induction 1 as [|tr c r w w' _ IH Ht Hc].
  - split; [done|by intros ?? ?%lookup_empty_Some|]. intros id (tr1 & tr2 & ? & ? & Heq & _). by destruct tr1.
  - pose proof (perform_takes c w Ht) as Hp. rewrite Hc in Hp. destruct Hp as [-> ->]. by apply leases_of_performed.
Qed.

Lemma lease_trace_app tr1 c r tr2 m :
  lease_trace (tr1 ++ (c, r) :: tr2) m → ∃ m1, leases_of tr1 m1 ∧ r = Ok (performed c m1).1.
Proof.
  revert m. induction tr2 as [|x tr2 IH] using rev_ind; intros m Htr.
  - inversion Htr as [Heq|tr' c' r' w w' Htr' Ht Hc Heq]; [by destruct tr1|]. apply app_inj_tail in Heq as [-> [= -> ->]].
    pose proof (perform_takes c w Ht) as Hp. rewrite Hc in Hp. destruct Hp as [-> _].
    eexists. split; [by apply lease_trace_leases|done].
  - rewrite app_comm_cons, app_assoc in Htr. inversion Htr as [Heq|tr' c' r' w w' Htr' Ht Hc Heq]; [by destruct tr1|].
    apply app_inj_tail in Heq as [-> _]. by apply (IH _ Htr').
Qed.

(** A use of a table under its mutex, which succeeds and keeps guards and permits. *)
Definition tame {A} (f : Shared → result DispatchError A * Shared) : Prop :=
  ∀ x, is_ok (f x).1 = true ∧ sh_held (f x).2 = sh_held x ∧ sh_permits (f x).2 = sh_permits x ∧ later x (f x).2.
Lemma tame_rule {A} held permits m (f : Shared → result DispatchError A * Shared) w0 :
  m ∉ held → tame f →
  triple (following w0 (idle held permits)) (with_mutex m f) (λ _, following w0 (idle held permits))
    (λ err w, err = DispatchInternal ∧ following w0 (idle held permits) w).
Proof.
  intros Hm Hf. eapply triple_weaken; [apply (with_mutex_rule (idle held permits) (λ _, idle held permits)
    (λ err x, err = DispatchInternal ∧ idle held permits x))|done|done|].
  - apply stable_idle.
  - intros x Hx. pose proof Hx as (Hh & _). by rewrite Hh.
  - intros x (Hh & Hp & _). destruct (Hf (set_held (λ held, {[m]} ∪ held) x)) as (Hok & Hh' & Hp' & Hl).
    split; [etrans; [|exact Hl]; by split|]. destruct (f _) as [[a|err|] x']; [|done..]. cbn in *.
    split_and!; [cbn; rewrite Hh', Hh; set_solver|by cbn; rewrite Hp'|done].
  - intros err w (? & ? & ? & ?). by split_and!.
Qed.
Lemma tame_leases (g : gmap bytes (option BrowserLease) → gmap bytes (option BrowserLease)) x :
  sh_held (set_leases (g (leases x)) x) = sh_held x ∧ sh_permits (set_leases (g (leases x)) x) = sh_permits x
  ∧ later x (set_leases (g (leases x)) x).
Proof. by split_and!; [..|split]. Qed.

Lemma with_mutex_result {A} m (f : Shared → result DispatchError A * Shared) w a :
  (with_mutex m f w).1 = Ok a → ∃ x, (f x).1 = Ok a.
Proof.
  unfold with_mutex, acquire, mbind, stm_bind. repeat case_decide; [done..|]. cbn.
  match goal with |- context [f ?x] => destruct (f x) as [r x'] eqn:Hf; exists x; rewrite Hf end. done.
Qed.
Lemma claim_rejects context selection e connection_id w o :
  (claim_browser_lease context selection e connection_id w).1 = Ok (LeaseRejected o) → o = invalid ∨ o = busy.
Proof.
  unfold claim_browser_lease. destruct selection as [selection|].
  - unfold mbind, stm_bind. destruct (take_lease connection_id w) as [[[lease|]|err|] w']; [| |done..]; cbn.
    + destruct (_ || _); [|done]. intros [= <-]. by left.
    + intros [= <-]. by left.
  - intros [x Hx]%with_mutex_result. cbv zeta in Hx. destruct (_ !! connection_id); [|destruct (MAX_CONNECTIONS <=? _)]; simplify_eq/=; auto.
Qed.

Lemma claim_rule p held permits context selection e connection_id :
  BrowserLeasesMutex ∉ held → resting held permits p →
  triple (λ s, s = p) (in_world (claim_browser_lease context selection e connection_id))
    (λ a s, hosting p (idle held permits) s ∧ (claim_browser_lease context selection e connection_id (world p)).1 = Ok a)
    (λ err s, err = DispatchInternal ∧ hosting p (idle held permits) s).
Proof.
  intros Hm Hr.
  assert (triple (following (world p) (idle held permits)) (claim_browser_lease context selection e connection_id)
    (λ _, following (world p) (idle held permits)) (λ err w, err = DispatchInternal ∧ following (world p) (idle held permits) w)) as Hc.
  { unfold claim_browser_lease. destruct selection as [selection|].
    - eapply (triple_bind _ _ _ (λ _, following (world p) (idle held permits))); [|intros lease; by apply triple_ret].
      apply tame_rule; [done|]. intros x. cbv beta zeta. fold (leases x).
      destruct (leases x !! connection_id) as [[lease|]|]; (split; [done|]); [apply (tame_leases (<[connection_id := None]>))|by split_and!..].
    - apply tame_rule; [done|]. intros x. cbv beta zeta. fold (leases x). destruct (leases x !! connection_id); [by split_and!|].
      destruct (MAX_CONNECTIONS <=? Z.of_nat (size (leases x))); [by split_and!|]. split; [done|]. apply (tame_leases (<[connection_id := None]>)). }
  intros s ->. specialize (Hc (world p) (following_refl _ _ Hr)). unfold in_world.
  destruct (claim_browser_lease context selection e connection_id (world p)) as [[a|err|] w]; [| |done].
  - by split.
  - destruct Hc as [-> ?]. by split.
Qed.

(** ** The response *)

Section response.
Context (context : BrowserContext) (required : option BrowserLease) (e : Z) (connection_id : bytes) (generation deadline : Z).

(** What is given: the credential of the account that was selected; or, to a first
    request, a selection, which the lease of the connection now admits. *)
Definition given (account : option WebsiteAccount) (o : ExecutionOutcome) (x : Shared) : Prop :=
  match required, account with
  | Some lease, Some a =>
      ac_id a = bs_record_id (bl_selection lease) ∧ ac_revision a = bs_revision (bl_selection lease)
      ∧ ∃ body, BrowserCredential_encode {| cred_username := ac_username a; cred_password := ac_password a |} = Ok body
        ∧ o = browser_success body generation deadline
  | Some _, None => False
  | None, Some a =>
      ∃ token body, let selection := {| bs_token := token; bs_record_id := ac_id a; bs_revision := ac_revision a |} in
        BrowserSelection_encode_optional (Some selection) = Ok body ∧ o = browser_success body generation deadline
        ∧ leases x !! connection_id = Some (Some {| bl_context := context; bl_selection := selection; bl_epoch := e;
            bl_accounts_generation := generation; bl_expires := deadline |})
  | None, None =>
      ∃ body, BrowserSelection_encode_optional None = Ok body ∧ o = browser_success body generation deadline
  end.

Definition account_wf (a : WebsiteAccount) : Prop :=
  WebsiteAccountPlaintext_wf (account_plaintext a) ∧ length (ac_id a) = 16%nat.

Lemma store_lease_rule p held permits lease :
  BrowserLeasesMutex ∉ held →
  triple (hosting p (idle held permits)) (in_world (store_lease connection_id lease))
    (λ kept : bool, hosting p (holding held permits (λ x, kept = true → leases x !! connection_id = Some (Some lease))))
    (λ err s, err = DispatchInternal ∧ hosting p (idle held permits) s).
Proof.
  intros Hm. eapply triple_weaken; [apply (call_rule p (idle held permits) _
    (λ kept : bool, holding held permits (λ x, kept = true → leases x !! connection_id = Some (Some lease)))
    (λ err x, err = DispatchInternal ∧ idle held permits x))|done|done|].
  2: { intros err s (? & ? & ? & ? & ?). split; [done|]. by split_and!. }
  unfold store_lease. apply with_mutex_rule; [apply stable_idle|..].
  - intros x Hx. pose proof Hx as (Hh & _). by rewrite Hh.
  - intros x (Hh & Hp & _). cbv beta zeta. cbn [sh_runtime set_held].
    destruct (_ !! connection_id); (split; [by split|]); (split_and!; [cbn; rewrite Hh; set_solver|done|]); [intros _|done].
    cbn. apply lookup_insert_eq.
Qed.

Lemma token_rule p held permits :
  triple (hosting p (idle held permits)) (in_world random_token)
    (λ token s, hosting p (idle held permits) s ∧ length token = 16%nat)
    (λ err s, err = DispatchInternal ∧ hosting p (idle held permits) s).
Proof.
  intros s [Ha Hs]. unfold in_world, random_token. pose proof (getrandom_unchanged 16 (world s)) as Hu.
  pose proof (getrandom_length 16 (world s)) as Hlen. destruct (getrandom_fill 16 (world s)) as [[token|] w]; cbn in *.
  - split; [|by eapply Hlen]. split; [done|]. eapply following_trans; [exact Hs|].
    apply following_moves; [apply stable_idle|apply Hs|done].
  - split; [done|]. split; [done|]. eapply following_trans; [exact Hs|]. apply following_moves; [apply stable_idle|apply Hs|done].
Qed.

Lemma fill_response_rule p held permits account :
  BrowserLeasesMutex ∉ held → (∀ a, account = Some a → account_wf a) →
  triple (hosting p (idle held permits)) (fill_response context required e connection_id generation deadline account)
    (λ o s, (given account o (shared (world s)) ∨ declined o) ∧ hosting p (idle held permits) s)
    (λ err s, err = DispatchInternal ∧ hosting p (idle held permits) s).
Proof.
  intros Hm Hwf. unfold fill_response, given. destruct required as [lease|], account as [a|].
  - destruct (Hwf a eq_refl) as [[_ _ _ _ [? ?] [? ?]] _].
    case_bool_decide as Hid; [by apply triple_ret; intros s Hs; split; [right|]|]. cbn [orb].
    destruct (Z.eqb_spec (ac_revision a) (bs_revision (bl_selection lease))) as [Hrev|]; cbn [negb];
      [|by apply triple_ret; intros s Hs; split; [right|]].
    eapply triple_bind; [apply encoding_rule; unfold BrowserCredential_new; no_panic|intros c; cbn beta].
    apply triple_pre. intros s1 [Hc Hs1]. apply (triple_from (hosting p (idle held permits))); [by intros ? ->|].
    unfold BrowserCredential_new in Hc. inv_ok Hc. simp_guards.
    eapply triple_bind; [apply encoding_rule|intros body; cbn beta].
    { destruct (BrowserCredential_image {| cred_username := ac_username a; cred_password := ac_password a |}) as [-> _]; [|done].
      split; (split; assumption). }
    apply triple_ret. intros s [Hb Hs]. split; [left|done]. split_and!; [done|done|by exists body].
  - by apply triple_ret; intros s Hs; split; [right|].
  - destruct (Hwf a eq_refl) as [Hwfa Hid].
    eapply triple_bind; [apply token_rule|intros token; cbn beta].
    apply triple_pre. intros s1 [Hs1 Htok]. apply (triple_from (hosting p (idle held permits))); [by intros ? ->|].
    eapply triple_bind; [apply encoding_rule, BrowserSelection_new_not_Panic|intros selection; cbn beta].
    apply triple_pre. intros s2 [Hsel Hs2]. apply (triple_from (hosting p (idle held permits))); [by intros ? ->|].
    assert (u64 (ac_revision a)) as Hrev by apply Hwfa.
    apply BrowserSelection_new_Ok in Hsel as [-> Hsw]; [|done..].
    set (selection := {| bs_token := token; bs_record_id := ac_id a; bs_revision := ac_revision a |}) in *.
    destruct (selection_image (Some selection)) as [Henc _]; [by intros ? [= <-]|].
    eapply triple_bind; [apply encoding_rule; by rewrite Henc|intros body; cbn beta].
    apply triple_pre. intros s3 [Hb Hs3]. apply (triple_from (hosting p (idle held permits))); [by intros ? ->|].
    eapply triple_bind; [by apply store_lease_rule|intros kept; cbn beta].
    apply triple_ret. intros s Hs. split.
    + destruct kept; [left|right; by split]. exists token, body. fold selection. split_and!; [done..|by apply Hs].
    + by eapply hosting_idle.
  - destruct (selection_image None) as [Henc _]; [done|].
    eapply triple_bind; [apply encoding_rule; by rewrite Henc|intros body; cbn beta].
    apply triple_ret. intros s [Hb Hs]. split; [left; by exists body|done].
Qed.
End response.

(** ** A fill *)

Lemma origin_parse_total o : BrowserOrigin_parse o ≠ Panic.
Proof. unfold BrowserOrigin_parse. no_panic. Qed.

Lemma in_sync_sole (s : Process W) key m origin a :
  in_sync s key m → sole (origin_matches origin (accounts_of m)) = Some a → account_wf a.
Proof.
  intros Hin Ha. assert (a ∈ accounts_of m) as Hm.
  { unfold sole in Ha. destruct (origin_matches origin (accounts_of m)) as [|b [|]] eqn:Ho; simplify_eq.
    assert (a ∈ origin_matches origin (accounts_of m)) as Hb by (rewrite Ho; set_solver).
    unfold origin_matches in Hb. by apply list_elem_of_filter in Hb as [_ ?]. }
  apply (in_sync_account s key) in Hm; [|done]. destruct (in_sync_wf _ _ _ _ _ Hin Hm) as ([? _] & _ & ?). by split.
Qed.

Section handler.
Context (context : BrowserContext) (selection : option BrowserSelection).
Context (e : Z) (registration : RequestRegistration) (deadline : Z).
#[local] Abbreviation connection_id := (rk_connection_id (rr_key registration)).

(** The deadline of a fill: that of the lease that it redeems, if it comes first. *)
Definition due (required : option BrowserLease) : Z := from_option (λ lease, Z.min deadline (bl_expires lease)) deadline required.

(** The page's origin, if top and frame have one and the same. *)
Definition page_origin (origin : bytes) : Prop :=
  BrowserOrigin_parse (bc_top_origin context) = Ok origin ∧ BrowserOrigin_parse (bc_frame_origin context) = Ok origin.

(** No generation is lost: a saturated counter gives no more leases. *)
Definition current (required : option BrowserLease) (n : Z) : Prop :=
  n ≠ max_of 64 ∧ ∀ lease, required = Some lease → bl_accounts_generation lease = n.

Section claimed.
Context (p : Process W) (held : gset MutexName) (permits : gset FlagName) (required : option BrowserLease) (origin : bytes).
Context (Hfree : VaultMutex ∉ held ∧ CommitGate ∉ held ∧ CancellationsMutex ∉ held) (Hleases : BrowserLeasesMutex ∉ held).
Context (Hp : consistent p).

(** The account of the page's origin, if there is exactly one. *)
Definition found (m : gmap bytes DecryptedRecord) (account : option WebsiteAccount) : Prop :=
  account = sole (origin_matches origin (accounts_of m)).
Definition filled_with (account : option WebsiteAccount) (o : ExecutionOutcome) (x : Shared) : Prop :=
  ∃ n, current required n ∧ given context required e connection_id n (due required) account o x.

Lemma fill_vault_rule :
  triple (hosting p (idle held permits))
    (with_vault (
      unless (pre_check e registration (due required)) (
      generation ← in_world (observe (λ s, rt_accounts_generation (sh_runtime s)));
      if (generation =? max_of 64)
         || from_option (λ lease, negb (bl_accounts_generation lease =? generation)) false required
      then mret (failure PublicErrorCode.Conflict Never)
      else
        read_after_core e registration (due required)
          (agent_unique_browser_account_with_check origin (should_abort e registration (due required)))
          (fill_response context required e connection_id generation (due required)))))
    (answered p held permits e registration (due required) found filled_with) (undisturbed p held permits).
Proof.
  destruct Hfree as (Hv & Hg & Hcm). set (inside := {[VaultMutex]} ∪ held).
  assert (inside ∖ {[VaultMutex]} = held) as Hin by (subst inside; set_solver).
  apply with_vault_rule; [done| |].
  2: { intros q Hq Hr Ht. split; [done|]. split_and!; [done|by eapply others_had_consistent|done]. }
  intros q Hq Hr Ht. apply (triple_from (hosting q (idle inside permits))); [by intros ? ->; apply hosting_refl|].
  assert (∀ o s, declined o → hosting q (idle inside permits) s →
    answered p held permits e registration (due required) found filled_with o (on_world (drop_guard VaultMutex) s)) as Hdecl.
  { intros o s Ho Hs. eapply (freed_withheld p held permits); try done. by apply hosting_shaken. }
  eapply unless_rule.
  { eapply triple_post; [apply pre_check_rule|]. intros [o|] s [Hs Ho]; [by apply Hdecl; [apply refusal_declined|]|exact Hs]. }
  eapply (triple_bind _ _ _ (λ _, hosting q (idle inside permits))).
  { eapply triple_weaken; [apply (call_rule q (idle inside permits) _ (λ _ : Z, idle inside permits) (λ _ _, False))|done|done|].
    - apply (look_rule _ (λ _, following (world q) (idle inside permits))); [apply stable_idle|done].
    - by intros err s (_ & _ & _ & ?). }
  intros n. destruct (_ || _) eqn:Hn.
  { apply triple_ret. intros s Hs. apply Hdecl; [by split|done]. }
  assert (current required n) as Hcur.
  { apply orb_false_iff in Hn as [Hn Hl]. split; [lia|]. intros lease ->. cbn in Hl. lia. }
  apply triple_pre. intros s1 Hs1. pose proof (hosting_same_vault _ _ _ Hs1) as Hsame.
  destruct Hs1 as (_ & _ & Ht1 & Hi1). eapply triple_weaken; [eapply (read_after_core_rule p held permits e registration (due required)
    (λ m account, found m account ∧ ∃ q key, in_sync q key m) filled_with)|intros s Hs; exact Hs|..].
  - intros account o g x Ho. exact Ho.
  - done.
  - by split.
  - intros q' key m Hsync s Hs.
    pose proof (proj1 (proj2 (proj2 (reads_inform q' key m _ Hsync (should_abort_watches e registration (due required))))) origin s Hs) as Hread.
    destruct (agent_unique_browser_account_with_check _ _ s) as [[a|err|] s']; [|done|done].
    destruct Hread as [? ->]. split; [done|]. split; [done|]. by exists q', key.
  - intros q' Hq'. by apply locked_refuses.
  - intros m account s0 [Hf (q' & key & Hsync)] _. unfold found in Hf. subst account. eapply triple_weaken; [apply (fill_response_rule context required e connection_id n
      (due required) s0 inside permits (sole (origin_matches origin (accounts_of m))))|done| |done].
    + subst inside. set_solver.
    + intros a Ha. by eapply in_sync_sole.
    + intros o s [[Ho|Ho] Hs]; (split; [|exact Hs]); [left; (exists n; split; [exact Hcur|exact Ho])|by right].
  - done.
  - by eapply others_had_same.
  - done.
  - passing.
  - intros o s [Hs [(q' & key & m & a & ? & ? & ? & [? _] & ? & ?)|?]]; (split; [done|]); [left|by right].
    by exists q', key, m, a.
  - done.
Qed.
End claimed.

(** How a fill ends: it has claimed its lease, and answers for the account of the
    page's origin in the map that session and file agreed on when the vault was taken,
    and still do; or it answers with an error and no data. *)
Definition filled (p : Process W) (o : ExecutionOutcome) (s : Process W) : Prop :=
  ∃ required origin q key m,
    (claim_browser_lease context selection e connection_id (world p)).1 = Ok (LeaseReady required)
    ∧ page_origin origin ∧ timely (due required) e registration (world p)
    ∧ others_had p q ∧ in_sync q key m ∧ in_sync s key m
    ∧ filled_with required (sole (origin_matches origin (accounts_of m))) o (shared (world s)).

Lemma browser_fill_rule p held permits :
  VaultMutex ∉ held ∧ CommitGate ∉ held ∧ CancellationsMutex ∉ held ∧ BrowserLeasesMutex ∉ held →
  resting held permits p → consistent p →
  triple (λ s, s = p) (browser_fill context selection e registration deadline)
    (λ o s, settled p held permits s ∧ (filled p o s ∨ withheld p o s)) (undisturbed p held permits).
Proof.
  intros (Hv & Hg & Hcm & Hl) Hr Hp.
  assert (∀ o s, declined o → hosting p (idle held permits) s → settled p held permits s ∧ (filled p o s ∨ withheld p o s)) as Hdecl.
  { intros o s Ho Hs. pose proof (hosting_same_vault _ _ _ Hs) as [_ Hf]. split; [by apply hosting_settled|right].
    split; [done|]. exists p. split; [by left|done]. }
  unfold browser_fill. eapply (triple_bind _ _ _ (λ a s, hosting p (idle held permits) s
    ∧ (claim_browser_lease context selection e connection_id (world p)).1 = Ok a)).
  { eapply triple_weaken; [by apply claim_rule|done|done|]. intros err s [-> Hs]. split; [done|by apply hosting_settled]. }
  intros [required|o]; apply triple_pre; intros s1 [Hs1 Hclaim];
    apply (triple_from (hosting p (idle held permits))); try (by intros ? ->).
  2: { apply triple_ret. intros s Hs. apply Hdecl; [|done]. apply claim_rejects in Hclaim as [-> | ->]; by split. }
  assert (∀ o, declined o → triple (hosting p (idle held permits)) (mret o)
    (λ o s, settled p held permits s ∧ (filled p o s ∨ withheld p o s)) (undisturbed p held permits)) as Hstop.
  { intros o Ho. apply triple_ret. intros s. by apply Hdecl. }
  unfold or_invalid. pose proof (origin_parse_total (bc_top_origin context)). pose proof (origin_parse_total (bc_frame_origin context)).
  destruct (BrowserOrigin_parse (bc_top_origin context)) as [origin|err|] eqn:Htop; [|by apply Hstop|done].
  destruct (BrowserOrigin_parse (bc_frame_origin context)) as [frame_origin|err|] eqn:Hframe; [|by apply Hstop|done].
  case_bool_decide as Hsame; [by apply Hstop|]. subst frame_origin. fold (due required).
  eapply unless_rule.
  { eapply triple_post; [apply pre_check_rule|]. intros [o|] s [Hs Ho]; [|exact Hs].
    by apply Hdecl; [apply refusal_declined|]. }
  eapply triple_weaken; [by apply (fill_vault_rule p held permits required origin)|done| |done].
  intros o s [Hs [(q & key & m & account & ? & ? & ? & -> & ? & ?)|?]]; (split; [done|]); [left|by right].
  by exists required, origin, q, key, m.
Qed.
End handler.

(** ** Properties *)

(** C8: in every order in which the threads' calls take the mutex of the leases, the
    table never has more entries than there may be connections; a claim without a
    selection is admitted at most once in the life of a connection; and a claim with one
    is given a lease only if that lease has the same page, selection and epoch and was
    stored for the connection, with nothing since that could have used or replaced it:
    a stored lease is redeemed at most once. *)
Theorem leases_single_use (tr : list (LeaseCall * result DispatchError LeaseAnswer)) (m : gmap bytes (option BrowserLease)) :
  lease_trace tr m →
  Z.of_nat (size m) ≤ MAX_CONNECTIONS
  ∧ ∀ tr1 tr2 context selection e id r, tr = tr1 ++ (Claim context selection e id, r) :: tr2 →
    ∃ a, r = Ok (Admission a) ∧
      match a with
      | LeaseReady required =>
          match selection, required with
          | Some selection, Some lease =>
              bl_context lease = context ∧ bl_selection lease = selection ∧ bl_epoch lease = e ∧ stored_last id lease tr1
          | None, None => ¬ asked id tr1
          | _, _ => False
          end
      | LeaseRejected o => o = invalid ∨ o = busy
      end.
Proof.
  intros Htr. split; [by eapply lo_bound, lease_trace_leases|]. intros tr1 tr2 context selection e id r ->.
  apply lease_trace_app in Htr as (m1 & [_ Hs Ha] & ->). exists (claimed context selection e id m1).1.
  split; [cbn; by destruct (claimed _ _ _ _ _)|]. unfold claimed.
  destruct selection as [selection|], (m1 !! id) as [[lease|]|] eqn:Hid; cbn; try by left.
  - case_decide as Hd; [|by left]. destruct Hd as (? & ? & ?). split_and!; auto.
  - case_decide; [by right|]. intros [x Hx]%Ha. congruence.
Qed.

(** C7: whatever the other threads do, a fill gives data only once it has claimed the
    lease of its connection, for a page whose top and frame have the same origin, and for
    the only account of that origin in the map that session and file agreed on when the
    vault was taken, and still do: its credential, if it is the account, at the revision
    and the generation, that the redeemed lease was stored for; otherwise a fresh
    selection of it, for which a lease is stored; or that there is no such account.  Then
    the request was in time, for the lease too, and not revoked when it began.  Or the
    response is an error without data.  Nothing is written, nothing panics, and the agent
    is locked or agrees with the file. *)
Theorem fills_for_the_origin (p : Process W) context selection (e : Z) (registration : RequestRegistration) (deadline : Z) held permits :
  VaultMutex ∉ held ∧ CommitGate ∉ held ∧ CancellationsMutex ∉ held ∧ BrowserLeasesMutex ∉ held →
  resting held permits p → consistent p →
  triple (λ s, s = p) (browser_fill context selection e registration deadline)
    (λ o s, settled p held permits s ∧ (filled context selection e registration deadline p o s ∨ withheld p o s))
    (undisturbed p held permits).
Proof. apply browser_fill_rule. Qed.
End fill.

Module Examples.
Import Rfc8949 Toy VaultCore.Examples VaultRefine.Examples MemoryDisk AgentRefine.Examples RuntimeRefine.Examples.

Definition page : BrowserContext :=
  {| bc_request_id := repeat Byte.x01 16; bc_tab_id := 1; bc_document_id := repeat Byte.x02 16;
     bc_top_origin := str "https://example.com"; bc_frame_origin := str "https://example.com" |}.

(** The account is added, then it is selected, then the selection is redeemed. *)
Definition selecting : Process (Disk Shared) := add_run.2.
Definition select_run := browser_fill page None 2 request 100 selecting.
Definition chosen : option BrowserSelection :=
  bl_selection <$> (leases (shared (world select_run.2)) !! zeros 16 ≫= id).
Definition fill_run := browser_fill page chosen 2 request 100 select_run.2.

Lemma fill_succeeds : (eo_error <$> match fill_run.1 with Ok o => Some o | _ => None end) = Some None.
Proof. vm_compute. reflexivity. Qed.
Lemma select_succeeds : is_ok select_run.1 = true.
Proof. vm_compute. reflexivity. Qed.
Lemma selecting_settled : settled running ∅ ∅ selecting.
Proof.
  pose proof (add_account_concludes running fields 2 request 100 fields_wf ∅ ∅ no_guards
    (not_elem_of_empty _) running_resting running_consistent running eq_refl) as Hrun.
  pose proof add_succeeds as Hok. unfold selecting, add_run in *.
  destruct (add_account fields 2 request 100 running) as [[o|err|] s]; [|discriminate Hok..]. apply Hrun.
Qed.
Lemma free_of_guards : VaultMutex ∉ (∅ : gset MutexName) ∧ CommitGate ∉ (∅ : gset MutexName)
  ∧ CancellationsMutex ∉ (∅ : gset MutexName) ∧ BrowserLeasesMutex ∉ (∅ : gset MutexName).
Proof. set_solver. Qed.
Lemma selected_settled : settled selecting ∅ ∅ select_run.2.
Proof.
  destruct selecting_settled as (Hr & Hc & _). pose proof select_succeeds as Hok.
  pose proof (browser_fill_rule page None 2 request 100 selecting ∅ ∅ free_of_guards Hr Hc selecting eq_refl) as Hrun.
  unfold select_run in *. destruct (browser_fill page None 2 request 100 selecting) as [[o|err|] s]; [|discriminate Hok..].
  apply Hrun.
Qed.

Lemma fill_origin : BrowserOrigin_parse (bc_top_origin page) = Ok (str "https://example.com").
Proof. vm_compute. reflexivity. Qed.
Lemma fill_redeems :
  match (claim_browser_lease page chosen 2 (rk_connection_id (rr_key request)) (world select_run.2)).1 with
  | Ok (LeaseReady (Some lease)) => bool_decide (chosen = Some (bl_selection lease))
  | _ => false
  end = true.
Proof. vm_compute. reflexivity. Qed.

(** The credential of the account that was selected is filled in. *)
Lemma fills_for_the_origin_witness :
  ∃ (q : Process (Disk Shared)) key m lease a, in_sync q key m
    ∧ sole (origin_matches (str "https://example.com") (accounts_of m)) = Some a
    ∧ chosen = Some (bl_selection lease) ∧ ac_id a = bs_record_id (bl_selection lease).
Proof.
  destruct selected_settled as (Hr & Hc & _). pose proof fill_succeeds as Hok.
  pose proof (fills_for_the_origin select_run.2 page chosen 2 request 100 ∅ ∅ free_of_guards Hr Hc select_run.2 eq_refl) as Hrun.
  unfold fill_run in *. destruct (browser_fill page chosen 2 request 100 select_run.2) as [[o|err|] s]; [|discriminate Hok..].
  destruct Hrun as [_ [(required & origin & q & k & m & Hclaim & [Horigin _] & _ & _ & Hq & _ & n & _ & Hgiven)|[[He _] _]]].
  - pose proof fill_origin as Ho. rewrite Horigin in Ho. injection Ho as ->.
    pose proof fill_redeems as Hl. rewrite Hclaim in Hl. destruct required as [lease|]; [|discriminate Hl].
    apply bool_decide_eq_true in Hl.
    unfold given in Hgiven. destruct (sole _) as [a|] eqn:Ha; [|destruct Hgiven]. destruct Hgiven as (Hid & _).
    exists q, k, m, lease, a. split_and!; [exact Hq|exact Ha|exact Hl|exact Hid].
  - exfalso. injection Hok as Hnone. rewrite Hnone in He. by destruct He.
Defined.

(** A lease is stored and redeemed. *)
Definition offered : BrowserLease :=
  {| bl_context := page; bl_selection := {| bs_token := repeat Byte.x01 16; bs_record_id := repeat Byte.x02 16; bs_revision := 1 |};
     bl_epoch := 2; bl_accounts_generation := 1; bl_expires := 100 |}.
Definition call1 := perform (Claim page None 2 (zeros 16)) (world running).
Definition call2 := perform (Keep (zeros 16) offered) call1.2.
Definition call3 := perform (Claim page (Some (bl_selection offered)) 2 (zeros 16)) call2.2.
Definition redeeming : list (LeaseCall * result DispatchError LeaseAnswer) :=
  [(Claim page None 2 (zeros 16), call1.1); (Keep (zeros 16) offered, call2.1);
   (Claim page (Some (bl_selection offered)) 2 (zeros 16), call3.1)].
Lemma redeeming_trace : lease_trace redeeming (leases (shared call3.2)).
Proof.
  apply (lease_trace_snoc [_; _] _ _ call2.2); [|by vm_compute|by destruct call3 eqn:?].
  apply (lease_trace_snoc [_] _ _ call1.2); [|by vm_compute|by destruct call2 eqn:?].
  apply (lease_trace_snoc [] _ _ (world running)); [apply lease_trace_nil|by vm_compute|by destruct call1 eqn:?].
Qed.
Lemma leases_single_use_witness :
  call3.1 = Ok (Admission (LeaseReady (Some offered))) ∧ stored_last (zeros 16) offered (take 2 redeeming).
Proof.
  destruct (leases_single_use redeeming _ redeeming_trace) as [_ Huse].
  destruct (Huse (take 2 redeeming) [] page (Some (bl_selection offered)) 2 (zeros 16) call3.1 eq_refl) as (a & Ha & Hlast).
  assert (call3.1 = Ok (Admission (LeaseReady (Some offered)))) as Hok by (vm_compute; reflexivity).
  rewrite Hok in Ha. injection Ha as <-. split; [exact Hok|]. apply Hlast.
Defined.
End Examples.
