(* ===== verification/PasskeyRefine.v ===== *)
(** * Passkey operations keep their promises

    Windows asks for a passkey in steps, and each request is verified before the vault
    is touched.  What the operations of [Passkeys] give back, and how they leave the
    guards, the permits, the agent and the file, whatever the other threads do. *)

From S2P Require Import Prelude RustStd Cbor Wire Types Message Session Operations Browser VaultFormat VaultRecords VaultKeys VaultStore VaultCore VaultRefine Storage Agent AgentRefine Outcome Idempotency Ownership Threads Runtime Fill Passkeys Rely RuntimeRefine ReadRefine.

(** The platform's verifier: its calls end and touch no file of the vault; the strings
    it returns are UTF-8. *)
Class VerifierLaws `{Minicbor, Crypto, UrlCrate} (W : Type) `{StorageModel W, PasskeyRequestVerifier W} : Prop := {
  remove_cached_credential_inert (c : bytes) : inert (remove_cached_credential (W:=W) c);
  verify_assertion_lookup_inert proof : inert (verify_assertion_lookup (W:=W) proof);
  verify_make_inert proof : inert (verify_make (W:=W) proof);
  verify_assertion_inert proof (c : bytes) : inert (verify_assertion (W:=W) proof c);
  verified_make_text proof (w : W) v : (verify_make proof w).1 = Ok v →
    text (vm_rp_id v) ∧ text (vm_user_name v) ∧ text (vm_user_display_name v);
}.

Section passkeys.
Context `{MinicborLaws, CryptoLaws, UrlLaws}.
Context {W : Type} `{AgentLaws W, !EnvLaws W, !Threads W, !Connections, !ThreadsModel W, !ThreadsLaws W, !StorageLaws W, !PasskeyRequestVerifier W, !VerifierLaws W}.
Abbreviation rt A := (ag (W:=W) DispatchError A).

(** ** The verifier *)

Lemma attempt_inert_rule {F A} p held permits (m : stm W PasskeyVerificationError A) (R : F → Process W → Prop) :
  inert m →
  triple (hosting p (idle held permits)) (attempt (in_world m))
    (λ r s, hosting p (idle held permits) s ∧ r ≠ Panic ∧ ∀ v, r = Ok v → ∃ w, (m w).1 = Ok v) R.
Proof.
  intros Hm. apply attempt_rule. intros s [Ha Hs]. unfold in_world. destruct (Hm (world s)) as [Hn Hu].
  assert (following (world p) (idle held permits) (m (world s)).2) as Hs'.
  { eapply following_trans; [exact Hs|]. apply following_moves; [apply stable_idle|apply Hs|done]. }
  destruct (m (world s)) as [[v|err|] w] eqn:He; cbn in *; [| |done]; (split_and!; [done..|]); [|done].
  intros v' [= <-]. exists (world s). by rewrite He.
Qed.

Lemma verified_by_rule {A} p held permits (m : stm W PasskeyVerificationError A) (k : A → rt ExecutionOutcome) Q R :
  inert m →
  (∀ err s, hosting p (idle held permits) s → Q (map_passkey_verification_error err) s) →
  (∀ v w, (m w).1 = Ok v → triple (hosting p (idle held permits)) (k v) Q R) →
  triple (hosting p (idle held permits)) (verified_by m k) Q R.
Proof.
  intros Hm Herr Hk. unfold verified_by. eapply triple_bind; [by apply attempt_inert_rule|]. intros r; cbn beta.
  apply (triple_pre (λ s, hosting p (idle held permits) s ∧ r ≠ Panic ∧ ∀ v, r = Ok v → ∃ w, (m w).1 = Ok v)).
  intros s (Hs & Hn & Hv). apply (triple_from (λ s', s' = s)); [done|]. destruct r as [v|err|]; [| |done].
  - destruct (Hv v eq_refl) as [w Hw]. eapply triple_from; [|by eapply Hk]. by intros ? ->.
  - apply triple_ret. intros ? ->. by apply Herr.
Qed.

(** ** Pending creations *)

Lemma pending_mutex_rule {A} p (F : Shared → Prop) held permits (G : A → Shared → Prop) (f : Shared → result DispatchError A * Shared) :
  PendingPasskeysMutex ∉ held → stable (holding held permits F) →
  (∀ x, sh_permits x = permits → F x →
    later x (f (set_held (λ held, {[PendingPasskeysMutex]} ∪ held) x)).2 ∧
    match f (set_held (λ held, {[PendingPasskeysMutex]} ∪ held) x) with
    | (Ok a, x') => sh_held x' = {[PendingPasskeysMutex]} ∪ sh_held x ∧ sh_permits x' = permits
        ∧ G a (set_held (λ held, held ∖ {[PendingPasskeysMutex]}) x')
    | (Err e, x') => e = DispatchInternal ∧ sh_held x' = {[PendingPasskeysMutex]} ∪ sh_held x ∧ sh_permits x' = permits
    | (Panic, _) => False
    end) →
  triple (hosting p (holding held permits F)) (in_world (with_mutex PendingPasskeysMutex f))
    (λ a, hosting p (holding held permits (G a))) (λ e s, e = DispatchInternal ∧ hosting p (idle held permits) s).
Proof.
  intros Hm HF Hf. eapply triple_weaken; [apply (call_rule p (holding held permits F) _ (λ a, holding held permits (G a))
    (λ e x, e = DispatchInternal ∧ idle held permits x))|done|done|by intros e s (? & ? & ? & ? & ?)].
  apply with_mutex_rule; [done|..].
  - intros x (Hh & Hp & _). rewrite Hh. by split_and!.
  - intros x (Hh & Hp & Hx). destruct (Hf x Hp Hx) as [Hl Hfx]. split; [done|].
    destruct (f _) as [[a|e|] x']; [| |done].
    + destruct Hfx as (Hh' & Hp' & HG). split_and!; [cbn; rewrite Hh', Hh; set_solver|done|done].
    + destruct Hfx as (-> & Hh' & Hp'). split; [done|]. split_and!; [cbn; rewrite Hh', Hh; set_solver|done|done].
Qed.

Lemma elem_of_gone key s :
  key ∈ gone s ↔ ∃ v, pending_creations s !! key = Some v ∧ pp_disconnected v = true.
Proof.
  unfold gone, pending_creations. rewrite elem_of_dom. split.
  - intros [v [? ?]%map_lookup_filter_Some]. by exists v.
  - intros (v & ? & ?). exists v. by apply map_lookup_filter_Some.
Qed.
(** A creation that is stored waits for a rollback only if it already did. *)
Lemma gone_insert key v s x :
  (pp_disconnected v = true → key ∈ gone s) → pending_creations x = <[key := v]> (pending_creations s) → gone x ⊆ gone s.
Proof.
  intros Hv Hx k (v' & Hk & Hd)%elem_of_gone. rewrite Hx in Hk. destruct (decide (k = key)) as [->|].
  - rewrite lookup_insert_eq in Hk. simplify_eq. auto.
  - rewrite lookup_insert_ne in Hk by done. apply elem_of_gone. by exists v'.
Qed.
Lemma gone_delete key s x :
  pending_creations x = delete key (pending_creations s) → gone x ⊆ gone s ∖ {[key]}.
Proof.
  intros Hx k (v' & Hk & Hd)%elem_of_gone. rewrite Hx in Hk. apply lookup_delete_Some in Hk as [? ?].
  apply elem_of_difference. split; [apply elem_of_gone; by exists v'|set_solver].
Qed.

Definition no_pending_guard (held : gset MutexName) : Prop :=
  (VaultMutex ∉ held ∧ CommitGate ∉ held ∧ CancellationsMutex ∉ held) ∧ PendingPasskeysMutex ∉ held.

(** The last check of a confirmation: the creation is still pending, exactly as found. *)
Definition still_pending (e : Z) (registration : RequestRegistration) (key : PendingPasskeyCreationKey)
    (expected : PendingPasskeyCreation) (x : Shared) : Prop :=
  authorised e registration x ∧ pending_creations x !! key = Some expected.
Lemma pending_check_gates held permits e registration deadline key expected :
  CommitGate ∉ held → VaultMutex ∈ held → PendingPasskeysMutex ∉ held →
  gates held permits (still_pending e registration key expected) (λ w, in_time w deadline)
    (take_gate (W:=W) (commit_refused e registration deadline (pending_is_exact key expected))).
Proof.
  intros Hg Hv Hm. set (inside := {[CommitGate]} ∪ held).
  assert (stable (holding inside permits (λ x, pending_creations x !! key = Some expected))) as Hst.
  { apply stable_holding. intros s s' He Hh _ Hx. unfold pending_creations in *.
    by rewrite (es_pending _ _ He) by (rewrite Hh; subst inside; set_solver). }
  split_and!; [done|by apply stable_and; [apply stable_authorised; set_solver|]|apply in_time_earlier|]. intros w0.
  eapply triple_weaken; [apply (take_gate_rule held permits (λ x, pending_creations x !! key = Some expected)); [done|done|]|done|done|done].
  unfold pending_is_exact. apply triple_map_err. fold inside.
  eapply triple_weaken; [apply (with_mutex_rule (idle inside permits) (λ b, holding inside permits (λ x,
    b = true → pending_creations x !! key = Some expected)) (λ _, idle inside permits))|done|done|].
  - apply stable_idle.
  - intros x (Hh & ? & _). rewrite Hh. split_and!; [subst inside; set_solver|done..].
  - intros x (Hh & ? & _). split; [by split|]. split_and!; [cbn; rewrite Hh; subst inside; set_solver|done|].
    by intros Hb%bool_decide_eq_true.
  - intros e' w Hw. eapply following_weaken; [|exact Hw]. by intros x (? & ? & _).
Qed.

(** ** Responses *)

(** The body of a response that is given even if the request is cancelled meanwhile. *)
Definition grants (r : result ProtocolError bytes) (o : ExecutionOutcome) : Prop :=
  ∃ body, r = Ok body ∧ o = commit_point (success body).
Lemma granted_rule p F (r : result ProtocolError bytes) :
  r ≠ Panic →
  triple (hosting p F) (body ← encoded r; mret (commit_point (success body)))
    (λ o s, grants r o ∧ hosting p F s) (λ err s, err = DispatchInternal ∧ hosting p F s).
Proof.
  intros Hr. eapply triple_bind; [by apply encoding_rule|]. intros body. apply triple_ret. intros s [? ?]. split; [by exists body|done].
Qed.

(** ** Ending early *)

Section early.
Context (p : Process W) (held : gset MutexName) (permits : gset FlagName) (Hc : consistent p).
Context (e : Z) (registration : RequestRegistration) (deadline : Z).
(** [Q] allows the operation to decline as long as it has done nothing. *)
Context (Q : ExecutionOutcome → Process W → Prop).
Context (Hearly : ∀ o s, declined o → hosting p (idle held permits) s → Q o s).
#[local] Abbreviation fails := (λ err s, err = DispatchInternal ∧ settled p held permits s).

Lemma checked_rule (rest : rt ExecutionOutcome) R :
  triple (hosting p (idle held permits)) rest Q R →
  triple (hosting p (idle held permits)) (unless (pre_check e registration deadline) rest) Q R.
Proof.
  intros Hrest. apply (unless_rule _ (hosting p (idle held permits))); [|done].
  eapply triple_post; [apply pre_check_rule|]. intros [o|] s [Hs Ho]; [|done]. by apply Hearly; [apply refusal_declined|].
Qed.

Lemma verified_rule {A} (m : stm W PasskeyVerificationError A) (k : A → rt ExecutionOutcome) R :
  inert m → (∀ v w, (m w).1 = Ok v → triple (hosting p (idle held permits)) (k v) Q R) →
  triple (hosting p (idle held permits)) (verified_by m k) Q R.
Proof.
  intros Hm Hk. apply verified_by_rule; [done| |done]. intros err s Hs. by apply Hearly; [destruct err; split|].
Qed.

Lemma find_pending_rule key (k : option PendingPasskeyCreation → rt ExecutionOutcome) :
  PendingPasskeysMutex ∉ held → (∀ found, triple (hosting p (idle held permits)) (k found) Q fails) →
  triple (hosting p (idle held permits)) (found ← in_world (find_pending key); k found) Q fails.
Proof.
  intros Hm Hk. unfold find_pending. eapply (triple_bind _ _ _ (λ _, hosting p (idle held permits))); [|exact Hk].
  eapply triple_weaken; [apply (pending_mutex_rule p (λ _, True) held permits (λ _ _, True)); [done|apply stable_idle|]|done|done|].
  - by intros x.
  - intros err s [-> Hs]. split; [done|by apply hosting_settled].
Qed.

(** The request names its own creation. *)
Lemma expected_creation_rule (key : PendingPasskeyCreationKey) (c : bytes) (process : Z) (confirmable : bool)
    (k : PendingPasskeyCreation → rt ExecutionOutcome) :
  PendingPasskeysMutex ∉ held →
  (∀ expected, pp_credential_id expected = c → triple (hosting p (idle held permits)) (k expected) Q fails) →
  triple (hosting p (idle held permits)) (expected_creation e key c process confirmable k) Q fails.
Proof.
  intros Hm Hk. unfold expected_creation. apply find_pending_rule; [done|].
  intros [expected|]; [|apply triple_ret; intros s Hs; by apply Hearly].
  destruct (_ || _) eqn:Hb; [apply triple_ret; intros s Hs; by apply Hearly|].
  repeat apply orb_false_iff in Hb as [Hb ?]. simp_guards. by apply Hk.
Qed.
End early.

Section operations.
Context (p : Process W) (held : gset MutexName) (permits : gset FlagName).
Context (e : Z) (registration : RequestRegistration) (deadline : Z).
Context (Hheld : no_pending_guard held) (Hpermits : MutationFlag ∉ permits) (Hc : consistent p).
#[local] Abbreviation with_mutation := ({[MutationFlag]} ∪ permits).
#[local] Abbreviation inside := ({[CommitGate]} ∪ ({[VaultMutex]} ∪ held)).
#[local] Abbreviation concludes_now := (λ update O,
  concluded p held permits deadline update O (λ _, True) e registration).

(** What the runtime responds once the file is written, with both guards held. *)
Definition presents {A} (G : Shared → Prop) (update : A → gmap bytes DecryptedRecord → gmap bytes DecryptedRecord → Prop)
    (O : A → ExecutionOutcome → Prop) (present : A → rt ExecutionOutcome) : Prop :=
  ∀ key m m' a s0, update a m m' → in_sync s0 key m' →
    triple (hosting s0 (holding inside with_mutation G)) (present a)
      (λ o s, O a o ∧ hosting s0 (idle inside with_mutation) s)
      (λ err s, err = DispatchInternal ∧ hosting s0 (idle inside with_mutation) s).

Lemma passkey_mutation_rule {A : Type} (G : Shared → Prop) (before : stm W StorageError unit) (mutate : ag (W:=W) AccountError A)
    (update : A → gmap bytes DecryptedRecord → gmap bytes DecryptedRecord → Prop) (O : A → ExecutionOutcome → Prop)
    (present : A → rt ExecutionOutcome) :
  gates ({[VaultMutex]} ∪ held) with_mutation G (λ w, in_time w deadline) before → (∀ x, G x → authorised e registration x) →
  (∀ q key m, in_sync q key m → admissible before (world q) → updates q key m before mutate update) →
  (∀ q, locked (agent q) → mutate q = (Err AccountLocked, q)) →
  presents G update O present →
  triple (hosting p (idle held permits))
    (with_flag MutationFlag (unless (pre_check e registration deadline) (mutate_vault e registration deadline mutate present)))
    (concludes_now update O) (λ err s, err = DispatchInternal ∧ settled p held permits s).
Proof.
  intros Hg Ha Hm Hl Hp. destruct Hheld as [Hh _]. apply handler_rule; [done..|].
  apply (mutate_vault_rule p held with_mutation before G); try done. intros key m m' a s0 _ Hu Hin _.
  eapply triple_weaken; [by apply (Hp key m m' a s0)|done| |done]. intros o s [? ?]. by split_and!.
Qed.

(** The same when nothing but the response follows. *)
Lemma passkey_response_rule {A : Type} (mutate : ag (W:=W) AccountError A)
    (update : A → gmap bytes DecryptedRecord → gmap bytes DecryptedRecord → Prop) (enc : A → result ProtocolError bytes) :
  (∀ a m m' key s, update a m m' → in_sync s key m' → enc a ≠ Panic) →
  (∀ q key m, in_sync q key m → admissible (commit_check e registration deadline) (world q) →
    updates q key m (commit_check e registration deadline) mutate update) →
  (∀ q, locked (agent q) → mutate q = (Err AccountLocked, q)) →
  triple (hosting p (idle held permits))
    (with_flag MutationFlag (unless (pre_check e registration deadline) (mutate_vault e registration deadline mutate
      (λ a, body ← encoded (enc a); mret (commit_point (success body))))))
    (concludes_now update (λ a, grants (enc a))) (λ err s, err = DispatchInternal ∧ settled p held permits s).
Proof.
  intros Henc Hm Hl. destruct Hheld as [(? & ? & ?) _].
  apply (passkey_mutation_rule (authorised e registration) (commit_check e registration deadline)); try done.
  - apply commit_check_gates. set_solver.
  - intros key m m' a s0 Hu Hin. eapply (triple_from (hosting s0 (idle inside with_mutation)));
      [intros s (? & ? & ? & ? & ? & _); by split_and!|]. apply granted_rule. by eapply (Henc a m m' key s0).
Qed.

Lemma delete_passkey_rule c :
  triple (hosting p (idle held permits)) (delete_passkey e registration deadline c)
    (concludes_now (λ _, passkey_deleted c) (λ _ : unit, grants encode_empty_result))
    (λ err s, err = DispatchInternal ∧ settled p held permits s).
Proof.
  unfold delete_passkey, committed_empty. apply (passkey_response_rule _ (λ _, passkey_deleted c) (λ _, encode_empty_result)).
  - intros. apply encode_empty_result_ok.
  - intros q key m Hin Hb. by apply delete_passkey_updates; [|apply should_abort_watches|].
  - intros. by apply (locked_mutation _ _ _ (λ _, tt)).
Qed.

Lemma declines_early {A} (update : A → gmap bytes DecryptedRecord → gmap bytes DecryptedRecord → Prop) O o s :
  declined o → hosting p (idle held permits) s → concludes_now update O o s.
Proof. intros. by apply concluded_early. Qed.

Lemma asserted_encodes rp c hash (a : PasskeyAssertion) m m' key s :
  passkey_asserted rp c hash a m m' → in_sync s key m' → encode_passkey_assertion (assertion_view a) ≠ Panic.
Proof.
  intros (q & _ & _ & _ & _ & Hid & _ & Hd & _ & ->) Hin.
  destruct (in_sync_wf _ _ _ _ _ Hin (lookup_insert_eq _ _ _)) as (((mo & Hw) & _) & _).
  rewrite encode_passkey_assertion_spec; [by case_decide|..]; cbn [assertion_view as_credential_id as_authenticator_data].
  - rewrite Hid. apply Hw.
  - rewrite Hd. unfold authenticator_data_of. rewrite !length_app, sha256_length, length_to_be_bytes. done.
Qed.

Lemma get_passkey_assertion_rule proof c :
  triple (hosting p (idle held permits)) (get_passkey_assertion e registration deadline proof c)
    (concludes_now (λ a m m', ∃ v, (∃ w, (verify_assertion proof c w).1 = Ok v)
        ∧ passkey_asserted (vr_rp_id v) c (vr_client_data_hash v) a m m')
      (λ a, grants (encode_passkey_assertion (assertion_view a))))
    (λ err s, err = DispatchInternal ∧ settled p held permits s).
Proof.
  unfold get_passkey_assertion. apply checked_rule; [apply declines_early|].
  apply verified_rule; [apply declines_early|apply verify_assertion_inert|]. intros v w Hv.
  apply (passkey_response_rule _ _ (λ a, encode_passkey_assertion (assertion_view a))).
  - intros a m m' key s (v' & _ & Ha) Hin. by eapply asserted_encodes.
  - intros q key m Hin Hb. eapply updates_weaken; [|by apply assert_passkey_updates; [|apply should_abort_watches|]].
    intros a m' Ha. exists v. split; [by exists w|done].
  - intros. by apply (locked_mutation _ _ _ snd).
Qed.

Lemma committed_empty_rule q F :
  triple (hosting q F) committed_empty (λ o s, grants encode_empty_result o ∧ hosting q F s)
    (λ err s, err = DispatchInternal ∧ hosting q F s).
Proof. apply granted_rule, encode_empty_result_ok. Qed.

(** The creation that was found pending becomes a confirmed one. *)
Lemma confirm_pending_rule s0 key expected :
  triple (hosting s0 (holding inside with_mutation (still_pending e registration key expected)))
    (in_world (confirm_pending key expected)) (λ _, hosting s0 (idle inside with_mutation))
    (λ err s, err = DispatchInternal ∧ hosting s0 (idle inside with_mutation) s).
Proof.
  destruct Hheld as [(? & ? & ?) Hm].
  destruct (pending_check_gates ({[VaultMutex]} ∪ held) with_mutation e registration deadline key expected) as (_ & Hst & _);
    [set_solver..|].
  eapply triple_weaken; [apply (pending_mutex_rule s0 (still_pending e registration key expected) inside with_mutation (λ _ _, True))|done|done|done];
    [set_solver|exact Hst|].
  intros x Hp [Hau Hx]. change (pending_creations (set_held _ x)) with (pending_creations x). rewrite Hx.
  rewrite bool_decide_false by auto. split; [|done]. split; try done. intros _.
  apply (gone_insert key (confirmed expected) x); [|done]. intros Hd. apply elem_of_gone. by exists expected.
Qed.

Lemma confirm_passkey_creation_rule proof c connection_id process :
  triple (hosting p (idle held permits))
    (confirm_passkey_creation e registration deadline proof c connection_id process)
    (concludes_now (λ _, passkey_confirmed c) (λ _ : unit, grants encode_empty_result))
    (λ err s, err = DispatchInternal ∧ settled p held permits s).
Proof.
  pose proof Hheld as [(? & ? & ?) ?]. unfold confirm_passkey_creation. apply checked_rule; [apply declines_early|].
  apply verified_rule; [apply declines_early|apply verify_make_inert|]. intros v w _. cbv zeta.
  set (pending_key := {| pk_connection_id := connection_id; pk_transaction_id := _ |}).
  apply expected_creation_rule; [done|apply declines_early|done|]. intros expected <-.
  apply (passkey_mutation_rule (still_pending e registration pending_key expected)
    (take_gate (commit_refused e registration deadline (pending_is_exact pending_key expected)))).
  - apply pending_check_gates; set_solver.
  - by intros x [? _].
  - intros q key m Hin Hb. by apply confirm_passkey_updates; [|apply should_abort_watches|].
  - intros. by apply (locked_mutation _ _ _ (λ _, tt)).
  - intros key m m' a s0 Hu Hin. eapply triple_bind; [apply confirm_pending_rule|intros ?]. apply committed_empty_rule.
Qed.

(** The pending creation is forgotten, with the vault held. *)
Lemma rolled_back_rule s0 held' key expected :
  PendingPasskeysMutex ∉ held' →
  triple (hosting s0 (idle held' with_mutation))
    (removed ← in_world (remove_pending key);
     if bool_decide (is_Some removed ∧ removed ≠ Some expected) then throw DispatchInternal else committed_empty)
    (λ o s, grants encode_empty_result o ∧ hosting s0 (idle held' with_mutation) s)
    (λ err s, err = DispatchInternal ∧ hosting s0 (idle held' with_mutation) s).
Proof.
  intros Hm. unfold remove_pending. eapply (triple_bind _ _ _ (λ _, hosting s0 (idle held' with_mutation))).
  - eapply triple_weaken; [apply (pending_mutex_rule s0 (λ _, True) held' with_mutation (λ _ _, True)); [done|apply stable_idle|]|done|done|done].
    intros x Hp _. split; [|by split_and!]. split; try done. intros _. cbn. etrans; [by eapply (gone_delete key x)|set_solver].
  - intros removed. case_bool_decide; [by intros s Hs|apply committed_empty_rule].
Qed.

(** A rollback of a passkey that is not there succeeds, too. *)
Definition already_gone (o : ExecutionOutcome) (s : Process W) : Prop :=
  grants encode_empty_result o ∧ settled p held permits s.

Lemma delete_or_gone_rule c key expected :
  triple (hosting p (idle held with_mutation))
    (let rolled_back :=
       removed ← in_world (remove_pending key);
       if bool_decide (is_Some removed ∧ removed ≠ Some expected) then throw DispatchInternal else committed_empty in
     mutate_vault_or e registration deadline
       (delete_passkey_with_before_commit_and_check c (should_abort e registration deadline)
         (commit_check e registration deadline)) (λ _, rolled_back) rolled_back)
    (λ o s, concluded p held with_mutation deadline (λ _ : unit, passkey_deleted c)
        (λ _ : unit, grants encode_empty_result) (λ _, True) e registration o s
      ∨ grants encode_empty_result o ∧ settled p held with_mutation s)
    (λ err s, err = DispatchInternal ∧ settled p held with_mutation s).
Proof.
  pose proof Hheld as [Hh Hm]. pose proof Hh as (Hv & Hg & Hcm). cbv zeta.
  apply (mutate_vault_or_rule p held with_mutation (commit_check e registration deadline) (authorised e registration)); try done.
  - apply commit_check_gates. set_solver.
  - intros q k m Hin Hb. by apply delete_passkey_updates; [|apply should_abort_watches|].
  - intros. by apply (locked_mutation _ _ _ (λ _, tt)).
  - intros k m m' [] s0 _ Hu Hin _. eapply (triple_from (hosting s0 (idle inside with_mutation)));
      [intros s (? & ? & ? & ? & ? & _); by split_and!|].
    eapply triple_post; [apply (rolled_back_rule s0 inside); set_solver|]. intros o s [? ?]. by split_and!.
  - intros s0 Hq Ht. eapply triple_weaken; [apply (rolled_back_rule s0 ({[VaultMutex]} ∪ held)); set_solver|done|..].
    + intros o s [Ho Hs]. right. split; [done|]. pose proof (hosting_same_vault _ _ _ Hs) as Hsame.
      apply (settled_drops p held _ ({[VaultMutex]} ∪ held)); [set_solver|by apply Hs| |].
      * eapply consistent_same_vault; [exact Hsame|by eapply others_had_consistent].
      * destruct Hs as (_ & _ & ? & _). passing.
    + intros err s [-> Hs].
      apply (broken_ends p held with_mutation Hc s0 ({[VaultMutex]} ∪ held)); [exact Hq|done|set_solver|by apply hosting_shaken].
Qed.

Lemma rollback_passkey_creation_rule proof c connection_id process :
  triple (hosting p (idle held permits))
    (rollback_passkey_creation e registration deadline proof c connection_id process)
    (λ o s, concludes_now (λ _ : unit, passkey_deleted c) (λ _ : unit, grants encode_empty_result) o s ∨ already_gone o s)
    (λ err s, err = DispatchInternal ∧ settled p held permits s).
Proof.
  pose proof Hheld as [_ Hm].
  assert (∀ o s, declined o → hosting p (idle held permits) s →
    concludes_now (λ _ : unit, passkey_deleted c) (λ _ : unit, grants encode_empty_result) o s ∨ already_gone o s) as Hearly
    by (left; by apply declines_early).
  unfold rollback_passkey_creation. apply checked_rule; [exact Hearly|].
  apply verified_rule; [exact Hearly|apply verify_make_inert|]. intros v w _. cbv zeta.
  apply expected_creation_rule; [done|exact Hearly|done|]. intros expected <-.
  apply with_flag_rule; [done|intros s Hs; by apply Hearly|].
  eapply (triple_weaken _ _ _ (λ o s, concluded p held with_mutation deadline (λ _ : unit, passkey_deleted (pp_credential_id expected))
      (λ _ : unit, grants encode_empty_result) (λ _, True) e registration o s ∨ grants encode_empty_result o ∧ settled p held with_mutation s)
    _ (λ err s, err = DispatchInternal ∧ settled p held with_mutation s)); [|intros s Hs; exact Hs|..].
  - assert (∀ o s, declined o → hosting p (idle held with_mutation) s → concluded p held with_mutation deadline
      (λ _ : unit, passkey_deleted (pp_credential_id expected)) (λ _ : unit, grants encode_empty_result) (λ _, True) e registration o s
      ∨ grants encode_empty_result o ∧ settled p held with_mutation s) as Hlate by (left; by apply concluded_early).
    apply checked_rule; [exact Hlate|]. apply verified_rule; [exact Hlate|apply remove_cached_credential_inert|].
    intros _ _ _. apply checked_rule; [exact Hlate|]. apply delete_or_gone_rule.
  - intros o s [?|[? ?]]; [left; by apply concluded_flag|right; split; [done|by apply settled_flag]].
  - intros err s [-> Hs]. split; [done|by apply settled_flag].
Qed.
End operations.
End passkeys.
