(* ===== verification/RollbackRefine.v ===== *)
(** * Rolling back, and creating passkeys

    Before a passkey is created, the creations that connections left behind when they
    ended are rolled back, one after the other.  Each round takes the vault and the
    commit gate anew, and removes one of them; so the loop ends once no connection
    ends any more. *)

From S2P Require Import Prelude RustStd Cbor Wire Types Message Session Operations Browser VaultFormat VaultRecords VaultKeys VaultStore VaultCore VaultRefine Storage Agent AgentRefine Outcome Idempotency Ownership Threads Runtime Fill Passkeys Rely RuntimeRefine ReadRefine PasskeyRefine.

Section rollback.
Context `{MinicborLaws, CryptoLaws, UrlLaws}.
Context {W : Type} `{AgentLaws W, !EnvLaws W, !Threads W, !Connections, !ThreadsModel W, !ThreadsLaws W, !StorageLaws W, !PasskeyRequestVerifier W, !VerifierLaws W}.
Abbreviation rt A := (ag (W:=W) DispatchError A).

(** ** Last checks without a request *)

Lemma take_gate_gates held permits (refused : stm W StorageError bool) :
  CommitGate ∉ held →
  (∀ w0, triple (following w0 (idle ({[CommitGate]} ∪ held) permits)) refused
    (λ _, following w0 (idle ({[CommitGate]} ∪ held) permits))
    (λ e, following w0 (holding ({[CommitGate]} ∪ held) permits (λ _, e = StorageConflict)))) →
  gates held permits (λ _, True) (λ _, True) (take_gate refused).
Proof.
  intros Hg Hr. set (inside := {[CommitGate]} ∪ held) in *. split_and!; [done|apply stable_idle|done|]. intros w0.
  assert (inside ∖ {[CommitGate]} = held) as Hback by (subst inside; set_solver).
  unfold take_gate. eapply (triple_bind _ _ _ (λ _, following w0 (idle inside permits))).
  { eapply triple_weaken; [apply (acquire_rule (idle held permits) (idle inside permits))|done|done|].
    - apply stable_idle.
    - intros x (Hh & Hp & _). split; [by rewrite Hh|]. split_and!; [by cbn; rewrite Hh|done|done].
    - intros e w Hw. eapply following_weaken; [|exact Hw]. intros x [(? & ? & _) ->]. split_and!; auto. }
  intros [] w Hw. specialize (Hr w0 w Hw). destruct (refused w) as [[[]|e|] w']; [| | |done].
  - eapply drop_guard_rule; [|exact Hr]. intros x (Hh & ? & _). split_and!; [by cbn; rewrite Hh|done|by right].
  - by split.
  - eapply drop_guard_rule; [|exact Hr]. intros x (Hh & ? & ->). split_and!; [by cbn; rewrite Hh|done|by left].
Qed.

Lemma refused_or_else {E} w0 held permits (a b : stm W E bool) K :
  triple (following w0 (idle held permits)) a (λ _, following w0 (idle held permits)) K →
  triple (following w0 (idle held permits)) b (λ _, following w0 (idle held permits)) K →
  triple (following w0 (idle held permits)) (or_else a b) (λ _, following w0 (idle held permits)) K.
Proof. intros Ha Hb. unfold or_else. eapply triple_bind; [exact Ha|]. intros []; [by apply triple_ret|exact Hb]. Qed.
Lemma idle_look {E A} w0 held permits (f : Shared → A) (K : E → W → Prop) :
  triple (following w0 (idle held permits)) (observe f) (λ _, following w0 (idle held permits)) K.
Proof. apply look_rule; [apply stable_idle|done]. Qed.
Lemma idle_state {E A} w0 held permits (f : AgentState → A) (K : E → W → Prop) :
  triple (following w0 (idle held permits)) (state ← the_state; mret (f state)) (λ _, following w0 (idle held permits)) K.
Proof. eapply triple_bind; [apply idle_look|intros st; by apply triple_ret]. Qed.
Lemma idle_epoch {E} w0 held permits e (K : E → W → Prop) :
  triple (following w0 (idle held permits)) (other_epoch e) (λ _, following w0 (idle held permits)) K.
Proof. unfold other_epoch. eapply triple_bind; [apply idle_look|intros n; by apply triple_ret]. Qed.

Lemma cleanup_gates held permits e key pending :
  CommitGate ∉ held → PendingPasskeysMutex ∉ held →
  gates held permits (λ _, True) (λ _, True) (take_gate (W:=W) (cleanup_refused e (pending_is_exact key pending))).
Proof.
  intros Hg Hm. apply take_gate_gates; [done|]. intros w0. set (inside := {[CommitGate]} ∪ held).
  unfold cleanup_refused, pending_is_exact. eapply (triple_bind _ _ _ (λ _, following w0 (idle inside permits))).
  - apply triple_map_err. eapply triple_weaken; [apply (with_mutex_rule (idle inside permits) (λ _, idle inside permits)
      (λ _, idle inside permits))|done|done|].
    + apply stable_idle.
    + intros x (Hh & ? & _). rewrite Hh. split_and!; [subst inside; set_solver|done..].
    + intros x (Hh & ? & _). split; [by split|]. split_and!; [cbn; rewrite Hh; subst inside; set_solver|done..].
    + intros e' w Hw. eapply following_weaken; [|exact Hw]. by intros x (? & ? & _).
  - intros b. repeat apply refused_or_else; [apply idle_epoch|apply idle_look|by apply triple_ret].
Qed.

(** ** One round *)

Lemma first_disconnected_spec (m : gmap PendingPasskeyCreationKey PendingPasskeyCreation) :
  match first_disconnected m with
  | Some (key, pending) => m !! key = Some pending ∧ pp_disconnected pending = true
  | None => ∀ key pending, m !! key = Some pending → pp_disconnected pending = false
  end.
Proof.
  unfold first_disconnected. set (l := sort_by _ (map_to_list m)).
  assert (∀ e, e ∈ l ↔ m !! e.1 = Some e.2) as Hl.
  { intros [k v]. unfold l. rewrite sort_by_perm, elem_of_map_to_list. done. }
  destruct (filter _ l) as [|[k v] l'] eqn:Hf; cbn.
  - intros k v Hk. apply not_true_iff_false. intros Hd.
    assert ((k, v) ∈ filter (λ e : PendingPasskeyCreationKey * PendingPasskeyCreation, pp_disconnected e.2 = true) l) as Hin.
    { apply list_elem_of_filter. split; [done|by apply Hl]. }
    rewrite Hf in Hin. by apply elem_of_nil in Hin.
  - assert ((k, v) ∈ filter (λ e : PendingPasskeyCreationKey * PendingPasskeyCreation, pp_disconnected e.2 = true) l) as Hin.
    { rewrite Hf. apply elem_of_cons. by left. }
    apply list_elem_of_filter in Hin as [? Hin]. by apply Hl in Hin.
Qed.

Lemma cleanup_should_abort_watches e : watches (cleanup_should_abort (W:=W) e).
Proof.
  intros w. unfold cleanup_should_abort.
  match goal with |- context [or_else (E:=unit) ?a ?b] => assert (inert (or_else (E:=unit) a b)) as Hi end.
  { apply or_else_inert; [|apply observe_inert]. apply inert_bind; [apply observe_inert|intros; apply inert_ret]. }
  destruct (Hi w) as [_ [_ ?]]. by destruct (or_else _ _ w) as [r w'].
Qed.

Section round.
Context (p : Process W) (held : gset MutexName) (permits : gset FlagName).
Context (Hheld : no_pending_guard held) (Hc : consistent p).
#[local] Abbreviation inside := ({[VaultMutex]} ∪ held).
#[local] Abbreviation fails := (λ err s, err = DispatchInternal ∧ settled p held permits (drops s)).

(** How a round ends, before the guards are dropped: [None] if another follows, and
    then [key] waits no more. *)
Definition round_ends (key : PendingPasskeyCreationKey) (o : option bool) (s : Process W) : Prop :=
  o ≠ Some true ∧ settled p held permits (drops s) ∧ (o = None → quiet → key ∉ gone (shared (world (drops s)))).

Lemma gone_passes w w' key : quiet → passes w w' → key ∉ gone (shared w) → key ∉ gone (shared w').
Proof. intros Hq [_ [_ _ _ _ Hg]] Hk Hk'. by apply Hk, Hg. Qed.

Lemma forget_rule held' key pending s0 :
  held' ∖ {[VaultMutex]} ∖ {[CommitGate]} = held → PendingPasskeysMutex ∉ held' →
  resting held' permits s0 → consistent s0 → passes (world p) (world s0) →
  triple (λ s, s = s0)
    (removed ← in_world (remove_pending key);
     if bool_decide (removed ≠ Some pending) then throw DispatchInternal else mret None)
    (round_ends key) fails.
Proof.
  intros Hh Hm Hr Hc0 Ht.
  assert (∀ F s, hosting s0 (holding held' permits F) s → settled p held permits (drops s)) as Hset.
  { intros F s Hs. pose proof (hosting_same_vault _ _ _ Hs) as Hsame. destruct Hs as (_ & _ & ? & ? & ? & _).
    apply (settled_drops p held permits held'); [done|by split_and!|by eapply consistent_same_vault|passing]. }
  apply (triple_from (hosting s0 (idle held' permits))); [by intros ? ->; apply hosting_refl|].
  eapply (triple_bind _ _ _ (λ _, hosting s0 (holding held' permits (λ x, key ∉ gone x)))).
  - unfold remove_pending. eapply triple_weaken; [apply (pending_mutex_rule s0 (λ _, True) held' permits (λ _ x, key ∉ gone x));
      [done|apply stable_idle|]|done|done|].
    + intros x Hp _. cbn. match goal with |- context [set_pending ?f ?y] =>
        pose proof (gone_delete key x (set_pending f y) eq_refl) as Hg end.
      split; [split; try done; intros _; etrans; [exact Hg|set_solver]|]. split_and!; [done..|].
      intros Hk. apply Hg in Hk. set_solver.
    + intros err s [-> Hs]. split; [done|by eapply Hset].
  - intros removed. case_bool_decide; [intros s Hs; split; [done|by eapply Hset]|]. apply triple_ret. intros s Hs.
    split_and!; [done|by eapply Hset|]. intros _ Hq. destruct (drops_same s) as [_ Hd]. apply (gone_passes (world s)); [done|done|].
    by destruct Hs as (_ & _ & _ & _ & _ & ?).
Qed.

Lemma round_deletes key pending q :
  pp_disconnected pending = true → others_had p q → resting inside permits q → passes (world p) (world q) → ∀ e,
  triple (λ s, s = q) (delete_pending key pending e) (round_ends key) fails.
Proof.
  intros Hd Hq Hr Ht e. pose proof Hheld as [(Hv & Hg & Hcm) Hm].
  assert (consistent q) as Hcq by (by eapply others_had_consistent).
  set (after := after held permits (λ _, True) (λ _, True) (λ _ : unit, passkey_deleted (pp_credential_id pending))).
  assert (∀ error s, after q (Err error) s → resting inside permits s → error ≠ AccountFailed →
    consistent s ∧ passes (world p) (world s)) as Hkept.
  { intros error s Ha Hs Hne. destruct (after_error held permits (λ _, True) (λ _, True) _ q error s Ha) as [?|(_ & Hsame & Hps)]; [done|].
    split; [by eapply consistent_same_vault|passing]. }
  apply (mutate_rule held permits (take_gate (cleanup_refused e (pending_is_exact key pending))) (λ _, True) (λ _, True)
    (λ _ : unit, passkey_deleted (pp_credential_id pending))); try done.
  - apply cleanup_gates; set_solver.
  - intros q' k m Hin Hb. by apply delete_passkey_updates; [|apply cleanup_should_abort_watches|].
  - intros. by apply (locked_mutation _ _ _ (λ _, tt)).
  - intros [] s (Hps & k & m & m' & _ & _ & Hin & (Hh & Hp & _) & _).
    apply (forget_rule ({[CommitGate]} ∪ inside)); [set_solver|set_solver|by split_and!|right; by exists k, m'|passing].
  - intros error s Ha Hs. assert (error ≠ AccountFailed → round_ends key (Some false) s) as Hend.
    { intros Hne. destruct (Hkept error s Ha Hs Hne). split_and!; [done| |done]. by apply (settled_drops p held permits inside); [set_solver|..]. }
    destruct error; try (by apply triple_ret; intros ? ->; apply Hend).
    + destruct (Hkept AccountNotFound s Ha Hs) as [? ?]; [done|]. by apply (forget_rule inside); [set_solver|set_solver|..].
    + intros ? ->. split; [done|]. by apply Hend.
    + destruct Ha as (Hps & _ & Hl & _).
      assert (∀ s', locked (agent s') → following (world s) (idle held permits) (world s') → settled p held permits (drops s')) as Hset.
      { intros s' Hl' (_ & Hps' & Hi). apply (settled_drops p held permits held); [set_solver|done|by left|passing]. }
      eapply (triple_bind _ _ _ (λ _ s', settled p held permits (drops s'))); [|intros o s' Hs'; by split].
      eapply triple_weaken; [by apply (account_failed_rule s held permits)|by intros ? ->; apply hosting_refl|..].
      * intros o s' (_ & ? & ?). by apply Hset.
      * intros err s' (-> & ? & ?). split; [done|by apply Hset].
Qed.

(** What a round leaves: [None] if it rolled a creation back, and another follows. *)
Definition rolled (o : option bool) (s : Process W) : Prop :=
  settled p held permits s ∧ (quiet → match o with
    | None => gone (shared (world s)) ⊂ gone (shared (world p))
    | Some true => gone (shared (world s)) = ∅
    | Some false => True
    end).

Lemma round_vault_rule key pending e :
  pp_disconnected pending = true → (quiet → key ∈ gone (shared (world p))) →
  triple (hosting p (idle held permits)) (delete_disconnected key pending e)
    (λ o s, o ≠ Some true ∧ rolled o s) (λ err s, err = DispatchInternal ∧ settled p held permits s).
Proof.
  intros Hd Hk. pose proof Hheld as [(Hv & Hg & Hcm) Hm]. set (Q o s := o ≠ Some true ∧ rolled o (drops s)).
  assert (∀ o s, round_ends key o s → Q o s) as Hends.
  { intros o s (Ho & Hs & Hn). split; [done|]. split; [done|]. intros Hq. destruct o as [[]|]; [done|done|].
    specialize (Hn eq_refl Hq). destruct Hs as (_ & _ & Hps). pose proof Hps as [_ [_ _ _ _ Hsub]]. specialize (Hsub Hq).
    specialize (Hk Hq). set_solver. }
  unfold delete_disconnected, with_commit_guard. apply finally_rule. apply with_vault_rule; [done| |].
  2: { intros q Hq Hr Ht. split; [done|].
    destruct (drop_rule q (idle held permits) (idle held permits) CommitGate q) as (? & (? & ?) & ? & ?).
    - intros x Hx%(idle_drop _ _ CommitGate). assert (held ∖ {[CommitGate]} = held) as Hh by set_solver. by rewrite Hh in Hx.
    - by apply hosting_refl.
    - split_and!; [done|eapply (consistent_same_vault q); [done|by eapply others_had_consistent]|passing]. }
  intros q Hq Hr Ht.
  match goal with |- triple _ ?m _ _ => change (triple (λ s, s = q) m Q fails) end.
  apply (triple_from (hosting q (idle inside permits))); [by intros ? ->; apply hosting_refl|].
  eapply (triple_bind _ _ _ (λ _, hosting q (idle inside permits))).
  { eapply triple_weaken; [apply (call_rule q (idle inside permits) _ (λ _, idle inside permits) (λ _ _, False))|done|done|by intros ? ? (_ & _ & _ & ?)].
    repeat apply refused_or_else; [apply idle_state|apply idle_epoch|apply idle_look]. }
  intros revoked. apply triple_pre. intros s Hs. pose proof (hosting_same_vault _ _ _ Hs) as Hsame.
  assert (others_had p s) as Hq' by (by eapply others_had_same).
  assert (passes (world p) (world s)) as Ht' by (destruct Hs as (_ & _ & ? & _); passing).
  assert (resting inside permits s) as Hr' by apply Hs.
  destruct revoked.
  - apply triple_ret. intros ? ->. apply Hends. split_and!; [done| |done].
    apply (settled_drops p held permits inside); [set_solver|done|by eapply others_had_consistent|done].
  - eapply triple_post; [by apply (round_deletes key pending s)|]. exact Hends.
Qed.

Lemma round_rule :
  triple (hosting p (idle held permits)) rollback_round rolled (λ err s, err = DispatchInternal ∧ settled p held permits s).
Proof.
  pose proof Hheld as [_ Hm].
  assert (∀ F s, hosting p (holding held permits F) s → settled p held permits s) as Hset.
  { intros F s Hs. apply (hosting_settled p held permits Hc). destruct Hs as (? & ? & ? & ? & ? & _). by split_and!. }
  assert (∀ s, hosting p (idle held permits) s → rolled (Some false) s) as Hstop.
  { intros s Hs. split; [by eapply Hset|done]. }
  unfold rollback_round. eapply (triple_bind _ _ _ (λ c, hosting p (holding held permits (λ x, c = first_disconnected (pending_creations x))))).
  { eapply triple_weaken; [apply (pending_mutex_rule p (λ _, True) held permits
      (λ c x, c = first_disconnected (pending_creations x))); [done|apply stable_idle|]|done|done|].
    - intros x Hp _. by split.
    - intros err s [-> Hs]. split; [done|by eapply Hset]. }
  intros c. pose proof (λ s, first_disconnected_spec (pending_creations (shared (world s)))) as Hspec.
  destruct c as [[key pending]|].
  2: { apply triple_ret. intros s Hs. split; [by eapply Hset|]. intros _. destruct Hs as (_ & _ & _ & _ & _ & Hx).
    specialize (Hspec s). rewrite <-Hx in Hspec. apply set_eq. intros k. split; [|set_solver].
    intros (v & Hv & Hd)%elem_of_gone. by rewrite (Hspec k v Hv) in Hd. }
  apply (triple_pre (hosting p (holding held permits (λ x, Some (key, pending) = first_disconnected (pending_creations x))))).
  intros s0 Hs0. pose proof Hs0 as (_ & _ & [_ [_ _ _ _ Hg]] & _ & _ & Hx). specialize (Hspec s0). rewrite <-Hx in Hspec.
  destruct Hspec as [Hk Hd]. assert (quiet → key ∈ gone (shared (world p))) as Hkey.
  { intros Hq. apply (Hg Hq), elem_of_gone. by exists pending. }
  apply (triple_from (hosting p (idle held permits))).
  { intros ? ->. destruct Hs0 as (? & ? & ? & ? & ? & _). by split_and!. }
  eapply (triple_bind _ _ _ (λ _, hosting p (idle held permits))).
  { eapply triple_weaken; [apply (call_rule p (idle held permits) _ (λ _, idle held permits) (λ _ _, False))|done|done|by intros ? ? (_ & _ & _ & ?)].
    apply refused_or_else; [apply idle_state|apply idle_look]. }
  intros []; [by apply triple_ret|]. eapply triple_bind; [apply attempt_inert_rule, remove_cached_credential_inert|].
  intros r; cbn beta. apply (triple_from (hosting p (idle held permits))); [by intros s [? _]|].
  destruct (negb (is_ok r)); [by apply triple_ret|].
  eapply (triple_bind _ _ _ (λ _, hosting p (idle held permits))).
  { eapply triple_weaken; [apply (call_rule p (idle held permits) _ (λ _, idle held permits) (λ _ _, False))|done|done|by intros ? ? (_ & _ & _ & ?)].
    apply idle_look. }
  intros e. eapply triple_post; [by apply round_vault_rule|]. by intros o s [_ ?].
Qed.
End round.

Lemma settled_trans p q held permits s : settled p held permits q → settled q held permits s → settled p held permits s.
Proof. intros (_ & _ & ?) (? & ? & ?). split_and!; [done|done|by etrans]. Qed.

(** Enough rounds for all that wait, if no connection ends meanwhile. *)
Lemma rollback_rounds_rule held permits fuel p :
  no_pending_guard held → quiet → resting held permits p → consistent p → (size (gone (shared (world p))) < fuel)%nat →
  triple (λ s, s = p) (rollback_rounds fuel)
    (λ b s, settled p held permits s ∧ (b = true → gone (shared (world s)) = ∅))
    (λ err s, err = DispatchInternal ∧ settled p held permits s).
Proof.
  intros Hh Hq. revert p. induction fuel as [|fuel IH]; intros p Hr Hc Hf; [lia|]. cbn [rollback_rounds].
  eapply (triple_bind _ _ _ (λ o, rolled p held permits o)).
  { eapply triple_from; [|by apply round_rule]. intros ? ->. by apply hosting_refl. }
  intros [b|]; apply triple_pre; intros s [Hs Ho]; specialize (Ho Hq).
  - apply triple_ret. intros ? ->. split; [done|]. by intros ->.
  - pose proof Hs as (Hr' & Hc' & _). apply subset_size in Ho. eapply triple_weaken; [apply IH; [done|done|lia]|done|..].
    + intros b s' [? ?]. split; [by eapply settled_trans|done].
    + intros err s' [-> ?]. split; [done|by eapply settled_trans].
Qed.

Lemma rollback_rule held permits fuel p :
  no_pending_guard held → PasskeyCleanupGate ∉ held → quiet → consistent p → (size (gone (shared (world p))) < fuel)%nat →
  triple (hosting p (idle held permits)) (rollback_disconnected_passkey_creations fuel)
    (λ b s, settled p held permits s ∧ (b = true → gone (shared (world s)) = ∅))
    (λ err s, err = DispatchInternal ∧ settled p held permits s).
Proof.
  intros Hh Hm Hq Hc Hf. set (inside := {[PasskeyCleanupGate]} ∪ held).
  assert (no_pending_guard inside) as Hh' by (destruct Hh as [(? & ? & ?) ?]; subst inside; split_and!; set_solver).
  assert (inside ∖ {[PasskeyCleanupGate]} = held) as Hback by (subst inside; set_solver).
  assert (∀ s, settled p inside permits s → settled p held permits (on_world (drop_guard PasskeyCleanupGate) s)
    ∧ passes (world s) (world (on_world (drop_guard PasskeyCleanupGate) s))) as Hdrop.
  { intros s (Hr & Hcs & Hps). destruct (drop_rule s (idle inside permits) (idle held permits) PasskeyCleanupGate s) as (? & (? & ?) & ? & ?).
    - intros x Hx%(idle_drop _ _ PasskeyCleanupGate). by rewrite Hback in Hx.
    - by apply hosting_refl.
    - split; [|done]. split_and!; [done|by eapply (consistent_same_vault s)|passing]. }
  unfold rollback_disconnected_passkey_creations. apply (guarded_rule p (idle held permits) (idle inside permits)).
  - apply stable_idle.
  - intros x (Hx & Hp & _). rewrite Hx. split; [done|]. split_and!; [by cbn; rewrite Hx|done|done].
  - intros s Hs. split; [done|by apply hosting_settled].
  - apply triple_pre. intros s0 Hs0. pose proof (hosting_settled p inside permits Hc s0 Hs0) as Hset0.
    pose proof Hset0 as (Hr0 & Hc0 & Hps0). pose proof Hps0 as [_ [_ _ _ _ Hg]]. specialize (Hg Hq). apply subseteq_size in Hg.
    eapply triple_weaken; [apply (rollback_rounds_rule inside permits fuel s0); [done..|lia]|done|..].
    + intros b s [Hs Hb]. destruct (Hdrop s) as [? [_ [_ _ _ _ Hg']]]; [by eapply settled_trans|]. split; [done|].
      intros Hbt. specialize (Hb Hbt). specialize (Hg' Hq). rewrite Hb in Hg'. set_solver.
    + intros err s [-> Hs]. split; [done|]. apply Hdrop. by eapply settled_trans.
Qed.

(** ** Creating a passkey *)

Section making.
Context (p : Process W) (held : gset MutexName) (permits : gset FlagName).
Context (e : Z) (registration : RequestRegistration) (deadline : Z).
Context (Hheld : no_pending_guard held) (Hpermits : MutationFlag ∉ permits) (Hc : consistent p).
#[local] Abbreviation with_mutation := ({[MutationFlag]} ∪ permits).
#[local] Abbreviation inside := ({[CommitGate]} ∪ ({[VaultMutex]} ∪ held)).

Lemma created_encodes i excluded id (c : PasskeyCredential) m m' key s :
  passkey_added i excluded Pending c id m m' → in_sync s key m' → encode_passkey_credential (credential_view c) ≠ Panic.
Proof.
  intros (_ & _ & _ & _ & _ & q & <- & _ & _ & _ & _ & _ & _ & Hid & Hk & Hpk & ->) Hin.
  destruct (in_sync_wf _ _ _ _ _ Hin (lookup_insert_eq _ _ _)) as (((mo & Hw) & _) & _).
  rewrite encode_passkey_credential_spec; [by case_decide|..]; cbn [credential_view cv_credential_id cv_public_key].
  - rewrite <-Hid. apply Hw.
  - rewrite Hpk. by apply p256_point_length.
Qed.

(** The creation is remembered as pending, and the credential is given. *)
Lemma remember_rule s0 key pending (c : PasskeyCredential) F :
  pp_disconnected pending = false → encode_passkey_credential (credential_view c) ≠ Panic →
  (∀ x, holding inside with_mutation F x → idle inside with_mutation x) →
  triple (hosting s0 (holding inside with_mutation F))
    (previous ← in_world (insert_pending key pending);
     if bool_decide (is_Some previous) then throw DispatchInternal else
     body ← encoded (encode_passkey_credential (credential_view c));
     mret (commit_point (success body)))
    (λ o s, grants (encode_passkey_credential (credential_view c)) o ∧ hosting s0 (idle inside with_mutation) s)
    (λ err s, err = DispatchInternal ∧ hosting s0 (idle inside with_mutation) s).
Proof.
  intros Hd He HF. pose proof Hheld as [_ Hm].
  apply (triple_from (hosting s0 (idle inside with_mutation))).
  { intros s [? Hs]. split; [done|]. by eapply following_weaken. }
  eapply (triple_bind _ _ _ (λ _, hosting s0 (idle inside with_mutation))).
  - unfold insert_pending. eapply triple_weaken; [apply (pending_mutex_rule s0 (λ _, True) inside with_mutation (λ _ _, True));
      [set_solver|apply stable_idle|]|done|done|done].
    intros x Hp _. split; [|by split_and!]. split; try done. intros _. cbn. eapply (gone_insert key pending x); [|done].
    by rewrite Hd.
  - intros previous. case_bool_decide; [by intros s Hs|by apply granted_rule].
Qed.

(** What becomes of a request to create a passkey: the others' creations may have been
    rolled back before, up to [q]. *)
Definition creates (proof : PasskeyTransactionProof) (c : PasskeyCredential) (m m' : gmap bytes DecryptedRecord) : Prop :=
  ∃ v i id, (∃ w, (verify_make (W:=W) proof w).1 = Ok v)
    ∧ PasskeyInput_new (vm_rp_id v) (vm_user_handle v) (vm_user_name v) (vm_user_display_name v) = Ok i
    ∧ passkey_added i (vm_excluded_credential_ids v) Pending c id m m'.
Definition made (proof : PasskeyTransactionProof) (o : ExecutionOutcome) (s : Process W) : Prop :=
  ∃ q, settled p held permits q ∧ concluded q held permits deadline (creates proof)
    (λ c, grants (encode_passkey_credential (credential_view c))) (λ _, True) e registration o s.

Lemma passkey_input_not_Panic r h n d : PasskeyInput_new r h n d ≠ Panic.
Proof. pose proof normalize_rp_id_not_Panic. unfold PasskeyInput_new. no_panic. Qed.

Lemma make_passkey_rule fuel proof connection_id process :
  PasskeyCleanupGate ∉ held → quiet → (size (gone (shared (world p))) < fuel)%nat →
  triple (hosting p (idle held permits)) (make_passkey e registration deadline fuel proof connection_id process)
    (made proof) (λ err s, err = DispatchInternal ∧ settled p held permits s).
Proof.
  intros Hm Hq Hf. pose proof Hheld as [(? & ? & ?) Hpm].
  set (O := λ c, grants (encode_passkey_credential (credential_view c))).
  assert (∀ q, settled p held permits q → ∀ o s, declined o → hosting q (idle held permits) s → made proof o s) as Hearly.
  { intros q Hs o s Ho Hh. exists q. split; [done|]. apply concluded_early; [apply Hs|done|done]. }
  unfold make_passkey. apply checked_rule.
  { intros o s Ho Hs. pose proof (hosting_settled p held permits Hc s Hs) as Hset.
    apply (Hearly s Hset); [done|]. apply hosting_refl, Hset. }
  eapply triple_bind; [by apply rollback_rule|]. intros b; cbn beta.
  apply (triple_pre (λ s, settled p held permits s ∧ (b = true → gone (shared (world s)) = ∅))).
  intros q [Hset _]. pose proof Hset as (Hrq & Hcq & _).
  apply (triple_from (hosting q (idle held permits))); [by intros ? ->; apply hosting_refl|].
  apply (triple_weaken (hosting q (idle held permits)) _ _ (made proof) _ (λ err s, err = DispatchInternal ∧ settled q held permits s));
    [|done|done|intros err s [-> ?]; split; [done|by eapply settled_trans]].
  destruct b; cbn [negb]; [|apply triple_ret; intros s Hs; by apply (Hearly q Hset)].
  apply verified_rule; [by apply Hearly|apply verify_make_inert|]. intros v w Hv. cbv zeta.
  apply (find_pending_rule q held permits Hcq); [done|]. intros known.
  case_bool_decide; [apply triple_ret; intros s Hs; by apply (Hearly q Hset)|].
  eapply triple_post; [|intros o s Hs; exists q; split; [done|exact Hs]].
  apply handler_rule; [done..|]. unfold or_invalid.
  destruct (verified_make_text proof w v Hv) as (Ht1 & Ht2 & Ht3).
  pose proof (PasskeyInput_new_wf (vm_rp_id v) (vm_user_handle v) (vm_user_name v) (vm_user_display_name v)) as Hwf.
  pose proof (passkey_input_not_Panic (vm_rp_id v) (vm_user_handle v) (vm_user_name v) (vm_user_display_name v)) as Hn.
  destruct (PasskeyInput_new _ _ _ _) as [i|err|] eqn:Hi; [| |done].
  2: { apply triple_ret. intros s Hs. by apply concluded_early; [|split|]. }
  apply (mutate_vault_rule q held with_mutation (commit_check e registration deadline) (authorised e registration)); try done.
  - apply commit_check_gates. set_solver.
  - intros q' key m Hin Hb. eapply updates_weaken; [|by apply add_passkey_updates; [|apply should_abort_watches| |apply Hwf]].
    intros c m' [id Ha]. exists v, i, id. split; [by exists w|done].
  - intros. by apply (locked_mutation _ _ _ snd).
  - intros key m m' c s0 _ (v' & i' & id & _ & _ & Ha) Hin _.
    eapply triple_weaken; [apply (remember_rule s0); [done|by eapply created_encodes|by intros x (? & ? & _)]|done| |done].
    intros o s [? ?]. by split_and!.
Qed.
End making.

(** ** The candidates for an assertion *)

Lemma list_passkeys_for_assertion_rule p held permits e registration deadline proof :
  no_pending_guard held → consistent p →
  triple (hosting p (idle held permits)) (list_passkeys_for_assertion e registration deadline proof)
    (answered p held permits e registration deadline
      (λ m r, ∃ v, (∃ w, (verify_assertion_lookup (W:=W) proof w).1 = Ok v)
        ∧ r = summary_of <$> filter (eligible (vl_rp_id v)
            (if vl_allow_list_present v then Some (vl_allowed_credential_ids v) else None)) (ordered_passkeys m))
      (λ r o _, responds (encode_passkey_summaries (summary_view <$> r)) o))
    (undisturbed p held permits).
Proof.
  intros [Hh Hm] Hc. set (answer := λ (m : gmap bytes DecryptedRecord) r, _).
  assert (∀ o s, declined o → hosting p (idle held permits) s → answered p held permits e registration deadline answer
    (λ r o _, responds (encode_passkey_summaries (summary_view <$> r)) o) o s) as Hearly by (intros; by apply answered_early).
  unfold list_passkeys_for_assertion. apply checked_rule; [exact Hearly|].
  apply verified_rule; [exact Hearly|apply verify_assertion_lookup_inert|]. intros v w Hv.
  apply read_vault_answers; [done|..|done|done].
  - intros q key m Hin s Hs. pose proof (reads_inform q key m _ Hin (should_abort_watches e registration deadline)) as (_ & _ & _ & Hl & _).
    specialize (Hl (vl_rp_id v) (vl_allowed_credential_ids v) (vl_allow_list_present v) s Hs).
    destruct (agent_list_passkeys_for_assertion_with_check _ _ _ _ s) as [[r|err|] s']; [|done..].
    destruct Hl as [? ->]. split; [done|]. exists v. split; [by exists w|done].
  - intros q Hq. by apply locked_refuses.
  - intros q key m r s0 F Hin (v' & _ & ->).
    apply (present_rule s0 F _ (λ r o _, responds (encode_passkey_summaries (summary_view <$> r)) o));
      [|intros body x Hb; by exists body].
    match goal with |- encode_passkey_summaries ?l ≠ _ => set (views := l) end.
    assert (Forall PasskeySummaryView_typed views) as Ht.
    { subst views. apply Forall_fmap. eapply Forall_impl; [by eapply in_sync_passkeys|]. intros sm (? & ? & ? & ?). by split. }
    destruct (passkey_lists_exact views [] Ht ltac:(constructor)) as [-> _]. by repeat case_match.
Qed.
End rollback.

(** ** Properties *)

Section properties.
Context `{MinicborLaws, CryptoLaws, UrlLaws}.
Context {W : Type} `{AgentLaws W, !EnvLaws W, !Threads W, !Connections, !ThreadsModel W, !ThreadsLaws W, !StorageLaws W, !PasskeyRequestVerifier W, !VerifierLaws W}.

(** A passkey operation, called with none of the guards it takes, ends in [Q]; or it
    fails the connection without having disturbed anything. *)
Definition undertakes (p : Process W) (Q : gset MutexName → gset FlagName → ExecutionOutcome → Process W → Prop)
    (operation : ag (W:=W) DispatchError ExecutionOutcome) : Prop :=
  ∀ held permits, no_pending_guard held → PasskeyCleanupGate ∉ held → MutationFlag ∉ permits →
  resting held permits p → consistent p →
  triple (λ s, s = p) operation (Q held permits) (λ err s, err = DispatchInternal ∧ settled p held permits s).


(** C15: as long as no other connection ends, one round for each creation that waits to
    be rolled back is enough: the loop returns; if it says that it is through, none waits
    any more.  However it ends, the agent is locked or agrees with the file, and guards
    and permits are given back. *)
Theorem rollback_terminates (p : Process W) held permits fuel :
  no_pending_guard held → PasskeyCleanupGate ∉ held → quiet → resting held permits p → consistent p →
  (size (gone (shared (world p))) < fuel)%nat →
  match rollback_disconnected_passkey_creations fuel p with
  | (Ok through, s) => settled p held permits s ∧ (through = true → gone (shared (world s)) = ∅)
  | (Err err, s) => err = DispatchInternal ∧ settled p held permits s
  | (Panic, _) => False
  end.
Proof.
  intros Hh Hg Hq Hr Hc Hf. exact (rollback_rule held permits fuel p Hh Hg Hq Hc Hf p (hosting_refl p _ Hr)).
Qed.

End properties.

(** ** Examples *)

Module Examples.
Import Rfc8949 Toy VaultCore.Examples VaultRefine.Examples MemoryDisk AgentRefine.Examples RuntimeRefine.Examples.

(** A verifier that accepts every request, for one relying party. *)
#[export] Instance trusting : PasskeyRequestVerifier (Disk Shared) := {|
  remove_cached_credential _ := mret tt;
  verify_assertion_lookup _ := mret {| vl_rp_id := str "example.com"; vl_allowed_credential_ids := []; vl_allow_list_present := false |};
  verify_make _ := mret {| vm_rp_id := str "example.com"; vm_user_handle := [x01]; vm_user_name := str "person";
    vm_user_display_name := str "Person"; vm_excluded_credential_ids := [] |};
  verify_assertion _ _ := mret {| vr_rp_id := str "example.com"; vr_client_data_hash := zeros 32 |};
|}.
#[export] Instance trusting_laws : VerifierLaws (Disk Shared).
Proof.
  split; try (by intros; intros w; split).
  intros proof w v [= <-]. by split_and!.
Qed.
Definition make_proof : PasskeyTransactionProof :=
  {| pt_request := {| pr_transaction_id := replicate 16 x07; pr_request_type := CTAP2_CBOR_REQUEST_TYPE;
       pr_request_signature := [x01]; pr_encoded_request := [x01] |};
     pt_agent_challenge := replicate 16 x08; pt_user_verification_signature := [x01] |}.

Definition make_run := make_passkey 2 request 100 1 make_proof (zeros 16) 7 running.
Lemma make_succeeds : (eo_error <$> match make_run.1 with Ok o => Some o | _ => None end) = Some None.
Proof. vm_compute. reflexivity. Qed.
Lemma no_passkey_guards : no_pending_guard (∅ : gset MutexName).
Proof. split; [exact no_guards|set_solver]. Qed.
Lemma none_waits : (size (gone (shared (world running))) < 1)%nat.
Proof. vm_compute. lia. Qed.
Lemma made_settled : settled running ∅ ∅ make_run.2.
Proof.
  pose proof (make_passkey_rule running ∅ ∅ 2 request 100 no_passkey_guards (not_elem_of_empty _) running_consistent
    1 make_proof (zeros 16) 7 (not_elem_of_empty _) I none_waits running (hosting_refl _ _ running_resting)) as Hrun.
  pose proof make_succeeds as Hok. unfold make_run in *.
  destruct (make_passkey 2 request 100 1 make_proof (zeros 16) 7 running) as [[o|err|] s]; [|discriminate Hok..].
  destruct Hrun as (q & Hq & Hs & _). by eapply settled_trans.
Qed.


(** The passkey just created is confirmed. *)
Definition created_id : bytes := replicate 32 x65.
Definition confirm_run := confirm_passkey_creation 2 request 100 make_proof created_id (zeros 16) 7 make_run.2.
Lemma confirm_succeeds : (eo_error <$> match confirm_run.1 with Ok o => Some o | _ => None end) = Some None.
Proof. vm_compute. reflexivity. Qed.

(** The connection that asked for it has ended since: it is rolled back. *)
Definition leave_behind : Process (Disk Shared) → Process (Disk Shared) :=
  on_world (λ w, set_shared (set_pending (disconnected <$> pending_creations (shared w)) (shared w)) w).
Lemma leave_behind_settled p q : settled p ∅ ∅ q → resting ∅ ∅ (leave_behind q) ∧ consistent (leave_behind q).
Proof. intros ((? & ? & ?) & Hc & _). split; [by split_and!|]. by eapply (consistent_same_vault q). Qed.
Definition left_behind : Process (Disk Shared) := leave_behind make_run.2.
Definition rollback_run := rollback_disconnected_passkey_creations 2 left_behind.
Lemma rollback_succeeds : match rollback_run.1 with Ok through => through | _ => false end = true.
Proof. vm_compute. reflexivity. Qed.
Lemma one_waits : (size (gone (shared (world left_behind))) < 2)%nat.
Proof. vm_compute. lia. Qed.
Lemma rollback_terminates_witness : consistent rollback_run.2 ∧ gone (shared (world rollback_run.2)) = ∅.
Proof.
  destruct (leave_behind_settled _ _ made_settled) as [Hr Hc].
  pose proof (rollback_terminates left_behind ∅ ∅ 2 no_passkey_guards (not_elem_of_empty _) I Hr Hc one_waits) as Hrun.
  pose proof rollback_succeeds as Hok. unfold rollback_run in *.
  destruct (rollback_disconnected_passkey_creations 2 left_behind) as [[through|err|] s]; [|discriminate Hok..].
  destruct Hrun as [(_ & Hs & _) Hg]. split; [done|by apply Hg].
Defined.
End Examples.
