(* ===== verification/LockRefine.v ===== *)
(** * Locking the vault

    A lock begins under the commit gate: from then on no request of the epoch that ends
    may commit.  It ends with the session gone and the flag of the lock raised, until the
    response is sent. *)

From S2P Require Import Prelude RustStd Cbor Wire Types Message Session Operations VaultFormat VaultRecords VaultKeys VaultStore VaultCore VaultRefine Storage Agent AgentRefine Outcome Idempotency Threads Runtime Rely RuntimeRefine.

Section locking.
Context `{MinicborLaws, CryptoLaws, UrlLaws}.
Context {W : Type} `{AgentLaws W, !EnvLaws W, !Threads W, !Connections, !ThreadsModel W, !ThreadsLaws W, !StorageLaws W}.
Abbreviation rt A := (ag (W:=W) DispatchError A).

(** The state of the runtime, and whether the vault may be open in it. *)
Definition mode (x : Shared) : AgentState := decode_state (rt_state (sh_runtime x)).
Definition shut (state : AgentState) : Prop := state ≠ Unlocked ∧ state ≠ Unlocking.
Lemma target_state_shut state : shut (target_state state).
Proof. by destruct state. Qed.

Context (p : Process W) (held : gset MutexName) (permits : gset FlagName).
Context (Hcommit : CommitGate ∉ held) (Hcreation : CreationGate ∉ held) (Hhello : WindowsHelloGate ∉ held).
Context (Hvault : VaultMutex ∉ held) (Hcancel : CancellationsMutex ∉ held) (Hpermits : LockFlag ∉ permits).
Context (Hc : consistent p).
#[local] Abbreviation with_lock := ({[LockFlag]} ∪ permits).

(** A lock is under way. *)
Definition locking (x : Shared) : Prop := cd_lock_active (coordinator x) = true.
Lemma stable_locking held' permits' : LockFlag ∈ permits' → stable (holding held' permits' locking).
Proof.
  intros Hl. apply stable_holding. intros s s' He _ Hp Hs. unfold locking in *. rewrite <-Hs.
  apply (es_permit _ _ He LockFlag). by rewrite Hp.
Qed.

(** ** Its beginning *)

Lemma take_lock_rule n (B : Prop) held' q (K : DispatchError → Process W → Prop) :
  triple (hosting q (holding held' permits (epoch_reached n B False))) (in_world (flag_acquire LockFlag))
    (λ taken : bool, hosting q (if taken then holding held' with_lock (epoch_reached n B True) else idle held' permits))
    K.
Proof.
  eapply triple_weaken; [apply (call_rule q (holding held' permits (epoch_reached n B False)) _
    (λ taken : bool, if taken then holding held' with_lock (epoch_reached n B True) else idle held' permits)
    (λ (_ : DispatchError) _, False))|done..|by intros ? ? (_ & _ & _ & ?)].
  apply atomic_rule; [by apply stable_epoch_reached|]. intros x (Hh & Hp & Hn & Hb & _). cbn.
  destruct (cd_lock_active (coordinator x)) eqn:Hl; [by split_and!|].
  split; [by split|]. split_and!; [done|by cbn; rewrite Hp|]. by split_and!.
Qed.

Lemma state_keeps held' permits' (X : Shared → Prop) q (K : DispatchError → Process W → Prop) :
  stable (holding held' permits' X) →
  triple (hosting q (holding held' permits' X)) (in_world the_state)
    (λ state, hosting q (holding held' permits' (λ x, X x ∧ mode x = state))) K.
Proof.
  intros HX. eapply triple_weaken; [apply (call_rule q (holding held' permits' X) _
    (λ state, holding held' permits' (λ x, X x ∧ mode x = state)) (λ _ _, False))|done..|by intros ? ? (_ & _ & _ & ?)].
  apply observe_rule; [done|]. by intros x (? & ? & ?).
Qed.
Lemma store_state_rule held' permits' (X : Shared → Prop) q state (K : DispatchError → Process W → Prop) :
  stable (holding held' permits' X) → (∀ x, X x → X (set_rt_state (AgentState_code state) x)) →
  triple (hosting q (holding held' permits' X)) (in_world (store_state state))
    (λ _, hosting q (holding held' permits' (λ x, X x ∧ mode x = state))) K.
Proof.
  intros HX Hst. eapply triple_weaken; [apply (call_rule q (holding held' permits' X) _
    (λ _, holding held' permits' (λ x, X x ∧ mode x = state)) (λ _ _, False))|done..|by intros ? ? (_ & _ & _ & ?)].
  apply atomic_rule; [done|]. intros x (? & ? & ?). split; [by split|]. split_and!; [done..|by apply Hst|].
  by destruct state.
Qed.

Lemma begin_lock_rule :
  let n := cd_epoch (coordinator (shared (world p))) in
  let B := flags_allocated (shared (world p)) in
  triple (hosting p (holding held permits (epoch_reached n B False))) begin_lock
    (λ o s, match o with
      | None => hosting p (idle held permits) s
      | Some target => shut target ∧ hosting p (holding held with_lock (epoch_passed n B True)) s
      end)
    (λ err s, err = DispatchInternal ∧ hosting p (idle held permits) s).
Proof.
  intros n B. set (inside := {[CommitGate]} ∪ held). assert (inside ∖ {[CommitGate]} = held) as Hback by set_solver.
  assert (∀ permits' (X : Shared → Prop) s, guard_free X → hosting p (holding inside permits' X) s →
    hosting p (holding held permits' X) (on_world (drop_guard CommitGate) s)) as Hdrop.
  { intros permits' X s HX. apply drop_rule. intros x (Hh & ? & ?). split_and!; [cbn; by rewrite Hh|done|by apply HX]. }
  unfold begin_lock. apply (guarded_rule p _ (holding inside permits (epoch_reached n B False))).
  - by apply stable_epoch_reached.
  - intros x (Hh & ? & ?). split; [by rewrite Hh|]. split_and!; [cbn; by rewrite Hh|done|done].
  - intros s [? Hs]. split; [done|]. split; [done|]. eapply following_weaken; [|exact Hs]. by intros x (? & ? & _).
  - eapply triple_bind; [apply take_lock_rule|intros []; [|apply triple_ret; intros s; by apply Hdrop]].
    apply on_failure_rule. eapply triple_bind; [apply state_keeps, stable_epoch_reached; set_solver|intros state; cbn beta].
    apply (triple_from (hosting p (holding inside with_lock (epoch_reached n B True)))).
    { intros s [? Hs]. split; [done|]. eapply following_weaken; [|exact Hs]. by intros x (? & ? & ? & _). }
    eapply triple_bind; [apply (store_state_rule inside with_lock (epoch_reached n B True)); [apply stable_epoch_reached; set_solver|done]|].
    intros []. apply (triple_from (hosting p (holding inside with_lock (epoch_reached n B True)))).
    { intros s [? Hs]. split; [done|]. eapply following_weaken; [|exact Hs]. by intros x (? & ? & ? & _). }
    eapply (triple_bind _ _ _ (λ _, hosting p (holding inside with_lock (epoch_passed n B True)))).
    + assert (CommitGate ∈ inside ∧ CancellationsMutex ∉ inside) as [Hg Hm] by (subst inside; set_solver).
      eapply triple_weaken; [apply (in_world_rule p (holding inside with_lock (epoch_reached n B True)));
        apply (advance_epoch_rule inside with_lock n B True); [done|done|set_solver]|done|done|].
      intros e s [Ha Hs]. assert (hosting p (idle inside with_lock) s ∧ e = DispatchInternal) as [Hi ->].
      { destruct Hs as (? & ? & ? & ->). by split_and!. }
      split; [done|]. apply (Hdrop permits (λ _, True)); [done|]. by apply flag_drop_rule.
    + intros k. apply triple_ret. intros s Hs. split; [apply target_state_shut|]. apply Hdrop; [by intros f x ?|done].
Qed.

(** ** Its end *)

(** The session is gone, and the runtime says so, while the flag is raised. *)
Definition shut_down (q : Process W) (o : ExecutionOutcome) (s : Process W) : Prop :=
  (∃ body, encode_empty_result = Ok body ∧ o = hold_lock_transition (success body))
  ∧ locked (agent s) ∧ passes (world q) (world s)
  ∧ shut (mode (shared (world s))) ∧ locking (shared (world s)).

Lemma shut_down_same q o s s' :
  agent s' = agent s → passes (world s) (world s') → mode (shared (world s')) = mode (shared (world s)) →
  coordinator (shared (world s')) = coordinator (shared (world s)) → shut_down q o s → shut_down q o s'.
Proof.
  unfold shut_down, locking. intros -> Hps -> -> (? & ? & ? & ? & ?). split_and!; [done|done|passing|done|done].
Qed.
Lemma shut_down_drop q o m s : shut_down q o s → shut_down q o (on_world (drop_guard m) s).
Proof.
  apply shut_down_same; [done| |unfold mode; cbn; unfold drop_guard; by rewrite shared_set..].
  destruct (drop_rule s (λ x, x = shared (world s)) (λ _, True) m s) as (_ & _ & ? & _); [done|by apply hosting_refl|done].
Qed.

Lemma hand_over_rule q held' target :
  shut target → locked (agent q) → holding held' with_lock locking (shared (world q)) →
  triple (λ s, s = q)
    (state ← in_world the_state;
     (match state with Updating | ShuttingDown => mret tt | _ => in_world (store_state target) end);;
     body ← encoded encode_empty_result;
     let outcome := hold_lock_transition (success body) in
     modify (on_world (flag_handoff LockFlag));;
     mret outcome)
    (λ o s, shut_down q o s ∧ resting held' permits s)
    (λ err s, err = DispatchInternal ∧ hosting q (idle held' with_lock) s).
Proof.
  intros Ht Hl Hq. assert (stable (holding held' with_lock locking)) as Hst by (apply stable_locking; set_solver).
  apply (triple_from (hosting q (holding held' with_lock locking))); [by intros ? ->; apply hosting_refl|].
  eapply triple_bind; [by apply state_keeps|intros state; cbn beta].
  eapply (triple_bind _ _ _ (λ _, hosting q (holding held' with_lock (λ x, locking x ∧ shut (mode x))))).
  - assert (∀ s, hosting q (holding held' with_lock (λ x, locking x ∧ mode x = state)) s → shut state →
      hosting q (holding held' with_lock (λ x, locking x ∧ shut (mode x))) s) as Hkeep.
    { intros s [? Hs] ?. split; [done|]. eapply following_weaken; [|exact Hs].
      intros x (Hh & Hp & Hx & Hm). do 2 (split; [done|]). split; [done|by rewrite Hm]. }
    assert (triple (hosting q (holding held' with_lock (λ x, locking x ∧ mode x = state))) (in_world (store_state target))
      (λ _, hosting q (holding held' with_lock (λ x, locking x ∧ shut (mode x))))
      (λ err s, err = DispatchInternal ∧ hosting q (idle held' with_lock) s)) as Hstore.
    { apply (triple_from (hosting q (holding held' with_lock locking))).
      { intros s [? Hs]. split; [done|]. eapply following_weaken; [|exact Hs]. by intros x (? & ? & ? & _). }
      eapply triple_post; [by apply (store_state_rule held' with_lock locking)|]. intros [] s [? Hs]. split; [done|].
      eapply following_weaken; [|exact Hs]. intros x (Hh & Hp & Hx & Hm). destruct Ht. do 2 (split; [done|]). split; [done|by rewrite Hm]. }
    destruct state; (exact Hstore || (apply triple_ret; intros s Hs; by apply Hkeep)).
  - intros []. eapply (triple_bind _ _ _ (λ body s, encode_empty_result = Ok body
      ∧ hosting q (holding held' with_lock (λ x, locking x ∧ shut (mode x))) s)).
    { eapply triple_weaken; [apply encoding_rule, encode_empty_result_ok|done|done|]. intros err s [-> [? Hs]]. split; [done|].
      split; [done|]. eapply following_weaken; [|exact Hs]. by intros x (? & ? & _). }
    intros body. cbv zeta. intros s (Hb & Ha & Hs). pose proof Hs as (_ & Hps & Hh & Hp & Hlk & Hsh).
    assert (following (world q) (λ x, x = set_permits (λ permits, permits ∖ {[LockFlag]}) (shared (world s)))
      (flag_handoff LockFlag (world s))) as (_ & Hps' & Hx).
    { eapply following_set; [by split|done|exact Hs]. }
    split; [split_and!|]; [by exists body|cbn; by rewrite Ha|done|cbn; unfold mode; by rewrite Hx|cbn; unfold locking; by rewrite Hx|].
    unfold resting. cbn. rewrite Hx. split_and!; [done|cbn; rewrite Hp; set_solver|done].
Qed.

Lemma locking_free : guard_free locking.
Proof. by intros f x. Qed.
Lemma handed_flag q s : hosting q (idle held with_lock) s → consistent q →
  settled q held permits (on_world (flag_drop LockFlag) s).
Proof.
  intros Hs Hcq. apply settled_flag; [done|]. split_and!; [apply Hs| |apply Hs].
  eapply consistent_same_vault; [by eapply hosting_same_vault|done].
Qed.

Lemma complete_lock_rule q target :
  shut target → consistent q → holding held with_lock locking (shared (world q)) →
  triple (λ s, s = q) (complete_lock target) (λ o s, shut_down q o s ∧ resting held permits s)
    (λ err s, err = DispatchInternal ∧ settled q held permits s).
Proof.
  intros Ht Hcq Hq.
  set (h1 := {[CreationGate]} ∪ held). set (h2 := {[WindowsHelloGate]} ∪ h1).
  assert (CreationGate ∉ held ∧ WindowsHelloGate ∉ h1 ∧ VaultMutex ∉ h2) as (Hm1 & Hm2 & Hv) by (subst h2 h1; set_solver).
  assert (∀ h', stable (holding h' with_lock locking)) as Hst by (intros; apply stable_locking; set_solver).
  unfold complete_lock. apply on_failure_rule.
  apply (triple_weaken (hosting q (holding held with_lock locking)) _ _ (λ o s, shut_down q o s ∧ resting held permits s) _
    (λ err s, err = DispatchInternal ∧ settled q held with_lock s)).
  2: { by intros ? ->; apply hosting_refl. } 2: { done. } 2: { intros err s [-> ?]. split; [done|by apply settled_flag]. }
  assert (∀ h m o s, m ∉ h → shut_down q o s ∧ resting ({[m]} ∪ h) permits s →
    shut_down q o (on_world (drop_guard m) s) ∧ resting h permits (on_world (drop_guard m) s)) as Hdrop.
  { intros h m o s Hm [Hs Hr]. split; [by apply shut_down_drop|].
    by destruct (drop_holding h permits m (λ _, True) (world s) Hm). }
  apply guarded_keeps; [done|done|apply locking_free|done|].
  apply (triple_post _ _ (λ o s, shut_down q o s ∧ resting h1 permits s)); [|intros; by apply Hdrop].
  apply guarded_keeps; [done|done|apply locking_free|done|].
  apply (triple_post _ _ (λ o s, shut_down q o s ∧ resting h2 permits s)); [|intros; by apply Hdrop].
  eapply (triple_bind _ _ _ (λ _ s, locked (agent s) ∧ passes (world q) (world s) ∧ holding h2 with_lock locking (shared (world s)))).
  - eapply triple_weaken; [apply (with_vault_keeps q h2 with_lock locking lock
      (λ _ s, locked (agent s) ∧ passes (world q) (world s) ∧ holding h2 with_lock locking (shared (world s)))
      (λ err s, err = DispatchInternal ∧ settled q h2 with_lock s))|done|done|done]; [done|done|apply locking_free|..].
    + intros q' _ Hq' Hps s ->. cbn. split_and!; [apply lock_locks|..].
      * etrans; [exact Hps|]. by apply (drop_holding h2 with_lock VaultMutex locking (world q') Hv locking_free).
      * by apply (drop_holding h2 with_lock VaultMutex locking (world q') Hv locking_free).
    + intros q' Hq' Hi Hps. split; [done|]. split_and!; [by destruct Hi as (? & ? & _)|by eapply others_had_consistent|done].
  - intros []. apply (triple_pre (λ s, locked (agent s) ∧ passes (world q) (world s) ∧ holding h2 with_lock locking (shared (world s)))).
    intros s1 (Hl & Hps & Hi). eapply triple_weaken; [by apply (hand_over_rule s1 h2)|done|..].
    + intros o s [(? & ? & ? & ? & ?) ?]. split; [|done]. unfold shut_down. split_and!; [done|done|passing|done..].
    + intros err s [-> Hs]. split; [done|]. destruct Hs as (Ha & _ & Hps' & Hi'). split_and!; [done|left; by rewrite Ha|passing].
Qed.


(** The session is gone, and what was under way is revoked: from some moment on the epoch
    is a new one, and the requests registered then are cancelled. *)
Definition locks (o : ExecutionOutcome) (s : Process W) : Prop :=
  shut_down p o s ∧ settled p held permits s
  ∧ ∃ w, passes (world p) w ∧ passes w (world s)
    ∧ cd_epoch (coordinator (shared (world p))) < cd_epoch (coordinator (shared w))
    ∧ (flags_allocated (shared (world p)) → all_cancelled (shared w)).

Lemma lock_vault_rule :
  resting held permits p →
  triple (λ s, s = p) lock_vault (λ o s, locks o s ∨ o = busy ∧ settled p held permits s)
    (λ err s, err = DispatchInternal ∧ settled p held permits s).
Proof.
  intros Hr. unfold lock_vault.
  apply (triple_from (hosting p (holding held permits (epoch_reached (cd_epoch (coordinator (shared (world p))))
    (flags_allocated (shared (world p))) False)))).
  { intros ? ->. apply hosting_refl. destruct Hr as (? & ? & _). split_and!; [done..|]. by split_and!. }
  eapply triple_bind.
  - eapply triple_weaken; [apply begin_lock_rule|done|intros o s Ho; exact Ho|].
    intros err s [-> ?]. split; [done|by apply hosting_settled].
  - intros [target|]; [|apply triple_ret; intros s Hs; right; split; [done|by apply hosting_settled]].
    apply (triple_pre (λ s, shut target ∧ hosting p (holding held with_lock
      (epoch_passed (cd_epoch (coordinator (shared (world p)))) (flags_allocated (shared (world p))) True)) s)).
    intros q (Ht & Hq). assert (consistent q) as Hcq by (eapply consistent_same_vault; [by eapply hosting_same_vault|done]).
    destruct Hq as (_ & _ & Hps & Hh & Hp & He & Hb & Hl).
    eapply triple_weaken; [apply (complete_lock_rule q target Ht Hcq); split_and!; [done..|by apply Hl]|done|..].
    + intros o s [(Ho & Hlk & Hps' & Hm & Hk) Hrs]. left. split; [unfold shut_down; split_and!; [done|done|passing|done..]|].
      split; [split_and!; [done|by left|passing]|]. by exists (world q).
    + intros err s [-> (? & ? & ?)]. split; [done|]. split_and!; [done|done|passing].
Qed.
End locking.

(** ** Properties *)

Section properties.
Context `{MinicborLaws, CryptoLaws, UrlLaws}.
Context {W : Type} `{AgentLaws W, !EnvLaws W, !Threads W, !Connections, !ThreadsModel W, !ThreadsLaws W, !StorageLaws W}.

(** None of the guards that a lock takes is held. *)
Definition lock_guards_free (held : gset MutexName) : Prop :=
  CommitGate ∉ held ∧ CreationGate ∉ held ∧ WindowsHelloGate ∉ held ∧ VaultMutex ∉ held ∧ CancellationsMutex ∉ held.

(** C10: locking succeeds, or another lock is under way, or the connection fails; there is
    no panic and no lock is taken twice, and guards and permits are given back.  When it
    succeeds, the session is gone, the runtime says so, and the flag of the lock stays
    raised; a request admitted under an earlier epoch is never authorised again, and
    every request registered when the epoch ended is cancelled. *)
Theorem lock_vault_locks (p : Process W) held permits :
  lock_guards_free held → LockFlag ∉ permits → resting held permits p → consistent p →
  match lock_vault p with
  | (Ok o, s) => settled p held permits s ∧ (o = busy ∨ shut_down p o s
      ∧ (∀ e registration w, e ≤ cd_epoch (coordinator (shared (world p))) → passes (world s) w →
          ¬ authorised e registration (shared w))
      ∧ ∃ w, passes (world p) w ∧ passes w (world s) ∧ (flags_allocated (shared (world p)) → all_cancelled (shared w)))
  | (Err err, s) => err = DispatchInternal ∧ settled p held permits s
  | (Panic, _) => False
  end.
Proof.
  intros (? & ? & ? & ? & ?) Hf Hr Hc.
  assert (triple (λ s, s = p) lock_vault (λ o s, locks p held permits o s ∨ o = busy ∧ settled p held permits s)
    (λ err s, err = DispatchInternal ∧ settled p held permits s)) as Hrun by (by apply lock_vault_rule).
  specialize (Hrun p eq_refl). destruct (lock_vault p) as [[o|err|] s]; [|done..].
  destruct Hrun as [(Ho & Hs & w & Hp1 & Hp2 & He & Hb)|[-> Hs]]; (split; [done|]); [|by left].
  right. split; [done|]. split; [|by exists w].
  intros e registration w' Hle [_ Hl] (Heq & _). destruct Hp2 as [_ Hl2].
  pose proof (lt_epoch _ _ Hl). pose proof (lt_epoch _ _ Hl2). lia.
Qed.
End properties.

(** ** Examples *)

Module Examples.
Import Rfc8949 Toy VaultCore.Examples VaultRefine.Examples MemoryDisk AgentRefine.Examples RuntimeRefine.Examples.

Definition lock_run := lock_vault running.
Lemma lock_succeeds : (eo_error <$> match lock_run.1 with Ok o => Some o | _ => None end) = Some None.
Proof. vm_compute. reflexivity. Qed.

(** The example locks its vault; the request that was authorised is so no more. *)
Lemma lock_vault_locks_witness : locked (agent lock_run.2) ∧ ¬ authorised 2 request (shared (world lock_run.2)).
Proof.
  assert (lock_guards_free ∅) as Hfree by (unfold lock_guards_free; set_solver).
  pose proof (lock_vault_locks running ∅ ∅ Hfree (not_elem_of_empty _) running_resting running_consistent) as Hrun.
  pose proof lock_succeeds as Hok. unfold lock_run in *.
  destruct (lock_vault running) as [[o|err|] s]; [|discriminate Hok..].
  destruct Hrun as [_ [->|[(_ & Hl & _) [Ha _]]]]; [discriminate Hok|]. split; [exact Hl|].
  apply Ha; [vm_compute; discriminate|reflexivity].
Defined.
End Examples.
