(* ===== verification/UnlockRefine.v ===== *)
(** * Unlocking the vault

    An unlock by password ends with a session that the password opens, published under
    the commit gate for a request still wanted, or with the agent locked; whatever the
    other threads do meanwhile. *)

From S2P Require Import Prelude RustStd Cbor Wire Types Message Session Operations Browser VaultFormat VaultRecords VaultKeys VaultStore VaultCore VaultRefine Storage Agent AgentRefine Outcome Idempotency Ownership Threads Runtime Fill Passkeys Unlocking Rely RuntimeRefine ReadRefine PasskeyRefine RollbackRefine LockRefine.

(** The inspection of a path ends, and changes no file. *)
Class InspectionLaws `{Minicbor, Crypto, UrlCrate} (W : Type) `{StorageModel W, PathInspection W} : Prop := {
  fs_is_file_inert path : inert (fs_is_file (W:=W) path);
  fs_symlink_exists_inert path : inert (fs_symlink_exists (W:=W) path);
  canonicalize_inert path : inert (canonicalize (W:=W) path);
  same_file_handle_inert path : inert (same_file_handle (W:=W) path);
}.

Section unlocking.
Context `{MinicborLaws, CryptoLaws, UrlLaws, RuntimeSetup}.
Context {W : Type} `{AgentLaws W, !EnvLaws W, !Threads W, !Connections, !ThreadsModel W, !ThreadsLaws W, !StorageLaws W, !PathInspection W, !InspectionLaws W, !PasskeyRequestVerifier W, !VerifierLaws W}.
Abbreviation rt A := (ag (W:=W) DispatchError A).

(** ** The record of the file *)

Lemma inert_map_err {E F A} (g : E → F) (m : stm W E A) : inert m → inert (map_err_st g m).
Proof. intros Hm w. destruct (Hm w) as [? ?]. unfold map_err_st. by destruct (m w) as [[?|?|] ?]. Qed.
Lemma inert_of_result {E A} (r : result E A) : r ≠ Panic → inert (W:=W) (of_result r).
Proof. by intros Hr w. Qed.

Lemma inert_then {E A} (m : stm W E A) w w1 : inert m → unchanged w w1 → (m w1).1 ≠ Panic ∧ unchanged w (m w1).2.
Proof. intros Hm Hw. destruct (Hm w1). split; [done|by etrans]. Qed.

Lemma ownership_record_inert path : inert (ownership_record (W:=W) path).
Proof.
  assert (∀ p, normalize_ownership_path p ≠ Panic) as Hnorm.
  { intros q. unfold normalize_ownership_path. by destruct (path_into_string q). }
  intros w. unfold ownership_record. destruct (fs_is_file_inert path w) as [Hn Hu].
  destruct (fs_is_file path w) as [[b|e|] w1]; cbn in *; [| |done].
  - apply inert_then; [|done]. apply inert_bind; [apply inert_guard|intros ?].
    apply inert_bind; [apply inert_map_err, canonicalize_inert|intros n].
    apply inert_bind; [by apply inert_of_result|intros ?].
    apply inert_bind; [apply inert_map_err, same_file_handle_inert|intros i; apply inert_ret].
  - destruct e; [|done]. destruct (fs_symlink_exists_inert path w1) as [_ Hu1].
    destruct (fs_symlink_exists path w1) as [link w2]. cbn in *.
    apply inert_then; [|by etrans]. apply inert_bind; [apply inert_guard|intros ?].
    apply inert_bind; [apply inert_of_result; by destruct (path_parent path)|intros ?].
    apply inert_bind; [apply inert_of_result; by destruct (path_file_name path)|intros ?].
    apply inert_bind; [apply inert_map_err, canonicalize_inert|intros n].
    apply inert_bind; [by apply inert_of_result|intros ?; apply inert_ret].
Qed.

(** ** The agent's part *)

(** What other threads and an unlock do: they write no file and keep the guards. *)
Definition watched (w w' : W) : Prop :=
  files_kept w w' ∧ passes w w' ∧ sh_held (shared w') = sh_held (shared w) ∧ sh_permits (shared w') = sh_permits (shared w).
#[local] Instance watched_preorder : PreOrder watched.
Proof.
  split; [by intros w; split_and!|]. intros w1 w2 w3 (? & ? & ? & ?) (? & ? & ? & ?).
  split_and!; [by etrans|by etrans|congruence|congruence].
Qed.
Lemma durable_kept_watched w w' : durable_kept w w' → watched w w'.
Proof. intros [Hm ?]. destruct (moves_env _ _ Hm) as [He _]. split_and!; [done|by apply moves_passes|apply He|apply He]. Qed.
Lemma set_record_watched w w1 o : unchanged w w1 → watched w (set_shared (set_authenticated_ownership o (shared w1)) w1).
Proof.
  intros (_ & Hd). etrans; [by apply durable_kept_watched|]. split_and!.
  - apply set_shared_files.
  - split; [by rewrite set_shared_clock|by rewrite shared_set].
  - by rewrite shared_set.
  - by rewrite shared_set.
Qed.
Lemma capture_ownership_watched w : watched w (capture_ownership w).
Proof.
  unfold capture_ownership. destruct (ownership_record_inert rs_vault_path w) as [_ Hu].
  destruct (ownership_record rs_vault_path w) as [r w1]. by apply set_record_watched.
Qed.

(** The session that the password opens, and that the file authenticates. *)
Definition unlocked_by (password : bytes) (q : Process W) : Prop :=
  ∃ path v hdr man rows m, synced q path v hdr man rows ∧ represents v hdr man rows m
    ∧ opens_with_password password (uv_header v) (uv_vault_root_key v).
Lemma unlocked_by_consistent password q : unlocked_by password q → consistent q.
Proof. intros (path & v & hdr & man & rows & m & ? & ? & _). right. exists (uv_vault_root_key v), m, path, v, hdr, man, rows. by split_and!. Qed.
Lemma unlocked_by_same password q s : same_vault q s → unlocked_by password q → unlocked_by password s.
Proof.
  intros [? ?] (path & v & hdr & man & rows & m & ? & ? & ?). exists path, v, hdr, man, rows, m.
  split_and!; [by eapply synced_kept|done..].
Qed.

Lemma agent_unlock_rule q held permits password :
  resting held permits q →
  let '(r, s) := agent_unlock_with_before_publish password capture_ownership q in
  resting held permits s ∧ passes (world q) (world s)
  ∧ match r with Ok _ => unlocked_by password s | Err _ => locked (agent s) | Panic => False end.
Proof.
  intros (Hh & Hp & _).
  pose proof (unlock_with_core_opens (opens_with_password password) capture_ownership (VaultCore.unlock_vault password) q
    (λ _ _ _, unlock_vault_unlocks _ _ _ _)) as Hopen.
  pose proof (unlock_with_core_world watched capture_ownership (VaultCore.unlock_vault password) q durable_kept_watched
    capture_ownership_watched (λ _ _ _, unlock_vault_keeps _ _ _ _) q eq_refl) as Hw.
  unfold opened, agent_unlock_with_before_publish in *.
  destruct (unlock_with_core capture_ownership (VaultCore.unlock_vault password) q) as [[[]|e|] s]; [| |done];
    destruct Hw as (_ & ? & Hh' & Hp'); (split; [unfold resting; rewrite <-Hh, <-Hp; by split_and!|]); (split; [done|]).
  - destruct Hopen as (_ & path & v & hdr & man & rows & m & ? & ? & ? & _). by exists path, v, hdr, man, rows, m.
  - by destruct Hopen.
Qed.

(** What is left when the vault has been given back. *)
Definition core_ends (p : Process W) held permits (password : bytes) (out : result AgentUnlockError unit * option bytes)
    (s : Process W) : Prop :=
  settled p held permits s
  ∧ match out.1 with
    | Ok _ => unlocked_by password s ∧ is_Some out.2
    | Err _ => locked (agent s)
    | Panic => False
    end.

Lemma unlock_core_rule p held permits password :
  VaultMutex ∉ held → consistent p →
  triple (hosting p (idle held permits)) (unlock_core password) (core_ends p held permits password)
    (λ err s, err = DispatchInternal ∧ settled p held permits s).
Proof.
  intros Hv Hc. unfold unlock_core. apply with_vault_rule; [done|..].
  - intros q Hq Hr Hps s ->. pose proof (agent_unlock_rule q _ _ password Hr) as Hrun.
    unfold attempt, the_agent, mbind, stm_bind, mret, stm_ret.
    destruct (agent_unlock_with_before_publish password capture_ownership q) as [r s'].
    destruct Hrun as (Hr' & Hps' & Hres). destruct (drop_same VaultMutex s') as [Hsame Hpd].
    destruct (drop_holding held permits VaultMutex (λ _, True) (world s') Hv ltac:(done) Hr') as [Hi _].
    assert (consistent s' → passes (world p) (world s') → settled p held permits (on_world (drop_guard VaultMutex) s')) as Hset.
    { intros Hc' Hp'. split_and!; [done|by eapply consistent_same_vault|by etrans]. }
    assert (passes (world p) (world s')) as Hp' by (by etrans).
    destruct r as [[]|e|]; [| |done]; cbn.
    + split; [by apply Hset; [eapply unlocked_by_consistent|]|]. split; [by eapply unlocked_by_same|].
      destruct Hres as (path & v & hdr & man & rows & m & [_ Hsess _ _ _ _] & _). unfold authenticated_vault_id. by rewrite Hsess.
    + split; [apply Hset; [by left|done]|done].
  - intros q Hq Hr Hps. split; [done|]. split_and!; [done|by eapply others_had_consistent|done].
Qed.

(** ** Locking again *)

Context (registration : RequestRegistration) (deadline : Z).
#[local] Abbreviation is_cancelled := (Threads.is_cancelled (rr_cancellation registration)).
#[local] Abbreviation fails p held permits := (λ err s, err = DispatchInternal ∧ settled p held permits s).

(** The request is declined, and nothing of a session is left. *)
Definition relocked (p : Process W) held permits (o : ExecutionOutcome) (s : Process W) : Prop :=
  declined o ∧ settled p held permits s ∧ locked (agent s).

Lemma relock_rule p held permits outcome :
  VaultMutex ∉ held → consistent p → declined outcome →
  triple (hosting p (idle held permits)) (relock outcome) (relocked p held permits) (fails p held permits).
Proof.
  intros Hv Hc Hd. unfold relock.
  eapply (triple_bind _ _ _ (λ _ s, settled p held permits s ∧ locked (agent s))).
  - apply with_vault_rule; [done|..].
    + intros q _ Hr Hps s ->. destruct (drop_same VaultMutex (on_agent lock_agent q)) as [[Ha Hf] ?].
      destruct (drop_holding held permits VaultMutex (λ _, True) (world q) Hv ltac:(done) Hr) as [Hi ?].
      split; [|apply lock_locks]. split_and!; [done|left; apply lock_locks|by etrans].
    + intros q Hq Hr Hps. split; [done|]. split_and!; [done|by eapply others_had_consistent|done].
  - intros []. apply triple_pre. intros q [(Hr & _ & Hps) Hl].
    apply (triple_from (hosting q (idle held permits))); [by intros ? ->; apply hosting_refl|].
    eapply (triple_bind _ _ _ (λ _, hosting q (idle held permits))); [apply set_locked_rule|intros []].
    apply triple_ret. intros s Hs. pose proof Hs as (Ha & _ & Hps' & Hi).
    assert (locked (agent s)) as Hl' by (by rewrite Ha). split; [done|]. split; [|done].
    split_and!; [done|by left|by etrans].
Qed.

(** ** Looks that change nothing *)

Definition idles {E A} held permits (m : stm W E A) : Prop :=
  ∀ w0 (K : E → W → Prop), triple (following w0 (idle held permits)) m (λ _, following w0 (idle held permits)) K.
Lemma idles_look {E A} held permits (f : Shared → A) : idles (E:=E) held permits (observe f).
Proof. intros w0 K. apply idle_look. Qed.
Lemma idles_or_else {E} held permits (a b : stm W E bool) : idles held permits a → idles held permits b → idles held permits (or_else a b).
Proof. intros Ha Hb w0 K. by apply refused_or_else. Qed.
Lemma idles_state {E A} held permits (f : AgentState → A) : idles (E:=E) held permits (state ← the_state; mret (f state)).
Proof. intros w0 K. apply idle_state. Qed.
Lemma idles_past {E} held permits : idles (E:=E) held permits (past deadline).
Proof. intros w0 K. eapply triple_post; [apply past_rule, stable_idle|]. by intros b w [? _]. Qed.
Lemma idles_interrupted {E} held permits : idles (E:=E) held permits (recovery_interrupted registration deadline).
Proof.
  unfold recovery_interrupted, lock_active, not_unlocking, Threads.is_cancelled.
  repeat apply idles_or_else; [apply idles_look|apply idles_state|apply idles_look|apply idles_past].
Qed.
Lemma idles_in_world {A} held permits p (m : stm W DispatchError A) (R : DispatchError → Process W → Prop) :
  idles held permits m →
  triple (hosting p (idle held permits)) (in_world m) (λ _, hosting p (idle held permits)) R.
Proof.
  intros Hm. eapply triple_weaken; [apply (call_rule p (idle held permits) m (λ _, idle held permits) (λ _ _, False)), Hm|done|done|].
  by intros e s (_ & _ & _ & ?).
Qed.

Lemma recovery_watches : watches (recovery_should_abort registration deadline).
Proof.
  intros w. unfold recovery_should_abort.
  assert (inert (E:=unit) (recovery_interrupted registration deadline : stm W unit bool)) as Hi.
  { unfold recovery_interrupted. repeat apply or_else_inert; try apply observe_inert.
    - apply inert_bind; [apply observe_inert|intros; apply inert_ret].
    - apply inert_bind; [apply now_inert|intros; apply inert_ret]. }
  destruct (Hi w) as [_ [_ ?]]. by destruct (recovery_interrupted registration deadline w) as [r w'].
Qed.

(** ** Removing what a crash left behind *)

(** How a part of the recovery ends: with the outcome of the request, if it is over. *)
Definition recovers p held permits (o : option ExecutionOutcome) (s : Process W) : Prop :=
  settled p held permits s ∧ match o with Some outcome => declined outcome | None => True end.

Lemma recovered_outcome_rule p held permits :
  triple (hosting p (idle held permits)) (recovered_passkey_cleanup_outcome registration deadline)
    (λ outcome s, hosting p (idle held permits) s ∧ declined outcome)
    (λ err s, err = DispatchInternal ∧ hosting p (idle held permits) s).
Proof.
  unfold recovered_passkey_cleanup_outcome.
  eapply triple_weaken; [apply (in_world_rule p (idle held permits) _ (λ o w, following (world p) (idle held permits) w ∧ declined o)
    (λ err w, err = DispatchInternal ∧ following (world p) (idle held permits) w))|done| |by intros err s (? & ? & ?)].
  2: { by intros o s (? & ? & ?). }
  eapply (triple_bind _ _ _ (λ _, following (world p) (idle held permits))).
  { unfold lock_active, not_unlocking, Threads.is_cancelled.
    repeat apply idles_or_else; [apply idles_look|apply idles_state|apply idles_look]. }
  intros []; [by apply triple_ret; intros w Hw|].
  eapply (triple_bind _ _ _ (λ _, following (world p) (idle held permits))); [apply idles_past|].
  intros []; by apply triple_ret; intros w Hw.
Qed.
Lemma recovery_ends_rule p held permits :
  triple (hosting p (idle held permits)) (recovery_ends registration deadline)
    (λ o s, hosting p (idle held permits) s ∧ match o with Some outcome => declined outcome | None => True end)
    (λ err s, err = DispatchInternal ∧ hosting p (idle held permits) s).
Proof. eapply triple_bind; [apply recovered_outcome_rule|intros outcome; by apply triple_ret]. Qed.

Lemma recovery_gates held permits :
  CommitGate ∉ held → gates held permits (λ _, True) (λ _, True) (take_gate (W:=W) (recovery_interrupted registration deadline)).
Proof.
  intros Hg. apply take_gate_gates; [done|]. intros w0.
  exact (idles_interrupted ({[CommitGate]} ∪ held) permits w0 _).
Qed.

(** With the vault held: the pending passkey is removed, if the unlock still goes on. *)
Lemma cleanup_deletes p held permits c q :
  VaultMutex ∉ held ∧ CommitGate ∉ held → others_had p q → resting ({[VaultMutex]} ∪ held) permits q → passes (world p) (world q) →
  consistent p →
  triple (λ s, s = q)
    (result ← attempt (delete_passkey_with_before_commit_and_check c (recovery_should_abort registration deadline)
       (take_gate (recovery_interrupted registration deadline)));
     release_failed_commit_guard result;;
     match result with
     | Ok _ | Err AccountNotFound => mret None
     | Err AccountAborted | Err AccountLocked => recovery_ends registration deadline
     | Err AccountConflict | Err AccountFailed => mret (Some failed)
     | Panic => of_result Panic
     end)
    (λ o s, recovers p held permits o (drops s)) (λ err s, err = DispatchInternal ∧ settled p held permits (drops s)).
Proof.
  intros Hf Hq Hr Hps Hc. set (inside := {[VaultMutex]} ∪ held).
  assert (consistent q) as Hcq by (by eapply others_had_consistent).
  assert (∀ h s, h ∖ {[VaultMutex]} ∖ {[CommitGate]} = held → resting h permits s → consistent s → passes (world p) (world s) →
    settled p held permits (drops s)) as Hset by (intros h s Hh ? ? ?; by apply (settled_drops p held permits h)).
  apply (mutate_rule held permits (take_gate (recovery_interrupted registration deadline)) (λ _, True) (λ _, True)
    (λ _ : unit, passkey_deleted c)); try done.
  - apply recovery_gates. set_solver.
  - intros q' k m Hin Hb. by apply delete_passkey_updates; [|apply recovery_watches|].
  - intros. by apply (locked_mutation _ _ _ (λ _, tt)).
  - intros [] s (Hps' & k & m & m' & _ & _ & Hin & (Hh & Hp & _) & _). apply triple_ret. intros ? ->. split; [|done].
    apply (Hset ({[CommitGate]} ∪ inside)); [set_solver|by split_and!|right; by exists k, m'|passing].
  - intros error s Ha Hs.
    assert (consistent s ∧ passes (world p) (world s)) as [Hcs Hp'].
    { destruct (after_error held permits (λ _, True) (λ _, True) _ q error s Ha) as [->|(_ & Hsame & ?)].
      - destruct Ha as (? & _ & Hl & _). split; [by left|passing].
      - split; [by eapply consistent_same_vault|passing]. }
    assert (inside ∖ {[VaultMutex]} ∖ {[CommitGate]} = held) as Hback by set_solver.
    assert (∀ o, match o with Some outcome => declined outcome | None => True end →
      triple (λ s', s' = s) (mret o) (λ o s, recovers p held permits o (drops s))
        (λ err s, err = DispatchInternal ∧ settled p held permits (drops s))) as Hret.
    { intros o Ho. apply triple_ret. intros ? ->. split; [by eapply Hset|done]. }
    assert (triple (λ s', s' = s) (recovery_ends registration deadline) (λ o s, recovers p held permits o (drops s))
      (λ err s, err = DispatchInternal ∧ settled p held permits (drops s))) as Hends.
    { eapply triple_weaken; [apply (recovery_ends_rule s inside permits)|by intros ? ->; apply hosting_refl|..].
      - intros o s' [Hs' Ho]. split; [|done]. pose proof (hosting_same_vault _ _ _ Hs'). destruct Hs' as (_ & _ & ? & ?).
        eapply Hset; [done|done|by eapply consistent_same_vault|passing].
      - intros err s' [-> Hs']. split; [done|]. pose proof (hosting_same_vault _ _ _ Hs'). destruct Hs' as (_ & _ & ? & ?).
        eapply Hset; [done|done|by eapply consistent_same_vault|passing]. }
    destruct error; (exact Hends || by apply Hret).
Qed.

Lemma hosting_recovers p held permits o s :
  consistent p → hosting p (idle held permits) s → match o with Some outcome => declined outcome | None => True end →
  recovers p held permits o s.
Proof. intros Hc Hs Ho. split; [by apply hosting_settled|done]. Qed.
Lemma recovery_stops p held permits :
  consistent p →
  triple (hosting p (idle held permits)) (recovery_ends registration deadline) (recovers p held permits) (fails p held permits).
Proof.
  intros Hc. eapply triple_weaken; [apply recovery_ends_rule|done|..].
  - intros o s [Hs Ho]. by apply hosting_recovers.
  - intros err s [-> Hs]. split; [done|by apply hosting_settled].
Qed.

Lemma cleanup_recovered_rule p held permits c :
  VaultMutex ∉ held ∧ CommitGate ∉ held → consistent p →
  triple (hosting p (idle held permits)) (cleanup_recovered registration deadline c)
    (recovers p held permits) (fails p held permits).
Proof.
  intros Hf Hc. unfold cleanup_recovered.
  eapply triple_bind; [apply idles_in_world, idles_interrupted|intros []; [by apply recovery_stops|]].
  eapply triple_bind; [apply attempt_inert_rule, remove_cached_credential_inert|intros r; cbn beta].
  apply (triple_from (hosting p (idle held permits))); [by intros s [? _]|].
  destruct (negb (is_ok r)); [by apply triple_ret; intros s Hs; apply hosting_recovers|].
  eapply triple_bind; [apply idles_in_world, idles_interrupted|intros []; [by apply recovery_stops|]].
  unfold with_commit_guard. apply finally_rule. apply with_vault_rule; [apply Hf|..].
  - intros q Hq Hr Hps. by apply cleanup_deletes.
  - intros q Hq (Hh & Hp & _) Hps. split; [done|].
    destruct (drop_same CommitGate q) as [Hsame ?]. split_and!; [|eapply consistent_same_vault; [done|by eapply others_had_consistent]|passing].
    destruct (drop_rule q (idle held permits) (idle held permits) CommitGate q) as (_ & _ & _ & ?); [|by apply hosting_refl|done].
    intros x (Hx & ? & _). split_and!; [cbn; rewrite Hx; destruct Hf; set_solver|done|done].
Qed.

Lemma cleanup_all_rule held permits cs p :
  VaultMutex ∉ held ∧ CommitGate ∉ held → consistent p →
  triple (hosting p (idle held permits)) (cleanup_all registration deadline cs)
    (recovers p held permits) (fails p held permits).
Proof.
  intros Hf. revert p. induction cs as [|c cs IH]; intros p Hc; cbn [cleanup_all].
  { apply triple_ret. intros s Hs. by apply hosting_recovers. }
  eapply triple_bind; [by apply cleanup_recovered_rule|intros [o|]]; [by apply triple_ret|].
  apply triple_pre. intros q [Hs _]. pose proof Hs as (Hr & Hcq & _).
  eapply triple_weaken; [apply (IH q Hcq)|by intros ? ->; apply hosting_refl|..].
  - intros o s [? ?]. split; [by eapply settled_trans|done].
  - intros err s [-> ?]. split; [done|by eapply settled_trans].
Qed.

Lemma pending_ids_rule q held permits :
  consistent q → resting held permits q →
  triple (λ s, s = q) (attempt (pending_passkey_credential_ids_with_check (recovery_should_abort registration deadline)))
    (λ r s, r ≠ Panic ∧ settled q held permits s) (fails q held permits).
Proof.
  intros Hc Hr. apply attempt_rule. destruct Hc as [Hl|(key & m & Hin)].
  - intros s ->. assert (pending_passkey_credential_ids_with_check (recovery_should_abort registration deadline) q = (Err AccountLocked, q))
      as -> by (by apply locked_refuses). split; [done|]. split_and!; [done|by left|done].
  - assert (informs q (pending_passkey_credential_ids_with_check (recovery_should_abort registration deadline)) (λ _, True)) as Hi.
    { apply (informs_intro q key m); [done|intros; apply pending_keeps, recovery_watches|done]. }
    assert (∀ s, at_rest q s → settled q held permits s) as Hset.
    { intros s [Ha [Hm Hk]]. destruct (moves_following (idle held permits) _ _ (stable_idle held permits) Hm Hr).
      split_and!; [done|right; exists key, m; by eapply in_sync_kept|done]. }
    eapply triple_weaken; [apply Hi|done|..].
    + intros ids s [? _]. split; [done|by apply Hset].
    + intros err s [(-> & Hl & _ & Hm & Hk)|[? _]]; (split; [done|]); [|by apply Hset].
      destruct (moves_following (idle held permits) _ _ (stable_idle held permits) Hm Hr). split_and!; [done|by left|done].
Qed.

Lemma settled_drop_vault p held permits q s :
  VaultMutex ∉ held → others_had p q → consistent p → passes (world p) (world q) →
  settled q ({[VaultMutex]} ∪ held) permits s → settled p held permits (on_world (drop_guard VaultMutex) s).
Proof. intros Hv Hq Hc Hps (? & ? & ?). apply settled_drop; [done|]. split_and!; [done|done|by etrans]. Qed.

Lemma cleanup_rule p held permits :
  VaultMutex ∉ held ∧ CommitGate ∉ held → consistent p →
  triple (hosting p (idle held permits)) (cleanup_recovered_passkey_creations registration deadline)
    (recovers p held permits) (fails p held permits).
Proof.
  intros Hf Hc. set (Q (found : ExecutionOutcome + list bytes) s :=
    settled p held permits s ∧ match found with inl outcome => declined outcome | inr _ => True end).
  unfold cleanup_recovered_passkey_creations. eapply (triple_bind _ _ _ Q).
  - apply with_vault_rule; [apply Hf|..].
    2: { intros q Hq Hr Hps. split; [done|]. split_and!; [done|by eapply others_had_consistent|done]. }
    intros q Hq Hr Hps. assert (consistent q) as Hcq by (by eapply others_had_consistent).
    eapply triple_bind.
    { eapply triple_weaken; [by apply (pending_ids_rule q)|done|intros a s Ha; exact Ha|].
      intros err s [-> ?]. split; [done|]. by eapply settled_drop_vault; [apply Hf|..]. }
    intros r; cbn beta. apply (triple_pre (λ s, r ≠ Panic ∧ settled q ({[VaultMutex]} ∪ held) permits s)). intros s [Hn Hs].
    assert (∀ found, match found with inl outcome => declined outcome | inr _ => True end →
      triple (λ s', s' = s) (mret found) (λ found s', Q found (on_world (drop_guard VaultMutex) s'))
        (λ err s', err = DispatchInternal ∧ settled p held permits (on_world (drop_guard VaultMutex) s'))) as Hret.
    { intros found Ho. apply triple_ret. intros ? ->. split; [|done]. by eapply settled_drop_vault; [apply Hf|..]. }
    assert (triple (λ s', s' = s) (outcome ← recovered_passkey_cleanup_outcome registration deadline; mret (inl outcome))
      (λ found s', Q found (on_world (drop_guard VaultMutex) s'))
      (λ err s', err = DispatchInternal ∧ settled p held permits (on_world (drop_guard VaultMutex) s'))) as Hends.
    { pose proof Hs as (Hrs & Hcs & Hpss).
      assert (∀ s', hosting s (idle ({[VaultMutex]} ∪ held) permits) s' → settled p held permits (on_world (drop_guard VaultMutex) s')) as Hset.
      { intros s' Hs'. eapply settled_drop_vault; [apply Hf|done..|]. eapply settled_trans; [done|]. by apply hosting_settled. }
      apply (triple_from (hosting s (idle ({[VaultMutex]} ∪ held) permits))); [by intros ? ->; apply hosting_refl|].
      eapply triple_bind; [eapply triple_weaken; [apply recovered_outcome_rule|done|intros o s' Ho; exact Ho|]|].
      - intros err s' [-> ?]. split; [done|by apply Hset].
      - intros o. apply triple_ret. intros s' [? ?]. split; [by apply Hset|done]. }
    destruct r as [cs|[]|]; [by apply Hret|(exact Hends || by apply Hret)..|done].
  - intros [outcome|cs]; apply triple_pre; intros q [Hs Ho]; [by apply triple_ret; intros ? ->|].
    pose proof Hs as (Hr & Hcq & _). eapply triple_weaken; [by apply (cleanup_all_rule held permits cs q)|by intros ? ->; apply hosting_refl|..].
    + intros o s [? ?]. split; [by eapply settled_trans|done].
    + intros err s [-> ?]. split; [done|by eapply settled_trans].
Qed.

(** ** Publishing *)

(** The file that was opened is the one at the path of the vault, and no other runtime of
    the process owns it. *)
Definition owns_vault (authenticated : OwnershipRecord) : Prop :=
  ∃ w current, (ownership_record rs_vault_path w).1 = Ok current
    ∧ is_same_existing_target authenticated current = true
    ∧ owned_by_another rs_ownership_token current (sh_owned (shared (ownership_record rs_vault_path w).2)) = false.

Lemma bind_idempotency_rule p held permits (X : Shared → Prop) vault_id (K : DispatchError → W → Prop) :
  IdempotencyMutex ∉ held → stable (holding held permits X) → (∀ x i, X x → X (set_idempotency i x)) → guard_free X →
  (∀ err w, following p (holding held permits X) w → K err w) →
  triple (following p (holding held permits X)) (bind_idempotency vault_id) (λ _, following p (holding held permits X)) K.
Proof.
  intros Hm HX Hi Hf HK. unfold bind_idempotency.
  eapply triple_weaken; [apply (with_mutex_rule (holding held permits X) (λ _, holding held permits X) (λ _, holding held permits X))|done|done|exact HK]; [done|..].
  - intros x Hx. pose proof Hx as (Hh & _). by rewrite Hh.
  - intros x (Hh & Hp & Hx). unfold bind_authenticated_idempotency_vault.
    assert (∀ i, holding held permits X (set_held (λ h, h ∖ {[IdempotencyMutex]})
      (set_idempotency i (set_held (λ h, {[IdempotencyMutex]} ∪ h) x)))) as Hback.
    { intros i. split_and!; [cbn; rewrite Hh; set_solver|done|by apply Hf, Hi, Hf]. }
    repeat case_bool_decide; (split; [by split|apply Hback]).
Qed.

Lemma bind_ownership_rule p held permits (X : Shared → Prop) authenticated vault_id :
  IdempotencyMutex ∉ held → stable (holding held permits X) → (∀ x i, X x → X (set_idempotency i x)) →
  (∀ x f, X x → X (set_owned f x)) → guard_free X →
  triple (hosting p (holding held permits X)) (attempt (in_world (bind_ownership authenticated vault_id)))
    (λ r s, hosting p (holding held permits X) s ∧ (is_ok r = true → owns_vault authenticated))
    (fails p held permits).
Proof.
  intros Hm HX Hi Ho Hf. apply attempt_rule.
  apply (triple_weaken (hosting p (holding held permits X)) _ _ (λ _ s, hosting p (holding held permits X) s ∧ owns_vault authenticated) _
    (λ _, hosting p (holding held permits X))); [|done|by intros [] s [? ?]|done].
  eapply triple_weaken; [apply (in_world_rule p (holding held permits X) _
    (λ _ w, following (world p) (holding held permits X) w ∧ owns_vault authenticated) (λ _, following (world p) (holding held permits X)))|done|..].
  2: { by intros [] s (? & ? & ?). } 2: { by intros err s (? & ?). }
  intros w Hw. unfold bind_ownership. destruct (ownership_record_inert rs_vault_path w) as [Hn Hu].
  assert (following (world p) (holding held permits X) (ownership_record rs_vault_path w).2) as Hw1.
  { eapply following_trans; [exact Hw|]. apply following_moves; [done|apply Hw|done]. }
  destruct (ownership_record rs_vault_path w) as [current w1] eqn:Hrec. cbn [fst snd] in *.
  unfold of_result, mbind, stm_bind.
  destruct (check_authenticated rs_ownership_token current authenticated (sh_owned (shared w1))) as [bound|err|] eqn:Hck; [|done|].
  2: { exfalso. revert Hck. unfold check_authenticated. destruct current; cbn [map_err]; [|done|by destruct Hn]. no_panic. }
  pose proof (bind_idempotency_rule (world p) held permits X vault_id (λ _, following (world p) (holding held permits X))
    Hm HX Hi Hf (λ _ _ H, H) w1 Hw1) as Hb.
  destruct (bind_idempotency vault_id w1) as [[[]|err|] w2]; [|done|done].
  apply check_authenticated_Ok in Hck as (-> & ? & ? & _). split.
  - unfold modify. eapply following_set; [by split| |exact Hb]. destruct Hb as (_ & _ & ? & ? & ?). split_and!; [done|done|by apply Ho].
  - exists w, bound.1. rewrite Hrec. by split_and!.
Qed.

(** No lock is under way, and the request is not cancelled: under the gate this lasts. *)
Definition wanted (x : Shared) : Prop :=
  cd_lock_active (coordinator x) = false ∧ sh_flags x !! rr_cancellation registration ≠ Some true.
Lemma stable_wanted held permits : CommitGate ∈ held → stable (holding held permits wanted).
Proof. intros Hg. apply stable_gate; [done|]. intros s s' _ _ _ Hl Hf [? ?]. split; auto. Qed.
Definition wanted_since (n : Z) (x : Shared) : Prop := wanted x ∧ n ≤ cd_epoch (coordinator x).
Lemma stable_wanted_since held permits n : CommitGate ∈ held → stable (holding held permits (wanted_since n)).
Proof.
  intros Hg. apply stable_and; [by apply stable_wanted|]. apply stable_holding. intros s s' He _ _ ?.
  pose proof (es_epoch _ _ He). lia.
Qed.
Lemma wanted_since_start p held permits s :
  hosting p (holding held permits wanted) s →
  hosting p (holding held permits (wanted_since (cd_epoch (coordinator (shared (world p)))))) s.
Proof.
  intros (Ha & Hf & Hps & Hh & Hp & Hw). split; [done|]. pose proof Hps as [_ Hl].
  split; [done|]. split; [done|]. do 2 (split; [done|]). split; [done|apply Hl].
Qed.

Lemma revoked_rule held permits w0 :
  CommitGate ∈ held →
  triple (following w0 (idle held permits)) (or_else lock_active (or_else is_cancelled not_unlocking))
    (λ b, following w0 (holding held permits (λ x, b = false → wanted x))) (λ (_ : DispatchError) _, False).
Proof.
  intros Hg. set (F1 := λ x, cd_lock_active (coordinator x) = false).
  assert (stable (holding held permits F1)) as HF1.
  { apply stable_gate; [done|]. intros s s' _ _ _ Hl _. exact Hl. }
  assert (∀ F w, following w0 (holding held permits F) w → following w0 (holding held permits (λ x, true = false → wanted x)) w) as Hstop.
  { intros F w Hw. eapply following_weaken; [|exact Hw]. by intros x (? & ? & _). }
  eapply (or_else_rule _ (following w0 (holding held permits F1))).
  { eapply triple_post; [apply (observe_rule (idle held permits) (λ b, holding held permits (λ x, cd_lock_active (coordinator x) = b)));
      [apply stable_idle|by intros x (? & ? & _)]|]. intros [] w Hw; [by eapply Hstop|done]. }
  eapply (or_else_rule _ (following w0 (holding held permits wanted))).
  { eapply triple_post; [apply (observe_rule (holding held permits F1) (λ b, holding held permits (λ x, F1 x
      ∧ bool_decide (sh_flags x !! rr_cancellation registration = Some true) = b))); [done|by intros x (? & ? & ?)]|].
    intros [] w Hw; [by eapply Hstop|]. eapply following_weaken; [|exact Hw]. intros x (? & ? & ? & Hb).
    apply bool_decide_eq_false in Hb. by split_and!. }
  unfold not_unlocking. eapply (triple_bind _ _ _ (λ _, following w0 (holding held permits wanted))).
  { apply look_rule; [by apply stable_wanted|done]. }
  intros st. apply triple_ret. intros w Hw. eapply following_weaken; [|exact Hw]. intros x (? & ? & ?). by split_and!.
Qed.

(** The epoch moves on: requests of earlier ones stay revoked. *)
Lemma new_epoch_rule p held permits n :
  CommitGate ∈ held →
  triple (hosting p (holding held permits (wanted_since n))) (in_world advance_epoch_without_cancellation)
    (λ _, hosting p (holding held permits (wanted_since (n + 1))))
    (λ err s, err = DispatchInternal ∧ hosting p (idle held permits) s).
Proof.
  intros Hg. unfold advance_epoch_without_cancellation, increment_epoch.
  eapply triple_weaken; [apply (call_rule p (holding held permits (wanted_since n)) _
    (λ _, holding held permits (wanted_since (n + 1))) (λ err x, err = DispatchInternal ∧ idle held permits x))|done|done|].
  2: { intros err s (Ha & Hf & Hps & -> & Hi). split; [done|]. by split_and!. }
  apply atomic_rule; [by apply stable_wanted_since|]. intros x (Hh & Hp & [Hw Hn]). cbn zeta. unfold ok_or.
  destruct (checked_add 64 _ 1) as [next|] eqn:Ha; [|by split_and!]. apply checked_add_Some in Ha as [-> ?].
  split; [split; [cbn; lia|done|done|unfold uint; cbn; lia|done]|]. split_and!; [done|done|]. split; [done|cbn; lia].
Qed.
Lemma exchange_rule p held permits (X : Shared → Prop) from to_ (K : DispatchError → Process W → Prop) :
  stable (holding held permits X) → (∀ x, X x → X (set_rt_state (AgentState_code to_) x)) →
  triple (hosting p (holding held permits X)) (in_world (exchange_state from to_))
    (λ _, hosting p (holding held permits X)) K.
Proof.
  intros HX Hs. eapply triple_weaken; [apply (call_rule p (holding held permits X) _
    (λ _, holding held permits X) (λ _ _, False))|done|done|by intros ? ? (_ & _ & _ & ?)].
  apply atomic_rule; [done|]. intros x (? & ? & ?). case_match; (split; [by split|]); split_and!; auto.
Qed.
Lemma epoch_rule p held permits n (K : DispatchError → Process W → Prop) :
  CommitGate ∈ held →
  triple (hosting p (holding held permits (wanted_since n))) (in_world the_epoch)
    (λ e, hosting p (holding held permits (λ x, wanted_since n x ∧ cd_epoch (coordinator x) = e))) K.
Proof.
  intros Hg. eapply triple_weaken; [apply (call_rule p (holding held permits (wanted_since n)) _
    (λ e, holding held permits (λ x, wanted_since n x ∧ cd_epoch (coordinator x) = e)) (λ _ _, False))|done|done|by intros ? ? (_ & _ & _ & ?)].
  apply observe_rule; [by apply stable_wanted_since|]. by intros x (? & ? & ?).
Qed.

(** The vault is open: the response names the new epoch, under which the request is
    authorised. *)
Definition opened_up (p : Process W) (o : ExecutionOutcome) (s : Process W) : Prop :=
  ∃ e body authenticated, encode_status Unlocked e = Ok body ∧ o = success body
    ∧ cd_epoch (coordinator (shared (world p))) < e ∧ authorised e registration (shared (world s))
    ∧ in_time (world p) deadline ∧ owns_vault authenticated.

Section publishing.
Context (p : Process W) (held : gset MutexName) (permits : gset FlagName).
Context (Hg : CommitGate ∉ held) (Hv : VaultMutex ∉ held) (Hregistry : OwnedVaultsMutex ∉ held).
Context (Hidem : IdempotencyMutex ∉ held) (Hc : consistent p).
Context (Hu : u64 (cd_epoch (coordinator (shared (world p))))).
#[local] Abbreviation inside := ({[CommitGate]} ∪ held).
#[local] Abbreviation base := (cd_epoch (coordinator (shared (world p)))).

Definition publishes (h : gset MutexName) (o : ExecutionOutcome) (s : Process W) : Prop :=
  settled p h permits s ∧ (opened_up p o s ∨ declined o ∧ locked (agent s)).

Lemma publishes_drop o s : publishes inside o s → publishes held o (on_world (drop_guard CommitGate) s).
Proof.
  intros [Hs Ho]. split; [by apply settled_drop|]. destruct Ho as [(e & body & a & ? & ? & ? & Ha & ? & ?)|?]; [left|by right].
  exists e, body, a. split_and!; try done. cbn. unfold drop_guard. by rewrite shared_set.
Qed.
Lemma relock_publishes X outcome :
  declined outcome →
  triple (hosting p (holding inside permits X)) (relock outcome) (publishes inside) (fails p inside permits).
Proof.
  intros Hd. apply (triple_from (hosting p (idle inside permits))); [apply hosting_idle|].
  eapply triple_post; [apply relock_rule; [set_solver|done|done]|]. intros o s (? & ? & ?). split; [done|by right].
Qed.

(** After the vault was bound to this runtime. *)
Lemma open_rule authenticated :
  in_time (world p) deadline → owns_vault authenticated →
  triple (hosting p (holding inside permits (wanted_since base)))
    (in_world advance_epoch_without_cancellation;;
     published ← in_world (exchange_state Unlocking Unlocked);
     if negb published then relock cancelled else
     epoch ← in_world the_epoch;
     body ← encoded (encode_status Unlocked epoch);
     mret (success body))
    (publishes inside) (fails p inside permits).
Proof.
  intros Ht Ho. assert (CommitGate ∈ inside) as Hgi by set_solver.
  eapply triple_bind.
  { eapply triple_weaken; [by apply new_epoch_rule|done|intros n s Hs; exact Hs|]. intros err s [-> Hs].
    split; [done|by apply hosting_settled]. }
  intros n. cbn beta. eapply triple_bind; [apply exchange_rule; [by apply stable_wanted_since|done]|intros published; cbn beta].
  destruct published; cbn [negb]; [|by apply relock_publishes].
  eapply triple_bind; [by apply epoch_rule|intros e; cbn beta]. apply triple_pre. intros s1 Hs1.
  assert (u64 e) as He1.
  { destruct Hs1 as (_ & _ & [_ Hl] & _ & _ & _ & <-). by apply (lt_u64 _ _ Hl). }
  apply (triple_from (hosting p (holding inside permits (λ x, wanted_since (base + 1) x ∧ cd_epoch (coordinator x) = e))));
    [by intros ? ->|].
  eapply triple_bind.
  { eapply triple_weaken; [apply encoding_rule; pose proof (encode_status_ok Unlocked e He1); by destruct (encode_status Unlocked e)|done|intros b s Hs; exact Hs|].
    intros err s [-> Hs]. split; [done|by eapply hosting_settled, hosting_idle]. }
  intros body. apply triple_ret. intros s [Hb Hs]. split; [by eapply hosting_settled, hosting_idle|left].
  destruct Hs as (_ & _ & _ & _ & _ & [[Hl Hf] Hn] & He).
  exists e, body, authenticated. split_and!; try done; lia.
Qed.

Lemma publish_rule authenticated vault_id :
  triple (hosting p (idle held permits)) (publish_authenticated_unlock registration deadline authenticated vault_id)
    (publishes held) (fails p held permits).
Proof.
  assert (CommitGate ∈ inside) as Hgi by set_solver. assert (OwnedVaultsMutex ∉ inside) as Hri by set_solver.
  unfold publish_authenticated_unlock. apply (guarded_keeps p held permits CommitGate (λ _, True)); [done|apply stable_idle|done|done|].
  apply (triple_post _ _ (publishes inside)); [|apply publishes_drop].
  eapply (triple_bind _ _ _ (λ b : bool, hosting p (holding inside permits (λ x, b = false → wanted x)))).
  { eapply triple_weaken; [apply (in_world_rule p (idle inside permits)); by apply revoked_rule|done|done|by intros ? ? [_ []]]. }
  intros []; [by apply relock_publishes|].
  apply (triple_from (hosting p (holding inside permits wanted))).
  { intros s [? Hs]. split; [done|]. eapply following_weaken; [|exact Hs]. intros x (? & ? & ?). split_and!; auto. }
  eapply (triple_bind _ _ _ (λ late s, hosting p (holding inside permits wanted) s ∧ (late = false → in_time (world p) deadline))).
  { eapply triple_weaken; [apply (in_world_rule p (holding inside permits wanted));
      by apply (past_rule (holding inside permits wanted) (λ _ _, False)), stable_wanted|done| |].
    - by intros b s (? & ? & ?).
    - by intros ? ? [_ ?]. }
  intros []; [apply (triple_from (hosting p (holding inside permits wanted))); [by intros s [? _]|by apply relock_publishes]|].
  apply (triple_pre (λ s, hosting p (holding inside permits wanted) s ∧ (false = false → in_time (world p) deadline))).
  intros s0 [Hs0 Ht]. specialize (Ht eq_refl). apply (triple_from (hosting p (holding inside permits wanted))); [by intros ? ->|].
  destruct authenticated as [authenticated|]; [|by apply relock_publishes].
  set (Bound r s := hosting p (holding inside permits wanted) s ∧ (is_ok (r : result DispatchError unit) = true → owns_vault authenticated)).
  eapply (triple_bind _ _ _ Bound).
  { apply guarded_keeps; [done|by apply stable_wanted|by intros f x ?|done|].
    eapply triple_post; [apply bind_ownership_rule; [set_solver|apply stable_wanted; set_solver|by intros x i ?|by intros x f ?|by intros f x ?]|].
    intros r s [Hs Ho]. split; [|done]. revert Hs. apply drop_rule. intros x (Hh & ? & ?). split_and!; [cbn; rewrite Hh; set_solver|done|done]. }
  intros r. apply triple_pre. intros s1 [Hs1 Ho]. apply (triple_from (hosting p (holding inside permits wanted))); [by intros ? ->|].
  destruct (is_ok r); cbn [negb]; [|by apply relock_publishes].
  apply (triple_from (hosting p (holding inside permits (wanted_since base)))); [apply wanted_since_start|].
  apply (open_rule authenticated Ht). by apply Ho.
Qed.
End publishing.

(** ** Unlocking *)

Section unlock.
Context (p : Process W) (held : gset MutexName) (permits : gset FlagName) (password : bytes).
Context (Hg : CommitGate ∉ held) (Hv : VaultMutex ∉ held) (Hregistry : OwnedVaultsMutex ∉ held).
Context (Hidem : IdempotencyMutex ∉ held) (Hkdf : KdfFlag ∉ permits) (Hc : consistent p).
Context (Hu : u64 (cd_epoch (coordinator (shared (world p))))).
#[local] Abbreviation with_kdf := ({[KdfFlag]} ∪ permits).

Lemma begin_unlock_rule ps :
  triple (hosting p (idle held ps)) begin_unlock
    (λ o s, hosting p (idle held ps) s ∧ match o with Some outcome => declined outcome | None => True end)
    (fails p held ps).
Proof.
  set (inside := {[CommitGate]} ∪ held). assert (CommitGate ∈ inside) as Hgi by (subst inside; set_solver).
  unfold begin_unlock. apply (guarded_keeps p held ps CommitGate (λ _, True)); [done|apply stable_idle|done|done|].
  apply (triple_post _ _ (λ o s, hosting p (idle inside ps) s ∧ match o with Some outcome => declined outcome | None => True end)).
  2: { intros o s [Hs Ho]. split; [|done]. revert Hs. apply drop_rule. intros x Hx%(idle_drop _ _ CommitGate).
    assert (inside ∖ {[CommitGate]} = held) as Hb by (subst inside; set_solver). by rewrite Hb in Hx. }
  eapply triple_bind; [apply idles_in_world, idles_look|intros []; [by apply triple_ret|]].
  eapply triple_bind; [apply (exchange_rule p inside ps (λ _, True)); [apply stable_idle|done]|intros [];
    by apply triple_ret; intros s Hs].
Qed.

(** The vault was opened with the password, and published. *)
Definition unlocked_with (o : ExecutionOutcome) (s : Process W) : Prop :=
  ∃ q s1, unlocked_by password q ∧ passes (world p) (world q) ∧ passes (world q) (world s1)
    ∧ opened_up p o s1 ∧ passes (world s1) (world s).
(** Or the request is declined: before anything was begun, or with the agent locked. *)
Definition unlock_ends (ps : gset FlagName) (o : ExecutionOutcome) (s : Process W) : Prop :=
  settled p held ps s
  ∧ (unlocked_with o s ∨ declined o ∧ (locked (agent s) ∨ hosting p (idle held ps) s)).

Lemma unlock_ends_later o s s' ps ps' :
  settled p held ps' s' → agent s' = agent s → passes (world s) (world s') →
  (hosting p (idle held ps) s → hosting p (idle held ps') s') → unlock_ends ps o s → unlock_ends ps' o s'.
Proof.
  intros Hs' Ha Hps Hh [_ Ho]. split; [done|]. destruct Ho as [(q & s1 & ? & ? & ? & ? & ?)|(? & [?|?])].
  - left. exists q, s1. split_and!; try done. by etrans.
  - right. split; [done|]. left. by rewrite Ha.
  - right. split; [done|]. right. auto.
Qed.
Lemma relocked_ends q ps o s : settled p held ps q → relocked q held ps o s → unlock_ends ps o s.
Proof. intros Hq (? & ? & ?). split; [by eapply settled_trans|]. right. split; [done|by left]. Qed.

Lemma opened_up_earlier q o s : passes (world p) (world q) → opened_up q o s → opened_up p o s.
Proof.
  intros Hps (e & body & a & ? & ? & ? & ? & ? & ?). exists e, body, a. split_and!; try done.
  - pose proof (lt_epoch _ _ (ps_later _ _ Hps)). lia.
  - by eapply in_time_earlier.
Qed.

(** With the session of the agent, or its error. *)
Lemma after_core_rule q ps out :
  core_ends p held ps password out q →
  triple (λ s, s = q)
    (let '(result, authenticated_vault_id) := out in
     revoked ← in_world is_cancelled;
     if revoked : bool then relock cancelled else
     late ← in_world (past deadline);
     if late : bool then relock deadline_outcome else
     match result with
     | Ok _ =>
         authenticated_vault_id ← of_result (ok_or authenticated_vault_id DispatchInternal);
         recovered ← cleanup_recovered_passkey_creations registration deadline;
         match recovered with
         | Some outcome => relock outcome
         | None => λ p : Process W,
             publish_authenticated_unlock registration deadline (sh_authenticated_ownership (shared (world p))) authenticated_vault_id p
         end
     | Err AgentUnlockCancelled => in_world set_locked_unless_shutting_down;; mret cancelled
     | Err AgentUnlockFailed => in_world set_locked_unless_shutting_down;; mret Outcome.failed
     | Panic => of_result Panic
     end)
    (unlock_ends ps) (fails p held ps).
Proof.
  destruct out as [result vid]. intros [Hs Hr]. pose proof Hs as (Hrs & Hcq & Hps). cbn [fst snd] in Hr.
  assert (∀ outcome, declined outcome →
    triple (hosting q (idle held ps)) (relock outcome) (unlock_ends ps) (fails p held ps)) as Hrelock.
  { intros outcome Hd. eapply triple_weaken; [by apply (relock_rule q)|done|..].
    - intros o s Ho. by eapply relocked_ends.
    - intros err s [-> ?]. split; [done|by eapply settled_trans]. }
  apply (triple_from (hosting q (idle held ps))); [by intros ? ->; apply hosting_refl|].
  eapply triple_bind; [apply idles_in_world, idles_look|intros []; [by apply Hrelock|]].
  eapply triple_bind; [apply idles_in_world, idles_past|intros []; [by apply Hrelock|]].
  assert (triple (hosting q (idle held ps)) (in_world set_locked_unless_shutting_down)
    (λ _, hosting q (idle held ps)) (fails p held ps)) as Hset by apply set_locked_rule.
  assert (∀ outcome s, declined outcome → locked (agent q) → hosting q (idle held ps) s → unlock_ends ps outcome s) as Hlocked.
  { intros outcome s Hd Hl Hh. pose proof Hh as (Ha & _). split; [eapply settled_trans; [done|by apply hosting_settled]|].
    right. split; [done|]. left. by rewrite Ha. }
  destruct result as [[]|[]|]; [| | |done].
  2-3: eapply triple_bind; [exact Hset|intros []; apply triple_ret; intros s Hh; by apply Hlocked].
  destruct Hr as [Hun [vault_id ->]]. apply (triple_bind _ _ _ (λ id, hosting q (idle held ps))); [by intros s Hh|intros id].
  eapply triple_bind.
  { eapply triple_weaken; [by apply (cleanup_rule q held ps)|done|intros o s Ho; exact Ho|].
    intros err s [-> ?]. split; [done|by eapply settled_trans]. }
  intros [outcome|]; apply triple_pre; intros q1 [Hs1 Ho]; pose proof Hs1 as (Hr1 & Hc1 & Hps1).
  - apply (triple_from (hosting q1 (idle held ps))); [by intros ? ->; apply hosting_refl|].
    eapply triple_weaken; [by apply (relock_rule q1)|done|..].
    + intros o s Hrl. eapply relocked_ends; [|exact Hrl]. by eapply settled_trans.
    + intros err s [-> ?]. split; [done|]. eapply settled_trans; [done|]. by eapply settled_trans.
  - intros s ->. assert (u64 (cd_epoch (coordinator (shared (world q1))))) as Hu1.
    { apply (lt_u64 (shared (world p))); [|done]. apply ps_later. by etrans. }
    pose proof (publish_rule q1 held ps Hg Hv Hregistry Hidem Hc1 Hu1
      (sh_authenticated_ownership (shared (world q1))) id q1 (hosting_refl q1 _ Hr1)) as Hpub.
    destruct (publish_authenticated_unlock _ _ _ _ q1) as [[o|err|] s]; [| |done].
    + destruct Hpub as [Hs2 Ho2]. pose proof Hs2 as (_ & _ & Hps2).
      split; [eapply settled_trans; [done|]; by eapply settled_trans|]. destruct Ho2 as [Ho2|[? ?]]; [left|right; by split; [|left]].
      exists q, s. split_and!; [done|done|by etrans| |done]. eapply opened_up_earlier; [|exact Ho2]. by etrans.
    + destruct Hpub as [-> ?]. split; [done|]. eapply settled_trans; [done|]. by eapply settled_trans.
Qed.

Lemma unlock_vault_rule :
  triple (hosting p (idle held permits)) (Unlocking.unlock_vault registration deadline password)
    (unlock_ends permits) (fails p held permits).
Proof.
  assert (∀ ps o s, declined o → hosting p (idle held ps) s → unlock_ends ps o s) as Hearly.
  { intros ps o s Hd Hh. split; [by apply hosting_settled|]. right. split; [done|by right]. }
  assert (triple (hosting p (idle held permits)) (in_world the_state) (λ _, hosting p (idle held permits)) (fails p held permits)) as Hst.
  { eapply triple_post; [by apply (state_keeps held permits (λ _, True)), stable_idle|]. intros st s. apply hosting_idle. }
  unfold Unlocking.unlock_vault. eapply triple_bind; [exact Hst|intros st; cbn beta].
  case_bool_decide; [by apply triple_ret; intros s Hh; apply Hearly|].
  eapply triple_bind; [exact Hst|intros st'; cbn beta]. case_bool_decide; [by apply triple_ret; intros s Hh; apply Hearly|].
  eapply (triple_weaken _ _ _ (unlock_ends permits) _ (fails p held permits)); [|done..].
  apply (with_flag_rule p held permits KdfFlag); [done|intros s Hh; by apply Hearly|].
  apply (triple_weaken (hosting p (idle held with_kdf)) _ _ (unlock_ends with_kdf) _ (fails p held with_kdf)); [|done|..].
  2: { intros o s Ho. pose proof Ho as [Hs _]. apply (unlock_ends_later o s _ with_kdf); [by apply settled_flag|done| |by apply flag_drop_rule|done].
    by apply (flag_drop_same held permits KdfFlag s Hkdf), Hs. }
  2: { intros err s [-> ?]. split; [done|by apply settled_flag]. }
  unfold or_invalid. destruct (MasterPassword_new password) as [pw|err|] eqn:Hpw; [| |].
  3: { revert Hpw. unfold MasterPassword_new. by destruct (_ >? _). }
  2: { apply triple_ret. intros s Hh. by apply Hearly. }
  assert (pw = password) as -> by (revert Hpw; unfold MasterPassword_new; destruct (_ >? _); by intros [=]).
  apply (unless_rule _ (hosting p (idle held with_kdf))).
  { eapply triple_post; [apply begin_unlock_rule|]. intros [o|] s [Hh Ho]; [by apply Hearly|done]. }
  apply (triple_bind _ _ _ (λ _, hosting p (idle held with_kdf))).
  { apply triple_modify. intros s [Ha Hs]. split; [done|]. eapply following_set; [by split| |exact Hs]. apply Hs. }
  intros []. eapply triple_bind; [by apply unlock_core_rule|]. intros out. apply triple_pre. intros q Hq.
  by apply after_core_rule.
Qed.
End unlock.
End unlocking.

(** ** Properties *)

Section properties.
Context `{MinicborLaws, CryptoLaws, UrlLaws, RuntimeSetup}.
Context {W : Type} `{AgentLaws W, !EnvLaws W, !Threads W, !Connections, !ThreadsModel W, !ThreadsLaws W, !StorageLaws W, !PathInspection W, !InspectionLaws W, !PasskeyRequestVerifier W, !VerifierLaws W}.

End properties.

(** ** Examples *)

Module Examples.
Import Rfc8949 Toy VaultCore.Examples VaultRefine.Examples MemoryDisk AgentRefine.Examples RuntimeRefine.Examples RollbackRefine.Examples.

(** Every path is a file of its own, which exists. *)
#[export] Instance plain_paths {X} : PathInspection (Disk X) := {|
  fs_is_file _ := mret true;
  fs_symlink_exists _ := mret tt;
  canonicalize path := mret path;
  path_parent _ := None;
  path_file_name path := Some path;
  path_into_string path := Some path;
  to_lowercase path := path;
  same_file_handle path := mret {| fi_volume := 1; fi_file := len path |};
|}.
#[export] Instance plain_paths_laws {X} : InspectionLaws (Disk X).
Proof. by split. Qed.
#[export] Instance example_setup : RuntimeSetup :=
  {| rs_vault_path := file_path; rs_idempotency_fingerprint_key := zeros 32; rs_ownership_token := 1;
     rs_windows_hello_provider := true; rs_windows_hello_state := true |}.

Definition waiting : Process (Disk Shared) :=
  locked_agent_with (set_owned (λ _, {[1 := {| ro_vault := {| or_normalized_path := file_path; or_identity := None |};
    ro_windows_hello_state := None |}]}) (set_rt_state (AgentState_code Types.Locked) memory)).
Definition unlock_run := Unlocking.unlock_vault request 100 password waiting.
Lemma unlock_succeeds : (eo_error <$> match unlock_run.1 with Ok o => Some o | _ => None end) = Some None.
Proof. vm_compute. reflexivity. Qed.

End Examples.
