(* ===== verification/HelloRefine.v ===== *)
(** * No credential of Windows Hello is forgotten

    Whatever the platform answers, each credential that it holds for this installation
    stays recorded in the protected state, as the one in use or as one that is still to
    be removed, unless the operation says that it failed for good. *)

From S2P Require Import Prelude RustStd Cbor Wire Types Message Session Operations Browser VaultFormat VaultRecords VaultKeys VaultStore VaultCore VaultRefine Storage Agent AgentRefine Outcome Idempotency Ownership Threads Runtime Fill Passkeys Unlocking WindowsHello Protection Rely RuntimeRefine PasskeyRefine RollbackRefine UnlockRefine.

(** The credentials that the platform holds for this installation, and the state that is
    stored. *)
Record Hello := { h_held : gset bytes; h_stored : option WindowsHelloLocalState }.
Class HelloModel (W : Type) := { hello : W → Hello }.

(** The credentials that a stored state names. *)
Definition recorded (stored : option WindowsHelloLocalState) : gset bytes :=
  match stored with
  | Some (Enrollment _ _ _ credential_id pending _ _) => {[credential_id]} ∪ from_option singleton ∅ pending
  | Some (PendingRemoval credential_id) => {[credential_id]}
  | None => ∅
  end.

(** Nothing is forgotten but [F], which was forgotten before. *)
Definition accounted (F : gset bytes) (h : Hello) : Prop := h_held h ⊆ recorded (h_stored h) ∪ F.

(** What the code relies on.  While this thread has the gate of Windows Hello, nobody else
    uses the platform's credentials or the stored state.  A credential is held once it
    was made; after a failed removal it may or may not be; a state that was published is
    stored, one that was not leaves the old one, and a failed removal of the state may
    have removed it. *)
Class HelloLaws `{Minicbor, Crypto, UrlCrate} (W : Type)
    `{StorageModel W, Threads W, WindowsHelloProvider W, WindowsHelloStateRepository W, Ceremonies W, HelloModel W} : Prop := {
  hello_moves w w' : WindowsHelloGate ∈ sh_held (shared w) → moves w w' → hello w' = hello w;
  hello_set s w : hello (set_shared s w) = hello w;
  hello_watching w : shared (watcher_rounds w).2 = shared w ∧ hello (watcher_rounds w).2 = hello w;
  hello_cancelling id w : shared (hello_cancel id w) = shared w ∧ hello (hello_cancel id w) = hello w;
  hello_enrolling parent process id w :
    let '(r, w') := hello_enroll parent process id w in
    shared w' = shared w ∧ h_stored (hello w') = h_stored (hello w) ∧
    match r with
    | Ok e => h_held (hello w') = {[en_credential_id e]} ∪ h_held (hello w)
    | Err (WindowsHelloProviderError.CleanupRequired c) => h_held (hello w') = {[c]} ∪ h_held (hello w)
    | Err _ => h_held (hello w') = h_held (hello w)
    | Panic => False
    end;
  hello_removing c w :
    let '(r, w') := hello_remove c w in
    shared w' = shared w ∧ h_stored (hello w') = h_stored (hello w) ∧
    match r with
    | Ok _ => h_held (hello w') = h_held (hello w) ∖ {[c]}
    | Err _ => h_held (hello w') ⊆ h_held (hello w)
    | Panic => False
    end;
  hello_loading w :
    let '(r, w') := hello_load w in
    shared w' = shared w ∧ hello w' = hello w ∧
    match r with
    | Ok state => h_stored (hello w) = Some state
    | Err WindowsHelloStateError.NotFound => h_stored (hello w) = None
    | Err _ => True
    | Panic => False
    end;
  hello_saving state w :
    let '(r, w') := hello_save state w in
    shared w' = shared w ∧ h_held (hello w') = h_held (hello w) ∧ r ≠ Panic ∧
    h_stored (hello w') = (if is_published r then Some state else h_stored (hello w));
  hello_removing_state w :
    let '(r, w') := hello_remove_state w in
    shared w' = shared w ∧ h_held (hello w') = h_held (hello w) ∧
    match r with
    | Ok _ | Err WindowsHelloStateError.NotFound => h_stored (hello w') = None
    | Err _ => h_stored (hello w') = h_stored (hello w) ∨ h_stored (hello w') = None
    | Panic => False
    end;
}.

Lemma bind_state_total token record r registry registry' :
  record ≠ Panic → bind_windows_hello_state token record registry = (r, registry') → r ≠ Panic.
Proof.
  intros Hr. unfold bind_windows_hello_state. destruct record as [record|e|]; [|by intros [= <- _]|done]. cbn.
  unfold mbind, stm_bind, guard_st, fail_after, get, of_result, ok_or. cbn.
  repeat (case_match; simplify_eq/=; try done); by intros [= <- _].
Qed.

Section hello.
Context `{MinicborLaws, CryptoLaws, UrlLaws, RuntimeSetup}.
Context {W : Type} `{AgentLaws W, !EnvLaws W, !Threads W, !Connections, !ThreadsModel W, !ThreadsLaws W, !StorageLaws W, !PathInspection W, !InspectionLaws W}.
Context `{!WindowsHelloProvider W, !WindowsHelloStateRepository W, !Ceremonies W, !HelloModel W, !HelloLaws W}.
Abbreviation rt A := (ag (W:=W) DispatchError A).

(** ** Triples about credentials and the stored state

    [at_ proj held P]: this thread has the guards [held], and [P] of the credentials and
    the stored state; [proj] gives the world. *)

Section triples.
Context {S : Type} (proj : S → W).
Definition at_ (held : gset MutexName) (P : Hello → Prop) (s : S) : Prop :=
  sh_held (shared (proj s)) = held ∧ P (hello (proj s)).
Definition calls {E A} (held : gset MutexName) (P : Hello → Prop) (m : stm S E A)
    (Q : A → Hello → Prop) (R : E → Hello → Prop) : Prop :=
  triple (at_ held P) m (λ a, at_ held (Q a)) (λ e, at_ held (R e)).

Lemma calls_bind {E A B} held P (m : stm S E A) (k : A → stm S E B) Q Q' R :
  calls held P m Q R → (∀ a, calls held (Q a) (k a) Q' R) → calls held P (m ≫= k) Q' R.
Proof. intros Hm Hk. by eapply triple_bind. Qed.
Lemma calls_ret {E A} held (P : Hello → Prop) (a : A) (Q : A → Hello → Prop) (R : E → Hello → Prop) :
  (∀ h, P h → Q a h) → calls held P (mret a) Q R.
Proof. intros HQ. apply triple_ret. intros s [? ?]. split; auto. Qed.
Lemma calls_throw {E A} held (P : Hello → Prop) (e : E) (Q : A → Hello → Prop) (R : E → Hello → Prop) :
  (∀ h, P h → R e h) → calls held P (throw e) Q R.
Proof. intros HR s [? ?]. split; auto. Qed.
Lemma calls_of_result {E A} held (P : Hello → Prop) (r : result E A) (Q : A → Hello → Prop) (R : E → Hello → Prop) :
  r ≠ Panic → (∀ a h, r = Ok a → P h → Q a h) → (∀ e h, r = Err e → P h → R e h) → calls held P (of_result r) Q R.
Proof.
  intros Hr HQ HR. apply triple_of_result; [by destruct r|..]; intros x s Hx [? ?]; split; auto.
Qed.
Lemma calls_weaken {E A} held (P P' : Hello → Prop) (m : stm S E A) Q Q' R R' :
  calls held P' m Q' R' → (∀ h, P h → P' h) → (∀ a h, Q' a h → Q a h) → (∀ e h, R' e h → R e h) → calls held P m Q R.
Proof. intros Hm HP HQ HR. eapply triple_weaken; [exact Hm|..]; unfold at_; naive_solver. Qed.
Lemma calls_pre {E A} held (P : Hello → Prop) (m : stm S E A) Q R :
  (∀ h, P h → calls held (λ h', h' = h) m Q R) → calls held P m Q R.
Proof. intros Hm s [Hs HP]. by apply (Hm _ HP s). Qed.
Lemma calls_attempt {E F A} held P (m : stm S E A) (Q : result E A → Hello → Prop) (R : F → Hello → Prop) :
  calls held P m (λ a, Q (Ok a)) (λ e, Q (Err e)) → calls held P (attempt m) Q R.
Proof. intros Hm. by apply (attempt_rule (at_ held P) m (λ r, at_ held (Q r))). Qed.
Lemma calls_modify {E} held (P : Hello → Prop) f (Q : unit → Hello → Prop) (R : E → Hello → Prop) :
  (∀ s, shared (proj (f s)) = shared (proj s) ∧ hello (proj (f s)) = hello (proj s)) →
  (∀ h, P h → Q tt h) → calls held P (modify f) Q R.
Proof. intros Hf HQ. apply triple_modify. intros s [Hh HP]. destruct (Hf s) as [Hs Hq]. split; [by rewrite Hs|rewrite Hq; auto]. Qed.
End triples.

(** ** Steps that neither the platform nor the state takes part in *)

Section steps.
Context (held : gset MutexName) (Hgate : WindowsHelloGate ∈ held).
#[local] Abbreviation in_w := (calls (S:=W) id).

Lemma at_moves P w w' : at_ id held P w → moves w w' → at_ id held P w'.
Proof.
  intros [Hh HP] Hm. unfold at_, id in *. destruct (moves_env _ _ Hm) as [He _]. rewrite (es_held _ _ He).
  split; [done|]. by rewrite (hello_moves w w') by (by rewrite ?Hh).
Qed.
(** A call that writes nothing. *)
Lemma keeps_calls {E A} P (m : stm W E A) (R : E → Hello → Prop) :
  keeps_durable m → (∀ e h, P h → R e h) → in_w held P m (λ _, P) R.
Proof.
  intros Hm HR w Hw. destruct (Hm w) as [Hp [Hd _]]. apply (at_moves _ _ _ Hw) in Hd as [? ?].
  destruct (m w) as [[a|e|] w']; [by split|split; auto|done].
Qed.
Lemma observe_calls {E A} P (f : Shared → A) (R : E → Hello → Prop) : in_w held P (observe f) (λ _, P) R.
Proof. intros w Hw. unfold observe. eapply (at_moves _ _ _ Hw), others_unchanged. Qed.
Lemma atomic_calls {E A} P (f : Shared → result E A * Shared) (Q : A → Hello → Prop) (R : E → Hello → Prop) :
  (∀ x, sh_held (f x).2 = sh_held x) → (∀ x h, P h → match (f x).1 with Ok a => Q a h | Err e => R e h | Panic => False end) →
  in_w held P (atomic f) Q R.
Proof.
  intros Hf HQ w Hw. unfold atomic. destruct (at_moves _ _ (others w) Hw) as [Hh HP]; [apply others_unchanged|].
  specialize (Hf (shared (others w))). specialize (HQ (shared (others w)) _ HP). destruct (f _) as [r x]. cbn in *.
  destruct r; [split..|done]; cbn; [by rewrite shared_set, Hf|by rewrite hello_set|by rewrite shared_set, Hf|by rewrite hello_set].
Qed.
Lemma past_calls {E} P deadline (R : E → Hello → Prop) : in_w held P (past deadline) (λ _, P) R.
Proof.
  unfold past. eapply (calls_bind _ _ _ _ _ (λ _, P)); [|intros t; by apply calls_ret].
  intros w Hw. unfold now. pose proof (now_unchanged w) as (_ & Hm & _). destruct (instant_now w) as [t w']. by eapply at_moves.
Qed.
Lemma or_else_calls {E} P (a b : stm W E bool) R :
  in_w held P a (λ _, P) R → in_w held P b (λ _, P) R → in_w held P (or_else a b) (λ _, P) R.
Proof. intros Ha Hb. eapply calls_bind; [exact Ha|]. intros []; [by apply calls_ret|exact Hb]. Qed.
Lemma acquire_calls {E} P m (e : E) :
  m ∉ held → triple (at_ id held P) (acquire m e) (λ _, at_ id ({[m]} ∪ held) P) (λ err w, err = e ∧ at_ id held P w).
Proof.
  intros Hm w Hw. unfold acquire. destruct (at_moves _ _ (others w) Hw) as [Hh HP]; [apply others_unchanged|].
  cbn in Hh. rewrite Hh, decide_False by done. case_decide; [by split|]. split; cbn.
  - by rewrite shared_set, <-Hh.
  - by rewrite hello_set.
Qed.
Lemma drop_at P m w : m ∉ held → at_ id ({[m]} ∪ held) P w → at_ id held P (drop_guard m w).
Proof.
  intros Hm [Hh HP]. unfold drop_guard. split; cbn; [rewrite shared_set; cbn; cbn in Hh; rewrite Hh; set_solver|by rewrite hello_set].
Qed.

Lemma bind_state_calls P path (R : WindowsHelloStateError → Hello → Prop) :
  (∀ h, P h → R WindowsHelloStateError.Failed h) → in_w held P (bind_state path) (λ _, P) R.
Proof.
  intros HR w Hw. unfold bind_state. destruct (ownership_record_inert path w) as [Hn (_ & Hm & _)].
  destruct (ownership_record path w) as [record w1]. cbn in Hn, Hm. apply (at_moves _ _ _ Hw) in Hm as [Hh HP].
  destruct (bind_windows_hello_state _ _ _) as [r owned] eqn:Hb.
  assert (r ≠ Panic) as Hr by (eapply bind_state_total, Hb; done).
  destruct r; [split..|done]; cbn; rewrite ?shared_set, ?hello_set; auto.
Qed.

End steps.

#[local] Abbreviation in_w := (calls (S:=W) id).
#[local] Abbreviation in_p := (calls (S:=Process W) world).
Definition anyhow {E} (_ : E) (_ : Hello) : Prop := True.

(** With the registry: the use of the state, and the second look at its path. *)
Lemma with_registry_calls {A} held P (use : stm W WindowsHelloStateError A) rebound
    (Q : result WindowsHelloStateError A → Hello → Prop) :
  WindowsHelloGate ∈ held → OwnedVaultsMutex ∉ held →
  (∀ m, in_w m P use (λ a, Q (Ok a)) (λ e, Q (Err e))) →
  (∀ h, P h → Q (Err WindowsHelloStateError.Failed) h) → (∀ r h, Q r h → Q (Err (rebound r)) h) →
  in_w held P (with_registry use rebound) (λ a, Q (Ok a)) (λ e, Q (Err e)).
Proof.
  intros Hg Ho Huse HF HR. unfold with_registry. destruct hello_ownership_path as [path|]; [|apply Huse].
  eapply (triple_bind _ _ _ (λ _, at_ id ({[OwnedVaultsMutex]} ∪ held) P)).
  { eapply triple_weaken; [by apply acquire_calls|done|done|]. intros e s [-> [? ?]]. split; auto. }
  intros _. assert (WindowsHelloGate ∈ {[OwnedVaultsMutex]} ∪ held) as Hg' by set_solver.
  set (inside := {[OwnedVaultsMutex]} ∪ held) in *.
  apply finally_rule. apply (triple_weaken (at_ id inside P) _ _ (λ a, at_ id inside (Q (Ok a))) _ (λ e, at_ id inside (Q (Err e))));
    [|done|intros; by apply drop_at..].
  apply (calls_bind id inside P _ _ (λ _, P)); [by apply bind_state_calls|intros _].
  apply (calls_bind id inside P _ _ (λ r h, r ≠ Panic ∧ Q r h)).
  { apply calls_attempt. eapply calls_weaken; [apply Huse|done|by split..]. }
  intros r. apply (calls_bind id inside _ _ _ (λ (_ : result WindowsHelloStateError unit) h, r ≠ Panic ∧ Q r h)).
  { apply calls_attempt. by apply bind_state_calls. }
  intros b. destruct (is_ok b); [|apply calls_throw; intros h [_ ?]; auto].
  apply calls_pre. intros h [Hr HQ]. apply calls_of_result; [done|by intros a h' -> ->|by intros e h' -> ->].
Qed.

(** A call of the platform. *)
Lemma platform_calls {E A} held P (m : stm W E A) (Q : result E A → Hello → Prop) :
  (∀ w, P (hello w) → let '(r, w') := m w in shared w' = shared w ∧ r ≠ Panic ∧ Q r (hello w')) →
  in_w held P m (λ a, Q (Ok a)) (λ e, Q (Err e)).
Proof.
  intros Hm w [Hh HP]. specialize (Hm w HP). unfold at_, id in *. destruct (m w) as [[a|e|] w']; destruct Hm as (Hs & ? & ?); rewrite ?Hs; done.
Qed.

Lemma load_calls held h0 :
  WindowsHelloGate ∈ held → OwnedVaultsMutex ∉ held →
  in_w held (λ h, h = h0) load_windows_hello_state (λ state h, h = h0 ∧ h_stored h0 = Some state)
    (λ e h, h = h0 ∧ (e = WindowsHelloStateError.NotFound → h_stored h0 = None)).
Proof.
  intros Hg Ho. apply (with_registry_calls held _ _ _ (λ r h, h = h0 ∧ match r with
    | Ok state => h_stored h0 = Some state
    | Err e => e = WindowsHelloStateError.NotFound → h_stored h0 = None | Panic => False end)); [done..| | |].
  - intros m. apply (platform_calls m _ _ (λ r h, h = h0 ∧ match r with
      | Ok state => h_stored h0 = Some state
      | Err e => e = WindowsHelloStateError.NotFound → h_stored h0 = None | Panic => False end)).
    intros w <-. pose proof (hello_loading w) as Hl. destruct (hello_load w) as [[state|[]|] w']; naive_solver.
  - by intros h ->.
  - by intros r h [-> _].
Qed.

(** The state after a save that ended with [r], and after a removal. *)
Definition saved (h0 : Hello) (state : WindowsHelloLocalState) (r : result WindowsHelloStateError unit) (h : Hello) : Prop :=
  h_held h = h_held h0 ∧ h_stored h = if is_published r then Some state else h_stored h0.
Definition removed (h0 : Hello) (r : result WindowsHelloStateError unit) (h : Hello) : Prop :=
  h_held h = h_held h0 ∧
  match r with
  | Ok _ | Err WindowsHelloStateError.NotFound => h_stored h = None
  | _ => h_stored h = h_stored h0 ∨ h_stored h = None
  end.
(** The credential [c] after an attempt to remove it. *)
Definition withdrawn {E} (h0 : Hello) (c : bytes) (r : result E unit) (h : Hello) : Prop :=
  h_stored h = h_stored h0 ∧ if is_ok r then h_held h = h_held h0 ∖ {[c]} else h_held h ⊆ h_held h0.
Lemma save_calls held h0 state :
  WindowsHelloGate ∈ held → OwnedVaultsMutex ∉ held →
  in_w held (λ h, h = h0) (save_windows_hello_state state) (λ a, saved h0 state (Ok a)) (λ e, saved h0 state (Err e)).
Proof.
  intros Hg Ho. apply with_registry_calls; [done..| | |].
  - intros m. apply platform_calls. intros w <-. pose proof (hello_saving state w) as Hs.
    destruct (hello_save state w) as [r w']. by destruct Hs as (? & ? & ? & ?).
  - by intros h ->.
  - intros r h [? Hst]. split; [done|]. rewrite Hst. by destruct (is_published r).
Qed.
Lemma remove_state_calls held h0 :
  WindowsHelloGate ∈ held → OwnedVaultsMutex ∉ held →
  in_w held (λ h, h = h0) remove_windows_hello_state (λ a, removed h0 (Ok a)) (λ e, removed h0 (Err e)).
Proof.
  intros Hg Ho. apply with_registry_calls; [done..| | |].
  - intros m. apply platform_calls. intros w <-. pose proof (hello_removing_state w) as Hs.
    destruct (hello_remove_state w) as [[[]|[]|] w']; unfold removed; naive_solver.
  - intros h ->. split; [done|by left].
  - intros [[]|[]|] h [? ?]; (split; [done|]); naive_solver.
Qed.

(** ** The runtime's steps *)

Lemma in_world_calls {E A} held P (m : stm W E A) (Q : A → Hello → Prop) (R : E → Hello → Prop) :
  in_w held P m Q R → in_p held P (in_world m) Q R.
Proof.
  intros Hm s Hs. specialize (Hm (world s) Hs). unfold in_world. by destruct (m (world s)) as [[a|e|] w].
Qed.
(** A call in the world whose result is looked at. *)
Lemma tried_calls {E A} held P (m : stm W E A) (Q : result E A → Hello → Prop) :
  in_w held P m (λ a, Q (Ok a)) (λ e, Q (Err e)) →
  in_p held P (attempt (F:=DispatchError) (in_world m)) (λ r h, r ≠ Panic ∧ Q r h) anyhow.
Proof. intros Hm. apply calls_attempt, in_world_calls. eapply calls_weaken; [exact Hm|done|by split..]. Qed.

Section free.
Context (held : gset MutexName) (Hgate : WindowsHelloGate ∈ held) (Hfree : OwnedVaultsMutex ∉ held) (h0 : Hello).

Lemma publish_calls state :
  in_p held (λ h, h = h0) (publish_state state)
    (λ (b : bool) h, h_held h = h_held h0 ∧ h_stored h = if b then Some state else h_stored h0) anyhow.
Proof.
  unfold publish_state. eapply calls_bind; [by apply tried_calls, save_calls|]. intros r. apply calls_ret.
  by intros h [_ ?].
Qed.
Lemma absent_calls :
  in_p held (λ h, h = h0) ensure_absent_windows_hello_state
    (λ (b : bool) h, h_held h = h_held h0 ∧ (h_stored h = None ∨ b = false ∧ h_stored h = h_stored h0)) anyhow.
Proof.
  unfold ensure_absent_windows_hello_state. eapply calls_bind; [by apply tried_calls, remove_state_calls|].
  intros r. apply calls_ret. intros h [? [? Hr]]. split; [done|]. destruct r as [[]|[]|]; naive_solver.
Qed.
Lemma removal_calls c :
  in_p held (λ h, h = h0) (attempt (F:=DispatchError) (in_world (hello_remove c))) (withdrawn h0 c) anyhow.
Proof.
  eapply calls_weaken; [apply (tried_calls held (λ h, h = h0) _ (withdrawn h0 c))|done|by intros r h [_ ?]|done].
  apply platform_calls. intros w <-. pose proof (hello_removing c w) as Hr.
  destruct (hello_remove c w) as [[[]|e|] w']; unfold withdrawn; naive_solver.
Qed.
End free.

(** ** Nothing is forgotten *)

(** What the runtime keeps of the stored state: an enrollment with nothing pending. *)
Definition clean (previous : option WindowsHelloLocalState) : Prop :=
  match previous with
  | None => True
  | Some (Enrollment _ _ _ _ pending _ _) => pending = None
  | Some (PendingRemoval _) => False
  end.

(** The new state that is being published: it names all that the previous one did. *)
Definition succeeds (previous : option WindowsHelloLocalState) (c : bytes) (local_state : WindowsHelloLocalState) : Prop :=
  credential_id local_state = Some c ∧ pending_removal_credential_id local_state ≠ Some c
  ∧ recorded previous ⊆ recorded (Some local_state)
  ∧ (∀ old, pending_removal_credential_id local_state = Some old → recorded previous = {[old]}).

Lemma local_state_for_succeeds previous binding key e protector local_state :
  clean previous → local_state_for previous binding key e protector = Ok local_state →
  succeeds previous (en_credential_id e) local_state.
Proof.
  intros Hclean Hl. unfold local_state_for in Hl. apply bind_Ok in Hl as (new & Hnew%new_binds & Hm). subst new.
  unfold mark_previous in Hm. destruct previous as [[v k i a q s p|a]|]; cbn [clean] in Hclean; [|done|];
    cbn [mbind option_bind credential_id] in Hm.
  - subst q. case_bool_decide as Ha.
    + apply set_pending_Ok in Hm as (-> & _ & _ & Hne). unfold with_pending, succeeds, recorded.
      split_and!; [done|by intros [= ?]; congruence|set_solver|]. intros old [= <-]. apply (right_id_L ∅ _).
    + apply Ok_inj in Hm as <-. split_and!; cbn;  [done..|set_solver|done].
  - apply Ok_inj in Hm as <-. split_and!; cbn; [done..|set_solver|done].
Qed.

Lemma local_state_for_not_Panic previous binding key e protector : local_state_for previous binding key e protector ≠ Panic.
Proof.
  unfold local_state_for, mark_previous. pose proof (WindowsHelloLocalState_new_not_Panic binding.1 binding.2 key
    (en_credential_id e) (en_prf_salt e) protector). destruct (WindowsHelloLocalState_new _ _ _ _ _ _); [cbn|done..].
  destruct (previous ≫= credential_id); [|done]. case_bool_decide; [apply set_pending_not_Panic|done].
Qed.

Section accounting.
Context (held : gset MutexName) (Hgate : WindowsHelloGate ∈ held) (Hfree : OwnedVaultsMutex ∉ held) (F : gset bytes).

(** [c] is held, perhaps, and not recorded. *)
Definition holds_also (c : bytes) (previous : option WindowsHelloLocalState) (h : Hello) : Prop :=
  h_stored h = previous ∧ h_held h ⊆ {[c]} ∪ (recorded previous ∪ F).

(** An outcome after which nothing is forgotten, or one credential is and the outcome says
    that the operation failed for good. *)
Definition orderly (o : ExecutionOutcome) (h : Hello) : Prop :=
  accounted F h ∨ o = failed ∧ ∃ c, accounted ({[c]} ∪ F) h.

Lemma persist_calls previous c h0 :
  clean previous → holds_also c previous h0 →
  in_p held (λ h, h = h0) (persist_windows_hello_cleanup previous c)
    (λ (b : bool) h, accounted (if b then F else {[c]} ∪ F) h) anyhow.
Proof.
  intros Hclean [Hst Hheld]. assert (accounted ({[c]} ∪ F) h0) as Hleft by (unfold accounted; rewrite Hst; set_solver).
  assert (in_p held (λ h, h = h0) (mret false) (λ (b : bool) h, accounted (if b then F else {[c]} ∪ F) h) (anyhow (E:=DispatchError)))
    as Hfalse by (apply calls_ret; by intros h ->).
  unfold persist_windows_hello_cleanup. destruct previous as [[v k i a q s p|a]|]; cbn in *; [|done|].
  - destruct (fail_if _ _) as [u|e|]; cbn; [|exact Hfalse..].
    eapply calls_weaken; [apply (publish_calls held Hgate Hfree h0)|done| |done]. intros [] h [Hh Hs]; unfold accounted in *; rewrite Hh, Hs; [cbn|done].
    subst q. cbn in Hheld. set_solver.
  - destruct (pending_removal c) as [state|e|] eqn:Hp; [|exact Hfalse..]. apply pending_removal_Ok in Hp as [-> _].
    eapply calls_weaken; [apply (publish_calls held Hgate Hfree h0)|done| |done].
    intros [] h [Hh Hs]; unfold accounted in *; rewrite Hh, Hs; [cbn; set_solver|done].
Qed.

Lemma remove_or_calls previous c outcome h0 :
  clean previous → holds_also c previous h0 →
  in_p held (λ h, h = h0) (remove_windows_hello_credential_or previous c outcome)
    (λ o h, orderly o h ∧ (eo_committed o = true → eo_committed outcome = true)) anyhow.
Proof.
  intros Hclean Hc. unfold remove_windows_hello_credential_or. eapply calls_bind; [by apply removal_calls|].
  intros r. apply calls_pre. intros h [Hst Hh]. destruct Hc as [Hst0 Hheld]. destruct (is_ok r).
  - apply calls_ret. intros h' ->. split; [left|done]. unfold accounted. rewrite Hh, Hst, Hst0. set_solver.
  - eapply calls_bind; [apply (persist_calls previous c h Hclean); split; [congruence|set_solver]|].
    intros b. apply calls_ret. intros h' Hb. destruct b; (split; [|done]); [by left|right; eauto].
Qed.

Lemma retire_calls state h0 :
  h_stored h0 = Some state → accounted F h0 →
  in_p held (λ h, h = h0) (retry_persisted_windows_hello_retirement state)
    (λ r h, accounted F h ∧ vault_binding r.2 = vault_binding state
      ∧ (r.1 = true → if decide (vault_binding state = None) then h_stored h = None
         else h_stored h = Some r.2 ∧ clean (Some r.2) ∧ credential_id r.2 = credential_id state)) anyhow.
Proof.
  intros Hst Hacc. unfold retry_persisted_windows_hello_retirement.
  destruct state as [v k i a q s p|a]; cbn [pending_removal_credential_id]; [destruct q as [c|]|].
  - eapply calls_bind; [by apply removal_calls|]. intros r. apply calls_pre. intros h [Hst1 Hh]. unfold accounted in *. rewrite Hst in *. cbn in *.
    destruct (is_ok r); cbn [negb].
    + eapply calls_bind; [by apply publish_calls|]. intros b. apply calls_ret. intros h' [Hh' Hs']. rewrite Hh', Hs', Hh, Hst1. cbn.
      split; [destruct b; cbn; set_solver|]. split; [done|]. by intros ->.
    + apply calls_ret. intros h' ->. rewrite Hst1. cbn. split; [set_solver|done].
  - apply calls_ret. intros h ->. split; [done|]. split; [done|]. by intros _.
  - eapply calls_bind; [by apply removal_calls|]. intros r. apply calls_pre. intros h [Hst1 Hh]. unfold accounted in *. rewrite Hst in *. cbn in *.
    destruct (is_ok r); cbn [negb].
    + eapply calls_bind; [by apply absent_calls|]. intros b. apply calls_ret. intros h' [Hh' Hs']. rewrite Hh', Hh.
      split; [destruct Hs' as [-> |[_ ->]]; rewrite ?Hst1; cbn; set_solver|]. split; [done|]. intros Hb. cbn in Hb. by destruct Hs' as [?|[? _]]; [|congruence].
    + apply calls_ret. intros h' ->. rewrite Hst1. cbn. split; [set_solver|done].
Qed.

Definition uncommitted (o : ExecutionOutcome) : Prop := eo_committed o = false.

Lemma rollback_calls previous replacement c h0 :
  clean (Some previous) → credential_id replacement = Some c → h_held h0 ⊆ {[c]} ∪ (recorded (Some previous) ∪ F) →
  accounted F h0 →
  in_p held (λ h, h = h0) (rollback_windows_hello_enrollment previous replacement)
    (λ o h, orderly o h ∧ uncommitted o) anyhow.
Proof.
  intros Hclean Hc Hh Hacc. unfold rollback_windows_hello_enrollment. rewrite Hc.
  assert (in_p held (λ h, h = h0) (mret failed) (λ o h, orderly o h ∧ uncommitted o) (anyhow (E:=DispatchError))) as Hfail.
  { apply calls_ret. intros h ->. split; [by left|done]. }
  destruct (credential_id previous) as [a|]; [|exact Hfail]. case_bool_decide; [exact Hfail|].
  eapply calls_bind; [by apply publish_calls|]. intros b. apply calls_pre. intros h [Hheld Hst].
  destruct b; cbn [negb]; [|apply calls_ret; intros h' ->; split; [left; unfold accounted in *; by rewrite Hheld, Hst|done]].
  eapply calls_weaken; [apply (remove_or_calls (Some previous) c retryable_failure h); [done|]|done| |done].
  - split; [done|]. by rewrite Hheld.
  - intros o h' [Ho Hcm]. split; [done|]. unfold uncommitted. apply not_true_is_false. by intros ?%Hcm.
Qed.

Lemma undo_calls previous c local_state h0 :
  clean previous → succeeds previous c local_state → h_held h0 ⊆ {[c]} ∪ (recorded previous ∪ F) → accounted F h0 →
  in_p held (λ h, h = h0) (undo_enrollment previous local_state) (λ o h, orderly o h ∧ uncommitted o) anyhow.
Proof.
  intros Hclean (Hc & _) Hh Hacc. unfold undo_enrollment. destruct previous as [previous|].
  - by apply (rollback_calls previous local_state c).
  - apply calls_ret. intros h ->. split; [by left|done].
Qed.

(** A new enrollment is in use, and no other credential is recorded. *)
Definition enrolled (c : bytes) (h : Hello) : Prop :=
  c ∈ h_held h ∧ ∃ state, h_stored h = Some state ∧ credential_id state = Some c ∧ pending_removal_credential_id state = None.

Definition enrolling_ends (c : bytes) (o : ExecutionOutcome) (h : Hello) : Prop :=
  orderly o h ∧ (eo_committed o = true → enrolled c h).

Lemma empty_success_calls P (Q : ExecutionOutcome → Hello → Prop) :
  (∀ body h, P h → Q (success body) h) → in_p held P empty_success Q (anyhow (E:=DispatchError)).
Proof.
  intros HQ. unfold empty_success. eapply (calls_bind _ _ _ _ _ (λ _, P)); [|intros body; apply calls_ret; auto].
  unfold encoded. apply calls_of_result; [|done|done].
  pose proof encode_empty_result_ok. by destruct encode_empty_result.
Qed.

Lemma finish_calls previous c local_state h0 :
  clean previous → succeeds previous c local_state → h_stored h0 = Some local_state →
  h_held h0 ⊆ {[c]} ∪ (recorded previous ∪ F) → c ∈ h_held h0 →
  in_p held (λ h, h = h0) (finish_enrollment previous local_state) (enrolling_ends c) anyhow.
Proof.
  intros Hclean Hs Hst Hh Hin. pose proof Hs as (Hc & Hne & Hrec & Hold).
  destruct local_state as [v k i c' q s p|c']; [|done]. cbn [credential_id] in Hc. injection Hc as ->.
  assert (∀ q' h, h_stored h = Some (Enrollment v k i c q' s p) → h_held h ⊆ {[c]} ∪ F → accounted F h) as Hacc.
  { intros q' h Hsth Hhh. unfold accounted. rewrite Hsth. cbn. set_solver. }
  unfold finish_enrollment. cbn [pending_removal_credential_id] in *. destruct q as [old|].
  - specialize (Hold old eq_refl). eapply calls_bind; [by apply removal_calls|]. intros r. apply calls_pre. intros h [Hst1 Hh1].
    destruct (is_ok r); cbn [negb].
    + cbn [clear_pending_removal_credential_id negb].
      eapply calls_bind; [by apply publish_calls|]. intros b. apply calls_pre. intros h1 [Hh2 Hst2]. destruct b.
      * eapply (calls_bind _ _ _ _ _ (λ o h', h' = h1)); [by apply empty_success_calls|]. intros o. apply calls_ret. intros h' ->. split.
        -- left. eapply Hacc; [exact Hst2|]. rewrite Hh2, Hh1, Hold in *. set_solver.
        -- intros _. split; [|by eexists]. rewrite Hh2, Hh1. apply elem_of_difference. split; [done|]. set_solver.
      * apply calls_ret. intros h' ->. split; [left|done]. unfold accounted. rewrite Hst2, Hst1, Hst, Hh2, Hh1. cbn. set_solver.
    + eapply calls_weaken; [apply (undo_calls previous c _ h Hclean Hs)|done| |done].
      * by etrans.
      * unfold accounted. rewrite Hst1, Hst, Hh1. cbn. set_solver.
      * intros o h' [Ho Hu]. split; [done|]. intros Hcm. unfold uncommitted in Hu. congruence.
  - eapply (calls_bind _ _ _ _ _ (λ o h', h' = h0)); [by apply empty_success_calls|]. intros o. apply calls_ret. intros h' ->. split.
    + left. eapply Hacc; [exact Hst|]. cbn in Hrec. set_solver.
    + intros _. split; [done|by eexists].
Qed.
End accounting.

(** ** Guards *)

Lemma guarded_calls {A} held m P (body : rt A) (Q : A → Hello → Prop) :
  WindowsHelloGate ∈ held → m ∉ held →
  in_p ({[m]} ∪ held) P body Q anyhow → in_p held P (guarded m body) Q anyhow.
Proof.
  intros Hg Hm Hb. unfold guarded. eapply (triple_bind _ _ _ (λ _, at_ world ({[m]} ∪ held) P)).
  { intros s Hs. pose proof (acquire_calls held Hg P m DispatchInternal Hm (world s) Hs) as Ha. unfold in_world.
    destruct (acquire m DispatchInternal (world s)) as [[u|e|] w]; [done| |done]. by destruct Ha as [_ [? _]]. }
  intros _. apply finally_rule. eapply triple_weaken; [exact Hb|done|..].
  - intros a s Hs. exact (drop_at held Hg _ m (world s) Hm Hs).
  - intros e s Hs. exact (drop_at held Hg _ m (world s) Hm Hs).
Qed.
Lemma with_vault_calls {A} held P (body : rt A) (Q : A → Hello → Prop) :
  WindowsHelloGate ∈ held → VaultMutex ∉ held →
  in_p ({[VaultMutex]} ∪ held) P body Q anyhow → in_p held P (with_vault body) Q anyhow.
Proof.
  intros Hg Hm Hb s Hs. apply (at_moves held Hg P (world s) (world (others_agent s))) in Hs; [|apply others_agent_moves].
  exact (guarded_calls held VaultMutex P body Q Hg Hm Hb (others_agent s) Hs).
Qed.
Lemma unless_calls held P (check : rt (option ExecutionOutcome)) (rest : rt ExecutionOutcome) (Q : ExecutionOutcome → Hello → Prop) :
  in_p held P check (λ o h, P h ∧ ∀ outcome, o = Some outcome → Q outcome h) anyhow →
  in_p held P rest Q anyhow → in_p held P (unless check rest) Q anyhow.
Proof.
  intros Hc Hr. eapply calls_bind; [exact Hc|]. intros [o|].
  - apply calls_ret. intros h [_ HQ]. auto.
  - eapply calls_weaken; [exact Hr| |done..]. by intros h [? _].
Qed.

Section checks.
Context (held : gset MutexName) (Hgate : WindowsHelloGate ∈ held) (registration : RequestRegistration) (deadline : Z).

Lemma stop_calls {E} P (c : stm W E bool) o rest :
  in_w held P c (λ _, P) anyhow → uncommitted o → in_w held P rest (λ o h, P h ∧ ∀ x, o = Some x → uncommitted x) anyhow →
  in_w held P (stop_if c o rest) (λ o h, P h ∧ ∀ x, o = Some x → uncommitted x) anyhow.
Proof.
  intros Hc Ho Hr. eapply calls_bind; [exact Hc|]. intros []; [|exact Hr]. apply calls_ret. intros h HP. split; [done|]. by intros x [= <-].
Qed.
Lemma pre_check_calls e P :
  in_p held P (pre_check e registration deadline) (λ o h, P h ∧ ∀ x, o = Some x → uncommitted x) anyhow.
Proof.
  apply in_world_calls. unfold pre_secret_operation.
  repeat (apply stop_calls; [|done|]); [by apply observe_calls|by apply observe_calls|by apply past_calls| |].
  - apply or_else_calls; (eapply (calls_bind _ _ _ _ _ (λ _, P)); [by apply observe_calls|intros x; by apply calls_ret]).
  - apply calls_ret. intros h HP. by split.
Qed.
Lemma terminal_abort_calls P :
  in_p held P (windows_hello_terminal_abort registration deadline) (λ o h, P h ∧ ∀ x, o = Some x → uncommitted x) anyhow.
Proof.
  apply in_world_calls. eapply (calls_bind _ _ _ _ _ (λ _, P)); [apply or_else_calls; by apply observe_calls|].
  intros []; [apply calls_ret; intros h HP; split; [done|]; by intros x [= <-]|].
  eapply (calls_bind _ _ _ _ _ (λ _, P)); [by apply past_calls|]. intros b. apply calls_ret. intros h HP. split; [done|].
  destruct b; [by intros x [= <-]|done].
Qed.
Lemma other_epoch_calls {E} e P : in_p held P (in_world (E:=E) (other_epoch e)) (λ _, P) anyhow.
Proof.
  apply in_world_calls. eapply (calls_bind _ _ _ _ _ (λ _, P)); [by apply observe_calls|intros x; by apply calls_ret].
Qed.
End checks.

(** ** Enrolling *)

Section enrolling.
Context (held : gset MutexName) (Hgate : WindowsHelloGate ∈ held) (Hfree : OwnedVaultsMutex ∉ held).
Context (Hvault : VaultMutex ∉ held) (Hcommit : CommitGate ∉ held).
Context (registration : RequestRegistration) (deadline e : Z) (F : gset bytes).
#[local] Abbreviation same h0 := (λ h : Hello, h = h0).

(** With [c] the new credential: the stored state is still the previous one. *)
Record making (previous : option WindowsHelloLocalState) (c : bytes) (h : Hello) : Prop := {
  mk_clean : clean previous;
  mk_stored : h_stored h = previous;
  mk_held : h_held h ⊆ {[c]} ∪ (recorded previous ∪ F);
  mk_new : c ∈ h_held h;
}.

Lemma commit_calls previous c local_state h0 :
  making previous c h0 → succeeds previous c local_state →
  in_p held (same h0) (commit_enrollment registration deadline e previous local_state)
    (λ r h, match r with
      | inl o => enrolling_ends F c o h
      | inr o => h = h0 ∧ ∀ x, o = Some x → uncommitted x
      end) anyhow.
Proof.
  intros [Hclean Hst Hh Hin] Hs. unfold commit_enrollment. apply guarded_calls; [done..|].
  set (inside := {[CommitGate]} ∪ held). assert (WindowsHelloGate ∈ inside ∧ OwnedVaultsMutex ∉ inside) as [Hg Hf] by set_solver.
  eapply calls_bind; [by apply pre_check_calls|]. intros [o|]; apply calls_pre; intros h [-> Ho].
  { apply calls_ret. by intros h ->. }
  eapply calls_bind; [by apply tried_calls, save_calls|]. intros r. apply calls_pre. intros h [Hr [Hh1 Hst1]].
  assert (is_published r = true → h_stored h = Some local_state) as Hpub by (by intros Hp; rewrite Hp in Hst1).
  assert (h_held h ⊆ {[c]} ∪ (recorded previous ∪ F)) as Hhh by (by rewrite Hh1).
  destruct Hs as (Hc & Hs). assert (c ∈ recorded (Some local_state)) as Hrec.
  { destruct local_state; [|done]. cbn in *. injection Hc as ->. set_solver. }
  destruct r as [[]|[]|]; [| | | | |done]; cbn in Hst1.
  - eapply (calls_bind _ _ _ _ _ (enrolling_ends F c)); [|intros o; apply calls_ret; auto].
    apply (finish_calls inside Hg Hf F previous c local_state); [done|by split|auto|done|by rewrite Hh1].
  - apply calls_ret. intros h' ->. split; [destruct h, h0; cbn in *; congruence|done].
  - apply calls_ret. intros h' ->. split; [destruct h, h0; cbn in *; congruence|done].
  - apply calls_ret. intros h' ->. split; [destruct h, h0; cbn in *; congruence|done].
  - eapply (calls_bind _ _ _ _ _ (enrolling_ends F c)); [|intros o; apply calls_ret; auto].
    eapply calls_weaken; [apply (undo_calls inside Hg Hf F previous c local_state h)|done| |done]; [done|by split|done|..].
    + unfold accounted. rewrite Hst1. destruct Hs as (_ & Hsub & _). set_solver.
    + intros o h' [Ho' Hu]. split; [done|]. unfold uncommitted in Hu. congruence.
Qed.

Lemma abandon_calls previous c outcome h0 :
  making previous c h0 → uncommitted outcome →
  in_p held (same h0) (remove_windows_hello_credential_or previous c outcome) (enrolling_ends F c) anyhow.
Proof.
  intros [Hclean Hst Hh _] Ho. eapply calls_weaken; [apply (remove_or_calls held Hgate Hfree F previous c outcome h0)|done| |done]; [done|by split|].
  intros o h [? Hcm]. split; [done|]. intros Ht%Hcm. unfold uncommitted in Ho. congruence.
Qed.

Lemma make_protector_calls permit binding key enrollment P :
  in_p held P (make_protector e permit binding key enrollment) (λ r h, P h ∧ r ≠ Some Panic) anyhow.
Proof.
  unfold make_protector. apply with_vault_calls; [done..|]. set (inside := {[VaultMutex]} ∪ held).
  assert (WindowsHelloGate ∈ inside) as Hg by set_solver.
  eapply (calls_bind _ _ _ _ _ (λ _, P)); [by intros s Hs|]. intros a. destruct (_ || _); [by apply calls_ret|].
  eapply (calls_bind _ _ _ _ _ (λ _, P)); [by apply other_epoch_calls|]. intros []; [by apply calls_ret|].
  eapply (calls_bind _ _ _ _ _ (λ r h, r ≠ Panic ∧ P h)); [|intros r; apply calls_ret; intros h [? ?]; split; [done|congruence]].
  apply calls_attempt. unfold agent_create_windows_hello_protector.
  eapply (calls_bind _ _ _ _ _ (λ _, P)); [by intros s Hs|]. intros a'.
  eapply (calls_bind _ _ _ _ _ (λ _, P)); [apply calls_of_result; [by destruct (va_session a')|done|by split]|]. intros session.
  apply in_world_calls. eapply calls_weaken.
  - apply (keeps_calls inside Hg P _ (λ (_ : AgentUnlockError), P)); [apply keeps_map_err, protector_keeps|done].
  - done.
  - by intros p h.
  - by intros err h.
Qed.

Lemma random_calls {A} P (f : option bytes → result DispatchError A) n :
  (∀ o, f o ≠ Panic) →
  in_w held P (λ w, let '(b, w) := getrandom_fill n w in (f b, w)) (λ _, P) anyhow.
Proof.
  intros Hf w Hw. destruct (getrandom_unchanged n w) as (_ & Hm & _). destruct (getrandom_fill n w) as [b w']. cbn in Hm.
  apply (at_moves held Hgate P w w' Hw) in Hm as [? ?]. specialize (Hf b). destruct (f b); [by split|by split|done].
Qed.

(** A check: it ends the operation, or the credentials are as before. *)
Lemma checked_calls {A} h0 (check : rt (option A)) (stop : A → rt ExecutionOutcome) (rest : rt ExecutionOutcome) Q (G : A → Prop) :
  in_p held (same h0) check (λ o h, h = h0 ∧ ∀ x, o = Some x → G x) anyhow →
  (∀ x, G x → in_p held (same h0) (stop x) Q anyhow) → in_p held (same h0) rest Q anyhow →
  in_p held (same h0) (o ← check; match o with Some x => stop x | None => rest end) Q anyhow.
Proof.
  intros Hc Hs Hr. eapply calls_bind; [exact Hc|]. intros [x|]; apply calls_pre; intros h [-> Hx]; auto.
Qed.

Lemma keep_calls previous permit binding enrollment h0 :
  making previous (en_credential_id enrollment) h0 →
  in_p held (same h0) (keep_enrollment registration deadline e previous permit binding enrollment)
    (enrolling_ends F (en_credential_id enrollment)) anyhow.
Proof.
  intros Hm. unfold keep_enrollment. set (c := en_credential_id enrollment) in *.
  assert (∀ o, uncommitted o → in_p held (same h0) (remove_windows_hello_credential_or previous c o) (enrolling_ends F c) anyhow)
    as Habandon by (intros; by apply abandon_calls).
  apply (checked_calls h0 _ _ _ _ uncommitted); [by apply terminal_abort_calls|exact Habandon|].
  eapply (calls_bind _ _ _ _ _ (λ _, same h0)); [by apply other_epoch_calls|]. intros []; [by apply Habandon|].
  eapply (calls_bind _ _ _ _ _ (λ _, same h0)); [by apply in_world_calls, random_calls|].
  intros [key|]; [|by apply Habandon].
  eapply calls_bind; [apply (make_protector_calls permit binding key enrollment)|]. intros r. apply calls_pre. intros h [-> Hr].
  destruct r as [[protector|err|]|]; [|by apply Habandon|done|by apply Habandon].
  destruct (local_state_for previous binding key enrollment protector) as [local_state|err|] eqn:Hl;
    [|by apply Habandon|by apply local_state_for_not_Panic in Hl].
  apply local_state_for_succeeds in Hl; [|apply Hm].
  apply (checked_calls h0 _ _ _ _ uncommitted); [by apply terminal_abort_calls|exact Habandon|].
  eapply calls_bind; [by apply (commit_calls previous c)|]. intros [o|o]; [by apply calls_ret|].
  apply calls_pre. intros h [-> Ho]. destruct o as [o|]; [by apply Habandon, Ho|].
  eapply calls_bind; [by apply terminal_abort_calls|]. intros o. apply calls_pre. intros h [-> Hx]. apply Habandon.
  destruct o; [by apply Hx|done].
Qed.

(** The platform's ceremony, watched by another thread. *)
Lemma rounds_calls {E} P (R : E → Hello → Prop) : in_w held P rounds (λ _, P) R.
Proof.
  intros w [Hh HP]. unfold rounds, at_, id in *. destruct (hello_watching w) as [Hs Hq].
  destruct (watcher_rounds w) as [n w']. cbn in *. by rewrite Hs, Hq.
Qed.
Lemma watcher_calls {E} P op n (R : E → Hello → Prop) : in_w held P (watcher registration deadline op n) (λ _, P) R.
Proof.
  induction n as [|n IH]; [by apply calls_ret|]. cbn [watcher].
  eapply (calls_bind _ _ _ _ _ (λ _, P)); [|intros _; exact IH]. unfold watcher_round.
  eapply (calls_bind _ _ _ _ _ (λ _, P)).
  { repeat (apply or_else_calls; [by apply observe_calls|]). by apply past_calls. }
  intros []; [|by apply calls_ret]. apply calls_modify; [|done]. intros w. apply hello_cancelling.
Qed.
Lemma ceremony_calls {A} P op (ceremony : stm W WindowsHelloProviderError A) Q :
  (∀ w, P (hello w) → let '(r, w') := ceremony w in shared w' = shared w ∧ r ≠ Panic ∧ Q r (hello w')) →
  in_w held P (run_windows_hello_ceremony registration deadline op ceremony) (λ a, Q (Ok a)) (λ err, Q (Err err)).
Proof.
  intros Hc. unfold run_windows_hello_ceremony.
  eapply (calls_bind _ _ _ _ _ (λ _, P)); [by apply rounds_calls|]. intros before.
  eapply (calls_bind _ _ _ _ _ (λ _, P)); [by apply watcher_calls|]. intros _.
  eapply (calls_bind _ _ _ _ _ (λ r h, r ≠ Panic ∧ Q r h)).
  { apply calls_attempt. eapply calls_weaken; [by apply (platform_calls held P ceremony Q)|done|by split..]. }
  intros r. eapply (calls_bind _ _ _ _ _ (λ _ h, r ≠ Panic ∧ Q r h)); [by apply rounds_calls|]. intros after.
  eapply (calls_bind _ _ _ _ _ (λ _ h, r ≠ Panic ∧ Q r h)); [by apply watcher_calls|]. intros _.
  apply calls_pre. intros h [Hr HQ]. apply calls_of_result; [done|by intros a h' -> ->|by intros err h' -> ->].
Qed.

(** Enrolling ends with nothing forgotten; once it is committed, the stored state is the
    enrollment of a credential that the platform holds, and nothing is to be removed. *)
Definition enroll_ends (o : ExecutionOutcome) (h : Hello) : Prop :=
  orderly F o h ∧ (eo_committed o = true → ∃ c, enrolled c h).

Lemma uncommitted_ends o h : accounted F h → uncommitted o → enroll_ends o h.
Proof. intros Ha Ho. split; [by left|]. unfold uncommitted in Ho. congruence. Qed.

(** What the platform holds after it was asked for a credential. *)
Definition asked (h0 : Hello) (r : result WindowsHelloProviderError WindowsHelloEnrollment) (h : Hello) : Prop :=
  h_stored h = h_stored h0 ∧
  match r with
  | Ok en => h_held h = {[en_credential_id en]} ∪ h_held h0
  | Err (WindowsHelloProviderError.CleanupRequired c) => h_held h = {[c]} ∪ h_held h0
  | Err _ => h_held h = h_held h0
  | Panic => False
  end.
Lemma asked_calls parent process op h0 :
  in_p held (same h0) (attempt (F:=DispatchError) (in_world (run_windows_hello_ceremony registration deadline op
    (hello_enroll parent process op)))) (λ r h, r ≠ Panic ∧ asked h0 r h) anyhow.
Proof.
  apply (tried_calls held (same h0) _ (asked h0)), (ceremony_calls (same h0) op _ (asked h0)). intros w <-.
  pose proof (hello_enrolling parent process op w) as He. destruct (hello_enroll parent process op w) as [r w'].
  destruct He as (? & ? & He). split_and!; [done|by destruct r|done].
Qed.
Lemma operation_id_calls P : in_p held P (in_world windows_hello_operation_id) (λ _, P) anyhow.
Proof.
  apply in_world_calls. apply (random_calls P (λ value,
    value ← ok_or value DispatchInternal; fail_if (all_zero value) DispatchInternal;; mret value)).
  intros [value|]; cbn; [|done]. by destruct (all_zero value).
Qed.

Lemma make_calls parent process previous permit binding h0 :
  clean previous → h_stored h0 = previous → accounted F h0 →
  in_p held (same h0) (make_enrollment registration deadline parent process e previous permit binding) enroll_ends anyhow.
Proof.
  intros Hclean Hst Hacc. unfold make_enrollment, unless.
  apply (checked_calls h0 _ _ _ _ uncommitted); [by apply (pre_check_calls held Hgate)|..].
  { intros o Ho. apply calls_ret. intros h ->. by apply uncommitted_ends. }
  eapply (calls_bind _ _ _ _ _ (λ _, same h0)); [apply operation_id_calls|]. intros op.
  eapply calls_bind; [apply asked_calls|]. intros r. apply calls_pre. intros h (Hr & Hst1 & Hh). rewrite Hst in Hst1.
  unfold accounted in Hacc. rewrite Hst in Hacc.
  assert (∀ err, h_held h = h_held h0 → in_p held (same h) (mret (map_windows_hello_provider_error err)) enroll_ends (anyhow (E:=DispatchError)))
    as Hsame. { intros err Hh'. apply calls_ret. intros h' ->. apply uncommitted_ends; [unfold accounted; by rewrite Hh', Hst1|by destruct err]. }
  destruct r as [en|err|]; [| |done].
  - eapply calls_weaken; [apply (keep_calls previous permit binding en h)|done| |done].
    + split; [done..| |]; set_solver.
    + intros o h' [Ho Hc]. split; [done|]. eauto.
  - destruct err as [| | | | |c]; try by apply Hsame.
    eapply calls_bind; [apply (persist_calls held Hgate Hfree F previous c h Hclean); split; [done|set_solver]|].
    intros b. apply calls_ret. intros h' Hb. destruct b; (split; [|done]); [by left|right; eauto].
Qed.

Lemma or_return_calls {A} P (m : rt (ExecutionOutcome + A)) (k : A → rt ExecutionOutcome)
    (D : A → Hello → Prop) (Q : ExecutionOutcome → Hello → Prop) :
  in_p held P m (λ r h, match r with inl o => Q o h | inr a => D a h end) anyhow →
  (∀ a, in_p held (D a) (k a) Q anyhow) → in_p held P (or_return m k) Q anyhow.
Proof. intros Hm Hk. eapply calls_bind; [exact Hm|]. intros [o|a]; [by apply calls_ret|apply Hk]. Qed.

(** The state that is stored, and nothing is forgotten. *)
Lemma stored_calls h0 :
  accounted F h0 →
  in_p held (same h0) stored_enrollment (λ r h, match r with
    | inl o => enroll_ends o h | inr stored => accounted F h ∧ h_stored h = stored end) anyhow.
Proof.
  intros Hacc. unfold stored_enrollment.
  eapply calls_bind; [apply (tried_calls held _ _ (λ r h, h = h0 ∧ match r with
    | Ok state => h_stored h0 = Some state
    | Err err => err = WindowsHelloStateError.NotFound → h_stored h0 = None | Panic => False end)); by apply load_calls|].
  intros r. apply calls_pre. intros h (Hr & -> & Hl). destruct r as [state|err|]; [| |done].
  - apply calls_ret. by intros h ->.
  - assert (in_p held (same h0) (mret (inl failed)) (λ (r : ExecutionOutcome + option WindowsHelloLocalState) h, match r with
      | inl o => enroll_ends o h | inr stored => accounted F h ∧ h_stored h = stored end) (anyhow (E:=DispatchError))) as Hfail.
    { apply calls_ret. intros h ->. by apply uncommitted_ends. }
    destruct err; try exact Hfail. specialize (Hl eq_refl).
    eapply calls_bind; [by apply absent_calls|]. intros b. apply calls_ret. intros h [Hh Hs].
    assert (h_stored h = None) as Hn by (destruct Hs as [?|[_ ?]]; congruence).
    assert (accounted F h) as Ha by (unfold accounted in *; by rewrite Hh, Hn, <-Hl).
    destruct b; [done|by apply uncommitted_ends].
Qed.

(** What was still to be removed is gone. *)
Lemma retired_calls stored h0 :
  accounted F h0 → h_stored h0 = stored →
  in_p held (same h0) (retire_previous stored) (λ r h, match r with
    | inl o => enroll_ends o h
    | inr previous => accounted F h ∧ (if decide (previous ≫= vault_binding = None) then h_stored h = None
        else h_stored h = previous ∧ clean previous)
    end) anyhow.
Proof.
  intros Hacc Hst. unfold retire_previous. destruct stored as [state|]; [|by apply calls_ret; intros h ->].
  eapply calls_bind; [by apply (retire_calls held Hgate Hfree F state h0)|]. intros [b state']. apply calls_ret.
  cbn [fst snd]. intros h (Ha & Hb & Hr). destruct b; [|by apply uncommitted_ends]. split; [done|].
  specialize (Hr eq_refl). cbn [mbind option_bind]. rewrite Hb. case_decide; [done|]. naive_solver.
Qed.

Lemma enroll_calls parent process h0 :
  accounted F h0 → in_p held (same h0) (enroll_gated registration deadline parent process e) enroll_ends anyhow.
Proof.
  intros Hacc. unfold enroll_gated, unless.
  apply (checked_calls h0 _ _ _ _ uncommitted); [by apply (pre_check_calls held Hgate)|..].
  { intros o Ho. apply calls_ret. intros h ->. by apply uncommitted_ends. }
  eapply (calls_bind _ _ _ _ _ (λ _, same h0)).
  { apply with_vault_calls; [done..|]. eapply (calls_bind _ _ _ _ _ (λ _, same h0)); [by intros s Hs|]. intros a. by apply calls_ret. }
  intros [[permit binding]|]; [|apply calls_ret; intros h ->; by apply uncommitted_ends].
  eapply or_return_calls; [by apply stored_calls|]. intros stored. apply calls_pre. intros h1 [Hacc1 Hst1].
  eapply or_return_calls; [by apply retired_calls|]. intros previous. apply calls_pre. intros h2 [Hacc2 Hst2].
  destruct previous as [state|]; cbn in Hst2; [|by apply make_calls].
  case_bool_decide as Hv; [rewrite decide_True in Hst2 by done; by apply make_calls|].
  rewrite decide_False in Hst2 by done. destruct Hst2 as [Hst2 Hclean].
  destruct (_ && _); [|by apply make_calls]. unfold unless.
  apply (checked_calls h2 _ _ _ _ uncommitted); [by apply (pre_check_calls held Hgate)|..].
  { intros o Ho. apply calls_ret. intros h ->. by apply uncommitted_ends. }
  apply empty_success_calls. intros body h ->. by apply uncommitted_ends.
Qed.
End enrolling.

(** ** Removing *)

Section removing.
Context (held : gset MutexName) (Hgate : WindowsHelloGate ∈ held) (Hfree : OwnedVaultsMutex ∉ held).
Context (Hvault : VaultMutex ∉ held) (Hcommit : CommitGate ∉ held).
Context (registration : RequestRegistration) (deadline e : Z) (F : gset bytes).
#[local] Abbreviation same h0 := (λ h : Hello, h = h0).

(** Removing ends with nothing forgotten, once it is committed with nothing stored. *)
Definition remove_ends (o : ExecutionOutcome) (h : Hello) : Prop :=
  accounted F h ∧ (eo_committed o = true → h_stored h = None).

Lemma bound_calls guards binding P :
  WindowsHelloGate ∈ guards → VaultMutex ∉ guards → in_p guards P (bound_vault binding) (λ _, P) anyhow.
Proof.
  intros Hg Hv. unfold bound_vault. apply with_vault_calls; [done..|].
  eapply (calls_bind _ _ _ _ _ (λ _, P)); [by intros s Hs|]. intros a. by apply calls_ret.
Qed.

Lemma stay_calls guards h0 o : accounted F h0 → uncommitted o → in_p guards (same h0) (mret o) remove_ends (anyhow (E:=DispatchError)).
Proof. intros Ha Ho. apply calls_ret. intros h ->. split; [done|]. unfold uncommitted in Ho. congruence. Qed.

Lemma remove_enrollment_calls binding c state h0 :
  h_stored h0 = Some state → clean (Some state) → credential_id state = Some c → accounted F h0 →
  in_p held (same h0) (remove_enrollment registration deadline e binding c) remove_ends anyhow.
Proof.
  intros Hst Hclean Hc Hacc. unfold remove_enrollment, unless. apply guarded_calls; [done..|].
  set (inside := {[CommitGate]} ∪ held).
  assert (WindowsHelloGate ∈ inside ∧ OwnedVaultsMutex ∉ inside ∧ VaultMutex ∉ inside) as (Hg & Hf & Hv) by set_solver.
  apply (checked_calls inside h0 _ _ _ _ uncommitted); [by apply (pre_check_calls inside Hg)|..].
  { intros o Ho. by apply stay_calls. }
  eapply (calls_bind _ _ _ _ _ (λ _, same h0)); [by apply bound_calls|]. intros []; cbn [negb]; [|by apply stay_calls].
  eapply calls_bind; [by apply removal_calls|]. intros r. apply calls_pre. intros h [Hst1 Hh].
  assert (accounted F h) as Hacc1.
  { unfold accounted in *. rewrite Hst1, Hst in *. destruct (is_ok r); set_solver. }
  destruct (is_ok r); cbn [negb]; [|by apply stay_calls].
  eapply calls_bind; [by apply absent_calls|]. intros b. apply calls_pre. intros h2 [Hh2 Hst2].
  assert (accounted F h2) as Hacc2.
  { unfold accounted in *. rewrite Hst in Hacc. destruct state as [v k i a q s p|a]; [|done]. cbn in *. subst q. injection Hc as ->.
    rewrite Hh2, Hh. destruct Hst2 as [-> |[_ ->]]; set_solver. }
  destruct b; [|by apply stay_calls].
  eapply (calls_bind _ _ _ _ _ (λ _, same h2)); [by apply empty_success_calls|]. intros o. apply calls_ret. intros h' ->.
  split; [done|]. intros _. by destruct Hst2 as [?|[? _]].
Qed.

Lemma remove_calls h0 :
  accounted F h0 → in_p held (same h0) (remove_gated registration deadline e) remove_ends anyhow.
Proof.
  intros Hacc. unfold remove_gated.
  eapply calls_bind; [apply (tried_calls held _ _ (λ r h, h = h0 ∧ match r with
    | Ok state => h_stored h0 = Some state
    | Err err => err = WindowsHelloStateError.NotFound → h_stored h0 = None | Panic => False end)); by apply load_calls|].
  intros r. apply calls_pre. intros h (Hr & -> & Hl). destruct r as [state|err|]; [| |done].
  -     eapply calls_bind; [by apply (retire_calls held Hgate Hfree F state h0)|]. intros [b state']. cbn [fst snd].
    apply calls_pre. intros h (Ha & Hb & Hst). destruct b; cbn [negb]; [|by apply stay_calls]. specialize (Hst eq_refl).
    destruct (vault_binding state') as [binding|] eqn:Hv.
    2: { apply empty_success_calls. intros body h' ->. split; [done|]. by cbn. }
    rewrite decide_False in Hst by congruence. destruct Hst as (Hst & Hclean & _).
    destruct (credential_id state') as [c|] eqn:Hc; [|by destruct state'].
    eapply (calls_bind _ _ _ _ _ (λ c', (λ h', c' = c ∧ h' = h))); [apply calls_of_result; [done|by intros c' h' [= <-]|done]|].
    intros c'. apply calls_pre. intros h' [-> ->]. eapply (calls_bind _ _ _ _ _ (λ _, same h)); [by apply bound_calls|].
    intros []; cbn [negb]; [|by apply stay_calls]. unfold unless.
    apply (checked_calls held h _ _ _ _ uncommitted); [by apply (pre_check_calls held Hgate)|..].
    { intros o Ho. by apply stay_calls. }
    by apply (remove_enrollment_calls binding c state').
  - destruct err; try by apply stay_calls. specialize (Hl eq_refl).
    eapply calls_bind; [by apply absent_calls|]. intros b. apply calls_pre. intros h [Hh Hs].
    assert (h_stored h = None) as Hn by (destruct Hs as [?|[_ ?]]; congruence).
    assert (accounted F h) as Ha by (unfold accounted in *; by rewrite Hh, Hn, <-Hl).
    destruct b; [|by apply stay_calls]. apply empty_success_calls. by intros body h' ->.
Qed.

(** Before an unlock: what was still to be removed is gone. *)
Definition usable (state : WindowsHelloLocalState) (h : Hello) : Prop :=
  if decide (vault_binding state = None) then h_stored h = None else h_stored h = Some state ∧ clean (Some state).
Lemma usable_calls h0 :
  accounted F h0 →
  in_p held (same h0) usable_enrollment (λ r h, accounted F h ∧ ∀ state, r = inr state → usable state h) anyhow.
Proof.
  intros Hacc. unfold usable_enrollment.
  eapply calls_bind; [apply (tried_calls held _ _ (λ r h, h = h0 ∧ match r with
    | Ok state => h_stored h0 = Some state
    | Err err => err = WindowsHelloStateError.NotFound → h_stored h0 = None | Panic => False end)); by apply load_calls|].
  intros r. apply calls_pre. intros h (Hr & -> & Hl). destruct r as [state|err|]; [| |done].
  - eapply calls_bind; [by apply (retire_calls held Hgate Hfree F state h0)|]. intros [b state']. apply calls_ret.
    cbn [fst snd]. intros h (Ha & Hb & Hst). split; [done|]. destruct b; [|done]. intros x [= <-]. specialize (Hst eq_refl).
    unfold usable. rewrite Hb. case_decide; naive_solver.
  - destruct err; try (apply calls_ret; intros h ->; by split). specialize (Hl eq_refl).
    eapply calls_bind; [by apply absent_calls|]. intros b. apply calls_ret. intros h [Hh Hs].
    assert (h_stored h = None) as Hn by (destruct Hs as [?|[_ ?]]; congruence).
    split; [|done]. unfold accounted in *. by rewrite Hh, Hn, <-Hl.
Qed.
End removing.

(** ** Properties *)

(** What a run with the gate ends with. *)
Definition ends {A} (run : result DispatchError A * Process W) (Q : A → Hello → Prop) : Prop :=
  match run with (Ok a, s') => Q a (hello (world s')) | (Err _, _) => True | (Panic, _) => False end.
Lemma calls_ends {A} held P (m : rt A) (Q : A → Hello → Prop) s :
  in_p held P m Q anyhow → at_ world held P s → ends (m s) Q.
Proof. intros Hm Hs. specialize (Hm s Hs). unfold ends. destruct (m s) as [[a|e|] s']; [by apply Hm|done..]. Qed.

End hello.

Module Examples.
Import Rfc8949 Toy VaultCore.Examples VaultRefine.Examples MemoryDisk AgentRefine.Examples RuntimeRefine.Examples UnlockRefine.Examples.

(** A single thread, and a platform whose calls succeed. *)
Abbreviation Machine := (Disk (Shared * Hello)).
Definition set_memory (m : Shared * Hello) (w : Machine) : Machine :=
  {| dk_files := dk_files w; dk_view := dk_view w; dk_calls := dk_calls w; dk_memory := m |}.
Definition set_hello (h : Hello) (w : Machine) : Machine := set_memory ((dk_memory w).1, h) w.
#[export] Instance machine_threads : Threads Machine := {|
  shared w := (dk_memory w).1;
  set_shared s w := set_memory (s, (dk_memory w).2) w;
  others w := w;
  others_agent p := p;
  instant_now w := (0, w);
  instant_checked_add := checked_add 64;
|}.
#[export] Instance machine_threads_model : ThreadsModel Machine := {| clock _ := 0 |}.
#[export] Instance machine_threads_laws : ThreadsLaws Machine.
Proof.
  split; try done.
  intros w w' Hw. change (dk_memory w' = dk_memory w) in Hw. cbn. by rewrite Hw.
Qed.
#[export] Instance machine_hello : HelloModel Machine := {| hello w := (dk_memory w).2 |}.
#[export] Instance machine_ceremonies : Ceremonies Machine := {| watcher_rounds w := (1%nat, w) |}.
Definition new_credential : bytes := str "new".
#[export] Instance machine_provider : WindowsHelloProvider Machine := {|
  hello_enroll _ _ _ w :=
    (Ok {| en_credential_id := new_credential; en_prf_salt := replicate 32 x05; en_prf_output := replicate 32 x06 |},
     set_hello {| h_held := {[new_credential]} ∪ h_held (hello w); h_stored := h_stored (hello w) |} w);
  hello_evaluate _ _ _ _ _ w := (Ok (replicate 32 x06), w);
  hello_cancel _ w := w;
  hello_remove c w := (Ok tt, set_hello {| h_held := h_held (hello w) ∖ {[c]}; h_stored := h_stored (hello w) |} w);
|}.
#[export] Instance machine_repository : WindowsHelloStateRepository Machine := {|
  hello_load w := (match h_stored (hello w) with Some state => Ok state | None => Err WindowsHelloStateError.NotFound end, w);
  hello_save state w := (Ok tt, set_hello {| h_held := h_held (hello w); h_stored := Some state |} w);
  hello_remove_state w := (Ok tt, set_hello {| h_held := h_held (hello w); h_stored := None |} w);
  hello_ownership_path := None;
|}.
#[export] Instance machine_laws : HelloLaws Machine.
Proof.
  split; try done.
  - intros w w' _ Hw. change (dk_memory w' = dk_memory w) in Hw. cbn. by rewrite Hw.
  - intros w. cbn. by destruct (h_stored _) eqn:?.
Qed.

(** The vault is unlocked, and an older credential is enrolled. *)
Definition gated : Shared :=
  {| sh_runtime := started; sh_flags := [false]; sh_owned := ∅; sh_authenticated_ownership := None; sh_poisoned := ∅;
     sh_held := {[WindowsHelloGate]}; sh_permits := ∅ |}.
Definition old_credential : bytes := str "old".
Definition old_state : WindowsHelloLocalState :=
  Enrollment (replicate 16 x01) 1 (replicate 32 x02) old_credential None (replicate 32 x03) (str "protector").
(** The example's vault, under another identifier. *)
Definition named_vault : UnlockedVault :=
  {| uv_vault_root_key := uv_vault_root_key vault;
     uv_header := {| vh_vault_id := replicate 16 x01; vh_key_epoch := vh_key_epoch (uv_header vault);
                     vh_master_wrapper := vh_master_wrapper (uv_header vault);
                     vh_recovery_wrapper := vh_recovery_wrapper (uv_header vault) |};
     uv_manifest := uv_manifest vault |}.
Definition enrolling : Process Machine :=
  {| agent := {| va_path := Some file_path; va_session := Some named_vault; va_authenticated_header := Some header;
       va_authenticated_manifest := Some manifest; va_session_id := Some 1; va_authorization_epoch := 3 |};
     next_session := 2;
     world := disk_with (gated, {| h_held := {[old_credential]}; h_stored := Some old_state |}) |}.
Definition enroll_run := enroll_gated request 100 1 1 2 enrolling.
Lemma enroll_commits : (eo_committed <$> match enroll_run.1 with Ok o => Some o | _ => None end) = Some true.
Proof. vm_compute. reflexivity. Qed.

End Examples.
