(* ===== verification/DispatchRefine.v ===== *)
(** * What the dispatcher lets out

    A response is written with the commit gate held, after the last checks: no lock, no
    cancellation and no change of the accounts can come between them and the response. *)

From S2P Require Import Prelude RustStd Cbor Wire Types Frame Message Session Operations Browser VaultRecords VaultKeys VaultStore VaultCore VaultRefine Storage Agent AgentRefine Outcome Idempotency Ownership Threads Runtime Fill Passkeys Unlocking Dispatch Rely RuntimeRefine.

(** The worlds of one connection: its parameters never change, and writing to its
    state is no step of the other threads. *)
Record same_peer (c c' : Session.Connection) : Prop := {
  sp_role : cn_role c' = cn_role c;
  sp_version : cn_version c' = cn_version c;
  sp_process : cn_process_id c' = cn_process_id c;
  sp_features : cn_granted_features c' = cn_granted_features c;
  sp_id : cn_connection_id c' = cn_connection_id c;
  sp_limits : cn_limits c' = cn_limits c;
}.
Class ServingLaws `{Minicbor, Crypto, UrlCrate} (W : Type) `{StorageModel W, Threads W, Connections, ThreadsModel W, Serving W} :
    Prop := {
  same_connection (w w' : W) : same_peer (connection w) (connection w');
  set_connection_shared c (w : W) : shared (set_connection c w) = shared w;
  set_connection_files c (w : W) : same_files w (set_connection c w);
  set_connection_clock c (w : W) : clock (set_connection c w) = clock w;
}.

(** ** Methods of the connection *)

Section rules.
Context {W : Type} `{ThreadsLaws W, !StorageLaws W, !Serving W, !ServingLaws W}.

Lemma on_connection_rule {E A} (F : Shared → Prop) w0 (method : Session.Connection → result E A * Session.Connection) :
  stable F → (∀ c, (method c).1 ≠ Panic) →
  triple (following w0 F) (on_connection method) (λ _, following w0 F) (λ _, following w0 F).
Proof.
  intros HF Hm w Hw. unfold on_connection. apply (following_others _ _ _ HF) in Hw.
  set (w1 := others w) in *. specialize (Hm (connection w1)).
  assert (∀ c, following w0 F (set_connection c w1)) as Hset.
  { intros c. eapply following_trans; [exact Hw|]. split_and!; [apply set_connection_files| |].
    - split; [by rewrite set_connection_clock|by rewrite set_connection_shared].
    - rewrite set_connection_shared. apply Hw. }
  destruct (method (connection w1)) as [[a|e|] c]; [apply Hset..|done].
Qed.

Lemma finish_not_Panic permit (c : Session.Connection) : (Session.finish permit c).1 ≠ Panic.
Proof.
  unfold Session.finish, lock_state. destruct (Session.lock c) as [st|]; [|done].
  unfold mbind, stm_bind, get, modify, throw. cbn. by destruct (in_flight st !! _) as [[]|].
Qed.

(** [set_permits] only. *)
Lemma flag_take_over_rule held permits f w0 w :
  following w0 (idle held permits) w → following w0 (idle held ({[f]} ∪ permits)) (flag_take_over f w).
Proof.
  intros Hw. pose proof Hw as (_ & _ & Hh & Hp & _). unfold flag_take_over.
  eapply following_set; [by split| |exact Hw]. split_and!; [done| |done]. cbn. by rewrite Hp.
Qed.
(** A request that is over is counted and registered no more. *)
Lemma drop_context_rule held permits context w0 w :
  CancellationsMutex ∉ held → following w0 (idle held permits) w →
  following w0 (idle held permits) (drop_context context w).
Proof.
  intros Hc Hw. unfold drop_context, forget_registration, drop_counter, counter_drop, drop_registration.
  pose proof (atomic_rule (E:=unit) (idle held permits) (λ _, idle held permits) (λ _, idle held permits) w0
    (λ s, (Ok tt, set_coordinator (λ c, set_global ((cd_global_in_flight c - 1) mod 2 ^ 64) c) s))
    (stable_idle held permits) ltac:(intros x Hx; by split) w Hw) as Hd.
  destruct (atomic _ w) as [[u|e|] w1]; [| |done]; cbn [snd];
    (match goal with |- context [with_mutex CancellationsMutex ?f w1] =>
      pose proof (with_mutex_rule (idle held permits) (λ _, idle held permits) (λ _, idle held permits) CancellationsMutex f w0
        (stable_idle held permits)
        ltac:(intros x (Hh & ? & _); rewrite Hh; by split_and!)
        ltac:(intros x (Hh & ? & _); split; [by split|split_and!; [cbn; rewrite Hh; set_solver|done|done]]) w1 Hd) as Hr;
      by destruct (with_mutex CancellationsMutex f w1) as [[?|?|] ?] end).
Qed.
End rules.

(** ** Responses *)

(** What keeps a request authorised until its response is written. *)
Definition permitted (permit : RequestPermit) (replayed : bool) (x : Shared) : Prop :=
  match permit_operation permit with
  | OperationCode.Status | OperationCode.Lock => True
  | OperationCode.CreateVault => cd_lock_active (coordinator x) = false ∨ replayed = true
  | OperationCode.UnlockMasterPassword | OperationCode.UnlockWindowsHello => cd_lock_active (coordinator x) = false
  | operation => OperationCode.requires_unlocked_epoch operation = true
      ∧ cd_lock_active (coordinator x) = false ∧ cd_epoch (coordinator x) = permit_unlock_epoch permit
  end.

Section world.
Context `{Minicbor}.
Context {W : Type} `{Env W, Threads W, ThreadsModel W, Serving W}.
Context (context : DispatchContext) (outcome : ExecutionOutcome) (w0 : W).

(** The request was in time and is not cancelled, unless it is a lock; and nothing has
    revoked what it was admitted for. *)
Record fresh (x : Shared) : Prop := {
  fr_deadline : in_time w0 (dc_deadline context);
  fr_cancel : permit_operation (dc_permit context) = OperationCode.Lock
    ∨ sh_flags x !! rr_cancellation (dc_registration context) ≠ Some true;
  fr_permitted : permitted (dc_permit context) (eo_replayed outcome) x;
}.

(** What the outcome of a browser fill depends on. *)
Record current (x : Shared) : Prop := {
  cu_deadline d : eo_browser_deadline outcome = Some d → in_time w0 d;
  cu_generation g : eo_browser_generation outcome = Some g → g ≠ max_of 64 ∧ rt_accounts_generation (sh_runtime x) = g;
}.

Definition deliverable (x : Shared) : Prop :=
  eo_error outcome = None ∧ (eo_committed outcome = true ∨ fresh x) ∧ current x.

(** A response that may be written: an error, without data; or what a deliverable
    outcome holds. *)
Record cleared (response : ResponseEnvelope) (x : Shared) : Prop := {
  cl_fits (w : W) : response_fits (connection w) response = true;
  cl_correlation : rs_correlation_id response = dc_correlation context;
  cl_error : rs_error response ≠ None → rs_body response = [];
  cl_success : rs_error response = None → deliverable x ∧
    if reports_status (permit_operation (dc_permit context))
    then ∃ state, encode_status state (cd_epoch (coordinator x)) = Ok (rs_body response)
    else rs_body response = eo_body outcome;
}.
End world.

Section responses.
Context `{MinicborLaws, CryptoLaws, UrlLaws}.
Context {W : Type} `{AgentLaws W, !EnvLaws W, !Threads W, !Connections, !ThreadsModel W, !ThreadsLaws W, !StorageLaws W, !Serving W, !ServingLaws W}.
Context (held : gset MutexName) (permits : gset FlagName).
Context (Hgate : CommitGate ∈ held).

Lemma stable_fresh context outcome (w0 : W) : stable (holding held permits (fresh context outcome w0)).
Proof.
  apply stable_gate; [done|]. intros s s' _ _ He Hl Hf [? Hc Hp]. split; [done|destruct Hc; auto|].
  unfold permitted in *. rewrite He. by destruct (permit_operation _); intuition.
Qed.
Lemma stable_current outcome (w0 : W) : stable (holding held permits (current outcome w0)).
Proof.
  intros s s' He (Hh & Hp & [Hd Hg]). split_and!; [by rewrite (es_held _ _ He)|by rewrite (es_permits _ _ He)|].
  split; [done|]. intros g Hx. rewrite (es_gate_generation _ _ He) by (by rewrite Hh). by apply Hg.
Qed.

(** A look at the shared state that is still true afterwards. *)
Lemma seen_rule {E A} (F : Shared → Prop) (G : A → Shared → Prop) (R : E → W → Prop) w0 (f : Shared → A) :
  stable (holding held permits F) → (∀ x, G (f x) x) →
  triple (following w0 (holding held permits F)) (observe f)
    (λ a, following w0 (holding held permits (λ x, F x ∧ G a x))) R.
Proof. intros HF HG. apply observe_rule; [done|]. by intros x (? & ? & ?). Qed.

Lemma not_locked_rule {E} (F : Shared → Prop) (R : E → W → Prop) w0 :
  stable (holding held permits F) →
  triple (following w0 (holding held permits F)) (or_else lock_active not_unlocked)
    (λ b, following w0 (holding held permits (λ x, F x ∧ (b = false → cd_lock_active (coordinator x) = false)))) R.
Proof.
  intros HF. set (G x := F x ∧ cd_lock_active (coordinator x) = false).
  assert (stable (holding held permits G)) as HG.
  { apply stable_and; [done|]. apply stable_gate; auto. }
  eapply (or_else_rule _ (following w0 (holding held permits G))).
  - eapply triple_post; [apply (seen_rule F (λ b x, cd_lock_active (coordinator x) = b)); done|].
    intros [] w Hw; [|done]. eapply following_weaken; [|exact Hw]. by intros x (? & ? & ? & ?).
  - apply not_unlocked_rule; [done|]. intros b w Hw. eapply following_weaken; [|exact Hw].
    by intros x (? & ? & ? & ?).
Qed.

Lemma still_authorized_rule {E} (F : Shared → Prop) (R : E → W → Prop) w0 permit outcome :
  stable (holding held permits F) →
  triple (following w0 (holding held permits F)) (outcome_is_still_authorized permit outcome)
    (λ b, following w0 (holding held permits (λ x, F x ∧ (b = true → permitted permit (eo_replayed outcome) x)))) R.
Proof.
  intros HF. unfold outcome_is_still_authorized, permitted.
  assert (∀ (P : Prop), P → triple (E:=E) (following w0 (holding held permits F)) (mret (bool_decide (eo_error outcome = None)))
    (λ b, following w0 (holding held permits (λ x, F x ∧ (b = true → P)))) R) as Hret.
  { intros P HP. apply triple_ret. intros w Hw. eapply following_weaken; [|exact Hw]. by intros x (? & ? & ?). }
  assert (∀ P : Shared → Prop, (∀ x, cd_lock_active (coordinator x) = false → P x) →
    triple (E:=E) (following w0 (holding held permits F)) (b ← or_else lock_active not_unlocked; mret (negb b))
    (λ b, following w0 (holding held permits (λ x, F x ∧ (b = true → P x)))) R) as Hlock.
  { intros P HP. eapply triple_bind; [by apply not_locked_rule|]. intros b. apply triple_ret.
    intros w Hw. eapply following_weaken; [|exact Hw]. intros x (? & ? & ? & Hl). split_and!; [done..|].
    intros Hb. apply HP, Hl. by destruct b. }
  assert (∀ rest, triple (E:=E) (following w0 (holding held permits F))
    (if rest : bool then b ← or_else (or_else lock_active not_unlocked) (other_epoch (permit_unlock_epoch permit)); mret (negb b)
     else mret false)
    (λ b, following w0 (holding held permits (λ x, F x ∧ (b = true → rest = true
      ∧ cd_lock_active (coordinator x) = false ∧ cd_epoch (coordinator x) = permit_unlock_epoch permit)))) R) as Hepoch.
  { intros [].
    2: { apply triple_ret. intros w Hw. eapply following_weaken; [|exact Hw]. by intros x (? & ? & ?). }
    set (G x := F x ∧ cd_lock_active (coordinator x) = false).
    assert (stable (holding held permits G)) as HG.
    { apply stable_and; [done|]. apply stable_gate; auto. }
    apply (triple_bind _ _ _ (λ b, following w0 (holding held permits (λ x, F x ∧ (b = false →
      cd_lock_active (coordinator x) = false ∧ cd_epoch (coordinator x) = permit_unlock_epoch permit))))).
    - eapply (or_else_rule _ (following w0 (holding held permits G))).
      + eapply triple_post; [by apply not_locked_rule|].
        intros [] w Hw; (eapply following_weaken; [|exact Hw]); intros x (? & ? & ? & Hl); split_and!; try done.
        split; auto.
      + eapply triple_post; [by apply other_epoch_rule|]. intros b w Hw. eapply following_weaken; [|exact Hw].
        intros x [(? & ? & [? ?]) He]. split_and!; try done. auto.
    - intros b. apply triple_ret. intros w Hw. eapply following_weaken; [|exact Hw].
      intros x (? & ? & ? & Hx). split_and!; [done..|]. intros Hb. destruct b; [done|]. by split; [|apply Hx]. }
  destruct (permit_operation permit); first [by apply Hret|apply Hlock; by auto|apply Hepoch].
Qed.

(** What the revision of an outcome keeps of it. *)
Lemma revise_rule (R : DispatchError → W → Prop) w0 context completion outcome :
  triple (following w0 (idle held permits)) (revise context completion outcome)
    (λ o, following w0 (holding held permits (λ x, eo_error o = None →
      o = outcome ∧ (eo_committed outcome = true ∨ fresh context outcome w0 x)))) R.
Proof.
  assert (∀ o (X : ExecutionOutcome → Shared → Prop) F, eo_error o ≠ None → triple (E:=DispatchError) (following w0 (holding held permits F)) (mret o)
    (λ o, following w0 (holding held permits (λ x, eo_error o = None → X o x))) R) as Herr.
  { intros o X F Ho. apply triple_ret. intros w Hw. eapply following_weaken; [|exact Hw]. by intros x (? & ? & ?). }
  unfold revise. destruct (eo_committed outcome) eqn:Hc.
  { apply triple_ret. intros w Hw. eapply following_weaken; [|exact Hw]. intros x (? & ? & ?). split_and!; [done..|].
    split; [done|by left]. }
  case_bool_decide; [by apply (Herr _ (λ o x, o = outcome ∧ (_ ∨ _)))|].
  destruct (bool_decide (eo_error outcome = None) || _) eqn:Hn.
  2: { apply orb_false_iff in Hn as [Hn%bool_decide_eq_false _]. by apply (Herr _ (λ o x, o = outcome ∧ (_ ∨ _))). }
  clear Hn. set (permit := dc_permit context) in *.
  set (uncancelled x := permit_operation permit = OperationCode.Lock
    ∨ sh_flags x !! rr_cancellation (dc_registration context) ≠ Some true).
  assert (stable (holding held permits uncancelled)) as Hu.
  { apply stable_gate; [done|]. intros s s' _ _ _ _ Hf [?|?]; [by left|right; auto]. }
  eapply triple_bind.
  { apply (seen_rule (λ _, True) (λ b x, b = bool_decide (sh_flags x !! rr_cancellation (dc_registration context) = Some true)));
      [apply stable_idle|done]. }
  intros flag; cbn beta. destruct (flag && negb _) eqn:Hflag; [by apply (Herr _ (λ o x, o = outcome ∧ (_ ∨ _)))|].
  eapply (triple_from (following w0 (holding held permits uncancelled))).
  { intros w Hw. eapply following_weaken; [|exact Hw]. intros x (? & ? & _ & ->). split_and!; [done..|].
    unfold uncancelled. apply andb_false_iff in Hflag as [?%bool_decide_eq_false|Hl%negb_false_iff%bool_decide_eq_true]; auto. }
  eapply triple_bind; [by apply past_rule|]. intros [].
  { eapply triple_from; [|by apply (Herr _ (λ o x, o = outcome ∧ (_ ∨ _)))]. intros w [Hw _]. exact Hw. }
  apply (triple_pre (λ w, following w0 (holding held permits uncancelled) w ∧ (false = false → clock w0 < dc_deadline context))).
  intros w1 [Hw1 Ht]. apply (triple_from (following w0 (holding held permits uncancelled))); [by intros ? ->|].
  set (still b (x : Shared) := uncancelled x ∧ (b = true → permitted permit (eo_replayed outcome) x)).
  apply (triple_bind _ _ _ (λ b, following w0 (holding held permits (still b)))).
  - eapply (or_else_rule _ (following w0 (holding held permits uncancelled))).
    + eapply triple_post; [by apply still_authorized_rule|]. intros [] w Hw; [exact Hw|].
      eapply following_weaken; [|exact Hw]. by intros x (? & ? & ? & _).
    + apply triple_ret. intros w Hw. eapply following_weaken; [|exact Hw]. intros x (? & ? & ?). split_and!; [done..|].
      split; [done|]. intros [Hr Hop%bool_decide_eq_true]%andb_true_iff. unfold permitted. rewrite Hop. by right.
  - intros []; [|by apply (Herr _ (λ o x, o = outcome ∧ (_ ∨ _)))]. apply triple_ret. intros w Hw. eapply following_weaken; [|exact Hw].
    intros x (? & ? & Hx & Hp). split_and!; [done..|]. intros _. split; [done|]. right. split; [by apply Ht|done|by apply Hp].
Qed.

Lemma revise_browser_rule (R : DispatchError → W → Prop) w0 outcome (X : Shared → Prop) :
  stable (holding held permits X) →
  triple (following w0 (holding held permits X)) (revise_browser outcome)
    (λ o, following w0 (holding held permits (λ x, X x ∧ (eo_error o = None → o = outcome ∧ current outcome w0 x)))) R.
Proof.
  intros HX. unfold revise_browser.
  set (late_ok b := ∀ d, b = false → eo_browser_deadline outcome = Some d → in_time w0 d).
  apply (triple_bind _ _ _ (λ b w, following w0 (holding held permits X) w ∧ late_ok b)).
  { destruct (eo_browser_deadline outcome) as [d|] eqn:Hd; cbn [from_option]; [|by apply triple_ret].
    eapply triple_post; [by apply past_rule|]. intros b w [Hw Ht]. split; [done|]. intros d' Hb [= <-]. by apply Ht. }
  intros late. apply (triple_pre (λ w, following w0 (holding held permits X) w ∧ late_ok late)). intros w1 [Hw1 Hlate].
  apply (triple_from (following w0 (holding held permits X))); [by intros ? ->|]. cbv zeta.
  set (o := if late then deadline_outcome else outcome).
  apply (triple_bind _ _ _ (λ b, following w0 (holding held permits (λ x, X x ∧
    (b = false → ∀ g, eo_browser_generation o = Some g → g ≠ max_of 64 ∧ rt_accounts_generation (sh_runtime x) = g))))).
  - destruct (eo_browser_generation o) as [g|]; cbn [from_option].
    2: { apply triple_ret. intros w Hw. eapply following_weaken; [|exact Hw]. by intros x (? & ? & ?). }
    destruct (g =? max_of 64) eqn:Hg.
    { apply triple_ret. intros w Hw. eapply following_weaken; [|exact Hw]. by intros x (? & ? & ?). }
    apply Z.eqb_neq in Hg. eapply triple_bind; [by apply (seen_rule X (λ n x, n = rt_accounts_generation (sh_runtime x)))|].
    intros n. apply triple_ret. intros w Hw. eapply following_weaken; [|exact Hw].
    intros x (? & ? & ? & ->). split_and!; [done..|]. intros Hn%negb_false_iff%Z.eqb_eq g' [= <-]. by split.
  - intros b. apply triple_ret. intros w Hw. eapply following_weaken; [|exact Hw].
    intros x (? & ? & ? & Hx). split_and!; [done..|]. destruct b; [done|]. unfold o in *. destruct late; [done|].
    intros Ho. split; [done|]. split; [intros d; by apply Hlate|by apply Hx].
Qed.

Lemma stable_deliverable context outcome (w0 : W) : stable (holding held permits (deliverable context outcome w0)).
Proof.
  intros s s' He (Hh & Hp & Hn & Hf & Hc). destruct (stable_current outcome w0 s s' He) as (? & ? & ?); [by split_and!|].
  split; [done|]. split; [done|]. split; [done|]. split; [|done]. destruct Hf as [|Hf]; [by left|right]. by apply (stable_fresh context outcome w0 s s' He).
Qed.

Lemma of_connection_rule {E A} P (field : Session.Connection → A) (R : E → W → Prop) :
  triple P (of_connection field) (λ a w, P w ∧ a = field (connection w)) R.
Proof. by intros w Hw. Qed.

Lemma result_rule {S E A} (P : S → Prop) (r : result E A) :
  r ≠ Panic → triple P (of_result r) (λ a s, P s ∧ r = Ok a) (λ _ s, P s).
Proof. intros Hr s Hs. by destruct r. Qed.

Lemma response_Ok error retry correlation body r :
  ResponseEnvelope_new error retry correlation body = Ok r →
  rs_error r = error ∧ rs_correlation_id r = correlation ∧ rs_body r = body.
Proof. unfold ResponseEnvelope_new. rewrite bind_Ok. by intros ([] & _ & [= <-]). Qed.
Lemma response_not_Panic error retry correlation body : ResponseEnvelope_new error retry correlation body ≠ Panic.
Proof. unfold ResponseEnvelope_new. apply bind_not_Panic; [apply fail_if_not_Panic|done]. Qed.

(** A response that does not fit is replaced by an error. *)
Lemma bounded_response_rule P response correlation :
  triple P (bounded_response response correlation)
    (λ r (w : W), P w ∧ (∀ w' : W, response_fits (connection w') r = true)
      ∧ (r = response ∨ rs_error r ≠ None ∧ rs_body r = [] ∧ rs_correlation_id r = correlation))
    (λ _ w, P w).
Proof.
  assert (∀ r (w w' : W), response_fits (connection w) r = true → response_fits (connection w') r = true) as Hfix.
  { intros r w w'. unfold response_fits. by rewrite (sp_limits _ _ (same_connection w w')). }
  unfold bounded_response. eapply triple_bind; [apply of_connection_rule|]. intros []; cbn beta.
  { apply triple_ret. intros w [Hw Hf]. split_and!; [done|by intros; eapply Hfix|by left]. }
  apply (triple_from P); [by intros w [Hw _]|].
  eapply triple_bind; [by apply result_rule, map_err_not_Panic, response_not_Panic|]. intros r; cbn beta.
  eapply triple_bind; [apply of_connection_rule|]. intros []; cbn beta.
  - apply triple_ret. intros w [[Hw (Herr & ? & ?)%map_err_Ok%response_Ok] Hf].
    split_and!; [done|by intros; eapply Hfix|right; split_and!; [by rewrite Herr|done..]].
  - by intros w [[Hw _] _].
Qed.

Lemma into_response_Ok o correlation r :
  into_response o correlation = Ok r →
  rs_correlation_id r = correlation ∧ (rs_error r ≠ None → rs_body r = [])
  ∧ (rs_error r = None → eo_error o = None ∧ rs_body r = eo_body o).
Proof.
  unfold into_response. destruct (eo_error o); rewrite map_err_Ok; intros (? & ? & ?)%response_Ok; split_and!; try congruence; intros; split; congruence.
Qed.
Lemma into_response_not_Panic o correlation : into_response o correlation ≠ Panic.
Proof. unfold into_response. destruct (eo_error o); apply map_err_not_Panic, response_not_Panic. Qed.

Lemma revoke_lease_rule w0 connection_id :
  BrowserLeasesMutex ∉ held →
  triple (following w0 (idle held permits)) (revoke_lease connection_id) (λ _ : unit, following w0 (idle held permits))
    (λ _, following w0 (idle held permits)).
Proof.
  intros Hl. unfold revoke_lease. apply (with_mutex_rule _ (λ _, idle held permits) (λ _, idle held permits)); [apply stable_idle|..].
  - intros x (Hh & ? & _). rewrite Hh. by split_and!.
  - intros x (Hh & ? & _). split; [by split|]. split_and!; [cbn; rewrite Hh; set_solver|done|done].
Qed.


(** With the gate held, an outcome becomes a response that may be written. *)
Lemma conclude_rule w0 context outcome :
  BrowserLeasesMutex ∉ held → u64 (cd_epoch (coordinator (shared w0))) →
  triple (following w0 (idle held permits)) (conclude context outcome)
    (λ r, following w0 (holding held permits (cleared context outcome w0 r)))
    (λ _, following w0 (idle held permits)).
Proof.
  intros Hl Hepoch. unfold conclude. cbv zeta. set (operation := permit_operation (dc_permit context)) in *.
  assert (∀ F w, following w0 (holding held permits F) w → following w0 (idle held permits) w) as Hidle.
  { intros F w. apply following_weaken. by intros x (? & ? & _). }
  eapply triple_bind; [apply triple_map_err, on_connection_rule; [apply stable_idle|apply finish_not_Panic]|].
  intros completion; cbn beta. eapply triple_bind; [apply revise_rule|]. intros o1; cbn beta.
  set (X x := eo_error o1 = None → o1 = outcome ∧ (eo_committed outcome = true ∨ fresh context outcome w0 x)).
  eapply triple_bind.
  { apply (revise_browser_rule _ w0 o1 X). intros s s' He (Hh & Hp & Hx).
    split_and!; [by rewrite (es_held _ _ He)|by rewrite (es_permits _ _ He)|]. intros Ho. destruct (Hx Ho) as [-> Hf]. split; [done|].
    destruct Hf as [|Hf]; [by left|right]. by apply (stable_fresh context outcome w0 s s' He). }
  intros o2; cbn beta.
  apply (triple_from (following w0 (holding held permits (λ x, eo_error o2 = None → o2 = outcome ∧ deliverable context outcome w0 x)))).
  { intros w Hw. eapply following_weaken; [|exact Hw]. intros x (? & ? & Hx & Hc). split_and!; [done..|]. intros Ho.
    destruct (Hc Ho) as [-> ?], (Hx Ho) as [-> ?]. by split_and!. }
  apply (triple_bind _ _ _ (λ _, following w0 (holding held permits
    (λ x, eo_error o2 = None → o2 = outcome ∧ deliverable context outcome w0 x)))).
  { destruct (bool_decide (is_Some (eo_error o2)) && _) eqn:Hb; [|by apply triple_ret].
    apply andb_true_iff in Hb as [[e He]%bool_decide_eq_true _].
    eapply triple_from; [intros w; apply Hidle|]. eapply triple_bind; [apply of_connection_rule|]. intros i.
    eapply triple_weaken; [by apply (revoke_lease_rule w0 i)|by intros w [? _]| |auto].
    intros [] w Hw. eapply following_weaken; [|exact Hw]. intros x (? & ? & _). split_and!; [done..|]. congruence. }
  intros _.
  set (F o x := eo_error o = None → deliverable context outcome w0 x ∧
    if reports_status operation then ∃ state, encode_status state (cd_epoch (coordinator x)) = Ok (eo_body o)
    else eo_body o = eo_body outcome).
  apply (triple_bind _ _ _ (λ o, following w0 (holding held permits (F o)))).
  { destruct (bool_decide (eo_error o2 = None) && reports_status operation) eqn:Hb.
    - apply andb_true_iff in Hb as [Hn%bool_decide_eq_true Hs]. unfold F. rewrite Hs.
      apply (triple_from (following w0 (holding held permits (deliverable context outcome w0)))).
      { intros w Hw. eapply following_weaken; [|exact Hw]. intros x (? & ? & Hx). split_and!; [done..|by apply Hx]. }
      eapply triple_bind; [apply (look_rule _ (λ _, following w0 (holding held permits (deliverable context outcome w0))));
        [apply stable_deliverable|done]|].
      intros st; cbn beta. eapply triple_bind.
      { apply (seen_rule _ (λ n x, n = cd_epoch (coordinator x))); [apply stable_deliverable|done]. }
      intros n; cbn beta. eapply (triple_bind _ _ _ (λ body w, following w0 (holding held permits
        (λ x, deliverable context outcome w0 x ∧ n = cd_epoch (coordinator x))) w ∧ encode_status st n = Ok body)).
      { intros w Hw. pose proof Hw as (_ & [_ [_ _ _ Hu]] & _ & _ & _ & ->). specialize (Hu Hepoch).
        pose proof (encode_status_ok st _ Hu) as Hok. unfold of_result. by destruct (encode_status st _). }
      intros body; cbn beta. apply triple_ret. intros w [Hw He]. eapply following_weaken; [|exact Hw].
      intros x (? & ? & ? & ->). split_and!; [done..|]. intros _. split; [done|]. by exists st.
    - apply triple_ret. intros w Hw. eapply following_weaken; [|exact Hw]. intros x (? & ? & Hx). split_and!; [done..|].
      intros Hn. destruct (Hx Hn) as [-> ?]. split; [done|]. rewrite bool_decide_true in Hb by done. cbn in Hb. by rewrite Hb. }
  intros o3; cbn beta. eapply triple_bind.
  { eapply triple_weaken; [apply result_rule, into_response_not_Panic|intros w Hw; exact Hw|
      intros a w Hw; exact Hw|intros e w Hw; exact (Hidle _ _ Hw)]. }
  intros r; cbn beta. eapply triple_weaken; [apply bounded_response_rule|intros w Hw; exact Hw| |].
  - intros r' w ((Hw & (Hcor & Herr & Hok)%into_response_Ok) & Hfits & Hr'). eapply following_weaken; [|exact Hw].
    intros x (? & ? & Hx). split_and!; [done..|]. destruct Hr' as [->|(? & ? & ?)]; [|by split].
    split; [done..|]. intros Hn. destruct (Hok Hn) as [Ho ->]. by apply Hx.
  - intros e w [Hw _]. exact (Hidle _ _ Hw).
Qed.
End responses.

(** ** Properties *)

Section properties.
Context `{MinicborLaws, CryptoLaws, UrlLaws}.
Context {W : Type} `{AgentLaws W, !EnvLaws W, !Threads W, !Connections, !ThreadsModel W, !ThreadsLaws W, !StorageLaws W, !Serving W, !ServingLaws W}.

(** The permits while a response is written: a lock that was just made keeps its flag. *)
Definition transition_permits (outcome : ExecutionOutcome) (permits : gset FlagName) : gset FlagName :=
  if eo_holds_lock_transition outcome then {[LockFlag]} ∪ permits else permits.

(** What the writer is called with, and what it does: with the gate held since [w1], a
    cleared response; it keeps the guards, changes no file, and [Q] holds if it succeeds. *)
Definition writes_cleared {A} (w0 : W) (held : gset MutexName) (permits : gset FlagName) (context : DispatchContext)
    (outcome : ExecutionOutcome) (write : ResponseEnvelope → stm W DispatchError A) (Q : A → Prop) : Prop :=
  ∀ response (w1 w : W), passes w0 w1 → idle ({[CommitGate]} ∪ held) permits (shared w1) →
    following w1 (holding ({[CommitGate]} ∪ held) permits (cleared context outcome w1 response)) w →
    match write response w with
    | (Ok a, w') => Q a ∧ following w (idle ({[CommitGate]} ∪ held) permits) w'
    | (Err _, w') => following w (idle ({[CommitGate]} ∪ held) permits) w'
    | (Panic, _) => False
    end.

Section finish.
Context {A : Type} (w0 : W) (held : gset MutexName) (context : DispatchContext) (outcome : ExecutionOutcome).
Context (write : ResponseEnvelope → stm W DispatchError A) (Q : A → Prop).
Context (Hheld : CommitGate ∉ held ∧ BrowserLeasesMutex ∉ held ∧ CancellationsMutex ∉ held).
Context (Hepoch : u64 (cd_epoch (coordinator (shared w0)))).
#[local] Abbreviation inside := ({[CommitGate]} ∪ held).

Lemma write_under_gate permits :
  writes_cleared w0 held permits context outcome write Q →
  triple (following w0 (idle inside permits))
    (response ← conclude context outcome;
     written ← attempt (write response);
     modify (drop_context context);;
     mret written)
    (λ r w, following w0 (idle inside permits) w ∧ r ≠ Panic ∧ ∀ a, r = Ok a → Q a)
    (λ _ : DispatchError, following w0 (idle inside permits)).
Proof.
  intros Hw. apply triple_pre. intros w1 Hw1. destruct Hheld as (? & ? & ?).
  assert (CommitGate ∈ inside) as Hg by set_solver.
  assert (u64 (cd_epoch (coordinator (shared w1)))) as Hu.
  { pose proof Hw1 as (_ & [_ [_ _ _ Hu]] & _). auto. }
  assert (∀ w, following w1 (idle inside permits) w → following w0 (idle inside permits) w) as Htr.
  { intros w. by eapply following_trans. }
  apply (triple_from (following w1 (idle inside permits))).
  { intros w ->. apply following_refl. by destruct Hw1 as (_ & _ & ?). }
  eapply triple_bind.
  { eapply triple_weaken; [apply (conclude_rule inside permits Hg w1 context outcome); [set_solver|done]|done|
      intros r w Hr; exact Hr|intros e w He; by apply Htr]. }
  intros response; cbn beta.
  eapply (triple_bind _ _ _ (λ r w, following w1 (idle inside permits) w ∧ r ≠ Panic ∧ ∀ a, r = Ok a → Q a)).
  - intros w Hr. pose proof Hw1 as (_ & Hp & Hi). specialize (Hw response w1 w Hp Hi Hr).
    assert (∀ w', following w (idle inside permits) w' → following w1 (idle inside permits) w') as Htr'.
    { intros w'. by eapply following_trans. }
    unfold attempt. destruct (write response w) as [[a|e|] w']; [|split_and!; [by apply Htr'|done|done]|done].
    destruct Hw as [? ?]. split_and!; [by apply Htr'|done|by intros ? [= <-]].
  - intros r. eapply (triple_bind _ _ _ (λ _ w, following w0 (idle inside permits) w ∧ r ≠ Panic ∧ ∀ a, r = Ok a → Q a));
      [|intros u; by apply triple_ret].
    apply triple_modify. intros w (? & ? & ?). split_and!; [|done|done]. apply Htr. apply drop_context_rule; [set_solver|done].
Qed.

Lemma write_gated permits :
  writes_cleared w0 held permits context outcome write Q →
  triple (following w0 (idle held permits))
    (acquire CommitGate DispatchInternal;;
     finally (
       response ← conclude context outcome;
       written ← attempt (write response);
       modify (drop_context context);;
       mret written) (drop_guard CommitGate))
    (λ r w, following w0 (idle held permits) w ∧ r ≠ Panic ∧ ∀ a, r = Ok a → Q a)
    (λ _ : DispatchError, following w0 (idle held permits)).
Proof.
  intros Hw. destruct Hheld as (? & _). assert (inside ∖ {[CommitGate]} = held) as Hback by set_solver.
  assert (∀ w, following w0 (idle inside permits) w → following w0 (idle held permits) (drop_guard CommitGate w)) as Hdrop.
  { intros w. apply drop_guard_rule. intros x Hx%(idle_drop _ _ CommitGate). by rewrite Hback in Hx. }
  eapply (triple_bind _ _ _ (λ _, following w0 (idle inside permits))).
  - eapply triple_weaken; [apply (acquire_rule (idle held permits) (idle inside permits) CommitGate DispatchInternal w0)|done|done|].
    + apply stable_idle.
    + intros x (Hh & Hp & _). split; [by rewrite Hh|]. split_and!; [by cbn; rewrite Hh|done|done].
    + intros e w Hx. eapply following_weaken; [|exact Hx]. by intros x [].
  - intros _. apply finally_rule. eapply triple_weaken; [by apply write_under_gate|done|..].
    + intros r w (? & ? & ?). split_and!; [by apply Hdrop|done|done].
    + intros e w. apply Hdrop.
Qed.
End finish.

End properties.

Module Examples.
Import Rfc8949 Toy VaultCore.Examples VaultRefine.Examples MemoryDisk AgentRefine.Examples RuntimeRefine.Examples.

(** A single thread that serves one connection. *)
Abbreviation Served := (Disk (Shared * Mutex ConnectionState)).
Definition set_memory (m : Shared * Mutex ConnectionState) (w : Served) : Served :=
  {| dk_files := dk_files w; dk_view := dk_view w; dk_calls := dk_calls w; dk_memory := m |}.
#[export] Instance served_threads : Threads Served := {|
  shared w := (dk_memory w).1;
  set_shared s w := set_memory (s, (dk_memory w).2) w;
  others w := w;
  others_agent p := p;
  instant_now w := (0, w);
  instant_checked_add := checked_add 64;
|}.
#[export] Instance served_threads_model : ThreadsModel Served := {| clock _ := 0 |}.
#[export] Instance served_threads_laws : ThreadsLaws Served.
Proof.
  split; try done.
  intros w w' Hw. change (dk_memory w' = dk_memory w) in Hw. cbn. by rewrite Hw.
Qed.
Definition with_state (m : Mutex ConnectionState) (c : Session.Connection) : Session.Connection :=
  {| cn_role := cn_role c; cn_version := cn_version c; cn_process_id := cn_process_id c;
     cn_granted_features := cn_granted_features c; cn_connection_id := cn_connection_id c;
     cn_limits := cn_limits c; cn_state := m |}.
#[export] Instance served_serving : Serving Served := {|
  connection w := with_state (dk_memory w).2 example_connection;
  set_connection c w := set_memory ((dk_memory w).1, cn_state c) w;
|}.
#[export] Instance served_serving_laws : ServingLaws Served.
Proof. by split. Qed.

(** A request to read an account is in flight, and its account was found. *)
Definition in_progress : Mutex ConnectionState :=
  Build_Mutex false {| last_request_id := 1; issued_request_ids := {[1]}; in_flight := {[1 := Active]}; closed := false |}.
Definition served : Served := world (unlocked_agent_with (memory, in_progress)).
Definition read_context : DispatchContext :=
  {| dc_permit := {| permit_request_id := 1; permit_operation := OperationCode.GetAccount; permit_unlock_epoch := 2;
                     permit_effective_timeout_ms := 1000 |};
     dc_registration := request; dc_deadline := 100; dc_correlation := replicate 16 x05 |}.
Definition found : ExecutionOutcome := success (str "account").

Definition written_run := finish_dispatch read_context found mret served.
Lemma written_succeeds : (rs_error <$> match written_run.1 with Ok r => Some r | _ => None end) = Some None.
Proof. vm_compute. reflexivity. Qed.

End Examples.
